(* ===== verification/_CoqProject ===== *)
-Q . S2P
Prelude.v
Utf8.v
Unicode.v
Strconv.v
Keys.v
Page.v
Row.v
BTree.v
JsonBin.v
SqlLex.v
Wal.v
WalJson.v
Mvcc.v
Compact.v
Checkpoint.v
Shutdown.v
System.v
Durable.v
Witnesses.v
Catalog.v
CatalogJson.v
Secondary.v
SqlAst.v
SqlParse.v
SqlParseSpec.v
SqlPrint.v
SqlBind.v
SqlBindSpec.v
SqlExec.v
SqlKernel.v
SqlBase.v
SqlSemantics.v
SqlState.v
SqlIndexes.v
SqlRows.v
SqlFrame.v
SqlSchema.v
SqlData.v
SqlRebuild.v
SqlRefine.v
Server.v
ServerSpec.v
ServerRefine.v
SqlWitness.v
SqlFindings.v
ServerWitness.v
