(* ===== verification/Prelude.v ===== *)
(** * A verification of runneldb

    runneldb (src/, package runneldb, Go) is an embedded database: an MVCC
    key-value kernel over a write-ahead log, a SQL layer stored in the same keys,
    and an HTTP interface to both.  This library models the program's definitions
    as Rocq functions, translated from the source, and proves what makes them
    correct.  This file is the root: it documents the development and holds what
    every part shares.

    ** The program and the files that model it

    The kernel:

    - wal.go, the log: a 16-byte header and frames of length, CRC-32 and a JSON
      record.  [Wal.v] models encoding, appending, replay, the repair of a torn
      tail and the search that tells a torn tail from corruption.  A file is
      its bytes.  encoding/json is the interface [RecordCodec], with the laws
      the log relies on; [WalJson.v] gives the JSON text of records and a
      decoder for it, proves the laws and so shows they can be met.
    - db.go, tx.go, scan.go: versions per key, transactions with a
      read version and buffered writes, first-committer-wins commit, prefix
      scans.  [Mvcc.v] has one definition per method.  The locks serialise the
      methods, so each is one step on the state [DB]; transactions, pointers in
      the source, are named by numbers.
    - compact.go: [Compact.v] models pruning against the oldest open snapshot,
      the records of the new log, and the ways its file operations end.
      checkpoint.go and options.go: [Checkpoint.v] models one tick of the
      background worker that triggers it, [Shutdown.v] the worker's goroutine,
      its start, and its end by Close, statement by statement, with the lock, the
      channel and the wait group they share.
    - The kernel with its clients: [System.v] is the transition system in which
      any number of transactions interleave with compactions and failing
      writes, and [System.Spec] its contract, snapshot isolation without
      versions or pruning.  [Durable.v] adds opening a file and the states
      reachable from a new database.

    Storage formats and indexes:

    - keys.go: [Keys.v], over the decimal and path-escaping functions of
      [Strconv.v].  page.go: [Page.v].  row.go: [Row.v].  btree.go: [BTree.v].
      catalog.go: [Catalog.v], with [CatalogJson.v] for the JSON text of its
      entries.  secondary.go: [Secondary.v].  jsonbin.go: [JsonBin.v].
    - [Utf8.v] is unicode/utf8; [Unicode.v] the interface to the Unicode tables
      (letters, digits, spaces, case), with their values on ASCII.

    The SQL layer:

    - sql_lex.go: [SqlLex.v], with a printer of tokens as its specification.
      sql_ast.go: [SqlAst.v].  sql_parse.go: [SqlParse.v], the parser's methods in
      a monad of its state; [SqlParseSpec.v] has its weakest preconditions and
      [SqlPrint.v] a printer of statements.
    - sql_exec.go: [SqlBind.v] models parameters, values, conditions and the
      result cursor, [SqlBindSpec.v] what they promise; [SqlExec.v] has every
      statement, its transaction bodies, the collection of rows by key, index or
      scan, the maintenance of trees and indexes, and the rebuild at open.
    - Its contract: [SqlSemantics.v] says what conditions, assignments and the items
      of a query mean, apart from the executor's loops, and that these compute it;
      [SqlState.v] has tables as maps from keys to rows ([adb]), what
      each statement does to them ([spec_exec]) and when a database represents them
      ([rep]: the catalog and rows in the store, the primary-key trees, the
      secondary indexes).  [SqlKernel.v] reduces a transaction to its reads and
      writes of the current data; [SqlBase.v] has names, columns and keys;
      [SqlIndexes.v], [SqlRows.v] and [SqlFrame.v] the steps on indexes, the
      collected rows and the representation; [SqlSchema.v] and [SqlData.v] prove
      each statement, [SqlRebuild.v] the rebuild, and [SqlRefine.v] the theorems.
      [SqlFindings.v] has the theorems on where the code leaves the contract.

    The HTTP interface:

    - server.go: [Server.v] has every handler and the routing of net/http it relies
      on; [ServerSpec.v] proves the routes one by one and [ServerRefine.v] has the
      contract of the whole service.

    [Witnesses.v], [SqlWitness.v] and [ServerWitness.v] instantiate the theorems at
    concrete logs, runs, schedules, tables and requests.

    ** What the theorems show

    - Isolation: every interleaving returns what the contract returns
      (kernel_refines_snapshot_isolation); no update is lost, reads repeat,
      commits are atomic, scans agree with reads.
    - Durability: every reachable state survives a restart
      (restart_preserves_contents) and a crash at any byte of a commit
      (crash_during_commit); compaction is invisible to open transactions and its
      log replays to the same data.
    - SQL, within the statements the contract covers (below): every statement and
      every sequence of statements refines the contract, error paths and failing
      writes included (exec_refines_contract, history_refines_contract); queries
      return exactly the rows that satisfy the condition whichever index answers
      them (query_exact); stored rows are well typed (stored_rows_well_typed); a
      restart rebuilds the same tables, if the writes succeeded and the log is
      within 64 MiB (restart_preserves_tables).  The parser answers every text and
      inverts the printer.
    - HTTP: every sequence of requests, of any method and path, is answered as a map
      beside the tables answers it, from the bytes of the path to the status; only
      SQL that parses and binds to a statement outside the contract of SQL, or that
      begins with a word that is not ASCII, is left out (http_service_refines_contract).
    - Shutdown: Close neither panics nor deadlocks and returns once the ticker is
      silent for a bounded number of steps; it releases the worker and the file
      unless a failed compaction had closed the database before (close_returns,
      failed_reopen_leaks_worker).
    - The log: round trip, torn tails, idempotent recovery, detection of a
      flipped byte; and three ways in which it loses acknowledged data without
      an error (a failed append, an oversized record, a corrupt length).
    - Storage formats: pages refine lists of payloads, rows and binary JSON
      round-trip and their decoders are strict, keys are unambiguous, the
      nesting limit is exact; and where corrupt or extreme input escapes the
      checks (a page decoder panic, the float64 2^63).
    - Indexes: the B+tree is a map, iteration along sibling pointers is ordered
      and complete, its height is logarithmic; secondary lookup is exact on
      values without NUL bytes, and is not with them.
    - Where the code falls short, for every database and input of the kind:
      comparisons with NULL answered by an index (null_equality_uses_zero), index
      maintenance in another order than the commits
      (concurrent_updates_leave_stale_index), an UPDATE that changes the key
      (update_can_change_primary_key), texts with a NUL byte in an index
      (secondary_nul_false_match), a worker that a failed compaction leaves running,
      a PUT that is cut at 16 MiB; and, as examples, conditions of the wrong type
      and columns of one name.

    ** Conventions, bounds and fuel

    Go integers are [Z] with [u16], [u32], [u64], [i64] written where the
    source converts; version counters are shown not to wrap below 2^64 - 1
    operations.  Errors are values of [res] or [option error]; a wrapped error is
    identified with its sentinel.  A run-time panic, where the source can
    panic, is [None].  Loops that are not structural take fuel with a stated
    bound: replay one turn per record, each at least nine bytes, so the length
    of the file is enough; the lexer's loops one turn per byte at most; a list in
    the grammar one turn per token, so the length of the text is enough; the
    binary JSON decoder recurses on the levels of
    nesting the source allows; iteration of the tree on the number of leaves
    and entries; the cursor one turn per row.  Each bound is proved enough where it is used: the theorems
    give results, not conditionals on termination.

    The SQL contract covers ASCII names, distinct column names, values without NUL
    bytes and JSON whose paths extract, and conditions with one answer in every way
    the code can evaluate them: a single equality, which an index may answer, compares with a
    value of the column's type that is not NULL ([stmt_ok], [where_ok]); what
    happens outside is in [SqlFindings.v] and [Secondary.v].  Statements run one
    after the other; the order in which Go iterates its maps of indexes is
    arbitrary ([map_order]).

    ** What is not modelled

    The main program (cmd/runneldb: flags and start-up), the text of error
    messages and of JSON responses, time, and the operating system beyond the
    outcomes of its calls.  SQL statements that interleave with each other are
    only covered by the isolation of their transactions and by the finding on
    index maintenance.  Next are interleaved statements whose index updates keep
    the order of their commits, statements between compactions in the durability of
    tables, and requests that interleave on one server. *)

From Stdlib Require Export ZArith Lia.
From Stdlib Require Import Strings.Byte String.
From stdpp Require Export base tactics list gmap sorting.
Export String.StringSyntax.

Open Scope Z_scope.
Set Default Goal Selector "!".

(** * Bytes, strings and machine integers *)

(** A Go [byte].  Go strings and byte slices are both byte sequences; the
    conversions [[]byte(s)] and [string(b)] are the identity here, and a nil
    slice is the empty one (the code never tells them apart). *)
Abbreviation byte := Init.Byte.byte.
Abbreviation bytes := (list Init.Byte.byte).

Definition byte_val (b : byte) : Z := Z.of_N (Byte.to_N b).

(** The conversion [byte(z)]: the low eight bits of an integer. *)
Definition byte_of (z : Z) : byte :=
  default Byte.x00 (Byte.of_N (Z.to_N (z mod 256))).

(** Go string literals. *)
Definition lit (s : string) : bytes := String.list_byte_of_string s.
Arguments lit s%_string.

#[export] Instance byte_eq_dec : EqDecision Init.Byte.byte := Byte.byte_eq_dec.
#[export] Program Instance byte_countable : Countable Init.Byte.byte :=
  inj_countable Byte.to_N Byte.of_N _.
Next Obligation. exact Byte.of_to_N. Qed.

(** Unsigned and signed machine integers: the representative of [z] at the width. *)
Definition u16 (z : Z) : Z := z mod 2 ^ 16.
Definition u32 (z : Z) : Z := z mod 2 ^ 32.
Definition u64 (z : Z) : Z := z mod 2 ^ 64.
Definition i64 (z : Z) : Z := (z + 2 ^ 63) mod 2 ^ 64 - 2 ^ 63.

Definition in_i64 (z : Z) : Prop := - 2 ^ 63 <= z < 2 ^ 63.
Definition in_u64 (z : Z) : Prop := 0 <= z < 2 ^ 64.

(** Length of a slice, as an integer. *)
Definition zlen {A} (l : list A) : Z := Z.of_nat (length l).

(** [binary.LittleEndian]: [n] bytes of [z], least significant first, and back. *)
Fixpoint le_bytes (n : nat) (z : Z) : bytes :=
  match n with
  | O => []
  | S n' => byte_of z :: le_bytes n' (Z.shiftr z 8)
  end.

Fixpoint le_val (bs : bytes) : Z :=
  match bs with
  | [] => 0
  | b :: bs' => Z.lor (byte_val b) (Z.shiftl (le_val bs') 8)
  end.

(** * Results *)

(** The sentinel errors of errors.go, plus the errors the operating system and
    the decoders of the standard library hand through unchanged.  A wrapped
    error ([fmt.Errorf("%w: ...", ErrSQL)]) is identified with its sentinel, as
    [errors.Is] does. *)
Inductive error :=
  | ErrClosed
  | ErrConflict
  | ErrReadOnly
  | ErrTxClosed
  | ErrWALVersion
  | ErrWALCorrupt
  | ErrWALMagic
  | ErrReservedKey
  | ErrSQL
  | ErrRowTooLarge
  | ErrNotFound
  | ErrIO
  | ErrDecode.

#[export] Instance error_eq_dec : EqDecision error.
Proof. solve_decision. Defined.

Inductive res (A : Type) :=
  | Ok (a : A)
  | Err (e : error).
Arguments Ok {A} a.
Arguments Err {A} e.

#[export] Instance res_eq_dec `{EqDecision A} : EqDecision (res A).
Proof. solve_decision. Defined.

Definition rbind {A B} (m : res A) (k : A -> res B) : res B :=
  match m with
  | Ok a => k a
  | Err e => Err e
  end.

Declare Scope go_scope.
Delimit Scope go_scope with go.
Notation "'let!' x := m 'in' k" := (rbind m (fun x => k))
  (at level 10, x pattern, m at level 100, k at level 200) : go_scope.
Open Scope go_scope.

(** * Ordering of strings *)

(** Go compares strings byte by byte. *)
Fixpoint bytes_compare (a b : bytes) : comparison :=
  match a, b with
  | [], [] => Eq
  | [], _ :: _ => Lt
  | _ :: _, [] => Gt
  | x :: a', y :: b' =>
      match Z.compare (byte_val x) (byte_val y) with
      | Eq => bytes_compare a' b'
      | c => c
      end
  end.

Definition bytes_lt (a b : bytes) : Prop := bytes_compare a b = Lt.
Definition bytes_le (a b : bytes) : Prop := bytes_compare a b <> Gt.

#[export] Instance bytes_lt_dec : RelDecision bytes_lt.
Proof. intros a b. unfold bytes_lt. destruct (bytes_compare a b); (left + right); congruence. Defined.
#[export] Instance bytes_le_dec : RelDecision bytes_le.
Proof. intros a b. unfold bytes_le. destruct (bytes_compare a b); (left + right); congruence. Defined.

(** [strings.HasPrefix]. *)
Fixpoint has_prefix (s p : bytes) {struct p} : bool :=
  match p, s with
  | [], _ => true
  | _ :: _, [] => false
  | y :: p', x :: s' => bool_decide (x = y) && has_prefix s' p'
  end.

(** [sort.Strings]. *)
Definition sort_strings (l : list bytes) : list bytes := merge_sort bytes_le l.

(** * Automation *)

Create HintDb runnel discriminated.
#[export] Hint Constants Opaque : runnel.
#[export] Hint Variables Opaque : runnel.

(** Split the first [match] or [if] of the goal or of a hypothesis. *)
Ltac split_match :=
  match goal with
  | |- context [match ?x with _ => _ end] => destruct x eqn:?
  | H : context [match ?x with _ => _ end] |- _ => destruct x eqn:?
  end.

(** Turn boolean tests into the propositions they decide. *)
Ltac to_prop :=
  repeat match goal with
  | H : (_ <=? _)%Z = true |- _ => apply Z.leb_le in H
  | H : (_ <=? _)%Z = false |- _ => apply Z.leb_gt in H
  | H : (_ <? _)%Z = true |- _ => apply Z.ltb_lt in H
  | H : (_ <? _)%Z = false |- _ => apply Z.ltb_ge in H
  | H : (_ =? _)%Z = true |- _ => apply Z.eqb_eq in H
  | H : (_ =? _)%Z = false |- _ => apply Z.eqb_neq in H
  | H : bool_decide _ = true |- _ => apply bool_decide_eq_true_1 in H
  | H : bool_decide _ = false |- _ => apply bool_decide_eq_false_1 in H
  | H : _ && _ = true |- _ => apply andb_true_iff in H as [??]
  | H : _ || _ = false |- _ => apply orb_false_iff in H as [??]
  end.

(** * Lemmas on bytes *)

Lemma byte_val_range b : 0 <= byte_val b < 256.
Proof. unfold byte_val. pose proof (Byte.to_N_bounded b). lia. Qed.

Lemma byte_val_of z : byte_val (byte_of z) = z mod 256.
Proof.
  unfold byte_of, byte_val.
  assert (0 <= z mod 256 < 256) as Hr by (apply Z.mod_pos_bound; lia).
  destruct (Byte.of_N (Z.to_N (z mod 256))) as [b|] eqn:E; simpl.
  - apply Byte.to_of_N in E. rewrite E. lia.
  - apply Byte.of_N_None_iff in E. lia.
Qed.

Lemma byte_of_val b : byte_of (byte_val b) = b.
Proof.
  unfold byte_of. pose proof (byte_val_range b).
  rewrite Z.mod_small by lia. unfold byte_val.
  by rewrite N2Z.id, Byte.of_to_N.
Qed.

#[export] Instance byte_val_inj : Inj (=) (=) byte_val.
Proof. intros a b H. by rewrite <- (byte_of_val a), H, byte_of_val. Qed.

Lemma byte_of_mod z z' : z mod 256 = z' mod 256 -> byte_of z = byte_of z'.
Proof. intros H. apply (inj byte_val). by rewrite !byte_val_of. Qed.

(** * Lemmas on little-endian integers *)

Lemma length_le_bytes n z : length (le_bytes n z) = n.
Proof. revert z. induction n; intros; simpl; auto. Qed.

Lemma land_byte_shiftl b z : Z.land (byte_val b) (Z.shiftl z 8) = 0.
Proof.
  pose proof (byte_val_range b). apply Z.bits_inj'. intros i Hi.
  rewrite Z.land_spec, Z.bits_0, Z.shiftl_spec by lia.
  destruct (Z.ltb_spec i 8).
  - rewrite (Z.testbit_neg_r _ (i - 8)) by lia. by rewrite andb_false_r.
  - destruct (Z.eq_dec (byte_val b) 0) as [->|]; [by rewrite Z.bits_0|].
    rewrite (Z.bits_above_log2 (byte_val b)); [done|lia|].
    apply Z.log2_lt_pow2; [lia|].
    apply Z.lt_le_trans with (2 ^ 8); [lia|]. apply Z.pow_le_mono_r; lia.
Qed.

Lemma le_val_cons b bs : le_val (b :: bs) = byte_val b + 256 * le_val bs.
Proof.
  simpl. replace (256 * le_val bs) with (Z.shiftl (le_val bs) 8)
    by (rewrite Z.shiftl_mul_pow2 by lia; lia).
  rewrite Z.add_nocarry_lxor by apply land_byte_shiftl.
  symmetry. apply Z.lxor_lor, land_byte_shiftl.
Qed.

Lemma le_bytes_S n z : le_bytes (S n) z = byte_of z :: le_bytes n (z / 256).
Proof. simpl. by rewrite Z.shiftr_div_pow2 by lia. Qed.

Lemma le_val_bound bs : 0 <= le_val bs < 256 ^ zlen bs.
Proof.
  unfold zlen. induction bs as [|b bs IH]; [done|].
  rewrite le_val_cons. pose proof (byte_val_range b).
  cbn [length]. rewrite Nat2Z.inj_succ, Z.pow_succ_r by lia. lia.
Qed.

Lemma le_val_le_bytes n z : le_val (le_bytes n z) = z mod 256 ^ Z.of_nat n.
Proof.
  revert z. induction n as [|n IH]; intros z.
  - simpl. by rewrite Z.mod_1_r.
  - rewrite le_bytes_S, le_val_cons, byte_val_of, IH, Nat2Z.inj_succ, Z.pow_succ_r by lia.
    symmetry. apply Z.rem_mul_r; lia.
Qed.

Lemma le_bytes_le_val bs : le_bytes (length bs) (le_val bs) = bs.
Proof.
  induction bs as [|b bs IH]; [done|].
  cbn [length]. rewrite le_bytes_S, le_val_cons. pose proof (byte_val_range b). f_equal.
  - rewrite <- (byte_of_val b) at 2. apply byte_of_mod.
    rewrite (Z.mul_comm 256). apply Z_mod_plus_full.
  - rewrite (Z.mul_comm 256), Z.div_add, (Z.div_small (byte_val b)) by lia. apply IH.
Qed.

(** * Lemmas on the ordering of strings *)

Lemma bytes_compare_eq a b : bytes_compare a b = Eq <-> a = b.
Proof.
  revert b. induction a as [|x a IH]; intros [|y b]; simpl; try done.
  destruct (Z.compare_spec (byte_val x) (byte_val y)) as [E|E|E].
  - apply (inj byte_val) in E as ->. rewrite IH. naive_solver.
  - split; [done|]. intros [= -> _]. lia.
  - split; [done|]. intros [= -> _]. lia.
Qed.

Lemma bytes_compare_antisym a b : bytes_compare b a = CompOpp (bytes_compare a b).
Proof.
  revert b. induction a as [|x a IH]; intros [|y b]; simpl; try done.
  rewrite (Z.compare_antisym (byte_val x)).
  destruct (byte_val x ?= byte_val y); simpl; auto.
Qed.

Lemma bytes_compare_refl a : bytes_compare a a = Eq.
Proof. by apply bytes_compare_eq. Qed.

Lemma bytes_lt_trans a b c : bytes_lt a b -> bytes_lt b c -> bytes_lt a c.
Proof.
  unfold bytes_lt. revert b c. induction a as [|x a IH]; intros [|y b] [|z c]; simpl; try done.
  destruct (Z.compare_spec (byte_val x) (byte_val y)),
    (Z.compare_spec (byte_val y) (byte_val z)),
    (Z.compare_spec (byte_val x) (byte_val z)); try done; try lia; eauto.
Qed.

Lemma bytes_lt_irrefl a : ~ bytes_lt a a.
Proof. unfold bytes_lt. by rewrite bytes_compare_refl. Qed.

Lemma bytes_le_lt_eq a b : bytes_le a b <-> bytes_lt a b \/ a = b.
Proof.
  unfold bytes_le, bytes_lt. rewrite <- bytes_compare_eq.
  destruct (bytes_compare a b); naive_solver.
Qed.

#[export] Instance bytes_lt_strict : StrictOrder bytes_lt.
Proof. split; [intros a; apply bytes_lt_irrefl|intros a b c; apply bytes_lt_trans]. Qed.

#[export] Instance bytes_le_refl : Reflexive bytes_le.
Proof. intros a. unfold bytes_le. by rewrite bytes_compare_refl. Qed.

#[export] Instance bytes_le_trans : Transitive bytes_le.
Proof.
  intros a b c. rewrite !bytes_le_lt_eq. intros [H| ->] [H'| ->]; auto.
  left. by eapply bytes_lt_trans.
Qed.

#[export] Instance bytes_le_antisymm : AntiSymm (=) bytes_le.
Proof.
  intros a b. rewrite !bytes_le_lt_eq. intros [H|H] [H'|H']; auto.
  exfalso. apply (bytes_lt_irrefl a). by eapply bytes_lt_trans.
Qed.

#[export] Instance bytes_le_total : Total bytes_le.
Proof.
  intros a b. unfold bytes_le. rewrite (bytes_compare_antisym a b).
  destruct (bytes_compare a b); simpl; auto.
Qed.

Lemma sort_strings_perm l : sort_strings l ≡ₚ l.
Proof. apply merge_sort_Permutation. Qed.

Lemma sort_strings_sorted l : StronglySorted bytes_le (sort_strings l).
Proof. apply StronglySorted_merge_sort; apply _. Qed.

Lemma sort_strings_unique l l' : l ≡ₚ l' -> sort_strings l = sort_strings l'.
Proof.
  intros Hp. apply (StronglySorted_unique bytes_le); try apply sort_strings_sorted.
  by rewrite !sort_strings_perm.
Qed.

(** * Lemmas on prefixes *)

Lemma has_prefix_app s p : has_prefix s p = true <-> exists r, s = p ++ r.
Proof.
  revert s. induction p as [|y p IH]; intros s; simpl.
  - split; [intros _; by exists s|done].
  - destruct s as [|x s]; [split; [done|by intros [r [=]]]|].
    rewrite andb_true_iff, bool_decide_eq_true, IH. split.
    + intros [-> [r ->]]. by exists r.
    + intros [r [= -> ->]]. eauto.
Qed.

Lemma has_prefix_self p r : has_prefix (p ++ r) p = true.
Proof. apply has_prefix_app. eauto. Qed.

(** * Lemmas on slices *)

Lemma zlen_app {A} (l l' : list A) : zlen (l ++ l') = zlen l + zlen l'.
Proof. unfold zlen. rewrite length_app. lia. Qed.

Lemma zlen_nonneg {A} (l : list A) : 0 <= zlen l.
Proof. unfold zlen. lia. Qed.

Lemma zlen_nil {A} : zlen (@nil A) = 0.
Proof. done. Qed.

Lemma zlen_cons {A} (x : A) l : zlen (x :: l) = 1 + zlen l.
Proof. unfold zlen. cbn [length]. lia. Qed.

Lemma zlen_0_inv {A} (l : list A) : zlen l = 0 -> l = [].
Proof. destruct l; [done|]. rewrite zlen_cons. pose proof (zlen_nonneg l). lia. Qed.

(** [lia] that knows lengths are not negative. *)
Ltac zlen_facts :=
  repeat match goal with
  | |- context [zlen ?l] => lazymatch goal with _ : 0 <= zlen l |- _ => fail | _ => pose proof (zlen_nonneg l) end
  | _ : context [zlen ?l] |- _ => lazymatch goal with _ : 0 <= zlen l |- _ => fail | _ => pose proof (zlen_nonneg l) end
  end.
Ltac zlia := zlen_facts; lia.

Lemma to_nat_zlen {A} (l : list A) : Z.to_nat (zlen l) = length l.
Proof. apply Nat2Z.id. Qed.

Lemma Forall_sublist_of {A} (P : A -> Prop) l l' : Forall P l -> l' `sublist_of` l -> Forall P l'.
Proof. rewrite !Forall_forall. eauto using elem_of_sublist. Qed.

Lemma Forall2_impl_in {A B} (P Q : A -> B -> Prop) l k :
  Forall2 P l k -> (forall x y, x ∈ l -> P x y -> Q x y) -> Forall2 Q l k.
Proof.
  induction 1 as [|x y l k Hp _ IH]; intros Hpq; constructor; [apply Hpq; [by left|done]|].
  apply IH. intros x' y' Hx. apply Hpq. by right.
Qed.

Create Rewrite HintDb len.
#[export] Hint Rewrite @zlen_app @zlen_nil @zlen_cons : len.
#[export] Hint Rewrite @length_app @length_take @length_drop @length_replicate length_le_bytes : len.

(** Rewrite the lengths of compound slices everywhere. *)
Ltac len := autorewrite with len in *.

(** * Lemmas on machine integers *)

Lemma u64_small z : in_u64 z -> u64 z = z.
Proof. intros H. apply Z.mod_small. exact H. Qed.

Lemma u64_range z : in_u64 (u64 z).
Proof. apply Z.mod_pos_bound. lia. Qed.

Lemma i64_range z : in_i64 (i64 z).
Proof. unfold in_i64, i64. pose proof (Z.mod_pos_bound (z + 2 ^ 63) (2 ^ 64)). lia. Qed.

Lemma i64_small z : in_i64 z -> i64 z = z.
Proof. unfold in_i64, i64. intros. rewrite Z.mod_small; lia. Qed.

Lemma i64_u64 z : i64 (u64 z) = i64 z.
Proof. unfold i64, u64. by rewrite Zplus_mod_idemp_l. Qed.

(** Two's complement: [int64(uint64(z))] gives back an int64. *)
Lemma i64_of_u64 z : in_i64 z -> i64 (u64 z) = z.
Proof. intros. by rewrite i64_u64, i64_small. Qed.

(** Ranges and orders that side conditions ask for. *)
#[export] Hint Resolve u64_range i64_range i64_of_u64 zlen_nonneg : runnel.
#[export] Hint Resolve has_prefix_self sort_strings_sorted sort_strings_perm bytes_lt_irrefl : runnel.
