(* ===== verification/Utf8.v ===== *)
(** UTF-8, as the standard library package unicode/utf8 that the lexer
    (sql_lex.go), the JSON path check (jsonbin.go) and encoding/json use
    decodes it: [decodeRune] is utf8.DecodeRuneInString, [runes] the sequence a
    Go [for range] over a string visits, [utf8_valid] utf8.ValidString. *)

From S2P Require Import Prelude.

Definition runeError : Z := 0xFFFD.

Definition in_range (lo hi : Z) (b : byte) : bool := (lo <=? byte_val b) && (byte_val b <=? hi).

(** A continuation byte, and its six payload bits. *)
Definition is_cont (b : byte) : bool := in_range 0x80 0xBF b.
Definition cont_bits (b : byte) : Z := Z.land (byte_val b) 0x3F.

(** The range of the second byte after the leading byte [b0] of a three- or
    four-byte sequence: it excludes overlong forms, surrogates and code points
    past U+10FFFF. *)
Definition accept_second (b0 b1 : byte) : bool :=
  let v := byte_val b0 in
  if v =? 0xE0 then in_range 0xA0 0xBF b1
  else if v =? 0xED then in_range 0x80 0x9F b1
  else if v =? 0xF0 then in_range 0x90 0xBF b1
  else if v =? 0xF4 then in_range 0x80 0x8F b1
  else is_cont b1.

(** The first rune of [s] and its width; (RuneError, 1) on an invalid encoding
    and (RuneError, 0) on the empty string. *)
Definition decodeRune (s : bytes) : Z * nat :=
  match s with
  | [] => (runeError, 0%nat)
  | b0 :: t =>
      if byte_val b0 <? 0x80 then (byte_val b0, 1%nat)
      else if in_range 0xC2 0xDF b0 then
        match t with
        | b1 :: _ =>
            if is_cont b1
            then (Z.lor (Z.shiftl (Z.land (byte_val b0) 0x1F) 6) (cont_bits b1), 2%nat)
            else (runeError, 1%nat)
        | _ => (runeError, 1%nat)
        end
      else if in_range 0xE0 0xEF b0 then
        match t with
        | b1 :: b2 :: _ =>
            if accept_second b0 b1 && is_cont b2
            then (Z.lor (Z.shiftl (Z.land (byte_val b0) 0x0F) 12)
                    (Z.lor (Z.shiftl (cont_bits b1) 6) (cont_bits b2)), 3%nat)
            else (runeError, 1%nat)
        | _ => (runeError, 1%nat)
        end
      else if in_range 0xF0 0xF4 b0 then
        match t with
        | b1 :: b2 :: b3 :: _ =>
            if accept_second b0 b1 && is_cont b2 && is_cont b3
            then (Z.lor (Z.shiftl (Z.land (byte_val b0) 0x07) 18)
                    (Z.lor (Z.shiftl (cont_bits b1) 12)
                       (Z.lor (Z.shiftl (cont_bits b2) 6) (cont_bits b3))), 4%nat)
            else (runeError, 1%nat)
        | _ => (runeError, 1%nat)
        end
      else (runeError, 1%nat)
  end.

(** The runes of a string with their widths; [skip] counts the bytes of the
    current rune still to pass. *)
Fixpoint runes_from (skip : nat) (s : bytes) : list (Z * nat) :=
  match s with
  | [] => []
  | _ :: s' =>
      match skip with
      | S k => runes_from k s'
      | O => let rw := decodeRune s in rw :: runes_from (Nat.pred (snd rw)) s'
      end
  end.

Definition runes (s : bytes) : list (Z * nat) := runes_from 0 s.

(** utf8.ValidString: no position decodes to an error. *)
Definition utf8_valid (s : bytes) : bool :=
  forallb (fun rw => negb ((fst rw =? runeError) && (Nat.eqb (snd rw) 1))) (runes s).

Lemma decodeRune_ascii b t : byte_val b < 0x80 -> decodeRune (b :: t) = (byte_val b, 1%nat).
Proof. intros H. unfold decodeRune. by rewrite (proj2 (Z.ltb_lt _ _) H). Qed.

(** Every decoded rune makes progress and stays inside the string. *)
Lemma decodeRune_width s :
  s <> [] -> (1 <= snd (decodeRune s) <= 4 /\ snd (decodeRune s) <= length s)%nat.
Proof.
  destruct s as [|b0 t]; [done|intros _]. unfold decodeRune.
  repeat (case_match; simpl; try lia).
Qed.

Lemma utf8_valid_ascii s : Forall (fun b => byte_val b < 0x80) s -> utf8_valid s = true.
Proof.
  unfold utf8_valid, runes. induction 1 as [|b s Hb _ IH]; [done|].
  cbn [runes_from]. rewrite (decodeRune_ascii b s Hb). cbn [forallb fst snd Nat.pred].
  unfold runeError in *. rewrite (proj2 (Z.eqb_neq _ _)) by lia. exact IH.
Qed.

Definition rune_bad (rw : Z * nat) : bool := (fst rw =? runeError) && (Nat.eqb (snd rw) 1).

Definition high (b : byte) : Prop := 0x80 <= byte_val b.

(** A valid rune outside ASCII consists of its width of high bytes. *)
Lemma decodeRune_high b t :
  high b -> rune_bad (decodeRune (b :: t)) = false ->
  (Nat.pred (snd (decodeRune (b :: t))) <= length t)%nat /\
  Forall high (take (Nat.pred (snd (decodeRune (b :: t)))) t).
Proof.
  intros Hb. unfold decodeRune, rune_bad. rewrite (proj2 (Z.ltb_ge _ _)) by done.
  unfold accept_second, is_cont, in_range, high.
  repeat (case_match; simpl; try done); intros _; (split; [lia|]); repeat constructor; lia.
Qed.

(** An ASCII byte of a string is one of its runes. *)
Lemma runes_from_ascii skip s b :
  Forall high (take skip s) -> b ∈ s -> byte_val b < 0x80 -> (byte_val b, 1%nat) ∈ runes_from skip s.
Proof.
  revert skip. induction s as [|c s IH]; intros skip Hh Hb Ha; [by apply elem_of_nil in Hb|].
  destruct skip as [|skip]; cbn [runes_from].
  - apply elem_of_cons in Hb as [->|Hb]; [rewrite decodeRune_ascii by done; by left|]. right. apply IH; [|done|done].
    destruct (Z.ltb_spec (byte_val c) 0x80) as [Hc|Hc]; [rewrite decodeRune_ascii by done; constructor|].
    destruct (rune_bad (decodeRune (c :: s))) eqn:E; [|by apply decodeRune_high].
    unfold rune_bad in E. apply andb_true_iff in E as [_ E%Nat.eqb_eq]. rewrite E. constructor.
  - cbn [take] in Hh. apply Forall_cons in Hh as [Hc Hh].
    apply elem_of_cons in Hb as [->|Hb]; [unfold high in Hc; lia|]. by apply IH.
Qed.

Lemma disjoint_lor a b n : 0 <= n -> 0 <= b < 2 ^ n -> Z.lor (Z.shiftl a n) b = a * 2 ^ n + b.
Proof.
  intros Hn Hb. rewrite <- Z.shiftl_mul_pow2 by done.
  assert (Z.land (Z.shiftl a n) b = 0) as Hd.
  { apply Z.bits_inj'. intros i Hi. rewrite Z.land_spec, Z.bits_0.
    destruct (Z.ltb_spec i n).
    - by rewrite Z.shiftl_spec_low by done.
    - rewrite <- (Z.mod_small b (2 ^ n)) by done. rewrite Z.mod_pow2_bits_high by lia. apply andb_false_r. }
  rewrite Z.add_nocarry_lxor by done. symmetry. by apply Z.lxor_lor.
Qed.

(** [lia] with the equations of division and remainder. *)
Ltac modlia := Z.div_mod_to_equations; lia.

(** * Encoding *)

(** utf8.EncodeRune, as strings.Builder.WriteRune uses it: the UTF-8 form of a code point. *)
Definition encodeRune (c : Z) : bytes :=
  if c <? 0x80 then [byte_of c]
  else if c <? 0x800 then [byte_of (0xC0 + c / 64); byte_of (0x80 + c mod 64)]
  else if c <? 0x10000 then [byte_of (0xE0 + c / 4096); byte_of (0x80 + c / 64 mod 64); byte_of (0x80 + c mod 64)]
  else [byte_of (0xF0 + c / 262144); byte_of (0x80 + c / 4096 mod 64); byte_of (0x80 + c / 64 mod 64); byte_of (0x80 + c mod 64)].

Lemma byte_of_eq b z : z mod 256 = byte_val b -> byte_of z = b.
Proof.
  intros H. rewrite <- (byte_of_val b). apply byte_of_mod. rewrite H.
  pose proof (byte_val_range b). by rewrite Z.mod_small.
Qed.

Lemma encodeRune_ascii b : byte_val b < 0x80 -> encodeRune (byte_val b) = [b].
Proof. intros H. unfold encodeRune. rewrite (proj2 (Z.ltb_lt _ _)) by done. by rewrite byte_of_val. Qed.

(** The rune of a two-, three- and four-byte sequence, as a number. *)
Lemma land_low n z : 0 <= n -> 0 <= z -> Z.land z (Z.ones n) = z mod 2 ^ n.
Proof. intros. by apply Z.land_ones. Qed.

Lemma cont_bits_val b : is_cont b = true -> cont_bits b = byte_val b - 0x80.
Proof.
  intros H. unfold is_cont, in_range in H. unfold cont_bits. change 0x3F with (Z.ones 6). rewrite land_low by lia. modlia.
Qed.

Lemma rune2_val b b1 :
  in_range 0xC2 0xDF b = true -> is_cont b1 = true ->
  Z.lor (Z.shiftl (Z.land (byte_val b) 0x1F) 6) (cont_bits b1) = (byte_val b - 0xC0) * 64 + (byte_val b1 - 0x80).
Proof.
  intros H H1. rewrite cont_bits_val by done. unfold is_cont, in_range in *. change 0x1F with (Z.ones 5).
  rewrite land_low, disjoint_lor by lia. modlia.
Qed.

Lemma accept_second_cont b b1 : accept_second b b1 = true -> is_cont b1 = true.
Proof. unfold accept_second, is_cont, in_range. repeat case_match; lia. Qed.

Lemma rune3_val b b1 b2 :
  in_range 0xE0 0xEF b = true -> is_cont b1 = true -> is_cont b2 = true ->
  Z.lor (Z.shiftl (Z.land (byte_val b) 0x0F) 12) (Z.lor (Z.shiftl (cont_bits b1) 6) (cont_bits b2)) =
  (byte_val b - 0xE0) * 4096 + (byte_val b1 - 0x80) * 64 + (byte_val b2 - 0x80).
Proof.
  intros H H1 H2. rewrite !cont_bits_val by done. unfold is_cont, in_range in *. change 0x0F with (Z.ones 4).
  rewrite land_low, (disjoint_lor (_ - _)), disjoint_lor by lia. modlia.
Qed.

Lemma rune4_val b b1 b2 b3 :
  in_range 0xF0 0xF4 b = true -> is_cont b1 = true -> is_cont b2 = true -> is_cont b3 = true ->
  Z.lor (Z.shiftl (Z.land (byte_val b) 0x07) 18)
    (Z.lor (Z.shiftl (cont_bits b1) 12) (Z.lor (Z.shiftl (cont_bits b2) 6) (cont_bits b3))) =
  (byte_val b - 0xF0) * 262144 + (byte_val b1 - 0x80) * 4096 + (byte_val b2 - 0x80) * 64 + (byte_val b3 - 0x80).
Proof.
  intros H H1 H2 H3. rewrite !cont_bits_val by done. unfold is_cont, in_range in *. change 0x07 with (Z.ones 3).
  rewrite land_low, (disjoint_lor (byte_val b2 - _)), (disjoint_lor (byte_val b1 - _)), disjoint_lor by lia. modlia.
Qed.

(** The forms of a valid rune outside ASCII: its bytes and its value. *)
Inductive rune_form (b : byte) : bytes -> Z -> nat -> Prop :=
  | Rune2 b1 t : in_range 0xC2 0xDF b = true -> is_cont b1 = true ->
      rune_form b (b1 :: t) ((byte_val b - 0xC0) * 64 + (byte_val b1 - 0x80)) 2
  | Rune3 b1 b2 t : in_range 0xE0 0xEF b = true -> accept_second b b1 = true -> is_cont b2 = true ->
      rune_form b (b1 :: b2 :: t) ((byte_val b - 0xE0) * 4096 + (byte_val b1 - 0x80) * 64 + (byte_val b2 - 0x80)) 3
  | Rune4 b1 b2 b3 t : in_range 0xF0 0xF4 b = true -> accept_second b b1 = true -> is_cont b2 = true -> is_cont b3 = true ->
      rune_form b (b1 :: b2 :: b3 :: t)
        ((byte_val b - 0xF0) * 262144 + (byte_val b1 - 0x80) * 4096 + (byte_val b2 - 0x80) * 64 + (byte_val b3 - 0x80)) 4.

Lemma decodeRune_form b t :
  high b -> rune_bad (decodeRune (b :: t)) = false ->
  rune_form b t (fst (decodeRune (b :: t))) (snd (decodeRune (b :: t))).
Proof.
  intros Hb. unfold decodeRune, rune_bad. rewrite (proj2 (Z.ltb_ge _ _)) by done.
  destruct (in_range 0xC2 0xDF b) eqn:E1.
  { destruct t as [|b1 t]; [done|]. destruct (is_cont b1) eqn:E2; [|done]. intros _.
    cbn [fst snd]. rewrite rune2_val by done. by constructor. }
  destruct (in_range 0xE0 0xEF b) eqn:E2.
  { destruct t as [|b1 [|b2 t]]; [done..|]. destruct (accept_second b b1 && is_cont b2) eqn:E3; [|done]. intros _.
    apply andb_true_iff in E3 as [E3 E4]. cbn [fst snd].
    rewrite rune3_val by eauto using accept_second_cont. by constructor. }
  destruct (in_range 0xF0 0xF4 b) eqn:E3; [|done]. destruct t as [|b1 [|b2 [|b3 t]]]; [done..|].
  destruct (accept_second b b1 && is_cont b2 && is_cont b3) eqn:E4; [|done]. intros _.
  apply andb_true_iff in E4 as [[E4 E5]%andb_true_iff E6]. cbn [fst snd].
  rewrite rune4_val by eauto using accept_second_cont. by constructor.
Qed.

Lemma form_decodeRune b t c w : rune_form b t c w -> decodeRune (b :: t) = (c, w).
Proof.
  destruct 1 as [b1 t E1 E2|b1 b2 t E1 E2 E3|b1 b2 b3 t E1 E2 E3 E4]; pose proof E1 as E1'; unfold in_range in E1'; unfold decodeRune;
    rewrite (proj2 (Z.ltb_ge _ _)) by lia.
  - by rewrite E1, E2, rune2_val by done.
  - assert (in_range 0xC2 0xDF b = false) as -> by (unfold in_range; lia).
    rewrite E1, E2, E3. cbn [andb]. by rewrite rune3_val by eauto using accept_second_cont.
  - assert (in_range 0xC2 0xDF b = false) as -> by (unfold in_range; lia).
    assert (in_range 0xE0 0xEF b = false) as -> by (unfold in_range; lia).
    rewrite E1, E2, E3, E4. cbn [andb]. by rewrite rune4_val by eauto using accept_second_cont.
Qed.

(** Only an ASCII byte decodes to an ASCII rune. *)
Lemma decodeRune_rune_high b t : high b -> 0x80 <= fst (decodeRune (b :: t)).
Proof.
  intros Hb. destruct (rune_bad (decodeRune (b :: t))) eqn:E.
  { unfold rune_bad in E. apply andb_true_iff in E as [->%Z.eqb_eq _]. done. }
  destruct (decodeRune_form b t Hb E); unfold accept_second, is_cont, in_range in *; repeat case_match; lia.
Qed.

(** A valid rune outside ASCII depends on its own bytes only. *)
Lemma decodeRune_local b t x :
  high b -> rune_bad (decodeRune (b :: t)) = false ->
  decodeRune (take (snd (decodeRune (b :: t))) (b :: t) ++ x) = decodeRune (b :: t).
Proof.
  intros Hb E. destruct (decodeRune (b :: t)) as [c w] eqn:Ed. pose proof (decodeRune_form b t Hb) as Hf.
  rewrite Ed in Hf. cbn [fst snd] in *. destruct (Hf E); cbn [take app]; apply form_decodeRune; by constructor.
Qed.

(** Writing a decoded rune gives its bytes back. *)
Lemma encode_decodeRune b t :
  high b -> rune_bad (decodeRune (b :: t)) = false ->
  encodeRune (fst (decodeRune (b :: t))) = take (snd (decodeRune (b :: t))) (b :: t).
Proof.
  intros Hb E. pose proof (byte_val_range b). unfold encodeRune.
  destruct (decodeRune_form b t Hb E) as [b1 t E1 E2|b1 b2 t E1 E2 E3|b1 b2 b3 t E1 E2 E3 E4];
    unfold accept_second, is_cont, in_range in *; cbn [take].
  - rewrite (proj2 (Z.ltb_ge _ 0x80)), (proj2 (Z.ltb_lt _ 0x800)) by lia. repeat f_equal; apply byte_of_eq; modlia.
  - pose proof (byte_val_range b1). rewrite (proj2 (Z.ltb_ge _ 0x80)), (proj2 (Z.ltb_ge _ 0x800)), (proj2 (Z.ltb_lt _ 0x10000))
      by (repeat case_match; lia). repeat f_equal; apply byte_of_eq; repeat case_match; modlia.
  - rewrite (proj2 (Z.ltb_ge _ 0x80)), (proj2 (Z.ltb_ge _ 0x800)), (proj2 (Z.ltb_ge _ 0x10000))
      by (repeat case_match; lia). repeat f_equal; apply byte_of_eq; repeat case_match; modlia.
Qed.

Lemma runes_from_skip k s : runes_from k s = runes (drop k s).
Proof. revert k. induction s as [|b s IH]; intros [|k]; try done. apply IH. Qed.

(** A valid string starts with an ASCII byte or a valid rune, and its rest is valid. *)
Lemma utf8_valid_cons b t :
  utf8_valid (b :: t) = true ->
  rune_bad (decodeRune (b :: t)) = false /\ utf8_valid (drop (snd (decodeRune (b :: t))) (b :: t)) = true.
Proof.
  unfold utf8_valid at 1, runes. cbn [runes_from forallb]. intros [Hb Ht]%andb_true_iff. split; [by apply negb_true_iff|].
  rewrite runes_from_skip in Ht. pose proof (decodeRune_width (b :: t)) as Hw.
  destruct (snd (decodeRune (b :: t))) as [|n]; [by specialize (Hw ltac:(done)) as [? _]; lia|done].
Qed.
