(* ===== verification/Unicode.v ===== *)
(** The Unicode tables of the standard library that the lexer, the JSON path
    check, the catalog and the executor consult (unicode.IsLetter, IsDigit, IsSpace,
    strings.ToUpper, strings.ToLower, strings.EqualFold), as an interface: their values on ASCII
    and what else the code relies on.  [ascii_tables] meets it. *)

From S2P Require Import Prelude.

Definition ascii_upper (r : Z) : bool := (65 <=? r) && (r <=? 90).
Definition ascii_lower (r : Z) : bool := (97 <=? r) && (r <=? 122).
Definition ascii_letter (r : Z) : bool := ascii_upper r || ascii_lower r.
Definition ascii_digit (r : Z) : bool := (48 <=? r) && (r <=? 57).

(** Tab, newline, vertical tab, form feed, carriage return and space. *)
Definition ascii_space (r : Z) : bool := ((9 <=? r) && (r <=? 13)) || (r =? 32).

Definition upper_byte (b : byte) : byte := if ascii_lower (byte_val b) then byte_of (byte_val b - 32) else b.
Definition ascii_to_upper (s : bytes) : bytes := upper_byte <$> s.

Definition lower_byte (b : byte) : byte := if ascii_upper (byte_val b) then byte_of (byte_val b + 32) else b.
Definition ascii_to_lower (s : bytes) : bytes := lower_byte <$> s.

Definition is_ascii (s : bytes) : bool := forallb (fun b => byte_val b <? 0x80) s.

Class Unicode := {
  isLetter : Z -> bool;
  isDigit : Z -> bool;
  isSpace : Z -> bool;
  toUpper : bytes -> bytes;
  toLower : bytes -> bytes;
  equalFold : bytes -> bytes -> bool;
  isLetter_ascii : forall r, 0 <= r < 0x80 -> isLetter r = ascii_letter r;
  isDigit_latin1 : forall r, 0 <= r < 0x100 -> isDigit r = ascii_digit r;
  isSpace_ascii : forall r, 0 <= r < 0x80 -> isSpace r = ascii_space r;
  toUpper_ascii : forall s, is_ascii s = true -> toUpper s = ascii_to_upper s;
  toUpper_prefix : forall s t, is_ascii s = true -> toUpper (s ++ t) = ascii_to_upper s ++ toUpper t;
  toLower_ascii : forall s, is_ascii s = true -> toLower s = ascii_to_lower s;
  equalFold_ascii : forall s t, is_ascii s = true -> is_ascii t = true ->
    equalFold s t = bool_decide (ascii_to_upper s = ascii_to_upper t);
  equalFold_refl : forall s, equalFold s s = true;
}.

(** The tables of a system whose only letters, digits and spaces are ASCII. *)
#[refine] Instance ascii_tables : Unicode := {|
  isLetter := ascii_letter;
  isDigit := ascii_digit;
  isSpace := ascii_space;
  toUpper := ascii_to_upper;
  toLower := ascii_to_lower;
  equalFold s t := bool_decide (ascii_to_upper s = ascii_to_upper t);
|}.
Proof.
  - done.
  - done.
  - done.
  - done.
  - intros s t _. apply fmap_app.
  - done.
  - done.
  - intros s. by apply bool_decide_true.
Defined.
