(* ===== verification/Strconv.v ===== *)
(** The parts of strconv and net/url the program calls: FormatInt, FormatUint
    and ParseInt in base ten, and PathEscape and PathUnescape. *)

From S2P Require Import Prelude.

(** * Decimal numbers *)

Definition digit (d : Z) : byte := byte_of (48 + d).
Definition is_digit (b : byte) : bool := (48 <=? byte_val b) && (byte_val b <=? 57).
Definition digit_val (b : byte) : Z := byte_val b - 48.

(** The digits of [n], most significant first, in front of [acc]; twenty digits
    are enough for 64 bits. *)
Fixpoint dec_digits (fuel : nat) (n : Z) (acc : bytes) : bytes :=
  match fuel with
  | O => acc
  | S fuel =>
      let acc := digit (n mod 10) :: acc in
      if n <? 10 then acc else dec_digits fuel (n / 10) acc
  end.

Definition formatUint (n : Z) : bytes := dec_digits 20 n [].

Definition formatInt (n : Z) : bytes :=
  if n <? 0 then lit "-" ++ formatUint (- n) else formatUint n.

Fixpoint parse_digits (s : bytes) (acc : Z) : option Z :=
  match s with
  | [] => Some acc
  | b :: s' => if is_digit b then parse_digits s' (acc * 10 + digit_val b) else None
  end.

(** ParseInt(s, 10, 64): an optional sign, at least one digit, and a value in
    range; the syntax and range errors are not distinguished. *)
Definition parseInt (s : bytes) : option Z :=
  let '(neg, ds) :=
    match s with
    | b :: s' => if byte_val b =? 45 then (true, s')
                 else if byte_val b =? 43 then (false, s') else (false, s)
    | [] => (false, s)
    end in
  if bool_decide (ds = []) then None
  else match parse_digits ds 0 with
       | None => None
       | Some n =>
           if neg then (if n <=? 2 ^ 63 then Some (- n) else None)
           else (if n <? 2 ^ 63 then Some n else None)
       end.

(** * Path escaping *)

Definition is_alnum (b : byte) : bool :=
  let v := byte_val b in
  ((97 <=? v) && (v <=? 122)) || ((65 <=? v) && (v <=? 90)) || ((48 <=? v) && (v <=? 57)).

(** url.shouldEscape in the mode of path segments. *)
Definition shouldEscape (b : byte) : bool :=
  negb (is_alnum b || bool_decide (b ∈ lit "-_.~$&+:=@")).

Definition upper_hex (d : Z) : byte := byte_of (if d <? 10 then 48 + d else 55 + d).

Definition escape_byte (b : byte) : bytes :=
  if shouldEscape b
  then [byte_of 37; upper_hex (byte_val b / 16); upper_hex (byte_val b mod 16)]
  else [b].

Definition pathEscape (s : bytes) : bytes := s ≫= escape_byte.

Definition unhex (b : byte) : option Z :=
  let v := byte_val b in
  if (48 <=? v) && (v <=? 57) then Some (v - 48)
  else if (97 <=? v) && (v <=? 102) then Some (v - 87)
  else if (65 <=? v) && (v <=? 70) then Some (v - 55)
  else None.

Fixpoint pathUnescape (s : bytes) : option bytes :=
  match s with
  | [] => Some []
  | b :: s' =>
      if byte_val b =? 37 then
        match s' with
        | h :: l :: s'' =>
            match unhex h, unhex l with
            | Some x, Some y => cons (byte_of (16 * x + y)) <$> pathUnescape s''
            | _, _ => None
            end
        | _ => None
        end
      else cons b <$> pathUnescape s'
  end.

(** * Round trips *)

Lemma digit_val_digit d : 0 <= d < 10 -> byte_val (digit d) = 48 + d.
Proof. intros. unfold digit. rewrite byte_val_of. apply Z.mod_small. lia. Qed.

Lemma is_digit_digit d : 0 <= d < 10 -> is_digit (digit d) = true.
Proof. intros. unfold is_digit. rewrite digit_val_digit by done. lia. Qed.

Lemma dec_digits_all fuel n acc :
  Forall (fun b => is_digit b = true) acc ->
  Forall (fun b => is_digit b = true) (dec_digits fuel n acc).
Proof.
  revert n acc. induction fuel as [|fuel IH]; intros n acc Ha; simpl; [done|].
  assert (Forall (fun b => is_digit b = true) (digit (n mod 10) :: acc)).
  { constructor; [|done]. apply is_digit_digit, Z.mod_pos_bound. lia. }
  case_match; [done|]. by apply IH.
Qed.

Lemma parse_dec_digits fuel n acc :
  0 <= n < 10 ^ Z.of_nat fuel -> (0 < fuel)%nat ->
  parse_digits (dec_digits fuel n acc) 0 = parse_digits acc n.
Proof.
  revert n acc. induction fuel as [|fuel IH]; intros n acc Hn Hf; [lia|]. simpl.
  pose proof (Z.mod_pos_bound n 10 ltac:(lia)) as Hm. pose proof (Z.div_mod n 10 ltac:(lia)) as Hd.
  rewrite Nat2Z.inj_succ, Z.pow_succ_r in Hn by lia.
  assert (forall a, parse_digits (digit (n mod 10) :: acc) a = parse_digits acc (a * 10 + n mod 10)) as Hstep.
  { intros a. cbn [parse_digits]. rewrite is_digit_digit by done. unfold digit_val.
    rewrite digit_val_digit by done. f_equal. lia. }
  destruct (Z.ltb_spec n 10).
  - rewrite Hstep. f_equal. rewrite Z.mod_small; lia.
  - rewrite IH, Hstep.
    + f_equal. lia.
    + split; [apply Z.div_pos; lia|]. apply Z.div_lt_upper_bound; lia.
    + destruct fuel; [|lia]. change (10 ^ Z.of_nat 0) with 1 in Hn. lia.
Qed.

Lemma dec_digits_nonempty fuel n acc : (0 < fuel)%nat -> dec_digits fuel n acc <> [].
Proof.
  revert n acc. induction fuel as [|fuel IH]; intros n acc Hf; [lia|]. simpl.
  case_match; [done|]. destruct fuel; [done|]. apply IH. lia.
Qed.

Lemma formatUint_digits n : Forall (fun b => is_digit b = true) (formatUint n).
Proof. by apply dec_digits_all. Qed.

Lemma formatUint_nonempty n : formatUint n <> [].
Proof. apply dec_digits_nonempty. lia. Qed.

Lemma parse_formatUint n : in_u64 n -> parse_digits (formatUint n) 0 = Some n.
Proof.
  intros [??]. unfold formatUint. rewrite parse_dec_digits; [done| |lia].
  split; [lia|]. etrans; [eassumption|]. done.
Qed.

Lemma digit_not_sign b : is_digit b = true -> (byte_val b =? 45) = false /\ (byte_val b =? 43) = false.
Proof. unfold is_digit. intros. lia. Qed.

Lemma parseInt_formatInt n : in_i64 n -> parseInt (formatInt n) = Some n.
Proof.
  unfold in_i64. intros Hn. unfold formatInt. destruct (Z.ltb_spec n 0).
  - unfold parseInt. cbn -[formatUint Z.pow].
    rewrite bool_decide_false by apply formatUint_nonempty.
    rewrite parse_formatUint by (unfold in_u64; lia).
    rewrite (proj2 (Z.leb_le _ _)) by lia. f_equal. lia.
  - pose proof (formatUint_digits n) as Hd. pose proof (formatUint_nonempty n) as Hne.
    pose proof (parse_formatUint n ltac:(unfold in_u64; lia)) as Hp.
    unfold parseInt. destruct (formatUint n) as [|b ds]; [done|].
    apply Forall_cons in Hd as [Hb _]. apply digit_not_sign in Hb as [-> ->].
    rewrite bool_decide_false, Hp by done. by rewrite (proj2 (Z.ltb_lt _ _)) by lia.
Qed.

Lemma parse_digits_nonneg s acc n : 0 <= acc -> parse_digits s acc = Some n -> 0 <= n.
Proof.
  revert acc. induction s as [|b s IH]; intros acc Ha; cbn [parse_digits]; [by intros [= <-]|].
  destruct (is_digit b) eqn:E; [|done]. apply IH. unfold is_digit, digit_val in *. lia.
Qed.

Lemma parseInt_range s i : parseInt s = Some i -> in_i64 i.
Proof.
  unfold parseInt, in_i64. destruct (match s with [] => _ | _ :: _ => _ end) as [neg ds].
  case_bool_decide; [done|]. destruct (parse_digits ds 0) as [n|] eqn:E; [|done].
  apply parse_digits_nonneg in E; [|done]. repeat case_match; try done; intros [= <-]; lia.
Qed.

Lemma unhex_upper d : 0 <= d < 16 -> unhex (upper_hex d) = Some d.
Proof.
  intros Hd. unfold unhex, upper_hex. rewrite byte_val_of.
  destruct (Z.ltb_spec d 10); rewrite Z.mod_small by lia.
  - rewrite (proj2 (Z.leb_le 48 _)), (proj2 (Z.leb_le _ 57)) by lia. simpl. f_equal. lia.
  - rewrite (proj2 (Z.leb_gt (55 + d) 57)), andb_false_r by lia.
    rewrite (proj2 (Z.leb_gt 97 _)) by lia. simpl.
    rewrite (proj2 (Z.leb_le 65 _)), (proj2 (Z.leb_le _ 70)) by lia. simpl. f_equal. lia.
Qed.

Lemma shouldEscape_percent b : shouldEscape b = false -> byte_val b <> 37.
Proof.
  intros Hs Hb. replace b with (byte_of 37) in Hs; [done|].
  rewrite <- Hb. apply byte_of_val.
Qed.

Lemma pathUnescape_escape_byte b s :
  pathUnescape (escape_byte b ++ s) = cons b <$> pathUnescape s.
Proof.
  unfold escape_byte. destruct (shouldEscape b) eqn:E.
  - pose proof (byte_val_range b). cbn [app pathUnescape].
    change (byte_val (byte_of 37) =? 37) with true. cbv iota.
    rewrite !unhex_upper by (split; [apply Z.div_pos || apply Z.mod_pos_bound|
      apply Z.div_lt_upper_bound || apply Z.mod_pos_bound]; lia).
    rewrite <- Z.div_mod by lia. by rewrite byte_of_val.
  - apply shouldEscape_percent in E. cbn [app pathUnescape].
    by rewrite (proj2 (Z.eqb_neq _ _) E).
Qed.

Lemma pathUnescape_escape s : pathUnescape (pathEscape s) = Some s.
Proof.
  induction s as [|b s IH]; [done|]. unfold pathEscape. rewrite bind_cons.
  fold (pathEscape s). by rewrite pathUnescape_escape_byte, IH.
Qed.

(** No escaped string holds a slash. *)
Lemma escape_byte_no_slash b : byte_of 47 ∉ escape_byte b.
Proof.
  rewrite <- (byte_of_val b). pose proof (byte_val_range b) as Hr.
  assert (bool_decide (byte_of 47 ∈ escape_byte (byte_of (byte_val b))) = false) as Hd;
    [|by apply bool_decide_eq_false in Hd].
  destruct b; vm_compute; reflexivity.
Qed.

Lemma pathEscape_no_slash s : byte_of 47 ∉ pathEscape s.
Proof.
  unfold pathEscape. rewrite list_elem_of_bind. intros (b & Hb & _).
  by apply escape_byte_no_slash in Hb.
Qed.
