(* ===== verification/Keys.v ===== *)
(** The key space of SQL data (keys.go, and the catalog index keys of
    secondary.go): the reserved prefix, the keys of catalog entries and rows,
    and the encoding of primary keys inside row keys. *)

From S2P Require Import Prelude Strconv.

Definition reservedPrefix : bytes := lit "__rdb__/".

Definition isReservedKey (key : bytes) : bool := has_prefix key reservedPrefix.

Definition catalogTableKey (name : bytes) : bytes := reservedPrefix ++ lit "meta/tables/" ++ name.

Definition catalogTablePrefix : bytes := reservedPrefix ++ lit "meta/tables/".

Definition catalogIndexKey (name : bytes) : bytes := reservedPrefix ++ lit "meta/indexes/" ++ name.

Definition catalogIndexPrefix : bytes := reservedPrefix ++ lit "meta/indexes/".

Definition rowKey (table pkEncoded : bytes) : bytes :=
  reservedPrefix ++ lit "t/" ++ table ++ lit "/r/" ++ pkEncoded.

Definition rowKeyPrefix (table : bytes) : bytes :=
  reservedPrefix ++ lit "t/" ++ table ++ lit "/r/".

Definition encodePKString (s : bytes) : bytes := lit "s:" ++ pathEscape s.

Definition encodePKInt (v : Z) : bytes := lit "i:" ++ formatInt v.

(** (isInt, i, s), or the error. *)
Definition decodePK (encoded : bytes) : res (bool * Z * bytes) :=
  if has_prefix encoded (lit "i:") then
    match parseInt (drop 2 encoded) with
    | Some v => Ok (true, v, [])
    | None => Err ErrDecode
    end
  else if has_prefix encoded (lit "s:") then
    match pathUnescape (drop 2 encoded) with
    | Some raw => Ok (false, 0, raw)
    | None => Err ErrDecode
    end
  else Err ErrSQL.

Definition parseRowKey (table key : bytes) : option bytes :=
  let prefix := rowKeyPrefix table in
  if negb (has_prefix key prefix) then None else Some (drop (length prefix) key).

(** A table name is an identifier: letters, digits and underscores, so it
    holds no slash. *)
Definition no_slash (s : bytes) : Prop := byte_of 47 ∉ s.

#[export] Instance no_slash_dec s : Decision (no_slash s).
Proof. unfold no_slash. apply _. Defined.

(** * Lemmas *)

Lemma parseRowKey_spec table key enc : parseRowKey table key = Some enc <-> key = rowKey table enc.
Proof.
  unfold parseRowKey, rowKey. change (reservedPrefix ++ lit "t/" ++ table ++ lit "/r/" ++ enc)
    with (reservedPrefix ++ (lit "t/" ++ (table ++ (lit "/r/" ++ enc)))).
  rewrite !(assoc_L app). fold (rowKeyPrefix table).
  replace (((reservedPrefix ++ lit "t/") ++ table) ++ lit "/r/") with (rowKeyPrefix table)
    by (unfold rowKeyPrefix; by rewrite !(assoc_L app)).
  destruct (has_prefix key (rowKeyPrefix table)) eqn:E; cbn [negb].
  - apply has_prefix_app in E as [r ->]. rewrite drop_app_length. split.
    + by intros [= ->].
    + intros H%(inj (app _)). by subst.
  - split; [done|]. intros ->. by rewrite has_prefix_self in E.
Qed.

(** A slash-free prefix is determined by what follows its slash. *)
Lemma no_slash_app_inj a b x y :
  no_slash a -> no_slash b -> a ++ byte_of 47 :: x = b ++ byte_of 47 :: y -> a = b /\ x = y.
Proof.
  unfold no_slash. revert b. induction a as [|c a IH]; intros [|d b] Ha Hb E.
  - by injection E.
  - injection E as <- _. set_solver.
  - injection E as -> _. set_solver.
  - injection E as -> E. apply IH in E as [-> ->]; [done|set_solver..].
Qed.

Lemma rowKey_inj_lemma t1 t2 p1 p2 :
  no_slash t1 -> no_slash t2 -> rowKey t1 p1 = rowKey t2 p2 -> t1 = t2 /\ p1 = p2.
Proof.
  unfold rowKey. intros H1 H2 E. apply (inj (app _)) in E. apply (inj (app _)) in E.
  apply no_slash_app_inj in E as [-> E]; [|done..]. split; [done|].
  by injection E.
Qed.

Lemma decodePK_int v : in_i64 v -> decodePK (encodePKInt v) = Ok (true, v, []).
Proof.
  intros Hv. unfold decodePK, encodePKInt. rewrite has_prefix_self.
  rewrite drop_app_length' by done. by rewrite parseInt_formatInt.
Qed.

Lemma decodePK_string s : decodePK (encodePKString s) = Ok (false, 0, s).
Proof.
  unfold decodePK, encodePKString.
  change (has_prefix (lit "s:" ++ pathEscape s) (lit "i:")) with false. cbv iota.
  rewrite has_prefix_self, drop_app_length' by done. by rewrite pathUnescape_escape.
Qed.

(** * Properties *)

(** Row keys are unambiguous: for tables named by identifiers, two row
    keys are equal only for the same table and the same encoded primary key,
    and parseRowKey at a table recovers exactly that table's keys. *)
Theorem rowKey_unambiguous t1 t2 p1 p2 :
  no_slash t1 -> no_slash t2 ->
  (rowKey t1 p1 = rowKey t2 p2 <-> t1 = t2 /\ p1 = p2) /\
  parseRowKey t1 (rowKey t2 p2) = (if decide (t1 = t2) then Some p2 else None).
Proof.
  intros H1 H2. split; [split; [by apply rowKey_inj_lemma|naive_solver]|].
  case_decide as Ht; [subst; by apply parseRowKey_spec|].
  destruct (parseRowKey t1 (rowKey t2 p2)) as [enc|] eqn:E; [|done].
  apply parseRowKey_spec, rowKey_inj_lemma in E as [-> _]; done.
Qed.

(** Primary keys survive the trip through a row key: every int64 and
    every string, whatever bytes it holds, is decoded to itself. *)
Theorem pk_roundtrip v s :
  in_i64 v ->
  decodePK (encodePKInt v) = Ok (true, v, []) /\ decodePK (encodePKString s) = Ok (false, 0, s).
Proof. intros Hv. split; [by apply decodePK_int|apply decodePK_string]. Qed.

Lemma pk_roundtrip_witness :
  decodePK (encodePKInt (- 2 ^ 63)) = Ok (true, - 2 ^ 63, []) /\
  decodePK (encodePKString (lit "a/b %")) = Ok (false, 0, lit "a/b %").
Proof. apply pk_roundtrip. unfold in_i64. lia. Defined.

Lemma rowKey_unambiguous_witness :
  (rowKey (lit "users") (lit "i:1") = rowKey (lit "user") (lit "s:i:1") <->
     lit "users" = lit "user" /\ lit "i:1" = lit "s:i:1") /\
  parseRowKey (lit "users") (rowKey (lit "user") (lit "s:i:1")) =
    (if decide (lit "users" = lit "user") then Some (lit "s:i:1") else None).
Proof. apply rowKey_unambiguous; apply (bool_decide_unpack _); vm_compute; exact I. Defined.
