(* ===== verification/Page.v ===== *)
(** Slotted pages (page.go): a fixed 4096-byte buffer with a slot count, a free
    offset, payloads that grow upward from byte 4 and a slot directory that
    grows downward from the end.  A page refines the list of its payloads. *)

From S2P Require Import Prelude.

(** * Slices of a byte array *)

(** [buf[lo:hi]]. *)
Definition slice (buf : bytes) (lo hi : Z) : bytes := take (Z.to_nat (hi - lo)) (drop (Z.to_nat lo) buf).

(** [copy(buf[off:off+len(data)], data)]. *)
Definition splice (buf : bytes) (off : Z) (data : bytes) : bytes :=
  take (Z.to_nat off) buf ++ data ++ drop (Z.to_nat off + length data) buf.

(** [binary.LittleEndian.PutUint16] and [Uint16] at an offset. *)
Definition putUint16 (buf : bytes) (off v : Z) : bytes := splice buf off (le_bytes 2 v).
Definition getUint16 (buf : bytes) (off : Z) : Z := le_val (slice buf off (off + 2)).

(** * Pages *)

Definition pageSize : Z := 4096.

Record Page := mkPage { buf : bytes }.

Definition reset (p : Page) : Page :=
  mkPage (putUint16 (replicate (length (buf p)) Byte.x00) 2 4).

(** [var p Page]. *)
Definition zeroPage : Page := mkPage (replicate (Z.to_nat pageSize) Byte.x00).

Definition slotCount (p : Page) : Z := getUint16 (buf p) 0.
Definition freeOff (p : Page) : Z := getUint16 (buf p) 2.
Definition setSlotCount (p : Page) (n : Z) : Page := mkPage (putUint16 (buf p) 0 (u16 n)).
Definition setFreeOff (p : Page) (n : Z) : Page := mkPage (putUint16 (buf p) 2 (u16 n)).
Definition slotDirStart (p : Page) : Z := pageSize - slotCount p * 4.

Definition Put (p : Page) (payload : bytes) : Page * res unit :=
  let n := slotCount p in
  let free := freeOff p in
  let dirStart := pageSize - (n + 1) * 4 in
  let need := zlen payload in
  if dirStart <? free + need then (p, Err ErrRowTooLarge)
  else
    let p := mkPage (splice (buf p) free payload) in
    let off := free in
    let p := mkPage (putUint16 (buf p) dirStart (u16 off)) in
    let p := mkPage (putUint16 (buf p) (dirStart + 2) (u16 need)) in
    let p := setSlotCount p (n + 1) in
    let p := setFreeOff p (free + need) in
    (p, Ok tt).

(** [None] is the run-time panic of a slice expression out of range. *)
Definition slice_checked (b : bytes) (lo hi : Z) : option bytes :=
  if (0 <=? lo) && (lo <=? hi) && (hi <=? zlen b) then Some (slice b lo hi) else None.

Definition Get (p : Page) (i : Z) : option (res bytes) :=
  let n := slotCount p in
  if (i <? 0) || (n <=? i) then Some (Err ErrSQL)
  else
    let dir := pageSize - (i + 1) * 4 in
    o ← slice_checked (buf p) dir (dir + 2);
    l ← slice_checked (buf p) (dir + 2) (dir + 4);
    let off := le_val o in
    let length := le_val l in
    out ← slice_checked (buf p) off (off + length);
    Some (Ok out).

Definition Bytes (p : Page) : bytes := buf p.

Definition LoadPage (raw : bytes) : res Page :=
  if negb (zlen raw =? pageSize) then Err ErrSQL else Ok (mkPage raw).

Definition EncodeRowPage (rowPayload : bytes) : res bytes :=
  let p := reset zeroPage in
  match Put p rowPayload with
  | (_, Err e) => Err e
  | (p, Ok _) => Ok (Bytes p)
  end.

Definition DecodeRowPage (raw : bytes) : option (res bytes) :=
  match LoadPage raw with
  | Err e => Some (Err e)
  | Ok p => if slotCount p <? 1 then Some (Err ErrSQL) else Get p 0
  end.

(** * Lemmas on slices *)

Lemma length_slice b lo hi : 0 <= lo -> hi <= zlen b -> length (slice b lo hi) = Z.to_nat (hi - lo).
Proof. unfold slice, zlen. intros. rewrite length_take, length_drop. lia. Qed.

Lemma length_splice b off d :
  0 <= off -> off + zlen d <= zlen b -> length (splice b off d) = length b.
Proof. unfold splice, zlen. intros. len. lia. Qed.

Lemma zlen_splice b off d : 0 <= off -> off + zlen d <= zlen b -> zlen (splice b off d) = zlen b.
Proof. intros. unfold zlen. by rewrite length_splice. Qed.

(** What was copied in is read back. *)
Lemma slice_splice_same b off d hi :
  0 <= off -> off + zlen d <= zlen b -> hi = off + zlen d -> slice (splice b off d) off hi = d.
Proof.
  intros Ho Hl ->. unfold slice, splice, zlen in *. rewrite drop_app_length' by (rewrite length_take; lia).
  apply take_app_length'. lia.
Qed.

(** The bytes outside are untouched. *)
Lemma slice_splice_other b off d lo hi :
  0 <= off -> off + zlen d <= zlen b -> 0 <= lo -> hi <= off \/ off + zlen d <= lo ->
  slice (splice b off d) lo hi = slice b lo hi.
Proof.
  intros Ho Hl H0 Hd. unfold slice, splice, zlen in *. apply list_eq. intros i.
  destruct (decide (i < Z.to_nat (hi - lo))%nat) as [Hi|Hi].
  2:{ rewrite !lookup_take_ge by lia. done. }
  rewrite !lookup_take_lt, !lookup_drop by lia. destruct Hd as [Hd|Hd].
  - rewrite lookup_app_l by (rewrite length_take; lia). apply lookup_take_lt. lia.
  - rewrite !lookup_app_r by (rewrite ?length_take; lia). rewrite lookup_drop, length_take. f_equal. lia.
Qed.

Lemma getUint16_range b off : 0 <= getUint16 b off < 2 ^ 16.
Proof.
  unfold getUint16. pose proof (le_val_bound (slice b off (off + 2))) as [H0 H1]. split; [done|].
  eapply Z.lt_le_trans; [done|]. change (2 ^ 16) with (256 ^ 2). apply Z.pow_le_mono_r; [lia|].
  unfold zlen, slice. rewrite length_take. lia.
Qed.

Lemma zlen_le_bytes n z : zlen (le_bytes n z) = Z.of_nat n.
Proof. unfold zlen. by rewrite length_le_bytes. Qed.

Lemma get_put_same b off v :
  0 <= off -> off + 2 <= zlen b -> 0 <= v < 2 ^ 16 -> getUint16 (putUint16 b off (u16 v)) off = v.
Proof.
  intros Ho Hl Hv. unfold getUint16, putUint16.
  rewrite slice_splice_same, le_val_le_bytes by (rewrite ?zlen_le_bytes; lia).
  unfold u16. change (256 ^ Z.of_nat 2) with (2 ^ 16). by rewrite Zmod_mod, Z.mod_small.
Qed.

Lemma slice_put_other b off v lo hi :
  0 <= off -> off + 2 <= zlen b -> 0 <= lo -> hi <= off \/ off + 2 <= lo ->
  slice (putUint16 b off v) lo hi = slice b lo hi.
Proof. intros. apply slice_splice_other; rewrite ?zlen_le_bytes; auto; lia. Qed.

Lemma get_put_other b off v off' :
  0 <= off -> off + 2 <= zlen b -> 0 <= off' -> off' + 2 <= off \/ off + 2 <= off' ->
  getUint16 (putUint16 b off v) off' = getUint16 b off'.
Proof. intros. unfold getUint16. by rewrite slice_put_other. Qed.

Lemma zlen_putUint16 b off v : 0 <= off -> off + 2 <= zlen b -> zlen (putUint16 b off v) = zlen b.
Proof. intros. unfold putUint16. apply zlen_splice; rewrite ?zlen_le_bytes; lia. Qed.

(** * A page is the list of its payloads *)

Section holds.

(** The offset and the directory position of slot [i]. *)
Definition slot_off (ps : list bytes) (i : nat) : Z := 4 + zlen (concat (take i ps)).
Definition slot_dir (i : nat) : Z := pageSize - (Z.of_nat i + 1) * 4.

Definition slot_ok (b : bytes) (ps : list bytes) (i : nat) (d : bytes) : Prop :=
  getUint16 b (slot_dir i) = slot_off ps i /\ getUint16 b (slot_dir i + 2) = zlen d /\
  slice b (slot_off ps i) (slot_off ps i + zlen d) = d.

Record holds (p : Page) (ps : list bytes) : Prop := {
  holds_len : zlen (buf p) = pageSize;
  holds_count : slotCount p = zlen ps;
  holds_free : freeOff p = 4 + zlen (concat ps);
  holds_room : 4 + zlen (concat ps) + 4 * zlen ps <= pageSize;
  holds_slot : forall i d, ps !! i = Some d -> slot_ok (buf p) ps i d;
}.

(** Whether one more payload fits, and the list after offering it. *)
Definition fits (ps : list bytes) (d : bytes) : bool :=
  4 + zlen (concat ps) + zlen d + 4 * (zlen ps + 1) <=? pageSize.
Definition offer (ps : list bytes) (d : bytes) : list bytes := if fits ps d then ps ++ [d] else ps.

End holds.

Lemma slot_off_end ps i d :
  ps !! i = Some d -> 4 <= slot_off ps i /\ slot_off ps i + zlen d <= 4 + zlen (concat ps).
Proof.
  intros Hi. unfold slot_off.
  assert (concat ps = concat (take i ps) ++ d ++ concat (drop (S i) ps)) as ->
    by (rewrite <- (take_drop_middle ps i d Hi) at 1; by rewrite concat_app).
  len. pose proof (zlen_nonneg (concat (take i ps))).
  pose proof (zlen_nonneg (concat (drop (S i) ps))). lia.
Qed.

Lemma reset_holds : holds (reset zeroPage) [].
Proof. split; [vm_compute; done..|]. by intros i d; rewrite lookup_nil. Qed.

(** What a write that stays off slot [i] leaves of it. *)
Lemma slot_ok_frame b b' ps ps' i d :
  slot_off ps' i = slot_off ps i ->
  getUint16 b' (slot_dir i) = getUint16 b (slot_dir i) ->
  getUint16 b' (slot_dir i + 2) = getUint16 b (slot_dir i + 2) ->
  slice b' (slot_off ps i) (slot_off ps i + zlen d) = slice b (slot_off ps i) (slot_off ps i + zlen d) ->
  slot_ok b ps i d -> slot_ok b' ps' i d.
Proof. unfold slot_ok. intros -> -> -> ->. done. Qed.

(** The buffer after a successful [Put]. *)
Definition put_buf (b : bytes) (n free : Z) (d : bytes) : bytes :=
  let dirStart := pageSize - (n + 1) * 4 in
  putUint16 (putUint16 (putUint16 (putUint16 (splice b free d) dirStart (u16 free))
    (dirStart + 2) (u16 (zlen d))) 0 (u16 (n + 1))) 2 (u16 (free + zlen d)).

(** Side conditions on offsets: peel the writes off a buffer's length. *)
Ltac page_side :=
  first [done | unfold pageSize in *; lia | rewrite zlen_putUint16; page_side | rewrite zlen_splice; page_side].

Section put_buf.
Context (b d : bytes) (n free : Z).
Hypothesis Hb : zlen b = pageSize.
Hypothesis Hn : 0 <= n.
Hypothesis Hfree : 4 <= free.
Hypothesis Hfit : free + zlen d <= pageSize - (n + 1) * 4.

Lemma zlen_put_buf : zlen (put_buf b n free d) = pageSize.
Proof. pose proof (zlen_nonneg d). unfold put_buf. rewrite !zlen_putUint16; page_side. Qed.

Lemma put_buf_count : getUint16 (put_buf b n free d) 0 = n + 1.
Proof.
  pose proof (zlen_nonneg d). unfold put_buf. rewrite get_put_other, get_put_same; page_side.
Qed.

Lemma put_buf_free : getUint16 (put_buf b n free d) 2 = free + zlen d.
Proof. pose proof (zlen_nonneg d). unfold put_buf. rewrite get_put_same; page_side. Qed.

Lemma put_buf_dir_old off :
  pageSize - (n + 1) * 4 + 4 <= off -> getUint16 (put_buf b n free d) off = getUint16 b off.
Proof.
  intros Ho. pose proof (zlen_nonneg d). unfold put_buf. rewrite !get_put_other; try page_side.
  unfold getUint16. rewrite slice_splice_other; [done|page_side..].
Qed.

Lemma put_buf_off : getUint16 (put_buf b n free d) (pageSize - (n + 1) * 4) = free.
Proof.
  pose proof (zlen_nonneg d). unfold put_buf.
  rewrite 3!get_put_other, get_put_same; page_side.
Qed.

Lemma put_buf_len : getUint16 (put_buf b n free d) (pageSize - (n + 1) * 4 + 2) = zlen d.
Proof.
  pose proof (zlen_nonneg d). unfold put_buf. rewrite 2!get_put_other, get_put_same; page_side.
Qed.

Lemma put_buf_slice lo hi :
  4 <= lo -> hi <= pageSize - (n + 1) * 4 ->
  slice (put_buf b n free d) lo hi = slice (splice b free d) lo hi.
Proof.
  intros. pose proof (zlen_nonneg d). unfold put_buf. rewrite !slice_put_other; page_side.
Qed.
End put_buf.

(** [Put] implements [offer]: it stores a payload that fits as the next slot and
    refuses one that does not, leaving the page alone. *)
Lemma Put_holds p ps d :
  holds p ps ->
  holds (fst (Put p d)) (offer ps d) /\ snd (Put p d) = if fits ps d then Ok tt else Err ErrRowTooLarge.
Proof.
  intros [Hlen Hcnt Hfree Hroom Hslot]. unfold Put, offer, fits. rewrite Hcnt, Hfree.
  pose proof (zlen_nonneg ps) as Hps. pose proof (zlen_nonneg d) as Hd. pose proof (zlen_nonneg (concat ps)) as Hc.
  destruct (Z.leb_spec (4 + zlen (concat ps) + zlen d + 4 * (zlen ps + 1)) pageSize) as [Hfit|Hfit].
  2:{ rewrite (proj2 (Z.ltb_lt _ _)) by lia. done. }
  rewrite (proj2 (Z.ltb_ge _ _)) by lia. split; [|done].
  change (fst _) with (mkPage (put_buf (buf p) (zlen ps) (4 + zlen (concat ps)) d)).
  split; cbn [buf]; rewrite ?concat_app; cbn [concat]; len.
  - apply zlen_put_buf; lia.
  - unfold slotCount. cbn [buf]. rewrite put_buf_count; lia.
  - unfold freeOff. cbn [buf]. rewrite put_buf_free; lia.
  - lia.
  - intros i x Hi. apply lookup_app_Some in Hi as [Hi|[Hge Hi]].
    + pose proof (slot_off_end ps i x Hi). apply lookup_lt_Some in Hi as Hlt. unfold zlen in Hps, Hroom.
      eapply slot_ok_frame, (Hslot i x Hi).
      * unfold slot_off. by rewrite take_app_le by lia.
      * apply put_buf_dir_old; unfold slot_dir, zlen in *; lia.
      * apply put_buf_dir_old; unfold slot_dir, zlen in *; lia.
      * rewrite put_buf_slice by (unfold zlen in *; lia). apply slice_splice_other; unfold zlen in *; lia.
    + apply list_lookup_singleton_Some in Hi as [Hi <-]. assert (i = length ps) as -> by lia. clear Hge Hi.
      assert (slot_off (ps ++ [d]) (length ps) = 4 + zlen (concat ps)) as Eo
        by (unfold slot_off; by rewrite take_app_length).
      unfold slot_ok. rewrite Eo. change (slot_dir (length ps)) with (pageSize - (zlen ps + 1) * 4).
      rewrite put_buf_off, put_buf_len, put_buf_slice, slice_splice_same by lia. done.
Qed.

Lemma le_val_slice b lo : le_val (slice b lo (lo + 2)) = getUint16 b lo.
Proof. done. Qed.

Lemma slice_checked_ok b lo hi : 0 <= lo <= hi -> hi <= zlen b -> slice_checked b lo hi = Some (slice b lo hi).
Proof. intros. unfold slice_checked. by rewrite !(proj2 (Z.leb_le _ _)) by lia. Qed.

Lemma Get_holds p ps i :
  holds p ps ->
  Get p i = Some (match (if i <? 0 then None else ps !! Z.to_nat i) with Some d => Ok d | None => Err ErrSQL end).
Proof.
  intros [Hlen Hcnt Hfree Hroom Hslot]. unfold Get. rewrite Hcnt.
  destruct (Z.ltb_spec i 0) as [|Hi]; [done|]. cbn [orb].
  pose proof (zlen_nonneg (concat ps)).
  destruct (Z.leb_spec (zlen ps) i) as [Hge|Hlt].
  { rewrite lookup_ge_None_2 by (unfold zlen in Hge; lia). done. }
  destruct (lookup_lt_is_Some_2 ps (Z.to_nat i)) as [d Hd]; [unfold zlen in Hlt; lia|]. rewrite Hd.
  destruct (slot_off_end ps _ d Hd) as [Hlo Hhi]. pose proof (zlen_nonneg d).
  destruct (Hslot _ d Hd) as (E1 & E2 & E3). unfold slot_dir in E1, E2. rewrite Z2Nat.id in E1, E2 by lia.
  rewrite (slice_checked_ok _ (pageSize - (i + 1) * 4)) by lia. cbn [mbind option_bind].
  rewrite (slice_checked_ok _ (pageSize - (i + 1) * 4 + 2)) by lia. cbn [mbind option_bind].
  replace (pageSize - (i + 1) * 4 + 4) with (pageSize - (i + 1) * 4 + 2 + 2) by lia.
  rewrite !le_val_slice, E1, E2, slice_checked_ok by lia. cbn [mbind option_bind]. by rewrite E3.
Qed.

(** * Theorems *)

(** Offer every payload of a list to a fresh page. *)
Definition put_all (ds : list bytes) : Page := foldl (fun p d => fst (Put p d)) (reset zeroPage) ds.

(** C25.  A page is the list of the payloads it accepted: after any sequence of
    [Put]s on a fresh page, the next [Put] succeeds exactly when header, payloads
    and directory still fit in 4096 bytes (and is refused with ErrRowTooLarge
    otherwise), and [Get i] returns the [i]-th accepted payload, or an error for
    an index out of range; it never panics. *)
Theorem page_refines_slots ds d i :
  let p := put_all ds in
  let ps := foldl offer [] ds in
  snd (Put p d) = (if fits ps d then Ok tt else Err ErrRowTooLarge) /\
  Get p i = Some (match (if i <? 0 then None else ps !! Z.to_nat i) with Some d => Ok d | None => Err ErrSQL end).
Proof.
  assert (holds (put_all ds) (foldl offer [] ds)) as Hh.
  { unfold put_all. generalize reset_holds. generalize (reset zeroPage), (@nil bytes).
    induction ds as [|x ds IH]; intros p ps Hp; [done|]. cbn [foldl]. by apply IH, Put_holds. }
  split; [by apply Put_holds|by apply Get_holds].
Qed.

(** A row payload of up to 4088 bytes survives its page; a longer one is refused. *)
Lemma row_page_cases payload :
  if zlen payload <=? pageSize - 8
  then exists raw, EncodeRowPage payload = Ok raw /\ zlen raw = pageSize /\ DecodeRowPage raw = Some (Ok payload)
  else EncodeRowPage payload = Err ErrRowTooLarge.
Proof.
  destruct (Put_holds _ _ payload reset_holds) as [Hh Hr]. unfold EncodeRowPage, offer, fits in *.
  cbn [concat app] in *. len. rewrite Z.add_0_r in *.
  destruct (Put (reset zeroPage) payload) as [p r]. cbn [fst snd] in *. subst r.
  destruct (Z.leb_spec (zlen payload) (pageSize - 8)).
  - rewrite (proj2 (Z.leb_le _ _)) in * by lia. exists (Bytes p). split; [done|].
    destruct p as [b]. unfold Bytes. pose proof (holds_len _ _ Hh) as Hl. cbn [buf] in *. split; [done|].
    unfold DecodeRowPage, LoadPage. rewrite Hl, Z.eqb_refl. cbn [negb].
    rewrite (holds_count _ _ Hh). by rewrite (Get_holds _ _ _ Hh).
  - by rewrite (proj2 (Z.leb_gt _ _)) by lia.
Qed.

(** [DecodeRowPage] checks the size of the image and its slot count but not
    the first slot's directory entry: it panics, with an out-of-range slice, on
    exactly the full-size images whose first slot claims to end past the page. *)
Theorem decode_page_panics raw :
  DecodeRowPage raw = None <->
  zlen raw = pageSize /\ 1 <= slotCount (mkPage raw) /\
  pageSize < getUint16 raw (pageSize - 4) + getUint16 raw (pageSize - 2).
Proof.
  unfold DecodeRowPage, LoadPage. destruct (Z.eqb_spec (zlen raw) pageSize) as [E|E]; cbn [negb]; [|naive_solver].
  destruct (Z.ltb_spec (slotCount (mkPage raw)) 1) as [Hc|Hc]; [split; [done|lia]|].
  unfold Get. rewrite (proj2 (Z.leb_gt _ _)) by lia. cbn [Z.ltb Z.compare orb buf].
  rewrite (slice_checked_ok raw (pageSize - (0 + 1) * 4)) by (unfold pageSize in *; lia). cbn [mbind option_bind].
  rewrite (slice_checked_ok raw) by (unfold pageSize in *; lia). cbn [mbind option_bind].
  change (pageSize - (0 + 1) * 4 + 4) with (pageSize - 2 + 2). change (pageSize - (0 + 1) * 4 + 2) with (pageSize - 4 + 2).
  change (pageSize - (0 + 1) * 4) with (pageSize - 4). change (pageSize - 4 + 2) with (pageSize - 2) at 2.
  rewrite !le_val_slice. pose proof (getUint16_range raw (pageSize - 4)). pose proof (getUint16_range raw (pageSize - 2)).
  unfold slice_checked. rewrite !(proj2 (Z.leb_le _ _)) by lia. rewrite E. cbn [andb].
  destruct (Z.leb_spec (getUint16 raw (pageSize - 4) + getUint16 raw (pageSize - 2)) pageSize);
    cbn [mbind option_bind]; split; try done; lia.
Qed.
