(* ===== verification/Row.v ===== *)
(** SQL values and rows (row.go, and ColType of catalog.go): the tagged binary
    form of a value, the row as a counted sequence of values, and its packing
    into one page. *)

From S2P Require Import Prelude Page.

(** [ColType] is a string type; [TypeName s] is any string but the four
    constants, [TypeName []] being the zero value. *)
Inductive ColType :=
  | TypeInteger
  | TypeText
  | TypeBlob
  | TypeJSON
  | TypeName (s : bytes).

#[export] Instance ColType_eq_dec : EqDecision ColType.
Proof. solve_decision. Defined.

Record Value := mkValue {
  Typ : ColType;
  Int : Z;
  Text : bytes;
  Blob : bytes;
  Null : bool;
}.

#[export] Instance Value_eq_dec : EqDecision Value.
Proof. solve_decision. Defined.

(** The composite literals of the source: the fields not given are zero. *)
Definition NullValue : Value := mkValue (TypeName []) 0 [] [] true.
Definition IntValue (i : Z) : Value := mkValue TypeInteger i [] [] false.
Definition TextValue (s : bytes) : Value := mkValue TypeText 0 s [] false.
Definition BlobValue (b : bytes) : Value := mkValue TypeBlob 0 [] b false.
Definition JSONValue (b : bytes) : Value := mkValue TypeJSON 0 [] b false.

(** A tag, a 32-bit length and the bytes. *)
Definition encode_bytes (tag : Z) (b : bytes) : bytes :=
  byte_of tag :: le_bytes 4 (u32 (zlen b)) ++ b.

Definition encode (v : Value) : bytes :=
  if Null v then [byte_of 0]
  else match Typ v with
  | TypeInteger => byte_of 1 :: le_bytes 8 (u64 (Int v))
  | TypeText => encode_bytes 2 (Text v)
  | TypeBlob => encode_bytes 3 (Blob v)
  | TypeJSON => encode_bytes 4 (Blob v)
  | TypeName _ => [byte_of 0]
  end.

(** The value after a tag with a length header, built by [mk], and the bytes used. *)
Definition decode_bytes (mk : bytes -> Value) (data : bytes) : res (Value * Z) :=
  if zlen data <? 5 then Err ErrSQL
  else
    let n := le_val (slice data 1 5) in
    if zlen data <? 5 + n then Err ErrSQL
    else Ok (mk (slice data 5 (5 + n)), 5 + n).

Definition decodeValue (data : bytes) : res (Value * Z) :=
  match data with
  | [] => Err ErrSQL
  | tag :: _ =>
      let t := byte_val tag in
      if t =? 0 then Ok (NullValue, 1)
      else if t =? 1 then
        if zlen data <? 9 then Err ErrSQL
        else Ok (IntValue (i64 (le_val (slice data 1 9))), 9)
      else if t =? 2 then decode_bytes TextValue data
      else if t =? 3 then decode_bytes BlobValue data
      else if t =? 4 then decode_bytes JSONValue data
      else Err ErrSQL
  end.

Definition encodeRow (values : list Value) : bytes :=
  le_bytes 2 (u16 (zlen values)) ++ (values ≫= encode).

(** The loop of decodeRow: [n] more values from [rest]. *)
Fixpoint decode_values (n : nat) (rest : bytes) : res (list Value) :=
  match n with
  | O => Ok []
  | S n =>
      let! (v, used) := decodeValue rest in
      let! vs := decode_values n (drop (Z.to_nat used) rest) in
      Ok (v :: vs)
  end.

Definition decodeRow (data : bytes) : res (list Value) :=
  if zlen data <? 2 then Err ErrSQL
  else decode_values (Z.to_nat (le_val (slice data 0 2))) (drop 2 data).

Definition packRow (values : list Value) : res bytes := EncodeRowPage (encodeRow values).

(** [None] is a panic of the page decoder. *)
Definition unpackRow (pageBytes : bytes) : option (res (list Value)) :=
  r ← DecodeRowPage pageBytes;
  Some (let! payload := r in decodeRow payload).

(** * What survives of a value *)

(** The field of the value's type; a value of no storable type becomes NULL. *)
Definition stored (v : Value) : Value :=
  if Null v then NullValue
  else match Typ v with
  | TypeInteger => IntValue (Int v)
  | TypeText => TextValue (Text v)
  | TypeBlob => BlobValue (Blob v)
  | TypeJSON => JSONValue (Blob v)
  | TypeName _ => NullValue
  end.

(** An int64 in the integer field. *)
Definition value_ok (v : Value) : Prop := in_i64 (Int v).

Lemma slice_app b b' lo hi :
  0 <= lo -> lo = zlen b -> slice (b ++ b') lo hi = take (Z.to_nat (hi - lo)) b'.
Proof. intros H0 ->. unfold slice, zlen. rewrite drop_app_length' by lia. done. Qed.

Lemma le_val_u32 z : 0 <= z < 2 ^ 32 -> le_val (le_bytes 4 (u32 z)) = z.
Proof. intros. rewrite le_val_le_bytes. change (256 ^ Z.of_nat 4) with (2 ^ 32). unfold u32. by rewrite Zmod_mod, Z.mod_small. Qed.

Lemma decode_encode_bytes mk tag b rest :
  zlen b < 2 ^ 32 ->
  decode_bytes mk (encode_bytes tag b ++ rest) = Ok (mk b, zlen (encode_bytes tag b)).
Proof.
  intros Hb. unfold decode_bytes, encode_bytes. pose proof (zlen_nonneg b). pose proof (zlen_nonneg rest).
  assert (zlen (le_bytes 4 (u32 (zlen b))) = 4) as H4 by apply zlen_le_bytes.
  len. rewrite H4. rewrite (proj2 (Z.ltb_ge _ _)) by lia.
  replace ((byte_of tag :: le_bytes 4 (u32 (zlen b)) ++ b) ++ rest)
    with ([byte_of tag] ++ le_bytes 4 (u32 (zlen b)) ++ b ++ rest) by (cbn [app]; by rewrite <- app_assoc).
  rewrite slice_app by done. rewrite take_app_length' by (by rewrite length_le_bytes).
  rewrite le_val_u32 by lia. rewrite (proj2 (Z.ltb_ge _ _)) by lia.
  rewrite (app_assoc [byte_of tag]), slice_app by (len; lia).
  rewrite take_app_length' by (unfold zlen; lia). do 2 f_equal. lia.
Qed.

Lemma zlen_encode_pos v : 1 <= zlen (encode v).
Proof.
  assert (forall b (l : bytes), 1 <= zlen (b :: l)) by (intros; rewrite zlen_cons; pose proof (zlen_nonneg l); lia).
  unfold encode, encode_bytes. destruct (Null v); [auto|]. destruct (Typ v); auto.
Qed.

Lemma decode_encode_int i rest :
  in_i64 i -> decodeValue (byte_of 1 :: le_bytes 8 (u64 i) ++ rest) = Ok (IntValue i, 9).
Proof.
  intros Hi. unfold decodeValue. change (byte_val (byte_of 1)) with 1. cbn [Z.eqb Pos.eqb].
  pose proof (zlen_nonneg rest). assert (zlen (le_bytes 8 (u64 i)) = 8) as H8 by apply zlen_le_bytes.
  len. rewrite H8. rewrite (proj2 (Z.ltb_ge _ _)) by lia.
  change (byte_of 1 :: le_bytes 8 (u64 i) ++ rest) with ([byte_of 1] ++ le_bytes 8 (u64 i) ++ rest).
  rewrite slice_app, take_app_length' by (rewrite ?length_le_bytes; done).
  rewrite le_val_le_bytes. change (256 ^ Z.of_nat 8) with (2 ^ 64). fold (u64 (u64 i)).
  rewrite (u64_small (u64 i)) by auto with runnel. by rewrite i64_of_u64.
Qed.

(** A value decodes to what is stored of it, whatever follows it. *)
Lemma decodeValue_encode v rest :
  value_ok v -> zlen (encode v) < 2 ^ 32 -> decodeValue (encode v ++ rest) = Ok (stored v, zlen (encode v)).
Proof.
  intros Hv Hl. unfold encode, stored in *. destruct (Null v); [done|].
  assert (forall t (b : bytes), zlen (encode_bytes t b) < 2 ^ 32 -> zlen b < 2 ^ 32) as Hb.
  { intros t b. unfold encode_bytes. len. pose proof (zlen_nonneg (le_bytes 4 (u32 (zlen b)))). lia. }
  destruct (Typ v); [|..|done].
  - apply decode_encode_int, Hv.
  - by apply (decode_encode_bytes TextValue), (Hb 2).
  - by apply (decode_encode_bytes BlobValue), (Hb 3).
  - by apply (decode_encode_bytes JSONValue), (Hb 4).
Qed.

Lemma decode_values_encode vs rest :
  Forall value_ok vs -> zlen (vs ≫= encode) < 2 ^ 32 ->
  decode_values (length vs) ((vs ≫= encode) ++ rest) = Ok (stored <$> vs).
Proof.
  intros Hv. induction Hv as [|v vs Hv _ IH]; intros Hl; [done|].
  rewrite bind_cons in Hl |- *. len. pose proof (zlen_nonneg (vs ≫= encode)). pose proof (zlen_nonneg (encode v)).
  cbn [length decode_values]. rewrite <- app_assoc, decodeValue_encode by (done || lia). cbn [rbind].
  rewrite to_nat_zlen, drop_app_length, IH by lia. done.
Qed.

(** Every value takes a byte, so the row's size bounds their number. *)
Lemma zlen_values vs : zlen vs <= zlen (vs ≫= encode).
Proof.
  induction vs as [|v vs IH]; [done|]. rewrite bind_cons. len. pose proof (zlen_encode_pos v). lia.
Qed.

Lemma decodeRow_encodeRow vs rest :
  Forall value_ok vs -> zlen (encodeRow vs) <= 4088 -> decodeRow (encodeRow vs ++ rest) = Ok (stored <$> vs).
Proof.
  intros Hv Hl. unfold decodeRow, encodeRow in *. pose proof (zlen_values vs).
  assert (zlen (le_bytes 2 (u16 (zlen vs))) = 2) as H2 by apply zlen_le_bytes. len.
  pose proof (zlen_nonneg vs). pose proof (zlen_nonneg rest). rewrite H2 in *. rewrite (proj2 (Z.ltb_ge _ _)) by lia.
  rewrite <- app_assoc. change (slice ?b 0 2) with (take 2 b).
  rewrite take_app_length', drop_app_length' by (by rewrite length_le_bytes).
  rewrite le_val_le_bytes. change (256 ^ Z.of_nat 2) with (2 ^ 16). unfold u16. rewrite Zmod_mod, Z.mod_small by lia.
  rewrite to_nat_zlen. apply decode_values_encode; [done|lia].
Qed.

(** * Decoding accepts nothing but encodings *)

(** [data] starts with the encoding of [v], a value in the form rows store. *)
Definition starts_with_value (data : bytes) (v : Value) (used : Z) : Prop :=
  (exists rest, data = encode v ++ rest) /\ used = zlen (encode v) /\ value_ok v /\ stored v = v.

Lemma slice_split (data : bytes) lo hi :
  0 <= lo <= hi -> hi <= zlen data -> data = take (Z.to_nat lo) data ++ slice data lo hi ++ drop (Z.to_nat hi) data.
Proof.
  intros. unfold slice, zlen in *. rewrite <- (take_drop (Z.to_nat lo) data) at 1. f_equal.
  rewrite <- (take_drop (Z.to_nat (hi - lo)) (drop (Z.to_nat lo) data)) at 1. f_equal.
  rewrite drop_drop. f_equal. lia.
Qed.

Lemma decode_bytes_inv mk t tag data v used :
  byte_val tag = t -> decode_bytes mk (tag :: data) = Ok (v, used) ->
  exists b rest, v = mk b /\ tag :: data = encode_bytes t b ++ rest /\ used = zlen (encode_bytes t b).
Proof.
  intros Ht. unfold decode_bytes. set (d := tag :: data).
  destruct (Z.ltb_spec (zlen d) 5) as [|H5]; [done|]. set (n := le_val (slice d 1 5)).
  destruct (Z.ltb_spec (zlen d) (5 + n)) as [|Hn]; [done|]. intros [= <- <-].
  assert (length (slice d 1 5) = 4%nat) as L4 by (rewrite length_slice; lia).
  assert (0 <= n < 2 ^ 32) as Hr.
  { pose proof (le_val_bound (slice d 1 5)) as Hr. unfold zlen in Hr. by rewrite L4 in Hr. }
  assert (zlen (slice d 5 (5 + n)) = n) as Ln by (unfold zlen; rewrite length_slice; lia).
  exists (slice d 5 (5 + n)), (drop (Z.to_nat (5 + n)) d). split; [done|].
  unfold encode_bytes. len. rewrite Ln, zlen_le_bytes. unfold u32. rewrite Z.mod_small by done.
  split; [|lia]. unfold n at 1. rewrite <- L4, le_bytes_le_val.
  rewrite <- Ht, byte_of_val. cbn [app]. rewrite <- app_assoc.
  rewrite (slice_split d 1 5) at 1 by lia. cbn [app]. f_equal.
  rewrite (slice_split d 5 (5 + n)) at 2 by lia. rewrite drop_app_length' by (rewrite length_take; unfold zlen in *; lia).
  done.
Qed.

Lemma decodeValue_inv data v used : decodeValue data = Ok (v, used) -> starts_with_value data v used.
Proof.
  unfold decodeValue, starts_with_value. destruct data as [|tag data]; [done|].
  assert (in_i64 0) as H0 by (unfold in_i64; lia).
  destruct (Z.eqb_spec (byte_val tag) 0) as [E|_].
  { intros [= <- <-]. rewrite <- (byte_of_val tag), E. split; [by exists data|done]. }
  destruct (Z.eqb_spec (byte_val tag) 1) as [E|_].
  { destruct (Z.ltb_spec (zlen (tag :: data)) 9) as [|H9]; [done|]. intros [= <- <-].
    pose proof (i64_range (le_val (slice (tag :: data) 1 9))) as Hr. split; [|done].
    assert (length (slice (tag :: data) 1 9) = 8%nat) as L8 by (rewrite length_slice; lia).
    pose proof (le_val_bound (slice (tag :: data) 1 9)) as Hb. unfold zlen in Hb. rewrite L8 in Hb.
    unfold encode. cbn [Null Typ Int IntValue]. exists (drop 9 (tag :: data)).
    assert (u64 (i64 (le_val (slice (tag :: data) 1 9))) = le_val (slice (tag :: data) 1 9)) as ->.
    { unfold u64, i64. change (256 ^ Z.of_nat 8) with (2 ^ 64) in Hb.
      rewrite Zminus_mod_idemp_l, Z.add_simpl_r. by apply Z.mod_small. }
    rewrite <- L8 at 1. rewrite le_bytes_le_val, <- E, byte_of_val.
    rewrite E. rewrite (slice_split (tag :: data) 1 9) at 1 by lia. done. }
  destruct (Z.eqb_spec (byte_val tag) 2) as [E|_].
  { intros (b & rest & -> & -> & ->)%(decode_bytes_inv _ 2); eauto. }
  destruct (Z.eqb_spec (byte_val tag) 3) as [E|_].
  { intros (b & rest & -> & -> & ->)%(decode_bytes_inv _ 3); eauto. }
  destruct (Z.eqb_spec (byte_val tag) 4) as [E|_]; [|done].
  intros (b & rest & -> & -> & ->)%(decode_bytes_inv _ 4); eauto.
Qed.

Lemma decode_values_inv n data vs :
  decode_values n data = Ok vs ->
  length vs = n /\ (exists rest, data = (vs ≫= encode) ++ rest) /\ Forall (fun v => value_ok v /\ stored v = v) vs.
Proof.
  revert data vs. induction n as [|n IH]; intros data vs; cbn [decode_values].
  { intros [= <-]. split; [done|]. split; [by exists data|done]. }
  destruct (decodeValue data) as [[v used]|e] eqn:E; [|done]. cbn [rbind].
  apply decodeValue_inv in E as ([rest ->] & -> & Hv & Hs). rewrite to_nat_zlen, drop_app_length.
  destruct (decode_values n rest) as [vs'|e] eqn:E'; [|done]. intros [= <-].
  destruct (IH _ _ E') as (<- & [rest' ->] & Hf). split; [done|]. split; [|by constructor].
  exists rest'. by rewrite bind_cons, <- app_assoc.
Qed.

Lemma packRow_cases vs :
  Forall value_ok vs ->
  if zlen (encodeRow vs) <=? pageSize - 8
  then exists raw, packRow vs = Ok raw /\ zlen raw = pageSize /\ unpackRow raw = Some (Ok (stored <$> vs))
  else packRow vs = Err ErrRowTooLarge.
Proof.
  intros Hv. unfold packRow, unpackRow. pose proof (row_page_cases (encodeRow vs)) as Hp.
  destruct (Z.leb_spec (zlen (encodeRow vs)) (pageSize - 8)) as [Hl|]; [|done].
  destruct Hp as (raw & -> & Hlen & Hd). exists raw. do 2 (split; [done|]). rewrite Hd. cbn [mbind option_bind rbind].
  rewrite <- (app_nil_r (encodeRow vs)). by rewrite decodeRow_encodeRow.
Qed.

(** A row packs when its encoding fits. *)
Lemma packRow_fits vs : match packRow vs with Ok _ => zlen (encodeRow vs) <=? pageSize - 8 = true | Err _ => zlen (encodeRow vs) <=? pageSize - 8 = false end.
Proof.
  unfold packRow. pose proof (row_page_cases (encodeRow vs)) as H. destruct (zlen (encodeRow vs) <=? pageSize - 8); [by destruct H as (raw & -> & _)|by rewrite H].
Qed.

Lemma unpack_pack vs raw : Forall value_ok vs -> packRow vs = Ok raw -> unpackRow raw = Some (Ok (stored <$> vs)).
Proof.
  intros Hv E. pose proof (packRow_cases vs Hv) as H. case_match; [|congruence]. destruct H as (raw' & E' & _ & H). congruence.
Qed.

Lemma stored_idemp v : stored (stored v) = stored v.
Proof. unfold stored. destruct (Null v) eqn:E; [done|]. by destruct (Typ v). Qed.

Lemma value_ok_stored v : value_ok v -> value_ok (stored v).
Proof. unfold value_ok, stored. intros H. destruct (Null v), (Typ v); cbn; unfold in_i64 in *; lia. Qed.

(** * Theorems *)

(** C24.  Rows round-trip through their page: a row whose encoding fits in a page
    packs into a full page that unpacks to the row's values (each reduced to the
    field of its type), and any longer row is refused with ErrRowTooLarge. *)
Theorem row_roundtrip vs :
  Forall value_ok vs ->
  if zlen (encodeRow vs) <=? pageSize - 8
  then exists raw, packRow vs = Ok raw /\ zlen raw = pageSize /\ unpackRow raw = Some (Ok (stored <$> vs))
  else packRow vs = Err ErrRowTooLarge.
Proof. apply packRow_cases. Qed.

(** [decodeRow] is strict: data it accepts starts with the encoding of
    exactly the values it returns, each of which has an int64 integer and no
    field but its type's, so no two byte forms of a row decode alike. *)
Theorem decodeRow_canonical data vs :
  decodeRow data = Ok vs ->
  (exists rest, data = encodeRow vs ++ rest) /\ Forall (fun v => value_ok v /\ stored v = v) vs.
Proof.
  unfold decodeRow. destruct (Z.ltb_spec (zlen data) 2) as [|H2]; [done|].
  assert (length (slice data 0 2) = 2%nat) as L2 by (rewrite length_slice; lia).
  pose proof (le_val_bound (slice data 0 2)) as Hb. unfold zlen in Hb. rewrite L2 in Hb.
  intros (Hn & [rest Hd] & Hf)%decode_values_inv. split; [|done]. exists rest.
  unfold encodeRow, u16, zlen. rewrite Hn, Z2Nat.id by lia. change (256 ^ Z.of_nat 2) with (2 ^ 16) in Hb.
  rewrite Z.mod_small by done. rewrite <- L2 at 1. rewrite le_bytes_le_val, <- app_assoc, <- Hd.
  rewrite (slice_split data 0 2) at 1 by lia. done.
Qed.

(** A row of every storable kind, packed and unpacked. *)
Lemma row_roundtrip_witness :
  let vs := [IntValue (-5); TextValue (lit "ann"); BlobValue [Byte.xff]; JSONValue [Byte.x00]; NullValue] in
  exists raw, packRow vs = Ok raw /\ zlen raw = pageSize /\ unpackRow raw = Some (Ok vs).
Proof.
  set (vs := [IntValue (-5); TextValue (lit "ann"); BlobValue [Byte.xff]; JSONValue [Byte.x00]; NullValue]).
  assert (Forall value_ok vs) as Hv by (repeat constructor; unfold value_ok, in_i64; simpl; lia).
  exact (row_roundtrip vs Hv).
Defined.

Lemma decodeRow_canonical_witness :
  decodeRow (lit "Q" ++ [Byte.x00]) = Err ErrSQL /\
  exists rest, [Byte.x01; Byte.x00; Byte.x00; Byte.x07] = encodeRow [NullValue] ++ rest.
Proof.
  split; [reflexivity|].
  exact (proj1 (decodeRow_canonical [Byte.x01; Byte.x00; Byte.x00; Byte.x07] [NullValue] eq_refl)).
Defined.
