(* ===== verification/BTree.v ===== *)
(** The B+tree of primary keys and secondary indexes (btree.go): typed keys and
    their order, insertion with leaf and interior splits, deletion without
    rebalancing, search, and iteration along the leaves' sibling pointers.

    Interior pointers are owned by one parent, so nodes nest; the sibling
    pointer shares leaves, so a leaf has an identity and [next] holds one.  A
    [None] result of an operation is a run-time panic (an index out of range);
    the theorems show there is none on a tree built by the operations. *)

From S2P Require Import Prelude Strconv Keys.

Definition btreeOrder : nat := 8.

(** * Keys *)

Record pkKey := mkKey { isInt : bool; pk_i : Z; pk_s : bytes }.

#[export] Instance pkKey_eq_dec : EqDecision pkKey.
Proof. solve_decision. Defined.

Definition pkFromInt (v : Z) : pkKey := mkKey true v [].
Definition pkFromString (v : bytes) : pkKey := mkKey false 0 v.

Definition compare (a b : pkKey) : Z :=
  if negb (eqb (isInt a) (isInt b)) then (if isInt a then -1 else 1)
  else if isInt a then
    (if pk_i a <? pk_i b then -1 else if pk_i b <? pk_i a then 1 else 0)
  else
    match bytes_compare (pk_s a) (pk_s b) with Lt => -1 | Gt => 1 | Eq => 0 end.

Definition pk_encode (k : pkKey) : bytes :=
  if isInt k then encodePKInt (pk_i k) else encodePKString (pk_s k).

Definition pkKeyFromEncoded (encoded : bytes) : res pkKey :=
  let! (b, i, s) := decodePK encoded in
  Ok (if b : bool then pkFromInt i else pkFromString s).

Definition formatPK (k : pkKey) : bytes := if isInt k then formatInt (pk_i k) else pk_s k.

(** * Nodes *)

Record leafNode := mkLeaf {
  lid : nat;                (* the leaf's identity *)
  lkeys : list pkKey;
  lvals : list bytes;
  lnext : option nat;       (* the sibling, nil at the end *)
}.

Inductive btreeNode :=
  | Leaf (l : leafNode)
  | Node (keys : list pkKey) (children : list btreeNode).

(** [fresh] is the identity the next leaf gets. *)
Record btree := mkTree { root : btreeNode; fresh : nat }.

Definition newBTree : btree := mkTree (Leaf (mkLeaf 0 [] [] None)) 1.

(** Apply [f] to the [i]-th element; [None] when there is none. *)
Section nth_apply.
Context {A B : Type} (f : A -> B).
Fixpoint nth_apply (i : nat) (l : list A) {struct l} : option B :=
  match l with
  | [] => None
  | x :: l => match i with O => Some (f x) | S i => nth_apply i l end
  end.
End nth_apply.

(** [append] of a zero element, [copy] up by one and store: [x] at index [i]. *)
Definition insert_at {A} (i : nat) (x : A) (l : list A) : list A := take i l ++ x :: drop i l.

(** [append(l[:i], l[i+1:]...)]. *)
Definition remove_at {A} (i : nat) (l : list A) : list A := take i l ++ drop (S i) l.

Fixpoint childIndex (keys : list pkKey) (k : pkKey) : nat :=
  match keys with
  | [] => 0
  | key :: keys => if 0 <=? compare k key then S (childIndex keys k) else 0
  end.

(** The loops of Seek and insertLeaf: the first index whose key is not below [k]. *)
Fixpoint lower_bound (keys : list pkKey) (k : pkKey) : nat :=
  match keys with
  | [] => 0
  | key :: keys => if compare key k <? 0 then S (lower_bound keys k) else 0
  end.

(** The loops of Get and delete: the first index whose key equals [k]. *)
Fixpoint find_key (keys : list pkKey) (k : pkKey) : option nat :=
  match keys with
  | [] => None
  | key :: keys => if compare key k =? 0 then Some 0%nat else S <$> find_key keys k
  end.

(** * Insertion *)

(** What an insertion leaves: the node, and the separator and right sibling when it split. *)
Definition grown : Type := btreeNode * option (pkKey * btreeNode).

Definition splitLeaf (new : nat) (l : leafNode) : option grown :=
  let mid := (length (lkeys l) / 2)%nat in
  let right := mkLeaf new (drop mid (lkeys l)) (drop mid (lvals l)) (lnext l) in
  let n := mkLeaf (lid l) (take mid (lkeys l)) (take mid (lvals l)) (Some new) in
  sep ← lkeys right !! 0%nat;
  Some (Leaf n, Some (sep, Leaf right)).

(** [i < len(keys) && keys[i].compare(k) == 0]. *)
Definition key_at (keys : list pkKey) (i : nat) (k : pkKey) : bool :=
  match keys !! i with Some key => compare key k =? 0 | None => false end.

Definition insertLeaf (new : nat) (k : pkKey) (rowKey : bytes) (l : leafNode) : option grown :=
  let i := lower_bound (lkeys l) k in
  if key_at (lkeys l) i k
  then Some (Leaf (mkLeaf (lid l) (lkeys l) (<[i := rowKey]> (lvals l)) (lnext l)), None)
  else
    let l := mkLeaf (lid l) (insert_at i k (lkeys l)) (insert_at i rowKey (lvals l)) (lnext l) in
    if (length (lkeys l) <=? btreeOrder)%nat then Some (Leaf l, None) else splitLeaf new l.

Definition splitInterior (keys : list pkKey) (children : list btreeNode) : option grown :=
  let mid := (length keys / 2)%nat in
  up ← keys !! mid;
  let right := Node (drop (S mid) keys) (drop (S mid) children) in
  Some (Node (take mid keys) (take (S mid) children), Some (up, right)).

Fixpoint node_insert (new : nat) (k : pkKey) (rowKey : bytes) (n : btreeNode) : option grown :=
  match n with
  | Leaf l => insertLeaf new k rowKey l
  | Node keys children =>
      let i := childIndex keys k in
      '(child, split) ← mjoin (nth_apply (node_insert new k rowKey) i children);
      let children := <[i := child]> children in
      match split with
      | None => Some (Node keys children, None)
      | Some (splitKey, splitRight) =>
          let keys := insert_at i splitKey keys in
          let children := insert_at (S i) splitRight children in
          if (length keys <=? btreeOrder)%nat then Some (Node keys children, None)
          else splitInterior keys children
      end
  end.

Definition Put (t : btree) (k : pkKey) (rowKey : bytes) : option btree :=
  '(n, split) ← node_insert (fresh t) k rowKey (root t);
  match split with
  | Some (splitKey, splitRight) => Some (mkTree (Node [splitKey] [n; splitRight]) (S (fresh t)))
  | None => Some (mkTree n (S (fresh t)))
  end.

(** * Deletion *)

Definition deleteLeaf (k : pkKey) (l : leafNode) : leafNode :=
  match find_key (lkeys l) k with
  | Some i => mkLeaf (lid l) (remove_at i (lkeys l)) (remove_at i (lvals l)) (lnext l)
  | None => l
  end.

Fixpoint node_delete (k : pkKey) (n : btreeNode) : option btreeNode :=
  match n with
  | Leaf l => Some (Leaf (deleteLeaf k l))
  | Node keys children =>
      let i := childIndex keys k in
      child ← mjoin (nth_apply (node_delete k) i children);
      Some (Node keys (<[i := child]> children))
  end.

Definition Delete (t : btree) (k : pkKey) : option btree :=
  n ← node_delete k (root t);
  match n with
  | Node [] [child] => Some (mkTree child (fresh t))
  | _ => Some (mkTree n (fresh t))
  end.

(** * Search *)

(** The descent shared by Get and Seek. *)
Fixpoint find_leaf (k : pkKey) (n : btreeNode) : option leafNode :=
  match n with
  | Leaf l => Some l
  | Node keys children => mjoin (nth_apply (find_leaf k) (childIndex keys k) children)
  end.

(** [Some None]: the key is absent; [None]: a panic. *)
Definition Get (t : btree) (k : pkKey) : option (option bytes) :=
  l ← find_leaf k (root t);
  match find_key (lkeys l) k with
  | Some i => v ← lvals l !! i; Some (Some v)
  | None => Some None
  end.

(** * Iteration *)

(** An iterator points at a leaf, or is exhausted. *)
Record btreeIter := mkIter { it_node : option nat; it_idx : nat }.

Definition Seek (t : btree) (k : pkKey) : option btreeIter :=
  l ← find_leaf k (root t);
  Some (mkIter (Some (lid l)) (lower_bound (lkeys l) k)).

Fixpoint first_leaf (n : btreeNode) : option leafNode :=
  match n with
  | Leaf l => Some l
  | Node _ children => mjoin (nth_apply first_leaf 0 children)
  end.

Definition Ascend (t : btree) : option btreeIter :=
  l ← first_leaf (root t);
  Some (mkIter (Some (lid l)) 0).

(** The leaves from left to right, and the leaf an identity denotes. *)
Fixpoint leaves (n : btreeNode) : list leafNode :=
  match n with
  | Leaf l => [l]
  | Node _ children => concat (map leaves children)
  end.

Definition deref (t : btree) (id : nat) : option leafNode := list_find (fun l => lid l = id) (leaves (root t)) ≫= (fun p => Some (snd p)).

(** The loop of Next: [fuel] bounds the leaves it skips; running out, or a
    pointer to no leaf, is [None]. *)
Fixpoint next_loop (fuel : nat) (t : btree) (it : btreeIter) : option (btreeIter * option (pkKey * bytes)) :=
  match it_node it with
  | None => Some (it, None)
  | Some id =>
      match fuel with
      | O => None
      | S fuel =>
          l ← deref t id;
          match lkeys l !! it_idx it with
          | Some k => v ← lvals l !! it_idx it; Some (mkIter (it_node it) (S (it_idx it)), Some (k, v))
          | None => next_loop fuel t (mkIter (lnext l) 0)
          end
      end
  end.

(** Each turn but the last leaves one leaf behind, so the number of leaves is enough. *)
Definition Next (t : btree) (it : btreeIter) : option (btreeIter * option (pkKey * bytes)) :=
  next_loop (length (leaves (root t))) t it.

(** A client's loop: call Next until it reports the end, collecting what it yields. *)
Fixpoint drain (fuel : nat) (t : btree) (it : btreeIter) : option (list (pkKey * bytes)) :=
  match fuel with
  | O => None
  | S fuel =>
      '(it, e) ← Next t it;
      match e with
      | None => Some []
      | Some e => cons e <$> drain fuel t it
      end
  end.

(** * Contents *)

Definition leaf_entries (l : leafNode) : list (pkKey * bytes) := zip (lkeys l) (lvals l).
Definition entries (n : btreeNode) : list (pkKey * bytes) := concat (map leaf_entries (leaves n)).

(** * The order of keys *)

Definition pk_lt (a b : pkKey) : Prop := compare a b < 0.
Definition pk_eq (a b : pkKey) : Prop := compare a b = 0.

Lemma compare_antisym a b : compare b a = - compare a b.
Proof.
  unfold compare. rewrite (bytes_compare_antisym (pk_s a)).
  destruct (isInt a), (isInt b); cbn [eqb negb]; try done; [repeat case_match; lia|].
  by destruct (bytes_compare (pk_s a) (pk_s b)).
Qed.

Lemma compare_refl a : compare a a = 0.
Proof. pose proof (compare_antisym a a). lia. Qed.

Lemma compare_sign a b : compare a b = -1 \/ compare a b = 0 \/ compare a b = 1.
Proof. unfold compare. repeat case_match; auto. Qed.

(** Equivalent keys compare alike with every key. *)
Lemma compare_eq_l a b c : pk_eq a b -> compare a c = compare b c.
Proof.
  unfold pk_eq, compare. destruct (isInt a), (isInt b), (isInt c); cbn [eqb negb]; try done.
  - intros H. assert (pk_i a = pk_i b) as -> by (repeat case_match; lia). done.
  - intros H. destruct (bytes_compare (pk_s a) (pk_s b)) eqn:E; try done.
    apply bytes_compare_eq in E as ->. done.
Qed.

Lemma compare_eq_r a b c : pk_eq a b -> compare c a = compare c b.
Proof. intros H. rewrite (compare_antisym a c), (compare_antisym b c). by rewrite (compare_eq_l a b). Qed.

#[export] Instance pk_eq_equivalence : Equivalence pk_eq.
Proof.
  split.
  - intros a. apply compare_refl.
  - intros a b. unfold pk_eq. rewrite (compare_antisym a b). lia.
  - intros a b c H1 H2. unfold pk_eq. by rewrite (compare_eq_l a b).
Qed.

#[export] Instance compare_proper : Proper (pk_eq ==> pk_eq ==> eq) compare.
Proof. intros a b H c d H'. rewrite (compare_eq_l _ _ _ H). by apply compare_eq_r. Qed.

#[export] Instance pk_lt_trans : Transitive pk_lt.
Proof.
  intros a b c. unfold pk_lt, compare. pose proof (bytes_lt_trans (pk_s a) (pk_s b) (pk_s c)) as Ht. unfold bytes_lt in Ht.
  destruct (isInt a), (isInt b), (isInt c); cbn [eqb negb]; try done; try lia.
  - repeat case_match; lia.
  - destruct (bytes_compare (pk_s a) (pk_s b)), (bytes_compare (pk_s b) (pk_s c)); try lia. by rewrite Ht.
Qed.

(** [le_lt_trans] for the order with its equivalence. *)
Lemma pk_le_lt_trans a b c : 0 <= compare b a -> pk_lt b c -> pk_lt a c.
Proof.
  intros H1 H2. destruct (Z.eq_dec (compare a b) 0) as [E|E].
  - unfold pk_lt. by rewrite (compare_eq_l a b).
  - apply (transitivity (R := pk_lt) (y := b)); [|done]. unfold pk_lt. rewrite (compare_antisym b a). rewrite (compare_antisym a b) in *. lia.
Qed.

Lemma pk_lt_le_trans a b c : pk_lt a b -> 0 <= compare c b -> pk_lt a c.
Proof.
  intros H1 H2. destruct (Z.eq_dec (compare c b) 0) as [E|E].
  - unfold pk_lt. by rewrite (compare_eq_r c b).
  - apply (transitivity (R := pk_lt) (y := b)); [done|]. unfold pk_lt. rewrite (compare_antisym c b). lia.
Qed.

(** * The map a tree stands for: entries sorted by key *)

Abbreviation entry := (pkKey * bytes)%type.

Fixpoint m_get (k : pkKey) (es : list entry) : option bytes :=
  match es with
  | [] => None
  | (k', v) :: es => if compare k' k =? 0 then Some v else m_get k es
  end.

Fixpoint m_put (k : pkKey) (v : bytes) (es : list entry) : list entry :=
  match es with
  | [] => [(k, v)]
  | (k', v') :: es' =>
      if compare k' k <? 0 then (k', v') :: m_put k v es'
      else if compare k' k =? 0 then (k', v) :: es'
      else (k, v) :: es
  end.

Fixpoint m_del (k : pkKey) (es : list entry) : list entry :=
  match es with
  | [] => []
  | (k', v') :: es' => if compare k' k =? 0 then es' else (k', v') :: m_del k es'
  end.

(** The entries from [k] on. *)
Fixpoint m_from (k : pkKey) (es : list entry) : list entry :=
  match es with
  | [] => []
  | (k', v') :: es' => if compare k' k <? 0 then m_from k es' else es
  end.

Definition below (k : pkKey) (es : list entry) : Prop := Forall (fun e => pk_lt (fst e) k) es.
Definition above (k : pkKey) (es : list entry) : Prop := Forall (fun e => pk_lt k (fst e)) es.
Definition sorted (es : list entry) : Prop := StronglySorted (fun a b => pk_lt (fst a) (fst b)) es.

(** The operations act in the middle part only. *)
Section middle.
Context (k : pkKey) (e1 e2 : list entry) (m : list entry).
Hypothesis H1 : below k e1.
Hypothesis H2 : above k e2.

Lemma m_get_none_above : m_get k e2 = None.
Proof.
  induction H2 as [|[k' v] es Hk Hes IH]; [done|]. cbn [m_get]. unfold pk_lt in Hk. cbn [fst] in Hk.
  rewrite (compare_antisym k k'). rewrite (proj2 (Z.eqb_neq _ _)) by lia. by apply (IH Hes).
Qed.

Lemma m_put_above v : m_put k v e2 = (k, v) :: e2.
Proof.
  destruct H2 as [|[k' v'] es Hk]; [done|]. cbn [m_put]. unfold pk_lt in Hk. cbn [fst] in Hk.
  rewrite (compare_antisym k k'). rewrite (proj2 (Z.ltb_ge _ _)), (proj2 (Z.eqb_neq _ _)) by lia. done.
Qed.

Lemma m_del_above : m_del k e2 = e2.
Proof.
  induction H2 as [|[k' v'] es Hk Hes IH]; [done|]. cbn [m_del]. unfold pk_lt in Hk. cbn [fst] in Hk.
  rewrite (compare_antisym k k'). rewrite (proj2 (Z.eqb_neq _ _)) by lia. by rewrite (IH Hes).
Qed.

Lemma m_from_above : m_from k e2 = e2.
Proof.
  destruct H2 as [|[k' v'] es Hk]; [done|]. cbn [m_from]. unfold pk_lt in Hk. cbn [fst] in Hk.
  rewrite (compare_antisym k k'). rewrite (proj2 (Z.ltb_ge _ _)) by lia. done.
Qed.

Lemma m_get_middle : m_get k (e1 ++ m ++ e2) = m_get k m.
Proof.
  induction H1 as [|[k' v] es Hk Hes IH]; cbn [app m_get].
  - induction m as [|[k' v] m' IH]; cbn [app m_get]; [apply m_get_none_above|]. case_match; auto.
  - unfold pk_lt in Hk. cbn [fst] in Hk. rewrite (proj2 (Z.eqb_neq _ _)) by lia. by apply (IH Hes).
Qed.

Lemma m_put_middle v : m_put k v (e1 ++ m ++ e2) = e1 ++ m_put k v m ++ e2.
Proof.
  induction H1 as [|[k' v'] es Hk Hes IH]; cbn [app m_put].
  - induction m as [|[k' v'] m' IH]; cbn [app m_put]; [by rewrite m_put_above|].
    case_match; [cbn [app]; by f_equal|]. by case_match.
  - unfold pk_lt in Hk. cbn [fst] in Hk. rewrite (proj2 (Z.ltb_lt _ _)) by lia. by rewrite (IH Hes).
Qed.

Lemma m_del_middle : m_del k (e1 ++ m ++ e2) = e1 ++ m_del k m ++ e2.
Proof.
  induction H1 as [|[k' v'] es Hk Hes IH]; cbn [app m_del].
  - induction m as [|[k' v'] m' IH]; cbn [app m_del].
    + apply m_del_above.
    + case_match; [done|]. cbn [app]. by f_equal.
  - unfold pk_lt in Hk. cbn [fst] in Hk. rewrite (proj2 (Z.eqb_neq _ _)) by lia. by rewrite (IH Hes).
Qed.

Lemma m_from_middle : m_from k (e1 ++ m ++ e2) = m_from k m ++ e2.
Proof.
  induction H1 as [|[k' v'] es Hk Hes IH]; cbn [app m_from].
  - induction m as [|[k' v'] m' IH]; cbn [app m_from]; [apply m_from_above|]. by case_match.
  - unfold pk_lt in Hk. cbn [fst] in Hk. rewrite (proj2 (Z.ltb_lt _ _)) by lia. by apply (IH Hes).
Qed.
End middle.

(** * Well-formed trees *)

(** [lo <= k] and [k < hi], where a missing bound is infinite. *)
Definition above_lo (lo : option pkKey) (k : pkKey) : Prop := match lo with Some l => 0 <= compare k l | None => True end.
Definition below_hi (hi : option pkKey) (k : pkKey) : Prop := match hi with Some h => pk_lt k h | None => True end.
Definition in_bounds (lo hi : option pkKey) (k : pkKey) : Prop := above_lo lo k /\ below_hi hi k.

(** A separator lies strictly between the bounds. *)
Definition sep_in (lo hi : option pkKey) (k : pkKey) : Prop :=
  match lo with Some l => pk_lt l k | None => True end /\ below_hi hi k.

Definition leaf_wf (lo hi : option pkKey) (l : leafNode) : Prop :=
  length (lkeys l) = length (lvals l) /\ (length (lkeys l) <= btreeOrder)%nat /\
  StronglySorted pk_lt (lkeys l) /\ Forall (in_bounds lo hi) (lkeys l).

(** [wf m h lo hi n]: the node [n] of height [h] holds keys between [lo] and
    [hi], its separators and children alternate, every interior node has at most
    eight keys, the node itself at least [m] and those below it at least four. *)
Inductive wf : nat -> nat -> option pkKey -> option pkKey -> btreeNode -> Prop :=
  | wf_leaf m lo hi l : leaf_wf lo hi l -> wf m 0 lo hi (Leaf l)
  | wf_node m h lo hi ks cs :
      (m <= length ks <= btreeOrder)%nat -> wfs h lo hi ks cs -> wf m (S h) lo hi (Node ks cs)
with wfs : nat -> option pkKey -> option pkKey -> list pkKey -> list btreeNode -> Prop :=
  | wfs_last h lo hi c : wf 4 h lo hi c -> wfs h lo hi [] [c]
  | wfs_cons h lo hi k ks c cs :
      wf 4 h lo (Some k) c -> sep_in lo hi k -> wfs h (Some k) hi ks cs -> wfs h lo hi (k :: ks) (c :: cs).

Lemma wf_weaken m m' h lo hi n : (m' <= m)%nat -> wf m h lo hi n -> wf m' h lo hi n.
Proof. intros Hm H. inversion H; subst; constructor; [done|lia|done]. Qed.

Definition forest_leaves (cs : list btreeNode) : list leafNode := concat (map leaves cs).
Definition leaves_entries (ls : list leafNode) : list entry := concat (map leaf_entries ls).

Lemma forest_leaves_app a b : forest_leaves (a ++ b) = forest_leaves a ++ forest_leaves b.
Proof. unfold forest_leaves. by rewrite map_app, concat_app. Qed.

Lemma leaves_entries_app a b : leaves_entries (a ++ b) = leaves_entries a ++ leaves_entries b.
Proof. unfold leaves_entries. by rewrite map_app, concat_app. Qed.

Lemma above_lo_trans lo hi k k' : sep_in lo hi k -> above_lo (Some k) k' -> above_lo lo k'.
Proof.
  intros [Hl _]. destruct lo as [l|]; [|done]. simpl in *. intros H.
  pose proof (pk_lt_le_trans l k k' Hl H) as H'. unfold pk_lt in H'. rewrite (compare_antisym l k'). lia.
Qed.

Lemma below_hi_trans lo hi k k' : sep_in lo hi k -> below_hi (Some k) k' -> below_hi hi k'.
Proof. intros [_ Hh]. destruct hi as [h|]; [|done]. simpl in *. intros H. by transitivity k. Qed.

(** Every key of a subtree lies in its bounds. *)
Definition bounded (lo hi : option pkKey) (es : list entry) : Prop := Forall (fun e => in_bounds lo hi (fst e)) es.

Lemma wfs_bounds_if h lo hi ks cs :
  (forall lo hi c, wf 4 h lo hi c -> bounded lo hi (entries c)) ->
  wfs h lo hi ks cs -> bounded lo hi (leaves_entries (forest_leaves cs)).
Proof.
  intros Hwf. induction 1 as [h lo hi c Hc|h lo hi k ks c cs Hc Hk Hcs IHcs];
    unfold forest_leaves; cbn [map concat].
  - rewrite app_nil_r. by apply Hwf.
  - rewrite leaves_entries_app. apply Forall_app. split.
    + eapply Forall_impl; [by apply Hwf|]. intros e [H1 H2]. split; [done|by eapply below_hi_trans].
    + eapply Forall_impl; [by apply IHcs|]. intros e [H1 H2]. split; [by eapply above_lo_trans|done].
Qed.

Lemma wf_bounds h : forall m lo hi n, wf m h lo hi n -> bounded lo hi (entries n).
Proof.
  induction h as [|h IH]; intros m lo hi n Hn; inversion Hn as [? ? ? l Hl|? ? ? ? ks cs _ Hcs]; subst.
  - unfold entries. cbn [leaves map concat]. rewrite app_nil_r. destruct Hl as (_ & _ & _ & Hb). unfold leaf_entries.
    generalize (lvals l). induction Hb as [|k ks Hk _ IH]; intros [|v vs]; try constructor; auto. apply IH.
  - eapply wfs_bounds_if; eauto.
Qed.

Lemma wfs_bounds h lo hi ks cs : wfs h lo hi ks cs -> bounded lo hi (leaves_entries (forest_leaves cs)).
Proof. apply wfs_bounds_if. intros. by eapply wf_bounds. Qed.

(** Where a bound separates [k] from a subtree. *)
Lemma bounded_above lo k s es : pk_lt k s -> bounded (Some s) lo es -> above k es.
Proof. intros Hk Hes. eapply Forall_impl; [exact Hes|]. intros e [H _]. by eapply pk_lt_le_trans. Qed.

Lemma bounded_below hi k s es : 0 <= compare k s -> bounded hi (Some s) es -> below k es.
Proof. intros Hk Hes. eapply Forall_impl; [exact Hes|]. intros e [_ H]. by eapply pk_lt_le_trans. Qed.

(** The child the descent enters: what is left and right of it, and that it may
    be replaced, by one node or by two with a separator, in the same bounds. *)
Lemma wfs_descend h lo hi ks cs k :
  wfs h lo hi ks cs -> in_bounds lo hi k ->
  exists cs1 c cs2 lo' hi',
    cs = cs1 ++ c :: cs2 /\ length cs1 = childIndex ks k /\ wf 4 h lo' hi' c /\ in_bounds lo' hi' k /\
    below k (leaves_entries (forest_leaves cs1)) /\ above k (leaves_entries (forest_leaves cs2)) /\
    (forall c', wf 4 h lo' hi' c' -> wfs h lo hi ks (cs1 ++ c' :: cs2)) /\
    (forall c' s r, sep_in lo' hi' s -> wf 4 h lo' (Some s) c' -> wf 4 h (Some s) hi' r ->
       wfs h lo hi (insert_at (childIndex ks k) s ks) (cs1 ++ c' :: r :: cs2)).
Proof.
  induction 1 as [h lo hi c Hc|h lo hi key ks c cs Hc Hkey Hcs IH]; intros Hk.
  { exists [], c, [], lo, hi. do 6 (split; [done || by constructor|]). split; [by constructor|].
    intros. cbn [childIndex insert_at take drop app]. constructor; [done..|by constructor]. }
  cbn [childIndex]. destruct (Z.leb_spec 0 (compare k key)) as [Hge|Hlt].
  - destruct (IH (conj Hge (proj2 Hk))) as (cs1 & c0 & cs2 & lo' & hi' & -> & Hl & Hc0 & Hk' & Hb & Ha & H1 & H2).
    exists (c :: cs1), c0, cs2, lo', hi'. split; [done|]. split; [by cbn; rewrite Hl|]. do 2 (split; [done|]).
    split.
    { unfold forest_leaves. cbn [map concat]. rewrite leaves_entries_app. apply Forall_app. split; [|done].
      eapply bounded_below; [done|]. by eapply wf_bounds. }
    split; [done|]. split; intros; cbn [app insert_at take drop]; constructor; auto. by apply H2.
  - exists [], c, cs, lo, (Some key). split; [done|]. split; [done|]. split; [done|].
    split; [split; [apply Hk|done]|]. split; [constructor|]. split.
    { eapply bounded_above; [done|]. by eapply wfs_bounds. }
    split; [intros; by constructor|]. intros c' s r [Hs1 Hs2] Hc' Hr. cbn [insert_at take drop app].
    constructor; [done|split; [done|by eapply below_hi_trans]|]. constructor; [done|split; [done|apply Hkey]|done].
Qed.

(** Cutting an interior node at a separator. *)
Lemma wfs_cut h lo hi ks cs mid up :
  wfs h lo hi ks cs -> ks !! mid = Some up ->
  sep_in lo hi up /\ wfs h lo (Some up) (take mid ks) (take (S mid) cs) /\
  wfs h (Some up) hi (drop (S mid) ks) (drop (S mid) cs).
Proof.
  intros Hcs. revert mid. induction Hcs as [|h lo hi key ks c cs Hc Hkey Hcs IH]; intros mid Hup; [done|].
  destruct mid as [|mid]; cbn in Hup.
  - injection Hup as ->. split; [done|]. cbn [take drop]. by split; [constructor|].
  - destruct (IH mid Hup) as (Hs & H1 & H2). destruct Hs as [Hs1 Hs2]. destruct Hkey as [Hk1 Hk2].
    split; [split; [|done]|split; [|done]].
    + destruct lo as [l|]; [|done]. by transitivity key.
    + change (take (S mid) (key :: ks)) with (key :: take mid ks).
      change (take (S (S mid)) (c :: cs)) with (c :: take (S mid) cs). by constructor; [|split|].
Qed.

(** * Leaves *)

Lemma length_insert_at {A} i (x : A) l : length (insert_at i x l) = S (length l).
Proof. unfold insert_at. rewrite length_app. cbn [length]. rewrite <- (take_drop i l) at 3. rewrite length_app. lia. Qed.

Lemma Forall_insert_at {A} (P : A -> Prop) i x l : P x -> Forall P l -> Forall P (insert_at i x l).
Proof. intros Hx Hl. unfold insert_at. apply Forall_app. split; [by apply Forall_take|]. constructor; [done|by apply Forall_drop]. Qed.

Lemma m_put_zip k v ks vs :
  length ks = length vs ->
  let i := lower_bound ks k in
  m_put k v (zip ks vs) =
    if key_at ks i k then zip ks (<[i := v]> vs) else zip (insert_at i k ks) (insert_at i v vs).
Proof.
  unfold key_at. revert vs. induction ks as [|key ks IH]; intros [|v' vs] Hl; try done.
  cbn [lower_bound zip zip_with m_put]. destruct (compare key k <? 0) eqn:E.
  - injection Hl as Hl. rewrite (IH vs Hl). cbn [lookup list_lookup]. fold (lookup (M:=list pkKey) (lower_bound ks k) ks).
    by destruct (ks !! lower_bound ks k) as [key'|]; [case_match|].
  - cbn [lookup list_lookup]. by case_match.
Qed.

Lemma insert_sorted ks k :
  StronglySorted pk_lt ks -> key_at ks (lower_bound ks k) k = false ->
  StronglySorted pk_lt (insert_at (lower_bound ks k) k ks).
Proof.
  unfold key_at. induction 1 as [|key ks Hs IH Hk]; intros Hn; cbn [lower_bound] in *; [by repeat constructor|].
  destruct (Z.ltb_spec (compare key k) 0) as [Hlt|Hge].
  - change (StronglySorted pk_lt (key :: insert_at (lower_bound ks k) k ks)).
    constructor; [by apply IH|by apply Forall_insert_at].
  - cbn in Hn. apply Z.eqb_neq in Hn. cbn [insert_at take drop app].
    assert (pk_lt k key) as Hkk by (unfold pk_lt; rewrite (compare_antisym key k); lia).
    constructor; [by constructor|]. constructor; [done|].
    eapply Forall_impl; [exact Hk|]. intros x Hx. by transitivity key.
Qed.

(** The result of an insertion, its leaves, and what it did to the leaf it reached. *)
Definition grown_ok (m h : nat) (lo hi : option pkKey) (g : grown) : Prop :=
  match snd g with
  | None => wf m h lo hi (fst g)
  | Some (s, r) => sep_in lo hi s /\ wf 4 h lo (Some s) (fst g) /\ wf 4 h (Some s) hi r
  end.

Definition grown_leaves (g : grown) : list leafNode :=
  leaves (fst g) ++ match snd g with None => [] | Some (_, r) => leaves r end.

Definition leaf_grows (new : nat) (k : pkKey) (v : bytes) (l : leafNode) (ls : list leafNode) : Prop :=
  leaves_entries ls = m_put k v (leaf_entries l) /\
  ((exists l', ls = [l'] /\ lid l' = lid l /\ lnext l' = lnext l) \/
   (exists a b, ls = [a; b] /\ lid a = lid l /\ lnext a = Some new /\ lid b = new /\ lnext b = lnext l)).

(** A leaf too long by one splits into two leaves of the same entries. *)
Lemma splitLeaf_ok new lo hi l :
  length (lkeys l) = length (lvals l) -> length (lkeys l) = S btreeOrder ->
  StronglySorted pk_lt (lkeys l) -> Forall (in_bounds lo hi) (lkeys l) ->
  exists a b s, splitLeaf new l = Some (Leaf a, Some (s, Leaf b)) /\
    sep_in lo hi s /\ leaf_wf lo (Some s) a /\ leaf_wf (Some s) hi b /\
    leaf_entries a ++ leaf_entries b = leaf_entries l /\
    lid a = lid l /\ lnext a = Some new /\ lid b = new /\ lnext b = lnext l.
Proof.
  intros Hl Hlen Hs Hb. unfold splitLeaf. cbn [lkeys]. rewrite Hlen. change (S btreeOrder / 2)%nat with 4%nat.
  rewrite lookup_drop. destruct (lookup_lt_is_Some_2 (lkeys l) (4 + 0)%nat) as [s Hsep]; [unfold btreeOrder in *; lia|].
  rewrite Hsep. cbn [mbind option_bind]. do 3 eexists. split; [reflexivity|].
  destruct (lookup_lt_is_Some_2 (lkeys l) 0%nat) as [k0 Hk0]; [lia|].
  pose proof (take_drop 4 (lkeys l)) as Htd. rewrite <- Htd in Hs. apply StronglySorted_app in Hs as (Hlr & Hs1 & Hs2).
  assert (drop 4 (lkeys l) = s :: drop 5 (lkeys l)) as Hd by (by apply drop_S).
  assert (forall k, k ∈ take 4 (lkeys l) -> pk_lt k s) as Hleft.
  { intros k Hk. apply Hlr; [done|]. rewrite Hd. by left. }
  assert (in_bounds lo hi k0) as Hb0 by (by eapply Forall_lookup_1).
  assert (in_bounds lo hi s) as Hbs by (by eapply Forall_lookup_1).
  assert (pk_lt k0 s) as H0s.
  { apply Hleft, list_elem_of_lookup. exists 0%nat. rewrite lookup_take_lt by lia. done. }
  split; [split; [|apply Hbs]|].
  { destruct lo as [lo|]; [|done]. destruct Hb0 as [H _]. simpl in H. by eapply pk_le_lt_trans. }
  unfold leaf_wf, btreeOrder, leaf_entries in *. cbn [lkeys lvals lid lnext]. len.
  split; [split_and!; try done; try lia|split; [split_and!; try done; try lia|]].
  - apply Forall_forall. intros k Hk. split; [|by apply Hleft].
    rewrite Forall_forall in Hb. apply Hb. rewrite <- Htd. apply elem_of_app. by left.
  - rewrite Hd in Hs2 |- *. apply StronglySorted_inv in Hs2 as [_ Hs2].
    apply Forall_forall. intros k Hk. split; simpl.
    + apply elem_of_cons in Hk as [->|Hk]; [by rewrite compare_refl|].
      rewrite Forall_forall in Hs2. specialize (Hs2 k Hk). unfold pk_lt in Hs2. rewrite (compare_antisym s k). lia.
    + rewrite Forall_forall in Hb. apply Hb. rewrite <- Htd, Hd. apply elem_of_app. by right.
  - split; [|done]. rewrite <- zip_with_app by (len; lia). by rewrite !take_drop.
Qed.

Lemma insertLeaf_ok new k v m lo hi l :
  leaf_wf lo hi l -> in_bounds lo hi k ->
  exists g, insertLeaf new k v l = Some g /\ grown_ok m 0 lo hi g /\ leaf_grows new k v l (grown_leaves g).
Proof.
  intros (Hl & Hlen & Hs & Hb) Hk. unfold insertLeaf, leaf_grows, leaf_entries.
  rewrite (m_put_zip k v (lkeys l) (lvals l) Hl). destruct (key_at (lkeys l) (lower_bound (lkeys l) k) k) eqn:Ek.
  { eexists. split; [done|]. split.
    - constructor. unfold leaf_wf. cbn [lkeys lvals]. by rewrite length_insert.
    - cbn. rewrite app_nil_r. split; [done|]. left. by eexists. }
  set (l' := mkLeaf (lid l) (insert_at (lower_bound (lkeys l) k) k (lkeys l))
    (insert_at (lower_bound (lkeys l) k) v (lvals l)) (lnext l)).
  assert (length (lkeys l') = length (lvals l')) as Hl' by (cbn; by rewrite !length_insert_at, Hl).
  assert (StronglySorted pk_lt (lkeys l')) as Hs' by (by apply insert_sorted).
  assert (Forall (in_bounds lo hi) (lkeys l')) as Hb' by (by apply Forall_insert_at).
  destruct (Nat.leb_spec (length (lkeys l')) btreeOrder) as [Hle|Hgt].
  { eexists. split; [done|]. split; [by constructor|]. cbn. rewrite app_nil_r. split; [done|]. left. by eexists. }
  assert (length (lkeys l') = S btreeOrder) as Hle by (cbn in *; rewrite length_insert_at in *; lia).
  destruct (splitLeaf_ok new lo hi l' Hl' Hle Hs' Hb') as (a & b & s & -> & Hsep & Ha & Hb2 & He & H1 & H2 & H3 & H4).
  eexists. split; [done|]. split; [split; [done|split; by constructor]|].
  cbn. rewrite app_nil_r. split; [exact He|]. right. by exists a, b.
Qed.

(** * Descents *)

Section at_middle.
Context {A B : Type} (l1 l2 : list A) (i : nat).
Hypothesis Hi : length l1 = i.

Lemma nth_apply_middle (f : A -> B) x : nth_apply f i (l1 ++ x :: l2) = Some (f x).
Proof. subst i. by induction l1. Qed.

Lemma insert_middle x y : <[i := y]> (l1 ++ x :: l2) = l1 ++ y :: l2.
Proof. subst i. induction l1 as [|z l IH]; [done|]. cbn. by f_equal. Qed.

Lemma insert_at_middle x y : insert_at (S i) y (l1 ++ x :: l2) = l1 ++ x :: y :: l2.
Proof. subst i. unfold insert_at. induction l1 as [|z l IH]; [done|]. cbn in *. by f_equal. Qed.
End at_middle.

(** [l] is the leaf for [k] among [ls]: everything left of it is below [k],
    everything right of it above. *)
Definition leaf_for (k : pkKey) (ls l1 : list leafNode) (l : leafNode) (l2 : list leafNode) : Prop :=
  ls = l1 ++ l :: l2 /\ below k (leaves_entries l1) /\ above k (leaves_entries l2).

Lemma leaf_for_single k l : leaf_for k [l] [] l [].
Proof. split; [done|]. split; constructor. Qed.

Lemma leaf_for_context k c1 c c2 l1 l l2 :
  below k (leaves_entries c1) -> above k (leaves_entries c2) -> leaf_for k c l1 l l2 ->
  leaf_for k (c1 ++ c ++ c2) (c1 ++ l1) l (l2 ++ c2).
Proof.
  intros Hb Ha (-> & Hb' & Ha'). split; [by rewrite <- !app_assoc|].
  rewrite !leaves_entries_app. split; by apply Forall_app.
Qed.

Lemma forest_leaves_middle cs1 c cs2 :
  forest_leaves (cs1 ++ c :: cs2) = forest_leaves cs1 ++ leaves c ++ forest_leaves cs2.
Proof. rewrite forest_leaves_app. done. Qed.

Lemma find_leaf_ok k h : forall m lo hi n,
  wf m h lo hi n -> in_bounds lo hi k ->
  exists l l1 l2 lo' hi', find_leaf k n = Some l /\ leaf_wf lo' hi' l /\ leaf_for k (leaves n) l1 l l2.
Proof.
  induction h as [|h IH]; intros m lo hi n Hn Hk; inversion Hn as [? ? ? l Hl|? ? ? ? ks cs _ Hcs]; subst.
  { exists l, [], [], lo, hi. split; [done|]. split; [done|]. apply leaf_for_single. }
  destruct (wfs_descend _ _ _ _ _ k Hcs Hk) as (cs1 & c & cs2 & lo' & hi' & -> & Hlen & Hc & Hk' & Hb & Ha & _).
  destruct (IH _ _ _ _ Hc Hk') as (l & l1 & l2 & lo2 & hi2 & Hf & Hl & Hfor).
  cbn [find_leaf leaves]. rewrite (nth_apply_middle _ _ _ Hlen). fold (forest_leaves (cs1 ++ c :: cs2)).
  rewrite forest_leaves_middle. do 5 eexists. split; [exact Hf|]. split; [done|]. by apply leaf_for_context.
Qed.

Lemma splitInterior_ok h lo hi ks cs :
  wfs h lo hi ks cs -> length ks = S btreeOrder ->
  exists g, splitInterior ks cs = Some g /\ (forall m, grown_ok m (S h) lo hi g) /\ grown_leaves g = forest_leaves cs.
Proof.
  intros Hcs Hlen. unfold splitInterior. rewrite Hlen. change (S btreeOrder / 2)%nat with 4%nat.
  destruct (lookup_lt_is_Some_2 ks 4) as [up Hup]; [unfold btreeOrder in *; lia|]. rewrite Hup. cbn [mbind option_bind].
  destruct (wfs_cut _ _ _ _ _ _ _ Hcs Hup) as (Hs & H1 & H2). unfold btreeOrder in *.
  eexists. split; [done|]. split.
  - intros m. split; [done|]. split; constructor; try done; len; unfold btreeOrder; lia.
  - unfold grown_leaves. cbn [fst snd leaves]. fold (forest_leaves (take 5 cs)). fold (forest_leaves (drop 5 cs)).
    by rewrite <- forest_leaves_app, take_drop.
Qed.

(** Insertion reaches the leaf for the key, replaces it by the leaves that hold
    the entry too, and keeps the tree well-formed. *)
Lemma node_insert_ok new k v h : forall m lo hi n,
  (m <= 4)%nat -> wf m h lo hi n -> in_bounds lo hi k ->
  exists g l l1 l2 ls,
    node_insert new k v n = Some g /\ grown_ok m h lo hi g /\
    leaf_for k (leaves n) l1 l l2 /\ leaf_grows new k v l ls /\ grown_leaves g = l1 ++ ls ++ l2.
Proof.
  induction h as [|h IH]; intros m lo hi n Hm Hn Hk; inversion Hn as [? ? ? l Hl|? ? ? ? ks cs Hks Hcs]; subst.
  { destruct (insertLeaf_ok new k v m lo hi l Hl Hk) as (g & Hg & Hok & Hgr).
    exists g, l, [], [], (grown_leaves g). split; [done|]. split; [done|]. split; [apply leaf_for_single|].
    split; [done|by rewrite app_nil_r]. }
  destruct (wfs_descend _ _ _ _ _ k Hcs Hk) as (cs1 & c & cs2 & lo' & hi' & -> & Hlen & Hc & Hk' & Hb & Ha & H1 & H2).
  destruct (IH 4%nat _ _ _ (le_n _) Hc Hk') as ([c' sp] & l & l1 & l2 & ls & Hi & Hok & Hfor & Hgr & Hlv).
  cbn [node_insert leaves]. rewrite (nth_apply_middle _ _ _ Hlen). cbn [mjoin option_join]. rewrite Hi. cbn [mbind option_bind].
  rewrite (insert_middle _ _ _ Hlen). fold (forest_leaves (cs1 ++ c :: cs2)). rewrite forest_leaves_middle.
  assert (forall g, grown_leaves g = forest_leaves cs1 ++ grown_leaves (c', sp) ++ forest_leaves cs2 ->
    grown_ok m (S h) lo hi g -> exists g' l l1 l2 ls, Some g = Some g' /\ grown_ok m (S h) lo hi g' /\
    leaf_for k (forest_leaves cs1 ++ leaves c ++ forest_leaves cs2) l1 l l2 /\ leaf_grows new k v l ls /\
    grown_leaves g' = l1 ++ ls ++ l2) as Hdone.
  { intros g Hg Hgok. exists g, l, (forest_leaves cs1 ++ l1), (l2 ++ forest_leaves cs2), ls.
    split; [done|]. split; [done|]. split; [by apply leaf_for_context|]. split; [done|].
    rewrite Hg, Hlv. by rewrite <- !app_assoc. }
  destruct sp as [[s r]|].
  - destruct Hok as (Hs & Hc' & Hr). rewrite (insert_at_middle _ _ _ Hlen). cbn [fst] in Hc'.
    pose proof (H2 _ _ _ Hs Hc' Hr) as Hcs'.
    assert (forest_leaves (cs1 ++ c' :: r :: cs2) = forest_leaves cs1 ++ grown_leaves (c', Some (s, r)) ++ forest_leaves cs2) as Hfl.
    { unfold grown_leaves. cbn [fst snd]. rewrite forest_leaves_app, <- (app_assoc (leaves c')). done. }
    destruct (Nat.leb_spec (length (insert_at (childIndex ks k) s ks)) btreeOrder) as [Hle|Hgt].
    + apply Hdone; [unfold grown_leaves at 1; cbn [fst snd leaves]; by rewrite app_nil_r|].
      constructor; [|done]. split; [rewrite length_insert_at; lia|done].
    + destruct (splitInterior_ok _ _ _ _ _ Hcs') as (g & -> & Hg & Hgl); [rewrite length_insert_at in *; lia|].
      apply Hdone; [by rewrite Hgl|apply Hg].
  - apply Hdone; [|by constructor; [|apply H1]].
    unfold grown_leaves. cbn [fst snd leaves]. fold (forest_leaves (cs1 ++ c' :: cs2)).
    by rewrite forest_leaves_middle, !app_nil_r.
Qed.

(** ** Deletion *)

Lemma length_remove_at {A} i (l : list A) : (i < length l)%nat -> length (remove_at i l) = Nat.pred (length l).
Proof. intros. unfold remove_at. len. lia. Qed.

Lemma find_key_lt ks k i : find_key ks k = Some i -> (i < length ks)%nat.
Proof.
  revert i. induction ks as [|key ks IH]; intros i; [done|]. cbn [find_key length].
  case_match; [intros [= <-]; lia|]. destruct (find_key ks k) as [j|]; [|done]. intros [= <-].
  specialize (IH j eq_refl). lia.
Qed.

Lemma m_del_zip k ks vs :
  length ks = length vs ->
  m_del k (zip ks vs) = match find_key ks k with Some i => zip (remove_at i ks) (remove_at i vs) | None => zip ks vs end.
Proof.
  revert vs. induction ks as [|key ks IH]; intros [|v vs] Hl; try done. injection Hl as Hl.
  cbn [find_key zip zip_with m_del]. destruct (compare key k =? 0); [reflexivity|].
  change (zip_with pair ks vs) with (zip ks vs). rewrite (IH vs Hl). by destruct (find_key ks k).
Qed.

Lemma m_get_zip k ks vs :
  length ks = length vs ->
  Some (m_get k (zip ks vs)) = match find_key ks k with Some i => v ← vs !! i; Some (Some v) | None => Some None end.
Proof.
  revert vs. induction ks as [|key ks IH]; intros [|v vs] Hl; try done. injection Hl as Hl.
  cbn [find_key zip zip_with m_get]. destruct (compare key k =? 0); [reflexivity|].
  change (zip_with pair ks vs) with (zip ks vs). rewrite (IH vs Hl). by destruct (find_key ks k).
Qed.

Lemma deleteLeaf_ok k lo hi l :
  leaf_wf lo hi l ->
  leaf_wf lo hi (deleteLeaf k l) /\ leaf_entries (deleteLeaf k l) = m_del k (leaf_entries l) /\
  lid (deleteLeaf k l) = lid l /\ lnext (deleteLeaf k l) = lnext l.
Proof.
  intros (Hl & Hlen & Hs & Hb). unfold deleteLeaf, leaf_entries. rewrite (m_del_zip k _ _ Hl).
  destruct (find_key (lkeys l) k) as [i|] eqn:E; [|done]. cbn [lkeys lvals lid lnext].
  pose proof (find_key_lt _ _ _ E). split; [|done]. unfold leaf_wf. cbn [lkeys lvals].
  rewrite !length_remove_at by lia. split; [lia|]. split; [lia|]. unfold remove_at. split.
  - rewrite <- (take_drop i (lkeys l)) in Hs. apply StronglySorted_app in Hs as (Hlr & Hs1 & Hs2).
    apply StronglySorted_app. split; [|split; [done|]].
    + intros x y Hx Hy. apply Hlr; [done|]. rewrite <- (Nat.add_1_r i), <- drop_drop in Hy.
      rewrite <- (take_drop 1 (drop i (lkeys l))). apply elem_of_app. by right.
    + rewrite <- (take_drop 1 (drop i (lkeys l))), drop_drop, Nat.add_1_r in Hs2. by apply StronglySorted_app_1_r in Hs2.
  - apply Forall_app. split; [by apply Forall_take|by apply Forall_drop].
Qed.

Lemma node_delete_ok k h : forall m lo hi n,
  wf m h lo hi n -> in_bounds lo hi k ->
  exists n' l l1 l2 lo' hi',
    node_delete k n = Some n' /\ wf m h lo hi n' /\ leaf_wf lo' hi' l /\
    leaf_for k (leaves n) l1 l l2 /\ leaves n' = l1 ++ deleteLeaf k l :: l2.
Proof.
  induction h as [|h IH]; intros m lo hi n Hn Hk; inversion Hn as [? ? ? l Hl|? ? ? ? ks cs Hks Hcs]; subst.
  { exists (Leaf (deleteLeaf k l)), l, [], [], lo, hi. split; [done|].
    split; [by constructor; apply deleteLeaf_ok|]. split; [done|]. split; [apply leaf_for_single|done]. }
  destruct (wfs_descend _ _ _ _ _ k Hcs Hk) as (cs1 & c & cs2 & lo' & hi' & -> & Hlen & Hc & Hk' & Hb & Ha & H1 & _).
  destruct (IH _ _ _ _ Hc Hk') as (c' & l & l1 & l2 & lo2 & hi2 & Hd & Hc' & Hl & Hfor & Hlv).
  cbn [node_delete leaves]. rewrite (nth_apply_middle _ _ _ Hlen). cbn [mjoin option_join]. rewrite Hd. cbn [mbind option_bind].
  rewrite (insert_middle _ _ _ Hlen). fold (forest_leaves (cs1 ++ c :: cs2)). rewrite forest_leaves_middle.
  do 6 eexists. split; [done|]. split; [by constructor; [|apply H1]|]. split; [done|].
  split; [by apply leaf_for_context|]. cbn [leaves]. fold (forest_leaves (cs1 ++ c' :: cs2)).
  rewrite forest_leaves_middle, Hlv. by rewrite <- !app_assoc.
Qed.

(** * Trees *)

(** Each leaf points at the next one, the last at [nx]. *)
Definition head_id (ls : list leafNode) (nx : option nat) : option nat :=
  match ls with [] => nx | l :: _ => Some (lid l) end.

Fixpoint chain (ls : list leafNode) (nx : option nat) : Prop :=
  match ls with
  | [] => True
  | l :: ls => lnext l = head_id ls nx /\ chain ls nx
  end.

Record tree_ok (t : btree) (h : nat) : Prop := {
  ok_wf : wf 1 h None None (root t);
  ok_chain : chain (leaves (root t)) None;
  ok_ids : NoDup (map lid (leaves (root t)));
  ok_fresh : Forall (fun id => (id < fresh t)%nat) (map lid (leaves (root t)));
}.

Lemma head_id_app a b nx : head_id (a ++ b) nx = head_id a (head_id b nx).
Proof. by destruct a. Qed.

Lemma chain_app a b nx : chain (a ++ b) nx <-> chain a (head_id b nx) /\ chain b nx.
Proof. induction a as [|l a IH]; cbn; [tauto|]. rewrite head_id_app, IH. tauto. Qed.

Lemma everywhere k : in_bounds None None k.
Proof. done. Qed.

Lemma new_ok : tree_ok newBTree 0.
Proof.
  split; cbn; [|done|apply NoDup_singleton|by repeat constructor].
  constructor. split; [done|]. split; [cbn; lia|]. split; constructor.
Qed.

(** A leaf for [k] confines the map operations. *)
Section leaf_for.
Context (k : pkKey) (n : btreeNode) (l1 l2 : list leafNode) (l : leafNode).
Hypothesis Hfor : leaf_for k (leaves n) l1 l l2.

Lemma leaf_for_entries : entries n = leaves_entries l1 ++ leaf_entries l ++ leaves_entries l2.
Proof.
  unfold entries. destruct Hfor as [-> _]. change (concat (map leaf_entries ?ls)) with (leaves_entries ls).
  by rewrite leaves_entries_app.
Qed.

Lemma leaf_for_get : m_get k (entries n) = m_get k (leaf_entries l).
Proof. rewrite leaf_for_entries. by apply m_get_middle; apply Hfor. Qed.

Lemma leaf_for_put v : m_put k v (entries n) = leaves_entries l1 ++ m_put k v (leaf_entries l) ++ leaves_entries l2.
Proof. rewrite leaf_for_entries. by apply m_put_middle; apply Hfor. Qed.

Lemma leaf_for_del : m_del k (entries n) = leaves_entries l1 ++ m_del k (leaf_entries l) ++ leaves_entries l2.
Proof. rewrite leaf_for_entries. by apply m_del_middle; apply Hfor. Qed.

Lemma leaf_for_from : m_from k (entries n) = m_from k (leaf_entries l) ++ leaves_entries l2.
Proof. rewrite leaf_for_entries. by apply m_from_middle; apply Hfor. Qed.
End leaf_for.

Lemma Get_ok t h k : tree_ok t h -> Get t k = Some (m_get k (entries (root t))).
Proof.
  intros Hok. unfold Get.
  destruct (find_leaf_ok k _ _ _ _ _ (ok_wf _ _ Hok) (everywhere k)) as (l & l1 & l2 & lo & hi & -> & Hl & Hfor).
  cbn [mbind option_bind]. rewrite (leaf_for_get _ _ _ _ _ Hfor). unfold leaf_entries. by rewrite m_get_zip by apply Hl.
Qed.

(** What replacing a leaf by the leaves it grew into does to the sibling chain and the identities. *)
Lemma leaf_grows_ids new k v l ls l1 l2 :
  leaf_grows new k v l ls -> chain (l1 ++ l :: l2) None -> NoDup (map lid (l1 ++ l :: l2)) ->
  Forall (fun id => (id < new)%nat) (map lid (l1 ++ l :: l2)) ->
  chain (l1 ++ ls ++ l2) None /\ NoDup (map lid (l1 ++ ls ++ l2)) /\
  Forall (fun id => (id < S new)%nat) (map lid (l1 ++ ls ++ l2)).
Proof.
  intros [_ Hls] Hc Hn Hf. rewrite chain_app in Hc. destruct Hc as [Hc1 [Hnx Hc2]].
  assert (new ∉ map lid (l1 ++ l :: l2)) as Hnew.
  { intros Hin. rewrite Forall_forall in Hf. specialize (Hf _ Hin). lia. }
  assert (Forall (fun id => (id < S new)%nat) (map lid (l1 ++ l :: l2))) as Hf' by (eapply Forall_impl; [exact Hf|]; simpl; lia).
  destruct Hls as [(l' & -> & Hid & Hnx')|(a & b & -> & Ha & Hna & Hb & Hnb)]; rewrite chain_app; cbn [app chain head_id].
  - rewrite map_app in *. cbn [map] in *. rewrite Hid, Hnx'. done.
  - rewrite Ha, Hna, Hnb, Hb. split; [done|]. rewrite map_app in *. cbn [map] in *. rewrite Ha, Hb.
    replace (map lid l1 ++ lid l :: new :: map lid l2) with ((map lid l1 ++ [lid l]) ++ new :: map lid l2)
      by (by rewrite <- app_assoc).
    rewrite <- Permutation_middle, <- app_assoc. cbn [app].
    split; [by apply NoDup_cons|]. apply Forall_cons. split; [lia|done].
Qed.

Lemma Put_ok t h k v :
  tree_ok t h ->
  exists t' h', Put t k v = Some t' /\ tree_ok t' h' /\ entries (root t') = m_put k v (entries (root t)) /\
    fresh t' = S (fresh t).
Proof.
  intros [Hwf Hc Hn Hf]. unfold Put.
  destruct (node_insert_ok (fresh t) k v h 1 None None (root t)) as ([n sp] & l & l1 & l2 & ls & -> & Hok & Hfor & Hgr & Hlv);
    [lia|done|done|].
  cbn [mbind option_bind]. pose proof (leaf_for_put _ _ _ _ _ Hfor v) as He. destruct Hfor as [Hls _]. rewrite Hls in Hc, Hn, Hf.
  destruct (leaf_grows_ids _ _ _ _ _ _ _ Hgr Hc Hn Hf) as (Hc' & Hn' & Hf'). rewrite <- Hlv in Hc', Hn', Hf'.
  assert (leaves_entries (grown_leaves (n, sp)) = m_put k v (entries (root t))) as He'.
  { rewrite Hlv, He, !leaves_entries_app. by rewrite (proj1 Hgr). }
  unfold grown_leaves in *. destruct sp as [[s r]|]; cbn [fst snd] in *.
  - destruct Hok as (Hs & Hw & Hr). do 2 eexists. split; [done|].
    assert (leaves (Node [s] [n; r]) = leaves n ++ leaves r) as El by (cbn; by rewrite app_nil_r).
    split; [|split; [unfold entries; cbn [root]; by rewrite El|done]].
    split; cbn [root fresh]; rewrite ?El; try done.
    constructor; [cbn; unfold btreeOrder; lia|]. constructor; [done|done|by constructor].
  - rewrite app_nil_r in *. exists (mkTree n (S (fresh t))), h. split; [done|]. split; [by split|]. done.
Qed.

Lemma Delete_ok t h k :
  tree_ok t h ->
  exists t' h', Delete t k = Some t' /\ tree_ok t' h' /\ entries (root t') = m_del k (entries (root t)) /\
    fresh t' = fresh t.
Proof.
  intros [Hwf Hc Hn Hf]. unfold Delete.
  destruct (node_delete_ok k _ _ _ _ _ Hwf (everywhere k)) as (n' & l & l1 & l2 & lo & hi & -> & Hw & Hl & Hfor & Hlv).
  cbn [mbind option_bind]. pose proof (leaf_for_del _ _ _ _ _ Hfor) as He. destruct Hfor as [Hls _].
  destruct (deleteLeaf_ok k _ _ _ Hl) as (_ & Hd & Hid & Hnx).
  assert (tree_ok (mkTree n' (fresh t)) h) as Hok.
  { rewrite Hls in *. split; cbn [root fresh]; [done|..]; rewrite Hlv.
    - rewrite chain_app in *. cbn in *. by rewrite Hid, Hnx.
    - rewrite map_app in *. cbn [map] in *. by rewrite Hid.
    - rewrite map_app in *. cbn [map] in *. by rewrite Hid. }
  assert (entries n' = m_del k (entries (root t))) as He'.
  { unfold entries at 1. rewrite Hlv. change (concat (map leaf_entries ?x)) with (leaves_entries x).
    rewrite leaves_entries_app, He, <- Hd. done. }
  assert (exists t' h', Some (mkTree n' (fresh t)) = Some t' /\ tree_ok t' h' /\ entries (root t') = m_del k (entries (root t)) /\
    fresh t' = fresh t) as Hdone by (by exists (mkTree n' (fresh t)), h).
  destruct n' as [l'|[|s ks] cs]; [done| |done]. inversion Hw as [|? ? ? ? ? ? Hlen _]; subst. cbn in Hlen. lia.
Qed.

(** * Sortedness *)

Lemma sorted_zip ks vs : StronglySorted pk_lt ks -> sorted (zip ks vs).
Proof.
  intros Hs. revert vs. induction Hs as [|k ks Hs IH Hk]; intros [|v vs]; try constructor; [apply IH|].
  apply Forall_forall. intros [k' v'] Hin. apply elem_of_zip_l in Hin. rewrite Forall_forall in Hk. by apply Hk.
Qed.

Lemma sorted_app_at k a b : below k a -> sorted a -> sorted b -> Forall (fun e => 0 <= compare (fst e) k) b -> sorted (a ++ b).
Proof.
  intros Hb Ha Hs Hk. apply StronglySorted_app. split; [|done]. intros x y Hx Hy.
  unfold below in Hb. rewrite Forall_forall in Hb, Hk. eapply pk_lt_le_trans; [by apply Hb|by apply Hk].
Qed.

Lemma wf_sorted h : forall m lo hi n, wf m h lo hi n -> sorted (entries n).
Proof.
  induction h as [|h IH]; intros m lo hi n Hn; inversion Hn as [? ? ? l Hl|? ? ? ? ks cs _ Hcs]; subst.
  - unfold entries. cbn. rewrite app_nil_r. apply sorted_zip, Hl.
  - change (sorted (leaves_entries (forest_leaves cs))). clear Hn.
    induction Hcs as [h lo hi c Hc|h lo hi k ks c cs Hc Hk Hcs IHcs]; unfold forest_leaves; cbn [map concat].
    + rewrite app_nil_r. by eapply IH.
    + rewrite leaves_entries_app. apply (sorted_app_at k).
      * eapply (bounded_below lo k k); [by rewrite compare_refl|]. by eapply wf_bounds.
      * by eapply IH.
      * by apply IHcs.
      * eapply Forall_impl; [by eapply wfs_bounds|]. by intros e [He _].
Qed.

(** * The laws of the map *)

Lemma pk_eq_test a b c : compare a b =? 0 = true -> compare a c =? 0 = (compare b c =? 0).
Proof. intros H%Z.eqb_eq. by rewrite (compare_eq_l a b). Qed.

Lemma m_get_put k k' v es : m_get k (m_put k' v es) = if compare k' k =? 0 then Some v else m_get k es.
Proof.
  induction es as [|[k2 v2] es IH]; cbn [m_put m_get]; [done|].
  destruct (compare k2 k' <? 0) eqn:Elt; cbn [m_get].
  - rewrite IH. destruct (compare k' k =? 0) eqn:E1; [|done]. destruct (compare k2 k =? 0) eqn:E2; [|done]. exfalso.
    apply Z.eqb_eq in E1, E2. rewrite (compare_eq_r k' k k2) in Elt by done. lia.
  - destruct (compare k2 k' =? 0) eqn:E; cbn [m_get]; [rewrite (pk_eq_test _ _ k E); by case_match|done].
Qed.

Lemma m_get_none k es : Forall (fun e => compare (fst e) k <> 0) es -> m_get k es = None.
Proof. induction 1 as [|[k' v] es Hk _ IH]; [done|]. cbn. cbn in Hk. by rewrite (proj2 (Z.eqb_neq _ _)). Qed.

Lemma m_get_del k k' es : sorted es -> m_get k (m_del k' es) = if compare k' k =? 0 then None else m_get k es.
Proof.
  induction 1 as [|[k2 v2] es Hs IH Hk]; cbn [m_del m_get]; [by case_match|].
  destruct (compare k2 k' =? 0) eqn:E2.
  - rewrite (pk_eq_test k2 k' k E2). destruct (compare k' k =? 0) eqn:E1; [|done]. apply m_get_none.
    eapply Forall_impl; [exact Hk|]. intros [k3 v3] H3. unfold pk_lt in H3. cbn in *. apply Z.eqb_eq in E1, E2.
    rewrite (compare_eq_l k2 k') in H3 by done. rewrite (compare_eq_l k' k) in H3 by done. rewrite (compare_antisym k k3). lia.
  - cbn [m_get]. rewrite IH. destruct (compare k' k =? 0) eqn:E1; [|done]. apply Z.eqb_eq in E1.
    rewrite (compare_eq_r k' k k2) in E2 by done. by rewrite E2.
Qed.

Lemma m_get_from k k0 es : sorted es -> m_get k (m_from k0 es) = if compare k k0 <? 0 then None else m_get k es.
Proof.
  induction 1 as [|[k2 v2] es Hs IH Hk]; cbn [m_from m_get]; [by case_match|].
  destruct (Z.ltb_spec (compare k2 k0) 0) as [H2|H2].
  - rewrite IH. destruct (Z.ltb_spec (compare k k0) 0); [done|]. rewrite (proj2 (Z.eqb_neq _ _)); [done|].
    intros E. rewrite (compare_eq_l k2 k) in H2 by done. lia.
  - destruct (Z.ltb_spec (compare k k0) 0) as [H|H]; [|done]. apply (m_get_none k ((k2, v2) :: es)).
    assert (pk_lt k k2) as Hlt by (by eapply pk_lt_le_trans). constructor; cbn.
    + unfold pk_lt in Hlt. rewrite (compare_antisym k k2). lia.
    + eapply Forall_impl; [exact Hk|]. intros [k3 v3] H3. cbn in *. assert (pk_lt k k3) as Hlt' by (by transitivity k2).
      unfold pk_lt in Hlt'. rewrite (compare_antisym k k3). lia.
Qed.

Lemma sorted_from k es : sorted es -> sorted (m_from k es).
Proof. intros Hs. induction Hs as [|[k' v'] es Hs IH Hk]; cbn [m_from]; [constructor|]. case_match; [done|by constructor]. Qed.

(** * Iteration *)

Lemma deref_ok t h l1 l l2 : tree_ok t h -> leaves (root t) = l1 ++ l :: l2 -> deref t (lid l) = Some l.
Proof.
  intros [_ _ Hn _] Hl. unfold deref. rewrite Hl in *. rewrite map_app in Hn. cbn [map] in Hn.
  assert (list_find (fun x => lid x = lid l) (l1 ++ l :: l2) = Some (length l1, l)) as ->; [|done].
  apply list_find_Some. split; [by apply list_lookup_middle|]. split; [done|].
  intros j y Hj Hlt E. rewrite lookup_app_l in Hj by done.
  apply NoDup_app in Hn as (_ & Hd & _). apply (Hd (lid y)).
  - apply list_elem_of_fmap_2. by eapply list_elem_of_lookup_2.
  - rewrite E. by left.
Qed.

(** [it] stands before the entries [es] of the tree's sequence. *)
Definition iter_at (t : btree) (it : btreeIter) (es : list entry) : Prop :=
  match it_node it with
  | None => es = []
  | Some id => exists l1 l l2, leaves (root t) = l1 ++ l :: l2 /\ lid l = id /\
      es = drop (it_idx it) (leaf_entries l) ++ leaves_entries l2
  end.

Definition leaf_even (l : leafNode) : Prop := length (lkeys l) = length (lvals l).

Lemma wf_leaf_even h : forall m lo hi n, wf m h lo hi n -> Forall leaf_even (leaves n).
Proof.
  induction h as [|h IH]; intros m lo hi n Hn; inversion Hn as [? ? ? l Hl|? ? ? ? ks cs _ Hcs]; subst.
  - constructor; [apply Hl|done].
  - change (Forall leaf_even (forest_leaves cs)). clear Hn. unfold forest_leaves.
    induction Hcs as [h lo hi c Hc|h lo hi k ks c cs Hc Hk Hcs IHcs]; cbn [map concat].
    + rewrite app_nil_r. by eapply IH.
    + apply Forall_app. split; [by eapply IH|by apply IHcs].
Qed.

Lemma drop_zip_lookup {A B} (ks : list A) (vs : list B) i k v :
  ks !! i = Some k -> vs !! i = Some v -> drop i (zip ks vs) = (k, v) :: drop (S i) (zip ks vs).
Proof. intros Hk Hv. apply drop_S. by rewrite lookup_zip_with, Hk, Hv. Qed.

Lemma next_loop_ok t h fuel l2 : forall l1 l idx es,
  tree_ok t h -> leaves (root t) = l1 ++ l :: l2 -> (length l2 < fuel)%nat ->
  es = drop idx (leaf_entries l) ++ leaves_entries l2 ->
  exists it, next_loop fuel t (mkIter (Some (lid l)) idx) = Some (it, head es) /\ iter_at t it (tail es).
Proof.
  revert l2. induction fuel as [|fuel IH]; intros l2 l1 l idx es Hok Hl Hf Hes; [lia|].
  cbn [next_loop it_node it_idx]. rewrite (deref_ok _ _ _ _ _ Hok Hl). cbn [mbind option_bind].
  assert (leaf_even l) as Hev.
  { pose proof (wf_leaf_even _ _ _ _ _ (ok_wf _ _ Hok)) as Hf'. rewrite Hl in Hf'.
    apply Forall_app in Hf' as [_ Hf']. by apply Forall_inv in Hf'. }
  unfold leaf_even, leaf_entries in *. destruct (lkeys l !! idx) as [k|] eqn:Ek.
  - destruct (lookup_lt_is_Some_2 (lvals l) idx) as [v Ev]; [apply lookup_lt_Some in Ek; lia|].
    rewrite Ev. cbn [mbind option_bind]. subst es. rewrite (drop_zip_lookup _ _ _ _ _ Ek Ev).
    eexists. split; [done|]. exists l1, l, l2. done.
  - apply lookup_ge_None_1 in Ek. rewrite drop_ge in Hes by (rewrite length_zip_with; lia). cbn [app] in Hes. subst es.
    pose proof (ok_chain _ _ Hok) as Hc. rewrite Hl, chain_app in Hc. destruct Hc as (_ & Hnx & _). rewrite Hnx.
    destruct l2 as [|l' l2]; cbn [head_id].
    + exists (mkIter None 0). destruct fuel; by split.
    + apply (IH l2 (l1 ++ [l]) l' 0%nat); [done|by rewrite <- app_assoc|cbn in Hf; lia|]. done.
Qed.

Lemma Next_ok t h it es :
  tree_ok t h -> iter_at t it es -> exists it', Next t it = Some (it', head es) /\ iter_at t it' (tail es).
Proof.
  intros Hok. destruct it as [[id|] idx]; unfold iter_at; cbn [it_node it_idx].
  - intros (l1 & l & l2 & Hl & <- & ->). unfold Next. eapply next_loop_ok; [done|done| |done].
    rewrite Hl, length_app. cbn. lia.
  - intros ->. exists (mkIter None idx). split; [|done]. unfold Next. by destruct (length (leaves (root t))).
Qed.

Lemma drain_ok t h es fuel : forall it,
  tree_ok t h -> iter_at t it es -> (length es < fuel)%nat -> drain fuel t it = Some es.
Proof.
  revert es. induction fuel as [|fuel IH]; intros es it Hok Hit Hf; [lia|]. cbn [drain].
  destruct (Next_ok _ _ _ _ Hok Hit) as (it' & -> & Hit'). cbn [mbind option_bind].
  destruct es as [|e es]; [done|]. cbn [head tail] in *. rewrite (IH es); [done|done|done|cbn in Hf; lia].
Qed.

Lemma drop_lower_bound k ks vs : drop (lower_bound ks k) (zip ks vs) = m_from k (zip ks vs).
Proof.
  revert vs. induction ks as [|key ks IH]; intros [|v vs]; cbn [lower_bound zip zip_with m_from]; try done.
  - by rewrite drop_nil.
  - destruct (compare key k <? 0); [apply IH|done].
Qed.

Lemma Seek_ok t h k : tree_ok t h -> exists it, Seek t k = Some it /\ iter_at t it (m_from k (entries (root t))).
Proof.
  intros Hok. unfold Seek.
  destruct (find_leaf_ok k _ _ _ _ _ (ok_wf _ _ Hok) (everywhere k)) as (l & l1 & l2 & lo & hi & -> & Hl & Hfor).
  eexists. split; [done|]. exists l1, l, l2. split; [apply Hfor|]. split; [done|].
  rewrite (leaf_for_from _ _ _ _ _ Hfor). cbn [it_idx]. unfold leaf_entries. by rewrite drop_lower_bound.
Qed.

Lemma first_leaf_ok h : forall m lo hi n, wf m h lo hi n -> exists l ls, first_leaf n = Some l /\ leaves n = l :: ls.
Proof.
  induction h as [|h IH]; intros m lo hi n Hn; inversion Hn as [? ? ? l Hl|? ? ? ? ks cs _ Hcs]; subst; [by exists l, []|].
  inversion Hcs as [? ? ? c Hc|? ? ? ? ? c cs' Hc]; subst; destruct (IH _ _ _ _ Hc) as (l & ls & Hf & Hl);
    cbn [first_leaf nth_apply leaves map concat]; rewrite Hl; by exists l, (ls ++ forest_leaves (tail (c :: cs'))) || by exists l, (ls ++ []).
Qed.

Lemma Ascend_ok t h : tree_ok t h -> exists it, Ascend t = Some it /\ iter_at t it (entries (root t)).
Proof.
  intros Hok. unfold Ascend. destruct (first_leaf_ok _ _ _ _ _ (ok_wf _ _ Hok)) as (l & ls & -> & Hl).
  eexists. split; [done|]. exists [], l, ls. split; [done|]. split; [done|]. unfold entries. by rewrite Hl.
Qed.

(** * Size *)

Fixpoint height (n : btreeNode) : nat :=
  match n with
  | Leaf _ => 0
  | Node _ children => match children with c :: _ => S (height c) | [] => 0 end
  end.

Lemma wf_height h : forall m lo hi n, wf m h lo hi n -> height n = h.
Proof.
  induction h as [|h IH]; intros m lo hi n Hn; inversion Hn as [? ? ? l Hl|? ? ? ? ks cs _ Hcs]; subst; [done|].
  inversion Hcs as [? ? ? c Hc|? ? ? ? ? c cs' Hc]; subst; cbn [height]; f_equal; by eapply IH.
Qed.

(** An interior node with [k] separators at height [h+1] has at least [(k+1) * 5^h] leaves. *)
Lemma wf_leaves_min h : forall m lo hi n,
  wf m h lo hi n -> (match h with O => 1 | S h => S m * 5 ^ h end <= length (leaves n))%nat.
Proof.
  induction h as [|h IH]; intros m lo hi n Hn; inversion Hn as [? ? ? l Hl|? ? ? ? ks cs Hks Hcs]; subst; [cbn; lia|].
  change (leaves (Node ks cs)) with (forest_leaves cs). clear Hn.
  assert (forall lo hi c, wf 4 h lo hi c -> (5 ^ h <= length (leaves c))%nat) as H5.
  { intros lo' hi' c Hc. specialize (IH _ _ _ _ Hc). destruct h; cbn [Nat.pow] in *; lia. }
  assert (S (length ks) * 5 ^ h <= length (forest_leaves cs))%nat as Hm; [|nia].
  clear Hks IH. unfold forest_leaves.
  induction Hcs as [h lo hi c Hc|h lo hi k ks c cs Hc Hk Hcs IHcs]; cbn [map concat]; rewrite length_app.
  - specialize (H5 _ _ _ Hc). cbn. lia.
  - specialize (H5 _ _ _ Hc) as H5'. specialize (IHcs H5). cbn [length] in *. lia.
Qed.

Lemma leaves_fresh t h : tree_ok t h -> (length (leaves (root t)) <= fresh t)%nat.
Proof.
  intros [_ _ Hn Hf]. rewrite <- (length_map lid). rewrite <- (length_seq (fresh t) 0).
  apply submseteq_length, NoDup_submseteq; [done|]. intros id Hid. rewrite Forall_forall in Hf.
  apply elem_of_seq. specialize (Hf _ Hid). lia.
Qed.

(** * Theorems *)

(** The operations of the tree's clients: setIndex/insert and delIndex/remove. *)
Inductive tree_op :=
  | TPut (k : pkKey) (v : bytes)
  | TDelete (k : pkKey).

Definition tree_step (t : option btree) (op : tree_op) : option btree :=
  t ← t;
  match op with
  | TPut k v => Put t k v
  | TDelete k => Delete t k
  end.

Definition tree_run (ops : list tree_op) : option btree := foldl tree_step (Some newBTree) ops.

(** What the last operation on a key left there. *)
Definition last_write (k : pkKey) (ops : list tree_op) : option bytes :=
  foldl (fun r op =>
    match op with
    | TPut k' v => if compare k' k =? 0 then Some v else r
    | TDelete k' => if compare k' k =? 0 then None else r
    end) None ops.

(** The number of insertions. *)
Fixpoint puts (ops : list tree_op) : nat :=
  match ops with
  | [] => 0
  | TPut _ _ :: ops => S (puts ops)
  | TDelete _ :: ops => puts ops
  end.

Lemma puts_app a b : puts (a ++ b) = (puts a + puts b)%nat.
Proof. induction a as [|[] a IH]; cbn; lia. Qed.

Lemma m_put_keys (P : pkKey -> Prop) k v es :
  P k -> Forall (fun e => P (fst e)) es -> Forall (fun e => P (fst e)) (m_put k v es).
Proof.
  intros Hk Hes. induction Hes as [|[k' v'] es Hk' Hes IH]; cbn [m_put]; [by repeat constructor|].
  repeat case_match; by repeat constructor.
Qed.

Lemma m_del_keys (P : pkKey -> Prop) k es : Forall (fun e => P (fst e)) es -> Forall (fun e => P (fst e)) (m_del k es).
Proof. induction 1 as [|[k' v'] es Hk' Hes IH]; cbn [m_del]; [constructor|]. case_match; [done|by constructor]. Qed.

Definition put_key (P : pkKey -> Prop) (op : tree_op) : Prop := match op with TPut k _ => P k | TDelete _ => True end.

(** The keys of the entries come from the insertions. *)
Lemma tree_run_keys P ops t :
  Forall (put_key P) ops -> tree_run ops = Some t ->
  (exists h, tree_ok t h) /\ Forall (fun e => P (fst e)) (entries (root t)).
Proof.
  unfold tree_run. revert t. induction ops as [|op ops IH] using rev_ind; intros t Hops.
  { intros [= <-]. split; [exists 0%nat; apply new_ok|constructor]. }
  apply Forall_app in Hops as [Hops Hop%Forall_inv]. rewrite foldl_app. cbn [foldl].
  destruct (foldl tree_step (Some newBTree) ops) as [t0|]; [|done]. destruct (IH t0 Hops eq_refl) as [[h Hok] Hk].
  cbn [tree_step mbind option_bind]. destruct op as [k v|k]; intros E.
  - destruct (Put_ok t0 h k v Hok) as (t' & h' & E' & Hok' & He & _). simplify_eq. rewrite He.
    split; [by exists h'|by apply m_put_keys].
  - destruct (Delete_ok t0 h k Hok) as (t' & h' & E' & Hok' & He & _). simplify_eq. rewrite He.
    split; [by exists h'|by apply m_del_keys].
Qed.

(** A run is described by its sorted entries. *)
Lemma tree_run_ok ops :
  exists t h, tree_run ops = Some t /\ tree_ok t h /\ (forall k, m_get k (entries (root t)) = last_write k ops) /\
    fresh t = S (puts ops).
Proof.
  unfold tree_run, last_write. induction ops as [|op ops (t & h & Hr & Hok & Hg & Hp)] using rev_ind.
  { exists newBTree, 0%nat. split; [done|]. split; [apply new_ok|done]. }
  rewrite foldl_app, Hr, puts_app. cbn [foldl tree_step mbind option_bind].
  pose proof (wf_sorted _ _ _ _ _ (ok_wf _ _ Hok)) as Hs. destruct op as [k v|k].
  - destruct (Put_ok t h k v Hok) as (t' & h' & -> & Hok' & He & Hf). exists t', h'. do 2 (split; [done|]).
    split; [|cbn; lia]. intros k'. rewrite He, m_get_put, foldl_app. cbn [foldl]. by rewrite Hg.
  - destruct (Delete_ok t h k Hok) as (t' & h' & -> & Hok' & He & Hf). exists t', h'. do 2 (split; [done|]).
    split; [|cbn; lia]. intros k'. rewrite He, m_get_del, foldl_app by done. cbn [foldl]. by rewrite Hg.
Qed.

(** C19.  The B+tree is a map: after any sequence of Put and Delete from the
    empty tree no operation panicked, and Get returns for every key what the last
    operation on that key (keys compared as the tree compares them) left there. *)
Theorem btree_is_a_map ops k :
  exists t, tree_run ops = Some t /\ Get t k = Some (last_write k ops).
Proof.
  destruct (tree_run_ok ops) as (t & h & Hr & Hok & Hg & _). exists t. split; [done|].
  by rewrite (Get_ok _ _ _ Hok), Hg.
Qed.

(** C20.  Iteration along the sibling pointers is ordered and complete: on a tree
    built by any sequence of operations, repeating Next from [Seek k0] terminates
    without a panic and yields, in strictly increasing key order, exactly the
    entries the map holds at keys not below [k0]; from [Ascend], all of them. *)
Theorem btree_iteration ops k0 :
  exists t, tree_run ops = Some t /\
  (exists it es, Seek t k0 = Some it /\ (forall fuel, (length es < fuel)%nat -> drain fuel t it = Some es) /\
     sorted es /\ forall k, m_get k es = if compare k k0 <? 0 then None else last_write k ops) /\
  (exists it es, Ascend t = Some it /\ (forall fuel, (length es < fuel)%nat -> drain fuel t it = Some es) /\
     sorted es /\ forall k, m_get k es = last_write k ops).
Proof.
  destruct (tree_run_ok ops) as (t & h & Hr & Hok & Hg & _). exists t. split; [done|].
  pose proof (wf_sorted _ _ _ _ _ (ok_wf _ _ Hok)) as Hs. split.
  - destruct (Seek_ok t h k0 Hok) as (it & Hit & Hat). exists it, (m_from k0 (entries (root t))). split; [done|].
    split; [intros; by eapply drain_ok|]. split; [by apply sorted_from|].
    intros k. by rewrite m_get_from, Hg.
  - destruct (Ascend_ok t h Hok) as (it & Hit & Hat). exists it, (entries (root t)). split; [done|].
    split; [intros; by eapply drain_ok|]. done.
Qed.

(** C23.  The tree stays balanced, with every interior node below the root at
    least half full, whatever is deleted: its height is logarithmic in the number
    of insertions, 2 * 5^(height-1) <= 1 + puts. *)
Theorem btree_height ops :
  exists t, tree_run ops = Some t /\ (exists h, wf 1 h None None (root t) /\ height (root t) = h) /\
  match height (root t) with O => True | S h => (2 * 5 ^ h <= S (puts ops))%nat end.
Proof.
  destruct (tree_run_ok ops) as (t & h & Hr & Hok & _ & Hf). exists t. split; [done|].
  pose proof (ok_wf _ _ Hok) as Hw. pose proof (wf_height _ _ _ _ _ Hw) as Hh. split; [by exists h|]. rewrite Hh.
  pose proof (wf_leaves_min _ _ _ _ _ Hw) as Hm. pose proof (leaves_fresh _ _ Hok) as Hl.
  destruct h; [done|]. lia.
Qed.

(** The keys the code builds, with pkFromInt and pkFromString. *)
Definition pk_ok (k : pkKey) : Prop := if isInt k then in_i64 (pk_i k) /\ pk_s k = [] else pk_i k = 0.

Lemma pk_decode_encode k : pk_ok k -> pkKeyFromEncoded (pk_encode k) = Ok k.
Proof.
  destruct k as [[] i s]; unfold pk_ok, pkKeyFromEncoded, pk_encode; cbn [isInt pk_i pk_s].
  - intros [Hi ->]. by rewrite decodePK_int.
  - intros ->. by rewrite decodePK_string.
Qed.

Lemma pk_compare_eq a b : pk_ok a -> pk_ok b -> compare a b = 0 <-> a = b.
Proof.
  intros Ha Hb. split; [|intros ->; apply compare_refl].
  unfold compare, pk_ok in *. destruct a as [[] i s], b as [[] i' s']; cbn [isInt pk_i pk_s eqb negb] in *; try done.
  - destruct Ha as [_ ->], Hb as [_ ->]. intros H. f_equal. repeat case_match; lia.
  - destruct (bytes_compare s s') eqn:E; try done. apply bytes_compare_eq in E. by subst.
Qed.

Lemma pk_encode_inj a b : pk_ok a -> pk_ok b -> pk_encode a = pk_encode b -> a = b.
Proof. intros Ha Hb E. pose proof (pk_decode_encode a Ha) as H. rewrite E, (pk_decode_encode b Hb) in H. by injection H. Qed.

(** The order of keys agrees with their stored form: on the keys the code
    builds, [compare] is 0 only for equal keys, equal keys are those with equal
    encodings, every key is recovered from its encoding, and integers sort
    before strings. *)
Theorem pkKey_encoding a b :
  pk_ok a -> pk_ok b ->
  pkKeyFromEncoded (pk_encode a) = Ok a /\
  (compare a b = 0 <-> a = b) /\ (pk_encode a = pk_encode b <-> a = b) /\
  (isInt a = true -> isInt b = false -> compare a b = -1).
Proof.
  intros Ha Hb. split; [by apply pk_decode_encode|]. split; [by apply pk_compare_eq|]. split.
  - split; [by apply pk_encode_inj|by intros ->].
  - unfold compare. by intros -> ->.
Qed.

Lemma pkKey_encoding_witness :
  let a := pkFromInt 7 in
  let b := pkFromString (lit "7") in
  pkKeyFromEncoded (pk_encode a) = Ok a /\ compare a b = -1.
Proof.
  assert (pk_ok (pkFromInt 7)) as Ha by (split; [unfold in_i64; cbn; lia|done]).
  assert (pk_ok (pkFromString (lit "7"))) as Hb by done.
  destruct (pkKey_encoding (pkFromInt 7) (pkFromString (lit "7")) Ha Hb) as (H1 & _ & _ & H2).
  split; [exact H1|by apply H2].
Defined.
