(* ===== verification/JsonBin.v ===== *)
(** Binary JSON (jsonbin.go): the tagged encoding of decoded JSON values, its
    decoder, the path syntax, and the extraction of SQL values along a path.

    Parsing JSON text into values and printing values as text is encoding/json;
    here a document is the value json.Decoder (with UseNumber) returns.  What
    the code takes from strconv for floating point is a parameter: a float64 is
    its bit pattern. *)

From S2P Require Import Prelude Utf8 Unicode Strconv Page Row.

(** * Values *)

(** The dynamic values of type [any] the code meets: [AInt] and [AFloat] come
    from the binary decoder, [ANumber] (json.Number) from the text decoder.  A
    map is the list of its entries, whose keys are distinct. *)
Inductive any :=
  | ANil
  | ABool (b : bool)
  | AInt (i : Z)
  | AFloat (bits : Z)
  | ANumber (text : bytes)
  | AString (s : bytes)
  | AArray (xs : list any)
  | AObject (kvs : list (bytes * any)).

Definition jNull : Z := 0.
Definition jFalse : Z := 1.
Definition jTrue : Z := 2.
Definition jInt : Z := 3.
Definition jFloat : Z := 4.
Definition jString : Z := 5.
Definition jArray : Z := 6.
Definition jObject : Z := 7.

Definition jsonMaxDepth : Z := 32.

(** * Floating point *)

(** The integer a float64 equals, if it equals one: [x == math.Trunc(x)] for
    finite [x], and [x]. *)
Definition float_integer (bits : Z) : option Z :=
  let sign := if Z.testbit bits 63 then -1 else 1 in
  let e := Z.land (Z.shiftr bits 52) 0x7FF in
  let m := Z.land bits (2 ^ 52 - 1) in
  if e =? 0x7FF then None
  else if e =? 0 then (if m =? 0 then Some 0 else None)
  else
    let mant := 2 ^ 52 + m in
    let exp := e - 1075 in
    if 0 <=? exp then Some (sign * (mant * 2 ^ exp))
    else if mant mod 2 ^ (- exp) =? 0 then Some (sign * (mant / 2 ^ (- exp)))
    else None.

(** [x == math.Trunc(x) && x >= math.MinInt64 && x <= math.MaxInt64]: the
    constant MaxInt64 becomes the float64 2^63, so 2^63 itself passes. *)
Definition float_in_int64 (bits : Z) : option Z :=
  match float_integer bits with
  | Some z => if (- 2 ^ 63 <=? z) && (z <=? 2 ^ 63) then Some z else None
  | None => None
  end.

(** An object as a map: lookup, and insertion that keeps entries in key order. *)
Fixpoint obj_get {A} (k : bytes) (kvs : list (bytes * A)) : option A :=
  match kvs with
  | [] => None
  | (k', v) :: kvs => if bool_decide (k = k') then Some v else obj_get k kvs
  end.

Fixpoint obj_set {A} (k : bytes) (v : A) (kvs : list (bytes * A)) : list (bytes * A) :=
  match kvs with
  | [] => [(k, v)]
  | (k', v') :: kvs' =>
      match bytes_compare k k' with
      | Lt => (k, v) :: kvs
      | Eq => (k, v) :: kvs'
      | Gt => (k', v') :: obj_set k v kvs'
      end
  end.

(** The values the text decoder and the binary decoder build: float64s are 64
    bits and the keys of a map are distinct. *)
Inductive json_wf : any -> Prop :=
  | wf_nil : json_wf ANil
  | wf_bool b : json_wf (ABool b)
  | wf_int i : in_i64 i -> json_wf (AInt i)
  | wf_float x : in_u64 x -> json_wf (AFloat x)
  | wf_number x : json_wf (ANumber x)
  | wf_string s : json_wf (AString s)
  | wf_array xs : Forall json_wf xs -> json_wf (AArray xs)
  | wf_object kvs : NoDup (fst <$> kvs) -> Forall (fun kv => json_wf (snd kv)) kvs -> json_wf (AObject kvs).

(** * The standard library *)

(** What the code takes from strconv and encoding/json: [parseFloat] is
    ParseFloat(s, 64), the bits or a range error; [formatFloat] is FormatFloat(f,
    'g', -1, 64); [decodeText] is Decoder.Decode with UseNumber, the first JSON
    value of a text; [marshalJSON] is Marshal.  [int64_of_2p63] is what the
    conversion int64(x) gives at x = 2^63, which the language leaves to the
    implementation. *)
Class GoJson := {
  parseFloat : bytes -> option Z;
  int64_of_2p63 : Z;
  formatFloat : Z -> bytes;
  marshalJSON : any -> option bytes;
  decodeText : bytes -> option any;
  parseFloat_bits : forall s b, parseFloat s = Some b -> in_u64 b;
  int64_of_2p63_range : in_i64 int64_of_2p63;
  decodeText_wf : forall t v, decodeText t = Some v -> json_wf v;
}.

Section encoding.
Context `{J : GoJson}.

Definition to_int64 (z : Z) : Z := if z <? 2 ^ 63 then z else int64_of_2p63.

(** * Encoding *)

(** A tag and eight bytes. *)
Definition put_tag8 (out : bytes) (tag z : Z) : bytes := out ++ byte_of tag :: le_bytes 8 (u64 z).

(** A tag and a 32-bit count. *)
Definition put_tag4 (out : bytes) (tag n : Z) : bytes := out ++ byte_of tag :: le_bytes 4 (u32 n).

(** The loops over the elements of an array and over the sorted keys of an
    object, whose members [encoders] appends. *)
Section append_loops.
Context (append : bytes -> any -> res bytes).
Fixpoint append_elements (out : bytes) (x : list any) : res bytes :=
  match x with
  | [] => Ok out
  | el :: x => let! out := append out el in append_elements out x
  end.
End append_loops.

Fixpoint append_members (encoders : list (bytes * (bytes -> res bytes))) (out : bytes) (keys : list bytes) : res bytes :=
  match keys with
  | [] => Ok out
  | k :: keys =>
      let out := out ++ le_bytes 4 (u32 (zlen k)) ++ k in
      let! out := match obj_get k encoders with Some enc => enc out | None => Err ErrSQL end in
      append_members encoders out keys
  end.

Fixpoint appendJSONBin (out : bytes) (v : any) (depth : Z) {struct v} : res bytes :=
  if jsonMaxDepth <? depth then Err ErrSQL
  else match v with
  | ANil => Ok (out ++ [byte_of jNull])
  | ABool b => Ok (out ++ [byte_of (if b then jTrue else jFalse)])
  | ANumber x =>
      match parseInt x with
      | Some i => Ok (put_tag8 out jInt i)
      | None =>
          match parseFloat x with
          | None => Err ErrSQL
          | Some f => Ok (put_tag8 out jFloat f)
          end
      end
  | AFloat x =>
      match float_in_int64 x with
      | Some z => Ok (put_tag8 out jInt (to_int64 z))
      | None => Ok (put_tag8 out jFloat x)
      end
  | AString x => Ok (put_tag4 out jString (zlen x) ++ x)
  | AArray x =>
      append_elements (fun out el => appendJSONBin out el (depth + 1)) (put_tag4 out jArray (zlen x)) x
  | AObject x =>
      let keys := sort_strings (fst <$> x) in
      let encoders := map (fun kv => (fst kv, fun out => appendJSONBin out (snd kv) (depth + 1))) x in
      append_members encoders (put_tag4 out jObject (zlen keys)) keys
  | AInt _ => Err ErrSQL
  end.

(** * Decoding *)

Section read_loops.
Context (read : bytes -> res (any * Z)).

(** The [n] remaining elements of an array at [off]. *)
Fixpoint read_elements (n : nat) (data : bytes) (off : Z) : res (list any * Z) :=
  match n with
  | O => Ok ([], off)
  | S n =>
      let! (el, used) := read (drop (Z.to_nat off) data) in
      let! (arr, off) := read_elements n data (off + used) in
      Ok (el :: arr, off)
  end.

(** The [n] remaining members of an object at [off], added to [obj]. *)
Fixpoint read_members (n : nat) (data : bytes) (off : Z) (obj : list (bytes * any)) : res (list (bytes * any) * Z) :=
  match n with
  | O => Ok (obj, off)
  | S n =>
      if zlen data <? off + 4 then Err ErrSQL
      else
        let kn := le_val (slice data off (off + 4)) in
        let off := off + 4 in
        if zlen data <? off + kn then Err ErrSQL
        else
          let key := slice data off (off + kn) in
          let off := off + kn in
          match obj_get key obj with
          | Some _ => Err ErrSQL
          | None =>
              let! (val, used) := read (drop (Z.to_nat off) data) in
              read_members n data (off + used) (obj_set key val obj)
          end
  end.
End read_loops.

(** [levels] is how many levels of nesting are left: [jsonMaxDepth - depth + 1]. *)
Fixpoint read_levels (levels : nat) (data : bytes) : res (any * Z) :=
  match levels with
  | O => Err ErrSQL
  | S levels =>
      match data with
      | [] => Err ErrSQL
      | tag :: _ =>
          let t := byte_val tag in
          if t =? jNull then Ok (ANil, 1)
          else if t =? jFalse then Ok (ABool false, 1)
          else if t =? jTrue then Ok (ABool true, 1)
          else if t =? jInt then
            if zlen data <? 9 then Err ErrSQL else Ok (AInt (i64 (le_val (slice data 1 9))), 9)
          else if t =? jFloat then
            if zlen data <? 9 then Err ErrSQL else Ok (AFloat (le_val (slice data 1 9)), 9)
          else if t =? jString then
            if zlen data <? 5 then Err ErrSQL
            else
              let n := le_val (slice data 1 5) in
              if zlen data <? 5 + n then Err ErrSQL else Ok (AString (slice data 5 (5 + n)), 5 + n)
          else if t =? jArray then
            if zlen data <? 5 then Err ErrSQL
            else
              let n := le_val (slice data 1 5) in
              let! (arr, off) := read_elements (read_levels levels) (Z.to_nat n) data 5 in
              Ok (AArray arr, off)
          else if t =? jObject then
            if zlen data <? 5 then Err ErrSQL
            else
              let n := le_val (slice data 1 5) in
              let! (obj, off) := read_members (read_levels levels) (Z.to_nat n) data 5 [] in
              Ok (AObject obj, off)
          else Err ErrSQL
      end
  end.

Definition readJSONBin (data : bytes) (depth : Z) : res (any * Z) :=
  read_levels (Z.to_nat (jsonMaxDepth - depth + 1)) data.

Definition decodeJSON (bin : bytes) : res any :=
  let! (v, n) := readJSONBin bin 0 in
  if negb (n =? zlen bin) then Err ErrSQL else Ok v.

Definition encodeJSON (text : bytes) : res bytes :=
  match decodeText text with
  | None => Err ErrSQL
  | Some v => appendJSONBin [] v 0
  end.

Definition jsonToText (bin : bytes) : res bytes :=
  let! v := decodeJSON bin in
  match marshalJSON v with
  | Some b => Ok b
  | None => Err ErrSQL
  end.

(** * Paths *)

Section paths.
Context `{Unicode}.

Definition ident_start (r : Z) : bool := (r =? 95) || isLetter r.
Definition ident_part (r : Z) : bool := (r =? 95) || isLetter r || isDigit r.

Definition isJSONIdent (s : bytes) : bool :=
  match runes s with
  | [] => false
  | r :: rs => ident_start (fst r) && forallb (fun r => ident_part (fst r)) rs
  end.

(** strings.Split(s, "."). *)
Fixpoint split_dots (s : bytes) : list bytes :=
  match s with
  | [] => [[]]
  | b :: s =>
      if bool_decide (b = Byte.x2e) then [] :: split_dots s
      else match split_dots s with
           | [] => [[b]]
           | p :: ps => (b :: p) :: ps
           end
  end.

(** strings.ContainsAny(p, "[]*"). *)
Definition has_wildcard (p : bytes) : bool :=
  existsb (fun b => bool_decide (b ∈ lit "[]*")) p.

Fixpoint check_parts (parts : list bytes) : res unit :=
  match parts with
  | [] => Ok tt
  | p :: parts =>
      if bool_decide (p = []) || negb (isJSONIdent p) then Err ErrSQL
      else if has_wildcard p then Err ErrSQL
      else check_parts parts
  end.

Definition parseJSONPath (path : bytes) : res (list bytes) :=
  if negb (has_prefix path (lit "$")) then Err ErrSQL
  else if bool_decide (path = lit "$") then Ok []
  else if negb (has_prefix path (lit "$.")) then Err ErrSQL
  else
    let rest := drop 2 path in
    if bool_decide (rest = []) then Err ErrSQL
    else
      let parts := split_dots rest in
      let! _ := check_parts parts in
      Ok parts.

(** * Extraction *)

(** The value, and whether the path exists. *)
Definition jsonLeafToValue (v : any) : res (Value * bool) :=
  match v with
  | ANil => Ok (NullValue, true)
  | ABool x => Ok (TextValue (if x then lit "true" else lit "false"), true)
  | AInt x => Ok (IntValue x, true)
  | AFloat x =>
      match float_in_int64 x with
      | Some z => Ok (IntValue (to_int64 z), true)
      | None => Ok (TextValue (formatFloat x), true)
      end
  | ANumber x =>
      match parseInt x with
      | Some i => Ok (IntValue i, true)
      | None =>
          match parseFloat x with
          | Some f =>
              match float_in_int64 f with
              | Some z => Ok (IntValue (to_int64 z), true)
              | None => Ok (TextValue x, true)
              end
          | None => Ok (TextValue x, true)
          end
      end
  | AString x => Ok (TextValue x, true)
  | AArray _ | AObject _ =>
      match marshalJSON v with
      | Some b => Ok (TextValue b, true)
      | None => Err ErrSQL
      end
  end.

(** The zero Value. *)
Definition zeroValue : Value := mkValue (TypeName []) 0 [] [] false.

(** The loop over the segments. *)
Fixpoint walk (segs : list bytes) (cur : any) : option any :=
  match segs with
  | [] => Some cur
  | seg :: segs =>
      match cur with
      | AObject obj => match obj_get seg obj with Some next => walk segs next | None => None end
      | _ => None
      end
  end.

Definition jsonExtract (bin path : bytes) : res (Value * bool) :=
  let! segs := parseJSONPath path in
  let! (v, _) := readJSONBin bin 0 in
  match walk segs v with
  | None => Ok (zeroValue, false)
  | Some cur => jsonLeafToValue cur
  end.

Definition indexableExtract (bin path : bytes) : res (Value * bool) :=
  let! (v, ok) := jsonExtract bin path in
  if negb ok then Ok (zeroValue, false)
  else if Null v then Ok (zeroValue, false)
  else match Typ v with
  | TypeInteger | TypeText => Ok (v, true)
  | _ => Ok (zeroValue, false)
  end.

End paths.

(** * What survives of a document *)

(** Numbers become int64 or float64, objects are put in key order. *)
Fixpoint norm (v : any) : any :=
  match v with
  | ANumber x =>
      match parseInt x with
      | Some i => AInt i
      | None => match parseFloat x with Some f => AFloat f | None => ANil end
      end
  | AFloat x => match float_in_int64 x with Some z => AInt (to_int64 z) | None => AFloat x end
  | AArray xs => AArray (map norm xs)
  | AObject kvs =>
      let kvs' := map (fun kv => (fst kv, norm (snd kv))) kvs in
      AObject (omap (fun k => pair k <$> obj_get k kvs') (sort_strings (fst <$> kvs)))
  | _ => v
  end.

End encoding.

(** * Lemmas *)

(** Induction on a document with hypotheses for the parts of arrays and objects. *)
Lemma any_parts_ind (P : any -> Prop) :
  P ANil -> (forall b, P (ABool b)) -> (forall i, P (AInt i)) -> (forall x, P (AFloat x)) ->
  (forall x, P (ANumber x)) -> (forall s, P (AString s)) ->
  (forall xs, Forall P xs -> P (AArray xs)) ->
  (forall kvs, Forall (fun kv => P (snd kv)) kvs -> P (AObject kvs)) ->
  forall v, P v.
Proof.
  intros H1 H2 H3 H4 H5 H6 Ha Ho. fix IH 1. intros [ |b|i|x|x|s|xs|kvs]; [apply H1|apply H2|apply H3|apply H4|apply H5|apply H6|..].
  - apply Ha. induction xs as [|x xs IHx]; constructor; [apply IH|apply IHx].
  - apply Ho. induction kvs as [|[k x] kvs IHx]; constructor; [apply IH|apply IHx].
Qed.

Lemma obj_get_map {A B} (f : A -> B) k kvs :
  obj_get k (map (fun kv => (fst kv, f (snd kv))) kvs) = f <$> obj_get k kvs.
Proof. induction kvs as [|[k' v] kvs IH]; cbn; [done|]. by case_bool_decide. Qed.

Lemma obj_get_elem {A} k (v : A) kvs : obj_get k kvs = Some v -> (k, v) ∈ kvs.
Proof.
  induction kvs as [|[k' v'] kvs IH]; cbn; [done|]. case_bool_decide; [intros [= ->]; subst; by left|]. right. auto.
Qed.

(** Keys below the new one: insertion appends. *)
Lemma obj_set_last {A} k (v : A) kvs : Forall (fun kv => bytes_lt (fst kv) k) kvs -> obj_set k v kvs = kvs ++ [(k, v)].
Proof.
  induction 1 as [|[k' v'] kvs Hk _ IH]; cbn; [done|]. unfold bytes_lt in Hk. cbn in Hk.
  rewrite (bytes_compare_antisym k' k), Hk. cbn. by rewrite IH.
Qed.

Lemma obj_get_below {A} k (kvs : list (bytes * A)) : Forall (fun kv => bytes_lt (fst kv) k) kvs -> obj_get k kvs = None.
Proof.
  induction 1 as [|[k' v'] kvs Hk _ IH]; cbn; [done|]. rewrite bool_decide_false; [done|].
  intros ->. by apply bytes_lt_irrefl in Hk.
Qed.

Lemma strict_sorted l : NoDup l -> StronglySorted bytes_lt (sort_strings l).
Proof.
  intros Hn. assert (NoDup (sort_strings l)) as Hn' by (by rewrite sort_strings_perm).
  pose proof (sort_strings_sorted l) as Hs. induction Hs as [|x l' Hs IH Hx]; [constructor|].
  apply NoDup_cons in Hn' as [Hnx Hn']. constructor; [by apply IH|].
  apply Forall_forall. intros y Hy. rewrite Forall_forall in Hx. specialize (Hx y Hy).
  apply bytes_le_lt_eq in Hx as [|<-]; [done|]. done.
Qed.

(** Reading past a prefix of known length. *)
Lemma drop_at {A} (pre l : list A) off : zlen pre = off -> drop (Z.to_nat off) (pre ++ l) = l.
Proof. intros <-. rewrite to_nat_zlen. apply drop_app_length. Qed.

Lemma slice_at pre (x l : bytes) off off' :
  zlen pre = off -> off' = off + zlen x -> slice (pre ++ x ++ l) off off' = x.
Proof.
  intros Hp ->. rewrite slice_app by (rewrite <- Hp; apply zlen_nonneg || done).
  apply take_app_length'. unfold zlen. lia.
Qed.

(** * Encoding and decoding *)

Section roundtrip.
Context `{J : GoJson}.

Definition levels (depth : Z) : nat := Z.to_nat (jsonMaxDepth - depth + 1).

Lemma levels_S depth : depth <= jsonMaxDepth -> levels depth = S (levels (depth + 1)).
Proof. unfold levels. intros. lia. Qed.

(** [enc] is read back as [v] at [depth], whatever follows. *)
Definition reads (depth : Z) (v : any) (enc : bytes) : Prop :=
  zlen enc < 2 ^ 32 -> forall rest, read_levels (levels depth) (enc ++ rest) = Ok (norm v, zlen enc).

Definition appends (depth : Z) (v : any) : Prop :=
  forall out out', appendJSONBin out v depth = Ok out' -> exists enc, out' = out ++ enc /\ reads depth v enc.

Lemma reads_nonempty depth v enc : reads depth v enc -> 1 <= zlen enc.
Proof.
  intros H. destruct enc as [|b enc]; [|rewrite zlen_cons; pose proof (zlen_nonneg enc); lia].
  specialize (H ltac:(done) []). by destruct (levels depth).
Qed.

Lemma to_int64_range z : - 2 ^ 63 <= z <= 2 ^ 63 -> in_i64 (to_int64 z).
Proof. unfold to_int64. intros. destruct (Z.ltb_spec z (2 ^ 63)); [unfold in_i64; lia|apply int64_of_2p63_range]. Qed.

Lemma read_int l i rest :
  in_i64 i -> read_levels (S l) ((byte_of jInt :: le_bytes 8 (u64 i)) ++ rest) = Ok (AInt i, 9).
Proof.
  intros Hi. cbn [read_levels app]. change (byte_val (byte_of jInt)) with 3. cbn [Z.eqb Pos.eqb jNull jFalse jTrue jInt].
  rewrite zlen_cons, zlen_app, zlen_le_bytes. rewrite (proj2 (Z.ltb_ge _ _)) by zlia.
  change (?b :: le_bytes 8 (u64 i) ++ rest) with ([b] ++ le_bytes 8 (u64 i) ++ rest).
  rewrite slice_at by (rewrite ?zlen_le_bytes; done).
  rewrite le_val_le_bytes. change (256 ^ Z.of_nat 8) with (2 ^ 64). fold (u64 (u64 i)).
  rewrite (u64_small (u64 i)) by auto with runnel. by rewrite i64_of_u64.
Qed.

Lemma read_float l x rest :
  in_u64 x -> read_levels (S l) ((byte_of jFloat :: le_bytes 8 (u64 x)) ++ rest) = Ok (AFloat x, 9).
Proof.
  intros Hi. cbn [read_levels app]. change (byte_val (byte_of jFloat)) with 4. cbn [Z.eqb Pos.eqb jNull jFalse jTrue jInt jFloat].
  rewrite zlen_cons, zlen_app, zlen_le_bytes. rewrite (proj2 (Z.ltb_ge _ _)) by zlia.
  change (?b :: le_bytes 8 (u64 x) ++ rest) with ([b] ++ le_bytes 8 (u64 x) ++ rest).
  rewrite slice_at by (rewrite ?zlen_le_bytes; done).
  rewrite le_val_le_bytes. change (256 ^ Z.of_nat 8) with (2 ^ 64). fold (u64 (u64 x)).
  by rewrite !u64_small by auto with runnel.
Qed.

Lemma zlen_tag8 tag z : zlen (byte_of tag :: le_bytes 8 z) = 9.
Proof. by rewrite zlen_cons, zlen_le_bytes. Qed.

Lemma zlen_tag4 tag z : zlen (byte_of tag :: le_bytes 4 z) = 5.
Proof. by rewrite zlen_cons, zlen_le_bytes. Qed.

(** The count after a tag. *)
Lemma read_count tag n body :
  0 <= n < 2 ^ 32 ->
  let data := (byte_of tag :: le_bytes 4 (u32 n)) ++ body in
  zlen data <? 5 = false /\ le_val (slice data 1 5) = n.
Proof.
  intros Hn. cbv zeta. split.
  - rewrite zlen_app, zlen_tag4. apply Z.ltb_ge. zlia.
  - change ((byte_of tag :: le_bytes 4 (u32 n)) ++ body) with ([byte_of tag] ++ le_bytes 4 (u32 n) ++ body).
    rewrite slice_at by (rewrite ?zlen_le_bytes; done). by apply le_val_u32.
Qed.

Lemma elements_ok depth xs :
  Forall (appends (depth + 1)) xs ->
  forall out out', append_elements (fun out el => appendJSONBin out el (depth + 1)) out xs = Ok out' ->
  exists enc, out' = out ++ enc /\ zlen xs <= zlen enc /\
    (zlen enc < 2 ^ 32 -> forall pre rest,
      read_elements (read_levels (levels (depth + 1))) (length xs) (pre ++ enc ++ rest) (zlen pre) =
      Ok (map norm xs, zlen pre + zlen enc)).
Proof.
  induction 1 as [|x xs Hx _ IH]; intros out out'; cbn [append_elements].
  { intros [= <-]. exists []. split; [by rewrite app_nil_r|]. split; [done|]. intros _ pre rest. cbn. by rewrite Z.add_0_r. }
  destruct (appendJSONBin out x (depth + 1)) as [out1|] eqn:E; [|done]. cbn [rbind]. intros E'.
  destruct (Hx _ _ E) as (e1 & -> & Hr1). destruct (IH _ _ E') as (e2 & -> & Hl & Hr2).
  exists (e1 ++ e2). split; [by rewrite app_assoc|]. pose proof (reads_nonempty _ _ _ Hr1).
  rewrite zlen_app, zlen_cons. split; [lia|]. intros Hlt pre rest. pose proof (zlen_nonneg e2).
  cbn [length read_elements map]. rewrite drop_at by done. rewrite <- app_assoc, Hr1 by lia. cbn [rbind].
  rewrite (app_assoc pre), <- zlen_app, Hr2 by lia. cbn [rbind]. rewrite zlen_app. do 2 f_equal. lia.
Qed.

Lemma members_ok depth kvs ks :
  (forall k v, obj_get k kvs = Some v -> appends (depth + 1) v) -> StronglySorted bytes_lt ks ->
  let encoders := map (fun kv => (fst kv, fun out => appendJSONBin out (snd kv) (depth + 1))) kvs in
  let kvs' := map (fun kv => (fst kv, norm (snd kv))) kvs in
  forall out out', append_members encoders out ks = Ok out' ->
  exists enc, out' = out ++ enc /\ zlen ks <= zlen enc /\
    (zlen enc < 2 ^ 32 -> forall pre rest obj, Forall (fun kv => Forall (bytes_lt (fst kv)) ks) obj ->
      read_members (read_levels (levels (depth + 1))) (length ks) (pre ++ enc ++ rest) (zlen pre) obj =
      Ok (obj ++ omap (fun k => pair k <$> obj_get k kvs') ks, zlen pre + zlen enc)).
Proof.
  intros Hkvs Hs. cbv zeta. induction Hs as [|k ks Hs IH Hk]; intros out out'; cbn [append_members].
  { intros [= <-]. exists []. split; [by rewrite app_nil_r|]. split; [done|]. intros _ pre rest obj _. cbn.
    by rewrite Z.add_0_r, app_nil_r. }
  rewrite (obj_get_map (fun v out => appendJSONBin out v (depth + 1))).
  destruct (obj_get k kvs) as [v|] eqn:Ev; [|done]. cbn [fmap option_fmap option_map].
  destruct (appendJSONBin _ v (depth + 1)) as [out1|] eqn:E; [|done]. cbn [rbind]. intros E'.
  destruct (Hkvs _ _ Ev _ _ E) as (e1 & -> & Hr1). destruct (IH _ _ E') as (e2 & -> & Hl & Hr2).
  exists (le_bytes 4 (u32 (zlen k)) ++ k ++ e1 ++ e2). split; [by rewrite <- !app_assoc|].
  pose proof (reads_nonempty _ _ _ Hr1). zlen_facts.
  rewrite !zlen_app, zlen_cons, zlen_le_bytes. split; [lia|]. intros Hlt pre rest obj Hobj.
  cbn [length read_members omap list_omap]. rewrite (obj_get_map norm), Ev. cbn [fmap option_fmap option_map].
  pose proof (zlen_nonneg rest). pose proof (zlen_nonneg pre).
  rewrite (proj2 (Z.ltb_ge _ _)) by (rewrite !zlen_app, zlen_le_bytes; lia).
  rewrite <- (app_assoc (le_bytes 4 (u32 (zlen k)))), (slice_at pre) by (rewrite ?zlen_le_bytes; done).
  rewrite le_val_u32 by lia. rewrite (app_assoc pre), <- (app_assoc k).
  assert (zlen (pre ++ le_bytes 4 (u32 (zlen k))) = zlen pre + 4) as Hp by (rewrite zlen_app, zlen_le_bytes; lia).
  rewrite (proj2 (Z.ltb_ge _ _)) by (rewrite !zlen_app, zlen_le_bytes; lia).
  rewrite (slice_at _ k) by done. rewrite (app_assoc _ k). rewrite obj_get_below.
  2:{ eapply Forall_impl; [exact Hobj|]. intros kv Hkv. by apply Forall_inv in Hkv. }
  rewrite drop_at by (rewrite zlen_app, Hp; done). rewrite <- app_assoc, Hr1 by lia. cbn [rbind].
  rewrite (app_assoc _ e1). set (pre' := ((pre ++ le_bytes 4 (u32 (zlen k))) ++ k) ++ e1).
  replace (zlen pre + 4 + zlen k + zlen e1) with (zlen pre') by (unfold pre'; rewrite !zlen_app, zlen_le_bytes; lia).
  rewrite obj_set_last.
  2:{ eapply Forall_impl; [exact Hobj|]. intros kv Hkv. by apply Forall_inv in Hkv. }
  rewrite Hr2; [|lia|].
  - rewrite <- app_assoc. do 2 f_equal. unfold pre'. rewrite !zlen_app, zlen_le_bytes. lia.
  - apply Forall_app. split; [|by repeat constructor].
    eapply Forall_impl; [exact Hobj|]. intros kv Hkv. by apply Forall_inv_tail in Hkv.
Qed.

Lemma append_ok v : json_wf v -> forall depth, appends depth v.
Proof.
  induction v as [|b|i|x|x|s|xs IH|kvs IH] using any_parts_ind; intros Hwf depth out out';
    cbn [appendJSONBin]; destruct (Z.ltb_spec jsonMaxDepth depth) as [|Hd]; try done;
    unfold reads; rewrite (levels_S depth) by done.
  - intros [= <-]. by eexists.
  - intros [= <-]. eexists. split; [done|]. by destruct b.
  - inversion Hwf; subst. cbn [norm]. destruct (float_in_int64 x) as [z|] eqn:E; intros [= <-];
      eexists; (split; [done|]); intros _ rest; rewrite zlen_tag8; [|by apply read_float].
    apply read_int, to_int64_range. unfold float_in_int64 in E. repeat case_match; simplify_eq. to_prop. lia.
  - cbn [norm]. destruct (parseInt x) as [i|] eqn:E.
    + intros [= <-]. eexists. split; [done|]. intros _ rest. rewrite zlen_tag8. by eapply read_int, parseInt_range.
    + destruct (parseFloat x) as [f|] eqn:Ef; [|done]. intros [= <-]. eexists. split; [done|].
      intros _ rest. rewrite zlen_tag8. by eapply read_float, parseFloat_bits.
  - intros [= <-]. unfold put_tag4. rewrite <- app_assoc. eexists. split; [done|]. intros Hlt rest.
    rewrite zlen_app, zlen_tag4 in *. pose proof (zlen_nonneg s). pose proof (zlen_nonneg rest).
    destruct (read_count jString (zlen s) (s ++ rest)) as [Hc1 Hc2]; [lia|]. rewrite <- app_assoc.
    cbn [read_levels app]. change (byte_val (byte_of jString)) with 5. cbn [Z.eqb Pos.eqb jNull jFalse jTrue jInt jFloat jString].
    cbn [app] in Hc1, Hc2. rewrite Hc1, Hc2.
    change (?b :: le_bytes 4 (u32 (zlen s)) ++ s ++ rest) with ((b :: le_bytes 4 (u32 (zlen s))) ++ s ++ rest).
    rewrite (proj2 (Z.ltb_ge _ _)) by (rewrite !zlen_app, zlen_tag4; lia).
    by rewrite slice_at by (by rewrite ?zlen_tag4).
  - inversion Hwf as [| | | | | |? Hxs|]; subst. intros E.
    assert (Forall (appends (depth + 1)) xs) as Ha.
    { rewrite Forall_forall in *. intros x Hx. apply IH; auto. }
    destruct (elements_ok depth xs Ha _ _ E) as (enc & -> & Hl & Hr). unfold put_tag4. rewrite <- app_assoc.
    eexists. split; [done|]. intros Hlt rest. rewrite zlen_app, zlen_tag4 in *. pose proof (zlen_nonneg xs).
    destruct (read_count jArray (zlen xs) (enc ++ rest)) as [Hc1 Hc2]; [lia|]. rewrite <- app_assoc.
    specialize (Hr ltac:(lia) (byte_of jArray :: le_bytes 4 (u32 (zlen xs))) rest). rewrite zlen_tag4 in Hr.
    cbn [read_levels app] in *. change (byte_val (byte_of jArray)) with 6.
    cbn [Z.eqb Pos.eqb jNull jFalse jTrue jInt jFloat jString jArray].
    rewrite Hc1, Hc2, to_nat_zlen, Hr. done.
  - inversion Hwf as [| | | | | | |? Hnd Hkvs]; subst. intros E.
    assert (forall k v, obj_get k kvs = Some v -> appends (depth + 1) v) as Ha.
    { intros k v Hk%obj_get_elem. rewrite Forall_forall in *. apply (IH _ Hk), (Hkvs _ Hk). }
    destruct (members_ok depth kvs _ Ha (strict_sorted _ Hnd) _ _ E) as (enc & -> & Hl & Hr).
    unfold put_tag4. rewrite <- app_assoc. set (ks := sort_strings (fst <$> kvs)) in *.
    eexists. split; [done|]. intros Hlt rest. rewrite zlen_app, zlen_tag4 in *. pose proof (zlen_nonneg ks).
    destruct (read_count jObject (zlen ks) (enc ++ rest)) as [Hc1 Hc2]; [lia|]. rewrite <- app_assoc.
    specialize (Hr ltac:(lia) (byte_of jObject :: le_bytes 4 (u32 (zlen ks))) rest [] ltac:(constructor)). rewrite zlen_tag4 in Hr.
    cbn [read_levels app] in *. change (byte_val (byte_of jObject)) with 7.
    cbn [Z.eqb Pos.eqb jNull jFalse jTrue jInt jFloat jString jArray jObject].
    rewrite Hc1, Hc2, to_nat_zlen, Hr. done.
Qed.
End roundtrip.

(** * Lemmas on paths *)

Definition join_dots (segs : list bytes) : bytes :=
  match segs with
  | [] => []
  | s :: segs => s ++ (segs ≫= cons Byte.x2e)
  end.

Lemma split_dots_plain s : Byte.x2e ∉ s -> split_dots s = [s].
Proof.
  induction s as [|b s IH]; intros Hs; [done|]. cbn [split_dots]. rewrite bool_decide_false by set_solver.
  rewrite IH by set_solver. done.
Qed.

Lemma split_dots_app s t : Byte.x2e ∉ s -> split_dots (s ++ Byte.x2e :: t) = s :: split_dots t.
Proof.
  induction s as [|b s IH]; intros Hs; [done|]. cbn [split_dots app]. rewrite bool_decide_false by set_solver.
  rewrite IH by set_solver. done.
Qed.

Lemma split_join_dots segs : segs <> [] -> Forall (fun s => Byte.x2e ∉ s) segs -> split_dots (join_dots segs) = segs.
Proof.
  intros Hne Hf. destruct Hf as [|s segs Hs Hf]; [done|]. clear Hne. cbn [join_dots].
  revert s Hs. induction Hf as [|s' segs Hs' Hf IH]; intros s Hs.
  - cbn. rewrite app_nil_r. by apply split_dots_plain.
  - rewrite bind_cons. cbn [app]. rewrite split_dots_app by done. f_equal. by apply IH.
Qed.

Section path_lemmas.
Context `{Unicode}.

(** An identifier has no ASCII byte but letters, digits and underscores. *)
Lemma ident_bytes s b : isJSONIdent s = true -> b ∈ s -> byte_val b < 0x80 -> ident_part (byte_val b) = true.
Proof.
  intros Hs Hb Ha. pose proof (runes_from_ascii 0 s b (Forall_nil_2 _) Hb Ha) as Hr. fold (runes s) in Hr.
  unfold isJSONIdent in Hs. destruct (runes s) as [|r rs]; [done|]. apply andb_true_iff in Hs as [H1 H2].
  apply elem_of_cons in Hr as [<-|Hr].
  - unfold ident_start, ident_part in *. cbn [fst] in H1. by rewrite H1.
  - rewrite forallb_forall in H2. apply (H2 (byte_val b, 1%nat)). by apply list_elem_of_In.
Qed.

Lemma ident_excludes s b :
  isJSONIdent s = true -> byte_val b < 0x80 ->
  (byte_val b =? 95) || ascii_letter (byte_val b) || ascii_digit (byte_val b) = false -> b ∉ s.
Proof.
  intros Hs Ha Hb Hin. pose proof (ident_bytes s b Hs Hin Ha) as Hp. unfold ident_part in Hp.
  pose proof (byte_val_range b). rewrite isLetter_ascii, isDigit_latin1 in Hp by lia. congruence.
Qed.

Lemma check_parts_ok segs : Forall (fun s => isJSONIdent s = true) segs -> check_parts segs = Ok tt.
Proof.
  induction 1 as [|s segs Hs _ IH]; [done|]. cbn [check_parts]. rewrite Hs.
  rewrite bool_decide_false by (intros ->; done). cbn [negb orb].
  assert (has_wildcard s = false) as ->; [|done]. unfold has_wildcard. apply not_true_is_false.
  rewrite existsb_exists. intros (b & Hb%list_elem_of_In & Hw). apply bool_decide_eq_true_1 in Hw.
  assert (b = Byte.x5b \/ b = Byte.x5d \/ b = Byte.x2a) as Hc by (vm_compute in Hw; set_solver).
  by destruct Hc as [-> | [-> | ->]]; revert Hb; apply ident_excludes.
Qed.

Lemma parse_path segs :
  segs <> [] -> Forall (fun s => isJSONIdent s = true) segs -> parseJSONPath (lit "$." ++ join_dots segs) = Ok segs.
Proof.
  intros Hne Hf. unfold parseJSONPath. change (has_prefix (lit "$." ++ join_dots segs) (lit "$")) with true.
  rewrite bool_decide_false by done. rewrite has_prefix_self. rewrite drop_app_length' by done. cbn [negb].
  assert (join_dots segs <> []) as Hj.
  { destruct Hf as [|s segs Hs _]; [done|]. cbn [join_dots]. destruct s; [|done]. done. }
  rewrite bool_decide_false by done. rewrite split_join_dots; [|done|].
  - by rewrite check_parts_ok.
  - eapply Forall_impl; [exact Hf|]. intros s Hs. cbn in Hs. by apply ident_excludes.
Qed.

End path_lemmas.

Lemma obj_get_omap {A} k ks (f : bytes -> option A) :
  obj_get k (omap (fun k => pair k <$> f k) ks) = if bool_decide (k ∈ ks) then f k else None.
Proof.
  induction ks as [|k' ks IH]; cbn [omap list_omap]; [done|].
  destruct (decide (k = k')) as [<-|Hne].
  - rewrite (bool_decide_true (k ∈ k :: ks)) by (by left). destruct (f k) eqn:E; cbn; [by rewrite bool_decide_true|].
    rewrite IH. by case_bool_decide.
  - rewrite (bool_decide_ext (k ∈ k' :: ks) (k ∈ ks)) by set_solver.
    destruct (f k'); cbn; [by rewrite bool_decide_false|done].
Qed.

(** Walking the normalised document is walking the document. *)
Lemma walk_norm `{GoJson} segs v : walk segs (norm v) = norm <$> walk segs v.
Proof.
  revert v. induction segs as [|seg segs IH]; intros v; [done|]. destruct v as [|b|i|x|x|s|xs|kvs]; cbn [walk norm]; try done.
  - by destruct (float_in_int64 x).
  - destruct (parseInt x); [done|]. by destruct (parseFloat x).
  - rewrite obj_get_omap, (obj_get_map norm). case_bool_decide as Hk.
    + destruct (obj_get seg kvs); [apply IH|done].
    + destruct (obj_get seg kvs) eqn:E; [|done]. exfalso. apply Hk. rewrite sort_strings_perm.
      apply obj_get_elem in E. change seg with (fst (seg, a)). by apply list_elem_of_fmap_2.
Qed.

(** * The depth limit *)

Definition is_ok {A} (r : res A) : Prop := match r with Ok _ => True | Err _ => False end.

(** Levels of nesting below a value. *)
Fixpoint nesting (v : any) : Z :=
  match v with
  | AArray xs => foldr (fun x h => Z.max (1 + nesting x) h) 0 xs
  | AObject kvs => foldr (fun kv h => Z.max (1 + nesting (snd kv)) h) 0 kvs
  | _ => 0
  end.

Lemma Forall_iff_elem {A} (P Q : A -> Prop) l : (forall x, x ∈ l -> P x <-> Q x) -> Forall P l <-> Forall Q l.
Proof. intros H. rewrite !Forall_forall. split; intros Hf x Hx; apply (H x Hx), Hf, Hx. Qed.

Lemma max_le {A} (f : A -> Z) l d : 0 <= d ->
  foldr (fun x h => Z.max (1 + f x) h) 0 l <= d <-> Forall (fun x => 1 + f x <= d) l.
Proof.
  intros Hd. induction l as [|x l IH]; cbn [foldr]; [split; [constructor|done]|].
  rewrite Forall_cons, <- IH. lia.
Qed.

Lemma elements_ok_iff (append : bytes -> any -> res bytes) out xs :
  (forall out x, x ∈ xs -> is_ok (append out x) <-> is_ok (append [] x)) ->
  is_ok (append_elements append out xs) <-> Forall (fun x => is_ok (append [] x)) xs.
Proof.
  revert out. induction xs as [|x xs IH]; intros out Ha; cbn [append_elements]; [split; [constructor|done]|].
  rewrite Forall_cons, <- (Ha out x) by (by left). destruct (append out x) as [out'|]; cbn [rbind is_ok].
  - rewrite (IH out'); [tauto|]. intros. apply Ha. by right.
  - tauto.
Qed.

Lemma members_ok_iff (kvs : list (bytes * any)) (append : bytes -> any -> res bytes) out ks :
  (forall out k v, obj_get k kvs = Some v -> is_ok (append out v) <-> is_ok (append [] v)) ->
  is_ok (append_members (map (fun kv => (fst kv, fun out => append out (snd kv))) kvs) out ks) <->
  Forall (fun k => exists v, obj_get k kvs = Some v /\ is_ok (append [] v)) ks.
Proof.
  intros Ha. revert out. induction ks as [|k ks IH]; intros out; cbn [append_members]; [split; [constructor|done]|].
  rewrite Forall_cons, (obj_get_map (fun v out => append out v)).
  destruct (obj_get k kvs) as [v|] eqn:Ek; cbn [fmap option_fmap option_map rbind].
  2:{ split; [done|]. by intros [(v & [=] & _) _]. }
  rewrite <- (IH (match append (out ++ le_bytes 4 (u32 (zlen k)) ++ k) v with Ok o => o | Err _ => [] end)).
  pose proof (Ha (out ++ le_bytes 4 (u32 (zlen k)) ++ k) k v Ek) as Hv.
  destruct (append (out ++ le_bytes 4 (u32 (zlen k)) ++ k) v) as [o|]; cbn [rbind is_ok] in *; split; try naive_solver.
Qed.

Lemma nodup_obj_get {A} k (v : A) kvs : NoDup (fst <$> kvs) -> (k, v) ∈ kvs -> obj_get k kvs = Some v.
Proof.
  induction kvs as [|[k' v'] kvs IH]; intros Hn Hin; [by apply elem_of_nil in Hin|]. cbn in *.
  apply NoDup_cons in Hn as [Hk Hn]. apply elem_of_cons in Hin as [[= <- <-]|Hin]; [by rewrite bool_decide_true|].
  rewrite bool_decide_false; [by apply IH|]. intros ->. apply Hk. change k' with (fst (k', v)). by apply list_elem_of_fmap_2.
Qed.

Lemma nesting_nonneg v : 0 <= nesting v.
Proof. destruct v as [| | | | | |xs|kvs]; cbn [nesting]; try done; [induction xs|induction kvs]; cbn [foldr]; lia. Qed.

Section depth.
Context `{J : GoJson}.

(** What the text decoder returns and strconv can parse: no int64, no number out of range. *)
Fixpoint encodable (v : any) : bool :=
  match v with
  | AInt _ => false
  | ANumber x => match parseInt x, parseFloat x with None, None => false | _, _ => true end
  | AArray xs => forallb encodable xs
  | AObject kvs => forallb (fun kv => encodable (snd kv)) kvs
  | _ => true
  end.

(** Whether a value is encoded does not depend on what is in front of it. *)
Lemma append_out v : forall depth out, is_ok (appendJSONBin out v depth) <-> is_ok (appendJSONBin [] v depth).
Proof.
  induction v as [|b|i|x|x|s|xs IH|kvs IH] using any_parts_ind; intros depth out; cbn [appendJSONBin];
    (destruct (jsonMaxDepth <? depth); [reflexivity|]).
  - reflexivity.
  - reflexivity.
  - reflexivity.
  - destruct (float_in_int64 x); reflexivity.
  - destruct (parseInt x); [reflexivity|]. destruct (parseFloat x); reflexivity.
  - reflexivity.
  - rewrite !(elements_ok_iff (fun out el => appendJSONBin out el (depth + 1))); [reflexivity|..];
      intros o x Hx; rewrite Forall_forall in IH; apply (IH x Hx).
  - rewrite !(members_ok_iff kvs (fun out v => appendJSONBin out v (depth + 1))); [reflexivity|..];
      intros o k v Hk%obj_get_elem; rewrite Forall_forall in IH; apply (IH _ Hk).
Qed.

Lemma append_depth v : json_wf v -> encodable v = true ->
  forall depth, is_ok (appendJSONBin [] v depth) <-> depth + nesting v <= jsonMaxDepth.
Proof.
  induction v as [|b|i|x|x|s|xs IH|kvs IH] using any_parts_ind; intros Hwf He depth; cbn [appendJSONBin];
    match goal with |- context [nesting ?v] => pose proof (nesting_nonneg v) end;
    (destruct (Z.ltb_spec jsonMaxDepth depth) as [|Hd]; [cbn [is_ok]; split; [intros []|lia]|]).
  - cbn [is_ok nesting]. lia.
  - cbn [is_ok nesting]. lia.
  - discriminate He.
  - cbn [nesting]. destruct (float_in_int64 x); cbn; lia.
  - cbn [nesting encodable] in *. destruct (parseInt x); [cbn; lia|]. destruct (parseFloat x); [cbn; lia|done].
  - cbn [is_ok nesting]. lia.
  - rewrite (elements_ok_iff (fun out el => appendJSONBin out el (depth + 1))) by (intros; apply append_out).
    cbn [nesting encodable] in *. rewrite forallb_forall in He. inversion Hwf as [| | | | | |? Hxs|]; subst.
    transitivity (foldr (fun x h => Z.max (1 + nesting x) h) 0 xs <= jsonMaxDepth - depth); [|lia].
    rewrite max_le by lia. apply Forall_iff_elem. intros x Hx. rewrite Forall_forall in IH, Hxs.
    rewrite (IH x Hx (Hxs x Hx)) by (apply He; by apply list_elem_of_In). lia.
  - rewrite (members_ok_iff kvs (fun out v => appendJSONBin out v (depth + 1))) by (intros; apply append_out).
    cbn [nesting encodable] in *. rewrite forallb_forall in He. inversion Hwf as [| | | | | | |? Hnd Hkvs]; subst.
    transitivity (foldr (fun kv h => Z.max (1 + nesting (snd kv)) h) 0 kvs <= jsonMaxDepth - depth); [|lia].
    rewrite (max_le (fun kv => nesting (snd kv))) by lia. rewrite sort_strings_perm, Forall_fmap.
    apply Forall_iff_elem. intros [k x] Hx. rewrite Forall_forall in IH, Hkvs. cbn [fst snd compose].
    rewrite (nodup_obj_get k x) by done. pose proof (IH _ Hx (Hkvs _ Hx)) as IHx. cbn [snd] in IHx.
    split.
    + intros (v & [= <-] & Hok). apply IHx in Hok; [lia|]. apply (He (k, x)). by apply list_elem_of_In.
    + intros Hle. exists x. split; [done|]. apply IHx; [apply (He (k, x)); by apply list_elem_of_In|lia].
Qed.
End depth.

(** * Theorems *)

Section theorems.
Context `{J : GoJson}.

(** What is stored of a text. *)
Lemma encodeJSON_read text bin :
  encodeJSON text = Ok bin -> zlen bin < 2 ^ 32 ->
  exists v, decodeText text = Some v /\ readJSONBin bin 0 = Ok (norm v, zlen bin).
Proof.
  unfold encodeJSON. destruct (decodeText text) as [v|] eqn:Et; [|done]. intros E Hl. exists v. split; [done|].
  destruct (append_ok v (decodeText_wf _ _ Et) 0 _ _ E) as (enc & -> & Hr). cbn [app] in *.
  specialize (Hr Hl []). by rewrite app_nil_r in Hr.
Qed.

(** C26.  Binary JSON is a faithful store: a text that encodes (to less than 4
    GiB) decodes to the document the text denotes, with numbers read as int64
    where they are one and as float64 otherwise, and objects in key order;
    nothing is left over and nothing depends on the order of map iteration. *)
Theorem jsonbin_roundtrip text bin :
  encodeJSON text = Ok bin -> zlen bin < 2 ^ 32 ->
  exists v, decodeText text = Some v /\ decodeJSON bin = Ok (norm v).
Proof.
  intros E Hl. destruct (encodeJSON_read text bin E Hl) as (v & Hv & Hr). exists v. split; [done|].
  unfold decodeJSON. rewrite Hr. cbn [rbind]. by rewrite Z.eqb_refl.
Qed.

(** C27.  The nesting limit is exact: a text whose numbers are in range encodes
    if and only if its document nests at most 32 levels deep. *)
Theorem json_depth_limit text v :
  decodeText text = Some v -> encodable v = true -> is_ok (encodeJSON text) <-> nesting v <= jsonMaxDepth.
Proof. intros Ht He. unfold encodeJSON. rewrite Ht, append_depth by (done || by eapply decodeText_wf). lia. Qed.

(** JSON_EXTRACT follows the path: on a stored document, a path of
    identifiers [$.a.b] returns the SQL value of what the document holds under
    these keys, and "absent" exactly when some step is not an object with that
    key. *)
Theorem jsonExtract_path `{Unicode} text bin segs :
  encodeJSON text = Ok bin -> zlen bin < 2 ^ 32 ->
  segs <> [] -> Forall (fun s => isJSONIdent s = true) segs ->
  exists v, decodeText text = Some v /\
  jsonExtract bin (lit "$." ++ join_dots segs) =
  match walk segs v with
  | None => Ok (zeroValue, false)
  | Some cur => jsonLeafToValue (norm cur)
  end.
Proof.
  intros E Hl Hne Hs. destruct (encodeJSON_read text bin E Hl) as (v & Hv & Hr). exists v. split; [done|].
  unfold jsonExtract. rewrite parse_path by done. cbn [rbind]. rewrite Hr. cbn [rbind]. rewrite walk_norm.
  by destruct (walk segs v).
Qed.

(** The float64 2^63 (what the number 9223372036854775808 is stored as)
    passes the int64 range test, because MaxInt64 rounds up to 2^63 as a
    float64: it is extracted as an INTEGER whose value the language does not
    define (the minimum int64 on common hardware), while every other integral
    float64 in the range is extracted as itself. *)
Theorem leaf_2p63 bits :
  jsonLeafToValue (AFloat 0x43E0000000000000) = Ok (IntValue int64_of_2p63, true) /\
  (forall z, float_integer bits = Some z -> in_i64 z -> jsonLeafToValue (AFloat bits) = Ok (IntValue z, true)).
Proof.
  split; [done|]. intros z Hz Hr. unfold jsonLeafToValue, float_in_int64, to_int64, in_i64 in *. rewrite Hz.
  rewrite !(proj2 (Z.leb_le _ _)) by lia. cbn [andb]. by rewrite (proj2 (Z.ltb_lt _ _)) by lia.
Qed.

End theorems.

(** * An instance *)

(** A text, written with single quotes for double ones, and the document it denotes. *)
Definition with_quotes (s : bytes) : bytes := (fun b => if bool_decide (b = Byte.x27) then Byte.x22 else b) <$> s.

Definition demo_text : bytes := with_quotes (lit "{'name':'ada','age':36,'meta':{'ok':true,'l':[null,3.5]}}").

Definition demo_doc : any :=
  AObject [(lit "name", AString (lit "ada")); (lit "age", ANumber (lit "36"));
           (lit "meta", AObject [(lit "ok", ABool true); (lit "l", AArray [ANil; ANumber (lit "3.5")])])].

Lemma demo_doc_wf : json_wf demo_doc.
Proof. repeat (constructor || (apply (bool_decide_unpack _); vm_compute; exact I)). Qed.

(** The standard library, cut down to what the example needs. *)
#[refine] Instance demo_json : GoJson := {|
  parseFloat s := if bool_decide (s = lit "3.5") then Some 0x400C000000000000 else None;
  int64_of_2p63 := - 2 ^ 63;
  formatFloat _ := lit "3.5";
  marshalJSON _ := Some (lit "null");
  decodeText t := if bool_decide (t = demo_text) then Some demo_doc else None;
|}.
Proof.
  - intros s b. case_bool_decide; [|done]. intros [= <-]. unfold in_u64. lia.
  - unfold in_i64. lia.
  - intros t v. case_bool_decide; [|done]. intros [= <-]. exact demo_doc_wf.
Defined.

(** The encoding of the example. *)
Definition demo_bin : bytes := match encodeJSON demo_text with Ok b => b | Err _ => [] end.

Lemma jsonbin_roundtrip_witness :
  exists v, decodeText demo_text = Some v /\ decodeJSON demo_bin = Ok (norm v).
Proof. apply (jsonbin_roundtrip demo_text demo_bin); vm_compute; reflexivity. Defined.

Lemma json_depth_limit_witness : is_ok (encodeJSON demo_text) <-> nesting demo_doc <= jsonMaxDepth.
Proof. apply (json_depth_limit demo_text demo_doc); vm_compute; reflexivity. Defined.

Lemma jsonExtract_path_witness :
  exists v, decodeText demo_text = Some v /\
  jsonExtract demo_bin (lit "$.meta.ok") =
  match walk [lit "meta"; lit "ok"] v with
  | None => Ok (zeroValue, false)
  | Some cur => jsonLeafToValue (norm cur)
  end.
Proof.
  apply (jsonExtract_path demo_text demo_bin [lit "meta"; lit "ok"]); try (vm_compute; reflexivity); [discriminate|].
  repeat constructor; vm_compute; reflexivity.
Defined.

Lemma leaf_2p63_witness : jsonLeafToValue (AFloat 0x4000000000000000) = Ok (IntValue 2, true).
Proof.
  destruct (leaf_2p63 0x4000000000000000) as [_ H].
  apply (H 2); [vm_compute; reflexivity|unfold in_i64; lia].
Defined.
