(* ===== verification/SqlLex.v ===== *)
(** The SQL lexer (sql_lex.go): tokens over the runes of the statement text.

    Positions are byte offsets.  The loops take fuel; each turn consumes at
    least one byte, so the length of the text is enough. *)

From S2P Require Import Prelude Utf8 Unicode Strconv Keys.

(** * Tokens *)

Inductive tokenKind :=
  | tokEOF
  | tokIdent
  | tokNumber
  | tokString
  | tokBlob
  | tokParam
  | tokComma
  | tokSemi
  | tokLParen
  | tokRParen
  | tokStar
  | tokEq
  | tokKeyword.

#[export] Instance tokenKind_eq_dec : EqDecision tokenKind.
Proof. solve_decision. Defined.

Record token := mkTok { kind : tokenKind; tok_lit : bytes; tok_pos : nat; kw : bytes }.

Record lexer := mkLexer { lx_src : bytes; lx_i : nat; lx_pos : nat }.

Definition newLexer (src : bytes) : lexer := mkLexer src 0 0.

Definition keywords : list bytes :=
  [lit "CREATE"; lit "TABLE"; lit "DROP"; lit "INSERT"; lit "INTO"; lit "VALUES"; lit "SELECT"; lit "FROM";
   lit "UPDATE"; lit "SET"; lit "DELETE"; lit "WHERE"; lit "AND"; lit "PRIMARY"; lit "KEY";
   lit "INTEGER"; lit "TEXT"; lit "BLOB"; lit "JSON"; lit "NULL"; lit "INDEX"; lit "ON"; lit "PATH"; lit "JSON_EXTRACT"].

Definition isKeyword (s : bytes) : bool := bool_decide (s ∈ keywords).

Definition quote_byte : byte := Byte.x27.

Section lexing.
Context `{U : Unicode}.

(** * Loops *)

Fixpoint skip_space (fuel : nat) (src : bytes) (i : nat) : nat :=
  match fuel with
  | O => i
  | S fuel =>
      if (i <? length src)%nat then
        let '(ch, w) := decodeRune (drop i src) in
        if negb (isSpace ch) then i else skip_space fuel src (i + w)
      else i
  end.

(** The text so far and the position after the closing quote. *)
Fixpoint string_loop (fuel : nat) (src : bytes) (i : nat) (b : bytes) : option (bytes * nat) :=
  match fuel with
  | O => None
  | S fuel =>
      if (i <? length src)%nat then
        let '(ch, w) := decodeRune (drop i src) in
        if ch =? 39 then
          if bool_decide (src !! S i = Some quote_byte)
          then string_loop fuel src (i + 2) (b ++ [quote_byte])
          else Some (b, (i + w)%nat)
        else string_loop fuel src (i + w) (b ++ encodeRune ch)
      else None
  end.

Fixpoint blob_loop (fuel : nat) (src : bytes) (i : nat) (hex : bytes) : option (bytes * nat) :=
  match fuel with
  | O => None
  | S fuel =>
      match src !! i with
      | Some ch => if bool_decide (ch = quote_byte) then Some (hex, S i) else blob_loop fuel src (S i) (hex ++ [ch])
      | None => None
      end
  end.

Fixpoint digits_loop (fuel : nat) (src : bytes) (i : nat) : nat :=
  match fuel with
  | O => i
  | S fuel =>
      match src !! i with
      | Some ch => if isDigit (byte_val ch) then digits_loop fuel src (S i) else i
      | None => i
      end
  end.

Definition ident_rune (ch : Z) : bool := (ch =? 95) || isLetter ch || isDigit ch.

Fixpoint ident_loop (fuel : nat) (src : bytes) (i : nat) : nat :=
  match fuel with
  | O => i
  | S fuel =>
      if (i <? length src)%nat then
        let '(ch, w) := decodeRune (drop i src) in
        if ident_rune ch then ident_loop fuel src (i + w) else i
      else i
  end.

(** [src[a:b]]. *)
Definition text_between (src : bytes) (a b : nat) : bytes := take (b - a) (drop a src).

Definition set_i (l : lexer) (i : nat) : lexer := mkLexer (lx_src l) i (lx_pos l).

Definition skipSpace (l : lexer) : lexer := set_i l (skip_space (length (lx_src l)) (lx_src l) (lx_i l)).

Definition lexString (l : lexer) (start : nat) : lexer * res token :=
  match string_loop (S (length (lx_src l))) (lx_src l) (S (lx_i l)) [] with
  | Some (b, i) => (set_i l i, Ok (mkTok tokString b start []))
  | None => (set_i l (length (lx_src l)), Err ErrSQL)
  end.

Definition lexBlob (l : lexer) (start : nat) : lexer * res token :=
  if negb (bool_decide (lx_src l !! lx_i l = Some quote_byte)) then (l, Err ErrSQL)
  else match blob_loop (S (length (lx_src l))) (lx_src l) (S (lx_i l)) [] with
       | Some (hex, i) => (set_i l i, Ok (mkTok tokBlob hex start []))
       | None => (set_i l (length (lx_src l)), Err ErrSQL)
       end.

Definition lexNumber (l : lexer) (start : nat) : lexer * res token :=
  let i := if bool_decide (lx_src l !! lx_i l = Some Byte.x2d) then S (lx_i l) else lx_i l in
  let i := digits_loop (length (lx_src l)) (lx_src l) i in
  (set_i l i, Ok (mkTok tokNumber (text_between (lx_src l) start i) start [])).

Definition lexIdent (l : lexer) (start : nat) : lexer * res token :=
  let i := ident_loop (length (lx_src l)) (lx_src l) (lx_i l) in
  let text := text_between (lx_src l) start i in
  let upper := toUpper text in
  (set_i l i,
   Ok (if isKeyword upper then mkTok tokKeyword text start upper else mkTok tokIdent text start [])).

(** A one-rune token. *)
Definition punct (ch : Z) : option (tokenKind * bytes) :=
  if ch =? 44 then Some (tokComma, lit ",")
  else if ch =? 59 then Some (tokSemi, lit ";")
  else if ch =? 40 then Some (tokLParen, lit "(")
  else if ch =? 41 then Some (tokRParen, lit ")")
  else if ch =? 42 then Some (tokStar, lit "*")
  else if ch =? 61 then Some (tokEq, lit "=")
  else if ch =? 63 then Some (tokParam, lit "?")
  else None.

Definition next (l : lexer) : lexer * res token :=
  let l := skipSpace l in
  if (length (lx_src l) <=? lx_i l)%nat then (l, Ok (mkTok tokEOF [] (lx_pos l) []))
  else
    let start := lx_i l in
    let l := mkLexer (lx_src l) (lx_i l) start in
    let '(ch, w) := decodeRune (drop (lx_i l) (lx_src l)) in
    match punct ch with
    | Some (k, s) => (set_i l (lx_i l + w), Ok (mkTok k s start []))
    | None =>
        if ch =? 39 then lexString l start
        else if ((ch =? 88) || (ch =? 120)) && bool_decide (lx_src l !! S (lx_i l) = Some quote_byte)
        then lexBlob (set_i l (S (lx_i l))) start
        else if (ch =? 45) || isDigit ch then lexNumber l start
        else if (ch =? 95) || isLetter ch then lexIdent l start
        else (l, Err ErrSQL)
    end.

(** * Printing tokens *)

(** The text of a string literal: every quote doubled. *)
Definition double_quotes (s : bytes) : bytes :=
  b ← s; if bool_decide (b = quote_byte) then [quote_byte; quote_byte] else [b].

Definition print_token (t : token) : bytes :=
  match kind t with
  | tokString => quote_byte :: double_quotes (tok_lit t) ++ [quote_byte]
  | tokBlob => Byte.x58 :: quote_byte :: tok_lit t ++ [quote_byte]
  | _ => tok_lit t
  end.

(** A space before every token. *)
Definition print_tokens (ts : list token) : bytes := t ← ts; Byte.x20 :: print_token t.

Definition ident_byte (b : byte) : bool :=
  (byte_val b =? 95) || ascii_letter (byte_val b) || ascii_digit (byte_val b).

(** An ASCII identifier: a letter or underscore, then letters, digits and underscores. *)
Definition ident_text (s : bytes) : bool :=
  match s with
  | [] => false
  | b :: s' => ((byte_val b =? 95) || ascii_letter (byte_val b)) && forallb ident_byte s'
  end.

(** An optional minus sign and digits. *)
Definition number_text (s : bytes) : bool :=
  match s with
  | [] => false
  | b :: s' => ((byte_val b =? 45) || ascii_digit (byte_val b)) && forallb (fun b => ascii_digit (byte_val b)) s'
  end.

(** The tokens that have a text: all but the end of input, with identifiers in ASCII. *)
Definition printable (t : token) : bool :=
  match kind t with
  | tokEOF => false
  | tokIdent => ident_text (tok_lit t) && negb (isKeyword (toUpper (tok_lit t))) && bool_decide (kw t = [])
  | tokKeyword => ident_text (tok_lit t) && isKeyword (toUpper (tok_lit t)) && bool_decide (kw t = toUpper (tok_lit t))
  | tokNumber => number_text (tok_lit t) && bool_decide (kw t = [])
  | tokString => utf8_valid (tok_lit t) && bool_decide (kw t = [])
  | tokBlob => forallb (fun b => negb (bool_decide (b = quote_byte))) (tok_lit t) && bool_decide (kw t = [])
  | k => match tok_lit t with
         | [b] => bool_decide (punct (byte_val b) = Some (k, [b])) && bool_decide (kw t = [])
         | _ => false
         end
  end.

(** The tokens with the positions they have in their printed form at [off]. *)
Fixpoint place (off : nat) (ts : list token) : list token :=
  match ts with
  | [] => []
  | t :: ts => mkTok (kind t) (tok_lit t) (S off) (kw t) :: place (S off + length (print_token t)) ts
  end.

(** All tokens up to the end of the input, as the parser reads them. *)
Fixpoint lex_all (fuel : nat) (l : lexer) : option (res (list token)) :=
  match fuel with
  | O => None
  | S fuel =>
      match next l with
      | (_, Err e) => Some (Err e)
      | (l', Ok t) =>
          if bool_decide (kind t = tokEOF) then Some (Ok [])
          else match lex_all fuel l' with
               | Some (Ok ts) => Some (Ok (t :: ts))
               | r => r
               end
      end
  end.

(** * The loops stay inside the text *)

Lemma decode_drop src i :
  (i < length src)%nat -> (1 <= snd (decodeRune (drop i src)) /\ i + snd (decodeRune (drop i src)) <= length src)%nat.
Proof.
  intros H. pose proof (decodeRune_width (drop i src)) as Hw. rewrite length_drop in Hw.
  destruct (drop i src) eqn:E; [|specialize (Hw ltac:(done)); lia].
  apply (f_equal length) in E. rewrite length_drop in E. simpl in E. lia.
Qed.

Lemma skip_space_bounds fuel src i :
  (i <= length src)%nat -> (i <= skip_space fuel src i <= length src)%nat.
Proof.
  revert i. induction fuel as [|fuel IH]; intros i Hi; cbn [skip_space]; [lia|].
  destruct (Nat.ltb_spec i (length src)) as [H|H]; [|lia]. pose proof (decode_drop src i H) as Hd.
  destruct (decodeRune (drop i src)) as [ch w]. cbn [snd] in Hd. case_match; [lia|]. specialize (IH (i + w)%nat). lia.
Qed.

Lemma ident_loop_bounds fuel src i :
  (i <= length src)%nat -> (i <= ident_loop fuel src i <= length src)%nat.
Proof.
  revert i. induction fuel as [|fuel IH]; intros i Hi; cbn [ident_loop]; [lia|].
  destruct (Nat.ltb_spec i (length src)) as [H|H]; [|lia]. pose proof (decode_drop src i H) as Hd.
  destruct (decodeRune (drop i src)) as [ch w]. cbn [snd] in Hd. case_match; [|lia]. specialize (IH (i + w)%nat). lia.
Qed.

Lemma digits_loop_bounds fuel src i :
  (i <= length src)%nat -> (i <= digits_loop fuel src i <= length src)%nat.
Proof.
  revert i. induction fuel as [|fuel IH]; intros i Hi; cbn [digits_loop]; [lia|].
  destruct (src !! i) eqn:E; [|lia]. apply lookup_lt_Some in E. case_match; [|lia]. specialize (IH (S i)). lia.
Qed.

Lemma string_loop_bounds fuel src i b s j :
  string_loop fuel src i b = Some (s, j) -> (i < j <= length src)%nat.
Proof.
  revert i b. induction fuel as [|fuel IH]; intros i b; cbn [string_loop]; [done|].
  destruct (Nat.ltb_spec i (length src)) as [H|H]; [|done]. pose proof (decode_drop src i H) as Hd.
  destruct (decodeRune (drop i src)) as [ch w]. cbn [snd] in Hd. repeat case_match.
  - intros Hs%IH. lia.
  - intros [= -> <-]. lia.
  - intros Hs%IH. lia.
Qed.

Lemma blob_loop_bounds fuel src i b s j :
  blob_loop fuel src i b = Some (s, j) -> (i < j <= length src)%nat.
Proof.
  revert i b. induction fuel as [|fuel IH]; intros i b; cbn [blob_loop]; [done|].
  destruct (src !! i) eqn:E; [|done]. apply lookup_lt_Some in E. case_match; [intros [= -> <-]; lia|].
  intros Hs%IH. lia.
Qed.

(** The first turn of a loop that is entered at a rune it accepts. *)
Lemma ident_loop_advances fuel src i :
  (i < length src)%nat -> ident_rune (fst (decodeRune (drop i src))) = true -> (i < ident_loop (S fuel) src i)%nat.
Proof.
  intros H Hr. cbn [ident_loop]. rewrite (proj2 (Nat.ltb_lt _ _) H). pose proof (decode_drop src i H) as Hd.
  destruct (decodeRune (drop i src)) as [ch w]. cbn [fst snd] in *. rewrite Hr.
  pose proof (ident_loop_bounds fuel src (i + w)). lia.
Qed.

(** * Progress *)

(** The token read from [start] by [next]: it ends inside the text and past its start. *)
Definition reads (l l' : lexer) (start : nat) (r : res token) : Prop :=
  lx_src l' = lx_src l /\ (start <= lx_i l' <= length (lx_src l))%nat /\
  match r with
  | Ok t => kind t <> tokEOF /\ tok_pos t = start /\ (start < lx_i l')%nat
  | Err e => e = ErrSQL
  end.

Lemma lexString_reads l :
  (lx_i l < length (lx_src l))%nat -> reads l (fst (lexString l (lx_i l))) (lx_i l) (snd (lexString l (lx_i l))).
Proof.
  intros H. unfold lexString. destruct (string_loop _ _ _ _) as [[b i]|] eqn:E.
  - apply string_loop_bounds in E. unfold reads. simpl. repeat split; [lia|lia|done|lia].
  - unfold reads. simpl. repeat split; lia.
Qed.

Lemma lexBlob_reads l start :
  (start < lx_i l <= length (lx_src l))%nat -> reads l (fst (lexBlob l start)) start (snd (lexBlob l start)).
Proof.
  intros H. unfold lexBlob. case_match; [unfold reads; simpl; repeat split; lia|].
  destruct (blob_loop _ _ _ _) as [[b i]|] eqn:E.
  - apply blob_loop_bounds in E. unfold reads. simpl. repeat split; [lia|lia|done|lia].
  - unfold reads. simpl. repeat split; lia.
Qed.

Lemma lexIdent_reads l :
  (lx_i l < length (lx_src l))%nat -> ident_rune (fst (decodeRune (drop (lx_i l) (lx_src l)))) = true ->
  reads l (fst (lexIdent l (lx_i l))) (lx_i l) (snd (lexIdent l (lx_i l))).
Proof.
  intros H Hr. unfold lexIdent. cbn [fst snd].
  pose proof (ident_loop_bounds (length (lx_src l)) (lx_src l) (lx_i l)) as Hb.
  assert (lx_i l < ident_loop (length (lx_src l)) (lx_src l) (lx_i l))%nat as Ha.
  { destruct (length (lx_src l)) as [|n] eqn:El; [lia|]. apply ident_loop_advances; [lia|done]. }
  unfold reads. cbn [lx_src lx_i set_i]. split; [done|]. split; [lia|]. by case_match.
Qed.

(** The byte at a position whose rune is an ASCII one. *)
Lemma lookup_drop_head (src : bytes) i b t : drop i src = b :: t -> src !! i = Some b.
Proof. intros H. by rewrite <- (Nat.add_0_r i), <- lookup_drop, H. Qed.

(** A non-ASCII digit: accepted by [next], not by [lexNumber], which reads bytes. *)
Definition stalls (l : lexer) (i : nat) : Prop :=
  let ch := fst (decodeRune (drop i (lx_src l))) in 0x80 <= ch /\ isDigit ch = true.

Lemma lexNumber_reads l :
  (lx_i l < length (lx_src l))%nat ->
  let ch := fst (decodeRune (drop (lx_i l) (lx_src l))) in ch = 45 \/ isDigit ch = true ->
  reads l (fst (lexNumber l (lx_i l))) (lx_i l) (snd (lexNumber l (lx_i l))) \/
  stalls l (lx_i l) /\ lexNumber l (lx_i l) = (l, Ok (mkTok tokNumber [] (lx_i l) [])).
Proof.
  intros H ch Hch. destruct (drop (lx_i l) (lx_src l)) as [|b t] eqn:Ed.
  { apply (f_equal length) in Ed. rewrite length_drop in Ed. simpl in Ed. lia. }
  pose proof (lookup_drop_head _ _ _ _ Ed) as Hl. pose proof (byte_val_range b) as Hr. unfold lexNumber. rewrite Hl.
  destruct (Z.ltb_spec (byte_val b) 0x80) as [Ha|Ha].
  - left. unfold ch in Hch. rewrite decodeRune_ascii in Hch by done. cbn [fst] in Hch.
    case_bool_decide as Eb; cbn [fst snd].
    + pose proof (digits_loop_bounds (length (lx_src l)) (lx_src l) (S (lx_i l))).
      unfold reads. simpl. repeat split; [lia|lia|done|lia].
    + assert (isDigit (byte_val b) = true) as Hd.
      { destruct Hch as [Hb|Hd]; [|done]. destruct Eb. f_equal. by apply (inj byte_val). }
      destruct (length (lx_src l)) as [|n] eqn:En; [lia|]. cbn [digits_loop]. rewrite Hl, Hd.
      pose proof (digits_loop_bounds n (lx_src l) (S (lx_i l))). unfold reads. simpl. repeat split; [lia|lia|done|lia].
  - right. assert (isDigit (byte_val b) = false) as Hd.
    { rewrite isDigit_latin1 by lia. unfold ascii_digit. lia. }
    rewrite bool_decide_false by (intros [= ->]; vm_compute in Ha; done).
    destruct (length (lx_src l)) as [|n] eqn:En; [lia|]. cbn [digits_loop]. rewrite Hl, Hd. unfold text_between.
    rewrite Nat.sub_diag. split; [|by destruct l]. unfold stalls. rewrite Ed. fold ch.
    assert (0x80 <= ch) as Hc by (by apply decodeRune_rune_high). split; [done|]. destruct Hch; [lia|done].
Qed.

Lemma punct_not_eof ch k s : punct ch = Some (k, s) -> k <> tokEOF.
Proof. unfold punct. intros H. repeat (case_match; [by simplify_eq|]). done. Qed.

(** The lexer makes progress: from a position inside the text, [next] ends
    inside it; its token starts at or after that position and is the end of
    input, exactly when only spaces are left, or ends past its start, with one
    exception: at a digit outside ASCII it gives an empty number and stays.
    The only error is a syntax error. *)
Lemma lexer_progress (l l' : lexer) (r : res token) :
  (lx_i l <= length (lx_src l))%nat -> next l = (l', r) ->
  let start := lx_i (skipSpace l) in
  (lx_i l <= start)%nat /\
  (start = length (lx_src l) /\ l' = skipSpace l /\ r = Ok (mkTok tokEOF [] (lx_pos l) []) \/
   (start < length (lx_src l))%nat /\
   (reads l l' start r \/ stalls l start /\ l' = mkLexer (lx_src l) start start /\ r = Ok (mkTok tokNumber [] start []))).
Proof.
  intros Hi Hn start. pose proof (skip_space_bounds (length (lx_src l)) (lx_src l) (lx_i l) Hi) as Hs.
  change (skip_space _ _ _) with start in Hs. split; [lia|]. unfold next in Hn.
  set (l1 := mkLexer (lx_src l) start start).
  change (lx_src (skipSpace l)) with (lx_src l) in Hn. fold start in Hn.
  destruct (Nat.leb_spec (length (lx_src l)) start) as [Hle|Hlt]; [left; injection Hn as <- <-; repeat split; lia|].
  right. split; [done|].
  change (reads l1 l' start r \/ stalls l1 start /\ l' = l1 /\ r = Ok (mkTok tokNumber [] start [])). cbn [lx_src lx_i] in Hn. fold l1 in Hn.
  assert (lx_i l1 < length (lx_src l1))%nat as H1 by done. pose proof (decode_drop (lx_src l) start Hlt) as Hw.
  destruct (decodeRune (drop start (lx_src l))) as [ch w] eqn:Ed. cbn [snd] in Hw.
  assert (fst (decodeRune (drop (lx_i l1) (lx_src l1))) = ch) as Hch by (simpl; by rewrite Ed).
  destruct (punct ch) as [[k s]|] eqn:Ep.
  { left. injection Hn as <- <-. apply punct_not_eof in Ep. unfold reads. simpl. repeat split; [lia|lia|done|lia]. }
  case_match; [left; pose proof (lexString_reads l1 H1) as Hr; cbn [lx_i l1] in Hr; by rewrite Hn in Hr|].
  case_match eqn:Eb.
  { left. apply andb_true_iff in Eb as [_ Eb%bool_decide_eq_true_1]. apply lookup_lt_Some in Eb.
    pose proof (lexBlob_reads (set_i l1 (S start)) start) as Hr. rewrite Hn in Hr. apply Hr. simpl. lia. }
  case_match eqn:En.
  { pose proof (lexNumber_reads l1 H1) as Hr. cbn zeta in Hr. rewrite Hch in Hr. cbn [lx_i l1] in Hr. rewrite Hn in Hr.
    destruct Hr as [Hr|[Hr [= -> ->]]]; [|by left|by right]. apply orb_true_iff in En as [En%Z.eqb_eq|En]; auto. }
  left. case_match eqn:Ei; [|injection Hn as <- <-; unfold reads; simpl; repeat split; lia].
  pose proof (lexIdent_reads l1 H1) as Hr. rewrite Hch in Hr. cbn [lx_i l1] in Hr. rewrite Hn in Hr.
  apply Hr. unfold ident_rune. by rewrite Ei.
Qed.

(** What a caller needs of [next]. *)
Lemma next_spec (l l' : lexer) (r : res token) :
  (lx_i l <= length (lx_src l))%nat -> next l = (l', r) ->
  lx_src l' = lx_src l /\ (lx_i l <= lx_i l' <= length (lx_src l))%nat /\
  match r with
  | Ok t => kind t = tokEOF \/ kind t = tokNumber \/ (lx_i l < lx_i l')%nat
  | Err e => e = ErrSQL
  end.
Proof.
  intros Hi Hn. destruct (lexer_progress l l' r Hi Hn) as [Hs [(E & -> & ->)|[Hlt [(Hsrc & Hb & Hr)|(_ & -> & ->)]]]].
  - cbn [kind]. repeat split; [lia|lia|by left].
  - split; [done|]. split; [lia|]. destruct r as [t|e]; [|done]. right. right. lia.
  - cbn [lx_src lx_i kind]. repeat split; [lia|lia|by auto].
Qed.

(** * Words hold no slash *)

Lemma text_between_split src i k j :
  (i <= k <= j)%nat -> text_between src i j = take (k - i) (drop i src) ++ text_between src k j.
Proof.
  intros H. unfold text_between. replace (j - i)%nat with ((k - i) + (j - k))%nat by lia.
  rewrite <- take_take_drop, drop_drop. do 3 f_equal. lia.
Qed.

Lemma high_no_slash s : Forall high s -> no_slash s.
Proof. intros Hs Hin. rewrite Forall_forall in Hs. apply Hs in Hin. vm_compute in Hin. by apply Hin. Qed.

(** The bytes of one rune an identifier accepts. *)
Lemma ident_rune_no_slash b t :
  ident_rune (fst (decodeRune (b :: t))) = true -> no_slash (take (snd (decodeRune (b :: t))) (b :: t)).
Proof.
  destruct (Z.ltb_spec (byte_val b) 0x80) as [Ha|Hb].
  - rewrite decodeRune_ascii by done. cbn [fst snd take]. intros Hr Hin%list_elem_of_singleton. subst b.
    unfold ident_rune in Hr. change (byte_val (byte_of 47)) with 47 in Hr.
    by rewrite isLetter_ascii, isDigit_latin1 in Hr by lia.
  - intros _. apply high_no_slash. pose proof (decodeRune_width (b :: t) ltac:(done)) as Hw.
    destruct (rune_bad (decodeRune (b :: t))) eqn:E.
    + unfold rune_bad in E. apply andb_true_iff in E as [_ ->%Nat.eqb_eq]. by repeat constructor.
    + pose proof (decodeRune_high b t Hb E) as [_ Hh]. destruct (snd (decodeRune (b :: t))); [lia|]. cbn [take]. by constructor.
Qed.

Lemma ident_loop_no_slash fuel src i :
  (i <= length src)%nat -> no_slash (text_between src i (ident_loop fuel src i)).
Proof.
  revert i. induction fuel as [|fuel IH]; intros i Hi; cbn [ident_loop].
  { unfold text_between. rewrite Nat.sub_diag. apply not_elem_of_nil. }
  assert (no_slash (text_between src i i)) as H0 by (unfold text_between; rewrite Nat.sub_diag; apply not_elem_of_nil).
  destruct (Nat.ltb_spec i (length src)) as [H|H]; [|done]. pose proof (decode_drop src i H) as Hd.
  destruct (drop i src) as [|b t] eqn:Eb; [apply (f_equal length) in Eb; rewrite length_drop in Eb; simpl in Eb; lia|].
  pose proof (ident_rune_no_slash b t) as Hn. destruct (decodeRune (b :: t)) as [ch w]. cbn [fst snd] in *.
  destruct (ident_rune ch); [|done].
  rewrite (text_between_split src i (i + w)) by (pose proof (ident_loop_bounds fuel src (i + w)); lia).
  replace (i + w - i)%nat with w by lia. rewrite Eb. unfold no_slash. rewrite elem_of_app.
  intros [?|?]; [by apply Hn|]. by eapply (IH (i + w)%nat); [lia|].
Qed.

Definition is_word (t : token) : Prop := kind t = tokIdent \/ kind t = tokKeyword.

Lemma next_word_no_slash lx lx' t :
  (lx_i lx <= length (lx_src lx))%nat -> next lx = (lx', Ok t) -> is_word t -> no_slash (tok_lit t).
Proof.
  intros Hi Hn Hw. unfold next in Hn. pose proof (skip_space_bounds (length (lx_src lx)) (lx_src lx) (lx_i lx) Hi) as Hs.
  change (skip_space _ _ _) with (lx_i (skipSpace lx)) in Hs. change (lx_src (skipSpace lx)) with (lx_src lx) in Hn.
  destruct (_ <=? _)%nat; [injection Hn as <- <-; by destruct Hw|]. cbn [lx_i lx_src] in Hn.
  destruct (decodeRune _) as [ch w]. destruct (punct ch) as [[k s]|] eqn:Ep.
  { injection Hn as _ <-. unfold punct in Ep. destruct Hw as [Hw|Hw]; cbn [kind] in Hw; subst k; repeat (case_match; [done|]); done. }
  unfold lexString, lexBlob, lexNumber in Hn. destruct (ch =? 39); [repeat case_match; simplify_eq; by destruct Hw|].
  destruct (_ && _); [repeat case_match; simplify_eq; by destruct Hw|].
  destruct (_ || _); [simplify_eq; by destruct Hw|]. destruct (_ || _); [|done].
  unfold lexIdent in Hn. cbn [lx_i lx_src] in Hn. injection Hn as _ <-.
  case_match; cbn [tok_lit]; apply ident_loop_no_slash; apply Hs.
Qed.

(** * Reading back printed tokens *)

(** What may follow a printed token: the end of the text or a space. *)
Definition delimited (rest : bytes) : Prop := rest = [] \/ exists t, rest = Byte.x20 :: t.

Lemma drop_app_add (src w rest : bytes) i : drop i src = w ++ rest -> drop (i + length w) src = rest.
Proof. intros H. by rewrite <- drop_drop, H, drop_app_length. Qed.

Lemma drop_cons_lt (src : bytes) i b t : drop i src = b :: t -> (i < length src)%nat.
Proof. intros H%lookup_drop_head. by apply lookup_lt_Some in H. Qed.

Lemma ident_byte_ascii b : ident_byte b = true -> byte_val b < 0x80 /\ ident_rune (byte_val b) = true.
Proof.
  unfold ident_byte, ident_rune. pose proof (byte_val_range b). intros Hb.
  assert (byte_val b < 0x80) as Ha by (unfold ascii_letter, ascii_upper, ascii_lower, ascii_digit in Hb; lia).
  split; [done|]. by rewrite isLetter_ascii, isDigit_latin1 by lia.
Qed.

Lemma ident_loop_delimited fuel src i : delimited (drop i src) -> ident_loop fuel src i = i.
Proof.
  destruct fuel as [|fuel]; [done|]. intros [H|[t H]]; cbn [ident_loop]; rewrite H.
  - apply (f_equal length) in H. rewrite length_drop in H. simpl in H. by rewrite (proj2 (Nat.ltb_ge _ _)) by lia.
  - rewrite decodeRune_ascii by done. destruct (i <? length src)%nat; [|done].
    change (byte_val Byte.x20) with 32. unfold ident_rune. by rewrite isLetter_ascii, isDigit_latin1 by lia.
Qed.

Lemma ident_loop_text fuel src i w rest :
  drop i src = w ++ rest -> forallb ident_byte w = true -> delimited rest -> (length w <= fuel)%nat ->
  ident_loop fuel src i = (i + length w)%nat.
Proof.
  revert i fuel. induction w as [|b w IH]; intros i fuel Hd Hw Hr Hf.
  - rewrite ident_loop_delimited; [simpl; lia|]. by rewrite Hd.
  - destruct fuel as [|fuel]; simpl in Hf; [lia|]. cbn [forallb] in Hw. apply andb_true_iff in Hw as [Hb Hw].
    apply ident_byte_ascii in Hb as [Ha Hb]. cbn [ident_loop].
    rewrite (proj2 (Nat.ltb_lt _ _)) by (by eapply drop_cons_lt).
    rewrite Hd. cbn [app]. rewrite decodeRune_ascii, Hb by done.
    rewrite IH; [simpl; lia|by apply (drop_app_add src [b])|done..|lia].
Qed.

Lemma digits_loop_text fuel src i w rest :
  drop i src = w ++ rest -> forallb (fun b => ascii_digit (byte_val b)) w = true -> delimited rest -> (length w <= fuel)%nat ->
  digits_loop fuel src i = (i + length w)%nat.
Proof.
  revert i fuel. induction w as [|b w IH]; intros i fuel Hd Hw Hr Hf.
  - rewrite Nat.add_0_r. destruct fuel as [|fuel]; [done|]. cbn [digits_loop app] in *. destruct Hr as [->|[t ->]].
    + apply (f_equal length) in Hd. rewrite length_drop in Hd. simpl in Hd. by rewrite lookup_ge_None_2 by lia.
    + rewrite (lookup_drop_head _ _ _ _ Hd), isDigit_latin1 by (vm_compute; by split). done.
  - destruct fuel as [|fuel]; simpl in Hf; [lia|]. cbn [forallb] in Hw. apply andb_true_iff in Hw as [Hb Hw].
    cbn [digits_loop]. rewrite (lookup_drop_head _ _ _ _ Hd), isDigit_latin1, Hb by apply byte_val_range.
    rewrite IH; [simpl; lia| |done..|lia]. rewrite <- (Nat.add_1_r i). by apply (drop_app_add src [b]).
Qed.

Lemma blob_loop_text fuel src i w rest acc :
  drop i src = w ++ quote_byte :: rest -> forallb (fun b => negb (bool_decide (b = quote_byte))) w = true ->
  (length w < fuel)%nat -> blob_loop fuel src i acc = Some (acc ++ w, S (i + length w)).
Proof.
  revert i fuel acc. induction w as [|b w IH]; intros i fuel acc Hd Hw Hf; (destruct fuel as [|fuel]; simpl in Hf; [lia|]).
  - cbn [blob_loop]. rewrite (lookup_drop_head _ _ _ _ Hd), bool_decide_true by done. rewrite app_nil_r. simpl. by rewrite Nat.add_0_r.
  - cbn [forallb] in Hw. apply andb_true_iff in Hw as [Hb Hw]. cbn [blob_loop].
    rewrite (lookup_drop_head _ _ _ _ Hd). apply negb_true_iff in Hb. rewrite Hb.
    rewrite (IH (S i)); [|rewrite <- (Nat.add_1_r i); by apply (drop_app_add src [b])|done|lia].
    rewrite <- app_assoc. do 2 f_equal. simpl. lia.
Qed.

Lemma double_quotes_app s t : double_quotes (s ++ t) = double_quotes s ++ double_quotes t.
Proof. apply bind_app. Qed.

Lemma double_quotes_other b s : b <> quote_byte -> double_quotes (b :: s) = b :: double_quotes s.
Proof. intros H. unfold double_quotes. by rewrite bind_cons, bool_decide_false. Qed.

Lemma double_quotes_high s : Forall high s -> double_quotes s = s.
Proof.
  induction 1 as [|b s Hb _ IH]; [done|]. rewrite double_quotes_other, IH; [done|].
  intros ->. vm_compute in Hb. by apply Hb.
Qed.

Lemma length_double_quotes s : (length s <= length (double_quotes s))%nat.
Proof.
  induction s as [|b s IH]; [done|]. destruct (decide (b = quote_byte)) as [->|H]; [simpl in *; lia|].
  rewrite double_quotes_other by done. simpl. lia.
Qed.

(** A whole rune of a valid string, with the bytes it occupies. *)
Lemma string_loop_high fuel src i b t x acc :
  high b -> rune_bad (decodeRune (b :: t)) = false ->
  let w := take (snd (decodeRune (b :: t))) (b :: t) in drop i src = w ++ x ->
  string_loop (S fuel) src i acc = string_loop fuel src (i + length w) (acc ++ w).
Proof.
  intros Hb Hg w Hd. pose proof (decodeRune_width (b :: t) ltac:(done)) as Hw.
  assert (length w = snd (decodeRune (b :: t))) as Hlen by (unfold w; rewrite length_take; lia).
  cbn [string_loop]. rewrite (proj2 (Nat.ltb_lt _ _)).
  2: { destruct w as [|b' w']; [cbn [length] in Hlen; lia|]. by eapply drop_cons_lt. }
  rewrite Hd, Hlen. unfold w. rewrite decodeRune_local by done.
  pose proof (encode_decodeRune b t Hb Hg) as He. pose proof (decodeRune_rune_high b t Hb) as Hr.
  destruct (decodeRune (b :: t)) as [ch n]. cbn [fst snd] in *.
  by rewrite (proj2 (Z.eqb_neq ch 39)), He by lia.
Qed.

(** A string literal reads back as the string. *)
Lemma string_loop_text fuel src i s rest acc :
  drop i src = double_quotes s ++ quote_byte :: rest -> utf8_valid s = true -> head rest <> Some quote_byte ->
  (length s < fuel)%nat -> string_loop fuel src i acc = Some (acc ++ s, S (i + length (double_quotes s))).
Proof.
  revert i acc fuel. induction s as [s IH] using (well_founded_induction (well_founded_ltof _ length)).
  unfold ltof in IH. intros i acc fuel Hd Hv Hr Hf.
  destruct fuel as [|fuel]; [lia|]. destruct s as [|b s].
  { change (drop i src = quote_byte :: rest) in Hd. cbn [string_loop]. rewrite (proj2 (Nat.ltb_lt _ _)) by (by eapply drop_cons_lt).
    rewrite Hd. change (decodeRune (quote_byte :: rest)) with (39, 1%nat). cbn [Z.eqb Pos.eqb].
    rewrite bool_decide_false; [rewrite app_nil_r; simpl; do 3 f_equal; lia|].
    rewrite <- (Nat.add_1_r i), <- lookup_drop, Hd. by destruct rest. }
  apply utf8_valid_cons in Hv as [Hg Hv]. destruct (Z.ltb_spec (byte_val b) 0x80) as [Ha|Hb].
  - rewrite decodeRune_ascii in Hv by done. cbn [snd drop] in Hv. destruct (decide (b = quote_byte)) as [->|Eb].
    + change (double_quotes (quote_byte :: s)) with (quote_byte :: quote_byte :: double_quotes s) in *. cbn [app] in Hd.
      cbn [string_loop]. rewrite (proj2 (Nat.ltb_lt _ _)), Hd by (by eapply drop_cons_lt).
      change (decodeRune (quote_byte :: _)) with (39, 1%nat). cbn [Z.eqb Pos.eqb].
      rewrite bool_decide_true by (by rewrite <- (Nat.add_1_r i), <- lookup_drop, Hd).
      rewrite (IH s); [rewrite <- app_assoc; simpl; do 3 f_equal; lia|simpl; lia| |done..|simpl in Hf; lia].
      by apply (drop_app_add src [quote_byte; quote_byte]).
    + rewrite (double_quotes_other b s Eb) in *. cbn [app] in Hd.
      cbn [string_loop]. rewrite (proj2 (Nat.ltb_lt _ _)), Hd by (by eapply drop_cons_lt).
      rewrite decodeRune_ascii, (proj2 (Z.eqb_neq _ _)) by (done || (intros E; apply Eb; by apply (inj byte_val))).
      rewrite encodeRune_ascii by done.
      rewrite (IH s); [rewrite <- app_assoc; simpl; do 3 f_equal; lia|simpl; lia| |done..|simpl in Hf; lia].
      by apply (drop_app_add src [b]).
  - pose proof (decodeRune_width (b :: s) ltac:(done)) as Hw. pose proof (decodeRune_high b s Hb Hg) as [_ Hh].
    set (n := snd (decodeRune (b :: s))) in *.
    assert (double_quotes (b :: s) = take n (b :: s) ++ double_quotes (drop n (b :: s))) as Hq.
    { rewrite <- (take_drop n (b :: s)) at 1. rewrite double_quotes_app, double_quotes_high; [done|].
      destruct n; [lia|]. cbn [take]. by constructor. }
    rewrite Hq, <- app_assoc in Hd. rewrite (string_loop_high _ _ _ _ _ _ _ Hb Hg Hd). fold n.
    rewrite (IH (drop n (b :: s))); [|rewrite length_drop; lia|by apply drop_app_add|done..|rewrite length_drop; lia].
    rewrite <- app_assoc, take_drop, Hq, length_app. do 3 f_equal. lia.
Qed.

Lemma delimited_no_quote rest : delimited rest -> head rest <> Some quote_byte.
Proof. by intros [->|[t ->]]. Qed.

Lemma text_between_app src i w rest : drop i src = w ++ rest -> text_between src i (i + length w) = w.
Proof. intros H. unfold text_between. rewrite H, Nat.add_comm, Nat.add_sub. apply take_app_length. Qed.

Lemma length_drop_app {src w rest : bytes} {i} : drop i src = w ++ rest -> (length w <= length src)%nat.
Proof. intros H%(f_equal length). rewrite length_drop, length_app in H. lia. Qed.

(** After one space, [next] decides on the ASCII byte that follows. *)
Lemma next_token src i p b t :
  drop i src = Byte.x20 :: b :: t -> byte_val b < 0x80 -> ascii_space (byte_val b) = false ->
  next (mkLexer src i p) =
    let l := mkLexer src (S i) (S i) in
    match punct (byte_val b) with
    | Some (k, s) => (set_i l (S i + 1), Ok (mkTok k s (S i) []))
    | None =>
        if byte_val b =? 39 then lexString l (S i)
        else if ((byte_val b =? 88) || (byte_val b =? 120)) && bool_decide (src !! S (S i) = Some quote_byte)
        then lexBlob (set_i l (S (S i))) (S i)
        else if (byte_val b =? 45) || isDigit (byte_val b) then lexNumber l (S i)
        else if (byte_val b =? 95) || isLetter (byte_val b) then lexIdent l (S i)
        else (l, Err ErrSQL)
    end.
Proof.
  intros Hd Ha Hs. pose proof (byte_val_range b).
  assert (drop (S i) src = b :: t) as Hd' by (rewrite <- (Nat.add_1_r i); by apply (drop_app_add src [Byte.x20])).
  assert (skip_space (length src) src i = S i) as Hk.
  { pose proof (drop_cons_lt _ _ _ _ Hd') as Hl. destruct (length src) as [|[|n]] eqn:El; [lia..|]. cbn [skip_space].
    rewrite El, !(proj2 (Nat.ltb_lt _ _)), Hd by lia. rewrite decodeRune_ascii by done.
    change (byte_val Byte.x20) with 32. rewrite isSpace_ascii by lia. change (ascii_space 32) with true. cbn [negb].
    rewrite Nat.add_1_r, Hd', decodeRune_ascii, isSpace_ascii, Hs by lia.
    by destruct (S i <? S (S n))%nat. }
  unfold next, skipSpace. cbn [lx_src lx_i lx_pos set_i]. rewrite Hk.
  pose proof (drop_cons_lt _ _ _ _ Hd'). by rewrite (proj2 (Nat.leb_gt _ _)), Hd', decodeRune_ascii by done.
Qed.

(** The token and the lexer after reading [t] printed at [i]. *)
Definition read_at (src : bytes) (i : nat) (t : token) : lexer * res token :=
  (mkLexer src (i + length (print_token t)) i, Ok (mkTok (kind t) (tok_lit t) i (kw t))).

Lemma lexString_print src i t rest :
  drop i src = print_token t ++ rest -> delimited rest -> kind t = tokString -> utf8_valid (tok_lit t) = true -> kw t = [] ->
  lexString (mkLexer src i i) i = read_at src i t.
Proof.
  intros Hd Hr Hk Hv Hw. unfold read_at, print_token in *. rewrite Hk, Hw in *. unfold lexString. cbn [lx_src lx_i].
  rewrite (string_loop_text _ _ _ (tok_lit t) rest []).
  - cbn [app]. unfold set_i. simpl. rewrite length_app. simpl. do 2 f_equal. lia.
  - rewrite <- (Nat.add_1_r i). apply (drop_app_add src [quote_byte]). rewrite Hd. cbn [app]. by rewrite <- app_assoc.
  - done.
  - by apply delimited_no_quote.
  - apply length_drop_app in Hd. simpl in Hd. rewrite length_app in Hd.
    pose proof (length_double_quotes (tok_lit t)). lia.
Qed.

Lemma lexBlob_print src i t rest :
  drop i src = print_token t ++ rest -> kind t = tokBlob ->
  forallb (fun b => negb (bool_decide (b = quote_byte))) (tok_lit t) = true -> kw t = [] ->
  lexBlob (mkLexer src (S i) i) i = read_at src i t.
Proof.
  intros Hd Hk Hv Hw. unfold read_at, print_token in *. rewrite Hk, Hw in *. unfold lexBlob. cbn [lx_src lx_i].
  assert (drop (i + 1) src = quote_byte :: tok_lit t ++ quote_byte :: rest) as Hd1.
  { apply (drop_app_add src [Byte.x58]). rewrite Hd. cbn [app]. by rewrite <- app_assoc. }
  rewrite Nat.add_1_r in Hd1. rewrite (lookup_drop_head _ _ _ _ Hd1), bool_decide_true by done. cbn [negb].
  rewrite (blob_loop_text _ _ _ (tok_lit t) rest []).
  - cbn [app]. unfold set_i. simpl. rewrite length_app. simpl. do 2 f_equal. lia.
  - rewrite <- (Nat.add_1_r (S i)). by apply (drop_app_add src [quote_byte]).
  - done.
  - apply length_drop_app in Hd. simpl in Hd. rewrite length_app in Hd. lia.
Qed.

Lemma lexNumber_print src i t rest :
  drop i src = print_token t ++ rest -> delimited rest -> kind t = tokNumber -> number_text (tok_lit t) = true -> kw t = [] ->
  lexNumber (mkLexer src i i) i = read_at src i t.
Proof.
  intros Hd Hr Hk Hv Hw. unfold read_at, print_token in *. rewrite Hk, Hw in *. unfold lexNumber. cbn [lx_src lx_i].
  destruct (tok_lit t) as [|b w] eqn:El; [done|]. cbn [number_text] in Hv. apply andb_true_iff in Hv as [Hb Hds].
  pose proof (length_drop_app Hd) as Hlen. simpl in Hlen. rewrite (lookup_drop_head _ _ _ _ Hd).
  assert (digits_loop (length src) src (if bool_decide (Some b = Some Byte.x2d) then S i else i) = i + length (b :: w))%nat as ->.
  { case_bool_decide as Em.
    - rewrite (digits_loop_text _ _ _ w rest); [simpl; lia| |done..|lia].
      rewrite <- (Nat.add_1_r i). by apply (drop_app_add src [b]).
    - apply (digits_loop_text _ _ _ (b :: w) rest); [done| |done|simpl; lia]. cbn [forallb]. rewrite Hds.
      apply orb_true_iff in Hb as [Hb%Z.eqb_eq| ->]; [|done]. destruct Em. f_equal. by apply (inj byte_val). }
  by rewrite (text_between_app _ _ _ _ Hd).
Qed.

Lemma lexIdent_print src i t rest :
  drop i src = print_token t ++ rest -> delimited rest -> print_token t = tok_lit t -> forallb ident_byte (tok_lit t) = true ->
  kind t = (if isKeyword (toUpper (tok_lit t)) then tokKeyword else tokIdent) ->
  kw t = (if isKeyword (toUpper (tok_lit t)) then toUpper (tok_lit t) else []) ->
  lexIdent (mkLexer src i i) i = read_at src i t.
Proof.
  intros Hd Hr Hp Hv Hk Hw. unfold read_at. rewrite Hk, Hw. unfold lexIdent. cbn [lx_src lx_i]. rewrite Hp in *.
  rewrite (ident_loop_text _ _ _ (tok_lit t) rest), (text_between_app _ _ _ _ Hd); [|done..|by eapply length_drop_app].
  by destruct (isKeyword _).
Qed.

Lemma punct_range ch k s : punct ch = Some (k, s) -> 40 <= ch <= 63 /\ length s = 1%nat.
Proof. unfold punct. intros H. repeat (case_match; [simplify_eq; split; [lia|done]|]). done. Qed.

Lemma punct_word ch : (ch =? 45) || ascii_digit ch || (ch =? 95) || ascii_letter ch = true -> punct ch = None.
Proof.
  unfold punct, ascii_letter, ascii_upper, ascii_lower, ascii_digit. intros H.
  by repeat (rewrite (proj2 (Z.eqb_neq ch _)) by lia).
Qed.

Lemma next_print_punct src i p t rest b :
  drop i src = Byte.x20 :: print_token t ++ rest -> print_token t = [b] -> tok_lit t = [b] ->
  punct (byte_val b) = Some (kind t, [b]) -> kw t = [] ->
  next (mkLexer src i p) = read_at src (S i) t.
Proof.
  intros Hd Hp Hl Hk Hw. pose proof (punct_range _ _ _ Hk) as [Hb _]. rewrite Hp in Hd. cbn [app] in Hd.
  rewrite (next_token _ _ _ _ _ Hd) by (unfold ascii_space; lia). cbn zeta. rewrite Hk. unfold read_at. by rewrite Hp, Hl, Hw.
Qed.

Lemma next_print_number src i p t rest :
  drop i src = Byte.x20 :: print_token t ++ rest -> delimited rest -> kind t = tokNumber ->
  number_text (tok_lit t) = true -> kw t = [] -> next (mkLexer src i p) = read_at src (S i) t.
Proof.
  intros Hd Hr Hk Hv Hw. rewrite <- (lexNumber_print src (S i) t rest) by
    (done || (rewrite <- (Nat.add_1_r i); by apply (drop_app_add src [Byte.x20]))).
  unfold print_token in Hd. rewrite Hk in Hd. destruct (tok_lit t) as [|b w]; [done|].
  cbn [number_text] in Hv. apply andb_true_iff in Hv as [Hb _]. cbn [app] in Hd. pose proof (byte_val_range b).
  rewrite (next_token _ _ _ _ _ Hd) by (unfold ascii_digit, ascii_space in *; lia). cbn zeta.
  rewrite punct_word by (by rewrite Hb). rewrite isDigit_latin1, Hb by lia.
  rewrite (proj2 (Z.eqb_neq _ 39)), (proj2 (Z.eqb_neq _ 88)), (proj2 (Z.eqb_neq _ 120)) by (unfold ascii_digit in *; lia). done.
Qed.

Lemma next_print_ident src i p t rest :
  drop i src = Byte.x20 :: print_token t ++ rest -> delimited rest -> print_token t = tok_lit t ->
  ident_text (tok_lit t) = true ->
  kind t = (if isKeyword (toUpper (tok_lit t)) then tokKeyword else tokIdent) ->
  kw t = (if isKeyword (toUpper (tok_lit t)) then toUpper (tok_lit t) else []) ->
  next (mkLexer src i p) = read_at src (S i) t.
Proof.
  intros Hd Hr Hp Hv Hk Hw. destruct (tok_lit t) as [|b w] eqn:El; [done|].
  cbn [ident_text] in Hv. apply andb_true_iff in Hv as [Hb Hds].
  assert (drop (S i) src = print_token t ++ rest) as Hd' by (rewrite <- (Nat.add_1_r i); by apply (drop_app_add src [Byte.x20])).
  rewrite <- (lexIdent_print src (S i) t rest); [|done..|congruence| | |]; rewrite ?El; try done.
  2: { cbn [forallb]. rewrite Hds. unfold ident_byte. by rewrite Hb. }
  rewrite Hp in *. cbn [app] in *. pose proof (byte_val_range b).
  rewrite (next_token _ _ _ _ _ Hd) by (unfold ascii_letter, ascii_upper, ascii_lower, ascii_space in *; lia). cbn zeta.
  rewrite punct_word by (by rewrite <- orb_assoc, Hb, orb_true_r).
  assert (src !! S (S i) <> Some quote_byte) as Hq.
  { rewrite <- (Nat.add_1_r (S i)), <- lookup_drop, Hd'. destruct w as [|c w]; cbn [app lookup list_lookup].
    - destruct Hr as [->|[x ->]]; done.
    - cbn [forallb] in Hds. apply andb_true_iff in Hds as [Hc _]. by intros [= ->]. }
  rewrite (bool_decide_false (src !! _ = _)), andb_false_r by done. rewrite isDigit_latin1, isLetter_ascii, Hb
    by (unfold ascii_letter, ascii_upper, ascii_lower in *; lia).
  rewrite (proj2 (Z.eqb_neq _ 39)), (proj2 (Z.eqb_neq _ 45)) by (unfold ascii_letter, ascii_upper, ascii_lower in *; lia).
  by assert (ascii_digit (byte_val b) = false) as -> by (unfold ascii_letter, ascii_upper, ascii_lower, ascii_digit in *; lia).
Qed.

(** Every printable token, after a space and before a delimiter, reads back as itself. *)
Lemma next_print src i p t rest :
  printable t = true -> drop i src = Byte.x20 :: print_token t ++ rest -> delimited rest ->
  next (mkLexer src i p) = read_at src (S i) t.
Proof.
  intros Hp Hd Hr.
  assert (drop (S i) src = print_token t ++ rest) as Hd' by (rewrite <- (Nat.add_1_r i); by apply (drop_app_add src [Byte.x20])).
  pose proof Hd as Hd0. unfold printable in Hp. unfold print_token in Hd.
  destruct (kind t) eqn:Hk; [done|..];
    try (destruct (tok_lit t) as [|b [|??]] eqn:El; [done| |done];
         apply andb_true_iff in Hp as [Hp%bool_decide_eq_true_1 Hw%bool_decide_eq_true_1]; rewrite <- Hk in Hp;
         eapply next_print_punct; [done| |done..]; unfold print_token; by rewrite Hk, El);
    apply andb_true_iff in Hp as [Hp Hw%bool_decide_eq_true_1].
  - apply andb_true_iff in Hp as [Hp Hkw%negb_true_iff]. eapply next_print_ident; rewrite ?Hkw; try done. unfold print_token. by rewrite Hk.
  - eapply next_print_number; done.
  - rewrite <- (lexString_print src (S i) t rest) by done. cbn [app] in Hd. by rewrite (next_token _ _ _ _ _ Hd).
  - rewrite <- (lexBlob_print src (S i) t rest) by done. cbn [app] in Hd. rewrite (next_token _ _ _ _ _ Hd) by done.
    change (byte_val Byte.x58) with 88. cbn zeta. change (punct 88) with (@None (tokenKind * bytes)).
    rewrite bool_decide_true; [done|]. rewrite <- (Nat.add_1_r (S i)), <- lookup_drop, Hd'. unfold print_token. by rewrite Hk.
  - apply andb_true_iff in Hp as [Hp Hkw]. eapply next_print_ident; rewrite ?Hkw; try done. unfold print_token. by rewrite Hk.
Qed.

Lemma print_tokens_delimited ts : delimited (print_tokens ts).
Proof. destruct ts as [|t ts]; [by left|]. right. by exists (print_token t ++ print_tokens ts). Qed.

Lemma next_eof src i p : drop i src = [] -> next (mkLexer src i p) = (mkLexer src i p, Ok (mkTok tokEOF [] p [])).
Proof.
  intros Hd%(f_equal length). rewrite length_drop in Hd. cbn [length] in Hd. unfold next, skipSpace. cbn [lx_src lx_i].
  assert (skip_space (length src) src i = i) as ->.
  { destruct (length src) eqn:El; [done|]. cbn [skip_space]. by rewrite El, (proj2 (Nat.ltb_ge _ _)) by lia. }
  cbn [lx_src lx_i set_i]. by rewrite (proj2 (Nat.leb_le _ _)) by lia.
Qed.

Lemma lex_all_print ts src i p :
  Forall (fun t => printable t = true) ts -> drop i src = print_tokens ts ->
  lex_all (S (length ts)) (mkLexer src i p) = Some (Ok (place i ts)).
Proof.
  revert i p. induction ts as [|t ts IH]; intros i p Hp Hd; cbn [length].
  - cbn [lex_all]. by rewrite next_eof.
  - set (f := S (length ts)) in *. cbn [lex_all]. apply Forall_cons in Hp as [Ht Hp].
    change (drop i src = (Byte.x20 :: print_token t) ++ print_tokens ts) in Hd.
    rewrite (next_print src i p t (print_tokens ts)) by (done || apply print_tokens_delimited). unfold read_at. cbn [kind].
    rewrite bool_decide_false by (intros E; unfold printable in Ht; by rewrite E in Ht).
    apply drop_app_add in Hd. cbn [length] in Hd.
    rewrite Nat.add_succ_r in Hd. by rewrite IH.
Qed.

(** C28. Printed tokens lex back: for every list of keywords, identifiers (in
    ASCII), numbers, string and blob literals, parameters and punctuation, the
    lexer reads their text as exactly these tokens, at the positions they were
    printed at, then the end of input.  Inside a string literal every valid
    UTF-8 text comes back, with its quotes doubled in the literal. *)
Theorem lex_print_roundtrip (ts : list token) :
  Forall (fun t => printable t = true) ts ->
  lex_all (S (length ts)) (newLexer (print_tokens ts)) = Some (Ok (place 0 ts)).
Proof. intros Hp. by apply lex_all_print. Qed.

(** A string literal does not keep bytes that are not UTF-8: any byte from
    0x80 on, alone between quotes, is read as the three bytes of U+FFFD,
    without an error. *)
Theorem string_literal_replaces_invalid (b : byte) :
  0x80 <= byte_val b ->
  next (newLexer [quote_byte; b; quote_byte]) =
    (mkLexer [quote_byte; b; quote_byte] 3 0, Ok (mkTok tokString [Byte.xef; Byte.xbf; Byte.xbd] 0 [])).
Proof.
  intros Hb. set (src := [quote_byte; b; quote_byte]). assert (drop 0 src = quote_byte :: [b; quote_byte]) as H0 by done.
  assert (skip_space (length src) src 0 = 0%nat) as Hk.
  { cbn [length skip_space src Nat.ltb Nat.leb]. fold src. rewrite H0, decodeRune_ascii by done. by rewrite isSpace_ascii. }
  unfold next, skipSpace, newLexer. cbn [lx_src lx_i lx_pos set_i]. rewrite Hk, H0, decodeRune_ascii by done.
  assert (decodeRune [b; quote_byte] = (runeError, 1%nat)) as Hd.
  { destruct b; (exfalso; vm_compute in Hb; by apply Hb) || reflexivity. }
  assert (string_loop 4 src 1 [] = Some ([Byte.xef; Byte.xbf; Byte.xbd], 3%nat)) as Hs.
  { cbn [string_loop length src Nat.ltb Nat.leb drop]. by rewrite Hd. }
  cbn zeta. change (lexString (mkLexer src 0 0) 0 = (mkLexer src 3 0, Ok (mkTok tokString [Byte.xef; Byte.xbf; Byte.xbd] 0 []))).
  unfold lexString. cbn [lx_src lx_i]. change (S (length src)) with 4%nat. by rewrite Hs.
Qed.

End lexing.

(** * Witnesses *)

Definition sample_tokens : list token :=
  [mkTok tokKeyword (lit "Insert") 0 (lit "INSERT"); mkTok tokIdent (lit "users_2") 0 []; mkTok tokLParen (lit "(") 0 [];
   mkTok tokNumber (lit "-12") 0 []; mkTok tokComma (lit ",") 0 [];
   mkTok tokString (lit "it's " ++ [Byte.xe2; Byte.x82; Byte.xac]) 0 []; mkTok tokBlob (lit "00ff") 0 [];
   mkTok tokParam (lit "?") 0 []; mkTok tokRParen (lit ")") 0 []; mkTok tokSemi (lit ";") 0 []].

Lemma lex_print_roundtrip_witness :
  lex_all 11 (newLexer (print_tokens sample_tokens)) = Some (Ok (place 0 sample_tokens)).
Proof. apply (lex_print_roundtrip sample_tokens). repeat constructor. Defined.

Lemma string_literal_replaces_invalid_witness :
  snd (next (newLexer [quote_byte; Byte.xe9; quote_byte])) = Ok (mkTok tokString [Byte.xef; Byte.xbf; Byte.xbd] 0 []).
Proof. rewrite (string_literal_replaces_invalid Byte.xe9) by (vm_compute; discriminate). reflexivity. Defined.
