(* ===== verification/Wal.v ===== *)
(** The write-ahead log (wal.go): the file header, the framing of records with
    a length and a CRC-32, replay with repair of a torn tail, and the scan that
    tells a garbage tail from corruption in the middle of the file.

    A file is its contents; it is always positioned at its end when the code
    appends.  Records are serialised by encoding/json: the functions and the
    laws the log relies on are the interface [RecordCodec]. *)

From S2P Require Import Prelude Utf8.

(** * Data *)

Definition walMagic : bytes := lit "RNDB".
Definition walVersion : Z := 1.
Definition walHeaderSize : Z := 16.
Definition maxRecordSize : Z := Z.shiftl 64 20.
Definition recordHdrSize : Z := 8.

Record operation := mkOp {
  op_key : bytes;
  op_value : bytes;
  op_delete : bool;
}.

Record record := mkRec {
  rec_version : Z;
  rec_ops : list operation;
}.

#[export] Instance operation_eq_dec : EqDecision operation.
Proof. solve_decision. Defined.
#[export] Instance record_eq_dec : EqDecision record.
Proof. solve_decision. Defined.

(** A record encoding/json carries unchanged: the version is a uint64 and the
    keys are valid UTF-8 (invalid bytes of a Go string are replaced by U+FFFD). *)
Definition valid_op (op : operation) : Prop := utf8_valid (op_key op) = true.
Definition valid_record (r : record) : Prop :=
  in_u64 (rec_version r) /\ Forall valid_op (rec_ops r).

(** json.Marshal and json.Unmarshal at the type [record], with what the log
    relies on: valid records round-trip, and JSON text is never empty and holds
    no control character. *)
Class RecordCodec := {
  marshal : record -> bytes;
  unmarshal : bytes -> option record;
  unmarshal_marshal : forall r, valid_record r -> unmarshal (marshal r) = Some r;
  marshal_nonempty : forall r, marshal r <> [];
  marshal_printable : forall r, Forall (fun b => 0x20 <= byte_val b) (marshal r);
}.

(** * Checksum *)

(** hash/crc32 with the IEEE polynomial (reflected: 0xEDB88320), bit by bit. *)
Definition crc_step (c : Z) : Z :=
  if Z.testbit c 0 then Z.lxor (Z.shiftr c 1) 0xEDB88320 else Z.shiftr c 1.

Definition crc_byte (c : Z) (b : byte) : Z := Nat.iter 8 crc_step (Z.lxor c (byte_val b)).

Definition crc32 (data : bytes) : Z :=
  Z.lxor (foldl crc_byte 0xFFFFFFFF data) 0xFFFFFFFF.

(** * Operations *)

(** The outcome of the write and the sync of one append: both succeed, the
    write fails after [n] bytes, or the sync fails. *)
Inductive io :=
  | IoOk
  | IoWriteFail (n : nat)
  | IoSyncFail.

Definition walHeader : bytes := walMagic ++ le_bytes 4 walVersion ++ replicate 8 Byte.x00.

(** [file.WriteAt(hdr, 0)] on the empty files this is called on. *)
Definition writeWALHeader (file : bytes) : bytes := walHeader ++ drop 16 file.

Definition readWALHeader (file : bytes) : option error :=
  if zlen file <? walHeaderSize then Some ErrIO
  else if negb (bool_decide (take 4 file = walMagic)) then Some ErrWALMagic
  else if negb (le_val (take 4 (drop 4 file)) =? walVersion) then Some ErrWALVersion
  else None.

Section codec.
Context `{RecordCodec}.

Definition encodeRecord (rec : record) : bytes :=
  let payload := marshal rec in
  le_bytes 4 (u32 (zlen payload)) ++ le_bytes 4 (crc32 payload) ++ payload.

Definition appendRecord (file : bytes) (rec : record) (o : io) : bytes * option error :=
  let frame := encodeRecord rec in
  match o with
  | IoOk => (file ++ frame, None)
  | IoWriteFail n => (file ++ take n frame, Some ErrIO)
  | IoSyncFail => (file ++ frame, Some ErrIO)
  end.

(** The loop drops one byte at a time, so it is structural on the data. *)
Fixpoint hasValidRecord (data : bytes) : bool :=
  match data with
  | [] => false
  | _ :: data' =>
      if zlen data <? recordHdrSize then false
      else
        let size := le_val (take 4 data) in
        if (size =? 0) || (maxRecordSize <? size) then hasValidRecord data'
        else if zlen data <? size + recordHdrSize then false
        else
          let payload := take (Z.to_nat size) (drop 8 data) in
          let want := le_val (take 4 (drop 4 data)) in
          if negb (crc32 payload =? want) then hasValidRecord data'
          else match unmarshal payload with
               | None => hasValidRecord data'
               | Some _ => true
               end
  end.

Definition recoverOrCorrupt (remainder : bytes) (lastGood failEnd fileSize : Z) : Z * option error :=
  if fileSize <=? failEnd then (lastGood, None)
  else if hasValidRecord remainder then (lastGood, Some ErrWALCorrupt)
  else (lastGood, None).

Section apply.
Context {S : Type} (apply : record -> S -> S).

(** One call reads one record from the buffered reader, whose unread bytes are
    [rest]; [fuel] bounds the number of records. *)
Fixpoint replay_loop (fuel : nat) (rest : bytes) (offset lastGood fileSize : Z) (s : S)
  : S * (Z * option error) :=
  match fuel with
  | O => (s, (lastGood, Some ErrIO))
  | Datatypes.S fuel =>
      if bool_decide (rest = []) then (s, (lastGood, None))
      else if zlen rest <? recordHdrSize then (s, (lastGood, None))
      else
        let hdr := take 8 rest in
        let rest := drop 8 rest in
        let offset := offset + recordHdrSize in
        let size := le_val (take 4 hdr) in
        if (size =? 0) || (maxRecordSize <? size)
        then (s, recoverOrCorrupt rest lastGood offset fileSize)
        else if zlen rest <? size then (s, (lastGood, None))
        else
          let payload := take (Z.to_nat size) rest in
          let rest := drop (Z.to_nat size) rest in
          let offset := offset + size in
          if negb (crc32 payload =? le_val (drop 4 hdr))
          then (s, recoverOrCorrupt rest lastGood offset fileSize)
          else match unmarshal payload with
               | None => (s, recoverOrCorrupt rest lastGood offset fileSize)
               | Some rec => replay_loop fuel rest offset offset fileSize (apply rec s)
               end
  end.

(** Every record takes at least nine bytes, so the length of the file bounds
    the number of iterations. *)
Definition replay (file : bytes) (s : S) : S * (Z * option error) :=
  let rest := drop 16 file in
  replay_loop (Datatypes.S (length rest)) rest walHeaderSize walHeaderSize (zlen file) s.

(** The file afterwards, the replayed state, and (lastGood, err). *)
Definition initWAL (file : bytes) (s : S) : bytes * (S * (Z * option error)) :=
  if zlen file =? 0 then (writeWALHeader file, (s, (walHeaderSize, None)))
  else if zlen file <? walHeaderSize then (file, (s, (0, Some ErrWALMagic)))
  else match readWALHeader file with
       | Some e => (file, (s, (0, Some e)))
       | None => (file, replay file s)
       end.

End apply.
End codec.

(** The frames of a list of records, and a whole log file. *)
Definition frames `{RecordCodec} (rs : list record) : bytes := rs ≫= encodeRecord.
Definition wal_file `{RecordCodec} (rs : list record) : bytes := walHeader ++ frames rs.

(** * The checksum *)

Definition crc_state (c : Z) : Prop := 0 <= c < 2 ^ 32.

Lemma crc_state_bits c : 0 <= c -> crc_state c <-> (forall i, 32 <= i -> Z.testbit c i = false).
Proof.
  intros Hc. unfold crc_state. rewrite <- (Z.bounded_iff_bits_nonneg 32 c) by lia. lia.
Qed.

Lemma crc_state_lxor a b : crc_state a -> crc_state b -> crc_state (Z.lxor a b).
Proof.
  intros Ha Hb. apply crc_state_bits.
  - apply Z.lxor_nonneg. unfold crc_state in *. lia.
  - intros i Hi. rewrite Z.lxor_spec.
    rewrite (proj1 (crc_state_bits a (proj1 Ha)) Ha), (proj1 (crc_state_bits b (proj1 Hb)) Hb); done.
Qed.

Lemma crc_state_shiftr c : crc_state c -> crc_state (Z.shiftr c 1) /\ Z.shiftr c 1 < 2 ^ 31.
Proof.
  unfold crc_state. intros Hc. rewrite Z.shiftr_div_pow2 by lia. change (2 ^ 1) with 2.
  pose proof (Z.div_mod c 2). pose proof (Z.mod_pos_bound c 2). lia.
Qed.

Lemma crc_state_byte b : crc_state (byte_val b).
Proof. unfold crc_state. pose proof (byte_val_range b). lia. Qed.

Lemma crc_step_state c : crc_state c -> crc_state (crc_step c).
Proof.
  intros Hc. unfold crc_step. destruct (crc_state_shiftr c Hc) as [Hs _].
  destruct (Z.testbit c 0); [|done]. apply crc_state_lxor; [done|unfold crc_state; lia].
Qed.

(** The low bit of [c] comes out as the top bit of the result, and the rest is
    a shift: a step loses nothing. *)
Lemma crc_step_bit31 c : crc_state c -> Z.testbit (crc_step c) 31 = Z.testbit c 0.
Proof.
  intros Hc. unfold crc_step. destruct (crc_state_shiftr c Hc) as [Hs Hs'].
  assert (Z.testbit (Z.shiftr c 1) 31 = false) as Hz.
  { rewrite <- (Z.mod_small (Z.shiftr c 1) (2 ^ 31)) by (unfold crc_state in Hs; lia).
    apply Z.mod_pow2_bits_high. lia. }
  destruct (Z.testbit c 0); [|done]. rewrite Z.lxor_spec, Hz. done.
Qed.

Lemma crc_step_inj a b : crc_state a -> crc_state b -> crc_step a = crc_step b -> a = b.
Proof.
  intros Ha Hb E.
  assert (Z.testbit a 0 = Z.testbit b 0) as E0
    by (by rewrite <- !crc_step_bit31, E).
  assert (Z.shiftr a 1 = Z.shiftr b 1) as E1.
  { unfold crc_step in E. rewrite E0 in E. destruct (Z.testbit b 0); [|done].
    apply (f_equal (fun z => Z.lxor z 0xEDB88320)) in E.
    by rewrite !Z.lxor_assoc, !Z.lxor_nilpotent, !Z.lxor_0_r in E. }
  apply Z.bits_inj'. intros i Hi. destruct (Z.eq_dec i 0) as [->|]; [done|].
  replace i with ((i - 1) + 1) by lia. rewrite <- !Z.shiftr_spec by lia. by rewrite E1.
Qed.

Lemma crc_iter_state n c : crc_state c -> crc_state (Nat.iter n crc_step c).
Proof. intros Hc. induction n; simpl; auto using crc_step_state. Qed.

Lemma crc_iter_inj n a b :
  crc_state a -> crc_state b -> Nat.iter n crc_step a = Nat.iter n crc_step b -> a = b.
Proof.
  intros Ha Hb. induction n as [|n IH]; simpl; [done|].
  intros E. apply IH, crc_step_inj; auto using crc_iter_state.
Qed.

Lemma crc_byte_state c b : crc_state c -> crc_state (crc_byte c b).
Proof. intros. apply crc_iter_state, crc_state_lxor; auto using crc_state_byte. Qed.

Lemma lxor_cancel_l a b c : Z.lxor c a = Z.lxor c b -> a = b.
Proof.
  intros E. apply (f_equal (Z.lxor c)) in E.
  by rewrite <- !Z.lxor_assoc, !Z.lxor_nilpotent, !Z.lxor_0_l in E.
Qed.

Lemma crc_byte_inj_byte c a b : crc_state c -> crc_byte c a = crc_byte c b -> a = b.
Proof.
  intros Hc E. apply crc_iter_inj in E; try (apply crc_state_lxor; auto using crc_state_byte).
  apply (inj byte_val). by eapply lxor_cancel_l.
Qed.

Lemma crc_byte_inj_state c d b :
  crc_state c -> crc_state d -> crc_byte c b = crc_byte d b -> c = d.
Proof.
  intros Hc Hd E. apply crc_iter_inj in E; try (apply crc_state_lxor; auto using crc_state_byte).
  rewrite !(Z.lxor_comm _ (byte_val b)) in E. by eapply lxor_cancel_l.
Qed.

Lemma crc_fold_state data c : crc_state c -> crc_state (foldl crc_byte c data).
Proof. revert c. induction data; simpl; auto using crc_byte_state. Qed.

Lemma crc_fold_inj data c d :
  crc_state c -> crc_state d -> foldl crc_byte c data = foldl crc_byte d data -> c = d.
Proof.
  revert c d. induction data as [|b data IH]; simpl; [done|]. intros c d Hc Hd E.
  apply (crc_byte_inj_state _ _ b); [done..|]. apply IH; auto using crc_byte_state.
Qed.

Lemma crc_init : crc_state 0xFFFFFFFF.
Proof. unfold crc_state. lia. Qed.

Lemma crc32_range data : 0 <= crc32 data < 2 ^ 32.
Proof. apply crc_state_lxor; auto using crc_fold_state, crc_init. Qed.

Lemma crc32_single_byte pre a b post :
  a <> b -> crc32 (pre ++ a :: post) <> crc32 (pre ++ b :: post).
Proof.
  intros Hab E. unfold crc32 in E. rewrite !(Z.lxor_comm _ 0xFFFFFFFF) in E.
  apply lxor_cancel_l in E. rewrite !foldl_app in E. simpl in E.
  apply crc_fold_inj in E; auto using crc_byte_state, crc_fold_state, crc_init.
  apply crc_byte_inj_byte in E; auto using crc_fold_state, crc_init.
Qed.

(** * Frames *)

Section replay_lemmas.
Context `{RecordCodec}.

(** A well-formed frame holding the record [r]. *)
Definition is_frame (f : bytes) (r : record) : Prop :=
  exists payload,
    f = le_bytes 4 (zlen payload) ++ le_bytes 4 (crc32 payload) ++ payload /\
    0 < zlen payload <= maxRecordSize /\ unmarshal payload = Some r.

(** Consecutive frames. *)
Definition bytes_of (fs : list bytes) : bytes := mjoin fs.

Lemma bytes_of_cons f fs : bytes_of (f :: fs) = f ++ bytes_of fs.
Proof. done. Qed.

(** A record whose frame replay accepts. *)
Definition frame_ok (r : record) : Prop :=
  valid_record r /\ zlen (marshal r) <= maxRecordSize.

Lemma maxRecordSize_val : maxRecordSize = 67108864.
Proof. done. Qed.

Lemma le4_roundtrip z : 0 <= z < 2 ^ 32 -> le_val (le_bytes 4 z) = z.
Proof. intros Hz. rewrite le_val_le_bytes. by apply Z.mod_small. Qed.

Lemma le4_take bs : length bs = 4%nat -> le_bytes 4 (le_val bs) = bs.
Proof. intros <-. apply le_bytes_le_val. Qed.

Lemma zlen_encodeRecord r : zlen (encodeRecord r) = recordHdrSize + zlen (marshal r).
Proof. unfold encodeRecord, zlen, recordHdrSize. rewrite !length_app, !length_le_bytes. lia. Qed.

Lemma is_frame_len f r : is_frame f r -> recordHdrSize < zlen f.
Proof.
  intros (p & -> & Hp & _). unfold zlen, recordHdrSize in *.
  rewrite !length_app, !length_le_bytes. lia.
Qed.

Lemma encodeRecord_frame r : frame_ok r -> is_frame (encodeRecord r) r.
Proof.
  intros [Hv Hl]. exists (marshal r).
  assert (0 < zlen (marshal r)).
  { pose proof (marshal_nonempty r). destruct (marshal r) as [|b l]; [done|].
    rewrite zlen_cons. pose proof (zlen_nonneg l). lia. }
  rewrite maxRecordSize_val in *. split_and!; [|lia|lia|by apply unmarshal_marshal].
  unfold encodeRecord, u32. rewrite Z.mod_small; [done|lia].
Qed.

Lemma frame_hdr p tail :
  let rest := (le_bytes 4 (zlen p) ++ le_bytes 4 (crc32 p) ++ p) ++ tail in
  take 8 rest = le_bytes 4 (zlen p) ++ le_bytes 4 (crc32 p) /\ drop 8 rest = p ++ tail.
Proof.
  cbv zeta. rewrite (assoc_L app (le_bytes 4 (zlen p))), <- (assoc_L app _ p).
  split; [apply take_app_length'|apply drop_app_length']; by rewrite length_app, !length_le_bytes.
Qed.

Section apply.
Context {S : Type} (apply : record -> S -> S).

(** One iteration of the loop, on eight header bytes and the rest. *)
Lemma replay_loop_hdr fuel size crc rest off lg fsz s :
  0 <= size < 2 ^ 32 -> 0 <= crc < 2 ^ 32 ->
  replay_loop apply (Datatypes.S fuel) (le_bytes 4 size ++ le_bytes 4 crc ++ rest) off lg fsz s =
  let off := off + recordHdrSize in
  if (size =? 0) || (maxRecordSize <? size) then (s, recoverOrCorrupt rest lg off fsz)
  else if zlen rest <? size then (s, (lg, None))
  else
    let payload := take (Z.to_nat size) rest in
    let rest := drop (Z.to_nat size) rest in
    let off := off + size in
    if negb (crc32 payload =? crc) then (s, recoverOrCorrupt rest lg off fsz)
    else match unmarshal payload with
         | None => (s, recoverOrCorrupt rest lg off fsz)
         | Some rec => replay_loop apply fuel rest off off fsz (apply rec s)
         end.
Proof.
  intros Hs Hc. set (h := le_bytes 4 size ++ le_bytes 4 crc). rewrite (assoc_L app). fold h.
  assert (length h = 8%nat) as Hh by (unfold h; by rewrite length_app, !length_le_bytes).
  cbn [replay_loop].
  rewrite bool_decide_false by (intros E; by rewrite (proj1 (app_eq_nil _ _ E)) in Hh).
  rewrite (proj2 (Z.ltb_ge _ _)) by (unfold zlen, recordHdrSize; rewrite length_app, Hh; lia).
  rewrite take_app_length', drop_app_length' by done. unfold h.
  rewrite take_app_length', drop_app_length' by (by rewrite length_le_bytes).
  by rewrite !le4_roundtrip.
Qed.

(** Replay consumes a well-formed frame and applies its record. *)
Lemma replay_loop_frame fuel f r tail off lg fs s :
  is_frame f r ->
  replay_loop apply (Datatypes.S fuel) (f ++ tail) off lg fs s =
  replay_loop apply fuel tail (off + zlen f) (off + zlen f) fs (apply r s).
Proof.
  intros (p & -> & Hp & Hu). rewrite maxRecordSize_val in Hp.
  rewrite <- !(assoc_L app), replay_loop_hdr by (apply crc32_range || lia). cbv zeta.
  rewrite (proj2 (Z.eqb_neq _ _)), (proj2 (Z.ltb_ge maxRecordSize _)) by (rewrite ?maxRecordSize_val; lia).
  cbn [orb]. rewrite (proj2 (Z.ltb_ge (zlen (p ++ tail)) _)) by (rewrite zlen_app; pose proof (zlen_nonneg tail); lia).
  rewrite to_nat_zlen, take_app_length, drop_app_length, Z.eqb_refl. cbn [negb].
  rewrite Hu. replace (off + recordHdrSize + zlen p)
    with (off + zlen (le_bytes 4 (zlen p) ++ le_bytes 4 (crc32 p) ++ p)); [done|].
  unfold recordHdrSize, zlen. rewrite !length_app, !length_le_bytes. lia.
Qed.

Lemma replay_loop_frames fuel fs rs tail off fsz s :
  Forall2 is_frame fs rs -> (length fs <= fuel)%nat ->
  replay_loop apply fuel (bytes_of fs ++ tail) off off fsz s =
  replay_loop apply (fuel - length fs) tail
    (off + zlen (bytes_of fs)) (off + zlen (bytes_of fs)) fsz (foldl (flip apply) s rs).
Proof.
  intros Hf. revert fuel off s. induction Hf as [|f r fs rs Hr Hf IH]; intros fuel off s Hl.
  - unfold bytes_of, zlen. simpl. by rewrite Nat.sub_0_r, Z.add_0_r.
  - cbn [length] in Hl. destruct fuel as [|fuel]; [lia|].
    rewrite bytes_of_cons, <- (assoc_L app), (replay_loop_frame _ _ r) by done.
    rewrite IH by lia. cbn [length foldl flip]. rewrite zlen_app, Z.add_assoc. done.
Qed.

(** What replay does on any input: it applies the records of the longest
    prefix of well-formed frames, and the only error is ErrWALCorrupt. *)
Lemma replay_loop_inv fuel rest off fsz s :
  (length rest < fuel)%nat ->
  exists fs rs tail err,
    rest = bytes_of fs ++ tail /\ Forall2 is_frame fs rs /\
    replay_loop apply fuel rest off off fsz s =
      (foldl (flip apply) s rs, (off + zlen (bytes_of fs), err)) /\
    (err = None \/ err = Some ErrWALCorrupt).
Proof.
  revert rest off s. induction fuel as [|fuel IH]; [lia|]. intros rest off s Hl.
  assert (forall o : option error, o = None \/ o = Some ErrWALCorrupt ->
    exists fs rs tail err,
    rest = bytes_of fs ++ tail /\ Forall2 is_frame fs rs /\
    (s, (off, o)) = (foldl (flip apply) s rs, (off + zlen (bytes_of fs), err)) /\
    (err = None \/ err = Some ErrWALCorrupt)) as Hstop.
  { intros o Ho. exists [], [], rest, o. unfold bytes_of, zlen. simpl. by rewrite Z.add_0_r. }
  assert (forall rem fe, exists o, recoverOrCorrupt rem off fe fsz = (off, o) /\
     (o = None \/ o = Some ErrWALCorrupt)) as Hrec.
  { intros rem fe. unfold recoverOrCorrupt. repeat case_match; eauto. }
  cbn [replay_loop]. case_bool_decide; [by apply Hstop; left|].
  case_match eqn:E8; [by apply Hstop; left|]. apply Z.ltb_ge in E8.
  unfold recordHdrSize, zlen in E8.
  case_match eqn:Esz; [destruct (Hrec (drop 8 rest) (off + recordHdrSize)) as (o & -> & Ho); by apply Hstop|].
  apply orb_false_iff in Esz as [Esz0 Eszm]. to_prop.
  set (size := le_val (take 4 (take 8 rest))) in *.
  case_match eqn:Elen; [by apply Hstop; left|]. apply Z.ltb_ge in Elen.
  set (payload := take (Z.to_nat size) (drop 8 rest)).
  assert (0 <= size) as Hsz by apply le_val_bound.
  assert (zlen payload = size) as Hpl.
  { unfold payload, zlen in *. rewrite length_take. lia. }
  case_match eqn:Ecrc; [edestruct Hrec as (o & -> & Ho); by apply Hstop|].
  apply negb_false_iff in Ecrc. to_prop.
  destruct (unmarshal payload) as [r|] eqn:Eu; [|edestruct Hrec as (o & -> & Ho); by apply Hstop].
  set (f := take 8 rest ++ payload).
  assert (is_frame f r) as Hf.
  { exists payload. split_and!; [|lia|lia|done]. unfold f. rewrite Hpl, Ecrc.
    unfold size. rewrite !le4_take by (rewrite ?length_drop, ?length_take, ?length_drop; lia).
    by rewrite (assoc_L app), take_drop. }
  destruct (IH (drop (Z.to_nat size) (drop 8 rest)) (off + recordHdrSize + size) (apply r s))
    as (fs & rs & tail & err & Hrest & Hfs & -> & Herr); [rewrite !length_drop; lia|].
  exists (f :: fs), (r :: rs), tail, err. split_and!; [|by constructor| |done].
  - rewrite bytes_of_cons, <- (assoc_L app), <- Hrest. unfold f, payload. by rewrite <- (assoc_L app), !take_drop.
  - rewrite bytes_of_cons, zlen_app. cbn [foldl flip]. unfold f at 1.
    rewrite zlen_app, Hpl. unfold zlen at 2. rewrite length_take. unfold recordHdrSize.
    do 2 f_equal. lia.
Qed.
End apply.
End replay_lemmas.

(** * Log files *)

Section log_lemmas.
Context `{RecordCodec} {S : Type} (apply : record -> S -> S).

Lemma length_walHeader : length walHeader = 16%nat.
Proof. done. Qed.

Lemma zlen_walHeader : zlen walHeader = walHeaderSize.
Proof. done. Qed.

Lemma frames_cons r rs : frames (r :: rs) = encodeRecord r ++ frames rs.
Proof. done. Qed.

Lemma frames_app rs rs' : frames (rs ++ rs') = frames rs ++ frames rs'.
Proof. apply bind_app. Qed.

Lemma wal_file_app rs rs' : wal_file (rs ++ rs') = wal_file rs ++ frames rs'.
Proof. unfold wal_file. by rewrite frames_app, (assoc_L app). Qed.

Lemma frames_bytes_of rs : frames rs = bytes_of (encodeRecord <$> rs).
Proof. induction rs as [|r rs IH]; [done|]. by rewrite frames_cons, fmap_cons, bytes_of_cons, IH. Qed.

Lemma frames_ok rs : Forall frame_ok rs -> Forall2 is_frame (encodeRecord <$> rs) rs.
Proof. induction 1; constructor; auto using encodeRecord_frame. Qed.

Lemma bytes_of_length fs rs : Forall2 is_frame fs rs -> (length fs <= length (bytes_of fs))%nat.
Proof.
  induction 1 as [|f r fs rs Hf Hfs IH]; [done|].
  rewrite bytes_of_cons, length_app. apply is_frame_len in Hf.
  unfold zlen, recordHdrSize in Hf. cbn [length]. lia.
Qed.

(** A header is sixteen bytes the header check accepts. *)
Definition good_header (hdr : bytes) : Prop := length hdr = 16%nat /\ readWALHeader hdr = None.

Lemma walHeader_good : good_header walHeader.
Proof. done. Qed.

Lemma readWALHeader_app hdr body :
  length hdr = 16%nat -> readWALHeader (hdr ++ body) = readWALHeader hdr.
Proof.
  intros Hl. unfold readWALHeader.
  rewrite (take_app_le hdr), (drop_app_le hdr), take_app_le by (rewrite ?length_drop; lia).
  rewrite (proj2 (Z.ltb_ge (zlen (hdr ++ body)) _)), (proj2 (Z.ltb_ge (zlen hdr) _)); [done|..];
    unfold zlen, walHeaderSize; rewrite ?length_app; lia.
Qed.

(** Replay starts after the header. *)
Lemma initWAL_header hdr body s :
  good_header hdr ->
  initWAL apply (hdr ++ body) s =
  (hdr ++ body,
   replay_loop apply (Datatypes.S (length body)) body walHeaderSize walHeaderSize
     (zlen (hdr ++ body)) s).
Proof.
  intros [Hl Hh]. unfold initWAL, replay. rewrite readWALHeader_app, Hh by done.
  rewrite drop_app_length' by done.
  rewrite (proj2 (Z.eqb_neq _ _)), (proj2 (Z.ltb_ge _ _)); [done|..];
    unfold zlen, walHeaderSize; rewrite length_app; lia.
Qed.

(** Replay of a log followed by [tail] continues at [tail]. *)
Lemma initWAL_log rs tail s :
  Forall frame_ok rs ->
  exists fuel, (length tail < fuel)%nat /\
  initWAL apply (wal_file rs ++ tail) s =
  (wal_file rs ++ tail,
   replay_loop apply fuel tail (zlen (wal_file rs)) (zlen (wal_file rs))
     (zlen (wal_file rs ++ tail)) (foldl (flip apply) s rs)).
Proof.
  intros Hrs. pose proof (frames_ok rs Hrs) as Hf. pose proof (bytes_of_length _ _ Hf) as Hl.
  unfold wal_file at 1 2. rewrite <- (assoc_L app), initWAL_header, frames_bytes_of by apply walHeader_good.
  rewrite (replay_loop_frames apply _ _ rs) by (done || (rewrite length_app; lia)).
  exists (Datatypes.S (length (bytes_of (encodeRecord <$> rs) ++ tail)) - length (encodeRecord <$> rs))%nat.
  split; [rewrite length_app; lia|]. unfold wal_file.
  rewrite <- (assoc_L app walHeader), frames_bytes_of, (zlen_app walHeader), zlen_walHeader.
  by rewrite (zlen_app walHeader), zlen_walHeader.
Qed.

Lemma hasValidRecord_frame f r tail : is_frame f r -> hasValidRecord (f ++ tail) = true.
Proof.
  intros (p & -> & Hp & Hu). rewrite maxRecordSize_val in Hp.
  destruct (frame_hdr p tail) as [Ht Hd].
  destruct ((le_bytes 4 (zlen p) ++ le_bytes 4 (crc32 p) ++ p) ++ tail) as [|b data] eqn:E; [by rewrite take_nil in Ht|].
  assert (take 4 (b :: data) = le_bytes 4 (zlen p)) as H4.
  { replace 4%nat with (4 `min` 8)%nat by done. rewrite <- take_take, Ht.
    apply take_app_length'. by rewrite length_le_bytes. }
  assert (take 4 (drop 4 (b :: data)) = le_bytes 4 (crc32 p)) as H8.
  { rewrite take_drop_commute. change (4 + 4)%nat with 8%nat. rewrite Ht. apply drop_app_length'. by rewrite length_le_bytes. }
  assert (zlen (b :: data) = recordHdrSize + zlen p + zlen tail) as Hlen.
  { rewrite <- E. unfold zlen, recordHdrSize. rewrite !length_app, !length_le_bytes. lia. }
  pose proof (zlen_nonneg tail). cbn [hasValidRecord]. fold hasValidRecord.
  rewrite Hlen, H4, H8, Hd, !le4_roundtrip by (apply crc32_range || lia).
  rewrite (proj2 (Z.ltb_ge _ _)), (proj2 (Z.eqb_neq _ _)), (proj2 (Z.ltb_ge maxRecordSize _)),
    (proj2 (Z.ltb_ge (_ + _ + _) _)) by (rewrite ?maxRecordSize_val; lia).
  cbn [orb]. by rewrite to_nat_zlen, take_app_length, Z.eqb_refl, Hu.
Qed.

(** Four printable bytes read as a length exceed the record limit. *)
Lemma printable_size bs :
  length bs = 4%nat -> Forall (fun b => 0x20 <= byte_val b) bs -> maxRecordSize < le_val bs.
Proof.
  intros Hl Hf. destruct bs as [|a [|b [|c [|d [|]]]]]; try done.
  repeat (apply Forall_cons in Hf as [? Hf]). rewrite !le_val_cons. cbn [le_val].
  rewrite maxRecordSize_val. pose proof (byte_val_range a). pose proof (byte_val_range b). lia.
Qed.

Lemma hasValidRecord_printable data :
  Forall (fun b => 0x20 <= byte_val b) data -> hasValidRecord data = false.
Proof.
  induction 1 as [|b data Hb Hf IH]; [done|]. cbn [hasValidRecord]. fold hasValidRecord.
  destruct (zlen (b :: data) <? recordHdrSize) eqn:E; [done|]. to_prop.
  rewrite (proj2 (Z.ltb_lt maxRecordSize _)), orb_true_r; [done|].
  apply printable_size; [|by apply Forall_take; constructor].
  unfold zlen, recordHdrSize in E. rewrite length_take. lia.
Qed.

(** A frame whose checksum does not match is where replay stops. *)
Lemma replay_loop_bad_crc fuel p p' tail off fsz s :
  zlen p = zlen p' -> 0 < zlen p <= maxRecordSize -> crc32 p' <> crc32 p ->
  replay_loop apply (Datatypes.S fuel)
    ((le_bytes 4 (zlen p) ++ le_bytes 4 (crc32 p) ++ p') ++ tail) off off fsz s =
  (s, recoverOrCorrupt tail off (off + recordHdrSize + zlen p) fsz).
Proof.
  intros Hl Hp Hc. rewrite maxRecordSize_val in Hp.
  rewrite <- !(assoc_L app), replay_loop_hdr by (apply crc32_range || lia). cbv zeta.
  rewrite (proj2 (Z.eqb_neq _ _)), (proj2 (Z.ltb_ge maxRecordSize _)) by (rewrite ?maxRecordSize_val; lia).
  cbn [orb]. rewrite (proj2 (Z.ltb_ge _ _)) by (rewrite zlen_app; pose proof (zlen_nonneg tail); lia).
  rewrite Hl, to_nat_zlen, take_app_length, drop_app_length.
  by rewrite (proj2 (Z.eqb_neq _ _)).
Qed.
End log_lemmas.

(** * Properties of the log *)

Section log_properties.
Context `{RecordCodec} {S : Type} (apply : record -> S -> S).

Lemma initWAL_wal_file rs s :
  Forall frame_ok rs ->
  initWAL apply (wal_file rs) s =
  (wal_file rs, (foldl (flip apply) s rs, (zlen (wal_file rs), None))).
Proof.
  intros Hrs. destruct (initWAL_log apply rs [] s Hrs) as (fuel & Hl & E).
  rewrite (right_id_L [] app) in E. rewrite E. destruct fuel; [inversion Hl|done].
Qed.

Lemma initWAL_torn rs r n s :
  Forall frame_ok rs -> frame_ok r -> (n < length (encodeRecord r))%nat ->
  initWAL apply (wal_file rs ++ take n (encodeRecord r)) s =
  (wal_file rs ++ take n (encodeRecord r),
   (foldl (flip apply) s rs, (zlen (wal_file rs), None))).
Proof.
  intros Hrs Hr Hn. destruct (initWAL_log apply rs (take n (encodeRecord r)) s Hrs) as (fuel & Hl & ->).
  destruct fuel as [|fuel]; [lia|]. f_equal.
  destruct (encodeRecord_frame r Hr) as (p & Ep & Hp & _). rewrite Ep in *. rewrite maxRecordSize_val in Hp.
  rewrite !length_app, !length_le_bytes in Hn.
  destruct (decide (n < 8)%nat) as [Hlt|Hge].
  - cbn [replay_loop]. case_bool_decide; [done|]. rewrite (proj2 (Z.ltb_lt _ _)); [done|].
    unfold zlen, recordHdrSize. rewrite length_take. lia.
  - rewrite !take_app_ge, !length_le_bytes by (rewrite ?length_le_bytes; lia).
    rewrite replay_loop_hdr by (apply crc32_range || lia). cbv zeta.
    rewrite (proj2 (Z.eqb_neq _ _)), (proj2 (Z.ltb_ge maxRecordSize _)) by (rewrite ?maxRecordSize_val; lia).
    cbn [orb]. rewrite (proj2 (Z.ltb_lt _ _)); [done|].
    unfold zlen in *. rewrite length_take. lia.
Qed.

(** What opening any file whatever does: an empty file gets a header, a file
    with a good header is replayed up to its first bad frame, and any other file
    is refused. *)
Inductive init_case (file : bytes) (s : S) : Prop :=
  | init_empty :
      file = [] -> initWAL apply file s = (walHeader, (s, (walHeaderSize, None))) ->
      init_case file s
  | init_replayed hdr fs rs tail err :
      file = hdr ++ bytes_of fs ++ tail -> good_header hdr -> Forall2 is_frame fs rs ->
      (err = None \/ err = Some ErrWALCorrupt) ->
      initWAL apply file s =
        (file, (foldl (flip apply) s rs, (walHeaderSize + zlen (bytes_of fs), err))) ->
      init_case file s
  | init_refused e :
      (e = ErrWALMagic \/ e = ErrWALVersion) ->
      initWAL apply file s = (file, (s, (0, Some e))) -> init_case file s.

Lemma initWAL_cases file s : init_case file s.
Proof.
  destruct (zlen file =? 0) eqn:E0; to_prop.
  { apply zlen_0_inv in E0 as ->. by apply init_empty. }
  destruct (zlen file <? walHeaderSize) eqn:E16.
  { apply init_refused with ErrWALMagic; [by left|]. unfold initWAL.
    by rewrite (proj2 (Z.eqb_neq _ _) E0), E16. }
  to_prop. unfold zlen, walHeaderSize in E16.
  assert (file = take 16 file ++ drop 16 file) as Hsplit by (by rewrite take_drop).
  assert (length (take 16 file) = 16%nat) as H16 by (rewrite length_take; lia).
  destruct (readWALHeader (take 16 file)) as [e|] eqn:Eh.
  - apply init_refused with e.
    + unfold readWALHeader in Eh. unfold zlen, walHeaderSize in Eh. rewrite H16 in Eh.
      cbn -[walMagic le_val] in Eh. repeat case_match; naive_solver.
    + unfold initWAL. rewrite (proj2 (Z.eqb_neq _ _) E0), (proj2 (Z.ltb_ge _ _)) by done.
      rewrite Hsplit at 1. by rewrite readWALHeader_app, Eh.
  - destruct (replay_loop_inv apply (Datatypes.S (length (drop 16 file))) (drop 16 file)
      walHeaderSize (zlen file) s) as (fs & rs & tail & err & Hrest & Hfs & E & Herr); [lia|].
    apply init_replayed with (take 16 file) fs rs tail err; [by rewrite <- Hrest|done..|].
    rewrite Hsplit at 1. rewrite initWAL_header by done. by rewrite take_drop, E.
Qed.

Lemma initWAL_is_frames hdr fs rs s :
  good_header hdr -> Forall2 is_frame fs rs ->
  initWAL apply (hdr ++ bytes_of fs) s =
  (hdr ++ bytes_of fs, (foldl (flip apply) s rs, (walHeaderSize + zlen (bytes_of fs), None))).
Proof.
  intros Hh Hf. rewrite initWAL_header by done. pose proof (bytes_of_length _ _ Hf).
  rewrite <- (right_id_L [] app (bytes_of fs)) at 3.
  rewrite (replay_loop_frames apply _ _ rs) by (done || lia).
  by destruct (Datatypes.S (length (bytes_of fs)) - length fs)%nat eqn:E; [lia|].
Qed.

(** C16.  Writing records and replaying them gives the same records in the same
    order: opening a log made of a header and the frames of any records that
    encoding/json carries (valid keys, at most 64 MiB each) applies exactly
    these records and accepts the whole file. *)
Theorem wal_roundtrip rs s :
  Forall frame_ok rs ->
  initWAL apply (wal_file rs) s =
  (wal_file rs, (foldl (flip apply) s rs, (zlen (wal_file rs), None))).
Proof. apply initWAL_wal_file. Qed.

(** C17.  Torn writes: if the append of a record was cut anywhere (the file ends
    with any proper prefix of its frame), opening the file succeeds, applies
    exactly the records before it, and reports the end of the last complete
    record as the point to truncate at. *)
Theorem torn_tail_recovered rs r n s :
  Forall frame_ok rs -> frame_ok r -> (n < length (encodeRecord r))%nat ->
  initWAL apply (wal_file rs ++ take n (encodeRecord r)) s =
  (wal_file rs ++ take n (encodeRecord r),
   (foldl (flip apply) s rs, (zlen (wal_file rs), None))).
Proof. apply initWAL_torn. Qed.

(** Recovery is idempotent, for every file contents whatever: if opening
    a file succeeds, then the file truncated at [lastGood], as Open leaves it,
    opens again with the same replayed state, the same [lastGood], no error and
    nothing further to truncate. *)
Theorem recovery_idempotent file file' s s' lastGood :
  initWAL apply file s = (file', (s', (lastGood, None))) ->
  let cut := take (Z.to_nat lastGood) file' in
  zlen cut = lastGood /\ initWAL apply cut s = (cut, (s', (lastGood, None))).
Proof.
  intros E. cbv zeta. destruct (initWAL_cases file s) as [-> E'|hdr fs rs tail err -> Hh Hfs _ E'|e _ E'];
    rewrite E' in E; simplify_eq.
  - split; [done|]. by apply (initWAL_is_frames walHeader [] []).
  - pose proof Hh as [Hl _].
    assert (take (Z.to_nat (walHeaderSize + zlen (bytes_of fs))) (hdr ++ bytes_of fs ++ tail)
      = hdr ++ bytes_of fs) as ->.
    { rewrite (assoc_L app). apply take_app_length'.
      unfold walHeaderSize, zlen. rewrite length_app. lia. }
    split; [|by apply initWAL_is_frames].
    rewrite zlen_app. unfold zlen at 1. by rewrite Hl.
Qed.

(** C18.  A flipped byte is caught: if one byte of the payload of a record in
    the log is changed, replay stops before that record.  With records after it
    the open fails with ErrWALCorrupt; at the end of the file the record is cut
    off.  In neither case is the damaged record applied. *)
Theorem flipped_byte_detected rs r pre a b post rs' s :
  Forall frame_ok rs -> frame_ok r -> Forall frame_ok rs' ->
  marshal r = pre ++ a :: post -> a <> b ->
  let damaged := le_bytes 4 (zlen (marshal r)) ++ le_bytes 4 (crc32 (marshal r)) ++ pre ++ b :: post in
  let file := wal_file rs ++ damaged ++ frames rs' in
  initWAL apply file s =
  (file, (foldl (flip apply) s rs,
     (zlen (wal_file rs), match rs' with [] => None | _ => Some ErrWALCorrupt end))).
Proof.
  intros Hrs Hr Hrs' Hm Hab. cbv zeta.
  set (damaged := le_bytes 4 (zlen (marshal r)) ++ _).
  destruct (initWAL_log apply rs (damaged ++ frames rs') s Hrs) as (fuel & Hl & ->).
  destruct fuel as [|fuel]; [lia|]. f_equal.
  assert (zlen (marshal r) = zlen (pre ++ b :: post)) as Hpl
    by (rewrite Hm; unfold zlen; by rewrite !length_app).
  assert (zlen damaged = recordHdrSize + zlen (marshal r)) as Hd
    by (rewrite Hpl; unfold damaged, zlen, recordHdrSize; rewrite !length_app, !length_le_bytes; lia).
  rewrite !zlen_app, Hd. destruct Hr as [Hv Hmax].
  unfold damaged. rewrite replay_loop_bad_crc; [|done| |].
  - f_equal. unfold recoverOrCorrupt. destruct rs' as [|r' rs'].
    + by rewrite (proj2 (Z.leb_le _ _)) by (change (zlen (frames [])) with 0; lia).
    + apply Forall_cons in Hrs' as [Hr' _]. pose proof (encodeRecord_frame r' Hr') as Hf.
      rewrite frames_cons, (hasValidRecord_frame _ r'), zlen_app by done.
      pose proof (is_frame_len _ _ Hf). pose proof (zlen_nonneg (frames rs')).
      unfold recordHdrSize in *. by rewrite (proj2 (Z.leb_gt _ _)) by lia.
  - rewrite Hm at 1. rewrite zlen_app, zlen_cons.
    pose proof (zlen_nonneg pre). pose proof (zlen_nonneg post). lia.
  - rewrite Hm. apply crc32_single_byte. done.
Qed.

(** C39.  Oversized records are lost: a record whose JSON text is longer than
    64 MiB is written by appendRecord without complaint, but the next open
    drops it without an error and truncates the file in front of it. *)
Theorem oversized_record_dropped rs r s :
  Forall frame_ok rs -> maxRecordSize < zlen (marshal r) < 2 ^ 32 ->
  fst (appendRecord (wal_file rs) r IoOk) = wal_file rs ++ encodeRecord r /\
  initWAL apply (wal_file rs ++ encodeRecord r) s =
  (wal_file rs ++ encodeRecord r, (foldl (flip apply) s rs, (zlen (wal_file rs), None))).
Proof.
  intros Hrs Hl. split; [done|].
  destruct (initWAL_log apply rs (encodeRecord r) s Hrs) as (fuel & Hfuel & ->).
  destruct fuel as [|fuel]; [lia|]. f_equal. unfold encodeRecord.
  rewrite maxRecordSize_val in Hl. unfold u32. rewrite Z.mod_small by lia.
  rewrite replay_loop_hdr by (apply crc32_range || lia). cbv zeta.
  rewrite (proj2 (Z.ltb_lt maxRecordSize _)), orb_true_r by (rewrite ?maxRecordSize_val; lia).
  unfold recoverOrCorrupt. rewrite hasValidRecord_printable by apply marshal_printable.
  by case_match.
Qed.

(** A frame header that claims more bytes than the file has. *)
Lemma initWAL_short_body rs size crc body s :
  Forall frame_ok rs -> 0 < size <= maxRecordSize -> 0 <= crc < 2 ^ 32 -> zlen body < size ->
  initWAL apply (wal_file rs ++ le_bytes 4 size ++ le_bytes 4 crc ++ body) s =
  (wal_file rs ++ le_bytes 4 size ++ le_bytes 4 crc ++ body,
   (foldl (flip apply) s rs, (zlen (wal_file rs), None))).
Proof.
  intros Hrs Hs Hc Hb. rewrite maxRecordSize_val in Hs.
  destruct (initWAL_log apply rs (le_bytes 4 size ++ le_bytes 4 crc ++ body) s Hrs) as (fuel & Hfuel & ->).
  destruct fuel as [|fuel]; [lia|]. f_equal.
  rewrite replay_loop_hdr by lia. cbv zeta.
  rewrite (proj2 (Z.eqb_neq _ _)), (proj2 (Z.ltb_ge maxRecordSize _)) by (rewrite ?maxRecordSize_val; lia).
  cbn [orb]. by rewrite (proj2 (Z.ltb_lt _ _)) by lia.
Qed.

(** Corruption of a length field is not told from a torn tail: if the
    frame header at some point of the log claims a length within the limit but
    past the end of the file, every later record, valid or not, is dropped
    without an error. *)
Theorem corrupt_length_truncates rs size crc body s :
  Forall frame_ok rs -> 0 < size <= maxRecordSize -> 0 <= crc < 2 ^ 32 -> zlen body < size ->
  let file := wal_file rs ++ le_bytes 4 size ++ le_bytes 4 crc ++ body in
  initWAL apply file s = (file, (foldl (flip apply) s rs, (zlen (wal_file rs), None))).
Proof. apply initWAL_short_body. Qed.

End log_properties.
