(* ===== verification/WalJson.v ===== *)
(** The JSON text of log records: what json.Marshal writes for the [record] and
    [operation] structs of wal.go (field order, omitempty, string escaping,
    base64 for byte slices), and a decoder for that text.  They are an instance
    of [RecordCodec], so the laws the log relies on can be met; the decoder
    accepts only the form Marshal writes, a subset of what json.Unmarshal
    accepts. *)

From S2P Require Import Prelude Utf8 Strconv Wal.

(** * Strings *)

Definition lower_hex (d : Z) : byte := byte_of (if d <? 10 then 48 + d else 87 + d).

Definition hex4 (c : Z) : bytes :=
  [lower_hex (c / 4096 mod 16); lower_hex (c / 256 mod 16); lower_hex (c / 16 mod 16); lower_hex (c mod 16)].

Definition u_escape (c : Z) : bytes := lit "\u" ++ hex4 c.

(** htmlSafeSet: printable, and none of the quote, backslash and HTML characters. *)
Definition html_safe (v : Z) : bool :=
  (0x20 <=? v) && negb ((v =? 34) || (v =? 92) || (v =? 60) || (v =? 62) || (v =? 38)).

Definition escape_ascii (b : byte) : bytes :=
  let v := byte_val b in
  if html_safe v then [b]
  else if (v =? 34) || (v =? 92) then [byte_of 92; b]
  else if v =? 8 then lit "\b"
  else if v =? 12 then lit "\f"
  else if v =? 10 then lit "\n"
  else if v =? 13 then lit "\r"
  else if v =? 9 then lit "\t"
  else u_escape v.

(** Escape [s]; [skip] more bytes belong to the current rune and are copied or,
    after an escape that replaced the rune, dropped. *)
Fixpoint escape_from (copy : bool) (skip : nat) (s : bytes) : bytes :=
  match s with
  | [] => []
  | b :: s' =>
      match skip with
      | S k => (if copy then [b] else []) ++ escape_from copy k s'
      | O =>
          if byte_val b <? 0x80 then escape_ascii b ++ escape_from true 0 s'
          else
            let '(c, w) := decodeRune s in
            if (c =? runeError) && (Nat.eqb w 1) then u_escape runeError ++ escape_from true 0 s'
            else if (c =? 0x2028) || (c =? 0x2029) then u_escape c ++ escape_from false (Nat.pred w) s'
            else b :: escape_from true (Nat.pred w) s'
      end
  end.

Definition dq : byte := Byte.x22.
Definition backslash : byte := Byte.x5c.

Definition quote (s : bytes) : bytes := dq :: escape_from true 0 s ++ [dq].

(** * Byte slices: base64 with padding *)

Definition b64_char (d : Z) : byte :=
  if d <? 26 then byte_of (65 + d)
  else if d <? 52 then byte_of (71 + d)
  else if d <? 62 then byte_of (d - 4)
  else if d =? 62 then byte_of 43 else byte_of 47.

Definition b64_val (b : byte) : option Z :=
  let v := byte_val b in
  if (65 <=? v) && (v <=? 90) then Some (v - 65)
  else if (97 <=? v) && (v <=? 122) then Some (v - 71)
  else if (48 <=? v) && (v <=? 57) then Some (v + 4)
  else if v =? 43 then Some 62
  else if v =? 47 then Some 63
  else None.

Definition b64_pad : byte := byte_of 61.

Fixpoint b64_encode (s : bytes) : bytes :=
  match s with
  | a :: b :: c :: s' =>
      let n := byte_val a * 65536 + byte_val b * 256 + byte_val c in
      [b64_char (n / 262144); b64_char (n / 4096 mod 64); b64_char (n / 64 mod 64); b64_char (n mod 64)]
        ++ b64_encode s'
  | [a; b] =>
      let n := byte_val a * 65536 + byte_val b * 256 in
      [b64_char (n / 262144); b64_char (n / 4096 mod 64); b64_char (n / 64 mod 64); b64_pad]
  | [a] =>
      let n := byte_val a * 65536 in
      [b64_char (n / 262144); b64_char (n / 4096 mod 64); b64_pad; b64_pad]
  | [] => []
  end.

Fixpoint b64_decode (s : bytes) : option bytes :=
  match s with
  | w :: x :: y :: z :: s' =>
      match b64_val w, b64_val x with
      | Some w, Some x =>
          let n := w * 262144 + x * 4096 in
          match b64_val y, b64_val z with
          | Some y, Some z =>
              let n := n + y * 64 + z in
              app [byte_of (n / 65536); byte_of (n / 256); byte_of n] <$> b64_decode s'
          | Some y, None =>
              if bool_decide (z = b64_pad /\ s' = [])
              then Some [byte_of (n / 65536); byte_of ((n + y * 64) / 256)] else None
          | None, _ =>
              if bool_decide (y = b64_pad /\ z = b64_pad /\ s' = [])
              then Some [byte_of (n / 65536)] else None
          end
      | _, _ => None
      end
  | [] => Some []
  | _ => None
  end.

(** * Records *)

(** A member name with its colon. *)
Definition member (name : bytes) : bytes := dq :: name ++ [dq] ++ lit ":".

Definition marshal_op (op : operation) : bytes :=
  lit "{" ++ member (lit "key") ++ quote (op_key op) ++
  (if bool_decide (op_value op = []) then []
   else lit "," ++ member (lit "value") ++ dq :: b64_encode (op_value op) ++ [dq]) ++
  (if op_delete op then lit "," ++ member (lit "delete") ++ lit "true" else []) ++ lit "}".

Fixpoint marshal_ops (ops : list operation) : bytes :=
  match ops with
  | [] => lit "]"
  | [op] => marshal_op op ++ lit "]"
  | op :: ops => marshal_op op ++ lit "," ++ marshal_ops ops
  end.

Definition marshal_record (r : record) : bytes :=
  lit "{" ++ member (lit "version") ++ formatUint (rec_version r) ++ lit "," ++ member (lit "ops") ++
  lit "[" ++ marshal_ops (rec_ops r) ++ lit "}".

(** * The decoder *)

(** Consume a literal. *)
Fixpoint expect (p s : bytes) : option bytes :=
  match p, s with
  | [], _ => Some s
  | x :: p', y :: s' => if bool_decide (x = y) then expect p' s' else None
  | _ :: _, [] => None
  end.

(** The leading digits of [s] and the rest. *)
Fixpoint span_digits (s : bytes) : bytes * bytes :=
  match s with
  | b :: s' => if is_digit b then let '(ds, r) := span_digits s' in (b :: ds, r) else ([], s)
  | [] => ([], [])
  end.

(** Everything up to the next quote. *)
Fixpoint span_quote (s : bytes) : option (bytes * bytes) :=
  match s with
  | b :: s' =>
      if bool_decide (b = dq) then Some ([], s')
      else '(x, r) ← span_quote s'; Some (b :: x, r)
  | [] => None
  end.

(** UTF-8 of a code point of the basic plane. *)
Definition encode_bmp (c : Z) : bytes :=
  if c <? 0x80 then [byte_of c]
  else if c <? 0x800 then [byte_of (0xC0 + c / 64); byte_of (0x80 + c mod 64)]
  else [byte_of (0xE0 + c / 4096); byte_of (0x80 + c / 64 mod 64); byte_of (0x80 + c mod 64)].

Definition unescape_char (e : byte) : option byte :=
  let v := byte_val e in
  if (v =? 34) || (v =? 92) || (v =? 47) then Some e
  else if v =? 98 then Some (byte_of 8)
  else if v =? 102 then Some (byte_of 12)
  else if v =? 110 then Some (byte_of 10)
  else if v =? 114 then Some (byte_of 13)
  else if v =? 116 then Some (byte_of 9)
  else None.

(** The body of a string up to its closing quote, and the rest. *)
Fixpoint unescape (s : bytes) : option (bytes * bytes) :=
  match s with
  | [] => None
  | b :: s' =>
      if bool_decide (b = dq) then Some ([], s')
      else if bool_decide (b = backslash) then
        match s' with
        | e :: s'' =>
            if byte_val e =? 117 then
              match s'' with
              | h1 :: h2 :: h3 :: h4 :: r =>
                  a ← unhex h1; b ← unhex h2; c ← unhex h3; d ← unhex h4;
                  '(x, r) ← unescape r;
                  Some (encode_bmp (a * 4096 + b * 256 + c * 16 + d) ++ x, r)
              | _ => None
              end
            else e ← unescape_char e; '(x, r) ← unescape s''; Some (e :: x, r)
        | [] => None
        end
      else '(x, r) ← unescape s'; Some (b :: x, r)
  end.

Definition parse_op (s : bytes) : option (operation * bytes) :=
  s ← expect (lit "{" ++ member (lit "key") ++ [dq]) s;
  '(key, s) ← unescape s;
  '(value, s) ←
    match expect (lit "," ++ member (lit "value") ++ [dq]) s with
    | Some s => '(x, s) ← span_quote s; v ← b64_decode x; Some (v, s)
    | None => Some ([], s)
    end;
  '(del, s) ←
    match expect (lit "," ++ member (lit "delete") ++ lit "true") s with
    | Some s => Some (true, s)
    | None => Some (false, s)
    end;
  s ← expect (lit "}") s;
  Some (mkOp key value del, s).

(** The operations up to the closing bracket; [fuel] bounds their number. *)
Fixpoint parse_ops (fuel : nat) (s : bytes) : option (list operation * bytes) :=
  match fuel with
  | O => None
  | S fuel =>
      '(op, s) ← parse_op s;
      match expect (lit ",") s with
      | Some s => '(ops, s) ← parse_ops fuel s; Some (op :: ops, s)
      | None => s ← expect (lit "]") s; Some ([op], s)
      end
  end.

Definition unmarshal_record (s : bytes) : option record :=
  s ← expect (lit "{" ++ member (lit "version")) s;
  let '(ds, s) := span_digits s in
  v ← parse_digits ds 0;
  s ← expect (lit "," ++ member (lit "ops") ++ lit "[") s;
  '(ops, s) ←
    match expect (lit "]") s with
    | Some s => Some ([], s)
    | None => parse_ops (length s) s
    end;
  s ← expect (lit "}") s;
  if bool_decide (s = []) then Some (mkRec v ops) else None.

(** * Strings survive *)

Lemma expect_app p s : expect p (p ++ s) = Some s.
Proof. induction p as [|x p IH]; [done|]. simpl. by rewrite bool_decide_true. Qed.

(** The two line separators that are escaped have one encoding each. *)
Lemma decodeRune_2028 b t c w :
  decodeRune (b :: t) = (c, w) -> (c =? 0x2028) || (c =? 0x2029) = true ->
  w = 3%nat /\ exists t', b :: t = encode_bmp c ++ t'.
Proof.
  intros Hd Hc. assert (c = 0x2028 \/ c = 0x2029) as Hc' by lia. clear Hc.
  destruct (Z.ltb_spec (byte_val b) 0x80) as [Ha|Hb]; [rewrite decodeRune_ascii in Hd by done; injection Hd as <- <-; lia|].
  pose proof (decodeRune_form b t Hb) as Hf. rewrite Hd in Hf.
  assert (rune_bad (c, w) = false) as Hg by (unfold rune_bad, runeError; cbn [fst]; lia).
  specialize (Hf Hg). cbn [fst snd] in Hf. destruct Hf as [b1 t E1 E2|b1 b2 t E1 E2 E3|b1 b2 b3 t E1 E2 E3 E4];
    unfold accept_second, is_cont, in_range in *; [lia| |repeat case_match; lia].
  split; [done|]. exists t.
  assert (byte_val b = 0xE2 /\ byte_val b1 = 0x80 /\ (byte_val b2 = 0xA8 \/ byte_val b2 = 0xA9)) as (Eb & Eb1 & Eb2).
  { repeat case_match; lia. }
  rewrite <- (byte_of_val b), <- (byte_of_val b1), <- (byte_of_val b2), Eb, Eb1. by destruct Eb2 as [-> | ->].
Qed.

Lemma unescape_ascii b X :
  byte_val b < 0x80 ->
  unescape (escape_ascii b ++ X) = '(x, r) ← unescape X; Some (b :: x, r).
Proof. intros Hb. destruct b; try (exfalso; vm_compute in Hb; discriminate); reflexivity. Qed.

Lemma unescape_u2028 c X :
  (c =? 0x2028) || (c =? 0x2029) = true ->
  unescape (u_escape c ++ X) = '(x, r) ← unescape X; Some (encode_bmp c ++ x, r).
Proof. intros Hc. assert (c = 0x2028 \/ c = 0x2029) as [-> | ->] by lia; reflexivity. Qed.

Lemma unescape_high b X :
  high b -> unescape (b :: X) = '(x, r) ← unescape X; Some (b :: x, r).
Proof.
  intros Hb. cbn [unescape].
  rewrite !bool_decide_false; [done|..]; intros ->; vm_compute in Hb; by apply Hb.
Qed.

Lemma unescape_escape s copy skip rest :
  forallb (fun rw => negb (rune_bad rw)) (runes_from skip s) = true ->
  (skip <= length s)%nat -> (copy = true -> Forall high (take skip s)) ->
  unescape (escape_from copy skip s ++ dq :: rest) = Some (if copy then s else drop skip s, rest).
Proof.
  revert copy skip. induction s as [|b s IH]; intros copy skip Hok Hl Hh.
  { assert (skip = 0)%nat as -> by (simpl in Hl; lia). by destruct copy. }
  destruct skip as [|skip].
  2:{ cbn [length] in Hl. destruct copy; simpl.
      - specialize (Hh eq_refl). simpl in Hh. apply Forall_cons in Hh as [Hb Hh].
        change (unescape (b :: (escape_from true skip s ++ dq :: rest)) = Some (b :: s, rest)).
        rewrite unescape_high, IH by (done || lia). done.
      - apply IH; [done|lia|done]. }
  replace (if copy then b :: s else drop 0 (b :: s)) with (b :: s) by (by destruct copy).
  cbn [runes_from forallb] in Hok. apply andb_true_iff in Hok as [Hb Hok]. apply negb_true_iff in Hb.
  cbn [escape_from]. destruct (Z.ltb_spec (byte_val b) 0x80) as [Ha|Ha].
  - rewrite <- (assoc_L app), unescape_ascii by done. rewrite decodeRune_ascii in Hok by done.
    rewrite IH; [done|done|lia|by constructor].
  - destruct (decodeRune_high b s Ha Hb) as [Hw Hf]. unfold rune_bad in Hb.
    destruct (decodeRune (b :: s)) as [c w] eqn:Ed. cbn [fst snd] in *. rewrite Hb.
    destruct ((c =? 0x2028) || (c =? 0x2029)) eqn:Ec.
    + destruct (decodeRune_2028 b s c w Ed Ec) as [-> [t' Et]].
      rewrite <- (assoc_L app), unescape_u2028 by done. rewrite IH; [|done..]. simpl.
      assert (length (encode_bmp c) = 3%nat) as Hl3 by (assert (c = 0x2028 \/ c = 0x2029) as [-> | ->] by lia; done).
      replace (drop 2 s) with (drop 3 (b :: s)) by done. rewrite Et.
      by rewrite drop_app_length' by done.
    + change ((b :: escape_from true (Nat.pred w) s) ++ dq :: rest)
        with (b :: (escape_from true (Nat.pred w) s ++ dq :: rest)).
      rewrite unescape_high, IH by (done || lia). done.
Qed.

Lemma unescape_quote s rest :
  utf8_valid s = true -> unescape (escape_from true 0 s ++ dq :: rest) = Some (s, rest).
Proof. intros Hv. by apply unescape_escape; [|lia|constructor]. Qed.

(** * Byte slices survive *)

(** A decidable property that holds of every six-bit value. *)
Lemma six_bits (P : Z -> Prop) `{!forall d, Decision (P d)} d :
  forallb (fun n => bool_decide (P (Z.of_nat n))) (seq 0 64) = true -> 0 <= d < 64 -> P d.
Proof.
  intros Hall Hd. rewrite forallb_forall in Hall. rewrite <- (Z2Nat.id d) by lia.
  eapply bool_decide_eq_true_1, Hall, in_seq. lia.
Qed.

Lemma b64_val_char d : 0 <= d < 64 -> b64_val (b64_char d) = Some d.
Proof. by apply (six_bits (fun d => b64_val (b64_char d) = Some d)). Qed.

Lemma b64_val_pad : b64_val b64_pad = None.
Proof. done. Qed.

(** Bytes come in threes, with one or two left over. *)
Lemma bytes_ind3 (P : bytes -> Prop) :
  P [] -> (forall a, P [a]) -> (forall a b, P [a; b]) ->
  (forall a b c s, P s -> P (a :: b :: c :: s)) -> forall s, P s.
Proof.
  intros H0 H1 H2 H3 s. remember (length s) as n eqn:E.
  revert s E. induction n as [n IH] using lt_wf_ind. intros s ->.
  destruct s as [|a [|b [|c s]]]; [done..|]. apply H3. eapply IH; [|done]. simpl. lia.
Qed.

Lemma b64_roundtrip s : b64_decode (b64_encode s) = Some s.
Proof.
  induction s as [|a|a b|a b c s IH] using bytes_ind3; [done|..]; cbn [b64_encode b64_decode app];
    pose proof (byte_val_range a); try pose proof (byte_val_range b); try pose proof (byte_val_range c);
    rewrite !b64_val_char by modlia; rewrite ?b64_val_pad, ?bool_decide_true, ?IH by done;
    cbn [fmap option_fmap option_map app]; repeat f_equal; apply byte_of_eq; modlia.
Qed.

Definition printable (b : byte) : Prop := 0x20 <= byte_val b.
Definition plain (b : byte) : Prop := printable b /\ b <> dq.

Lemma b64_char_plain d : 0 <= d < 64 -> plain (b64_char d).
Proof.
  by apply (six_bits (fun d => 0x20 <= byte_val (b64_char d) /\ b64_char d <> dq)).
Qed.

Lemma b64_plain s : Forall plain (b64_encode s).
Proof.
  induction s as [|a|a b|a b c s IH] using bytes_ind3; [constructor|..]; cbn [b64_encode app];
    pose proof (byte_val_range a); try pose proof (byte_val_range b); try pose proof (byte_val_range c);
    repeat (apply Forall_cons; split); try apply b64_char_plain; try done; try modlia.
Qed.

Lemma span_quote_app x r : Forall plain x -> span_quote (x ++ dq :: r) = Some (x, r).
Proof.
  induction 1 as [|b x [_ Hb] _ IH]; cbn [app span_quote]; [by rewrite bool_decide_true|].
  rewrite bool_decide_false by done. by rewrite IH.
Qed.

Lemma span_digits_app ds b r :
  Forall (fun b => is_digit b = true) ds -> is_digit b = false -> span_digits (ds ++ b :: r) = (ds, b :: r).
Proof.
  intros Hd Hb. induction Hd as [|d ds Hd _ IH]; cbn [app span_digits]; [by rewrite Hb|]. by rewrite Hd, IH.
Qed.

(** * Records survive *)

(** The text of an operation without what follows its key. *)
Definition op_tail (op : operation) : bytes :=
  (if bool_decide (op_value op = []) then []
   else lit "," ++ member (lit "value") ++ dq :: b64_encode (op_value op) ++ [dq]) ++
  (if op_delete op then lit "," ++ member (lit "delete") ++ lit "true" else []) ++ lit "}".

Lemma marshal_op_eq op rest :
  marshal_op op ++ rest =
  (lit "{" ++ member (lit "key") ++ [dq]) ++ escape_from true 0 (op_key op) ++ dq :: (op_tail op ++ rest).
Proof. unfold marshal_op, op_tail, quote. repeat (rewrite <- ?app_assoc; cbn [app]). done. Qed.

Lemma parse_marshal_op op rest :
  valid_op op -> parse_op (marshal_op op ++ rest) = Some (op, rest).
Proof.
  intros Hv. unfold parse_op. rewrite marshal_op_eq, expect_app. cbn [mbind option_bind].
  rewrite unescape_quote by done. cbn [mbind option_bind].
  destruct op as [key value del]. unfold op_tail. cbn [op_key op_value op_delete].
  case_bool_decide as Hval; [subst; by destruct del|].
  replace (((lit "," ++ member (lit "value") ++ dq :: b64_encode value ++ [dq]) ++
            (if del then lit "," ++ member (lit "delete") ++ lit "true" else []) ++ lit "}") ++ rest)
    with ((lit "," ++ member (lit "value") ++ [dq]) ++ b64_encode value ++ dq ::
          ((if del then lit "," ++ member (lit "delete") ++ lit "true" else []) ++ lit "}" ++ rest))
    by (repeat (rewrite <- ?app_assoc; cbn [app]); done).
  rewrite expect_app, span_quote_app by apply b64_plain. cbn [mbind option_bind].
  rewrite b64_roundtrip. by destruct del.
Qed.

Lemma marshal_op_head op rest : exists t, marshal_op op ++ rest = lit "{" ++ t.
Proof. unfold marshal_op. rewrite <- app_assoc. by eexists. Qed.

Lemma marshal_ops_length ops : ops <> [] -> (length ops < length (marshal_ops ops))%nat.
Proof.
  induction ops as [|op [|op' ops] IH]; [done|intros _..].
  - cbn. rewrite length_app. unfold marshal_op. rewrite length_app. simpl. lia.
  - specialize (IH ltac:(done)).
    change (marshal_ops (op :: op' :: ops)) with (marshal_op op ++ lit "," ++ marshal_ops (op' :: ops)).
    rewrite !length_app. change (length (lit ",")) with 1%nat. cbn [length] in *. lia.
Qed.

Lemma parse_marshal_ops ops fuel rest :
  Forall valid_op ops -> ops <> [] -> (length ops <= fuel)%nat ->
  parse_ops fuel (marshal_ops ops ++ rest) = Some (ops, rest).
Proof.
  revert fuel. induction ops as [|op ops IH]; intros fuel Hv Hne Hf; [done|].
  apply Forall_cons in Hv as [Hop Hv]. destruct fuel as [|fuel]; [simpl in Hf; lia|].
  cbn [parse_ops]. destruct ops as [|op' ops].
  - cbn [marshal_ops]. rewrite <- app_assoc, parse_marshal_op by done. done.
  - change (marshal_ops (op :: op' :: ops)) with (marshal_op op ++ lit "," ++ marshal_ops (op' :: ops)).
    rewrite <- !app_assoc, parse_marshal_op by done. cbn [mbind option_bind].
    rewrite expect_app, IH; [done|done|done|]. cbn [length] in *. lia.
Qed.

Lemma unmarshal_marshal_record r : valid_record r -> unmarshal_record (marshal_record r) = Some r.
Proof.
  intros [Hver Hops]. destruct r as [v ops]. unfold unmarshal_record, marshal_record. cbn [rec_version rec_ops] in *.
  rewrite (app_assoc (lit "{")), expect_app. cbn [mbind option_bind].
  replace (formatUint v ++ lit "," ++ member (lit "ops") ++ lit "[" ++ marshal_ops ops ++ lit "}")
    with (formatUint v ++ byte_of 44 :: (member (lit "ops") ++ lit "[" ++ marshal_ops ops ++ lit "}")) by done.
  rewrite span_digits_app by (done || apply formatUint_digits).
  rewrite parse_formatUint by done. cbn [mbind option_bind].
  replace (byte_of 44 :: member (lit "ops") ++ lit "[" ++ marshal_ops ops ++ lit "}")
    with ((lit "," ++ member (lit "ops") ++ lit "[") ++ marshal_ops ops ++ lit "}") by done.
  rewrite expect_app. cbn [mbind option_bind].
  destruct ops as [|op ops]; [done|].
  assert (expect (lit "]") (marshal_ops (op :: ops) ++ lit "}") = None) as ->.
  { destruct ops as [|op' ops]; [by destruct op|].
    change (marshal_ops (op :: op' :: ops)) with (marshal_op op ++ lit "," ++ marshal_ops (op' :: ops)). by destruct op. }
  rewrite parse_marshal_ops; [done|done|done|].
  rewrite length_app. pose proof (marshal_ops_length (op :: ops) ltac:(done)). lia.
Qed.

(** * The text is printable *)

Lemma escape_printable s copy skip :
  (copy = true -> Forall high (take skip s)) -> Forall printable (escape_from copy skip s).
Proof.
  assert (forall b, high b -> printable b) as Hhp by (unfold high, printable; lia).
  revert copy skip. induction s as [|b s IH]; intros copy skip Hh; [constructor|].
  destruct skip as [|skip].
  { cbn [escape_from]. destruct (Z.ltb_spec (byte_val b) 0x80) as [Ha|Ha].
    - apply Forall_app; split; [|by apply IH; constructor].
      destruct b; try (exfalso; vm_compute in Ha; discriminate); by repeat constructor.
    - destruct (rune_bad (decodeRune (b :: s))) eqn:Hb.
      + unfold rune_bad in Hb. destruct (decodeRune (b :: s)) as [c w]. simpl in Hb. rewrite Hb.
        apply Forall_app; split; [by repeat constructor|by apply IH; constructor].
      + destruct (decodeRune_high b s Ha Hb) as [_ Hf]. unfold rune_bad in Hb.
        destruct (decodeRune (b :: s)) as [c w]. cbn [fst snd] in *. rewrite Hb.
        destruct ((c =? 0x2028) || (c =? 0x2029)) eqn:Ec.
        * apply Forall_app; split; [|by apply IH].
          assert (c = 0x2028 \/ c = 0x2029) as [-> | ->] by lia; by repeat constructor.
        * constructor; [by apply Hhp|by apply IH]. }
  destruct copy; simpl; [|by apply IH].
  specialize (Hh eq_refl). simpl in Hh. apply Forall_cons in Hh as [Hb Hh]. constructor; [by apply Hhp|by apply IH].
Qed.

Lemma printable_lit s : forallb (fun b => 0x20 <=? byte_val b) (lit s) = true -> Forall printable (lit s).
Proof.
  generalize (lit s). intros l. rewrite forallb_forall, Forall_forall. intros H b Hb.
  apply Z.leb_le, H. by apply list_elem_of_In.
Qed.

Ltac printables := repeat (apply Forall_app; split); try (by apply printable_lit); try done.

Lemma printable_quoted x : Forall printable x -> Forall printable (dq :: x ++ [dq]).
Proof. intros Hx. constructor; [done|]. apply Forall_app. split; [done|by repeat constructor]. Qed.

Lemma printable_op op : Forall printable (marshal_op op).
Proof.
  unfold marshal_op, quote. printables; try (by repeat constructor).
  - apply printable_quoted. by apply escape_printable; constructor.
  - case_bool_decide; [constructor|]. printables; [by repeat constructor|]. apply printable_quoted.
    eapply Forall_impl; [apply b64_plain|]. by intros b [].
  - destruct (op_delete op); by repeat constructor.
Qed.

Lemma printable_record r : Forall printable (marshal_record r).
Proof.
  unfold marshal_record. printables; try (by repeat constructor).
  - eapply Forall_impl; [apply formatUint_digits|].
    intros b Hb. unfold is_digit in Hb. unfold printable. lia.
  - induction (rec_ops r) as [|op [|op' ops] IH]; [by repeat constructor|..].
    + cbn [marshal_ops]. apply Forall_app. split; [apply printable_op|by repeat constructor].
    + change (marshal_ops (op :: op' :: ops)) with (marshal_op op ++ lit "," ++ marshal_ops (op' :: ops)).
      apply Forall_app. split; [apply printable_op|]. printables.
Qed.

(** encoding/json meets the laws the log relies on. *)
#[export, refine] Instance json_codec : RecordCodec := {|
  marshal := marshal_record;
  unmarshal := unmarshal_record;
|}.
Proof.
  - exact unmarshal_marshal_record.
  - intros r. done.
  - exact printable_record.
Defined.
