(* ===== verification/Mvcc.v ===== *)
(** The transactional kernel (db.go, tx.go, scan.go): the version history, the
    registry of open snapshots, transactions with buffered writes, commit with
    conflict detection, and prefix scans.

    Every operation runs under the database lock or on a transaction owned by
    one goroutine, so it is one function on the state.  A transaction pointer is
    a number; the SQL side of the DB struct (catalog and index trees) belongs to
    the SQL layer and is not part of this record. *)

From S2P Require Import Prelude Utf8 Strconv Keys Wal.

(** * State *)

Record valueVersion := mkVV {
  vv_version : Z;
  vv_value : bytes;
  vv_deleted : bool;
}.

Record DB := mkDB {
  db_file : bytes;
  db_history : gmap bytes (list valueVersion);
  db_version : Z;
  db_closed : bool;
  db_active : gmap nat Z;
  db_reads : Z;
  db_commits : Z;
  db_conflicts : Z;
  db_compactions : Z;
}.

Record Tx := mkTx {
  tx_id : nat;
  tx_readVersion : Z;
  tx_writable : bool;
  tx_writes : gmap bytes operation;
  tx_closed : bool;
}.

Record Metrics := mkMetrics {
  m_Version : Z;
  m_Reads : Z;
  m_Commits : Z;
  m_Conflicts : Z;
  m_Compactions : Z;
  m_Checkpoints : Z;
  m_WALBytes : Z;
  m_Keys : Z;
}.

#[export] Instance valueVersion_eq_dec : EqDecision valueVersion.
Proof. solve_decision. Defined.

(** A database whose file holds [file] and nothing else. *)
Definition empty_db (file : bytes) : DB :=
  mkDB file ∅ 0 false ∅ 0 0 0 0.

(** Field updates. *)
Definition set_file (f : bytes) (db : DB) : DB :=
  mkDB f (db_history db) (db_version db) (db_closed db) (db_active db)
    (db_reads db) (db_commits db) (db_conflicts db) (db_compactions db).
Definition set_history (h : gmap bytes (list valueVersion)) (db : DB) : DB :=
  mkDB (db_file db) h (db_version db) (db_closed db) (db_active db)
    (db_reads db) (db_commits db) (db_conflicts db) (db_compactions db).
Definition set_version (v : Z) (db : DB) : DB :=
  mkDB (db_file db) (db_history db) v (db_closed db) (db_active db)
    (db_reads db) (db_commits db) (db_conflicts db) (db_compactions db).
Definition set_closed (c : bool) (db : DB) : DB :=
  mkDB (db_file db) (db_history db) (db_version db) c (db_active db)
    (db_reads db) (db_commits db) (db_conflicts db) (db_compactions db).
Definition set_active (a : gmap nat Z) (db : DB) : DB :=
  mkDB (db_file db) (db_history db) (db_version db) (db_closed db) a
    (db_reads db) (db_commits db) (db_conflicts db) (db_compactions db).
Definition add_reads (n : Z) (db : DB) : DB :=
  mkDB (db_file db) (db_history db) (db_version db) (db_closed db) (db_active db)
    (u64 (db_reads db + n)) (db_commits db) (db_conflicts db) (db_compactions db).
Definition add_commit (db : DB) : DB :=
  mkDB (db_file db) (db_history db) (db_version db) (db_closed db) (db_active db)
    (db_reads db) (u64 (db_commits db + 1)) (db_conflicts db) (db_compactions db).
Definition add_conflict (db : DB) : DB :=
  mkDB (db_file db) (db_history db) (db_version db) (db_closed db) (db_active db)
    (db_reads db) (db_commits db) (u64 (db_conflicts db + 1)) (db_compactions db).
Definition add_compaction (db : DB) : DB :=
  mkDB (db_file db) (db_history db) (db_version db) (db_closed db) (db_active db)
    (db_reads db) (db_commits db) (db_conflicts db) (u64 (db_compactions db + 1)).
Definition close_tx (tx : Tx) : Tx :=
  mkTx (tx_id tx) (tx_readVersion tx) (tx_writable tx) (tx_writes tx) true.
Definition set_writes (w : gmap bytes operation) (tx : Tx) : Tx :=
  mkTx (tx_id tx) (tx_readVersion tx) (tx_writable tx) w (tx_closed tx).

(** * Database operations *)

(** [db.history[key]]: a missing key reads as the nil slice. *)
Definition versions_of (db : DB) (key : bytes) : list valueVersion :=
  default [] (db_history db !! key).

Definition apply_op (version : Z) (db : DB) (op : operation) : DB :=
  set_history
    (<[op_key op := versions_of db (op_key op) ++ [mkVV version (op_value op) (op_delete op)]]>
       (db_history db)) db.

Definition apply (rec : record) (db : DB) : DB :=
  let db := foldl (apply_op (rec_version rec)) db (rec_ops rec) in
  if db_version db <? rec_version rec then set_version (rec_version rec) db else db.

Definition Begin (id : nat) (writable : bool) (db : DB) : res (DB * Tx) :=
  if db_closed db then Err ErrClosed
  else
    let tx := mkTx id (db_version db) writable ∅ false in
    Ok (set_active (<[id := tx_readVersion tx]> (db_active db)) db, tx).

Definition unregister (tx : Tx) (db : DB) : DB :=
  set_active (delete (tx_id tx) (db_active db)) db.

(** The minimum over the active map; the iteration order does not matter. *)
Definition min_version (_ : nat) (v : Z) (oldest : option Z) : option Z :=
  match oldest with
  | None => Some v
  | Some o => Some (if v <? o then v else o)
  end.

Definition oldestReadVersion (db : DB) : Z :=
  default (db_version db) (map_fold min_version None (db_active db)).

Definition Close (db : DB) : DB := if db_closed db then db else set_closed true db.

Definition is_live (versions : list valueVersion) : bool :=
  match last versions with
  | Some v => negb (vv_deleted v)
  | None => false
  end.

(** [stat_ok]: whether the file's size can be asked for; it is reported as 0 otherwise. *)
Definition metrics (checkpoints : Z) (stat_ok : bool) (db : DB) : Metrics :=
  mkMetrics (db_version db) (db_reads db) (db_commits db) (db_conflicts db)
    (db_compactions db) checkpoints (if stat_ok then zlen (db_file db) else 0)
    (zlen (filter (fun kv => is_live (snd kv) = true) (map_to_list (db_history db)))).

(** * Transaction operations *)

(** The scan from the newest version down for one the snapshot can see. *)
Definition visible (readVersion : Z) (versions : list valueVersion) : option valueVersion :=
  List.find (fun v => vv_version v <=? readVersion) (reverse versions).

Definition value_of (o : option valueVersion) : option bytes :=
  match o with
  | Some v => if vv_deleted v then None else Some (vv_value v)
  | None => None
  end.

Definition Get (tx : Tx) (key : bytes) (db : DB) : DB * option bytes :=
  if tx_closed tx then (db, None)
  else match tx_writes tx !! key with
       | Some op => (add_reads 1 db, if op_delete op then None else Some (op_value op))
       | None => (add_reads 1 db, value_of (visible (tx_readVersion tx) (versions_of db key)))
       end.

Definition put (key value : bytes) (tx : Tx) : Tx * option error :=
  if tx_closed tx then (tx, Some ErrTxClosed)
  else if negb (tx_writable tx) then (tx, Some ErrReadOnly)
  else (set_writes (<[key := mkOp key value false]> (tx_writes tx)) tx, None).

Definition del (key : bytes) (tx : Tx) : Tx * option error :=
  if tx_closed tx then (tx, Some ErrTxClosed)
  else if negb (tx_writable tx) then (tx, Some ErrReadOnly)
  else (set_writes (<[key := mkOp key [] true]> (tx_writes tx)) tx, None).

Definition Set' (key value : bytes) (tx : Tx) : Tx * option error :=
  if isReservedKey key then (tx, Some ErrReservedKey) else put key value tx.

Definition Delete (key : bytes) (tx : Tx) : Tx * option error :=
  if isReservedKey key then (tx, Some ErrReservedKey) else del key tx.

(** The written keys in order. *)
Definition write_keys (tx : Tx) : list bytes := sort_strings (map_to_list (tx_writes tx)).*1.

Definition has_conflict (db : DB) (tx : Tx) (key : bytes) : bool :=
  match last (versions_of db key) with
  | Some v => tx_readVersion tx <? vv_version v
  | None => false
  end.

Definition commit_ops (tx : Tx) : list operation :=
  omap (fun key => tx_writes tx !! key) (write_keys tx).

Definition commit_record (db : DB) (tx : Tx) : record :=
  mkRec (u64 (db_version db + 1)) (commit_ops tx).

Definition Commit `{RecordCodec} (o : io) (tx : Tx) (db : DB) : DB * Tx * option error :=
  if tx_closed tx then (db, tx, Some ErrTxClosed)
  else if negb (tx_writable tx) then (unregister tx db, close_tx tx, None)
  else if db_closed db then (unregister tx db, close_tx tx, Some ErrClosed)
  else
    let keys := write_keys tx in
    if existsb (has_conflict db tx) keys
    then (unregister tx (add_conflict db), close_tx tx, Some ErrConflict)
    else if bool_decide (keys = []) then (unregister tx db, close_tx tx, None)
    else
      let rec := commit_record db tx in
      match appendRecord (db_file db) rec o with
      | (file, Some e) => (unregister tx (set_file file db), close_tx tx, Some e)
      | (file, None) =>
          (unregister tx (add_commit (apply rec (set_file file db))), close_tx tx, None)
      end.

Definition Rollback (tx : Tx) (db : DB) : DB * Tx :=
  if tx_closed tx then (db, tx)
  else (unregister tx db, set_writes ∅ (close_tx tx)).

(** Run [fn] in a fresh transaction; the deferred Rollback runs last.  [None] is
    a panic of [fn], which the deferred Rollback lets through. *)
Definition View {A} (id : nat) (fn : DB -> Tx -> option (DB * Tx * res A)) (db : DB) : option (DB * res A) :=
  match Begin id false db with
  | Err e => Some (db, Err e)
  | Ok (db, tx) =>
      '(db, tx, r) ← fn db tx;
      Some (fst (Rollback tx db), r)
  end.

Definition Update `{RecordCodec} {A} (o : io) (id : nat) (fn : DB -> Tx -> option (DB * Tx * res A)) (db : DB)
  : option (DB * res A) :=
  match Begin id true db with
  | Err e => Some (db, Err e)
  | Ok (db, tx) =>
      '(db, tx, r) ← fn db tx;
      match r with
      | Err e => Some (fst (Rollback tx db), Err e)
      | Ok a =>
          match Commit o tx db with
          | (db, tx, Some e) => Some (fst (Rollback tx db), Err e)
          | (db, tx, None) => Some (fst (Rollback tx db), Ok a)
          end
      end
  end.

(** * Prefix scans *)

Record kvPair := mkKV { kv_key : bytes; kv_value : bytes }.

Definition kv_le (a b : kvPair) : Prop := bytes_le (kv_key a) (kv_key b).
#[export] Instance kv_le_dec : RelDecision kv_le.
Proof. intros a b. unfold kv_le. apply _. Defined.

Definition stringsHasPrefix (s prefix : bytes) : bool :=
  (zlen prefix <=? zlen s) && bool_decide (take (length prefix) s = prefix).

(** The closure [add]: the keys seen so far and the pairs collected so far. *)
Definition scan_add (prefix key value : bytes) (deleted : bool) (st : gset bytes * list kvPair)
  : gset bytes * list kvPair :=
  let '(seen, out) := st in
  if negb (stringsHasPrefix key prefix) then st
  else if bool_decide (key ∈ seen) then st
  else
    let seen := {[key]} ∪ seen in
    if deleted then (seen, out) else (seen, out ++ [mkKV key value]).

Definition scan_write (prefix : bytes) (st : gset bytes * list kvPair) (w : bytes * operation)
  : gset bytes * list kvPair :=
  scan_add prefix (fst w) (op_value (snd w)) (op_delete (snd w)) st.

Definition scan_version (prefix : bytes) (readVersion : Z) (st : gset bytes * list kvPair)
    (h : bytes * list valueVersion) : gset bytes * list kvPair :=
  if bool_decide (fst h ∈ fst st) then st
  else if negb (stringsHasPrefix (fst h) prefix) then st
  else match visible readVersion (snd h) with
       | Some v => scan_add prefix (fst h) (vv_value v) (vv_deleted v) st
       | None => st
       end.

Definition scanPrefix (tx : Tx) (prefix : bytes) (db : DB) : DB * list kvPair :=
  if tx_closed tx then (db, [])
  else
    let st := foldl (scan_write prefix) (∅, []) (map_to_list (tx_writes tx)) in
    let st := foldl (scan_version prefix (tx_readVersion tx)) st (map_to_list (db_history db)) in
    (add_reads (zlen (snd st)) db, merge_sort kv_le (snd st)).

(** * Well-formed states *)

Definition vv_lt (a b : valueVersion) : Prop := vv_version a < vv_version b.

(** The versions of a key: in strictly increasing order, none above [bound]. *)
Definition versions_wf (bound : Z) (vs : list valueVersion) : Prop :=
  StronglySorted vv_lt vs /\ Forall (fun v => 0 < vv_version v <= bound) vs.

Record db_wf (db : DB) : Prop := {
  wf_version : 0 <= db_version db;
  wf_history : forall k vs, db_history db !! k = Some vs -> vs <> [] /\ versions_wf (db_version db) vs;
  wf_active : forall id v, db_active db !! id = Some v -> 0 <= v <= db_version db;
}.

(** The buffered operation of a key is about that key. *)
Definition tx_wf (tx : Tx) : Prop :=
  forall k op, tx_writes tx !! k = Some op -> op_key op = k.

(** What a snapshot at [rv] sees of the committed data. *)
Definition committed (db : DB) (rv : Z) (key : bytes) : option bytes :=
  value_of (visible rv (versions_of db key)).

(** Whether [key] was changed after [rv], as the conflict check sees it. *)
Definition newer (db : DB) (rv : Z) (key : bytes) : bool :=
  match last (versions_of db key) with
  | Some v => rv <? vv_version v
  | None => false
  end.

(** * Versions *)

Lemma visible_nil rv : visible rv [] = None.
Proof. done. Qed.

Lemma visible_snoc rv vs v :
  visible rv (vs ++ [v]) = if vv_version v <=? rv then Some v else visible rv vs.
Proof. unfold visible. by rewrite reverse_snoc. Qed.

Lemma visible_app_newer rv vs vs' :
  Forall (fun v => rv < vv_version v) vs' -> visible rv (vs ++ vs') = visible rv vs.
Proof.
  revert vs. induction vs' as [|v vs' IH] using rev_ind; intros vs Hf.
  - by rewrite (right_id_L [] app).
  - apply Forall_app in Hf as [Hf Hv]. apply Forall_inv in Hv. simpl in Hv.
    rewrite (assoc_L app), visible_snoc.
    rewrite (proj2 (Z.leb_gt _ _)) by lia. auto.
Qed.

Lemma visible_app rv vs vs' :
  visible rv (vs ++ vs') = match visible rv vs' with Some v => Some v | None => visible rv vs end.
Proof.
  induction vs' as [|v vs' IH] using rev_ind.
  - by rewrite (right_id_L [] app).
  - rewrite (assoc_L app), !visible_snoc. destruct (vv_version v <=? rv); [done|apply IH].
Qed.

Lemma visible_Some rv vs v : visible rv vs = Some v -> v ∈ vs /\ vv_version v <= rv.
Proof.
  unfold visible. intros [Hin Hle]%find_some. to_prop. split; [|done].
  apply list_elem_of_In in Hin. by rewrite elem_of_reverse in Hin.
Qed.

(** At or above the bound of the versions the newest one is visible. *)
Lemma visible_last rv bound vs : versions_wf bound vs -> bound <= rv -> visible rv vs = last vs.
Proof.
  intros [_ Hb] Hle. destruct vs as [|v vs _] using rev_ind; [done|].
  rewrite visible_snoc, last_snoc. apply Forall_app in Hb as [_ Hv%Forall_inv].
  by rewrite (proj2 (Z.leb_le _ _)) by lia.
Qed.

Lemma versions_wf_nil bound : versions_wf bound [].
Proof. split; constructor. Qed.

Lemma versions_wf_mono b b' vs : versions_wf b vs -> b <= b' -> versions_wf b' vs.
Proof. intros [Hs Hb] Hle. split; [done|]. eapply Forall_impl; [done|]. simpl. lia. Qed.

Lemma versions_wf_app_inv b vs vs' : versions_wf b (vs ++ vs') -> versions_wf b vs /\ versions_wf b vs'.
Proof.
  intros [Hs Hb]. apply Forall_app in Hb as [??].
  split; split; try done; [by eapply StronglySorted_app_1_l|by eapply StronglySorted_app_1_r].
Qed.

Lemma versions_wf_snoc b vs v :
  versions_wf b vs -> b < vv_version v -> 0 <= b -> versions_wf (vv_version v) (vs ++ [v]).
Proof.
  intros [Hs Hb] Hlt H0. split.
  - apply StronglySorted_app_2; [|done|repeat constructor].
    intros x y Hx ->%list_elem_of_singleton. rewrite Forall_forall in Hb.
    apply Hb in Hx. unfold vv_lt. lia.
  - apply Forall_app. split; [eapply Forall_impl; [done|]; simpl; lia|].
    apply Forall_singleton. lia.
Qed.

Lemma versions_of_wf db k : db_wf db -> versions_wf (db_version db) (versions_of db k).
Proof.
  intros Hwf. unfold versions_of. destruct (db_history db !! k) as [vs|] eqn:E; simpl.
  - by apply (wf_history db Hwf k).
  - apply versions_wf_nil.
Qed.

Lemma committed_latest db rv k :
  db_wf db -> db_version db <= rv -> committed db rv k = value_of (last (versions_of db k)).
Proof.
  intros Hwf Hle. unfold committed. f_equal. by eapply visible_last; [apply versions_of_wf|].
Qed.

Lemma newer_current db k : db_wf db -> newer db (db_version db) k = false.
Proof.
  intros Hwf. unfold newer. pose proof (versions_of_wf db k Hwf) as [_ Hb].
  destruct (last (versions_of db k)) as [v|] eqn:E; [|done].
  apply last_Some_elem_of in E. rewrite Forall_forall in Hb. apply Hb in E.
  apply Z.ltb_ge. lia.
Qed.

(** * Applying records *)

(** The version a record with the given operations adds to each key. *)
Definition new_versions (version : Z) (ops : list operation) (k : bytes) : list valueVersion :=
  (fun op => mkVV version (op_value op) (op_delete op)) <$> filter (fun op => op_key op = k) ops.

Lemma versions_of_apply_op version db op k :
  versions_of (apply_op version db op) k = versions_of db k ++ new_versions version [op] k.
Proof.
  unfold versions_of, apply_op, new_versions. cbn [set_history db_history].
  rewrite filter_cons, filter_nil. destruct (decide (op_key op = k)) as [<-|Hne].
  - by rewrite lookup_insert_eq.
  - rewrite lookup_insert_ne by done. simpl. by rewrite (right_id_L [] app).
Qed.

Lemma new_versions_app v ops ops' k :
  new_versions v (ops ++ ops') k = new_versions v ops k ++ new_versions v ops' k.
Proof. unfold new_versions. by rewrite filter_app, fmap_app. Qed.

Lemma versions_of_apply_ops version ops db k :
  versions_of (foldl (apply_op version) db ops) k = versions_of db k ++ new_versions version ops k.
Proof.
  revert db. induction ops as [|op ops IH]; intros db; [symmetry; apply (right_id_L [] app)|].
  cbn [foldl]. rewrite IH, versions_of_apply_op, <- (assoc_L app), <- new_versions_app. done.
Qed.

Lemma apply_ops_frame version ops db :
  let db' := foldl (apply_op version) db ops in
  db_version db' = db_version db /\ db_active db' = db_active db /\ db_file db' = db_file db /\
  db_closed db' = db_closed db.
Proof. revert db. induction ops as [|op ops IH]; intros db; simpl; [done|]. apply (IH (apply_op version db op)). Qed.

Lemma versions_of_set_version v db k : versions_of (set_version v db) k = versions_of db k.
Proof. done. Qed.

Lemma versions_of_apply rec db k :
  versions_of (apply rec db) k = versions_of db k ++ new_versions (rec_version rec) (rec_ops rec) k.
Proof. unfold apply. case_match; by rewrite ?versions_of_set_version, versions_of_apply_ops. Qed.

Lemma version_apply rec db :
  db_version (apply rec db) = Z.max (db_version db) (rec_version rec).
Proof.
  unfold apply. destruct (apply_ops_frame (rec_version rec) (rec_ops rec) db) as (Hv & _).
  destruct (Z.ltb_spec (db_version (foldl (apply_op (rec_version rec)) db (rec_ops rec))) (rec_version rec));
    simpl; rewrite ?Hv in *; lia.
Qed.

Lemma active_apply rec db : db_active (apply rec db) = db_active db.
Proof.
  unfold apply. destruct (apply_ops_frame (rec_version rec) (rec_ops rec) db) as (_ & Ha & _).
  by case_match.
Qed.

Lemma file_apply rec db : db_file (apply rec db) = db_file db.
Proof.
  unfold apply. destruct (apply_ops_frame (rec_version rec) (rec_ops rec) db) as (_ & _ & Ha & _).
  by case_match.
Qed.

Lemma closed_apply rec db : db_closed (apply rec db) = db_closed db.
Proof.
  unfold apply. destruct (apply_ops_frame (rec_version rec) (rec_ops rec) db) as (_ & _ & _ & Ha).
  by case_match.
Qed.

(** The empty lists never enter the history. *)
Lemma history_versions db k vs :
  db_history db !! k = Some vs -> versions_of db k = vs.
Proof. unfold versions_of. by intros ->. Qed.

Lemma history_nonempty_apply rec db :
  (forall k vs, db_history db !! k = Some vs -> vs <> []) ->
  forall k vs, db_history (apply rec db) !! k = Some vs -> vs <> [].
Proof.
  intros Hne. assert (forall ops db, (forall k vs, db_history db !! k = Some vs -> vs <> []) ->
    forall k vs, db_history (foldl (apply_op (rec_version rec)) db ops) !! k = Some vs -> vs <> []) as Hops.
  { clear. induction ops as [|op ops IH]; intros db Hne; simpl; [done|].
    apply IH. intros k vs. unfold apply_op. cbn [set_history db_history]. rewrite lookup_insert.
    case_decide; [|apply Hne]. intros [= <-]. by intros [_ [=]]%app_eq_nil. }
  unfold apply. case_match; apply Hops; done.
Qed.

(** * Commit *)

Lemma elem_of_write_keys tx k : k ∈ write_keys tx <-> is_Some (tx_writes tx !! k).
Proof.
  unfold write_keys. rewrite (sort_strings_perm _), list_elem_of_fmap. split.
  - intros ([k' op] & -> & Hin). exists op. by apply elem_of_map_to_list in Hin.
  - intros [op Hop]. exists (k, op). split; [done|]. by apply elem_of_map_to_list.
Qed.

Lemma NoDup_write_keys tx : NoDup (write_keys tx).
Proof. unfold write_keys. rewrite (sort_strings_perm _). apply NoDup_fst_map_to_list. Qed.

Lemma write_keys_nil tx : write_keys tx = [] <-> tx_writes tx = ∅.
Proof.
  split; intros E.
  - apply map_eq. intros k. rewrite lookup_empty. apply eq_None_not_Some.
    rewrite <- elem_of_write_keys, E. apply not_elem_of_nil.
  - unfold write_keys. by rewrite E, map_to_list_empty.
Qed.

(** Operations generated key by key, restricted to one key. *)
Lemma filter_omap_keyed (f : bytes -> option operation) ks k :
  (forall k op, f k = Some op -> op_key op = k) -> NoDup ks ->
  filter (fun op => op_key op = k) (omap f ks) =
  if decide (k ∈ ks) then option_list (f k) else [].
Proof.
  intros Hw. induction ks as [|k' ks IH]; intros Hnd; [done|].
  apply NoDup_cons in Hnd as [Hni Hnd]. specialize (IH Hnd). cbn [omap list_omap].
  destruct (decide (k' = k)) as [->|Hne].
  - rewrite (decide_True (P := k ∈ k :: ks)) by set_solver.
    rewrite decide_False in IH by done.
    destruct (f k) as [op|] eqn:E; [|done]. rewrite filter_cons_True by eauto.
    simpl. by rewrite IH.
  - transitivity (filter (fun op => op_key op = k) (omap f ks)).
    + destruct (f k') as [op|] eqn:E; [|done]. rewrite filter_cons_False; [done|].
      intros E'. apply Hw in E. congruence.
    + rewrite IH. by repeat case_decide; set_solver.
Qed.

(** The operations of a commit restricted to one key: what the transaction
    wrote there. *)
Lemma new_versions_commit version tx k :
  tx_wf tx ->
  new_versions version (commit_ops tx) k =
  match tx_writes tx !! k with
  | Some op => [mkVV version (op_value op) (op_delete op)]
  | None => []
  end.
Proof.
  intros Hw. unfold new_versions, commit_ops.
  rewrite filter_omap_keyed by (done || apply NoDup_write_keys).
  destruct (tx_writes tx !! k) as [op|] eqn:E; case_decide as Hin; try done.
  destruct Hin. apply elem_of_write_keys. eauto.
Qed.

Lemma existsb_conflict db tx :
  existsb (has_conflict db tx) (write_keys tx) = true <->
  exists k, is_Some (tx_writes tx !! k) /\ newer db (tx_readVersion tx) k = true.
Proof.
  rewrite existsb_exists. split.
  - intros (k & Hin%list_elem_of_In & Hc). exists k. by rewrite <- elem_of_write_keys.
  - intros (k & Hin & Hc). exists k. by rewrite <- list_elem_of_In, elem_of_write_keys.
Qed.

(** * Well-formedness is preserved *)

(** A state that differs only in counters, the file, and fewer registrations. *)
Lemma db_wf_frame db db' :
  db_wf db -> db_version db' = db_version db -> db_history db' = db_history db ->
  (forall id v, db_active db' !! id = Some v -> db_active db !! id = Some v) -> db_wf db'.
Proof.
  intros [Hv Hh Ha] Ev Eh Ea. split; rewrite ?Ev, ?Eh; eauto.
Qed.

Lemma db_wf_empty file : db_wf (empty_db file).
Proof. split; [done|..]; intros k v E; simpl in E; by rewrite lookup_empty in E. Qed.

Lemma db_wf_unregister tx db : db_wf db -> db_wf (unregister tx db).
Proof.
  intros Hwf. eapply db_wf_frame; eauto. intros id v. simpl. by intros [_ ?]%lookup_delete_Some.
Qed.

Lemma db_wf_begin id w db db' tx : db_wf db -> Begin id w db = Ok (db', tx) -> db_wf db'.
Proof.
  intros Hwf. unfold Begin. case_match; [done|]. intros [= <- <-].
  destruct Hwf as [Hv Hh Ha]. split; [done..|]. simpl. intros id' v.
  rewrite lookup_insert_Some. intros [[_ <-]|[_ ?]]; [lia|eauto].
Qed.

Lemma tx_wf_begin id w db db' tx : Begin id w db = Ok (db', tx) -> tx_wf tx.
Proof.
  unfold Begin. case_match; [done|]. intros [= <- <-] k op. simpl. by rewrite lookup_empty.
Qed.

Lemma tx_wf_put key value tx : tx_wf tx -> tx_wf (fst (put key value tx)).
Proof.
  intros Hw. unfold put. repeat case_match; simpl; try done.
  intros k op. simpl. rewrite lookup_insert_Some. intros [[<- <-]|[_ ?]]; eauto.
Qed.

Lemma tx_wf_del key tx : tx_wf tx -> tx_wf (fst (del key tx)).
Proof.
  intros Hw. unfold del. repeat case_match; simpl; try done.
  intros k op. simpl. rewrite lookup_insert_Some. intros [[<- <-]|[_ ?]]; eauto.
Qed.

(** Applying a record newer than everything keeps the histories well-formed. *)
Lemma db_wf_apply rec db :
  db_wf db -> db_version db < rec_version rec ->
  (forall k, (length (new_versions (rec_version rec) (rec_ops rec) k) <= 1)%nat) ->
  db_wf (apply rec db).
Proof.
  intros Hwf Hlt Hone. pose proof (wf_version db Hwf) as H0.
  split; rewrite ?version_apply, ?active_apply, ?Z.max_r by lia; [lia| |].
  - intros k vs Hk. split.
    + eapply history_nonempty_apply; [|done]. intros k' vs' Hk'. by apply (wf_history db Hwf k').
    + apply history_versions in Hk as <-. rewrite versions_of_apply.
      specialize (Hone k). pose proof (versions_of_wf db k Hwf) as Hvs.
      destruct (new_versions (rec_version rec) (rec_ops rec) k) as [|v [|]] eqn:E; [| |simpl in Hone; lia].
      * rewrite (right_id_L [] app). eapply versions_wf_mono; [done|]. lia.
      * assert (vv_version v = rec_version rec) as Hv.
        { assert (v ∈ new_versions (rec_version rec) (rec_ops rec) k) as Hin by (rewrite E; set_solver).
          unfold new_versions in Hin. apply list_elem_of_fmap in Hin as (op & -> & _). done. }
        rewrite <- Hv. eapply versions_wf_snoc; [done|lia..].
  - intros id v Hid. apply (wf_active db Hwf) in Hid. lia.
Qed.

Lemma commit_record_one db tx k :
  tx_wf tx -> (length (new_versions (rec_version (commit_record db tx)) (rec_ops (commit_record db tx)) k) <= 1)%nat.
Proof. intros Hw. simpl. rewrite new_versions_commit by done. case_match; simpl; lia. Qed.

Lemma db_wf_commit `{RecordCodec} o tx db :
  db_wf db -> tx_wf tx -> db_version db + 1 < 2 ^ 64 ->
  db_wf (fst (fst (Commit o tx db))).
Proof.
  intros Hwf Htx Hv. pose proof (wf_version db Hwf). unfold Commit.
  destruct (tx_closed tx); [done|].
  destruct (negb (tx_writable tx)); [by apply db_wf_unregister|].
  destruct (db_closed db); [by apply db_wf_unregister|].
  destruct (existsb _ _); [apply db_wf_unregister; by eapply db_wf_frame|].
  case_bool_decide; [by apply db_wf_unregister|].
  destruct (appendRecord _ _ _) as [file [e|]]; [apply db_wf_unregister; by eapply db_wf_frame|].
  apply db_wf_unregister. eapply (db_wf_frame (apply (commit_record db tx) (set_file file db))); try done.
  apply db_wf_apply.
  - by eapply db_wf_frame.
  - simpl. rewrite u64_small by (unfold in_u64; lia). lia.
  - intros k. by apply commit_record_one.
Qed.

Lemma db_wf_rollback tx db : db_wf db -> db_wf (fst (Rollback tx db)).
Proof. intros Hwf. unfold Rollback. case_match; [done|]. by apply db_wf_unregister. Qed.

(** * Prefix scans *)

Lemma stringsHasPrefix_spec s p : stringsHasPrefix s p = has_prefix s p.
Proof.
  unfold stringsHasPrefix. destruct (has_prefix s p) eqn:E.
  - apply has_prefix_app in E as [r ->]. rewrite take_app_length, bool_decide_true by done.
    rewrite zlen_app. pose proof (zlen_nonneg r). by rewrite (proj2 (Z.leb_le _ _)) by lia.
  - apply andb_false_iff. right. apply bool_decide_eq_false. intros Ht.
    assert (has_prefix s p = true); [|congruence]. apply has_prefix_app.
    exists (drop (length p) s). rewrite <- Ht at 1. by rewrite take_drop.
Qed.

#[export] Instance kv_le_trans : Transitive kv_le.
Proof. intros a b c. unfold kv_le. apply bytes_le_trans. Qed.
#[export] Instance kv_le_total : Total kv_le.
Proof. intros a b. unfold kv_le. apply bytes_le_total. Qed.

(** What the scan has collected: distinct keys, all of them seen. *)
Definition scan_ok (st : gset bytes * list kvPair) : Prop :=
  NoDup (kv_key <$> snd st) /\ forall p, p ∈ snd st -> kv_key p ∈ fst st.

Lemma scan_add_spec prefix key value deleted st :
  scan_ok st -> has_prefix key prefix = true -> key ∉ fst st ->
  let st' := scan_add prefix key value deleted st in
  scan_ok st' /\ (forall k, k ∈ fst st' <-> k = key \/ k ∈ fst st) /\
  (forall p, p ∈ snd st' <-> p ∈ snd st \/ (deleted = false /\ p = mkKV key value)).
Proof.
  destruct st as [seen out]. intros [Hnd Hseen] Hp Hni. simpl in *.
  rewrite stringsHasPrefix_spec, Hp, bool_decide_false by done. cbn [negb].
  destruct deleted; simpl; split_and!; try set_solver.
  - split; simpl; [done|set_solver].
  - split; simpl; [|set_solver]. rewrite fmap_app. apply NoDup_app. split_and!; [done| |repeat constructor; set_solver].
    intros x Hx. simpl. intros ->%list_elem_of_singleton.
    apply list_elem_of_fmap in Hx as (p & Ek & Hin). apply Hni. rewrite Ek. auto.
Qed.

Lemma scan_writes_spec prefix L :
  NoDup L.*1 ->
  let st := foldl (scan_write prefix) (∅, []) L in
  scan_ok st /\ (forall k, k ∈ fst st <-> has_prefix k prefix = true /\ k ∈ L.*1) /\
  (forall p, p ∈ snd st <-> has_prefix (kv_key p) prefix = true /\
     exists op, (kv_key p, op) ∈ L /\ op_delete op = false /\ kv_value p = op_value op).
Proof.
  induction L as [|[k op] L IH] using rev_ind; intros Hnd.
  { simpl. split_and!; [split; simpl; [constructor|set_solver]|set_solver|set_solver]. }
  rewrite fmap_app in Hnd. apply NoDup_app in Hnd as (Hnd & Hni & _).
  destruct (IH Hnd) as (Hok & Hs & Ho). rewrite foldl_app. cbn [foldl].
  set (st := foldl (scan_write prefix) (∅, []) L) in *. cbv zeta in *.
  assert (k ∉ L.*1) as HkL by (intros Hk; apply (Hni k Hk); set_solver).
  change (scan_write prefix st (k, op)) with (scan_add prefix k (op_value op) (op_delete op) st).
  destruct (has_prefix k prefix) eqn:Hp.
  - assert (k ∉ fst st) as Hks by (rewrite Hs; naive_solver).
    destruct (scan_add_spec prefix k (op_value op) (op_delete op) st Hok Hp Hks) as (Hok' & Hs' & Ho').
    split_and!; [done| |].
    + intros k'. rewrite Hs', Hs, fmap_app. change ([(k, op)].*1) with [k]. rewrite elem_of_app, list_elem_of_singleton. naive_solver.
    + intros p. rewrite Ho', Ho. split.
      * intros [(? & op' & ? & ? & ?)|[? ->]]; simpl.
        -- split; [done|]. exists op'. rewrite elem_of_app. auto.
        -- split; [done|]. exists op. rewrite elem_of_app, list_elem_of_singleton. auto.
      * intros (Hp' & op' & Hin & Hd & Hv). apply elem_of_app in Hin as [Hin|Hin]; [left; eauto|].
        apply list_elem_of_singleton in Hin. destruct p as [pk pv]; simpl in *. simplify_eq. auto.
  - assert (scan_add prefix k (op_value op) (op_delete op) st = st) as ->.
    { unfold scan_add. destruct st. by rewrite stringsHasPrefix_spec, Hp. }
    split_and!; [done| |].
    + intros k'. rewrite Hs, fmap_app. change ([(k, op)].*1) with [k]. rewrite elem_of_app, list_elem_of_singleton. naive_solver congruence.
    + intros p. rewrite Ho. split; [intros (? & op' & ? & ? & ?); split; [done|]; exists op'; rewrite elem_of_app; auto|].
      intros (Hp' & op' & Hin & Hd & Hv). split; [done|]. exists op'.
      apply elem_of_app in Hin as [Hin|Hin]; [done|].
      apply list_elem_of_singleton in Hin. destruct p as [pk pv]; simpl in *. simplify_eq. congruence.
Qed.

Lemma scan_version_step prefix rv st k vs :
  scan_ok st ->
  let st' := scan_version prefix rv st (k, vs) in
  scan_ok st' /\ (forall k', k' ∈ fst st -> k' ∈ fst st') /\
  (forall k', k' ∈ fst st' -> k' ∈ fst st \/ k' = k) /\
  (forall p, p ∈ snd st' <-> p ∈ snd st \/
     (kv_key p = k /\ has_prefix k prefix = true /\ k ∉ fst st /\
      value_of (visible rv vs) = Some (kv_value p))).
Proof.
  intros Hok. unfold scan_version. cbn [fst snd]. case_bool_decide as Hin; [naive_solver|].
  rewrite stringsHasPrefix_spec. destruct (has_prefix k prefix) eqn:Hp; cbn [negb]; [|naive_solver].
  destruct (visible rv vs) as [v|]; simpl; [|naive_solver].
  destruct (scan_add_spec prefix k (vv_value v) (vv_deleted v) st Hok Hp Hin) as (Hok' & Hs' & Ho').
  split_and!; [done|intros k'; rewrite Hs'; naive_solver..|]. intros [pk pv]. rewrite Ho'. simpl.
  destruct (vv_deleted v); naive_solver.
Qed.

Lemma scan_versions_spec prefix rv st0 L :
  scan_ok st0 -> NoDup L.*1 ->
  let st := foldl (scan_version prefix rv) st0 L in
  scan_ok st /\ (forall k, k ∈ fst st0 -> k ∈ fst st) /\
  (forall k, k ∈ fst st -> k ∈ fst st0 \/ k ∈ L.*1) /\
  (forall p, p ∈ snd st <-> p ∈ snd st0 \/
     (has_prefix (kv_key p) prefix = true /\ kv_key p ∉ fst st0 /\
      exists vs, (kv_key p, vs) ∈ L /\ value_of (visible rv vs) = Some (kv_value p))).
Proof.
  intros Hok0. induction L as [|[k vs] L IH] using rev_ind; intros Hnd; [set_solver|].
  rewrite fmap_app in Hnd. apply NoDup_app in Hnd as (Hnd & Hni & _).
  destruct (IH Hnd) as (Hok & Hs0 & Hs & Ho). rewrite foldl_app. cbn [foldl].
  set (st := foldl (scan_version prefix rv) st0 L) in *. cbv zeta in *.
  assert (k ∉ L.*1) as HkL by (intros Hk; apply (Hni k Hk); set_solver).
  assert (k ∈ fst st <-> k ∈ fst st0) as Hk by naive_solver.
  destruct (scan_version_step prefix rv st k vs Hok) as (Hok' & Hs1 & Hs2 & Ho').
  split_and!; [done|by auto| |].
  { intros k'. rewrite fmap_app, elem_of_app. change ([(k, vs)].*1) with [k].
    rewrite list_elem_of_singleton. intros [H| ->]%Hs2; [|auto]. apply Hs in H as [|]; auto. }
  intros [pk pv]. rewrite Ho', Ho, Hk. cbn [kv_key kv_value]. split.
  - intros [[?|(? & ? & vs' & ? & ?)]|(-> & ? & ? & ?)]; [by left|right..]; split_and!; try done.
    + exists vs'. rewrite elem_of_app. auto.
    + exists vs. rewrite elem_of_app, list_elem_of_singleton. auto.
  - intros [?|(? & ? & vs' & [?|Hin]%elem_of_app & ?)]; [by do 2 left|left; right; eauto|].
    apply list_elem_of_singleton in Hin. simplify_eq. by right.
Qed.

Definition kv_lt (a b : kvPair) : Prop := bytes_lt (kv_key a) (kv_key b).

Lemma kv_sorted_strict l :
  StronglySorted kv_le l -> NoDup (kv_key <$> l) -> StronglySorted kv_lt l.
Proof.
  induction 1 as [|p l Hs IH Hf]; [constructor|]. rewrite fmap_cons, NoDup_cons.
  intros [Hni Hnd]. constructor; [auto|]. rewrite Forall_forall in Hf |- *. intros q Hq.
  destruct (proj1 (bytes_le_lt_eq _ _) (Hf q Hq)) as [|E]; [done|].
  destruct Hni. rewrite E. apply list_elem_of_fmap. eauto.
Qed.

Lemma scanPrefix_spec tx prefix db :
  tx_closed tx = false ->
  let out := snd (scanPrefix tx prefix db) in
  StronglySorted kv_lt out /\
  forall k v, mkKV k v ∈ out <-> has_prefix k prefix = true /\ snd (Get tx k db) = Some v.
Proof.
  intros Hc. unfold scanPrefix, Get. rewrite Hc. cbn [snd].
  destruct (scan_writes_spec prefix (map_to_list (tx_writes tx)) (NoDup_fst_map_to_list _)) as (Hok & Hs & Ho).
  set (st0 := foldl (scan_write prefix) _ _) in *. cbv zeta in *.
  destruct (scan_versions_spec prefix (tx_readVersion tx) st0 (map_to_list (db_history db)) Hok
    (NoDup_fst_map_to_list _)) as ([Hnd _] & _ & _ & Ho').
  set (st := foldl (scan_version _ _) _ _) in *. cbv zeta in *. split.
  - apply kv_sorted_strict; [apply StronglySorted_merge_sort; apply _|].
    by rewrite merge_sort_Permutation.
  - intros k v. rewrite (merge_sort_Permutation _ _), Ho', Ho. cbn [kv_key kv_value].
    assert (k ∈ fst st0 <-> has_prefix k prefix = true /\ is_Some (tx_writes tx !! k)) as Hks.
    { rewrite Hs, list_elem_of_fmap. split.
      - intros (? & [k' op] & -> & ?%elem_of_map_to_list). eauto.
      - intros (? & op & ?). split; [done|]. exists (k, op). by rewrite elem_of_map_to_list. }
    rewrite Hks. setoid_rewrite elem_of_map_to_list. unfold versions_of. clear.
    destruct (tx_writes tx !! k) as [op|] eqn:Ew; simpl.
    + split.
      * intros [(? & op' & [= <-] & -> & ->)|(? & Hn & _)]; [done|]. destruct Hn; eauto.
      * intros [? E]. left. split; [done|]. exists op. destruct (op_delete op); naive_solver.
    + destruct (db_history db !! k) as [vs|] eqn:Eh; simpl.
      2:{ split; [intros [(? & ? & [=] & _)|(? & _ & ? & [=] & _)]|by intros [_ [=]]]. }
      split.
      * by intros [(? & ? & [=] & _)|(? & _ & vs' & [= <-] & ?)].
      * intros [??]. right. split_and!; [done|by intros [_ [? [=]]]|eauto].
Qed.

(** C22.  A prefix scan is a filtered, sorted view of the transaction: it lists
    in strictly increasing key order exactly the keys with the prefix that Get
    finds in the transaction (its own writes first, then its snapshot), each
    with the value Get returns. *)
Theorem scanPrefix_correct tx prefix db :
  tx_closed tx = false ->
  let out := snd (scanPrefix tx prefix db) in
  StronglySorted kv_lt out /\
  forall k v, mkKV k v ∈ out <-> has_prefix k prefix = true /\ snd (Get tx k db) = Some v.
Proof. apply scanPrefix_spec. Qed.

(** * The effect of a commit *)

Definition write_value (op : operation) : option bytes :=
  if op_delete op then None else Some (op_value op).

Section commit_effect.
Context (db : DB) (tx : Tx) (Hwf : db_wf db) (Htx : tx_wf tx) (Hmax : db_version db + 1 < 2 ^ 64).

Lemma commit_version : rec_version (commit_record db tx) = db_version db + 1.
Proof. simpl. pose proof (wf_version db Hwf). apply u64_small. unfold in_u64. lia. Qed.

Lemma versions_of_commit k :
  versions_of (apply (commit_record db tx) db) k =
  versions_of db k ++
  match tx_writes tx !! k with
  | Some op => [mkVV (db_version db + 1) (op_value op) (op_delete op)]
  | None => []
  end.
Proof.
  rewrite versions_of_apply, commit_version. f_equal.
  unfold commit_record. cbn [rec_ops]. by rewrite new_versions_commit.
Qed.

Lemma committed_commit rv k :
  committed (apply (commit_record db tx) db) rv k =
  if rv <? db_version db + 1 then committed db rv k
  else match tx_writes tx !! k with
       | Some op => write_value op
       | None => committed db rv k
       end.
Proof.
  unfold committed. rewrite versions_of_commit. destruct (tx_writes tx !! k) as [op|].
  - rewrite visible_snoc. simpl. unfold write_value.
    destruct (Z.ltb_spec rv (db_version db + 1)).
    + by rewrite (proj2 (Z.leb_gt _ _)) by lia.
    + by rewrite (proj2 (Z.leb_le _ _)) by lia.
  - rewrite (right_id_L [] app). by case_match.
Qed.

Lemma newer_commit rv k :
  newer (apply (commit_record db tx) db) rv k =
  match tx_writes tx !! k with
  | Some _ => rv <? db_version db + 1
  | None => newer db rv k
  end.
Proof.
  unfold newer. rewrite versions_of_commit. destruct (tx_writes tx !! k) as [op|].
  - by rewrite last_snoc.
  - by rewrite (right_id_L [] app).
Qed.
End commit_effect.

(** The version and the data of every snapshot are as before. *)
Definition same_contents (db db' : DB) : Prop := db_version db' = db_version db /\ forall rv k, committed db' rv k = committed db rv k.

(** A written key has a version newer than the snapshot. *)
Definition conflicting (db : DB) (tx : Tx) : Prop := exists k, is_Some (tx_writes tx !! k) /\ newer db (tx_readVersion tx) k = true.

(** The data after a commit: every write shows in snapshots of the new version,
    and nothing changes for older ones. *)
Definition contents_written (db : DB) (tx : Tx) (db' : DB) : Prop :=
  db_version db' = db_version db + 1 /\
  (forall rv k, rv <= db_version db -> committed db' rv k = committed db rv k) /\
  (forall k, committed db' (db_version db') k =
     match tx_writes tx !! k with
     | Some op => write_value op
     | None => committed db (db_version db) k
     end).

Lemma commit_contents `{RecordCodec} db tx file :
  db_wf db -> tx_wf tx -> db_version db + 1 < 2 ^ 64 -> write_keys tx <> [] ->
  contents_written db tx (unregister tx (add_commit (apply (commit_record db tx) (set_file file db)))).
Proof.
  intros Hwf Htx Hmax Hk. set (db' := unregister tx _).
  assert (forall rv k, committed db' rv k = committed (apply (commit_record db tx) db) rv k) as Ecm.
  { intros rv k. unfold committed. do 2 f_equal.
    change (versions_of (apply (commit_record db tx) (set_file file db)) k = versions_of (apply (commit_record db tx) db) k).
    by rewrite !versions_of_apply. }
  assert (db_version db' = db_version db + 1) as Hv.
  { unfold db'. cbn [unregister set_active add_commit db_version]. rewrite version_apply, commit_version by done. cbn [set_file db_version].
    pose proof (wf_version db Hwf). lia. }
  split; [done|]. split.
  - intros rv k Hrv. rewrite Ecm, committed_commit by done. by rewrite (proj2 (Z.ltb_lt _ _)) by lia.
  - intros k. rewrite Hv, Ecm, committed_commit by done. rewrite (proj2 (Z.ltb_ge _ _)) by lia.
    case_match; [done|]. rewrite !committed_latest by (done || lia). done.
Qed.

(** C12.  Commit is all-or-nothing and first-committer-wins, on every branch.  It
    always leaves the transaction closed.  A transaction that was closed already
    gets ErrTxClosed and changes nothing; a read-only one succeeds; on a closed
    database a writable one gets ErrClosed; on an open one it fails with ErrConflict
    exactly when a written key has a version newer than the snapshot, and succeeds
    at once when it wrote nothing: in all these cases the file, the version and the
    data of every snapshot are as before.  Otherwise, when the append succeeds, the
    file grows by the frame of one record, the version by one, every write shows in
    snapshots of that version, and older ones see no change; when the write fails
    after n bytes of the frame, or the sync fails after all of them, it returns the
    error, those bytes stay in the file, and version and data are as before. *)
Theorem commit_atomic `{RecordCodec} o db tx db' tx' err :
  db_wf db -> tx_wf tx -> db_version db + 1 < 2 ^ 64 -> Commit o tx db = (db', tx', err) ->
  let frame := encodeRecord (commit_record db tx) in
  let unchanged := db_file db' = db_file db /\ same_contents db db' in
  tx_closed tx' = true /\
  (tx_closed tx = true -> err = Some ErrTxClosed /\ db' = db) /\
  (tx_closed tx = false ->
   (tx_writable tx = false -> err = None /\ unchanged) /\
   (tx_writable tx = true ->
    (db_closed db = true -> err = Some ErrClosed /\ unchanged) /\
    (db_closed db = false ->
     (err = Some ErrConflict <-> conflicting db tx) /\
     (conflicting db tx -> unchanged) /\
     (~ conflicting db tx -> tx_writes tx = ∅ -> err = None /\ unchanged) /\
     (~ conflicting db tx -> tx_writes tx <> ∅ ->
      match o with
      | IoOk => err = None /\ db_file db' = db_file db ++ frame /\ contents_written db tx db'
      | IoWriteFail n => err = Some ErrIO /\ db_file db' = db_file db ++ take n frame /\ same_contents db db'
      | IoSyncFail => err = Some ErrIO /\ db_file db' = db_file db ++ frame /\ same_contents db db'
      end)))).
Proof.
  intros Hwf Htx Hmax. unfold Commit. destruct (tx_closed tx) eqn:Hc; [intros [= <- <- <-]; by split_and!|].
  destruct (tx_writable tx); cbn [negb]; [|intros [= <- <- <-]; by split_and!].
  destruct (db_closed db); [intros [= <- <- <-]; by split_and!|].
  pose proof (existsb_conflict db tx) as Hconf. fold (conflicting db tx) in Hconf.
  destruct (existsb (has_conflict db tx) (write_keys tx)).
  { intros [= <- <- <-]. assert (conflicting db tx) as Hyes by (by apply Hconf). by split_and!. }
  assert (~ conflicting db tx) as Hno by (by intros ?%Hconf).
  destruct (decide (write_keys tx = [])) as [Hk|Hk].
  { rewrite bool_decide_true by done. intros [= <- <- <-]. apply write_keys_nil in Hk. by split_and!. }
  rewrite bool_decide_false by done. assert (tx_writes tx <> ∅) as Hw by (by rewrite <- write_keys_nil).
  destruct o; cbn [appendRecord]; intros [= <- <- <-];
    (do 2 (split; [done|]); intros _; split; [done|]; intros _; split; [done|]; intros _; do 3 (split; [done|]); intros _ _; split; [done|]); try done.
  split; [|by apply commit_contents].
  cbn [unregister set_active add_commit db_file]. by rewrite file_apply.
Qed.
