(* ===== verification/Compact.v ===== *)
(** Compaction (compact.go): pruning the versions no open snapshot can see,
    rebuilding a minimal log, and swapping it for the old one. *)

From S2P Require Import Prelude Utf8 Strconv Keys Wal Mvcc.

(** * Operations *)

(** The downward scan for the newest version at or below [retain]: the index
    below [n] where it stops. *)
Fixpoint baseIdx (versions : list valueVersion) (retain : Z) (n : nat) : option nat :=
  match n with
  | O => None
  | S i =>
      match versions !! i with
      | Some v => if vv_version v <=? retain then Some i else baseIdx versions retain i
      | None => baseIdx versions retain i
      end
  end.

Definition pruneVersions (versions : list valueVersion) (retain : Z) : list valueVersion :=
  match baseIdx versions retain (length versions) with
  | Some b =>
      match versions !! b with
      | Some base =>
          let newer := filter (fun v => retain < vv_version v) (drop (S b) versions) in
          let hasNewer := existsb (fun v => retain <? vv_version v) (drop (S b) versions) in
          (if vv_deleted base then (if hasNewer then [base] else []) else [base]) ++ newer
      | None => versions
      end
  | None => versions
  end.

Definition prune_key (retain : Z) (versions : list valueVersion) : option (list valueVersion) :=
  let kept := pruneVersions versions retain in
  if bool_decide (kept = []) then None else Some kept.

Definition pruneHistory (retain : Z) (db : DB) : DB :=
  set_history (omap (prune_key retain) (db_history db)) db.

Definition history_keys (db : DB) : list bytes := sort_strings (map_to_list (db_history db)).*1.

(** The snapshot case: the live value of a key as an operation. *)
Definition live_op (db : DB) (key : bytes) : option operation :=
  match last (versions_of db key) with
  | Some v => if vv_deleted v then None else Some (mkOp key (vv_value v) false)
  | None => None
  end.

(** The general case: the map [byVersion], filled key by key. *)
Definition group_add (key : bytes) (byVersion : gmap Z (list operation)) (v : valueVersion)
  : gmap Z (list operation) :=
  <[vv_version v := default [] (byVersion !! vv_version v) ++ [mkOp key (vv_value v) (vv_deleted v)]]>
    byVersion.

Definition group_key (db : DB) (byVersion : gmap Z (list operation)) (key : bytes)
  : gmap Z (list operation) :=
  foldl (group_add key) byVersion (versions_of db key).

Definition byVersion (db : DB) : gmap Z (list operation) :=
  foldl (group_key db) ∅ (history_keys db).

Definition compactRecords (retain : Z) (db : DB) : list record :=
  if retain =? db_version db then
    let ops := omap (live_op db) (history_keys db) in
    if bool_decide (ops = []) then [] else [mkRec (db_version db) ops]
  else
    let groups := byVersion db in
    (fun v => mkRec v (default [] (groups !! v))) <$> merge_sort Z.le (map_to_list groups).*1.

(** How the file operations of one compaction end: all succeed; one fails
    while the temporary file is written, which is then removed; closing the
    previous file fails; the rename fails and the previous file is reopened, or
    is not; or the renamed file cannot be reopened and positioned, which closes
    the database.  After [CIoOldCloseFail] and [CIoRenameLost] the database stays
    open on a file handle that is closed: its contents are as they were and
    every later append fails, which is an outcome of that append.  That the
    position is set at the end of a previous file that was reopened is taken for
    granted, as its error is ignored. *)
Inductive compact_io :=
  | CIoOk
  | CIoTmpFail
  | CIoOldCloseFail
  | CIoRenameFail
  | CIoRenameLost
  | CIoReopenFail.

Section compact.
Context `{RecordCodec}.

Definition compact_file (retain : Z) (db : DB) : bytes :=
  foldl (fun file rec => fst (appendRecord file rec IoOk)) (writeWALHeader []) (compactRecords retain db).

Definition Compact (o : compact_io) (db : DB) : DB * option error :=
  if db_closed db then (db, Some ErrClosed)
  else
    let retain := oldestReadVersion db in
    let db := pruneHistory retain db in
    match o with
    | CIoTmpFail | CIoOldCloseFail | CIoRenameFail | CIoRenameLost => (db, Some ErrIO)
    | CIoReopenFail => (set_closed true (set_file (compact_file retain db) db), Some ErrIO)
    | CIoOk => (add_compaction (set_file (compact_file retain db) db), None)
    end.
End compact.

(** * Pruning one key *)

Lemma baseIdx_Some vs retain n i :
  baseIdx vs retain n = Some i ->
  exists v, vs !! i = Some v /\ vv_version v <= retain /\ (i < n)%nat /\
  forall j w, (i < j < n)%nat -> vs !! j = Some w -> retain < vv_version w.
Proof.
  induction n as [|n IH]; simpl; [done|]. destruct (vs !! n) as [v|] eqn:E.
  - destruct (Z.leb_spec (vv_version v) retain).
    + intros [= <-]. exists v. split_and!; auto. intros; lia.
    + intros (v' & ? & ? & ? & Hj)%IH. exists v'. split_and!; auto.
      intros j w Hlt Hw. destruct (decide (j = n)) as [->|]; [naive_solver|]. apply (Hj j); [lia|done].
  - intros (v' & ? & ? & ? & Hj)%IH. exists v'. split_and!; auto.
    intros j w Hlt Hw. destruct (decide (j = n)) as [->|]; [naive_solver|]. apply (Hj j); [lia|done].
Qed.

Lemma baseIdx_None vs retain n :
  baseIdx vs retain n = None ->
  forall j w, (j < n)%nat -> vs !! j = Some w -> retain < vv_version w.
Proof.
  induction n as [|n IH]; simpl; [lia|]. intros Hn j w Hlt Hw.
  destruct (decide (j = n)) as [->|].
  - rewrite Hw in Hn. destruct (Z.leb_spec (vv_version w) retain); [done|lia].
  - apply (IH) with (j := j); [|lia|done]. repeat case_match; done.
Qed.

(** What pruning keeps: the newest version at or below [retain], unless it is
    a deletion with nothing after it, and everything above [retain]. *)
Lemma pruneVersions_cases vs retain :
  (pruneVersions vs retain = vs /\ Forall (fun v => retain < vv_version v) vs) \/
  (exists old base new,
     vs = old ++ base :: new /\ vv_version base <= retain /\
     Forall (fun v => retain < vv_version v) new /\
     pruneVersions vs retain =
       (if vv_deleted base && bool_decide (new = []) then [] else [base]) ++ new).
Proof.
  unfold pruneVersions. destruct (baseIdx vs retain (length vs)) as [b|] eqn:E.
  - right. apply baseIdx_Some in E as (base & Hb & Hle & Hlt & Hj). rewrite Hb.
    exists (take b vs), base, (drop (S b) vs).
    assert (Forall (fun v => retain < vv_version v) (drop (S b) vs)) as Hn.
    { apply Forall_lookup. intros i v Hi. rewrite lookup_drop in Hi.
      apply (Hj (S b + i)%nat); [|done]. apply lookup_lt_Some in Hi. lia. }
    split_and!; [by rewrite take_drop_middle|done..|]. f_equal.
    2:{ clear -Hn. induction Hn; [done|]. rewrite filter_cons_True by done. by f_equal. }
    destruct (vv_deleted base); [|done]. cbn [andb].
    destruct (drop (S b) vs) as [|v l]; [done|]. rewrite bool_decide_false by done.
    apply Forall_inv in Hn. cbn [existsb]. by rewrite (proj2 (Z.ltb_lt _ _)) by done.
  - left. split; [done|]. apply Forall_lookup. intros i v Hi.
    eapply baseIdx_None; [done| |done]. by eapply lookup_lt_Some.
Qed.

Lemma pruneVersions_visible vs retain rv :
  retain <= rv -> value_of (visible rv (pruneVersions vs retain)) = value_of (visible rv vs).
Proof.
  intros Hrv. destruct (pruneVersions_cases vs retain) as [[-> _]|(old & base & new & -> & Hle & Hn & ->)]; [done|].
  rewrite (visible_app _ old), (visible_app _ [base] new).
  assert (visible rv [base] = Some base) as Hb.
  { unfold visible. cbn. by rewrite (proj2 (Z.leb_le _ _)) by lia. }
  rewrite Hb. destruct (vv_deleted base && bool_decide (new = [])) eqn:E.
  - apply andb_true_iff in E as [Hd E]. to_prop. subst. simpl. by rewrite Hd.
  - rewrite visible_app, Hb. by destruct (visible rv new).
Qed.

Lemma pruneVersions_last vs retain rv :
  retain <= rv ->
  match last (pruneVersions vs retain) with Some v => rv <? vv_version v | None => false end =
  match last vs with Some v => rv <? vv_version v | None => false end.
Proof.
  intros Hrv. destruct (pruneVersions_cases vs retain) as [[-> _]|(old & base & new & -> & Hle & Hn & ->)]; [done|].
  rewrite (last_app old), !last_cons.
  destruct (vv_deleted base && bool_decide (new = [])) eqn:E.
  - apply andb_true_iff in E as [_ E]. to_prop. subst. simpl. symmetry. apply Z.ltb_ge. lia.
  - rewrite last_app. by destruct (last new).
Qed.

Lemma pruneVersions_sub vs retain : pruneVersions vs retain `sublist_of` vs.
Proof.
  destruct (pruneVersions_cases vs retain) as [[-> _]|(old & base & new & -> & _ & _ & ->)]; [done|].
  apply sublist_inserts_l. destruct (_ && _); simpl; [by apply sublist_cons|done].
Qed.

Lemma versions_wf_sublist b vs vs' : versions_wf b vs -> vs' `sublist_of` vs -> versions_wf b vs'.
Proof.
  intros [Hs Hb] Hsub. split.
  - clear Hb. revert Hs. induction Hsub as [|x l1 l2 Hsub IH|x l1 l2 Hsub IH]; intros Hs; [done|..].
    + apply StronglySorted_inv in Hs as [Hs Hf]. constructor; [auto|].
      by eapply Forall_sublist_of.
    + apply StronglySorted_inv in Hs as [Hs _]. auto.
  - by eapply Forall_sublist_of.
Qed.

(** * Pruning the history *)

Lemma versions_of_prune retain db k :
  versions_of (pruneHistory retain db) k = pruneVersions (versions_of db k) retain.
Proof.
  unfold versions_of, pruneHistory. cbn [set_history db_history]. rewrite lookup_omap.
  destruct (db_history db !! k) as [vs|]; simpl; [|done]. unfold prune_key.
  by case_bool_decide as E.
Qed.

Lemma committed_prune retain db rv k :
  retain <= rv -> committed (pruneHistory retain db) rv k = committed db rv k.
Proof. intros. unfold committed. rewrite versions_of_prune. by apply pruneVersions_visible. Qed.

Lemma newer_prune retain db rv k :
  retain <= rv -> newer (pruneHistory retain db) rv k = newer db rv k.
Proof. intros. unfold newer. rewrite versions_of_prune. by apply pruneVersions_last. Qed.

Lemma db_wf_prune retain db : db_wf db -> db_wf (pruneHistory retain db).
Proof.
  intros Hwf. split; [apply Hwf| |apply Hwf]. intros k vs Hk. split.
  - unfold pruneHistory in Hk. cbn [set_history db_history] in Hk. rewrite lookup_omap in Hk.
    destruct (db_history db !! k) as [vs'|]; [|done]. simpl in Hk. unfold prune_key in Hk.
    case_bool_decide; naive_solver.
  - apply history_versions in Hk as <-. rewrite versions_of_prune.
    eapply versions_wf_sublist; [by apply (versions_of_wf db k)|apply pruneVersions_sub].
Qed.

(** * The oldest open snapshot *)

Lemma min_version_fold (m : gmap nat Z) :
  match map_fold min_version None m with
  | None => m = ∅
  | Some o => (exists id, m !! id = Some o) /\ forall id v, m !! id = Some v -> o <= v
  end.
Proof.
  apply (map_fold_weak_ind (fun (r : option Z) (m : gmap nat Z) =>
    match r with
    | None => m = ∅
    | Some o => (exists id, m !! id = Some o) /\ forall id v, m !! id = Some v -> o <= v
    end)); [done|].
  intros id v m' r Hid Hr. unfold min_version. destruct r as [o|].
  - destruct Hr as [[id' Hid'] Hmin]. destruct (Z.ltb_spec v o).
    + split; [exists id; by rewrite lookup_insert_eq|].
      intros id0 v0. rewrite lookup_insert_Some. intros [[_ <-]|[_ H0]]; [lia|].
      apply Hmin in H0. lia.
    + split; [exists id'; rewrite lookup_insert_ne; naive_solver|].
      intros id0 v0. rewrite lookup_insert_Some. intros [[_ <-]|[_ H0]]; [lia|eauto].
  - subst. split; [exists id; by rewrite lookup_insert_eq|].
    intros id0 v0. rewrite lookup_insert_Some, lookup_empty. intros [[_ <-]|[_ [=]]]. lia.
Qed.

Lemma oldestReadVersion_le db id v :
  db_active db !! id = Some v -> oldestReadVersion db <= v.
Proof.
  intros Hid. unfold oldestReadVersion. pose proof (min_version_fold (db_active db)) as Hm.
  destruct (map_fold min_version None (db_active db)) as [o|]; simpl; [|by rewrite Hm, lookup_empty in Hid].
  destruct Hm as [_ Hm]. eauto.
Qed.

Lemma oldestReadVersion_range db : db_wf db -> 0 <= oldestReadVersion db <= db_version db.
Proof.
  intros Hwf. unfold oldestReadVersion. pose proof (min_version_fold (db_active db)) as Hm.
  pose proof (wf_version db Hwf).
  destruct (map_fold min_version None (db_active db)) as [o|]; simpl; [|lia].
  destruct Hm as [[id Hid] _]. by apply (wf_active db Hwf id).
Qed.

(** * Replaying records *)

Lemma versions_of_replay rs db k :
  versions_of (foldl (flip apply) db rs) k =
  versions_of db k ++ (rs ≫= fun r => new_versions (rec_version r) (rec_ops r) k).
Proof.
  revert db. induction rs as [|r rs IH]; intros db; [symmetry; apply (right_id_L [] app)|].
  cbn [foldl flip]. by rewrite IH, versions_of_apply, <- (assoc_L app).
Qed.

Lemma elem_of_history_keys db k : k ∈ history_keys db <-> is_Some (db_history db !! k).
Proof.
  unfold history_keys. rewrite (sort_strings_perm _), list_elem_of_fmap. split.
  - intros ([k' vs] & -> & Hin). exists vs. by apply elem_of_map_to_list in Hin.
  - intros [vs Hvs]. exists (k, vs). split; [done|]. by apply elem_of_map_to_list.
Qed.

Lemma NoDup_history_keys db : NoDup (history_keys db).
Proof. unfold history_keys. rewrite (sort_strings_perm _). apply NoDup_fst_map_to_list. Qed.

Lemma versions_of_not_key db k : k ∉ history_keys db -> versions_of db k = [].
Proof.
  rewrite elem_of_history_keys, <- eq_None_not_Some. unfold versions_of. by intros ->.
Qed.

Lemma live_op_key db k op : live_op db k = Some op -> op_key op = k.
Proof. unfold live_op. repeat case_match; naive_solver. Qed.

(** The snapshot record holds the live value of each key, once. *)
Lemma snapshot_versions db k :
  new_versions (db_version db) (omap (live_op db) (history_keys db)) k =
  match value_of (last (versions_of db k)) with
  | Some value => [mkVV (db_version db) value false]
  | None => []
  end.
Proof.
  unfold new_versions. rewrite filter_omap_keyed by eauto using live_op_key, NoDup_history_keys.
  case_decide as Hin.
  - unfold live_op, value_of. destruct (last (versions_of db k)) as [v|]; [|done].
    by destruct (vv_deleted v).
  - by rewrite versions_of_not_key by done.
Qed.

(** One group of the general case: the versions numbered [v] of each key. *)
Definition group_ops (db : DB) (v : Z) (key : bytes) : list operation :=
  (fun x => mkOp key (vv_value x) (vv_deleted x)) <$>
    filter (fun x => vv_version x = v) (versions_of db key).

Lemma group_add_fold key vs (m : gmap Z (list operation)) v :
  default [] (foldl (group_add key) m vs !! v) =
  default [] (m !! v) ++
    ((fun x => mkOp key (vv_value x) (vv_deleted x)) <$> filter (fun x => vv_version x = v) vs).
Proof.
  revert m. induction vs as [|x vs IH]; intros m; [symmetry; apply (right_id_L [] app)|].
  cbn [foldl]. rewrite IH. unfold group_add at 1. rewrite lookup_insert.
  case_decide as E; [|by rewrite filter_cons_False].
  rewrite filter_cons_True, fmap_cons by done. simpl. by rewrite E, <- (assoc_L app).
Qed.

Lemma byVersion_group db v :
  default [] (byVersion db !! v) = history_keys db ≫= group_ops db v.
Proof.
  unfold byVersion. assert (forall m, default [] (foldl (group_key db) m (history_keys db) !! v) =
    default [] (m !! v) ++ (history_keys db ≫= group_ops db v)) as Hg; [|by rewrite Hg, lookup_empty].
  induction (history_keys db) as [|k ks IH]; intros m; [symmetry; apply (right_id_L [] app)|].
  cbn [foldl]. rewrite IH. unfold group_key at 1. by rewrite group_add_fold, <- (assoc_L app).
Qed.

Lemma filter_group db v k ks :
  NoDup ks ->
  filter (fun op => op_key op = k) (ks ≫= group_ops db v) =
  if decide (k ∈ ks) then group_ops db v k else [].
Proof.
  assert (forall k', filter (fun op => op_key op = k) (group_ops db v k') =
    if decide (k' = k) then group_ops db v k' else []) as Hone.
  { intros k'. unfold group_ops. induction (filter _ (versions_of db k')) as [|x l IH]; [by case_decide|].
    rewrite fmap_cons, filter_cons. simpl. rewrite IH. by repeat case_decide. }
  induction ks as [|k' ks IH]; intros Hnd; [done|]. apply NoDup_cons in Hnd as [Hni Hnd].
  rewrite bind_cons, filter_app, Hone, IH by done. destruct (decide (k' = k)) as [->|].
  - rewrite (decide_False (P := k ∈ ks)) by done. rewrite (right_id_L [] app).
    by rewrite decide_True by set_solver.
  - simpl. by repeat case_decide; set_solver.
Qed.

Lemma group_versions db v k :
  new_versions v (default [] (byVersion db !! v)) k =
  filter (fun x => vv_version x = v) (versions_of db k).
Proof.
  unfold new_versions. rewrite byVersion_group, filter_group by apply NoDup_history_keys.
  case_decide as Hin; [|by rewrite versions_of_not_key by done].
  unfold group_ops. rewrite <- list_fmap_compose.
  induction (versions_of db k) as [|x l IH]; [done|]. rewrite !filter_cons.
  case_decide as Ev; [|done]. rewrite fmap_cons, IH. simpl. rewrite <- Ev. by destruct x.
Qed.

(** The groups in increasing order of version rebuild a sorted history. *)
Lemma regroup (l : list valueVersion) (vs : list Z) :
  StronglySorted vv_lt l -> StronglySorted Z.lt vs -> (forall x, x ∈ l -> vv_version x ∈ vs) ->
  (vs ≫= fun v => filter (fun x => vv_version x = v) l) = l.
Proof.
  intros Hl Hvs. revert l Hl. induction Hvs as [|v vs Hvs IH Hv]; intros l Hl Hin.
  { destruct l as [|x l]; [done|]. specialize (Hin x ltac:(set_solver)). set_solver. }
  rewrite Forall_forall in Hv.
  assert (forall l', (forall x, x ∈ l' -> v < vv_version x) -> filter (fun x => vv_version x = v) l' = []) as Hnone.
  { intros l' Hl'. induction l' as [|x l' IHl]; [done|]. rewrite filter_cons_False.
    - apply IHl. set_solver.
    - specialize (Hl' x ltac:(set_solver)). lia. }
  rewrite bind_cons. destruct l as [|x l].
  { simpl. clear. induction vs; [done|]. rewrite bind_cons. simpl. done. }
  pose proof (StronglySorted_inv Hl) as [Hl' Hx]. rewrite Forall_forall in Hx.
  destruct (decide (vv_version x = v)) as [Ev|Hne].
  - rewrite filter_cons_True by done. rewrite Hnone.
    2:{ intros y Hy. apply Hx in Hy. unfold vv_lt in Hy. lia. }
    simpl. f_equal. etrans; [|apply IH; [exact Hl'|]].
    + clear -Hv Ev. induction vs as [|w vs IHv]; [done|]. rewrite !bind_cons. f_equal.
      * rewrite filter_cons_False; [done|]. specialize (Hv w ltac:(set_solver)). lia.
      * apply IHv. set_solver.
    + intros y Hy. specialize (Hin y ltac:(set_solver)). apply Hx in Hy. unfold vv_lt in Hy.
      apply elem_of_cons in Hin as [|]; [lia|done].
  - assert (forall y, y ∈ x :: l -> v < vv_version y) as Hgt.
    { assert (v < vv_version x) as Hvx.
      { specialize (Hin x ltac:(set_solver)). apply elem_of_cons in Hin as [|Hi]; [done|]. by apply Hv. }
      intros y [->|Hy]%elem_of_cons; [done|]. apply Hx in Hy. unfold vv_lt in Hy. lia. }
    rewrite Hnone by done. apply IH; [done|]. intros y Hy.
    pose proof (Hin y Hy) as Hi. apply Hgt in Hy. apply elem_of_cons in Hi as [|]; [lia|done].
Qed.

Lemma byVersion_has db k x : x ∈ versions_of db k -> is_Some (byVersion db !! vv_version x).
Proof.
  intros Hx. destruct (byVersion db !! vv_version x) as [ops|] eqn:E; [eauto|].
  pose proof (group_versions db (vv_version x) k) as Hg. rewrite E in Hg. simpl in Hg.
  assert (x ∈ filter (fun y => vv_version y = vv_version x) (versions_of db k)) as Hf
    by (by apply list_elem_of_filter).
  rewrite <- Hg in Hf. by apply not_elem_of_nil in Hf.
Qed.

Definition group_order (db : DB) : list Z := merge_sort Z.le (map_to_list (byVersion db)).*1.

Lemma group_order_sorted db : StronglySorted Z.lt (group_order db).
Proof.
  assert (NoDup (group_order db)) as Hnd.
  { unfold group_order. rewrite merge_sort_Permutation. apply NoDup_fst_map_to_list. }
  assert (StronglySorted Z.le (group_order db)) as Hs
    by (apply StronglySorted_merge_sort; apply _).
  induction Hs as [|v vs Hs IH Hf]; [constructor|]. apply NoDup_cons in Hnd as [Hni Hnd].
  constructor; [auto|]. rewrite Forall_forall in Hf |- *. intros w Hw.
  specialize (Hf w Hw). destruct (decide (v = w)) as [->|]; [done|]. lia.
Qed.

Lemma elem_of_group_order db v : v ∈ group_order db <-> is_Some (byVersion db !! v).
Proof.
  unfold group_order. rewrite (merge_sort_Permutation _ _), list_elem_of_fmap. split.
  - intros ([v' ops] & -> & Hin). exists ops. by apply elem_of_map_to_list in Hin.
  - intros [ops Hops]. exists (v, ops). split; [done|]. by apply elem_of_map_to_list.
Qed.

(** The general rewrite reproduces the history of every key exactly. *)
Lemma general_replay db f k :
  db_wf db ->
  versions_of (foldl (flip apply) (empty_db f)
    ((fun v => mkRec v (default [] (byVersion db !! v))) <$> group_order db)) k = versions_of db k.
Proof.
  intros Hwf. rewrite versions_of_replay. cbn [versions_of empty_db db_history].
  change (versions_of (empty_db f) k) with (@nil valueVersion). rewrite (left_id_L [] app).
  etrans; [|apply (regroup (versions_of db k) (group_order db))].
  - induction (group_order db) as [|v vs IH]; [done|].
    rewrite fmap_cons, !bind_cons, IH. f_equal. apply group_versions.
  - by apply (versions_of_wf db k).
  - apply group_order_sorted.
  - intros x Hx. apply elem_of_group_order. by eapply byVersion_has.
Qed.

Lemma snapshot_replay db f k :
  versions_of (foldl (flip apply) (empty_db f) [mkRec (db_version db) (omap (live_op db) (history_keys db))]) k =
  match value_of (last (versions_of db k)) with
  | Some value => [mkVV (db_version db) value false]
  | None => []
  end.
Proof. cbn [foldl flip]. rewrite versions_of_apply. cbn [rec_ops rec_version]. by rewrite snapshot_versions. Qed.

(** A snapshot with no operation: no key is live. *)
Lemma snapshot_empty db k :
  omap (live_op db) (history_keys db) = [] -> value_of (last (versions_of db k)) = None.
Proof.
  intros E. pose proof (snapshot_versions db k) as Hs. rewrite E in Hs.
  by destruct (value_of (last (versions_of db k))).
Qed.

Lemma compactRecords_committed retain db f rv k :
  db_wf db -> retain <= rv ->
  committed (foldl (flip apply) (empty_db f) (compactRecords retain db)) rv k = committed db rv k.
Proof.
  intros Hwf Hrv. unfold compactRecords. destruct (Z.eqb_spec retain (db_version db)) as [->|].
  - rewrite (committed_latest db) by done. unfold committed.
    case_bool_decide as E; [by rewrite snapshot_empty|].
    rewrite snapshot_replay. destruct (value_of (last (versions_of db k))); [|done].
    unfold visible. cbn. by rewrite (proj2 (Z.leb_le _ _)) by done.
  - unfold committed. by rewrite general_replay.
Qed.

(** * Well-formed logs *)

(** Records in increasing order of version, all above [v], each with at most
    one operation per key: the logs commits and compactions write. *)
Fixpoint log_wf (v : Z) (rs : list record) : Prop :=
  match rs with
  | [] => True
  | r :: rs' =>
      v < rec_version r /\
      (forall k, (length (new_versions (rec_version r) (rec_ops r) k) <= 1)%nat) /\
      log_wf (rec_version r) rs'
  end.

Lemma log_wf_replay db rs :
  db_wf db -> log_wf (db_version db) rs -> db_wf (foldl (flip apply) db rs).
Proof.
  revert db. induction rs as [|r rs IH]; intros db Hwf; [done|].
  intros (Hlt & Hone & Hrs). cbn [foldl flip]. apply IH.
  - by apply db_wf_apply.
  - rewrite version_apply. by rewrite Z.max_r by lia.
Qed.

Lemma log_wf_version v rs db :
  log_wf v rs -> db_version db <= v -> rs <> [] ->
  exists r, last rs = Some r /\ db_version (foldl (flip apply) db rs) = rec_version r.
Proof.
  revert v db. induction rs as [|r rs IH]; intros v db Hwf Hle Hne; [done|].
  destruct Hwf as (Hlt & _ & Hrs). cbn [foldl flip]. destruct rs as [|r' rs].
  - exists r. split; [done|]. simpl. rewrite version_apply. lia.
  - destruct (IH (rec_version r) (apply r db) Hrs) as (r'' & Hl & Hv); [rewrite version_apply; lia|done|].
    exists r''. by rewrite last_cons, Hl.
Qed.

Lemma filter_version_one l v :
  StronglySorted vv_lt l -> (length (filter (fun x => vv_version x = v) l) <= 1)%nat.
Proof.
  induction 1 as [|x l Hs IH Hf]; [simpl; lia|]. rewrite filter_cons. case_decide as E; [|done].
  assert (filter (fun x => vv_version x = v) l = []) as ->; [|simpl; lia].
  clear -E Hf. induction Hf as [|y l Hy Hf IH]; [done|]. rewrite filter_cons_False; [done|].
  unfold vv_lt in Hy. lia.
Qed.

Lemma byVersion_positive db v : db_wf db -> is_Some (byVersion db !! v) -> 0 < v <= db_version db.
Proof.
  intros Hwf. unfold byVersion.
  assert (forall ks (m : gmap Z (list operation)),
    (forall v, is_Some (m !! v) -> 0 < v <= db_version db) ->
    forall v, is_Some (foldl (group_key db) m ks !! v) -> 0 < v <= db_version db) as Hks.
  { induction ks as [|k ks IH]; intros m Hm; [done|]. cbn [foldl]. apply IH. unfold group_key.
    pose proof (versions_of_wf db k Hwf) as [_ Hb]. revert m Hm.
    induction Hb as [|x vs Hx Hb IHv]; intros m Hm; [done|]. cbn [foldl]. apply IHv.
    intros w. unfold group_add. rewrite lookup_insert. case_decide; [|apply Hm]. intros _. lia. }
  intros Hv. eapply Hks; [|exact Hv]. intros w [? Hw]. by rewrite lookup_empty in Hw.
Qed.

(** The records of a compaction form a well-formed log. *)
Lemma compactRecords_log retain db :
  db_wf db -> log_wf 0 (compactRecords retain db).
Proof.
  intros Hwf. unfold compactRecords. case_match; [case_bool_decide as E; [done|]|].
  - split_and!; [| |done].
    + destruct (omap (live_op db) (history_keys db)) as [|op ops] eqn:Eo; [done|].
      assert (op ∈ omap (live_op db) (history_keys db)) as Hin by (rewrite Eo; set_solver).
      apply list_elem_of_omap in Hin as (k & _ & Hop). unfold live_op in Hop.
      destruct (last (versions_of db k)) as [v|] eqn:El; [|done].
      apply last_Some_elem_of in El. pose proof (versions_of_wf db k Hwf) as [_ Hb].
      rewrite Forall_forall in Hb. specialize (Hb v El). simpl. lia.
    + intros k. simpl. rewrite snapshot_versions. case_match; simpl; lia.
  - fold (group_order db).
    assert (forall v, v ∈ group_order db -> 0 < v) as Hpos.
    { intros v Hv. apply elem_of_group_order in Hv. by apply byVersion_positive in Hv; [lia|]. }
    pose proof (group_order_sorted db) as Hs. revert Hpos.
    assert (forall a, (forall v, v ∈ group_order db -> a < v) ->
      log_wf a ((fun v => mkRec v (default [] (byVersion db !! v))) <$> group_order db)) as Hlog; [|by apply Hlog].
    induction Hs as [|v vs Hs IH Hf]; intros a Ha; [done|]. rewrite fmap_cons. split_and!.
    + simpl. apply Ha. set_solver.
    + intros k. simpl. rewrite group_versions. apply filter_version_one. by apply (versions_of_wf db k).
    + simpl. apply IH. intros w Hw. rewrite Forall_forall in Hf. by apply Hf.
Qed.

Lemma compact_file_wal `{RecordCodec} retain db :
  compact_file retain db = wal_file (compactRecords retain db).
Proof.
  unfold compact_file. change (writeWALHeader []) with (wal_file []).
  assert (forall rs rs', foldl (fun file rec => fst (appendRecord file rec IoOk)) (wal_file rs) rs' =
    wal_file (rs ++ rs')) as Hf; [|apply Hf].
  intros rs rs'. revert rs. induction rs' as [|r rs' IH]; intros rs; [by rewrite (right_id_L [] app)|].
  cbn [foldl appendRecord fst]. rewrite cons_middle, (assoc_L app), <- IH, wal_file_app.
  unfold frames. by rewrite bind_singleton.
Qed.

(** * Compaction as a whole *)

Section compact_properties.
Context `{RecordCodec}.

(** What every compaction, failed or not, does to the state. *)
Lemma Compact_frame o db db' err :
  Compact o db = (db', err) ->
  db_version db' = db_version db /\ db_active db' = db_active db /\
  (db_history db' = db_history db \/ db_history db' = db_history (pruneHistory (oldestReadVersion db) db)).
Proof. unfold Compact. repeat case_match; intros [= <- <-]; auto. Qed.

Lemma versions_of_history db db' k :
  db_history db' = db_history db -> versions_of db' k = versions_of db k.
Proof. unfold versions_of. by intros ->. Qed.

Lemma Compact_views o db db' err rv k :
  Compact o db = (db', err) -> oldestReadVersion db <= rv ->
  committed db' rv k = committed db rv k /\ newer db' rv k = newer db rv k.
Proof.
  intros HC Hrv. destruct (Compact_frame o db db' err HC) as (_ & _ & [Eh|Eh]).
  - unfold committed, newer. by rewrite (versions_of_history db db').
  - rewrite <- (committed_prune (oldestReadVersion db) db rv k) by done.
    rewrite <- (newer_prune (oldestReadVersion db) db rv k) by done.
    unfold committed, newer. by rewrite (versions_of_history _ db' k Eh).
Qed.

Lemma db_wf_Compact o db : db_wf db -> db_wf (fst (Compact o db)).
Proof.
  intros Hwf. pose proof (db_wf_prune (oldestReadVersion db) db Hwf) as Hp.
  unfold Compact. repeat case_match; simpl; try done; by eapply db_wf_frame.
Qed.

(** C14.  Compaction is invisible to every open transaction: whatever the file
    operations do, it keeps the version and the registered snapshots, and every
    snapshot at or above the oldest open one (all open transactions and the
    current version) reads the same values and gets the same answer from the
    conflict check. *)
Theorem compact_invisible o db db' err :
  db_wf db -> Compact o db = (db', err) ->
  db_wf db' /\ db_version db' = db_version db /\ db_active db' = db_active db /\
  forall rv k, (rv = db_version db \/ exists id, db_active db !! id = Some rv) ->
    committed db' rv k = committed db rv k /\ newer db' rv k = newer db rv k.
Proof.
  intros Hwf HC. destruct (Compact_frame o db db' err HC) as (Hv & Ha & _). split_and!; auto.
  - pose proof (db_wf_Compact o db Hwf) as Hwf'. by rewrite HC in Hwf'.
  - intros rv k Hrv. eapply Compact_views; [done|]. destruct Hrv as [->|[id Hid]].
    + by apply oldestReadVersion_range.
    + by eapply oldestReadVersion_le.
Qed.

(** C15.  The rewritten log holds the same data: after a successful compaction,
    opening the new file (if its records fit in frames) succeeds with a
    well-formed state that agrees with the database before the compaction on
    every snapshot from the oldest open one up, and on the current values. *)
Theorem compact_log_equivalent db db' f :
  db_wf db -> Compact CIoOk db = (db', None) ->
  Forall frame_ok (compactRecords (oldestReadVersion db) (pruneHistory (oldestReadVersion db) db)) ->
  exists s, initWAL apply (db_file db') (empty_db f) = (db_file db', (s, (zlen (db_file db'), None))) /\
    db_wf s /\
    (forall rv k, oldestReadVersion db <= rv -> committed s rv k = committed db rv k) /\
    (forall k, committed s (db_version s) k = committed db (db_version db) k).
Proof.
  intros Hwf. unfold Compact. case_match; [done|]. intros [= <-] Hok.
  set (retain := oldestReadVersion db) in *. set (pdb := pruneHistory retain db) in *.
  cbn [add_compaction set_file db_file]. rewrite compact_file_wal.
  set (rs := compactRecords retain pdb) in *.
  exists (foldl (flip apply) (empty_db f) rs).
  assert (db_wf pdb) as Hp by (by apply db_wf_prune).
  assert (db_wf (foldl (flip apply) (empty_db f) rs)) as Hs.
  { apply log_wf_replay; [apply db_wf_empty|]. by apply compactRecords_log. }
  assert (forall rv k, retain <= rv -> committed (foldl (flip apply) (empty_db f) rs) rv k = committed db rv k) as Hc.
  { intros rv k Hrv. unfold rs. rewrite compactRecords_committed by done. by apply committed_prune. }
  split_and!; [by apply initWAL_wal_file|done|done|].
  intros k. set (s := foldl _ _ _) in *.
  pose proof (oldestReadVersion_range db Hwf) as Hr.
  rewrite (committed_latest s (db_version s)) by (done || lia).
  rewrite <- (committed_latest s (Z.max (db_version s) (db_version db))) by (done || lia).
  rewrite Hc by (unfold retain; lia). rewrite !committed_latest by (done || lia). done.
Qed.
End compact_properties.
