(* ===== verification/Checkpoint.v ===== *)
(** The background checkpoint worker (checkpoint.go, options.go): one tick of
    its loop decides by the commits since the last checkpoint and the size of
    the log whether to compact.  Here a
    tick is one step of the worker between other operations; Shutdown.v has its
    parts, the goroutine and its end. *)

From S2P Require Import Prelude Utf8 Strconv Keys Wal Mvcc Compact.

Record Options := mkOptions {
  AutoCheckpoint : bool;
  CheckpointEveryCommit : Z;
  CheckpointMinBytes : Z;
}.

Definition DefaultOptions : Options := mkOptions true 256 (Z.shiftl 1 20).

(** The worker, with the local variable of its loop. *)
Record checkpointWorker := mkWorker {
  cw_opts : Options;
  cw_running : bool;
  cw_checkpoints : Z;
  cw_lastCommits : Z;
}.

(** newCheckpointWorker and the first statement of the loop. *)
Definition newCheckpointWorker (opts : Options) (db : DB) : checkpointWorker :=
  mkWorker opts false 0 (db_commits db).

Section checkpoint.
Context `{RecordCodec}.

(** [stat_ok] is whether Stat of the log succeeds, [o] how the compaction's file
    operations end. *)
Definition maybeCheckpoint (stat_ok : bool) (o : compact_io) (w : checkpointWorker) (db : DB)
  : checkpointWorker * DB :=
  if cw_running w then (w, db)
  else
    let commits := db_commits db in
    let delta := u64 (commits - cw_lastCommits w) in
    if (delta <? CheckpointEveryCommit (cw_opts w)) &&
       (db_closed db || negb stat_ok || (zlen (db_file db) <? CheckpointMinBytes (cw_opts w)))
    then (w, db)
    else
      match Compact o db with
      | (db, Some _) => (w, db)
      | (db, None) =>
          (mkWorker (cw_opts w) false (u64 (cw_checkpoints w + 1)) (db_commits db), db)
      end.

(** C35.  A checkpoint tick is safe and prompt: it never changes what any open
    transaction or the current version reads nor any conflict check; and on an
    open database, once the commit or the size threshold is reached, a tick whose
    file operations succeed compacts the log and counts one checkpoint from the
    current number of commits. *)
Theorem checkpoint_tick stat_ok o w db :
  db_wf db ->
  let '(w', db') := maybeCheckpoint stat_ok o w db in
  (db_wf db' /\ db_version db' = db_version db /\ db_active db' = db_active db /\
   forall rv k, (rv = db_version db \/ exists id, db_active db !! id = Some rv) ->
     committed db' rv k = committed db rv k /\ newer db' rv k = newer db rv k) /\
  (db_closed db = false -> cw_running w = false -> stat_ok = true -> o = CIoOk ->
   CheckpointEveryCommit (cw_opts w) <= u64 (db_commits db - cw_lastCommits w) \/
   CheckpointMinBytes (cw_opts w) <= zlen (db_file db) ->
   db' = fst (Compact CIoOk db) /\ cw_checkpoints w' = u64 (cw_checkpoints w + 1) /\
   cw_lastCommits w' = db_commits db).
Proof.
  intros Hwf. destruct (maybeCheckpoint stat_ok o w db) as [w' db'] eqn:E. split.
  - assert (db' = db \/ exists err, Compact o db = (db', err)) as [->|[err HC]].
    { unfold maybeCheckpoint in E. repeat case_match; simplify_eq; eauto. }
    + split_and!; try done.
    + destruct (Compact_frame o db db' err HC) as (Hv & Ha & _). pose proof (db_wf_Compact o db Hwf) as Hwf'.
      rewrite HC in Hwf'. split_and!; try done. intros rv k Hrv. eapply Compact_views; [done|].
      destruct Hrv as [->|[id Hid]]; [by apply oldestReadVersion_range|by eapply oldestReadVersion_le].
  - intros Hc Hr -> -> Hdue. unfold maybeCheckpoint in E. rewrite Hc, Hr in E. cbn [orb negb] in E.
    assert ((u64 (db_commits db - cw_lastCommits w) <? CheckpointEveryCommit (cw_opts w)) &&
      (zlen (db_file db) <? CheckpointMinBytes (cw_opts w)) = false) as Hd by lia.
    rewrite Hd in E. unfold Compact in *. rewrite Hc in *. cbn [fst] in *. by simplify_eq.
Qed.
End checkpoint.
