(* ===== verification/Shutdown.v ===== *)
(** Starting and stopping the checkpoint worker (checkpoint.go: start, close and
    loop; db.go: Close), as a transition system: the worker's goroutine, any
    number of calls of Close and every other user of the database take turns.
    What other goroutines can observe is a step: taking and releasing [db.mu],
    the channel [stop], the wait group, the file.  The read lock of the worker
    protects two reads and is one step, possible while nobody holds the lock for
    writing; other methods, which hold the lock from their first effect to their
    last, are one step as well. *)

From S2P Require Import Prelude Utf8 Strconv Keys Wal Mvcc Compact Checkpoint.

(** * The state *)

(** Where the worker is: at the select of its loop, or before a statement of
    maybeCheckpoint; [WCompacting] holds the lock; [WExited] has run wg.Done (or
    was never started). *)
Inductive worker_pc :=
  | WSelect
  | WTick
  | WLook
  | WStat
  | WSwap
  | WCompact
  | WCompacting
  | WCount
  | WExited.

(** Where a call of Close is: [CLocked] and [CFile] hold the lock. *)
Inductive close_pc :=
  | CCall
  | CLocked
  | CSignal
  | CWait
  | CRelock
  | CFile
  | CDone.

Inductive holder := HWorker | HClose (i : nat).

#[global] Instance worker_pc_eq : EqDecision worker_pc. Proof. solve_decision. Defined.
#[global] Instance close_pc_eq : EqDecision close_pc. Proof. solve_decision. Defined.
#[global] Instance holder_eq : EqDecision holder. Proof. solve_decision. Defined.

(** [sh_ckpt]: whether db.ckpt is set; [sh_stop]: whether the channel is closed;
    [sh_closes]: how often the file was closed by Close. *)
Record shared := mkShared {
  sh_db : DB;
  sh_mu : option holder;
  sh_ckpt : bool;
  sh_stop : bool;
  sh_closes : nat;
  sh_worker : checkpointWorker;
  sh_pc : worker_pc;
  sh_calls : gmap nat close_pc;
}.

Definition set_db (db : DB) (s : shared) : shared :=
  mkShared db (sh_mu s) (sh_ckpt s) (sh_stop s) (sh_closes s) (sh_worker s) (sh_pc s) (sh_calls s).
Definition set_mu (m : option holder) (s : shared) : shared :=
  mkShared (sh_db s) m (sh_ckpt s) (sh_stop s) (sh_closes s) (sh_worker s) (sh_pc s) (sh_calls s).
Definition set_ckpt (b : bool) (s : shared) : shared :=
  mkShared (sh_db s) (sh_mu s) b (sh_stop s) (sh_closes s) (sh_worker s) (sh_pc s) (sh_calls s).
Definition set_stop (b : bool) (s : shared) : shared :=
  mkShared (sh_db s) (sh_mu s) (sh_ckpt s) b (sh_closes s) (sh_worker s) (sh_pc s) (sh_calls s).
Definition add_close (s : shared) : shared :=
  mkShared (sh_db s) (sh_mu s) (sh_ckpt s) (sh_stop s) (S (sh_closes s)) (sh_worker s) (sh_pc s) (sh_calls s).
Definition set_worker (w : checkpointWorker) (s : shared) : shared :=
  mkShared (sh_db s) (sh_mu s) (sh_ckpt s) (sh_stop s) (sh_closes s) w (sh_pc s) (sh_calls s).
Definition set_pc (pc : worker_pc) (s : shared) : shared :=
  mkShared (sh_db s) (sh_mu s) (sh_ckpt s) (sh_stop s) (sh_closes s) (sh_worker s) pc (sh_calls s).
Definition set_call (i : nat) (pc : close_pc) (s : shared) : shared :=
  mkShared (sh_db s) (sh_mu s) (sh_ckpt s) (sh_stop s) (sh_closes s) (sh_worker s) (sh_pc s) (<[i := pc]> (sh_calls s)).

Definition set_running (b : bool) (w : checkpointWorker) : checkpointWorker :=
  mkWorker (cw_opts w) b (cw_checkpoints w) (cw_lastCommits w).

(** * The steps *)

(** A step may have to wait, panic, or go on. *)
Inductive move := Blocked | Panics | Goes (s : shared).

(** The end of OpenWithOptions. *)
Definition start (opts : Options) (db : DB) : shared :=
  mkShared db None (AutoCheckpoint opts) false 0 (newCheckpointWorker opts db)
    (if AutoCheckpoint opts then WSelect else WExited) ∅.

(** The worker at the select: both cases may be ready, and either is taken. *)
Definition loop_step (tick : bool) (s : shared) : move :=
  if tick then Goes (set_pc WTick s)
  else if sh_stop s then Goes (set_pc WExited s) else Blocked.

Section steps.
Context `{R : RecordCodec}.

(** The worker inside maybeCheckpoint: [size] is what Stat reports of the file it
    looked up, [o] how the compaction ends. *)
Definition maybeCheckpoint_step (size : option Z) (o : compact_io) (s : shared) : move :=
  let w := sh_worker s in
  match sh_pc s with
  | WTick =>
      if cw_running w then Goes (set_pc WSelect s)
      else if u64 (db_commits (sh_db s) - cw_lastCommits w) <? CheckpointEveryCommit (cw_opts w)
      then Goes (set_pc WLook s)
      else Goes (set_pc WSwap s)
  | WLook =>
      match sh_mu s with
      | Some _ => Blocked
      | None => Goes (set_pc (if db_closed (sh_db s) then WSelect else WStat) s)
      end
  | WStat =>
      match size with
      | None => Goes (set_pc WSelect s)
      | Some n => Goes (set_pc (if n <? CheckpointMinBytes (cw_opts w) then WSelect else WSwap) s)
      end
  | WSwap =>
      if cw_running w then Goes (set_pc WSelect s)
      else Goes (set_pc WCompact (set_worker (set_running true w) s))
  | WCompact =>
      match sh_mu s with
      | Some _ => Blocked
      | None => Goes (set_pc WCompacting (set_mu (Some HWorker) s))
      end
  | WCompacting =>
      match Compact o (sh_db s) with
      | (db, Some _) => Goes (set_pc WSelect (set_worker (set_running false w) (set_mu None (set_db db s))))
      | (db, None) => Goes (set_pc WCount (set_mu None (set_db db s)))
      end
  | WCount =>
      Goes (set_pc WSelect (set_worker
        (mkWorker (cw_opts w) false (u64 (cw_checkpoints w + 1)) (db_commits (sh_db s))) s))
  | WSelect | WExited => Blocked
  end.

(** The worker's close: close the channel, then wait for the goroutine. *)
Definition worker_close (i : nat) (s : shared) : move :=
  match sh_calls s !! i with
  | Some CSignal => if sh_stop s then Panics else Goes (set_call i CWait (set_stop true s))
  | Some CWait => if bool_decide (sh_pc s = WExited) then Goes (set_call i CRelock s) else Blocked
  | _ => Blocked
  end.

Definition Close_step (i : nat) (s : shared) : move :=
  match sh_calls s !! i with
  | Some CCall =>
      match sh_mu s with
      | Some _ => Blocked
      | None => Goes (set_call i CLocked (set_mu (Some (HClose i)) s))
      end
  | Some CLocked =>
      if db_closed (sh_db s) then Goes (set_call i CDone (set_mu None s))
      else
        Goes (set_call i (if sh_ckpt s then CSignal else CRelock)
          (set_mu None (set_ckpt false (set_db (set_closed true (sh_db s)) s))))
  | Some CSignal | Some CWait => worker_close i s
  | Some CRelock =>
      match sh_mu s with
      | Some _ => Blocked
      | None => Goes (set_call i CFile (set_mu (Some (HClose i)) s))
      end
  | Some CFile => Goes (set_call i CDone (set_mu None (add_close s)))
  | Some CDone | None => Blocked
  end.

(** One step of the system.  Another method leaves any database behind that is
    closed if it was; only a failed compaction closes one. *)
Inductive label := LTick | LRun | LCall | LOther.

Inductive step : shared -> label -> move -> Prop :=
  | step_tick s : sh_pc s = WSelect -> step s LTick (loop_step true s)
  | step_stop s : sh_pc s = WSelect -> step s LRun (loop_step false s)
  | step_worker s size o : step s LRun (maybeCheckpoint_step size o s)
  | step_close s i : step s LRun (Close_step i s)
  | step_call s i : sh_calls s !! i = None -> step s LCall (Goes (set_call i CCall s))
  | step_other s db : sh_mu s = None -> (db_closed (sh_db s) = true -> db_closed db = true) ->
      step s LOther (Goes (set_db db s)).

(** A run, with the labels of its steps. *)
Inductive steps : shared -> list label -> shared -> Prop :=
  | steps_refl s : steps s [] s
  | steps_step s l s' ls s'' : step s l (Goes s') -> steps s' ls s'' -> steps s (l :: ls) s''.

(** * The invariant *)

(** The call that closes the database, past the test of [closed]. *)
Definition closing (pc : close_pc) : bool :=
  match pc with CSignal | CWait | CRelock | CFile => true | _ => false end.

(** What holds where a call of Close is. *)
Definition call_ok (s : shared) (i : nat) (pc : close_pc) : Prop :=
  (sh_mu s = Some (HClose i) <-> pc = CLocked \/ pc = CFile) /\
  (closing pc = true -> db_closed (sh_db s) = true /\ sh_ckpt s = false /\ sh_closes s = 0%nat) /\
  (pc = CSignal -> sh_stop s = false) /\
  (pc = CWait -> sh_stop s = true) /\
  (pc = CRelock \/ pc = CFile -> sh_pc s = WExited).

Record worker_ok (s : shared) : Prop := {
  wo_mu : sh_mu s = Some HWorker <-> sh_pc s = WCompacting;
  wo_ckpt : sh_ckpt s = true -> sh_stop s = false /\ sh_pc s <> WExited /\ sh_closes s = 0%nat;
  wo_none : db_closed (sh_db s) = false -> sh_ckpt s = false -> sh_pc s = WExited;
  wo_stop : sh_stop s = true -> db_closed (sh_db s) = true /\ sh_ckpt s = false;
  wo_closes : sh_closes s <> 0%nat -> db_closed (sh_db s) = true /\ sh_pc s = WExited /\ sh_closes s = 1%nat /\ sh_ckpt s = false;
}.

Record ok (s : shared) : Prop := {
  ok_calls : forall i pc, sh_calls s !! i = Some pc -> call_ok s i pc;
  ok_one : forall i j p q, sh_calls s !! i = Some p -> sh_calls s !! j = Some q ->
    closing p = true -> closing q = true -> i = j;
  ok_mu : forall i, sh_mu s = Some (HClose i) -> is_Some (sh_calls s !! i);
  ok_worker : worker_ok s;
}.

Lemma ok_start opts db : ok (start opts db).
Proof. split; cbn; try done. split; cbn; by destruct (AutoCheckpoint opts). Qed.

(** A step that moves the call [i]. *)
Lemma ok_move s s' i pc :
  ok s -> sh_calls s' = <[i := pc]> (sh_calls s) ->
  (forall j p, j <> i -> sh_calls s !! j = Some p -> call_ok s' j p) -> call_ok s' i pc ->
  (closing pc = true -> forall j p, j <> i -> sh_calls s !! j = Some p -> closing p = false) ->
  (forall j, sh_mu s' = Some (HClose j) -> sh_mu s = Some (HClose j) \/ j = i) ->
  worker_ok s' -> ok s'.
Proof.
  intros Hs Hc Hj Hi Hone Hmu Hw. split; [| | |done].
  - intros j p. rewrite Hc, lookup_insert_Some. intros [[<- <-]|[? ?]]; eauto.
  - intros j k p q. rewrite Hc, !lookup_insert_Some.
    intros [[<- <-]|[? Hp]] [[<- <-]|[? Hq]] Cp Cq; [done| | |by eapply (ok_one _ Hs)].
    + by rewrite (Hone Cp k q) in Cq.
    + by rewrite (Hone Cq j p) in Cp.
  - intros j [H| ->]%Hmu; rewrite Hc; [|by rewrite lookup_insert_eq].
    destruct (decide (j = i)) as [->|]; [by rewrite lookup_insert_eq|]. rewrite lookup_insert_ne by done. by apply (ok_mu _ Hs).
Qed.

(** A step that moves no call. *)
Lemma ok_same s s' :
  ok s -> sh_calls s' = sh_calls s -> (forall i pc, sh_calls s !! i = Some pc -> call_ok s i pc -> call_ok s' i pc) ->
  (forall j, sh_mu s' = Some (HClose j) -> sh_mu s = Some (HClose j)) -> worker_ok s' -> ok s'.
Proof.
  intros Hs Hc Hj Hm Hw. split; [| | |done]; rewrite Hc; [|apply (ok_one _ Hs)|]; intros; [|apply (ok_mu _ Hs); auto].
  apply Hj; [done|]. by apply (ok_calls _ Hs).
Qed.

Lemma ok_other s db :
  ok s -> sh_mu s = None -> (db_closed (sh_db s) = true -> db_closed db = true) -> ok (set_db db s).
Proof.
  intros Hs Hm Hc. eapply ok_same; [done|done| |done|].
  - intros i pc _ (? & ? & ? & ? & ?). unfold call_ok. cbn. intuition.
  - destruct (ok_worker _ Hs). split; cbn; intuition. destruct (db_closed (sh_db s)); intuition congruence.
Qed.

Lemma ok_call s i : ok s -> sh_calls s !! i = None -> ok (set_call i CCall s).
Proof.
  intros Hs Hi. assert (sh_mu s <> Some (HClose i)) as Hm.
  { intros Hm. destruct (ok_mu _ Hs i Hm). congruence. }
  eapply (ok_move s _ i); [done|done| |unfold call_ok; cbn; intuition congruence|done|by left|by destruct (ok_worker _ Hs)].
  intros j p _ Hj. by apply (ok_calls _ Hs).
Qed.

Lemma ok_loop tick s s' : ok s -> sh_pc s = WSelect -> loop_step tick s = Goes s' -> ok s'.
Proof.
  intros Hs Hp H. assert (s' = set_pc (if tick then WTick else WExited) s /\ (tick = false -> sh_stop s = true)) as [-> Ht].
  { unfold loop_step in H. destruct tick, (sh_stop s); simplify_eq; done. }
  destruct (ok_worker _ Hs). eapply ok_same; [done|done| |done|].
  - intros i pc _ (? & ? & ? & ? & ?). unfold call_ok. cbn. rewrite Hp in *. destruct tick; intuition congruence.
  - split; cbn; rewrite Hp in *; destruct tick; intuition congruence.
Qed.

(** A step of the worker inside maybeCheckpoint. *)
Lemma ok_worker_move s db m w pc :
  ok s -> sh_pc s <> WExited -> pc <> WExited -> (db_closed (sh_db s) = true -> db_closed db = true) ->
  (forall j, m = Some (HClose j) <-> sh_mu s = Some (HClose j)) -> (m = Some HWorker <-> pc = WCompacting) ->
  ok (set_pc pc (set_worker w (set_mu m (set_db db s)))).
Proof.
  intros Hs Hp Hpc Hc Hm Hw. destruct (ok_worker _ Hs). eapply ok_same; [done|done| |intros j; cbn; apply Hm|].
  - intros i p _ (? & ? & ? & ? & ?). unfold call_ok. cbn. rewrite Hm. intuition.
  - split; cbn; [done| | | |]; intuition. destruct (db_closed (sh_db s)); intuition congruence.
Qed.

Lemma Compact_closed_mono o db : db_closed db = true -> db_closed (fst (Compact o db)) = true.
Proof. unfold Compact. intros E. by rewrite E. Qed.

Lemma ok_maybeCheckpoint size o s s' : ok s -> maybeCheckpoint_step size o s = Goes s' -> ok s'.
Proof.
  intros Hs H. assert (forall m, sh_mu s = m -> m = Some HWorker <-> sh_pc s = WCompacting) as Hmu by (intros m <-; apply (ok_worker _ Hs)).
  pose proof (Compact_closed_mono o (sh_db s)) as Hcl.
  assert (s' = set_pc (sh_pc s') (set_worker (sh_worker s') (set_mu (sh_mu s') (set_db (sh_db s') s))) /\
    sh_pc s <> WExited /\ sh_pc s' <> WExited /\ (db_closed (sh_db s) = true -> db_closed (sh_db s') = true) /\
    (forall j, sh_mu s' = Some (HClose j) <-> sh_mu s = Some (HClose j)) /\ (sh_mu s' = Some HWorker <-> sh_pc s' = WCompacting))
    as (-> & ? & ? & ? & ? & ?); [|by apply ok_worker_move].
  unfold maybeCheckpoint_step in H. destruct (sh_pc s) eqn:Ep; try done;
    repeat case_match; simplify_eq; try specialize (Hmu _ eq_refl); (split; [by destruct s|]); cbn [fst] in *; cbn;
    repeat case_match; (split; [done|]); (split; [done|]); (split; [done|]); (split; [intros; intuition congruence|]); intuition congruence.
Qed.

(** A step of the call [i] changes nothing for the others. *)
Lemma others_not_closing s i pc :
  ok s -> sh_calls s !! i = Some pc -> closing pc = true \/ db_closed (sh_db s) = false ->
  forall j p, j <> i -> sh_calls s !! j = Some p -> closing p = false.
Proof.
  intros Hs Hi Hor j p Hne Hj. destruct (closing p) eqn:Cp; [|done]. exfalso. destruct Hor as [Cpc|Ho].
  - by eapply Hne, (ok_one _ Hs).
  - destruct (ok_calls _ Hs j p Hj) as (_ & Hcl & _). destruct (Hcl Cp) as [? _]. congruence.
Qed.

Lemma ok_Close i s s' : ok s -> Close_step i s = Goes s' -> ok s'.
Proof.
  intros Hs H. unfold Close_step in H. destruct (sh_calls s !! i) as [pc|] eqn:Hi; [|done].
  pose proof (others_not_closing s i pc Hs Hi) as Hoth. pose proof (ok_calls _ Hs i pc Hi) as Hci. destruct (ok_worker _ Hs).
  assert (forall j p, j <> i -> sh_calls s !! j = Some p -> call_ok s j p /\
    (closing pc = true \/ db_closed (sh_db s) = false -> closing p = false)) as Hrest.
  { intros j p Hne Hj. split; [by apply (ok_calls _ Hs)|]. intros Hor. by apply (Hoth Hor j). }
  unfold call_ok in *. unfold worker_close in H.
  destruct pc; rewrite ?Hi in H; cbn in Hci; repeat case_match; rewrite ?bool_decide_eq_true in *; simplify_eq.
  all: eapply (ok_move s _ i); [done|done| | | | |].
  all: cbn; try (intros j; intuition congruence).
  all: try (intros j p Hne Hj; destruct (Hrest j p Hne Hj) as [Hq Hp]; clear Hrest Hoth wo_ckpt0 wo_none0 wo_stop0 wo_closes0; unfold call_ok; cbn; destruct p; cbn in *; intuition congruence).
  all: try (split; cbn; intuition congruence).
  all: destruct (decide (sh_closes s = 0%nat)); unfold call_ok; cbn; intuition congruence.
Qed.

Lemma ok_step s l s' : ok s -> step s l (Goes s') -> ok s'.
Proof.
  intros Hs Hstep. remember (Goes s') as m eqn:Em. destruct Hstep; simplify_eq; eauto using ok_loop, ok_maybeCheckpoint, ok_Close, ok_call, ok_other.
Qed.

Lemma ok_steps s ls s' : ok s -> steps s ls s' -> ok s'.
Proof. intros Hs. induction 1; [done|]. eauto using ok_step. Qed.

(** * Progress *)

Definition worker_rank (pc : worker_pc) : nat :=
  match pc with
  | WExited => 0 | WSelect => 1 | WCount => 2 | WCompacting => 3 | WCompact => 4
  | WSwap => 5 | WStat => 6 | WLook => 7 | WTick => 8
  end.

Definition close_rank (pc : close_pc) : nat :=
  match pc with
  | CDone => 0 | CFile => 1 | CRelock => 2 | CWait => 3 | CSignal => 4 | CLocked => 5 | CCall => 6
  end.

Definition calls_rank (m : gmap nat close_pc) : nat := map_fold (fun _ pc n => (close_rank pc + n)%nat) 0%nat m.

(** How many steps the worker and the calls have left, ticks and new calls apart. *)
Definition rank (s : shared) : nat := (worker_rank (sh_pc s) + calls_rank (sh_calls s))%nat.

Lemma calls_rank_new m i pc : m !! i = None -> calls_rank (<[i := pc]> m) = (close_rank pc + calls_rank m)%nat.
Proof. intros Hi. unfold calls_rank. rewrite map_fold_insert_L; [done|lia|done]. Qed.

Lemma calls_rank_move m i pc pc' :
  m !! i = Some pc -> (calls_rank (<[i := pc']> m) + close_rank pc = close_rank pc' + calls_rank m)%nat.
Proof.
  intros Hi. rewrite <- insert_delete_eq, calls_rank_new by apply lookup_delete_eq.
  rewrite <- (insert_delete_id m i pc Hi) at 2. rewrite calls_rank_new by apply lookup_delete_eq. lia.
Qed.

Lemma rank_maybeCheckpoint size o s s' : maybeCheckpoint_step size o s = Goes s' -> (rank s' < rank s)%nat.
Proof.
  unfold maybeCheckpoint_step, rank. intros Hstep.
  destruct (sh_pc s); try done; repeat case_match; simplify_eq; cbn; repeat case_match; cbn; lia.
Qed.

Lemma rank_Close i s s' : Close_step i s = Goes s' -> (rank s' < rank s)%nat.
Proof.
  unfold Close_step, worker_close, rank. intros Hstep. destruct (sh_calls s !! i) as [pc|] eqn:Hi; [|done].
  pose proof (fun pc' => calls_rank_move _ i pc pc' Hi) as Hrank.
  destruct pc; repeat case_match; simplify_eq; cbn; match goal with |- context [<[i := ?p]> _] => specialize (Hrank p) end;
    cbn in Hrank; lia.
Qed.

(** What each kind of step adds to the rank at most. *)
Definition cost (l : label) : Z := match l with LTick => 7 | LRun => -1 | LCall => 6 | LOther => 0 end.

Lemma rank_step s l s' : step s l (Goes s') -> Z.of_nat (rank s') <= Z.of_nat (rank s) + cost l.
Proof.
  intros Hstep. remember (Goes s') as m eqn:Em. destruct Hstep; cbn [cost].
  - injection Em as <-. unfold rank. rewrite H. cbn [sh_pc sh_calls set_pc worker_rank]. lia.
  - unfold loop_step in Em. destruct (sh_stop s); [|done]. injection Em as <-. unfold rank. rewrite H.
    cbn [sh_pc sh_calls set_pc worker_rank]. lia.
  - apply rank_maybeCheckpoint in Em. lia.
  - apply rank_Close in Em. lia.
  - injection Em as <-. unfold rank. cbn [sh_pc sh_calls set_call]. rewrite calls_rank_new by done. cbn [close_rank]. lia.
  - injection Em as <-. unfold rank. cbn [sh_pc sh_calls set_db]. lia.
Qed.

Definition is_run (l : label) : bool := match l with LRun => true | _ => false end.
Definition is_tick (l : label) : bool := match l with LTick => true | _ => false end.
Definition is_call (l : label) : bool := match l with LCall => true | _ => false end.
Definition count (f : label -> bool) (ls : list label) : Z := zlen (filter f ls).

Lemma count_nil f : count f [] = 0.
Proof. done. Qed.

Lemma count_cons f l ls : count f (l :: ls) = (if f l then 1 else 0) + count f ls.
Proof. unfold count. rewrite filter_cons. case_decide as E; destruct (f l); try done; rewrite ?zlen_cons; lia. Qed.

Lemma runs_bounded s ls s' :
  steps s ls s' -> count is_run ls <= Z.of_nat (rank s) + 7 * count is_tick ls + 6 * count is_call ls.
Proof.
  induction 1 as [s|s l s1 ls s2 Hstep _ IH]; [by rewrite !count_nil; lia|]. apply rank_step in Hstep. rewrite !count_cons.
  destruct l; cbn [cost is_run is_tick is_call] in *; lia.
Qed.

(** Whoever holds the lock can go on. *)
Lemma holder_goes s h : ok s -> sh_mu s = Some h -> exists s', step s LRun (Goes s').
Proof.
  intros Hs Hm. destruct h as [|i].
  - assert (sh_pc s = WCompacting) as Hp by (by apply (ok_worker _ Hs)).
    destruct (maybeCheckpoint_step None CIoOk s) eqn:E; [..|eexists; rewrite <- E; constructor];
      unfold maybeCheckpoint_step in E; rewrite Hp in E; repeat case_match; done.
  - destruct (ok_mu _ Hs i Hm) as [pc Hi]. pose proof (proj1 (ok_calls _ Hs i pc Hi)) as Hpc.
    destruct (Close_step i s) eqn:E; [..|eexists; rewrite <- E; constructor];
      unfold Close_step in E; rewrite Hi in E; destruct (proj1 Hpc Hm) as [-> | ->]; repeat case_match; done.
Qed.

(** A worker that was told to stop can go on. *)
Lemma worker_goes s : ok s -> sh_stop s = true -> sh_pc s <> WExited -> exists s', step s LRun (Goes s').
Proof.
  intros Hs Hstop Hp. destruct (sh_mu s) as [h|] eqn:Hm; [by eapply holder_goes|].
  destruct (decide (sh_pc s = WSelect)) as [Hsel|Hsel].
  - eexists. pose proof (step_stop s Hsel) as H. unfold loop_step in H. rewrite Hstop in H. exact H.
  - destruct (maybeCheckpoint_step None CIoOk s) eqn:E; [..|eexists; rewrite <- E; constructor];
      unfold maybeCheckpoint_step in E; rewrite ?Hm in E; destruct (sh_pc s); repeat case_match; done.
Qed.

Lemma pending_goes s i pc : ok s -> sh_calls s !! i = Some pc -> pc <> CDone -> exists s', step s LRun (Goes s').
Proof.
  intros Hs Hi Hpc. destruct (sh_mu s) as [h|] eqn:Hm; [by eapply holder_goes|].
  destruct (ok_calls _ Hs i pc Hi) as (_ & _ & Hsig & Hwait & _).
  destruct (decide (pc = CWait /\ sh_pc s <> WExited)) as [[-> Hw]|Hw]; [apply worker_goes; auto|].
  destruct (Close_step i s) eqn:E; [..|eexists; rewrite <- E; constructor];
    unfold Close_step, worker_close in E; rewrite Hi, ?Hm in E; destruct pc; rewrite ?Hi in E; repeat case_match; simplify_eq; try done.
  all: rewrite ?bool_decide_eq_false in *; intuition congruence.
Qed.

Lemma no_panic s l : ok s -> ~ step s l Panics.
Proof.
  intros Hs Hstep. remember Panics as m eqn:Em. destruct Hstep; try done.
  - unfold loop_step in Em. by destruct (sh_stop s).
  - unfold maybeCheckpoint_step in Em. repeat case_match; done.
  - unfold Close_step, worker_close in Em. destruct (sh_calls s !! i) as [pc|] eqn:Hi; [|done].
    destruct (ok_calls _ Hs i pc Hi) as (_ & _ & Hsig & _). destruct pc; repeat case_match; try done. specialize (Hsig eq_refl). congruence.
Qed.

(** * Release of the worker and the file *)

(** Once db.ckpt is taken, some call is on its way to close the file, or has. *)
Definition taken (s : shared) : Prop :=
  sh_ckpt s = false -> (exists i pc, sh_calls s !! i = Some pc /\ closing pc = true) \/ sh_closes s = 1%nat.

Lemma taken_move s s' i pc pc' :
  ok s -> taken s -> sh_calls s !! i = Some pc -> sh_calls s' = <[i := pc']> (sh_calls s) ->
  sh_ckpt s' = sh_ckpt s -> sh_closes s' = sh_closes s -> (closing pc = true -> closing pc' = true) -> taken s'.
Proof.
  intros Hs Ht Hi Hc Hk Hn Hpc. unfold taken. rewrite Hk, Hn, Hc. intros [(j & p & Hj & Hp)|H]%Ht; [|by right].
  left. destruct (decide (i = j)) as [->|Hne]; [exists j, pc'|exists j, p].
  - rewrite lookup_insert_eq. split; [done|]. apply Hpc. by simplify_eq.
  - by rewrite lookup_insert_ne.
Qed.

Lemma taken_same s s' :
  taken s -> sh_calls s' = sh_calls s -> sh_ckpt s' = sh_ckpt s -> sh_closes s' = sh_closes s -> taken s'.
Proof. intros Ht Hc Hk Hn. unfold taken. by rewrite Hk, Hn, Hc. Qed.

Lemma taken_Close i s s' : ok s -> taken s -> Close_step i s = Goes s' -> taken s'.
Proof.
  intros Hs Ht Hstep. unfold Close_step, worker_close in Hstep. destruct (sh_calls s !! i) as [pc|] eqn:Hi; [|done].
  destruct (ok_calls _ Hs i pc Hi) as (_ & Hcl & _).
  destruct pc; repeat case_match; simplify_eq; try (by eapply (taken_move s _ i)).
  - intros _. left. exists i, CSignal. cbn. by rewrite lookup_insert_eq.
  - intros _. right. cbn. destruct (Hcl eq_refl) as (_ & _ & ->). done.
Qed.

Lemma taken_steps s ls s' : ok s -> taken s -> steps s ls s' -> taken s'.
Proof.
  intros Hs Ht Hsteps. induction Hsteps as [|s l s1 ls s2 Hstep _ IH]; [done|].
  apply IH; [by eapply ok_step|]. clear IH ls s2. remember (Goes s1) as m eqn:Em. destruct Hstep.
  - injection Em as <-. by eapply taken_same.
  - unfold loop_step in Em. destruct (sh_stop s); simplify_eq. by eapply taken_same.
  - unfold maybeCheckpoint_step in Em. repeat case_match; simplify_eq; by eapply taken_same.
  - by eapply taken_Close.
  - injection Em as <-. intros [(j & p & Hj & Hp)|Hn]%Ht; [|by right]. left. exists j, p. cbn.
    rewrite lookup_insert_ne by congruence. done.
  - injection Em as <-. by eapply taken_same.
Qed.

(** A call that has returned leaves a closed database. *)
Definition returned_closed (s : shared) : Prop := forall i, sh_calls s !! i = Some CDone -> db_closed (sh_db s) = true.

Lemma closed_step s l s' : step s l (Goes s') -> db_closed (sh_db s) = true -> db_closed (sh_db s') = true.
Proof.
  intros Hstep Hc. remember (Goes s') as m eqn:Em. destruct Hstep.
  - by injection Em as <-.
  - unfold loop_step in Em. destruct (sh_stop s); by simplify_eq.
  - unfold maybeCheckpoint_step in Em. pose proof (Compact_closed_mono o (sh_db s) Hc) as Hcl.
    repeat case_match; simplify_eq; cbn [fst] in *; done.
  - unfold Close_step, worker_close in Em. repeat case_match; simplify_eq; done.
  - by injection Em as <-.
  - injection Em as <-. cbn. auto.
Qed.

Lemma returned_step s l s' : ok s -> returned_closed s -> step s l (Goes s') -> returned_closed s'.
Proof.
  intros Hs Hr Hstep j Hj. pose proof (closed_step _ _ _ Hstep) as Hmono. specialize (Hr j). remember (Goes s') as m eqn:Em. destruct Hstep.
  - injection Em as <-. auto.
  - unfold loop_step in Em. destruct (sh_stop s); simplify_eq. auto.
  - unfold maybeCheckpoint_step in Em. repeat case_match; simplify_eq; auto.
  - pose proof (ok_calls _ Hs i) as Hi. unfold Close_step, worker_close in Em. destruct (sh_calls s !! i) as [pc|]; [|done].
    destruct (Hi pc eq_refl) as (_ & Hcl & _). apply Hmono. clear Hmono.
    destruct pc; repeat case_match; simplify_eq; cbn in Hj; try done;
      (apply lookup_insert_Some in Hj as [[_ Hj]|[_ Hj]]; [try done|by apply Hr]); try (by apply Hcl); repeat case_match; done.
  - injection Em as <-. cbn in Hj. apply lookup_insert_Some in Hj as [[_ ?]|[_ Hj]]; [done|]. by apply Hr.
  - injection Em as <-. auto.
Qed.

Lemma returned_steps s ls s' : ok s -> returned_closed s -> steps s ls s' -> returned_closed s'.
Proof. intros Hs Hr Hsteps. induction Hsteps as [|s l s1 ls s2 Hstep _ IH]; [done|]. apply IH; [by eapply ok_step|by eapply returned_step]. Qed.

(** C10.  What Close guarantees in every state that a database reaches, whatever
    the schedule of its worker, its other users and any number of calls of Close: no
    step panics, so the channel is closed once; while a call of Close has not
    returned, it, the worker or the holder of the lock can go on, and together they
    take at most 1 + 7 steps per tick + 6 per call, so Close returns provided the
    ticker is silent long enough (with endless ticks nothing is claimed); the file
    is closed at most once and only after the worker's end; a call that has returned
    leaves a closed database; and when a database with a worker has had a call of
    Close and all calls have returned, either the worker has ended and the file was
    closed once, or the database had been closed by something other than Close,
    as a compaction that fails to reopen its file does (C36): then the worker is
    still there and Close never closed the file. *)
Theorem close_returns opts db ls s :
  steps (start opts db) ls s ->
  (forall l, ~ step s l Panics) /\
  (forall i pc, sh_calls s !! i = Some pc -> pc <> CDone -> exists s', step s LRun (Goes s')) /\
  count is_run ls <= 1 + 7 * count is_tick ls + 6 * count is_call ls /\
  (sh_closes s <= 1)%nat /\ (sh_closes s = 1%nat -> sh_pc s = WExited) /\
  (forall i, sh_calls s !! i = Some CDone -> db_closed (sh_db s) = true) /\
  (AutoCheckpoint opts = true -> sh_calls s <> ∅ -> (forall i pc, sh_calls s !! i = Some pc -> pc = CDone) ->
   (sh_ckpt s = false /\ sh_closes s = 1%nat /\ sh_pc s = WExited) \/
   (sh_ckpt s = true /\ db_closed (sh_db s) = true /\ sh_closes s = 0%nat /\ sh_pc s <> WExited)).
Proof.
  intros Hsteps. pose proof (ok_steps _ _ _ (ok_start opts db) Hsteps) as Hs. pose proof (wo_closes _ (ok_worker _ Hs)) as Hn.
  assert (returned_closed s) as Hret by (apply (returned_steps _ _ _ (ok_start opts db)) in Hsteps; [exact Hsteps|by intros i]).
  split; [intros l; by apply no_panic|]. split; [intros i pc; by apply pending_goes|].
  split; [|split; [|split; [|split]]].
  - apply runs_bounded in Hsteps. unfold rank, start in Hsteps. cbn [sh_pc sh_calls] in Hsteps.
    change (calls_rank ∅) with 0%nat in Hsteps. destruct (AutoCheckpoint opts); cbn [worker_rank] in Hsteps; lia.
  - destruct (decide (sh_closes s = 0%nat)) as [->|H]; [lia|]. apply Hn in H as (_ & _ & -> & _). done.
  - intros E. apply Hn. by rewrite E.
  - exact Hret.
  - intros Ha Hne Hall. destruct (sh_ckpt s) eqn:Hk; [right|left].
    + destruct (wo_ckpt _ (ok_worker _ Hs) Hk) as (_ & ? & ?). split; [done|]. split; [|done].
      apply map_choose in Hne as (i & pc & Hi). apply (Hret i). by rewrite <- (Hall i pc Hi).
    + assert (taken s) as Ht by (eapply taken_steps; [apply ok_start| |done]; unfold taken, start; cbn; by rewrite Ha).
      destruct (Ht Hk) as [(i & pc & Hi & Hpc)|H1]; [by rewrite (Hall i pc Hi) in Hpc|]. do 2 (split; [done|]). apply Hn. by rewrite H1.
Qed.

(** * A tick without interference *)

(** The worker alone, from inside maybeCheckpoint back to its select. *)
Fixpoint run_tick (n : nat) (size : option Z) (o : compact_io) (s : shared) : shared :=
  match n with
  | O => s
  | S n => match maybeCheckpoint_step size o s with Goes s => run_tick n size o s | _ => s end
  end.

(** The steps of a tick, when nobody else moves, are [maybeCheckpoint] of
    Checkpoint.v. *)
Lemma run_tick_maybeCheckpoint (stat_ok : bool) o s :
  sh_pc s = WTick -> sh_mu s = None ->
  run_tick 7 (if stat_ok then Some (zlen (db_file (sh_db s))) else None) o s =
  let '(w, db) := maybeCheckpoint stat_ok o (sh_worker s) (sh_db s) in set_pc WSelect (set_worker w (set_db db s)).
Proof.
  intros Hp Hm. destruct s as [db mu ck st cl [opts running n last] pc calls]. cbn in Hp, Hm. subst pc mu.
  unfold maybeCheckpoint. cbn [sh_worker sh_db cw_running cw_opts cw_lastCommits].
  destruct running; [done|]. set (delta := u64 _). cbn [run_tick maybeCheckpoint_step sh_pc sh_worker cw_running sh_db cw_lastCommits cw_opts].
  fold delta. destruct (delta <? CheckpointEveryCommit opts); cbn [andb].
  - cbn. destruct (db_closed db) eqn:Ec; cbn; [done|]. destruct stat_ok; cbn; [|done].
    destruct (zlen (db_file db) <? CheckpointMinBytes opts); cbn; [done|]. by destruct (Compact o db) as [db' [e|]].
  - cbn. by destruct (Compact o db) as [db' [e|]].
Qed.

(** * A compaction that closes the database *)

(** The worker still runs and nobody will stop it. *)
Definition orphaned (s : shared) : Prop :=
  db_closed (sh_db s) = true /\ sh_ckpt s = true.

Lemma orphaned_step s l s' : ok s -> orphaned s -> step s l (Goes s') -> orphaned s'.
Proof.
  intros Hs [Hc Hk] Hstep. remember (Goes s') as m eqn:Em. destruct Hstep.
  - by injection Em as <-.
  - unfold loop_step in Em. destruct (sh_stop s); by simplify_eq.
  - unfold maybeCheckpoint_step in Em. pose proof (Compact_closed_mono o (sh_db s) Hc) as Hcl.
    repeat case_match; simplify_eq; cbn [fst] in *; done.
  - unfold Close_step, worker_close in Em. rewrite Hc in Em. destruct (sh_calls s !! i) as [pc|] eqn:Hi; [|done].
    destruct (ok_calls _ Hs i pc Hi) as (_ & Hcl & _). destruct pc; repeat case_match; simplify_eq; try done.
    all: destruct (Hcl eq_refl) as (_ & ? & _); congruence.
  - by injection Em as <-.
  - injection Em as <-. split; [cbn; auto|done].
Qed.

(** C36.  A compaction that cannot reopen the log closes the database behind the
    back of its worker: Compact sets closed and leaves db.ckpt.  From then on,
    whatever happens and however often Close is called, the worker is never told
    to stop, never ends, and the file is never closed by Close. *)
Theorem failed_reopen_leaks_worker opts db ls s ls' s' :
  steps (start opts db) ls s -> db_closed (sh_db s) = true -> sh_ckpt s = true ->
  steps s ls' s' ->
  sh_stop s' = false /\ sh_pc s' <> WExited /\ sh_closes s' = 0%nat /\
  (forall i pc, sh_calls s' !! i = Some pc -> closing pc = false).
Proof.
  intros Hrun Hc Hk Hsteps. pose proof (ok_steps _ _ _ (ok_start opts db) Hrun) as Hs. clear Hrun.
  assert (ok s' /\ orphaned s') as [Hs' [Hc' Hk']].
  { assert (orphaned s) as Ho by done. clear Hc Hk. induction Hsteps; [done|]. apply IHHsteps; eauto using ok_step, orphaned_step. }
  destruct (wo_ckpt _ (ok_worker _ Hs') Hk') as (? & ? & ?). split_and!; try done.
  intros i pc Hi. destruct (closing pc) eqn:E; [|done]. destruct (ok_calls _ Hs' i pc Hi) as (_ & Hcl & _).
  destruct (Hcl E) as (_ & ? & _). congruence.
Qed.
End steps.
