(* ===== verification/System.v ===== *)
(** The kernel as a transition system (db.go, tx.go, compact.go together): any
    number of clients run transactions in any interleaving, with compactions in
    between.  [Spec] is the contract, snapshot isolation stated without
    versions, histories or pruning: every transaction works on a copy of the
    store.  The kernel refines it. *)

From S2P Require Import Prelude Utf8 Strconv Keys Wal Mvcc Compact.

(** * Operations and outcomes *)

(** A client operation; transactions are named by the number Begin returned.
    [OpPut] and [OpDel] are the unexported calls of the SQL layer. *)
Inductive op :=
  | OpBegin (writable : bool)
  | OpGet (id : nat) (key : bytes)
  | OpScan (id : nat) (prefix : bytes)
  | OpSet (id : nat) (key value : bytes)
  | OpDelete (id : nat) (key : bytes)
  | OpPut (id : nat) (key value : bytes)
  | OpDel (id : nat) (key : bytes)
  | OpCommit (id : nat) (o : io)
  | OpRollback (id : nat)
  | OpCompact (o : compact_io)
  | OpClose.

Inductive outcome :=
  | OutBegin (r : res nat)
  | OutGet (r : option bytes)
  | OutScan (r : list kvPair)
  | OutErr (e : option error)
  | OutNone.

(** * The kernel with its clients *)

Record sys := mkSys {
  sys_db : DB;
  sys_txs : gmap nat Tx;
  sys_next : nat;
}.

Definition init_sys (file : bytes) : sys := mkSys (empty_db file) ∅ 0.

Definition with_db (db : DB) (s : sys) : sys := mkSys db (sys_txs s) (sys_next s).
Definition with_tx (id : nat) (tx : Tx) (s : sys) : sys :=
  mkSys (sys_db s) (<[id := tx]> (sys_txs s)) (sys_next s).

(** A write to the transaction [id]. *)
Definition tx_op (id : nat) (f : Tx -> Tx * option error) (s : sys) : sys * outcome :=
  match sys_txs s !! id with
  | None => (s, OutNone)
  | Some tx => let '(tx, e) := f tx in (with_tx id tx s, OutErr e)
  end.

Definition do_op `{RecordCodec} (s : sys) (o : op) : sys * outcome :=
  match o with
  | OpBegin w =>
      match Begin (sys_next s) w (sys_db s) with
      | Err e => (s, OutBegin (Err e))
      | Ok (db, tx) =>
          (mkSys db (<[sys_next s := tx]> (sys_txs s)) (S (sys_next s)), OutBegin (Ok (sys_next s)))
      end
  | OpGet id key =>
      match sys_txs s !! id with
      | None => (s, OutNone)
      | Some tx => let '(db, r) := Get tx key (sys_db s) in (with_db db s, OutGet r)
      end
  | OpScan id prefix =>
      match sys_txs s !! id with
      | None => (s, OutNone)
      | Some tx => let '(db, r) := scanPrefix tx prefix (sys_db s) in (with_db db s, OutScan r)
      end
  | OpSet id key value => tx_op id (Set' key value) s
  | OpDelete id key => tx_op id (Delete key) s
  | OpPut id key value => tx_op id (put key value) s
  | OpDel id key => tx_op id (del key) s
  | OpCommit id o =>
      match sys_txs s !! id with
      | None => (s, OutNone)
      | Some tx =>
          let '(db, tx, e) := Commit o tx (sys_db s) in (with_tx id tx (with_db db s), OutErr e)
      end
  | OpRollback id =>
      match sys_txs s !! id with
      | None => (s, OutNone)
      | Some tx => let '(db, tx) := Rollback tx (sys_db s) in (with_tx id tx (with_db db s), OutNone)
      end
  | OpCompact o => let '(db, e) := Compact o (sys_db s) in (with_db db s, OutErr e)
  | OpClose => (with_db (Close (sys_db s)) s, OutNone)
  end.

Fixpoint run `{RecordCodec} (s : sys) (ops : list op) : sys * list outcome :=
  match ops with
  | [] => (s, [])
  | o :: ops =>
      let '(s, r) := do_op s o in
      let '(s, rs) := run s ops in
      (s, r :: rs)
  end.

(** * The contract *)

Module Spec.

(** A transaction: the store it started from, when, and its own writes
    ([None] deletes). *)
Record atx := mkATx {
  at_snap : gmap bytes bytes;
  at_start : Z;
  at_writable : bool;
  at_writes : gmap bytes (option bytes);
  at_open : bool;
}.

(** The store, when each key was last changed, and the clock. *)
Record astate := mkA {
  a_store : gmap bytes bytes;
  a_modified : gmap bytes Z;
  a_version : Z;
  a_closed : bool;
  a_txs : gmap nat atx;
  a_next : nat;
}.

Definition init : astate := mkA ∅ ∅ 0 false ∅ 0.

Definition overlay (w : gmap bytes (option bytes)) (store : gmap bytes bytes) : gmap bytes bytes :=
  merge (fun ow os => match ow with Some v => v | None => os end) w store.

Definition contents (t : atx) : gmap bytes bytes := overlay (at_writes t) (at_snap t).

Definition finish (t : atx) : atx :=
  mkATx (at_snap t) (at_start t) (at_writable t) (at_writes t) false.

Definition with_atx (id : nat) (t : atx) (a : astate) : astate :=
  mkA (a_store a) (a_modified a) (a_version a) (a_closed a) (<[id := t]> (a_txs a)) (a_next a).

Definition changed_since (a : astate) (start : Z) (k : bytes) : bool :=
  match a_modified a !! k with Some z => start <? z | None => false end.

(** Whether a key the transaction writes was changed after it started. *)
Definition conflict (a : astate) (t : atx) : bool :=
  bool_decide (map_Exists (fun k _ => changed_since a (at_start t) k = true) (at_writes t)).

Definition stamp (v : Z) (w : gmap bytes (option bytes)) (m : gmap bytes Z) : gmap bytes Z :=
  merge (fun ow om => match ow with Some _ => Some v | None => om end) w m.

Definition commit (o : io) (id : nat) (t : atx) (a : astate) : astate * option error :=
  if negb (at_open t) then (a, Some ErrTxClosed)
  else
    let a' := with_atx id (finish t) a in
    if negb (at_writable t) then (a', None)
    else if a_closed a then (a', Some ErrClosed)
    else if conflict a t then (a', Some ErrConflict)
    else if bool_decide (at_writes t = ∅) then (a', None)
    else match o with
         | IoOk =>
             (mkA (overlay (at_writes t) (a_store a)) (stamp (a_version a + 1) (at_writes t) (a_modified a))
                (a_version a + 1) false (a_txs a') (a_next a), None)
         | _ => (a', Some ErrIO)
         end.

Definition write (id : nat) (k : bytes) (v : option bytes) (a : astate) : astate * outcome :=
  match a_txs a !! id with
  | None => (a, OutNone)
  | Some t =>
      if negb (at_open t) then (a, OutErr (Some ErrTxClosed))
      else if negb (at_writable t) then (a, OutErr (Some ErrReadOnly))
      else (with_atx id (mkATx (at_snap t) (at_start t) true (<[k := v]> (at_writes t)) true) a, OutErr None)
  end.

Definition user_write (id : nat) (k : bytes) (v : option bytes) (a : astate) : astate * outcome :=
  match a_txs a !! id with
  | None => (a, OutNone)
  | Some _ => if isReservedKey k then (a, OutErr (Some ErrReservedKey)) else write id k v a
  end.

(** The pairs of a store under a prefix, in key order. *)
Definition scan (prefix : bytes) (m : gmap bytes bytes) : list kvPair :=
  merge_sort kv_le
    ((fun kv => mkKV (fst kv) (snd kv)) <$> filter (fun kv => has_prefix (fst kv) prefix = true) (map_to_list m)).

Definition compact (o : compact_io) (a : astate) : astate * option error :=
  if a_closed a then (a, Some ErrClosed)
  else match o with
       | CIoOk => (a, None)
       | CIoReopenFail =>
           (mkA (a_store a) (a_modified a) (a_version a) true (a_txs a) (a_next a), Some ErrIO)
       | _ => (a, Some ErrIO)
       end.

Definition do_op (a : astate) (o : op) : astate * outcome :=
  match o with
  | OpBegin w =>
      if a_closed a then (a, OutBegin (Err ErrClosed))
      else
        (mkA (a_store a) (a_modified a) (a_version a) (a_closed a)
           (<[a_next a := mkATx (a_store a) (a_version a) w ∅ true]> (a_txs a)) (S (a_next a)),
         OutBegin (Ok (a_next a)))
  | OpGet id key =>
      match a_txs a !! id with
      | None => (a, OutNone)
      | Some t => (a, OutGet (if at_open t then contents t !! key else None))
      end
  | OpScan id prefix =>
      match a_txs a !! id with
      | None => (a, OutNone)
      | Some t => (a, OutScan (if at_open t then scan prefix (contents t) else []))
      end
  | OpSet id key value => user_write id key (Some value) a
  | OpDelete id key => user_write id key None a
  | OpPut id key value => write id key (Some value) a
  | OpDel id key => write id key None a
  | OpCommit id o =>
      match a_txs a !! id with
      | None => (a, OutNone)
      | Some t => let '(a, e) := commit o id t a in (a, OutErr e)
      end
  | OpRollback id =>
      match a_txs a !! id with
      | None => (a, OutNone)
      | Some t => (with_atx id (finish t) a, OutNone)
      end
  | OpCompact o => let '(a, e) := compact o a in (a, OutErr e)
  | OpClose => (mkA (a_store a) (a_modified a) (a_version a) true (a_txs a) (a_next a), OutNone)
  end.

Fixpoint run (a : astate) (ops : list op) : astate * list outcome :=
  match ops with
  | [] => (a, [])
  | o :: ops =>
      let '(a, r) := do_op a o in
      let '(a, rs) := run a ops in
      (a, r :: rs)
  end.
End Spec.

(** * The simulation relation *)

Import Spec.

(** An open transaction sees its copy of the store, is registered with its
    snapshot, and has the same conflicts. *)
Record open_rel (db : DB) (a : astate) (t : Tx) (u : atx) : Prop := {
  or_active : db_active db !! tx_id t = Some (tx_readVersion t);
  or_writes : forall k, at_writes u !! k = write_value <$> tx_writes t !! k;
  or_snap : forall k, committed db (tx_readVersion t) k = at_snap u !! k;
  or_newer : forall k, newer db (tx_readVersion t) k = changed_since a (tx_readVersion t) k;
}.

Record tx_rel (db : DB) (a : astate) (id : nat) (t : Tx) (u : atx) : Prop := {
  tr_id : tx_id t = id;
  tr_wf : tx_wf t;
  tr_start : tx_readVersion t = at_start u;
  tr_writable : tx_writable t = at_writable u;
  tr_closed : tx_closed t = negb (at_open u);
  tr_open : at_open u = true -> open_rel db a t u;
}.

Record sim (s : sys) (a : astate) : Prop := {
  sim_wf : db_wf (sys_db s);
  sim_version : db_version (sys_db s) = a_version a;
  sim_closed : db_closed (sys_db s) = a_closed a;
  sim_next : sys_next s = a_next a;
  sim_store : forall k, committed (sys_db s) (db_version (sys_db s)) k = a_store a !! k;
  sim_modified : forall k z, a_modified a !! k = Some z -> z <= a_version a;
  sim_txs : forall id, option_Forall2 (tx_rel (sys_db s) a id) (sys_txs s !! id) (a_txs a !! id);
  sim_fresh : forall id, (sys_next s <= id)%nat -> sys_txs s !! id = None;
}.

(** How a change of the database, of the abstract state and of one
    transaction carries over to the other open transactions. *)
Definition keeps (db db' : DB) (a a' : astate) (id : nat) : Prop :=
  forall rv, db_active db !! id = Some rv ->
    db_active db' !! id = Some rv /\
    forall k, committed db' rv k = committed db rv k /\
      (newer db rv k = changed_since a rv k -> newer db' rv k = changed_since a' rv k).

Lemma keeps_tx_rel db db' a a' id t u :
  keeps db db' a a' id -> tx_rel db a id t u -> tx_rel db' a' id t u.
Proof.
  intros Hk [Hid Hwf Hst Hw Hc Ho]. split; try done. intros Hop.
  destruct (Ho Hop) as [Ha Hwr Hs Hn]. destruct (Hk (tx_readVersion t)) as [Ha' Hv]; [by rewrite <- Hid|].
  split; [by rewrite Hid|done|..]; intros k; destruct (Hv k) as [Hc' Hn']; [by rewrite Hc'|auto].
Qed.

(** Only counters, the file or the set of registrations change. *)
Lemma keeps_frame db db' a a' id :
  db_history db' = db_history db -> a_modified a' = a_modified a ->
  db_active db' !! id = db_active db !! id -> keeps db db' a a' id.
Proof.
  intros Eh Em Ea rv Hrv. split; [by rewrite Ea|]. intros k.
  unfold committed, newer, changed_since. by rewrite (versions_of_history db db' k Eh), Em.
Qed.

Lemma committed_history db db' rv k :
  db_history db' = db_history db -> committed db' rv k = committed db rv k.
Proof. intros E. unfold committed. by rewrite (versions_of_history db db'). Qed.

(** The other transactions after an update of transaction [id]. *)
Lemma sim_txs_update db db' a a' (txs : gmap nat Tx) (atxs : gmap nat atx) id t u :
  (forall i, option_Forall2 (tx_rel db a i) (txs !! i) (atxs !! i)) ->
  (forall i, i <> id -> keeps db db' a a' i) ->
  tx_rel db' a' id t u ->
  forall i, option_Forall2 (tx_rel db' a' i) (<[id := t]> txs !! i) (<[id := u]> atxs !! i).
Proof.
  intros Hall Hk Ht i. destruct (decide (i = id)) as [->|Hne].
  - rewrite !lookup_insert_eq. by constructor.
  - rewrite !lookup_insert_ne by done. destruct (Hall i); constructor.
    eapply keeps_tx_rel; [by apply Hk|done].
Qed.

Lemma sim_txs_keep db db' a a' (txs : gmap nat Tx) (atxs : gmap nat atx) :
  (forall i, option_Forall2 (tx_rel db a i) (txs !! i) (atxs !! i)) ->
  (forall i, keeps db db' a a' i) ->
  forall i, option_Forall2 (tx_rel db' a' i) (txs !! i) (atxs !! i).
Proof.
  intros Hall Hk i. destruct (Hall i); constructor. eapply keeps_tx_rel; [by apply Hk|done].
Qed.

(** A transaction that is closed stays related whatever happens to the data. *)
Lemma tx_rel_close db db' a a' id t u t' :
  tx_rel db a id t u -> tx_id t' = tx_id t -> tx_wf t' -> tx_readVersion t' = tx_readVersion t ->
  tx_writable t' = tx_writable t -> tx_closed t' = true -> tx_rel db' a' id t' (finish u).
Proof. intros [Hid Hwf Hst Hw Hc Ho] E1 E2 E3 E4 E5. split; simpl; (done || congruence). Qed.

Lemma sim_init file : sim (init_sys file) init.
Proof. split; try done. intros id. simpl. rewrite !lookup_empty. constructor. Qed.

(** * Each operation refines its contract *)

Section refinement.
Context `{RecordCodec}.

(** A step of the kernel matches a step of the contract. *)
Definition refines (s : sys) (a : astate) (o : op) : Prop :=
  let '(s', r) := System.do_op s o in
  let '(a', r') := Spec.do_op a o in
  r = r' /\ sim s' a'.

Lemma refines_begin s a w : sim s a -> refines s a (OpBegin w).
Proof.
  intros Hsim. pose proof Hsim as [Hwf Hv Hc Hn Hst Hm Htx Hf]. unfold refines. simpl.
  unfold Begin. rewrite <- Hc. destruct (db_closed (sys_db s)) eqn:Ec; [done|].
  split; [by rewrite Hn|]. rewrite <- Hn.
  set (db' := set_active _ (sys_db s)).
  assert (Begin (sys_next s) w (sys_db s) = Ok (db', mkTx (sys_next s) (db_version (sys_db s)) w ∅ false)) as Hb
    by (unfold Begin; by rewrite Ec).
  split; cbn [sys_db sys_txs sys_next a_version a_closed a_next a_store a_modified a_txs]; try done.
  - by eapply db_wf_begin.
  - eapply sim_txs_update; [done| |].
    + intros i Hi. apply keeps_frame; [done..|]. simpl. by rewrite lookup_insert_ne.
    + split; simpl; try done. intros _. split; simpl.
      * by rewrite lookup_insert_eq.
      * intros k. by rewrite !lookup_empty.
      * intros k. rewrite <- Hst. by apply committed_history.
      * intros k. unfold newer, changed_since. rewrite (versions_of_history (sys_db s)) by done.
        fold (newer (sys_db s) (db_version (sys_db s)) k). rewrite newer_current by done. simpl.
        destruct (a_modified a !! k) as [z|] eqn:Ez; [|done]. apply Hm in Ez. symmetry. apply Z.ltb_ge. lia.
  - intros id Hid. rewrite lookup_insert_ne by lia. apply Hf. lia.
Qed.

(** The transaction [id] on both sides. *)
Lemma sim_lookup s a id :
  sim s a ->
  (sys_txs s !! id = None /\ a_txs a !! id = None) \/
  (exists t u, sys_txs s !! id = Some t /\ a_txs a !! id = Some u /\ tx_rel (sys_db s) a id t u).
Proof. intros Hsim. destruct (sim_txs s a Hsim id) as [t u Hr|]; eauto 10. Qed.

(** Only the read counter changes. *)
Lemma sim_add_reads n s a : sim s a -> sim (with_db (add_reads n (sys_db s)) s) a.
Proof.
  intros [Hwf Hv Hc Hn Hst Hm Htx Hf].
  split; cbn [sys_db sys_txs sys_next with_db]; try done.
  - by eapply db_wf_frame.
  - eapply sim_txs_keep; [done|]. intros i. by apply keeps_frame.
Qed.

Lemma with_db_id s : with_db (sys_db s) s = s.
Proof. by destruct s. Qed.

(** What an open transaction reads is its copy of the store. *)
Lemma open_rel_get db a t u k :
  tx_closed t = false -> open_rel db a t u -> snd (Get t k db) = contents u !! k.
Proof.
  intros Hc [Ha Hw Hs Hn]. unfold Get, contents, overlay. rewrite Hc, lookup_merge, Hw.
  destruct (tx_writes t !! k) as [op|]; simpl; [done|]. fold (committed db (tx_readVersion t) k).
  rewrite Hs. by destruct (at_snap u !! k).
Qed.

Lemma refines_get s a id k : sim s a -> refines s a (OpGet id k).
Proof.
  intros Hsim. unfold refines. simpl.
  destruct (sim_lookup s a id Hsim) as [[-> ->]|(t & u & -> & -> & Hr)]; [done|].
  destruct (Get t k (sys_db s)) as [db r] eqn:EG.
  destruct (at_open u) eqn:Eo.
  - pose proof (tr_closed _ _ _ _ _ Hr) as Hc. rewrite Eo in Hc. simpl in Hc.
    pose proof (open_rel_get _ _ _ _ k Hc (tr_open _ _ _ _ _ Hr Eo)) as Hg. rewrite EG in Hg.
    split; [by rewrite <- Hg|]. unfold Get in EG. rewrite Hc in EG.
    destruct (tx_writes t !! k); injection EG as <- <-; by apply sim_add_reads.
  - pose proof (tr_closed _ _ _ _ _ Hr) as Hc. rewrite Eo in Hc. simpl in Hc.
    unfold Get in EG. rewrite Hc in EG. injection EG as <- <-. by rewrite with_db_id.
Qed.

#[local] Instance kv_lt_antisymm : AntiSymm (=) kv_lt.
Proof. intros x y Hxy Hyx. destruct (bytes_lt_irrefl (kv_key x)). by eapply bytes_lt_trans. Qed.

Lemma kv_lt_NoDup l : StronglySorted kv_lt l -> NoDup l.
Proof.
  induction 1 as [|x l Hs IH Hf]; constructor; [|done]. intros Hin.
  rewrite Forall_forall in Hf. by apply (bytes_lt_irrefl (kv_key x)), Hf.
Qed.

Lemma scan_spec prefix m :
  StronglySorted kv_lt (scan prefix m) /\
  forall k v, mkKV k v ∈ scan prefix m <-> has_prefix k prefix = true /\ m !! k = Some v.
Proof.
  unfold scan. set (l := filter _ (map_to_list m)). split.
  - apply kv_sorted_strict; [apply StronglySorted_merge_sort; apply _|].
    rewrite merge_sort_Permutation, <- list_fmap_compose.
    change (NoDup (fst <$> l)). eapply sublist_NoDup; [apply (NoDup_fst_map_to_list m)|].
    apply fmap_sublist, sublist_filter.
  - intros k v. rewrite (merge_sort_Permutation _ _), list_elem_of_fmap. unfold l. split.
    + intros ([k' v'] & [= -> ->] & Hin). apply list_elem_of_filter in Hin as [Hp Hin].
      by apply elem_of_map_to_list in Hin.
    + intros [Hp Hm]. exists (k, v). split; [done|]. apply list_elem_of_filter.
      by rewrite elem_of_map_to_list.
Qed.

Lemma refines_scan s a id prefix : sim s a -> refines s a (OpScan id prefix).
Proof.
  intros Hsim. unfold refines. simpl.
  destruct (sim_lookup s a id Hsim) as [[-> ->]|(t & u & -> & -> & Hr)]; [done|].
  pose proof (tr_closed _ _ _ _ _ Hr) as Hc. destruct (at_open u) eqn:Eo; simpl in Hc.
  - destruct (scanPrefix_spec t prefix (sys_db s) Hc) as [Hs He].
    destruct (scan_spec prefix (contents u)) as [Hs' He'].
    destruct (scanPrefix t prefix (sys_db s)) as [db r] eqn:ES. simpl in Hs, He. split.
    + f_equal. apply (StronglySorted_unique kv_lt); [done..|].
      apply NoDup_Permutation; [by apply kv_lt_NoDup..|]. intros [k v].
      rewrite He, He'. by rewrite (open_rel_get _ _ _ _ k Hc (tr_open _ _ _ _ _ Hr Eo)).
    + unfold scanPrefix in ES. rewrite Hc in ES. injection ES as <- _. by apply sim_add_reads.
  - unfold scanPrefix. rewrite Hc. by rewrite with_db_id.
Qed.

(** A write changes one transaction and nothing else. *)
Lemma sim_with_tx s a id t u :
  sim s a -> is_Some (sys_txs s !! id) -> tx_rel (sys_db s) a id t u ->
  sim (with_tx id t s) (with_atx id u a).
Proof.
  intros [Hwf Hv Hc Hn Hst Hm Htx Hf] [t0 Ht0] Hr.
  split; cbn [sys_db sys_txs sys_next with_tx with_atx a_version a_closed a_next a_store a_modified a_txs]; try done.
  - eapply sim_txs_update; [done| |]; [intros i _; by apply keeps_frame|].
    eapply (keeps_tx_rel (sys_db s) _ a); [by apply keeps_frame|done].
  - intros i Hi. rewrite lookup_insert_ne; [auto|]. intros ->. by rewrite Hf in Ht0.
Qed.

(** Buffering the operation [w] for [k] on both sides. *)
Lemma tx_rel_write db a id t u k w :
  tx_rel db a id t u -> at_open u = true -> op_key w = k ->
  tx_rel db a id (set_writes (<[k := w]> (tx_writes t)) t)
    (mkATx (at_snap u) (at_start u) (at_writable u) (<[k := write_value w]> (at_writes u)) true).
Proof.
  intros [Hid Hwf Hst Hw Hc Ho] Hop Hk. rewrite Hop in Hc. destruct (Ho Hop) as [Ha Hwr Hs Hn].
  split; simpl; try done.
  - intros k' op. simpl. rewrite lookup_insert_Some. intros [[<- <-]|[_ ?]]; [done|]. eauto.
  - intros _. split; simpl; try done. intros k'. rewrite !lookup_insert. case_decide; [done|]. apply Hwr.
Qed.

(** The two unexported writes follow one pattern. *)
Definition is_write (f : Tx -> Tx * option error) (k : bytes) (v : option bytes) : Prop :=
  exists w, op_key w = k /\ write_value w = v /\
  forall t, f t =
    if tx_closed t then (t, Some ErrTxClosed)
    else if negb (tx_writable t) then (t, Some ErrReadOnly)
    else (set_writes (<[k := w]> (tx_writes t)) t, None).

Lemma put_is_write k v : is_write (put k v) k (Some v).
Proof. by exists (mkOp k v false). Qed.

Lemma del_is_write k : is_write (del k) k None.
Proof. by exists (mkOp k [] true). Qed.

Lemma sim_same_tx s a id t u :
  sim s a -> sys_txs s !! id = Some t -> a_txs a !! id = Some u -> sim (with_tx id t s) a.
Proof.
  intros Hsim Ht Hu. destruct s as [db txs n]. unfold with_tx. simpl in *.
  by rewrite insert_id by done.
Qed.

Lemma sim_write s a id k v f :
  sim s a -> is_write f k v ->
  let '(s', r) := tx_op id f s in
  let '(a', r') := write id k v a in
  r = r' /\ sim s' a'.
Proof.
  intros Hsim (w & Hk & Hv & Hf). unfold tx_op, write.
  destruct (sim_lookup s a id Hsim) as [[-> ->]|(t & u & Et & Eu & Hr)]; [done|].
  rewrite Et, Eu, Hf, (tr_closed _ _ _ _ _ Hr), (tr_writable _ _ _ _ _ Hr).
  destruct (at_open u) eqn:Eo; simpl; [|split; [done|by eapply sim_same_tx]].
  destruct (at_writable u) eqn:Ew; simpl; [|split; [done|by eapply sim_same_tx]].
  split; [done|]. apply sim_with_tx; [done|eauto|].
  pose proof (tx_rel_write _ _ _ _ _ k w Hr Eo Hk) as Hw. by rewrite Ew, Hv in Hw.
Qed.

Lemma sim_user_write s a id k v f g :
  sim s a -> is_write f k v ->
  (forall t, g t = if isReservedKey k then (t, Some ErrReservedKey) else f t) ->
  let '(s', r) := tx_op id g s in
  let '(a', r') := user_write id k v a in
  r = r' /\ sim s' a'.
Proof.
  intros Hsim Hf Hg. pose proof (sim_write s a id k v f Hsim Hf) as Hw. unfold tx_op, user_write in *.
  destruct (sim_lookup s a id Hsim) as [[Et Eu]|(t & u & Et & Eu & Hr)]; rewrite Et, Eu in *; [done|].
  rewrite Hg. destruct (isReservedKey k); [|done]. split; [done|]. by eapply sim_same_tx.
Qed.

(** Unregistering transaction [id] after a change of the kernel that the other
    transactions do not notice. *)
Lemma sim_finish s a id t t' u db' a' :
  sim s a -> sys_txs s !! id = Some t -> a_txs a !! id = Some u -> tx_rel (sys_db s) a id t u ->
  tx_id t' = tx_id t -> tx_wf t' -> tx_readVersion t' = tx_readVersion t ->
  tx_writable t' = tx_writable t -> tx_closed t' = true ->
  db_wf db' -> db_version db' = a_version a' -> db_closed db' = a_closed a' ->
  a_next a' = a_next a ->
  (forall k, committed db' (db_version db') k = a_store a' !! k) ->
  (forall k z, a_modified a' !! k = Some z -> z <= a_version a') ->
  a_txs a' = <[id := finish u]> (a_txs a) ->
  (forall i, i <> id -> keeps (sys_db s) db' a a' i) ->
  sim (with_tx id t' (with_db db' s)) a'.
Proof.
  intros Hsim Et Eu Hr E1 E2 E3 E4 E5 Hwf Hv Hc Hn Hst Hm Ha Hk.
  destruct Hsim as [_ _ _ Hn0 _ _ Htx Hf].
  split; cbn [sys_db sys_txs sys_next with_tx with_db]; try done.
  - congruence.
  - rewrite Ha. eapply sim_txs_update; [exact Htx|done|]. by eapply tx_rel_close.
  - intros i Hi. rewrite lookup_insert_ne; [auto|]. intros ->. by rewrite Hf in Et.
Qed.

Lemma unregister_keeps db db1 a a' t i :
  i <> tx_id t -> keeps db db1 a a' i -> keeps db (unregister t db1) a a' i.
Proof.
  intros Hi Hk rv Hrv. destruct (Hk rv Hrv) as [Ha Hv]. split; [|exact Hv].
  simpl. by rewrite lookup_delete_ne.
Qed.

Lemma conflict_agrees db a id t u :
  tx_rel db a id t u -> at_open u = true ->
  existsb (has_conflict db t) (write_keys t) = conflict a u.
Proof.
  intros Hr Ho. destruct (tr_open _ _ _ _ _ Hr Ho) as [Ha Hw Hs Hn].
  apply eq_true_iff_eq. rewrite existsb_conflict. unfold conflict. rewrite bool_decide_eq_true.
  setoid_rewrite Hn. rewrite <- (tr_start _ _ _ _ _ Hr). split.
  - intros (k & [w Hk] & Hc). exists k, (write_value w). split; [|done]. by rewrite Hw, Hk.
  - intros (k & w & Hk & Hc). exists k. split; [|done]. rewrite Hw in Hk.
    destruct (tx_writes t !! k); [eauto|done].
Qed.

Lemma no_writes_agree db a id t u :
  tx_rel db a id t u -> at_open u = true ->
  bool_decide (write_keys t = []) = bool_decide (at_writes u = ∅).
Proof.
  intros Hr Ho. destruct (tr_open _ _ _ _ _ Hr Ho) as [Ha Hw Hs Hn].
  apply bool_decide_ext. rewrite write_keys_nil. split; intros E; apply map_eq; intros k; rewrite lookup_empty.
  - by rewrite Hw, E, lookup_empty.
  - specialize (Hw k). rewrite E, lookup_empty in Hw. by destruct (tx_writes t !! k).
Qed.

(** The state after a commit that was written out. *)
Definition committed_db (o : bytes) (t : Tx) (db : DB) : DB :=
  unregister t (add_commit (apply (commit_record db t) (set_file o db))).

Lemma versions_of_committed_db file t db k :
  versions_of (committed_db file t db) k = versions_of (apply (commit_record db t) db) k.
Proof.
  change (versions_of (apply (commit_record db t) (set_file file db)) k =
    versions_of (apply (commit_record db t) db) k).
  by rewrite !versions_of_apply.
Qed.

Lemma keeps_commit file db a t u id i :
  db_wf db -> db_version db = a_version a -> db_version db + 1 < 2 ^ 64 ->
  tx_rel db a id t u -> at_open u = true -> i <> id ->
  keeps db (committed_db file t db) a
    (mkA (overlay (at_writes u) (a_store a)) (stamp (a_version a + 1) (at_writes u) (a_modified a))
       (a_version a + 1) false (<[id := finish u]> (a_txs a)) (a_next a)) i.
Proof.
  intros Hwf Hv Hmax Hr Ho Hi. destruct (tr_open _ _ _ _ _ Hr Ho) as [Ha Hw Hs Hn].
  pose proof (tr_id _ _ _ _ _ Hr) as Hid. pose proof (tr_wf _ _ _ _ _ Hr) as Htx.
  apply unregister_keeps; [congruence|]. intros rv Hrv.
  pose proof (wf_active db Hwf _ _ Hrv) as Hle. split.
  { cbn [add_commit db_active]. by rewrite active_apply. }
  intros k. unfold committed, newer, changed_since.
  change (versions_of (add_commit (apply (commit_record db t) (set_file file db))) k)
    with (versions_of (committed_db file t db) k).
  rewrite versions_of_committed_db. split.
  - fold (committed (apply (commit_record db t) db) rv k). rewrite committed_commit by done.
    by rewrite (proj2 (Z.ltb_lt _ _)) by lia.
  - fold (newer (apply (commit_record db t) db) rv k) (newer db rv k). rewrite newer_commit by done.
    cbn [a_modified]. unfold stamp. rewrite lookup_merge, Hw, <- Hv.
    destruct (tx_writes t !! k) as [w|]; simpl; [done|]. by destruct (a_modified a !! k).
Qed.

Lemma store_commit file db a t u id k :
  db_wf db -> db_version db + 1 < 2 ^ 64 ->
  (forall k, committed db (db_version db) k = a_store a !! k) ->
  tx_rel db a id t u -> at_open u = true ->
  committed (committed_db file t db) (db_version db + 1) k = overlay (at_writes u) (a_store a) !! k.
Proof.
  intros Hwf Hmax Hst Hr Ho. destruct (tr_open _ _ _ _ _ Hr Ho) as [Ha Hw Hs Hn].
  pose proof (tr_wf _ _ _ _ _ Hr) as Htx. unfold committed. rewrite versions_of_committed_db.
  fold (committed (apply (commit_record db t) db) (db_version db + 1) k).
  rewrite committed_commit by done. rewrite (proj2 (Z.ltb_ge _ _)) by lia.
  unfold overlay. rewrite lookup_merge, Hw, <- Hst.
  destruct (tx_writes t !! k) as [w|]; simpl; [done|].
  rewrite !committed_latest by (done || lia). by destruct (value_of _).
Qed.

Lemma version_committed_db file t db :
  db_wf db -> db_version db + 1 < 2 ^ 64 -> db_version (committed_db file t db) = db_version db + 1.
Proof.
  intros Hwf Hmax. change (db_version (apply (commit_record db t) (set_file file db)) = db_version db + 1).
  rewrite version_apply, commit_version by done. simpl. lia.
Qed.

(** A commit that only closes the transaction (read-only, no writes, an error). *)
Lemma sim_commit_quiet s a id t u db' :
  sim s a -> sys_txs s !! id = Some t -> a_txs a !! id = Some u -> tx_rel (sys_db s) a id t u ->
  db_history db' = db_history (sys_db s) -> db_version db' = db_version (sys_db s) ->
  db_closed db' = db_closed (sys_db s) ->
  db_active db' = db_active (unregister t (sys_db s)) ->
  sim (with_tx id (close_tx t) (with_db db' s)) (with_atx id (finish u) a).
Proof.
  intros Hsim Et Eu Hr Eh Ev Ec Ea. pose proof Hsim as [Hwf Hv Hc Hn Hst Hm Htx Hf].
  eapply sim_finish; try done.
  - by apply (tr_wf _ _ _ _ _ Hr).
  - eapply db_wf_frame; [exact Hwf|done..|]. rewrite Ea. simpl. intros i v. by intros [_ ?]%lookup_delete_Some.
  - by rewrite Ev.
  - by rewrite Ec.
  - intros k. rewrite Ev. rewrite (committed_history (sys_db s)) by done. apply Hst.
  - intros i Hi. apply keeps_frame; [done..|]. rewrite Ea. simpl.
    rewrite lookup_delete_ne; [done|]. by rewrite (tr_id _ _ _ _ _ Hr).
Qed.

Lemma refines_commit s a id o :
  sim s a -> a_version a + 1 < 2 ^ 64 -> refines s a (OpCommit id o).
Proof.
  intros Hsim Hmax. unfold refines. simpl.
  destruct (sim_lookup s a id Hsim) as [[-> ->]|(t & u & Et & Eu & Hr)]; [done|].
  rewrite Et, Eu. pose proof Hsim as [Hwf Hv Hc Hn Hst Hm Htx Hf].
  unfold Commit, commit. rewrite (tr_closed _ _ _ _ _ Hr).
  destruct (at_open u) eqn:Eo; simpl.
  2:{ split; [done|]. rewrite with_db_id. by eapply sim_same_tx. }
  rewrite (tr_writable _ _ _ _ _ Hr). destruct (at_writable u); simpl.
  2:{ split; [done|]. by eapply sim_commit_quiet. }
  rewrite Hc. destruct (a_closed a) eqn:Eca; [split; [done|by eapply sim_commit_quiet]|].
  rewrite (conflict_agrees (sys_db s) a id t u) by done.
  destruct (conflict a u); [split; [done|by eapply sim_commit_quiet]|].
  rewrite (no_writes_agree (sys_db s) a id t u) by done.
  destruct (bool_decide (at_writes u = ∅)); [split; [done|by eapply sim_commit_quiet]|].
  destruct o as [|n|]; cbn [appendRecord]; [|split; [done|by eapply sim_commit_quiet]..].
  split; [done|]. set (file := db_file (sys_db s) ++ _). fold (committed_db file t (sys_db s)).
  rewrite <- Hv in Hmax. pose proof (tr_wf _ _ _ _ _ Hr) as Htx'.
  eapply sim_finish; try done; rewrite ?version_committed_db by done.
  - pose proof (db_wf_frame (sys_db s) (set_file file (sys_db s)) Hwf eq_refl eq_refl (fun _ _ H => H)) as Hwf'.
    apply db_wf_unregister. eapply (db_wf_frame (apply (commit_record (sys_db s) t) (set_file file (sys_db s)))); try done.
    apply db_wf_apply; [done| |intros k; by apply commit_record_one].
    rewrite commit_version by done. simpl. lia.
  - by rewrite <- Hv.
  - change (db_closed (apply (commit_record (sys_db s) t) (set_file file (sys_db s))) = false).
    rewrite closed_apply. simpl. congruence.
  - intros k. by eapply store_commit.
  - intros k z. cbn [a_modified a_version]. unfold stamp. rewrite lookup_merge.
    destruct (at_writes u !! k) as [w|]; simpl; [intros [= <-]; lia|].
    destruct (a_modified a !! k) as [z'|] eqn:Ez; simpl; [|done]. intros [= <-]. apply Hm in Ez. lia.
  - intros i Hi. by apply keeps_commit.
Qed.

Lemma refines_rollback s a id : sim s a -> refines s a (OpRollback id).
Proof.
  intros Hsim. unfold refines. simpl.
  destruct (sim_lookup s a id Hsim) as [[-> ->]|(t & u & Et & Eu & Hr)]; [done|].
  rewrite Et, Eu. pose proof Hsim as [Hwf Hv Hc Hn Hst Hm Htx Hf]. unfold Rollback.
  rewrite (tr_closed _ _ _ _ _ Hr). destruct (at_open u) eqn:Eo; simpl; split; try done.
  - eapply sim_finish; try done.
    + by apply db_wf_unregister.
    + intros i Hi. apply unregister_keeps; [by rewrite (tr_id _ _ _ _ _ Hr)|by apply keeps_frame].
  - rewrite with_db_id. assert (with_atx id (finish u) a = a) as ->; [|by eapply sim_same_tx].
    unfold with_atx, finish. destruct a, u; simpl in *. rewrite Eo in *. by rewrite insert_id.
Qed.

Lemma refines_compact s a o : sim s a -> refines s a (OpCompact o).
Proof.
  intros Hsim. pose proof Hsim as [Hwf Hv Hc Hn Hst Hm Htx Hf]. unfold refines. simpl.
  pose proof (db_wf_Compact o (sys_db s) Hwf) as Hwf'.
  destruct (Compact o (sys_db s)) as [db' err] eqn:EC. destruct (compact o a) as [a' err'] eqn:EA.
  destruct (Compact_frame o _ _ _ EC) as (Ev & Ea & _).
  assert (err = err' /\ db_closed db' = a_closed a' /\ a_version a' = a_version a /\ a_store a' = a_store a /\
    a_modified a' = a_modified a /\ a_txs a' = a_txs a /\ a_next a' = a_next a) as (-> & Ec' & E1 & E2 & E3 & E4 & E5).
  { unfold Compact in EC. unfold compact in EA. rewrite Hc in EC.
    destruct (a_closed a) eqn:E; [|destruct o]; injection EC as <- <-; injection EA as <- <-; simpl;
      split_and!; congruence. }
  split; [done|]. split; cbn [sys_db sys_txs sys_next with_db]; rewrite ?Ev, ?E1, ?E2, ?E3, ?E4, ?E5; try done.
  - intros k. rewrite (proj1 (Compact_views o _ _ _ _ k EC (proj2 (oldestReadVersion_range _ Hwf)))). apply Hst.
  - eapply sim_txs_keep; [exact Htx|]. intros i rv Hrv. rewrite Ea. split; [done|]. intros k.
    destruct (Compact_views o _ _ _ rv k EC (oldestReadVersion_le _ _ _ Hrv)) as [-> ->].
    unfold changed_since. by rewrite E3.
Qed.

Lemma refines_close s a : sim s a -> refines s a OpClose.
Proof.
  intros [Hwf Hv Hc Hn Hst Hm Htx Hf]. unfold refines. simpl. split; [done|].
  assert (db_history (Close (sys_db s)) = db_history (sys_db s) /\ db_version (Close (sys_db s)) = db_version (sys_db s)
    /\ db_active (Close (sys_db s)) = db_active (sys_db s) /\ db_closed (Close (sys_db s)) = true) as (E1 & E2 & E3 & E4).
  { unfold Close. by destruct (db_closed (sys_db s)) eqn:E. }
  split; cbn [sys_db sys_txs sys_next with_db a_version a_closed a_next a_store a_modified a_txs]; rewrite ?E2; try done.
  - eapply db_wf_frame; [exact Hwf|done..|]. by rewrite E3.
  - intros k. by rewrite (committed_history (sys_db s)).
  - eapply sim_txs_keep; [exact Htx|]. intros i. apply keeps_frame; [done..|]. by rewrite E3.
Qed.

Lemma step_refines s a o : sim s a -> a_version a + 1 < 2 ^ 64 -> refines s a o.
Proof.
  intros Hsim Hmax. destruct o.
  - by apply refines_begin.
  - by apply refines_get.
  - by apply refines_scan.
  - by apply (sim_user_write s a id key (Some value) (put key value)); [|apply put_is_write|].
  - by apply (sim_user_write s a id key None (del key)); [|apply del_is_write|].
  - by apply sim_write; [|apply put_is_write].
  - by apply sim_write; [|apply del_is_write].
  - by apply refines_commit.
  - by apply refines_rollback.
  - by apply refines_compact.
  - by apply refines_close.
Qed.
End refinement.

(** * Runs *)

Lemma spec_version_step a o :
  a_version a <= a_version (fst (Spec.do_op a o)) <= a_version a + 1.
Proof.
  destruct o; simpl; unfold user_write, write, commit, compact; repeat (case_match; simplify_eq/=); lia.
Qed.

Lemma spec_version_run a ops :
  a_version (fst (Spec.run a ops)) <= a_version a + Z.of_nat (length ops).
Proof.
  revert a. induction ops as [|o ops IH]; intros a; [simpl; lia|].
  cbn [Spec.run length]. pose proof (spec_version_step a o). destruct (Spec.do_op a o) as [a' r].
  specialize (IH a'). destruct (Spec.run a' ops). simpl in *. lia.
Qed.

(** Facts about one transaction that every later step keeps: its snapshot and
    start never change, it never reopens, and while open it keeps its writes. *)
Definition tx_later (u u' : atx) : Prop :=
  at_snap u' = at_snap u /\ at_start u' = at_start u /\ at_writable u' = at_writable u /\
  (at_open u' = true -> at_open u = true /\
     forall k, is_Some (at_writes u !! k) -> is_Some (at_writes u' !! k)).

Lemma tx_later_refl u : tx_later u u.
Proof. by split_and!. Qed.

Lemma tx_later_trans u v w : tx_later u v -> tx_later v w -> tx_later u w.
Proof. unfold tx_later. intros (-> & -> & -> & H1) (-> & -> & -> & H2). split_and!; try done. naive_solver. Qed.

Lemma tx_later_finish u : tx_later u (finish u).
Proof. by split_and!. Qed.

Lemma spec_tx_insert a id v id' u (m : gmap nat atx) :
  a_txs a !! id' = Some u -> m = <[id := v]> (a_txs a) ->
  (forall u0, a_txs a !! id = Some u0 -> tx_later u0 v) ->
  exists u', m !! id' = Some u' /\ tx_later u u'.
Proof.
  intros Hu -> Hv. destruct (decide (id' = id)) as [->|Hne].
  - exists v. rewrite lookup_insert_eq. eauto.
  - exists u. rewrite lookup_insert_ne by done. split; [done|apply tx_later_refl].
Qed.

Lemma tx_later_write u k v :
  tx_later u (mkATx (at_snap u) (at_start u) (at_writable u) (<[k := v]> (at_writes u)) (at_open u)).
Proof.
  split_and!; simpl; try done. intros Ho. split; [done|].
  intros k' Hk'. rewrite lookup_insert. case_decide; eauto.
Qed.

Lemma spec_tx_write a id k v id' u :
  a_txs a !! id' = Some u ->
  exists u', a_txs (fst (write id k v a)) !! id' = Some u' /\ tx_later u u'.
Proof.
  intros Hu. unfold write. destruct (a_txs a !! id) as [t|] eqn:Et; [|eauto using tx_later_refl].
  destruct (at_open t) eqn:Eo; simpl; [|eauto using tx_later_refl].
  destruct (at_writable t) eqn:Ew; simpl; [|eauto using tx_later_refl].
  eapply spec_tx_insert; [done..|]. intros u0 Hu0. simplify_eq.
  pose proof (tx_later_write t k v) as Hl. by rewrite Eo, Ew in Hl.
Qed.

Lemma spec_tx_step a o id u :
  a_txs a !! id = Some u -> (id < a_next a)%nat ->
  exists u', a_txs (fst (Spec.do_op a o)) !! id = Some u' /\ tx_later u u'.
Proof.
  intros Hu Hlt. destruct o; simpl; try (unfold user_write);
    try (repeat case_match; simpl; eauto using tx_later_refl; fail).
  - case_match; simpl; [eauto using tx_later_refl|]. rewrite lookup_insert_ne by lia. eauto using tx_later_refl.
  - repeat case_match; simpl; eauto using tx_later_refl, spec_tx_write.
  - repeat case_match; simpl; eauto using tx_later_refl, spec_tx_write.
  - by apply spec_tx_write.
  - by apply spec_tx_write.
  - destruct (a_txs a !! id0) as [t|] eqn:Et; simpl; [|eauto using tx_later_refl]. unfold commit.
    repeat (case_match; simplify_eq/=); eauto using tx_later_refl;
      (eapply spec_tx_insert; [done..|]; intros u0 Hu0; simplify_eq; apply tx_later_finish).
  - destruct (a_txs a !! id0) as [t|] eqn:Et; simpl; [|eauto using tx_later_refl].
    eapply spec_tx_insert; [done..|]. intros u0 Hu0. simplify_eq. apply tx_later_finish.
  - unfold compact. repeat (case_match; simplify_eq/=); eauto using tx_later_refl.
Qed.

Section runs.
Context `{RecordCodec}.

Lemma run_sim s a ops :
  sim s a -> a_version a + Z.of_nat (length ops) < 2 ^ 64 ->
  snd (System.run s ops) = snd (Spec.run a ops) /\ sim (fst (System.run s ops)) (fst (Spec.run a ops)).
Proof.
  revert s a. induction ops as [|o ops IH]; intros s a Hsim Hmax; [done|]. cbn [length] in Hmax.
  pose proof (step_refines s a o Hsim ltac:(lia)) as Hr. pose proof (spec_version_step a o) as Hv.
  unfold refines in Hr. cbn [System.run Spec.run].
  destruct (System.do_op s o) as [s' r]. destruct (Spec.do_op a o) as [a' r']. simpl in Hv.
  destruct Hr as [-> Hsim']. destruct (IH s' a' Hsim' ltac:(lia)) as [E Hs].
  destruct (System.run s' ops), (Spec.run a' ops). simpl in *. by rewrite E.
Qed.

Lemma sim_id_lt s a id u : sim s a -> a_txs a !! id = Some u -> (id < a_next a)%nat.
Proof.
  intros Hsim Hu. destruct (decide (id < a_next a)%nat) as [|Hge]; [done|].
  pose proof (sim_fresh s a Hsim id) as Hf. rewrite (sim_next s a Hsim) in Hf.
  pose proof (sim_txs s a Hsim id) as Ht. rewrite Hf, Hu in Ht by lia. inversion Ht.
Qed.

Lemma run_tx_later s a ops id u :
  sim s a -> a_version a + Z.of_nat (length ops) < 2 ^ 64 -> a_txs a !! id = Some u ->
  exists u', a_txs (fst (Spec.run a ops)) !! id = Some u' /\ tx_later u u'.
Proof.
  revert s a u. induction ops as [|o ops IH]; intros s a u Hsim Hmax Hu; [eauto using tx_later_refl|].
  cbn [length] in Hmax. pose proof (step_refines s a o Hsim ltac:(lia)) as Hr.
  pose proof (spec_version_step a o) as Hv.
  destruct (spec_tx_step a o id u Hu (sim_id_lt _ _ _ _ Hsim Hu)) as (u1 & Hu1 & Hl1).
  unfold refines in Hr. cbn [Spec.run]. destruct (System.do_op s o) as [s' r].
  destruct (Spec.do_op a o) as [a' r']. simpl in *. destruct Hr as [_ Hsim'].
  destruct (IH s' a' u1 Hsim' ltac:(lia) Hu1) as (u2 & Hu2 & Hl2).
  destruct (Spec.run a' ops). simpl in *. exists u2. split; [done|]. by eapply tx_later_trans.
Qed.

(** C1.  The kernel implements snapshot isolation: whatever operations any
    number of clients interleave, with compactions and failing writes at any
    point, every call returns exactly what the contract returns, in which each
    transaction works on its own copy of the store, a commit installs all its
    writes at once or, if a written key changed since the copy was taken,
    reports a conflict, and compaction does nothing. *)
Theorem kernel_refines_snapshot_isolation file ops :
  Z.of_nat (length ops) < 2 ^ 64 ->
  snd (System.run (init_sys file) ops) = snd (Spec.run init ops).
Proof. intros Hl. apply run_sim; [apply sim_init|done]. Qed.

(** C13.  Repeatable reads: once a transaction has begun, what it reads under
    a key it has not written never changes while it stays open, whatever the
    other transactions commit and however often the history is compacted. *)
Theorem repeatable_reads file ops1 ops2 id t1 t2 k :
  Z.of_nat (length ops1 + length ops2) < 2 ^ 64 ->
  let s1 := fst (System.run (init_sys file) ops1) in
  let s2 := fst (System.run s1 ops2) in
  sys_txs s1 !! id = Some t1 -> sys_txs s2 !! id = Some t2 -> tx_closed t2 = false ->
  tx_writes t1 !! k = None -> tx_writes t2 !! k = None ->
  snd (Get t2 k (sys_db s2)) = snd (Get t1 k (sys_db s1)).
Proof.
  intros Hl s1 s2 E1 E2 Hc Hw1 Hw2.
  destruct (run_sim (init_sys file) init ops1 (sim_init file)) as [_ Hs1]; [simpl; lia|].
  set (a1 := fst (Spec.run init ops1)) in *. fold s1 in Hs1.
  assert (a_version a1 + Z.of_nat (length ops2) < 2 ^ 64) as Hl2.
  { pose proof (spec_version_run init ops1) as Hv. simpl in Hv. fold a1 in Hv. lia. }
  destruct (run_sim s1 a1 ops2 Hs1 Hl2) as [_ Hs2]. fold s2 in Hs2.
  destruct (sim_lookup s1 a1 id Hs1) as [[? _]|(t & u1 & E1' & Eu1 & Hr1)]; [congruence|]. simplify_eq.
  destruct (sim_lookup s2 _ id Hs2) as [[? _]|(t & u2 & E2' & Eu2 & Hr2)]; [congruence|]. simplify_eq.
  destruct (run_tx_later s1 a1 ops2 id u1 Hs1 Hl2 Eu1) as (u2' & Eu2' & Hsnap & _ & _ & Hop). simplify_eq.
  assert (at_open u2 = true) as Ho2.
  { pose proof (tr_closed _ _ _ _ _ Hr2) as Hn. rewrite Hc in Hn. by destruct (at_open u2). }
  destruct (Hop Ho2) as [Ho1 _].
  pose proof (tr_closed _ _ _ _ _ Hr1) as Hc1. rewrite Ho1 in Hc1. simpl in Hc1.
  rewrite (open_rel_get _ _ _ _ k Hc (tr_open _ _ _ _ _ Hr2 Ho2)).
  rewrite (open_rel_get _ _ _ _ k Hc1 (tr_open _ _ _ _ _ Hr1 Ho1)).
  unfold contents, overlay. rewrite !lookup_merge.
  rewrite (or_writes _ _ _ _ (tr_open _ _ _ _ _ Hr2 Ho2)), (or_writes _ _ _ _ (tr_open _ _ _ _ _ Hr1 Ho1)).
  by rewrite Hw1, Hw2, Hsnap.
Qed.
End runs.

(** * Lost updates *)

Lemma spec_modified_step a o k z :
  (forall k z, a_modified a !! k = Some z -> z <= a_version a) -> a_modified a !! k = Some z ->
  exists z', a_modified (fst (Spec.do_op a o)) !! k = Some z' /\ z <= z'.
Proof.
  intros Hm Hz. assert (exists z', a_modified a !! k = Some z' /\ z <= z') as Hsame by (exists z; split; [done|lia]).
  destruct o; simpl; unfold user_write, write, compact; try (repeat (case_match; simplify_eq/=); done).
  destruct (a_txs a !! id) as [t|]; simpl; [|done]. unfold commit.
  repeat (case_match; simplify_eq/=); try done. unfold stamp. rewrite lookup_merge, Hz.
  apply Hm in Hz. destruct (at_writes t !! k); simpl; [exists (a_version a + 1)|exists z]; split; (done || lia).
Qed.

Section lost_update.
Context `{RecordCodec}.

Lemma run_modified s a ops k z :
  sim s a -> a_version a + Z.of_nat (length ops) < 2 ^ 64 -> a_modified a !! k = Some z ->
  exists z', a_modified (fst (Spec.run a ops)) !! k = Some z' /\ z <= z'.
Proof.
  revert s a z. induction ops as [|o ops IH]; intros s a z Hsim Hmax Hz; [exists z; split; [done|simpl; lia]|].
  cbn [length] in Hmax. pose proof (step_refines s a o Hsim ltac:(lia)) as Hr.
  pose proof (spec_version_step a o) as Hv.
  destruct (spec_modified_step a o k z (sim_modified s a Hsim) Hz) as (z1 & Hz1 & Hle).
  unfold refines in Hr. cbn [Spec.run]. destruct (System.do_op s o) as [s' r].
  destruct (Spec.do_op a o) as [a' r']. simpl in *. destruct Hr as [_ Hsim'].
  destruct (IH s' a' z1 Hsim' ltac:(lia) Hz1) as (z2 & Hz2 & Hle2).
  destruct (Spec.run a' ops). simpl in *. exists z2. split; [done|lia].
Qed.

(** A commit by a transaction that wrote [k] stamps [k]. *)
Lemma commit_stamps a o id t k a' :
  at_writable t = true -> is_Some (at_writes t !! k) -> commit o id t a = (a', None) ->
  a_modified a' !! k = Some (a_version a + 1) /\ a_version a' = a_version a + 1.
Proof.
  intros Hw [v Hk]. unfold commit. rewrite Hw. cbn [negb]. repeat case_match; intros [= <-].
  - exfalso. match goal with E : bool_decide _ = true |- _ => apply bool_decide_eq_true in E; rename E into Em end.
    by rewrite Em, lookup_empty in Hk.
  - split; [|done]. cbn [a_modified]. unfold stamp. by rewrite lookup_merge, Hk.
Qed.

(** A conflicting writer does not commit. *)
Lemma conflict_fails a o id t :
  at_writable t = true -> (at_open t = true -> conflict a t = true) -> exists e, snd (commit o id t a) = Some e.
Proof.
  intros Hw Hc. unfold commit. rewrite Hw. destruct (at_open t); cbn [negb]; [|by eexists].
  rewrite Hc by done. destruct (a_closed a); by eexists.
Qed.

(** The kernel's commit is the contract's. *)
Lemma commit_outcome s a id o u :
  sim s a -> a_version a + 1 < 2 ^ 64 -> a_txs a !! id = Some u ->
  snd (System.do_op s (OpCommit id o)) = OutErr (snd (commit o id u a)) /\
  sim (fst (System.do_op s (OpCommit id o))) (fst (commit o id u a)).
Proof.
  intros Hs Hmax Hu. pose proof (refines_commit s a id o Hs Hmax) as Hr. unfold refines in Hr.
  destruct (System.do_op s (OpCommit id o)) as [s' r]. cbn [Spec.do_op] in Hr. rewrite Hu in Hr.
  destruct (commit o id u a) as [a' e]. cbn [fst snd]. by destruct Hr as [-> Hs'].
Qed.

(** An open writer of [k], seen from the contract. *)
Lemma sim_open_writer s a id t k :
  sim s a -> sys_txs s !! id = Some t -> tx_closed t = false -> is_Some (tx_writes t !! k) ->
  exists u, a_txs a !! id = Some u /\ at_open u = true /\ at_writable u = tx_writable t /\
    is_Some (at_writes u !! k) /\ at_start u <= a_version a.
Proof.
  intros Hs Et Hc Hk. destruct (sim_lookup s a id Hs) as [[? _]|(? & u & ? & Eu & Hr)]; [congruence|]. simplify_eq.
  assert (at_open u = true) as Ho.
  { pose proof (tr_closed _ _ _ _ _ Hr) as Hn. rewrite Hc in Hn. by destruct (at_open u). }
  destruct (tr_open _ _ _ _ _ Hr Ho) as [Ha Hwr _ _]. exists u. split_and!; try done.
  - by rewrite (tr_writable _ _ _ _ _ Hr).
  - rewrite Hwr. by apply fmap_is_Some.
  - apply (wf_active _ (sim_wf s a Hs)) in Ha. rewrite <- (tr_start _ _ _ _ _ Hr), <- (sim_version s a Hs). lia.
Qed.

(** The contract loses no update: once [k] is stamped after [u] started, [u] cannot commit. *)
Lemma stale_writer_fails s a ops id o u k z :
  sim s a -> a_version a + Z.of_nat (length ops) < 2 ^ 64 -> a_txs a !! id = Some u ->
  at_writable u = true -> is_Some (at_writes u !! k) -> a_modified a !! k = Some z -> at_start u < z ->
  exists u', a_txs (fst (Spec.run a ops)) !! id = Some u' /\ exists e, snd (commit o id u' (fst (Spec.run a ops))) = Some e.
Proof.
  intros Hs Hmax Hu Hw Hk Hm Hlt.
  destruct (run_modified s a ops k z Hs Hmax Hm) as (z' & Hz & Hle).
  destruct (run_tx_later s a ops id u Hs Hmax Hu) as (u' & Hu' & _ & Hstart & Hwrt & Hop).
  exists u'. split; [done|]. apply conflict_fails; [by rewrite Hwrt|]. intros Ho. unfold conflict.
  apply bool_decide_eq_true. destruct (Hop Ho) as [_ Hkeep]. destruct (Hkeep k Hk) as [w Hw'].
  exists k, w. split; [done|]. unfold changed_since. rewrite Hz, Hstart. apply Z.ltb_lt. lia.
Qed.

(** C2.  No lost updates: if two open transactions have both written a key
    and the first one commits successfully, then the other one can never commit
    successfully, whatever happens in between (compactions included): its
    commit reports an error. *)
Theorem no_lost_update file ops ops' id1 id2 t1 t2 k o :
  Z.of_nat (length ops + length ops') + 2 < 2 ^ 64 ->
  let s := fst (System.run (init_sys file) ops) in
  id1 <> id2 ->
  sys_txs s !! id1 = Some t1 -> tx_writable t1 = true -> is_Some (tx_writes t1 !! k) ->
  sys_txs s !! id2 = Some t2 -> tx_writable t2 = true -> is_Some (tx_writes t2 !! k) ->
  tx_closed t2 = false ->
  snd (System.do_op s (OpCommit id1 IoOk)) = OutErr None ->
  let s1 := fst (System.do_op s (OpCommit id1 IoOk)) in
  let s2 := fst (System.run s1 ops') in
  exists e, snd (System.do_op s2 (OpCommit id2 o)) = OutErr (Some e).
Proof.
  intros Hl s Hne E1 Hw1 Hk1 E2 Hw2 Hk2 Hc2 Hok s1 s2.
  destruct (run_sim (init_sys file) init ops (sim_init file)) as [_ Hs]; [simpl; lia|].
  pose proof (spec_version_run init ops) as Hv. set (a := fst (Spec.run init ops)) in *. fold s in Hs. simpl in Hv.
  assert (tx_closed t1 = false) as Hc1.
  { destruct (tx_closed t1) eqn:Ec; [|done]. simpl in Hok. rewrite E1 in Hok. unfold Commit in Hok. by rewrite Ec in Hok. }
  destruct (sim_open_writer s a id1 t1 k Hs E1 Hc1 Hk1) as (u1 & Eu1 & Ho1 & Hwr1 & Hku1 & _).
  destruct (sim_open_writer s a id2 t2 k Hs E2 Hc2 Hk2) as (u2 & Eu2 & Ho2 & Hwr2 & Hku2 & Hst2).
  destruct (commit_outcome s a id1 IoOk u1 Hs ltac:(lia) Eu1) as [Hout Hs1]. fold s1 in Hs1.
  destruct (commit IoOk id1 u1 a) as [a1 e1] eqn:Ea1. cbn [fst snd] in *. rewrite Hok in Hout. injection Hout as <-.
  destruct (commit_stamps a IoOk id1 u1 k a1 ltac:(congruence) Hku1 Ea1) as [Hm1 Hv1].
  assert (a_txs a1 !! id2 = Some u2) as Eu2'.
  { unfold commit in Ea1. repeat case_match; simplify_eq; simpl; by rewrite lookup_insert_ne. }
  assert (a_version a1 + Z.of_nat (length ops') < 2 ^ 64) as Hmax1 by lia.
  destruct (run_sim s1 a1 ops' Hs1 Hmax1) as [_ Hs2]. fold s2 in Hs2.
  pose proof (spec_version_run a1 ops') as Hv2.
  destruct (stale_writer_fails s1 a1 ops' id2 o u2 k (a_version a + 1) Hs1 Hmax1 Eu2' ltac:(congruence) Hku2 Hm1 ltac:(lia))
    as (u2' & Eu & e & He).
  destruct (commit_outcome s2 _ id2 o u2' Hs2 ltac:(lia) Eu) as [-> _]. rewrite He. by exists e.
Qed.
End lost_update.
