(* ===== verification/Durable.v ===== *)
(** Durability: the log on disk always replays to the current contents of the
    database, so a restart at any point, and a crash in the middle of a commit
    or a compaction, loses nothing that was acknowledged (db.go OpenWithOptions,
    tx.go Commit, compact.go Compact over wal.go). *)

From S2P Require Import Prelude Utf8 Strconv Keys Wal Mvcc Compact System.

(** * Opening a database *)

Section open.
Context `{RecordCodec}.

(** Open: replay the log, and truncate the file at the last good record.  The
    SQL state rebuilt from the recovered keys is in SqlRebuild.v and the start of
    the checkpoint worker in Shutdown.v. *)
Definition Open (file : bytes) : res DB :=
  match initWAL apply file (empty_db file) with
  | (_, (_, (_, Some e))) => Err e
  | (file, (db, (lastGood, None))) =>
      let file := if zlen file =? lastGood then file else take (Z.to_nat lastGood) file in
      Ok (set_file file db)
  end.

(** * Runs in which every write succeeds and every record fits *)

(** The side condition of one step: a commit's record, or the records of a
    compaction, fit into frames, and no append fails. *)
Definition op_ok (s : sys) (o : op) : Prop :=
  match o with
  | OpCommit id o =>
      o = IoOk /\ forall t, sys_txs s !! id = Some t -> frame_ok (commit_record (sys_db s) t)
  | OpCompact _ =>
      let retain := oldestReadVersion (sys_db s) in
      Forall frame_ok (compactRecords retain (pruneHistory retain (sys_db s)))
  | _ => True
  end.

(** States reachable from a new database. *)
Inductive reachable : sys -> Prop :=
  | reach_init : reachable (init_sys walHeader)
  | reach_step s o :
      reachable s -> op_ok s o -> db_version (sys_db s) + 1 < 2 ^ 64 ->
      reachable (fst (System.do_op s o)).

(** The log [rs] describes the database: it is a well-formed log of versions up
    to the current one and replays to the current contents. *)
Record log_of (db : DB) (rs : list record) : Prop := {
  lo_frames : Forall frame_ok rs;
  lo_log : log_wf 0 rs;
  lo_bound : Forall (fun r => rec_version r <= db_version db) rs;
  lo_latest : forall f k,
    value_of (last (versions_of (foldl (flip apply) (empty_db f) rs) k)) = value_of (last (versions_of db k));
}.

Definition durable (db : DB) : Prop := exists rs, db_file db = wal_file rs /\ log_of db rs.

Record inv (s : sys) : Prop := {
  inv_wf : db_wf (sys_db s);
  inv_txs : forall id t, sys_txs s !! id = Some t -> tx_wf t;
  inv_durable : durable (sys_db s);
}.

(** * The invariant *)

Lemma log_wf_snoc v rs r :
  log_wf v rs -> v < rec_version r -> Forall (fun r' => rec_version r' < rec_version r) rs ->
  (forall k, (length (new_versions (rec_version r) (rec_ops r) k) <= 1)%nat) ->
  log_wf v (rs ++ [r]).
Proof.
  revert v. induction rs as [|r' rs IH]; intros v Hl Hv Hf Hone; [done|].
  destruct Hl as (Hlt & H1 & Hl). apply Forall_cons in Hf as [Hr Hf]. split_and!; auto.
Qed.

Lemma log_of_frame db db' rs :
  db_history db' = db_history db -> db_version db' = db_version db -> log_of db rs -> log_of db' rs.
Proof.
  intros Eh Ev [Hf Hl Hb Hlat]. split; try done; [by rewrite Ev|].
  intros f k. by rewrite (versions_of_history db db').
Qed.

Lemma durable_frame db db' :
  db_file db' = db_file db -> db_history db' = db_history db -> db_version db' = db_version db ->
  durable db -> durable db'.
Proof. intros Ef Eh Ev (rs & E & Hlog). exists rs. rewrite Ef. eauto using log_of_frame. Qed.

(** Appending the record of a commit. *)
Lemma log_of_commit db t rs f :
  db_wf db -> tx_wf t -> db_version db + 1 < 2 ^ 64 -> frame_ok (commit_record db t) ->
  log_of db rs -> log_of (committed_db f t db) (rs ++ [commit_record db t]).
Proof.
  intros Hwf Htx Hmax Hok [Hf Hl Hb Hlat]. pose proof (wf_version db Hwf) as H0.
  pose proof (commit_version db t Hwf Hmax) as Hv. split.
  - apply Forall_app. auto.
  - apply log_wf_snoc; [done|rewrite Hv; lia| |intros k; by apply commit_record_one].
    eapply Forall_impl; [exact Hb|]. intros r Hr. simpl in Hr. rewrite Hv. lia.
  - rewrite version_committed_db by done. apply Forall_app. split.
    + eapply Forall_impl; [exact Hb|]. simpl. lia.
    + repeat constructor. rewrite Hv. lia.
  - intros f' k. rewrite foldl_app, versions_of_committed_db, versions_of_commit by done.
    cbn [foldl flip]. rewrite versions_of_apply, Hv. unfold commit_record. cbn [rec_ops].
    rewrite new_versions_commit by done. destruct (tx_writes t !! k); [by rewrite !last_snoc|].
    by rewrite !(right_id_L [] app), Hlat.
Qed.

Lemma log_of_compact db :
  let retain := oldestReadVersion db in
  db_wf db -> Forall frame_ok (compactRecords retain (pruneHistory retain db)) ->
  log_of (pruneHistory retain db) (compactRecords retain (pruneHistory retain db)).
Proof.
  intros retain Hwf Hok. assert (db_wf (pruneHistory retain db)) as Hp by (by apply db_wf_prune).
  pose proof (compactRecords_log retain _ Hp) as Hl. split; try done.
  - unfold compactRecords. case_match; [case_bool_decide; repeat constructor; simpl; lia|].
    apply Forall_fmap, Forall_forall. intros v Hv.
    apply elem_of_group_order, byVersion_positive in Hv; [|done]. simpl in *. lia.
  - intros f k. set (pdb := pruneHistory retain db) in *. set (s := foldl _ _ _).
    assert (db_wf s) as Hs by (by apply log_wf_replay; [apply db_wf_empty|]).
    rewrite <- (committed_latest s (Z.max (db_version s) (db_version pdb))) by (done || lia).
    rewrite <- (committed_latest pdb (Z.max (db_version s) (db_version pdb))) by (done || lia).
    apply compactRecords_committed; [done|]. pose proof (oldestReadVersion_range db Hwf).
    change (db_version pdb) with (db_version db). unfold retain. lia.
Qed.

(** Pruning changes no current value, so the old log still describes the
    database when the rewrite fails. *)
Lemma log_of_prune db rs :
  let retain := oldestReadVersion db in
  db_wf db -> log_of db rs -> log_of (pruneHistory retain db) rs.
Proof.
  intros retain Hwf [Hf Hl Hb Hlat]. split; try done. intros f k. rewrite Hlat.
  pose proof (oldestReadVersion_range db Hwf) as Hr.
  rewrite <- !(committed_latest _ (db_version db)) by (done || lia || by apply db_wf_prune).
  symmetry. apply committed_prune. unfold retain. lia.
Qed.

Lemma durable_Compact o db :
  let retain := oldestReadVersion db in
  db_wf db -> Forall frame_ok (compactRecords retain (pruneHistory retain db)) ->
  durable db -> durable (fst (Compact o db)).
Proof.
  intros retain Hwf Hok (rs & Ef & Hlog). unfold Compact. destruct (db_closed db); [by exists rs|].
  pose proof (log_of_prune db rs Hwf Hlog) as Hold. pose proof (log_of_compact db Hwf Hok) as Hnew.
  fold retain in Hold, Hnew |- *.
  assert (forall db', db_history db' = db_history (pruneHistory retain db) -> db_version db' = db_version db ->
    db_file db' = compact_file retain (pruneHistory retain db) -> durable db') as Hn.
  { intros db' E1 E2 E3. exists (compactRecords retain (pruneHistory retain db)).
    rewrite E3, compact_file_wal. split; [done|]. by eapply log_of_frame. }
  destruct o; simpl; [by apply Hn|by exists rs..|by apply Hn].
Qed.

Lemma durable_Commit t db :
  db_wf db -> tx_wf t -> db_version db + 1 < 2 ^ 64 -> frame_ok (commit_record db t) ->
  durable db -> durable (fst (fst (Commit IoOk t db))).
Proof.
  intros Hwf Htx Hmax Hok Hd. unfold Commit.
  destruct (tx_closed t); [done|].
  destruct (negb (tx_writable t)); [by apply (durable_frame db)|].
  destruct (db_closed db); [by apply (durable_frame db)|].
  destruct (existsb _ _); [by apply (durable_frame db)|].
  destruct (bool_decide _); [by apply (durable_frame db)|].
  cbn [appendRecord fst]. destruct Hd as (rs & Ef & Hlog).
  exists (rs ++ [commit_record db t]). split; [|by apply log_of_commit].
  change (db_file (apply (commit_record db t) (set_file (db_file db ++ encodeRecord (commit_record db t)) db)) =
    wal_file (rs ++ [commit_record db t])).
  rewrite file_apply. simpl. rewrite Ef, wal_file_app. unfold frames. by rewrite bind_singleton.
Qed.

Lemma tx_wf_close t : tx_wf t -> tx_wf (close_tx t).
Proof. done. Qed.

Lemma tx_wf_Commit o t db : tx_wf t -> tx_wf (snd (fst (Commit o t db))).
Proof. intros Ht. unfold Commit. repeat case_match; simpl; by try apply tx_wf_close. Qed.

Lemma tx_wf_Rollback t db : tx_wf t -> tx_wf (snd (Rollback t db)).
Proof. intros Ht. unfold Rollback. case_match; [done|]. intros k w. simpl. by rewrite lookup_empty. Qed.

Lemma inv_with_tx s id t db :
  (forall id t, sys_txs s !! id = Some t -> tx_wf t) -> tx_wf t -> db_wf db -> durable db ->
  inv (with_tx id t (with_db db s)).
Proof.
  intros Hall Ht Hwf Hd. split; [done| |done]. simpl. intros id' t'.
  rewrite lookup_insert_Some. intros [[_ <-]|[_ ?]]; eauto.
Qed.

Lemma inv_tx_op s id f :
  inv s -> (forall t, tx_wf t -> tx_wf (fst (f t))) -> inv (fst (tx_op id f s)).
Proof.
  intros [Hwf Htx Hd] Hf. unfold tx_op. destruct (sys_txs s !! id) as [t|] eqn:Et; [|done].
  specialize (Hf t (Htx _ _ Et)). destruct (f t) as [t' e]. simpl in *.
  split; [done| |done]. simpl. intros id' t''. rewrite lookup_insert_Some. intros [[_ <-]|[_ ?]]; eauto.
Qed.

Lemma inv_step s o :
  inv s -> op_ok s o -> db_version (sys_db s) + 1 < 2 ^ 64 -> inv (fst (System.do_op s o)).
Proof.
  intros Hinv Hok Hmax. pose proof Hinv as [Hwf Htx Hd]. destruct o; simpl.
  - destruct (Begin _ _ _) as [[db t]|e] eqn:EB; [|done]. split; simpl.
    + by eapply db_wf_begin.
    + intros id t'. rewrite lookup_insert_Some. intros [[_ <-]|[_ ?]]; eauto using tx_wf_begin.
    + unfold Begin in EB. case_match; [done|]. injection EB as <- <-. by apply (durable_frame (sys_db s)).
  - destruct (sys_txs s !! id) as [t|]; [|done]. unfold Get.
    repeat case_match; simplify_eq/=; (split; simpl; [by eapply db_wf_frame|done|by apply (durable_frame (sys_db s))]).
  - destruct (sys_txs s !! id) as [t|]; [|done]. unfold scanPrefix.
    repeat case_match; simplify_eq/=; (split; simpl; [by eapply db_wf_frame|done|by apply (durable_frame (sys_db s))]).
  - apply inv_tx_op; [done|]. intros t Ht. unfold Set'. case_match; [done|]. by apply tx_wf_put.
  - apply inv_tx_op; [done|]. intros t Ht. unfold Delete. case_match; [done|]. by apply tx_wf_del.
  - apply inv_tx_op; [done|]. intros t Ht. by apply tx_wf_put.
  - apply inv_tx_op; [done|]. intros t Ht. by apply tx_wf_del.
  - destruct Hok as [-> Hfr]. destruct (sys_txs s !! id) as [t|] eqn:Et; [|done].
    pose proof (db_wf_commit IoOk t (sys_db s) Hwf (Htx _ _ Et) Hmax) as Hwf'.
    pose proof (durable_Commit t (sys_db s) Hwf (Htx _ _ Et) Hmax (Hfr t eq_refl) Hd) as Hd'.
    pose proof (tx_wf_Commit IoOk t (sys_db s) (Htx _ _ Et)) as Ht'.
    destruct (Commit IoOk t (sys_db s)) as [[db t'] e]. by apply inv_with_tx.
  - destruct (sys_txs s !! id) as [t|] eqn:Et; [|done].
    pose proof (tx_wf_Rollback t (sys_db s) (Htx _ _ Et)) as Ht'.
    pose proof (db_wf_rollback t (sys_db s) Hwf) as Hwf'.
    assert (durable (fst (Rollback t (sys_db s)))) as Hd'
      by (unfold Rollback; case_match; by apply (durable_frame (sys_db s))).
    destruct (Rollback t (sys_db s)) as [db t']. by apply inv_with_tx.
  - pose proof (db_wf_Compact o (sys_db s) Hwf) as Hwf'.
    pose proof (durable_Compact o (sys_db s) Hwf Hok Hd) as Hd'.
    destruct (Compact o (sys_db s)) as [db e]. by split.
  - unfold Close. case_match; [by rewrite with_db_id|].
    split; simpl; [by eapply db_wf_frame|done|by apply (durable_frame (sys_db s))].
Qed.

Lemma reachable_inv s : reachable s -> inv s.
Proof.
  induction 1 as [|s o Hr IH Hok Hmax]; [|by apply inv_step].
  split; [apply db_wf_empty|intros id t; simpl; by rewrite lookup_empty|].
  exists []. split; [done|]. split; [constructor|done|constructor|done].
Qed.

(** * Reopening *)

Lemma versions_of_set_file f db k : versions_of (set_file f db) k = versions_of db k.
Proof. done. Qed.

(** The database a log opens to. *)
Definition reopened (rs : list record) : DB :=
  set_file (wal_file rs) (foldl (flip apply) (empty_db (wal_file rs)) rs).

Lemma db_wf_reopened db rs : log_of db rs -> db_wf (reopened rs).
Proof.
  intros [Hf Hl Hb Hlat]. eapply db_wf_frame; [apply (log_wf_replay _ rs (db_wf_empty (wal_file rs)) Hl)|done..].
Qed.

Lemma committed_reopened db rs k :
  db_wf db -> log_of db rs ->
  committed (reopened rs) (db_version (reopened rs)) k = committed db (db_version db) k.
Proof.
  intros Hwf Hlog. pose proof (db_wf_reopened db rs Hlog) as Hwf'.
  rewrite !committed_latest by (done || lia). apply (lo_latest db rs Hlog).
Qed.

(** Histories do not depend on the file contents a replay starts from. *)
Lemma Open_wal_file rs : Forall frame_ok rs -> Open (wal_file rs) = Ok (reopened rs).
Proof.
  intros Hrs. unfold Open. rewrite initWAL_wal_file by done. by rewrite Z.eqb_refl.
Qed.

Lemma set_file_replay f g rs :
  set_file g (foldl (flip apply) (empty_db f) rs) = set_file g (foldl (flip apply) (empty_db g) rs).
Proof.
  assert (forall db, set_file g (foldl (flip apply) db rs) = foldl (flip apply) (set_file g db) rs) as Hc.
  { induction rs as [|r rs IH]; intros db; [done|]. cbn [foldl flip]. rewrite IH. f_equal.
    unfold apply. assert (forall ops db, set_file g (foldl (apply_op (rec_version r)) db ops) =
      foldl (apply_op (rec_version r)) (set_file g db) ops) as Hops.
    { induction ops as [|o ops IHo]; intros d; [done|]. cbn [foldl]. by rewrite IHo. }
    rewrite <- Hops. simpl. by case_match. }
  by rewrite !Hc.
Qed.

Lemma Open_torn rs r n :
  Forall frame_ok rs -> frame_ok r -> (n < length (encodeRecord r))%nat ->
  Open (wal_file rs ++ take n (encodeRecord r)) = Ok (reopened rs).
Proof.
  intros Hrs Hr Hn. unfold Open. rewrite initWAL_torn by done. f_equal.
  destruct (Z.eqb_spec (zlen (wal_file rs ++ take n (encodeRecord r))) (zlen (wal_file rs))) as [E|E].
  - rewrite zlen_app in E. assert (take n (encodeRecord r) = []) as -> by (apply zlen_0_inv; lia).
    by rewrite (right_id_L [] app).
  - rewrite to_nat_zlen, take_app_length. unfold reopened. by rewrite set_file_replay.
Qed.

(** C3.  Durability: in every state reachable from a new database through any
    interleaving of transactions and compactions (as long as every record fits
    in a frame and no write fails), closing the process and opening the file
    again gives a well-formed database with the same contents for every key. *)
Theorem restart_preserves_contents s :
  reachable s ->
  exists db, Open (db_file (sys_db s)) = Ok db /\ db_wf db /\ db_file db = db_file (sys_db s) /\
  forall k, committed db (db_version db) k = committed (sys_db s) (db_version (sys_db s)) k.
Proof.
  intros Hr. destruct (reachable_inv s Hr) as [Hwf _ (rs & Ef & Hlog)].
  exists (reopened rs). rewrite Ef, Open_wal_file by apply (lo_frames _ _ Hlog).
  split_and!; [done|by eapply db_wf_reopened|done|]. intros k. by apply committed_reopened.
Qed.

(** C4.  Crash atomicity, in every reachable state (as in C3): if the process dies
    while a commit whose record fits in a frame is being appended, with any number of
    bytes of its record on disk, the next open
    succeeds and finds the contents either before the commit or after it; after
    it only if the whole record reached the disk. *)
Theorem crash_during_commit s id t n :
  reachable s -> sys_txs s !! id = Some t -> db_version (sys_db s) + 1 < 2 ^ 64 ->
  frame_ok (commit_record (sys_db s) t) ->
  let frame := encodeRecord (commit_record (sys_db s) t) in
  exists db, Open (db_file (sys_db s) ++ take n frame) = Ok db /\ db_wf db /\
  forall k, committed db (db_version db) k =
    if decide (n < length frame)%nat then committed (sys_db s) (db_version (sys_db s)) k
    else match tx_writes t !! k with
         | Some w => write_value w
         | None => committed (sys_db s) (db_version (sys_db s)) k
         end.
Proof.
  intros Hr Ht Hmax Hok. cbv zeta. destruct (reachable_inv s Hr) as [Hwf Htx (rs & Ef & Hlog)].
  pose proof (Htx _ _ Ht) as Hwt. rewrite Ef. set (rec := commit_record (sys_db s) t) in *.
  destruct (decide (n < length (encodeRecord rec))%nat) as [Hn|Hn].
  - exists (reopened rs). rewrite Open_torn by (done || apply (lo_frames _ _ Hlog)).
    split_and!; [done|by eapply db_wf_reopened|]. intros k. by apply committed_reopened.
  - pose proof (log_of_commit (sys_db s) t rs [] Hwf Hwt Hmax Hok Hlog) as Hlog'. fold rec in Hlog'.
    exists (reopened (rs ++ [rec])). rewrite take_ge by lia.
    assert (wal_file rs ++ encodeRecord rec = wal_file (rs ++ [rec])) as ->
      by (rewrite wal_file_app; unfold frames; by rewrite bind_singleton).
    rewrite Open_wal_file by apply (lo_frames _ _ Hlog').
    pose proof (db_wf_reopened _ _ Hlog') as Hwf'. split_and!; [done|done|]. intros k.
    rewrite (committed_latest (reopened _)) by (done || lia).
    unfold reopened. rewrite versions_of_set_file, (lo_latest _ _ Hlog').
    rewrite versions_of_committed_db, versions_of_commit by done.
    destruct (tx_writes t !! k) as [w|]; [by rewrite last_snoc|].
    by rewrite (right_id_L [] app), committed_latest by (done || lia).
Qed.
End open.
