(* ===== verification/Witnesses.v ===== *)
(** Concrete instances of the theorems of the kernel, with records serialised by
    the JSON codec: a small log, and a run of clients with a conflict and a
    compaction, at which every hypothesis is checked by computation. *)

From S2P Require Import Prelude Utf8 Strconv Keys Wal Mvcc Compact Checkpoint Shutdown System Durable WalJson.

(** * Checking the hypotheses by computation *)

Definition frame_ok_b (r : record) : bool :=
  (0 <=? rec_version r) && (rec_version r <? 2 ^ 64) && forallb (fun op => utf8_valid (op_key op)) (rec_ops r) &&
  (zlen (marshal r) <=? maxRecordSize).

Lemma frame_ok_b_sound r : frame_ok_b r = true -> frame_ok r.
Proof.
  unfold frame_ok_b. intros H. to_prop. split; [split; [done|]|done].
  apply Forall_forall. intros op Hop. match goal with H : forallb _ _ = true |- _ => rewrite forallb_forall in H; apply H end.
  by apply list_elem_of_In.
Qed.

Lemma frames_ok_b_sound rs : forallb frame_ok_b rs = true -> Forall frame_ok rs.
Proof.
  rewrite forallb_forall, Forall_forall. intros H r Hr. apply frame_ok_b_sound, H. by apply list_elem_of_In.
Qed.

Definition op_ok_b (s : sys) (o : op) : bool :=
  match o with
  | OpCommit id o =>
      match o with IoOk => true | _ => false end &&
      match sys_txs s !! id with Some t => frame_ok_b (commit_record (sys_db s) t) | None => true end
  | OpCompact _ =>
      let retain := oldestReadVersion (sys_db s) in
      forallb frame_ok_b (compactRecords retain (pruneHistory retain (sys_db s)))
  | _ => true
  end.

Lemma op_ok_b_sound s o : op_ok_b s o = true -> op_ok s o.
Proof.
  destruct o; cbn [op_ok op_ok_b]; try done; [|by intros ?%frames_ok_b_sound].
  intros [Ho Ht]%andb_true_iff. split; [by destruct o|]. intros t E. rewrite E in Ht. by apply frame_ok_b_sound.
Qed.

Fixpoint run_ok_b (s : sys) (ops : list op) : bool :=
  match ops with
  | [] => true
  | o :: ops => op_ok_b s o && (db_version (sys_db s) + 1 <? 2 ^ 64) && run_ok_b (fst (System.do_op s o)) ops
  end.

Lemma run_ok_b_sound ops s : reachable s -> run_ok_b s ops = true -> reachable (fst (System.run s ops)).
Proof.
  revert s. induction ops as [|o ops IH]; intros s Hs H; [done|]. cbn [run_ok_b] in H.
  apply andb_true_iff in H as [[H1 H2]%andb_true_iff H3]. cbn [System.run].
  assert (reachable (fst (System.do_op s o))) as Hr by (constructor; [done|by apply op_ok_b_sound|by apply Z.ltb_lt]).
  specialize (IH _ Hr H3). destruct (System.do_op s o) as [s1 r]. cbn [fst] in *.
  by destruct (System.run s1 ops).
Qed.

(** * The log *)

Definition r1 : record := mkRec 1 [mkOp (lit "a") (lit "1") false; mkOp (lit "b") (lit "2") false].
Definition r2 : record := mkRec 2 [mkOp (lit "a") [] true].

Lemma r1_ok : Forall frame_ok [r1].
Proof. apply frames_ok_b_sound. vm_compute. reflexivity. Qed.
Lemma r2_ok : frame_ok r2.
Proof. apply frame_ok_b_sound. vm_compute. reflexivity. Qed.
Lemma r12_ok : Forall frame_ok [r1; r2].
Proof. apply frames_ok_b_sound. vm_compute. reflexivity. Qed.

(** The versions replayed, as the state. *)
Definition note (r : record) (s : list Z) : list Z := s ++ [rec_version r].

Lemma wal_roundtrip_witness :
  initWAL note (wal_file [r1; r2]) [] = (wal_file [r1; r2], ([1; 2], (zlen (wal_file [r1; r2]), None))).
Proof. exact (wal_roundtrip note [r1; r2] [] r12_ok). Defined.

Lemma torn_tail_recovered_witness :
  let file := wal_file [r1] ++ take 10 (encodeRecord r2) in
  initWAL note file [] = (file, ([1], (zlen (wal_file [r1]), None))).
Proof.
  assert (10 < length (encodeRecord r2))%nat as Hn by (apply Nat.ltb_lt; vm_compute; reflexivity).
  exact (torn_tail_recovered note [r1] r2 10 [] r1_ok r2_ok Hn).
Defined.

Lemma recovery_idempotent_witness :
  let file := wal_file [r1] ++ take 10 (encodeRecord r2) in
  let cut := take (Z.to_nat (zlen (wal_file [r1]))) file in
  zlen cut = zlen (wal_file [r1]) /\ initWAL note cut [] = (cut, ([1], (zlen (wal_file [r1]), None))).
Proof.
  refine (recovery_idempotent note (wal_file [r1] ++ take 10 (encodeRecord r2)) _ [] [1] (zlen (wal_file [r1])) _).
  vm_compute. reflexivity.
Defined.

Lemma flipped_byte_detected_witness :
  let pre := take 12 (marshal r1) in
  let post := drop 13 (marshal r1) in
  let damaged := le_bytes 4 (zlen (marshal r1)) ++ le_bytes 4 (crc32 (marshal r1)) ++ pre ++ Byte.x00 :: post in
  let file := wal_file [] ++ damaged ++ frames [r2] in
  initWAL note file [] = (file, ([], (zlen (wal_file []), Some ErrWALCorrupt))).
Proof.
  assert (marshal r1 = take 12 (marshal r1) ++ lit "," ++ drop 13 (marshal r1)) as Hm by (vm_compute; reflexivity).
  assert (Byte.x2c <> Byte.x00) as Hne by discriminate.
  exact (flipped_byte_detected note [] r1 (take 12 (marshal r1)) Byte.x2c Byte.x00 (drop 13 (marshal r1)) [r2] []
    (Forall_nil_2 _) (Forall_inv r1_ok) (Forall_cons_2 _ _ _ r2_ok (Forall_nil_2 _)) Hm Hne).
Defined.

Lemma corrupt_length_truncates_witness :
  let file := wal_file [r1] ++ le_bytes 4 1000 ++ le_bytes 4 7 ++ encodeRecord r2 in
  initWAL note file [] = (file, ([1], (zlen (wal_file [r1]), None))).
Proof.
  assert (0 < 1000 <= maxRecordSize) as Hs by (vm_compute; split; [reflexivity|discriminate]).
  assert (zlen (encodeRecord r2) < 1000) as Hl by (vm_compute; reflexivity).
  assert (0 <= 7 < 2 ^ 32) as Hc by lia.
  exact (corrupt_length_truncates note [r1] 1000 7 (encodeRecord r2) [] r1_ok Hs Hc Hl).
Defined.


(** A record with one key of [n] letters. *)
Definition long_record (n : nat) : record := mkRec 1 [mkOp (replicate n Byte.x61) [] false].

Lemma escape_letters n : escape_from true 0 (replicate n Byte.x61) = replicate n Byte.x61.
Proof. induction n as [|n IH]; [done|]. cbn [replicate escape_from]. change (byte_val Byte.x61 <? 0x80) with true. cbv iota.
  by rewrite IH. Qed.

Lemma zlen_long_record n : zlen (marshal (long_record n)) = Z.of_nat n + 32.
Proof.
  unfold marshal, json_codec, marshal_record, long_record. cbn [rec_version rec_ops marshal_ops].
  unfold marshal_op, quote. cbn [op_key op_value op_delete]. rewrite escape_letters, bool_decide_true by done. cbn [app].
  rewrite !zlen_app, zlen_cons, !zlen_app. unfold zlen. rewrite length_replicate. 
  repeat match goal with |- context [length ?l] => let v := eval vm_compute in (length l) in change (length l) with v end. lia.
Qed.

Lemma oversized_record_dropped_witness :
  let r := long_record (Z.to_nat 70000000) in
  fst (appendRecord (wal_file [r1]) r IoOk) = wal_file [r1] ++ encodeRecord r /\
  initWAL note (wal_file [r1] ++ encodeRecord r) [] =
  (wal_file [r1] ++ encodeRecord r, ([1], (zlen (wal_file [r1]), None))).
Proof.
  assert (maxRecordSize < zlen (marshal (long_record (Z.to_nat 70000000))) < 2 ^ 32) as Hn.
  { rewrite zlen_long_record, Z2Nat.id, maxRecordSize_val by lia. lia. }
  exact (oversized_record_dropped note [r1] (long_record (Z.to_nat 70000000)) [] r1_ok Hn).
Defined.

(** * The kernel *)

(** Two writers of the same key, a reader that stays open, a compaction. *)
Definition demo : list op :=
  [OpBegin true; OpSet 0 (lit "x") (lit "1"); OpSet 0 (lit "y") (lit "2"); OpCommit 0 IoOk;
   OpBegin false; OpBegin true; OpBegin true;
   OpSet 2 (lit "x") (lit "5"); OpSet 3 (lit "x") (lit "7")].

Definition demo_sys : sys := fst (System.run (init_sys walHeader) demo).

Lemma demo_reachable : reachable demo_sys.
Proof. apply run_ok_b_sound; [constructor|]. vm_compute. reflexivity. Qed.

Lemma demo_wf : db_wf (sys_db demo_sys).
Proof. apply inv_wf, reachable_inv, demo_reachable. Qed.

(** The transaction a run left under a number. *)
Definition tx_of (s : sys) (id : nat) : Tx := default (mkTx 0 0 false ∅ true) (sys_txs s !! id).

Lemma kernel_refines_snapshot_isolation_witness :
  snd (System.run (init_sys walHeader) (demo ++ [OpCommit 2 IoOk; OpCompact CIoOk; OpGet 1 (lit "x"); OpCommit 3 IoOk])) =
  snd (Spec.run Spec.init (demo ++ [OpCommit 2 IoOk; OpCompact CIoOk; OpGet 1 (lit "x"); OpCommit 3 IoOk])).
Proof. apply kernel_refines_snapshot_isolation. vm_compute. reflexivity. Defined.

Lemma repeatable_reads_witness :
  let s2 := fst (System.run demo_sys [OpCommit 2 IoOk; OpCompact CIoOk]) in
  snd (Get (tx_of s2 1) (lit "x") (sys_db s2)) = snd (Get (tx_of demo_sys 1) (lit "x") (sys_db demo_sys)).
Proof.
  apply (repeatable_reads walHeader demo [OpCommit 2 IoOk; OpCompact CIoOk] 1 (tx_of demo_sys 1)); vm_compute; reflexivity.
Defined.

Lemma no_lost_update_witness :
  let s1 := fst (System.do_op demo_sys (OpCommit 2 IoOk)) in
  let s2 := fst (System.run s1 [OpCompact CIoOk]) in
  exists e, snd (System.do_op s2 (OpCommit 3 IoOk)) = OutErr (Some e).
Proof.
  apply (no_lost_update walHeader demo [OpCompact CIoOk] 2 3 (tx_of demo_sys 2) (tx_of demo_sys 3) (lit "x") IoOk);
    try (vm_compute; reflexivity); [discriminate|..]; apply (bool_decide_unpack _); vm_compute; exact I.
Defined.

Lemma restart_preserves_contents_witness :
  exists db, Open (db_file (sys_db demo_sys)) = Ok db /\ db_wf db /\ db_file db = db_file (sys_db demo_sys) /\
  forall k, committed db (db_version db) k = committed (sys_db demo_sys) (db_version (sys_db demo_sys)) k.
Proof. exact (restart_preserves_contents demo_sys demo_reachable). Defined.

Lemma crash_during_commit_witness :
  let frame := encodeRecord (commit_record (sys_db demo_sys) (tx_of demo_sys 2)) in
  exists db, Open (db_file (sys_db demo_sys) ++ take 20 frame) = Ok db /\ db_wf db /\
  forall k, committed db (db_version db) k =
    if decide (20 < length frame)%nat then committed (sys_db demo_sys) (db_version (sys_db demo_sys)) k
    else match tx_writes (tx_of demo_sys 2) !! k with
         | Some w => write_value w
         | None => committed (sys_db demo_sys) (db_version (sys_db demo_sys)) k
         end.
Proof.
  apply (crash_during_commit demo_sys 2 (tx_of demo_sys 2) 20 demo_reachable); [vm_compute; reflexivity..|].
  apply frame_ok_b_sound. vm_compute. reflexivity.
Defined.

Lemma scanPrefix_correct_witness :
  let out := snd (scanPrefix (tx_of demo_sys 2) (lit "x") (sys_db demo_sys)) in
  StronglySorted kv_lt out /\
  forall k v, mkKV k v ∈ out <->
    has_prefix k (lit "x") = true /\ snd (Get (tx_of demo_sys 2) k (sys_db demo_sys)) = Some v.
Proof. apply scanPrefix_correct. vm_compute. reflexivity. Defined.

Lemma demo_tx_wf : tx_wf (tx_of demo_sys 2).
Proof.
  apply (inv_txs _ (reachable_inv _ demo_reachable) 2). vm_compute. reflexivity.
Qed.

(** The database, the transaction and the error after the first commit of [demo]'s writers. *)
Definition demo_commit : DB * Tx * option error := Commit IoOk (tx_of demo_sys 2) (sys_db demo_sys).

Lemma demo_no_conflict : ~ conflicting (sys_db demo_sys) (tx_of demo_sys 2) /\ tx_writes (tx_of demo_sys 2) <> ∅.
Proof.
  split; [|apply (bool_decide_unpack _); vm_compute; exact I]. unfold conflicting. rewrite <- existsb_conflict. vm_compute. discriminate.
Qed.

(** A commit that succeeds, and the same commit when its write breaks off. *)
Lemma commit_atomic_witness :
  (snd demo_commit = None /\ contents_written (sys_db demo_sys) (tx_of demo_sys 2) (fst (fst demo_commit))) /\
  let r := Commit (IoWriteFail 5) (tx_of demo_sys 2) (sys_db demo_sys) in
  snd r = Some ErrIO /\ same_contents (sys_db demo_sys) (fst (fst r)).
Proof.
  assert (forall o, Commit o (tx_of demo_sys 2) (sys_db demo_sys) = (fst (fst (Commit o (tx_of demo_sys 2) (sys_db demo_sys))),
    snd (fst (Commit o (tx_of demo_sys 2) (sys_db demo_sys))), snd (Commit o (tx_of demo_sys 2) (sys_db demo_sys)))) as E by (intros o; by destruct (Commit o _ _) as [[? ?] ?]).
  assert (db_version (sys_db demo_sys) + 1 < 2 ^ 64) as Hv by (vm_compute; reflexivity).
  assert (tx_closed (tx_of demo_sys 2) = false) as H1 by (vm_compute; reflexivity).
  assert (tx_writable (tx_of demo_sys 2) = true) as H2 by (vm_compute; reflexivity).
  assert (db_closed (sys_db demo_sys) = false) as H3 by (vm_compute; reflexivity).
  destruct demo_no_conflict as [H4 H5]. split.
  - destruct (commit_atomic IoOk _ _ _ _ _ demo_wf demo_tx_wf Hv (E IoOk)) as (_ & _ & H).
    destruct (proj2 (proj2 (proj2 (proj2 (proj2 (H H1) H2) H3))) H4 H5) as (He & _ & Hc). split; [exact He|exact Hc].
  - destruct (commit_atomic (IoWriteFail 5) _ _ _ _ _ demo_wf demo_tx_wf Hv (E (IoWriteFail 5))) as (_ & _ & H).
    destruct (proj2 (proj2 (proj2 (proj2 (proj2 (H H1) H2) H3))) H4 H5) as (He & _ & Hc). split; [exact He|exact Hc].
Defined.

Lemma compact_invisible_witness :
  let db := sys_db demo_sys in
  let db' := fst (Compact CIoOk db) in
  db_version db' = db_version db /\ committed db' 1 (lit "x") = committed db 1 (lit "x").
Proof.
  assert (Compact CIoOk (sys_db demo_sys) = (fst (Compact CIoOk (sys_db demo_sys)), None)) as Hc by (vm_compute; reflexivity).
  assert (1 = db_version (sys_db demo_sys)) as H1 by (vm_compute; reflexivity).
  destruct (compact_invisible CIoOk (sys_db demo_sys) _ None demo_wf Hc) as (_ & Hv & _ & Hr).
  split; [exact Hv|]. exact (proj1 (Hr 1 (lit "x") (or_introl H1))).
Defined.

Lemma compact_log_equivalent_witness :
  let db := sys_db demo_sys in
  let db' := fst (Compact CIoOk db) in
  exists s, initWAL apply (db_file db') (empty_db []) = (db_file db', (s, (zlen (db_file db'), None))) /\ db_wf s /\
    (forall rv k, oldestReadVersion db <= rv -> committed s rv k = committed db rv k) /\
    (forall k, committed s (db_version s) k = committed db (db_version db) k).
Proof.
  apply (compact_log_equivalent (sys_db demo_sys) (fst (Compact CIoOk (sys_db demo_sys))) [] demo_wf);
    [vm_compute; reflexivity|]. apply frames_ok_b_sound. vm_compute. reflexivity.
Defined.

Lemma checkpoint_tick_witness :
  let w := mkWorker (mkOptions true 1 0) false 0 0 in
  let '(w', db') := maybeCheckpoint true CIoOk w (sys_db demo_sys) in
  cw_checkpoints w' = 1 /\ db_version db' = db_version (sys_db demo_sys).
Proof.
  pose proof (checkpoint_tick true CIoOk (mkWorker (mkOptions true 1 0) false 0 0) (sys_db demo_sys) demo_wf) as H.
  cbv zeta. destruct (maybeCheckpoint true CIoOk (mkWorker (mkOptions true 1 0) false 0 0) (sys_db demo_sys)) as [w' db'].
  destruct H as [(_ & Hv & _) H]. split; [|exact Hv].
  destruct H as (_ & Hc & _); [vm_compute; reflexivity|reflexivity|reflexivity|reflexivity| |exact Hc].
  left. vm_compute. discriminate.
Defined.

(** * The end of a database *)

(** One scheduling decision, and the run it determines. *)
Inductive decision := DTick | DStop | DWorker (o : compact_io) | DClose (i : nat) | DCall (i : nat) | DFailedCompact.

Definition decide_move (d : decision) (s : shared) : label * move :=
  match d with
  | DTick => (LTick, if decide (sh_pc s = WSelect) then loop_step true s else Blocked)
  | DStop => (LRun, if decide (sh_pc s = WSelect) then loop_step false s else Blocked)
  | DWorker o => (LRun, maybeCheckpoint_step None o s)
  | DClose i => (LRun, Close_step i s)
  | DCall i => (LCall, if sh_calls s !! i then Blocked else Goes (set_call i CCall s))
  | DFailedCompact => (LOther, if sh_mu s then Blocked else Goes (set_db (fst (Compact CIoReopenFail (sh_db s))) s))
  end.

Fixpoint schedule (ds : list decision) (s : shared) : option (list label * shared) :=
  match ds with
  | [] => Some ([], s)
  | d :: ds =>
      match decide_move d s with
      | (l, Goes s) => '(ls, s) ← schedule ds s; Some (l :: ls, s)
      | _ => None
      end
  end.

Lemma decide_move_step d s l s' : decide_move d s = (l, Goes s') -> step s l (Goes s').
Proof.
  destruct d; cbn [decide_move]; intros [= <- E].
  - case_decide; [rewrite <- E; by constructor|done].
  - case_decide; [rewrite <- E; by constructor|done].
  - rewrite <- E. constructor.
  - rewrite <- E. constructor.
  - destruct (sh_calls s !! i) eqn:Hi; [done|]. rewrite <- E. by constructor.
  - destruct (sh_mu s) eqn:Hm; [done|]. rewrite <- E. apply step_other; [done|]. apply Compact_closed_mono.
Qed.

Lemma schedule_steps ds : forall s ls s', schedule ds s = Some (ls, s') -> steps s ls s'.
Proof.
  induction ds as [|d ds IH]; intros s ls s'; cbn [schedule]; [intros [= <- <-]; constructor|].
  destruct (decide_move d s) as [l m] eqn:E. destruct m as [| |s1]; [done..|].
  destruct (schedule ds s1) as [[ls1 s2]|] eqn:Es; [|done]. intros [= <- <-].
  econstructor; [by eapply decide_move_step|by apply IH].
Qed.

Definition demo_opts : Options := mkOptions true 0 0.
Definition fresh_db : DB := empty_db (writeWALHeader []).

(** Close is called while the worker compacts, and a second time while the first call waits. *)
Definition close_run : list decision :=
  [DTick; DWorker CIoOk; DWorker CIoOk; DWorker CIoOk; DCall 0; DWorker CIoOk; DClose 0; DClose 0; DWorker CIoOk; DClose 0;
   DCall 1; DClose 1; DClose 1; DStop; DClose 0; DClose 0; DClose 0]%nat.

Lemma close_returns_witness :
  exists ls s, schedule close_run (start demo_opts fresh_db) = Some (ls, s) /\
  count is_run ls = 14 /\ sh_closes s = 1%nat /\ sh_pc s = WExited.
Proof.
  destruct (schedule close_run (start demo_opts fresh_db)) as [[ls s]|] eqn:E; [|vm_compute in E; discriminate].
  exists ls, s. split; [reflexivity|].
  destruct (close_returns demo_opts fresh_db ls s) as (_ & _ & _ & _ & _ & _ & H); [apply (schedule_steps _ _ _ _ E)|].
  vm_compute in E. injection E as <- <-. split; [reflexivity|]. destruct H as [(_ & H1 & H2)|(H0 & _)].
  - reflexivity.
  - intros H0. apply (f_equal (lookup 0%nat)) in H0. vm_compute in H0. discriminate.
  - match goal with |- context [sh_calls ?t] => change (map_Forall (fun _ pc => pc = CDone) (sh_calls t)) end.
    apply (bool_decide_unpack _). vm_compute. exact I.
  - split; [exact H1|exact H2].
  - vm_compute in H0. discriminate.
Defined.

Lemma failed_reopen_leaks_worker_witness :
  exists ls s ls' s', schedule [DFailedCompact] (start demo_opts fresh_db) = Some (ls, s) /\
  schedule [DCall 0; DClose 0; DClose 0]%nat s = Some (ls', s') /\
  sh_calls s' !! 0%nat = Some CDone /\ sh_stop s' = false /\ sh_pc s' <> WExited.
Proof.
  destruct (schedule [DFailedCompact] (start demo_opts fresh_db)) as [[ls s]|] eqn:E; [|vm_compute in E; discriminate].
  destruct (schedule [DCall 0; DClose 0; DClose 0]%nat s) as [[ls' s']|] eqn:E';
    [|vm_compute in E; injection E as <- <-; vm_compute in E'; discriminate].
  exists ls, s, ls', s'. split; [reflexivity|]. split; [exact E'|].
  destruct (failed_reopen_leaks_worker demo_opts fresh_db ls s ls' s') as (H1 & H2 & _ & _);
    [exact (schedule_steps _ _ _ _ E)|vm_compute in E; injection E as <- <-; reflexivity
    |vm_compute in E; injection E as <- <-; reflexivity|exact (schedule_steps _ _ _ _ E')|].
  split; [|split; [exact H1|exact H2]].
  vm_compute in E. injection E as <- <-. vm_compute in E'. injection E' as <- <-. reflexivity.
Defined.
