(* ===== verification/Catalog.v ===== *)
(** The catalog (catalog.go, and the index entries of secondary.go): table and
    index definitions, column lookup, and the catalog entries kept as JSON under
    reserved keys of the transactional store. *)

From S2P Require Import Prelude Utf8 Unicode Strconv Keys Page Row Wal Mvcc.

Record ColumnDef := mkColumn { col_Name : bytes; col_Type : ColType; col_PK : bool }.

Record TableDef := mkTable { tab_Name : bytes; tab_Columns : list ColumnDef }.

Record IndexDef := mkIndex { idx_Name : bytes; idx_Table : bytes; idx_Column : bytes; idx_Path : bytes }.

(** * Columns *)

(** The first index from [i] on whose column satisfies [p]. *)
Fixpoint find_column (p : ColumnDef -> bool) (i : nat) (cols : list ColumnDef) : option nat :=
  match cols with
  | [] => None
  | c :: cols => if p c then Some i else find_column p (S i) cols
  end.

(** The column and its index. *)
Definition pkColumn (t : TableDef) : res (ColumnDef * nat) :=
  match find_column col_PK 0 (tab_Columns t) with
  | Some i => match tab_Columns t !! i with Some c => Ok (c, i) | None => Err ErrSQL end
  | None => Err ErrSQL
  end.

Definition columnIndex `{Unicode} (t : TableDef) (name : bytes) : res nat :=
  match find_column (fun c => equalFold (col_Name c) name) 0 (tab_Columns t) with
  | Some i => Ok i
  | None => Err ErrSQL
  end.

(** * Catalog entries *)

(** Definitions encoding/json carries unchanged: names are valid UTF-8 and
    column types are the four of the language. *)
Definition storable_type (t : ColType) : Prop := match t with TypeName _ => False | _ => True end.

Definition column_ok (c : ColumnDef) : Prop := utf8_valid (col_Name c) = true /\ storable_type (col_Type c).

Definition table_ok (t : TableDef) : Prop := utf8_valid (tab_Name t) = true /\ Forall column_ok (tab_Columns t).

Definition index_ok (d : IndexDef) : Prop :=
  utf8_valid (idx_Name d) = true /\ utf8_valid (idx_Table d) = true /\
  utf8_valid (idx_Column d) = true /\ utf8_valid (idx_Path d) = true.

(** json.Marshal and json.Unmarshal at the two definitions; what the catalog
    relies on is that they round-trip. *)
Class CatalogCodec := {
  marshalTable : TableDef -> bytes;
  unmarshalTable : bytes -> option TableDef;
  marshalIndex : IndexDef -> bytes;
  unmarshalIndex : bytes -> option IndexDef;
  unmarshal_marshalTable : forall t, table_ok t -> unmarshalTable (marshalTable t) = Some t;
  unmarshal_marshalIndex : forall d, index_ok d -> unmarshalIndex (marshalIndex d) = Some d;
}.

Section catalog.
Context `{C : CatalogCodec}.

Definition saveTableDef (def : TableDef) (tx : Tx) : Tx * option error :=
  put (catalogTableKey (tab_Name def)) (marshalTable def) tx.

Definition loadTableDef (tx : Tx) (name : bytes) (db : DB) : DB * res TableDef :=
  let '(db, raw) := Get tx (catalogTableKey name) db in
  match raw with
  | None => (db, Err ErrSQL)
  | Some raw => (db, match unmarshalTable raw with Some def => Ok def | None => Err ErrDecode end)
  end.

Definition dropTableDef (name : bytes) (tx : Tx) : Tx * option error := del (catalogTableKey name) tx.

(** The loop over the scanned pairs: the first that does not decode is an error. *)
Fixpoint decode_pairs {A} (decode : bytes -> option A) (pairs : list kvPair) : res (list A) :=
  match pairs with
  | [] => Ok []
  | p :: pairs =>
      match decode (kv_value p) with
      | None => Err ErrDecode
      | Some def => let! out := decode_pairs decode pairs in Ok (def :: out)
      end
  end.

Definition listTableDefs (tx : Tx) (db : DB) : DB * res (list TableDef) :=
  let '(db, pairs) := scanPrefix tx catalogTablePrefix db in
  (db, decode_pairs unmarshalTable pairs).

Definition saveIndexDef (def : IndexDef) (tx : Tx) : Tx * option error :=
  put (catalogIndexKey (idx_Name def)) (marshalIndex def) tx.

Definition dropIndexDef (name : bytes) (tx : Tx) : Tx * option error := del (catalogIndexKey name) tx.

Definition listIndexDefs (tx : Tx) (db : DB) : DB * res (list IndexDef) :=
  let '(db, pairs) := scanPrefix tx catalogIndexPrefix db in
  (db, decode_pairs unmarshalIndex pairs).

(** * Lemmas *)

Lemma catalogTableKey_inj a b : catalogTableKey a = catalogTableKey b -> a = b.
Proof. unfold catalogTableKey. by intros ?%(inj (app _))%(inj (app _)). Qed.

Lemma catalogTableKey_prefix k : has_prefix k catalogTablePrefix = true <-> exists name, k = catalogTableKey name.
Proof. rewrite has_prefix_app. unfold catalogTablePrefix, catalogTableKey. split; intros [r ->]; exists r; by rewrite <- ?app_assoc. Qed.

(** What a transaction reads after a write of its own. *)
Lemma Get_put tx key value db k :
  tx_closed tx = false -> tx_writable tx = true ->
  snd (put key value tx) = None /\
  snd (Get (fst (put key value tx)) k db) = (if decide (k = key) then Some value else snd (Get tx k db)).
Proof.
  intros Hc Hw. unfold put, Get. rewrite Hc, Hw. cbn [negb fst snd set_writes tx_closed tx_writes tx_readVersion]. rewrite Hc.
  split; [done|]. case_decide as E; [subst; by rewrite lookup_insert_eq|]. by rewrite lookup_insert_ne.
Qed.

Lemma Get_del tx key db k :
  tx_closed tx = false -> tx_writable tx = true ->
  snd (del key tx) = None /\
  snd (Get (fst (del key tx)) k db) = (if decide (k = key) then None else snd (Get tx k db)).
Proof.
  intros Hc Hw. unfold del, Get. rewrite Hc, Hw. cbn [negb fst snd set_writes tx_closed tx_writes tx_readVersion]. rewrite Hc.
  split; [done|]. case_decide as E; [subst; by rewrite lookup_insert_eq|]. by rewrite lookup_insert_ne.
Qed.

Lemma loadTableDef_Get tx name db :
  snd (loadTableDef tx name db) =
  match snd (Get tx (catalogTableKey name) db) with
  | None => Err ErrSQL
  | Some raw => match unmarshalTable raw with Some def => Ok def | None => Err ErrDecode end
  end.
Proof. unfold loadTableDef. by destruct (Get tx (catalogTableKey name) db) as [db' [raw|]]. Qed.

Lemma decode_pairs_ok {A} (decode : bytes -> option A) pairs defs :
  decode_pairs decode pairs = Ok defs <-> Forall2 (fun p d => decode (kv_value p) = Some d) pairs defs.
Proof.
  revert defs. induction pairs as [|p pairs IH]; intros defs; cbn [decode_pairs].
  { split; [intros [= <-]; constructor|]. intros Hf. by inversion Hf. }
  destruct (decode (kv_value p)) as [d|] eqn:E.
  - destruct (decode_pairs decode pairs) as [out|] eqn:Eo; cbn [rbind].
    + split.
      * intros [= <-]. constructor; [done|]. by apply IH.
      * intros Hf. inversion Hf as [|? d' ? out' Hd Ht]; subst. apply IH in Ht. congruence.
    + split; [done|]. intros Hf. inversion Hf as [|? d' ? out' Hd Ht]; subst. apply IH in Ht. congruence.
  - split; [done|]. intros Hf. inversion Hf as [|? d' ? out' Hd Ht]; subst. congruence.
Qed.

(** * Theorems *)

(** The catalog behaves as a map from table names to definitions inside
    an open writable transaction: after saving a definition, loading its name
    returns it and loading any other name is unaffected; after dropping a name,
    loading it fails and other names are unaffected. *)
Theorem catalog_map tx def name db :
  tx_closed tx = false -> tx_writable tx = true ->
  table_ok def ->
  let saved := saveTableDef def tx in
  let dropped := dropTableDef (tab_Name def) tx in
  snd saved = None /\ snd dropped = None /\
  snd (loadTableDef (fst saved) name db) =
    (if decide (name = tab_Name def) then Ok def else snd (loadTableDef tx name db)) /\
  snd (loadTableDef (fst dropped) name db) =
    (if decide (name = tab_Name def) then Err ErrSQL else snd (loadTableDef tx name db)).
Proof.
  intros Hc Hw Hok. cbv zeta. unfold saveTableDef, dropTableDef. rewrite !loadTableDef_Get.
  destruct (Get_put tx (catalogTableKey (tab_Name def)) (marshalTable def) db (catalogTableKey name) Hc Hw) as [E1 ->].
  destruct (Get_del tx (catalogTableKey (tab_Name def)) db (catalogTableKey name) Hc Hw) as [E2 ->].
  split; [done|]. split; [done|]. destruct (decide (name = tab_Name def)) as [->|Hne].
  - rewrite !decide_True by done. by rewrite unmarshal_marshalTable.
  - rewrite !decide_False by (intros ?%catalogTableKey_inj; done). done.
Qed.

(** Listing the catalog returns, in name order, exactly the definitions
    that loading would find: if it succeeds, the results correspond one to one,
    in strictly increasing key order, to the table keys the transaction sees, and
    each is what loadTableDef returns for its name. *)
Theorem catalog_list tx db defs :
  tx_closed tx = false -> snd (listTableDefs tx db) = Ok defs ->
  exists names, length names = length defs /\
    StronglySorted bytes_lt (catalogTableKey <$> names) /\
    Forall2 (fun name def => snd (loadTableDef tx name db) = Ok def) names defs /\
    forall name, name ∈ names <-> is_Some (snd (Get tx (catalogTableKey name) db)).
Proof.
  intros Hc. unfold listTableDefs. destruct (scanPrefix_spec tx catalogTablePrefix db Hc) as [Hs Hin].
  destruct (scanPrefix tx catalogTablePrefix db) as [db' pairs]. cbn [snd] in *. intros Hd%decode_pairs_ok.
  set (name_of := fun p => drop (length catalogTablePrefix) (kv_key p)).
  assert (forall p, p ∈ pairs -> kv_key p = catalogTableKey (name_of p) /\ snd (Get tx (catalogTableKey (name_of p)) db) = Some (kv_value p)) as Hp.
  { intros [k v] Hkv. apply Hin in Hkv as [[r ->]%has_prefix_app Hg]. unfold name_of. cbn [kv_key kv_value].
    rewrite drop_app_length. change (catalogTableKey r) with (reservedPrefix ++ lit "meta/tables/" ++ r).
    unfold catalogTablePrefix in *. rewrite <- app_assoc in *. done. }
  exists (name_of <$> pairs). split; [rewrite length_fmap; by eapply Forall2_length|]. split; [|split].
  - replace (catalogTableKey <$> (name_of <$> pairs)) with (kv_key <$> pairs).
    + clear -Hs. induction Hs as [|p pairs Hs IH Hp]; [constructor|]. cbn. constructor; [done|]. by rewrite Forall_fmap.
    + rewrite <- list_fmap_compose. apply list_fmap_ext. intros i p Hi. apply Hp. by eapply list_elem_of_lookup_2.
  - apply Forall2_fmap_l. eapply Forall2_impl_in; [exact Hd|]. intros p d Hpin Hpd.
    change (snd (loadTableDef tx (name_of p) db) = Ok d). rewrite loadTableDef_Get.
    destruct (Hp p Hpin) as [_ ->]. cbn. by rewrite Hpd.
  - intros name. rewrite list_elem_of_fmap. split.
    + intros (p & -> & Hpin). destruct (Hp p Hpin) as [_ ->]. done.
    + intros [v Hv]. exists (mkKV (catalogTableKey name) v). split.
      * unfold name_of. cbn [kv_key]. unfold catalogTablePrefix, catalogTableKey. by rewrite (app_assoc reservedPrefix), drop_app_length.
      * apply Hin. split; [|done]. apply catalogTableKey_prefix. by exists name.
Qed.
End catalog.
