(* ===== verification/CatalogJson.v ===== *)
(** The JSON text of catalog entries: what json.Marshal writes for TableDef and
    IndexDef (field order and omitempty of the struct tags in catalog.go and
    secondary.go) and a decoder for that text, as an instance of
    [CatalogCodec]. *)

From S2P Require Import Prelude Utf8 Unicode Strconv Keys Page Row Wal WalJson Mvcc Catalog.

(** * Marshal *)

Definition type_name (t : ColType) : bytes :=
  match t with
  | TypeInteger => lit "INTEGER"
  | TypeText => lit "TEXT"
  | TypeBlob => lit "BLOB"
  | TypeJSON => lit "JSON"
  | TypeName s => s
  end.

Definition marshal_column (c : ColumnDef) : bytes :=
  lit "{" ++ member (lit "name") ++ quote (col_Name c) ++ lit "," ++ member (lit "type") ++ quote (type_name (col_Type c)) ++
  (if col_PK c then lit "," ++ member (lit "pk") ++ lit "true" else []) ++ lit "}".

Fixpoint marshal_columns (cs : list ColumnDef) : bytes :=
  match cs with
  | [] => lit "]"
  | [c] => marshal_column c ++ lit "]"
  | c :: cs => marshal_column c ++ lit "," ++ marshal_columns cs
  end.

Definition marshal_table (t : TableDef) : bytes :=
  lit "{" ++ member (lit "name") ++ quote (tab_Name t) ++ lit "," ++ member (lit "columns") ++
  lit "[" ++ marshal_columns (tab_Columns t) ++ lit "}".

Definition marshal_index (d : IndexDef) : bytes :=
  lit "{" ++ member (lit "name") ++ quote (idx_Name d) ++ lit "," ++ member (lit "table") ++ quote (idx_Table d) ++
  lit "," ++ member (lit "column") ++ quote (idx_Column d) ++
  (if bool_decide (idx_Path d = []) then [] else lit "," ++ member (lit "path") ++ quote (idx_Path d)) ++ lit "}".

(** * Unmarshal *)

Definition type_of_name (s : bytes) : ColType :=
  if bool_decide (s = lit "INTEGER") then TypeInteger
  else if bool_decide (s = lit "TEXT") then TypeText
  else if bool_decide (s = lit "BLOB") then TypeBlob
  else if bool_decide (s = lit "JSON") then TypeJSON
  else TypeName s.

(** A member with a string value, after [sep]. *)
Definition parse_string (sep name s : bytes) : option (bytes * bytes) :=
  s ← expect (sep ++ member name ++ [dq]) s; unescape s.

Definition parse_column (s : bytes) : option (ColumnDef * bytes) :=
  '(name, s) ← parse_string (lit "{") (lit "name") s;
  '(typ, s) ← parse_string (lit ",") (lit "type") s;
  let '(pk, s) := match expect (lit "," ++ member (lit "pk") ++ lit "true") s with Some s => (true, s) | None => (false, s) end in
  s ← expect (lit "}") s;
  Some (mkColumn name (type_of_name typ) pk, s).

Fixpoint parse_columns (fuel : nat) (s : bytes) : option (list ColumnDef * bytes) :=
  match fuel with
  | O => None
  | S fuel =>
      '(c, s) ← parse_column s;
      match expect (lit ",") s with
      | Some s => '(cs, s) ← parse_columns fuel s; Some (c :: cs, s)
      | None => s ← expect (lit "]") s; Some ([c], s)
      end
  end.

Definition parse_table (s : bytes) : option TableDef :=
  '(name, s) ← parse_string (lit "{") (lit "name") s;
  s ← expect (lit "," ++ member (lit "columns") ++ lit "[") s;
  '(cols, s) ← match expect (lit "]") s with Some s => Some ([], s) | None => parse_columns (length s) s end;
  s ← expect (lit "}") s;
  if bool_decide (s = []) then Some (mkTable name cols) else None.

Definition parse_index (s : bytes) : option IndexDef :=
  '(name, s) ← parse_string (lit "{") (lit "name") s;
  '(table, s) ← parse_string (lit ",") (lit "table") s;
  '(column, s) ← parse_string (lit ",") (lit "column") s;
  '(path, s) ← match parse_string (lit ",") (lit "path") s with Some r => Some r | None => Some ([], s) end;
  s ← expect (lit "}") s;
  if bool_decide (s = []) then Some (mkIndex name table column path) else None.

(** * Round trips *)

Lemma parse_string_quote sep name x rest :
  utf8_valid x = true -> parse_string sep name (sep ++ member name ++ quote x ++ rest) = Some (x, rest).
Proof.
  intros Hx. unfold parse_string, quote.
  replace (sep ++ member name ++ (dq :: escape_from true 0 x ++ [dq]) ++ rest)
    with ((sep ++ member name ++ [dq]) ++ escape_from true 0 x ++ dq :: rest)
    by (repeat (rewrite <- ?app_assoc; cbn [app]); done).
  rewrite expect_app. cbn [mbind option_bind]. by apply unescape_quote.
Qed.

Lemma type_roundtrip t : storable_type t -> type_of_name (type_name t) = t /\ utf8_valid (type_name t) = true.
Proof. by destruct t. Qed.

Lemma parse_marshal_column c rest : column_ok c -> parse_column (marshal_column c ++ rest) = Some (c, rest).
Proof.
  intros [Hn Ht]. destruct (type_roundtrip _ Ht) as [Ett Etv]. unfold parse_column, marshal_column.
  rewrite <- !app_assoc. rewrite parse_string_quote by done. cbn [mbind option_bind].
  rewrite parse_string_quote by done. cbn [mbind option_bind]. rewrite Ett.
  destruct c as [name typ pk]. by destruct pk.
Qed.

Lemma marshal_columns_length cs : cs <> [] -> (length cs < length (marshal_columns cs))%nat.
Proof.
  induction cs as [|c [|c' cs] IH]; [done|intros _..].
  - cbn [marshal_columns]. unfold marshal_column. rewrite !length_app. cbn [length]. change (length (lit "]")) with 1%nat.
    change (length (lit "{")) with 1%nat. lia.
  - specialize (IH ltac:(done)). change (marshal_columns (c :: c' :: cs)) with (marshal_column c ++ lit "," ++ marshal_columns (c' :: cs)).
    rewrite !length_app. change (length (lit ",")) with 1%nat. cbn [length] in *. lia.
Qed.

Lemma parse_marshal_columns cs fuel rest :
  Forall column_ok cs -> cs <> [] -> (length cs <= fuel)%nat ->
  parse_columns fuel (marshal_columns cs ++ rest) = Some (cs, rest).
Proof.
  revert fuel. induction cs as [|c cs IH]; intros fuel Hv Hne Hf; [done|].
  apply Forall_cons in Hv as [Hc Hv]. destruct fuel as [|fuel]; [simpl in Hf; lia|].
  cbn [parse_columns]. destruct cs as [|c' cs].
  - cbn [marshal_columns]. rewrite <- app_assoc, parse_marshal_column by done. done.
  - change (marshal_columns (c :: c' :: cs)) with (marshal_column c ++ lit "," ++ marshal_columns (c' :: cs)).
    rewrite <- !app_assoc, parse_marshal_column by done. cbn [mbind option_bind].
    rewrite expect_app, IH; [done|done|done|]. cbn [length] in *. lia.
Qed.

Lemma parse_marshal_table t : table_ok t -> parse_table (marshal_table t) = Some t.
Proof.
  intros [Hn Hc]. destruct t as [name cols]. unfold parse_table, marshal_table. cbn [tab_Name tab_Columns] in *.
  rewrite parse_string_quote by done. cbn [mbind option_bind].
  replace (lit "," ++ member (lit "columns") ++ lit "[" ++ marshal_columns cols ++ lit "}")
    with ((lit "," ++ member (lit "columns") ++ lit "[") ++ marshal_columns cols ++ lit "}") by (by rewrite <- !app_assoc).
  rewrite expect_app. cbn [mbind option_bind]. destruct cols as [|c cols]; [done|].
  assert (expect (lit "]") (marshal_columns (c :: cols) ++ lit "}") = None) as -> by (by destruct cols).
  rewrite parse_marshal_columns; [done|done|done|].
  rewrite length_app. pose proof (marshal_columns_length (c :: cols) ltac:(done)). lia.
Qed.

Lemma parse_marshal_index d : index_ok d -> parse_index (marshal_index d) = Some d.
Proof.
  intros (H1 & H2 & H3 & H4). destruct d as [name table column path]. unfold parse_index, marshal_index.
  cbn [idx_Name idx_Table idx_Column idx_Path] in *. do 3 (rewrite parse_string_quote by done; cbn [mbind option_bind]).
  case_bool_decide as Hp; [by subst|]. rewrite <- !app_assoc, parse_string_quote by done. done.
Qed.

(** encoding/json meets the laws the catalog relies on. *)
#[export, refine] Instance json_catalog : CatalogCodec := {|
  marshalTable := marshal_table;
  unmarshalTable := parse_table;
  marshalIndex := marshal_index;
  unmarshalIndex := parse_index;
|}.
Proof.
  - exact parse_marshal_table.
  - exact parse_marshal_index.
Defined.

(** * Instances of the catalog theorems *)

Definition users : TableDef := mkTable (lit "users") [mkColumn (lit "id") TypeInteger true; mkColumn (lit "name") TypeText false].

Definition demo_tx : Tx := mkTx 0 0 true ∅ false.
Definition demo_db : DB := empty_db [].

Lemma users_ok : table_ok users.
Proof. split; [done|]. repeat constructor. Qed.

Lemma catalog_map_witness :
  snd (loadTableDef (fst (saveTableDef users demo_tx)) (lit "users") demo_db) = Ok users /\
  snd (loadTableDef (fst (dropTableDef (lit "users") demo_tx)) (lit "users") demo_db) = Err ErrSQL.
Proof.
  destruct (catalog_map demo_tx users (lit "users") demo_db eq_refl eq_refl users_ok) as (_ & _ & H1 & H2).
  split; [exact H1|exact H2].
Defined.

Lemma catalog_list_witness :
  let tx := fst (saveTableDef users demo_tx) in
  exists names, length names = length [users] /\
    StronglySorted bytes_lt (catalogTableKey <$> names) /\
    Forall2 (fun name def => snd (loadTableDef tx name demo_db) = Ok def) names [users] /\
    forall name, name ∈ names <-> is_Some (snd (Get tx (catalogTableKey name) demo_db)).
Proof.
  apply (catalog_list (fst (saveTableDef users demo_tx)) demo_db [users]); vm_compute; reflexivity.
Defined.
