(* ===== verification/Secondary.v ===== *)
(** Secondary indexes (secondary.go): composite keys of indexed value and
    primary key in a B+tree, lookup by a prefix scan, and the value a row
    contributes to an index. *)

From S2P Require Import Prelude Utf8 Unicode Strconv Keys Page Row JsonBin Wal Mvcc Catalog BTree.

(** * Data and operations *)

Record secondaryIdx := mkSec { si_def : IndexDef; si_tree : btree }.

Definition newSecondaryIdx (def : IndexDef) : secondaryIdx := mkSec def newBTree.

(** The prefix shared by compositeKey and compositePrefix. *)
Definition value_prefix (val : Value) : bytes :=
  match Typ val with
  | TypeInteger => lit "I:" ++ formatInt (Int val)
  | TypeText => lit "T:" ++ Text val
  | _ => lit "N:"
  end.

Definition compositeKey (val : Value) (pk : pkKey) : pkKey :=
  pkFromString (value_prefix val ++ Byte.x00 :: formatPK pk).

(** strings.SplitN(s, "\x00", 2): what is before and after the first NUL. *)
Fixpoint split_nul (s : bytes) : option (bytes * bytes) :=
  match s with
  | [] => None
  | b :: s => if bool_decide (b = Byte.x00) then Some ([], s) else '(x, r) ← split_nul s; Some (b :: x, r)
  end.

Definition parseCompositeKey (key : pkKey) : res pkKey :=
  match split_nul (pk_s key) with
  | None => Err ErrSQL
  | Some (_, r) => Ok (pkFromString r)
  end.

Definition compositePrefix (val : Value) : pkKey := pkFromString (value_prefix val ++ [Byte.x00]).

(** [None] is a panic of the tree, which does not happen. *)
Definition insert_entry (si : secondaryIdx) (val : Value) (pk : pkKey) (rk : bytes) : option secondaryIdx :=
  let ck := compositeKey val pk in
  t ← Put (si_tree si) ck rk; Some (mkSec (si_def si) t).

Definition remove_entry (si : secondaryIdx) (val : Value) (pk : pkKey) : option secondaryIdx :=
  let ck := compositeKey val pk in
  t ← Delete (si_tree si) ck; Some (mkSec (si_def si) t).

(** The loop of lookup; [fuel] bounds its iterations. *)
Fixpoint lookup_loop (fuel : nat) (t : btree) (prefix : bytes) (it : btreeIter) : option (list bytes) :=
  match fuel with
  | O => None
  | S fuel =>
      '(it, e) ← Next t it;
      match e with
      | None => Some []
      | Some (k, v) =>
          if negb (has_prefix (pk_s k) prefix) then Some []
          else cons v <$> lookup_loop fuel t prefix it
      end
  end.

(** Every turn but the last yields an entry of the tree, which bounds their number. *)
Definition lookup (si : secondaryIdx) (val : Value) : option (list bytes) :=
  let prefix := compositePrefix val in
  it ← Seek (si_tree si) prefix;
  lookup_loop (S (length (entries (root (si_tree si))))) (si_tree si) (pk_s prefix) it.

(** The value to index, and whether there is one. *)
Definition valueFromRow `{Unicode} `{GoJson} (si : secondaryIdx) (def : TableDef) (vals : list Value) : res (Value * bool) :=
  let! ci := columnIndex def (idx_Column (si_def si)) in
  match vals !! ci with
  | None => Ok (zeroValue, false)
  | Some col =>
      if Null col then Ok (zeroValue, false)
      else if negb (bool_decide (idx_Path (si_def si) = [])) then
        match Typ col with
        | TypeJSON => indexableExtract (Blob col) (idx_Path (si_def si))
        | _ => Ok (zeroValue, false)
        end
      else
        match Typ col with
        | TypeInteger | TypeText => Ok (col, true)
        | _ => Ok (zeroValue, false)
        end
  end.

(** * Composite keys *)

(** A value whose key form is unambiguous: no NUL in its text. *)
Definition clean (val : Value) : Prop := Byte.x00 ∉ value_prefix val.

Lemma nul_app_inj a b x y : Byte.x00 ∉ a -> Byte.x00 ∉ b -> a ++ Byte.x00 :: x = b ++ Byte.x00 :: y -> a = b /\ x = y.
Proof.
  revert b. induction a as [|c a IH]; intros [|d b] Ha Hb E.
  - by injection E.
  - injection E as <- _. set_solver.
  - injection E as -> _. set_solver.
  - injection E as -> E. apply IH in E as [-> ->]; [done|set_solver..].
Qed.

(** A key lies under a clean value's prefix exactly when it is a key of that value. *)
Lemma composite_prefix val val' pk :
  clean val -> clean val' ->
  has_prefix (pk_s (compositeKey val' pk)) (pk_s (compositePrefix val)) = true <-> value_prefix val' = value_prefix val.
Proof.
  intros Hv Hv'. cbn [compositeKey compositePrefix pkFromString pk_s]. rewrite has_prefix_app. split.
  - intros [r E]. rewrite <- app_assoc in E. cbn [app] in E. by apply nul_app_inj in E as [E _].
  - intros ->. exists (formatPK pk). by rewrite <- app_assoc.
Qed.

(** Keys below a prefix do not have it, and past the first key above it that
    does not have it none has. *)
Lemma prefix_le k p : has_prefix k p = true -> bytes_le p k.
Proof.
  intros [r ->]%has_prefix_app. unfold bytes_le. induction p as [|b p IH]; cbn; [by destruct r|]. by rewrite Z.compare_refl.
Qed.

Lemma prefix_convex p k r : bytes_le p k -> has_prefix k p = false -> bytes_lt (p ++ r) k.
Proof.
  unfold bytes_le, bytes_lt. revert k. induction p as [|b p IH]; intros [|c k] Hle Hp; try done.
  cbn [bytes_compare app has_prefix] in *. destruct (Z.compare_spec (byte_val b) (byte_val c)) as [E|E|E]; [|done|done].
  apply (inj byte_val) in E as ->. rewrite bool_decide_true in Hp by done. by apply IH.
Qed.

Lemma string_compare a b : compare (pkFromString a) (pkFromString b) = match bytes_compare a b with Lt => -1 | Gt => 1 | Eq => 0 end.
Proof. done. Qed.

Definition is_string (k : pkKey) : Prop := k = pkFromString (pk_s k).

Lemma pk_lt_string a b : is_string a -> is_string b -> pk_lt a b <-> bytes_lt (pk_s a) (pk_s b).
Proof.
  intros Ha Hb. rewrite Ha, Hb. unfold pk_lt, bytes_lt. rewrite string_compare. cbn [pk_s pkFromString].
  destruct (bytes_compare (pk_s a) (pk_s b)); split; (lia || done).
Qed.

(** * Lookup *)

Fixpoint take_prefix (p : bytes) (es : list entry) : list entry :=
  match es with
  | [] => []
  | e :: es => if has_prefix (pk_s (fst e)) p then e :: take_prefix p es else []
  end.

Lemma lookup_loop_ok t h p es fuel : forall it,
  tree_ok t h -> iter_at t it es -> (length es < fuel)%nat ->
  lookup_loop fuel t p it = Some (snd <$> take_prefix p es).
Proof.
  revert es. induction fuel as [|fuel IH]; intros es it Hok Hit Hf; [lia|]. cbn [lookup_loop].
  destruct (Next_ok _ _ _ _ Hok Hit) as (it' & -> & Hit'). cbn [mbind option_bind].
  destruct es as [|[k v] es]; [done|]. cbn [head tail take_prefix fst] in *.
  destruct (has_prefix (pk_s k) p); cbn [negb]; [|done]. rewrite (IH es); [done|done|done|cbn in Hf; lia].
Qed.

(** On sorted string keys, the scan from the prefix finds all keys that have it. *)
Lemma scan_finds_prefix p es :
  sorted es -> Forall (fun e => is_string (fst e)) es ->
  take_prefix p (m_from (pkFromString p) es) = filter (fun e => has_prefix (pk_s (fst e)) p = true) es.
Proof.
  induction 1 as [|[k v] es Hs IH Hk]; intros Hst; [done|]. apply Forall_cons in Hst as [Hks Hst]. cbn [fst] in *.
  cbn [m_from]. destruct (Z.ltb_spec (compare k (pkFromString p)) 0) as [Hlt|Hge].
  - rewrite filter_cons_False; [by apply IH|]. cbn [fst]. intros Hp%prefix_le.
    change (pk_lt k (pkFromString p)) in Hlt. rewrite pk_lt_string in Hlt by done. cbn [pk_s pkFromString] in Hlt.
    unfold bytes_le in Hp. rewrite (bytes_compare_antisym (pk_s k)), Hlt in Hp. done.
  - assert (bytes_le p (pk_s k)) as Hle.
    { rewrite Hks, string_compare in Hge. unfold bytes_le. rewrite (bytes_compare_antisym (pk_s k) p).
      destruct (bytes_compare (pk_s k) p); done. }
    cbn [take_prefix fst]. destruct (has_prefix (pk_s k) p) eqn:Ep.
    + rewrite filter_cons_True by done. f_equal. rewrite <- IH by done.
      destruct es as [|[k2 v2] es]; [done|]. cbn [m_from]. rewrite (proj2 (Z.ltb_ge _ _)); [done|].
      apply Forall_inv in Hk. cbn [fst] in Hk. pose proof (pk_le_lt_trans (pkFromString p) k k2 ltac:(lia) Hk) as H2.
      unfold pk_lt in H2. rewrite (compare_antisym (pkFromString p) k2). lia.
    + rewrite filter_cons_False by (cbn [fst]; congruence). symmetry. clear IH. induction es as [|[k2 v2] es IH2]; [done|]. rewrite filter_cons_False.
      * apply IH2; [by apply StronglySorted_inv in Hs as [? _]|by apply Forall_inv_tail in Hk|by apply Forall_inv_tail in Hst].
      * cbn [fst]. intros [r Hr]%has_prefix_app. apply Forall_inv in Hk, Hst. cbn [fst] in Hk, Hst.
        rewrite pk_lt_string in Hk by done. rewrite Hr in Hk.
        pose proof (prefix_convex p (pk_s k) r Hle Ep) as Hc. by apply (bytes_lt_irrefl (pk_s k)); transitivity (p ++ r).
Qed.

Lemma m_get_elem k v es : m_get k es = Some v -> exists k', (k', v) ∈ es /\ compare k' k = 0.
Proof.
  induction es as [|[k' v'] es IH]; cbn [m_get]; [done|]. destruct (Z.eqb_spec (compare k' k) 0) as [E|E].
  - intros [= ->]. exists k'. split; [by left|done].
  - intros (k2 & Hin & E2)%IH. exists k2. split; [by right|done].
Qed.

Lemma m_get_sorted k v es : sorted es -> (k, v) ∈ es -> m_get k es = Some v.
Proof.
  induction 1 as [|[k' v'] es Hs IH Hk]; intros Hin; [by apply elem_of_nil in Hin|]. cbn [m_get].
  apply elem_of_cons in Hin as [[= <- <-]|Hin]; [by rewrite compare_refl|].
  rewrite (proj2 (Z.eqb_neq _ _)); [by apply IH|]. rewrite Forall_forall in Hk. specialize (Hk _ Hin).
  unfold pk_lt in Hk. cbn [fst] in Hk. lia.
Qed.

Lemma string_key_eq a b : is_string a -> is_string b -> compare a b = 0 -> a = b.
Proof.
  intros Ha Hb. rewrite Ha, Hb, string_compare. cbn [pk_s pkFromString].
  destruct (bytes_compare (pk_s a) (pk_s b)) eqn:E; try done. intros _. apply bytes_compare_eq in E. by rewrite E.
Qed.

(** Looking a value up lists the entries under its prefix, in key order. *)
Lemma lookup_filter si h val :
  tree_ok (si_tree si) h -> Forall (fun e => is_string (fst e)) (entries (root (si_tree si))) ->
  lookup si val = Some (snd <$> filter (fun e => has_prefix (pk_s (fst e)) (pk_s (compositePrefix val)) = true) (entries (root (si_tree si)))).
Proof.
  intros Hok Hst. pose proof (wf_sorted _ _ _ _ _ (ok_wf _ _ Hok)) as Hs. set (es := entries (root (si_tree si))) in *.
  destruct (Seek_ok (si_tree si) h (compositePrefix val) Hok) as (it & Hit & Hat). unfold lookup. rewrite Hit.
  cbn [mbind option_bind]. fold es. erewrite lookup_loop_ok; [|exact Hok|exact Hat|].
  - unfold compositePrefix. fold es. by rewrite scan_finds_prefix.
  - apply Nat.lt_succ_r. fold es. generalize (compositePrefix val). intros k. clear.
    induction es as [|[k' v'] es IH]; cbn [m_from length]; [done|]. case_match; cbn [length]; lia.
Qed.

(** * Index histories *)

Inductive idx_op :=
  | IInsert (val : Value) (pk : pkKey) (rk : bytes)
  | IRemove (val : Value) (pk : pkKey).

Definition idx_step (si : option secondaryIdx) (op : idx_op) : option secondaryIdx :=
  si ← si;
  match op with
  | IInsert val pk rk => insert_entry si val pk rk
  | IRemove val pk => remove_entry si val pk
  end.

Definition idx_run (def : IndexDef) (ops : list idx_op) : option secondaryIdx :=
  foldl idx_step (Some (newSecondaryIdx def)) ops.

(** The row key the last operation on a value and a primary key left. *)
Definition idx_last (val : Value) (pk : pkKey) (ops : list idx_op) : option bytes :=
  foldl (fun r op =>
    match op with
    | IInsert val' pk' rk => if bool_decide (value_prefix val' = value_prefix val /\ pk' = pk) then Some rk else r
    | IRemove val' pk' => if bool_decide (value_prefix val' = value_prefix val /\ pk' = pk) then None else r
    end) None ops.

(** The primary keys of one table: all int64s or all strings. *)
Definition pk_kind (ints : bool) (pk : pkKey) : Prop := pk_ok pk /\ isInt pk = ints.

Definition op_clean (ints : bool) (op : idx_op) : Prop :=
  match op with IInsert val pk _ | IRemove val pk => clean val /\ pk_kind ints pk end.

Lemma formatPK_inj ints a b : pk_kind ints a -> pk_kind ints b -> formatPK a = formatPK b -> a = b.
Proof.
  intros [Ha Ia] [Hb Ib]. unfold formatPK, pk_ok in *. rewrite Ia, Ib in *. destruct a as [ia na sa], b as [ib nb sb].
  cbn [isInt pk_i pk_s] in *. subst ia ib. destruct ints.
  - destruct Ha as [Hna ->], Hb as [Hnb ->]. intros E. f_equal.
    apply (f_equal parseInt) in E. rewrite !parseInt_formatInt in E by done. by injection E.
  - by intros ->; subst.
Qed.

Lemma composite_eq ints val val' pk pk' :
  clean val -> clean val' -> pk_kind ints pk -> pk_kind ints pk' ->
  compare (compositeKey val' pk') (compositeKey val pk) =? 0 = bool_decide (value_prefix val' = value_prefix val /\ pk' = pk).
Proof.
  intros Hv Hv' Hp Hp'. destruct (Z.eqb_spec (compare (compositeKey val' pk') (compositeKey val pk)) 0) as [E|E].
  - apply string_key_eq in E; [|done|done]. injection E as E. apply nul_app_inj in E as [E1 E2]; [|done|done].
    rewrite bool_decide_true; [done|]. split; [done|]. by eapply formatPK_inj.
  - rewrite bool_decide_false; [done|]. intros [E1 ->]. apply E. unfold compositeKey. rewrite E1. apply compare_refl.
Qed.

Definition tree_op_of (op : idx_op) : tree_op :=
  match op with
  | IInsert val pk rk => TPut (compositeKey val pk) rk
  | IRemove val pk => TDelete (compositeKey val pk)
  end.

Lemma idx_run_tree def ops : idx_run def ops = t ← tree_run (tree_op_of <$> ops); Some (mkSec def t).
Proof.
  unfold idx_run, tree_run. induction ops as [|op ops IH] using rev_ind; [done|].
  rewrite fmap_app, !foldl_app, IH. cbn [foldl fmap list_fmap]. destruct (foldl tree_step (Some newBTree) (tree_op_of <$> ops)); [|done].
  by destruct op.
Qed.

Lemma last_write_idx ints val pk ops :
  clean val -> pk_kind ints pk -> Forall (op_clean ints) ops ->
  last_write (compositeKey val pk) (tree_op_of <$> ops) = idx_last val pk ops.
Proof.
  intros Hv Hp. unfold last_write, idx_last. induction ops as [|op ops IH] using rev_ind; intros Hops; [done|].
  apply Forall_app in Hops as [Hops Hop%Forall_inv]. rewrite fmap_app, !foldl_app. cbn [foldl fmap list_fmap].
  rewrite IH by done. destruct op as [val' pk' rk|val' pk']; destruct Hop; cbn [tree_op_of]; by rewrite (composite_eq ints).
Qed.

(** * Theorems *)


(** Whether an operation is on the entry with the composite key [ck]. *)
Definition op_key_of (op : idx_op) : pkKey := match op with IInsert val pk _ | IRemove val pk => compositeKey val pk end.

(** C40.  A NUL byte in an indexed text breaks the separation of values.  Whatever
    the index held before and whatever happens after it, as long as that entry is
    not touched again: a row indexed under the text s NUL x, for any texts s and x,
    is returned when the different text s is looked up. *)
Theorem secondary_nul_false_match def before s x pk rk after :
  Forall (fun op => op_key_of op <> compositeKey (TextValue (s ++ Byte.x00 :: x)) pk) after ->
  exists si rows, idx_run def (before ++ IInsert (TextValue (s ++ Byte.x00 :: x)) pk rk :: after) = Some si /\
  lookup si (TextValue s) = Some rows /\ rk ∈ rows /\ TextValue (s ++ Byte.x00 :: x) <> TextValue s.
Proof.
  intros Hafter. set (ck := compositeKey (TextValue (s ++ Byte.x00 :: x)) pk) in *.
  set (ops := before ++ _). destruct (tree_run_ok (tree_op_of <$> ops)) as (t & h & Hrun & Hok & Hget & _).
  destruct (tree_run_keys is_string (tree_op_of <$> ops) t) as [_ Hkeys]; [|done|].
  { apply Forall_fmap, Forall_forall. by intros [val' pk' rk'|val' pk'] _. }
  rewrite idx_run_tree, Hrun. cbn [mbind option_bind]. eexists _, _. split; [done|]. split; [by apply (lookup_filter (mkSec def t) h)|].
  split; [|intros [= E]; apply (f_equal length) in E; rewrite length_app in E; cbn in E; lia].
  assert (last_write ck (tree_op_of <$> ops) = Some rk) as Hl.
  { unfold last_write, ops. rewrite fmap_app, foldl_app. cbn [fmap list_fmap foldl tree_op_of]. fold ck. rewrite compare_refl. cbn [Z.eqb].
    clear Hkeys Hrun Hget. induction after as [|op after' IH] using rev_ind; [done|]. apply Forall_app in Hafter as [Ha Hop%Forall_inv].
    rewrite fmap_app, foldl_app, IH by done. cbn [fmap list_fmap foldl].
    destruct op as [val' pk' rk'|val' pk']; cbn [tree_op_of op_key_of] in *; (destruct (Z.eqb_spec (compare (compositeKey val' pk') ck) 0) as [E|]; [|done]);
      apply string_key_eq in E; done. }
  rewrite <- Hget in Hl. destruct (m_get_elem _ _ _ Hl) as (k' & Hin & E). rewrite Forall_forall in Hkeys.
  apply string_key_eq in E; [|by apply (Hkeys _ Hin)|done]. subst k'. apply list_elem_of_fmap. exists (ck, rk). split; [done|].
  apply list_elem_of_filter. split; [|done]. apply has_prefix_app. exists (x ++ Byte.x00 :: formatPK pk).
  unfold ck. cbn [fst compositeKey compositePrefix pkFromString pk_s value_prefix TextValue Typ Text]. by rewrite <- !app_assoc.
Qed.

Lemma secondary_nul_false_match_witness :
  exists si rows, idx_run (mkIndex (lit "i") (lit "t") (lit "c") [])
    ([IInsert (IntValue 5) (pkFromInt 2) (lit "row2")] ++ IInsert (TextValue (lit "a" ++ Byte.x00 :: lit "b")) (pkFromInt 1) (lit "row1") ::
     [IRemove (TextValue (lit "a")) (pkFromInt 1)]) = Some si /\
  lookup si (TextValue (lit "a")) = Some rows /\ lit "row1" ∈ rows /\ TextValue (lit "a" ++ Byte.x00 :: lit "b") <> TextValue (lit "a").
Proof. apply (secondary_nul_false_match (mkIndex (lit "i") (lit "t") (lit "c") [])). repeat constructor. discriminate. Defined.

