(* ===== verification/SqlAst.v ===== *)
(** The syntax of the SQL dialect (sql_ast.go).  A struct with a kind field is
    the inductive type of its kinds, each with the fields that kind uses. *)

From S2P Require Import Prelude Row Catalog.

Inductive expr :=
  | exprNull
  | exprInt (i : Z)
  | exprText (s : bytes)
  | exprBlob (blob : bytes)
  | exprParam (param : nat).

#[export] Instance expr_eq_dec : EqDecision expr.
Proof. solve_decision. Defined.

Inductive selectItem :=
  | selectStar
  | selectColumn (column : bytes)
  | selectExtract (column path : bytes).

Inductive pred :=
  | predColumn (column : bytes) (value : expr)
  | predExtract (column path : bytes) (value : expr).

Definition pred_value (w : pred) : expr :=
  match w with predColumn _ e | predExtract _ _ e => e end.

Definition pred_column (w : pred) : bytes :=
  match w with predColumn c _ | predExtract c _ _ => c end.

Record assign := mkAssign { as_column : bytes; as_value : expr }.

Inductive stmt :=
  | createTableStmt (name : bytes) (columns : list ColumnDef)
  | dropTableStmt (name : bytes)
  | insertStmt (table : bytes) (columns : list bytes) (values : list expr)
  | selectStmt (table : bytes) (columns : list selectItem) (where_ : list pred)
  | updateStmt (table : bytes) (sets : list assign) (where_ : list pred)
  | deleteStmt (table : bytes) (where_ : list pred)
  | createIndexStmt (index table column path : bytes)
  | dropIndexStmt (index : bytes).

(** The expressions of a statement, in the order of its text. *)
Definition stmt_exprs (st : stmt) : list expr :=
  match st with
  | insertStmt _ _ values => values
  | selectStmt _ _ ws => pred_value <$> ws
  | updateStmt _ sets ws => (as_value <$> sets) ++ (pred_value <$> ws)
  | deleteStmt _ ws => pred_value <$> ws
  | _ => []
  end.

Definition item_columns (it : selectItem) : list bytes :=
  match it with selectStar => [] | selectColumn c | selectExtract c _ => [c] end.

(** The names a statement uses: tables, indexes and columns. *)
Definition stmt_names (st : stmt) : list bytes :=
  match st with
  | createTableStmt name cols => name :: (col_Name <$> cols)
  | dropTableStmt name => [name]
  | insertStmt t cols _ => t :: cols
  | selectStmt t items ws => t :: (items ≫= item_columns) ++ (pred_column <$> ws)
  | updateStmt t sets ws => t :: (as_column <$> sets) ++ (pred_column <$> ws)
  | deleteStmt t ws => t :: (pred_column <$> ws)
  | createIndexStmt i t c _ => [i; t; c]
  | dropIndexStmt i => [i]
  end.
