(* ===== verification/SqlParse.v ===== *)
(** The parser (sql_parse.go): recursive descent over the lexer's tokens with
    one token of look-ahead, one definition per method.

    A method takes the parser and gives its result with the parser after it, or
    an error; after an error the source drops the parser.  The loops over
    separated lists take fuel and give [None] when it runs out, which
    [parse_total] shows never happens. *)

From S2P Require Import Prelude Utf8 Unicode Strconv Keys Page Row JsonBin SqlLex Wal Mvcc Catalog SqlAst.

Record parser := mkParser { p_l : lexer; tok : token; peek : token; hasP : bool; nArg : nat }.

Definition set_lexer (lx : lexer) (t : token) (p : parser) : parser := mkParser lx t (peek p) (hasP p) (nArg p).
Definition take_peek (p : parser) : parser := mkParser (p_l p) (peek p) (peek p) false (nArg p).
Definition set_nArg (n : nat) (p : parser) : parser := mkParser (p_l p) (tok p) (peek p) (hasP p) n.

(** * The monad of parsing methods *)

Definition PM (A : Type) : Type := parser -> option (res (A * parser)).

Definition pret {A} (x : A) : PM A := fun p => Some (Ok (x, p)).
Definition pfail {A} (e : error) : PM A := fun _ => Some (Err e).
Definition pbind {A B} (m : PM A) (k : A -> PM B) : PM B :=
  fun p => match m p with
           | None => None
           | Some (Err e) => Some (Err e)
           | Some (Ok (x, p)) => k x p
           end.

Declare Scope parser_scope.
Delimit Scope parser_scope with parser.
Notation "'let*' x := m 'in' k" := (pbind m (fun x => k))
  (at level 10, x pattern, m at level 100, k at level 200) : parser_scope.
Notation "'do*' m 'in' k" := (pbind m (fun _ => k))
  (at level 10, m at level 100, k at level 200) : parser_scope.
Open Scope parser_scope.

(** Read the current token. *)
Definition current : PM token := fun p => Some (Ok (tok p, p)).

(** [err != nil] of a call outside the parser, as a result. *)
Definition plift {A} (r : res A) : PM A := fun p => Some (match r with Ok x => Ok (x, p) | Err e => Err e end).

Section parsing.
Context `{U : Unicode}.

Definition advance : PM unit := fun p =>
  if hasP p then Some (Ok (tt, take_peek p))
  else match next (p_l p) with
       | (_, Err e) => Some (Err e)
       | (lx, Ok t) => Some (Ok (tt, set_lexer lx t p))
       end.

(** [p.tok.kind == tokKeyword && p.tok.kw == word]. *)
Definition at_keyword (word : bytes) (t : token) : bool :=
  bool_decide (kind t = tokKeyword) && bool_decide (kw t = word).

Definition at_kind (k : tokenKind) (t : token) : bool := bool_decide (kind t = k).

Definition expectKeyword (word : bytes) : PM unit :=
  let* t := current in
  if negb (at_keyword word t) then pfail ErrSQL else advance.

Definition expect (k : tokenKind) : PM unit :=
  let* t := current in
  if negb (at_kind k t) then pfail ErrSQL else advance.

Definition parseIdent : PM bytes :=
  let* t := current in
  match kind t with
  | tokIdent | tokKeyword => do* advance in pret (tok_lit t)
  | _ => pfail ErrSQL
  end.

(** hex.DecodeString. *)
Fixpoint hexDecode (s : bytes) : option bytes :=
  match s with
  | [] => Some []
  | [_] => None
  | h :: lo :: s =>
      match unhex h, unhex lo with
      | Some x, Some y => cons (byte_of (16 * x + y)) <$> hexDecode s
      | _, _ => None
      end
  end.

Definition next_param : PM nat := fun p => Some (Ok (nArg p, set_nArg (S (nArg p)) p)).

Definition parseExpr : PM expr :=
  let* t := current in
  match kind t with
  | tokParam =>
      let* idx := next_param in
      do* advance in
      pret (exprParam idx)
  | tokNumber =>
      match parseInt (tok_lit t) with
      | None => pfail ErrSQL
      | Some v => do* advance in pret (exprInt v)
      end
  | tokString => do* advance in pret (exprText (tok_lit t))
  | tokBlob =>
      match hexDecode (tok_lit t) with
      | None => pfail ErrSQL
      | Some b => do* advance in pret (exprBlob b)
      end
  | tokKeyword =>
      if bool_decide (kw t = lit "NULL") then do* advance in pret exprNull
      else pfail ErrSQL
  | _ => pfail ErrSQL
  end.

(** The loops of the source: one [item], then more after every separator. *)
Fixpoint separated {A} (fuel : nat) (sep : token -> bool) (item : PM A) : PM (list A) :=
  match fuel with
  | O => fun _ => None
  | S fuel =>
      let* x := item in
      let* t := current in
      if sep t then
        do* advance in
        let* xs := separated fuel sep item in
        pret (x :: xs)
      else pret [x]
  end.

(** Every turn of a loop reads a separator, at least one byte. *)
Definition loop {A} (sep : token -> bool) (item : PM A) : PM (list A) :=
  fun p => separated (S (length (lx_src (p_l p)))) sep item p.

Definition columnType (word : bytes) : option ColType :=
  if bool_decide (word = lit "INTEGER") then Some TypeInteger
  else if bool_decide (word = lit "TEXT") then Some TypeText
  else if bool_decide (word = lit "BLOB") then Some TypeBlob
  else if bool_decide (word = lit "JSON") then Some TypeJSON
  else None.

Definition parseColumnDef : PM ColumnDef :=
  let* name := parseIdent in
  let* t := current in
  if negb (at_kind tokKeyword t) then pfail ErrSQL
  else match columnType (kw t) with
  | None => pfail ErrSQL
  | Some typ =>
      do* advance in
      let* t := current in
      let* pk :=
        if at_keyword (lit "PRIMARY") t then
          do* advance in
          do* expectKeyword (lit "KEY") in
          pret true
        else pret false in
      if pk && negb (bool_decide (typ = TypeInteger)) && negb (bool_decide (typ = TypeText)) then pfail ErrSQL
      else pret (mkColumn name typ pk)
  end.

(** A string token with a valid JSON path, and the check that follows it. *)
Definition parsePath : PM bytes :=
  let* t := current in
  if negb (at_kind tokString t) then pfail ErrSQL
  else
    do* advance in
    do* plift (parseJSONPath (tok_lit t)) in
    pret (tok_lit t).

Definition parseCreateIndex : PM stmt :=
  do* expectKeyword (lit "INDEX") in
  let* name := parseIdent in
  do* expectKeyword (lit "ON") in
  let* table := parseIdent in
  do* expect tokLParen in
  let* col := parseIdent in
  let* t := current in
  if at_kind tokComma t then pfail ErrSQL
  else
    do* expect tokRParen in
    let* t := current in
    let* path := if at_keyword (lit "PATH") t then do* advance in parsePath else pret [] in
    pret (createIndexStmt name table col path).

(** [pkCount]: the columns marked as primary key. *)
Definition pkCount (cols : list ColumnDef) : nat := length (filter (fun c => col_PK c = true) cols).

Definition parseCreate : PM stmt :=
  do* expectKeyword (lit "CREATE") in
  let* t := current in
  if at_keyword (lit "INDEX") t then parseCreateIndex
  else
    do* expectKeyword (lit "TABLE") in
    let* name := parseIdent in
    do* expect tokLParen in
    let* cols := loop (at_kind tokComma) parseColumnDef in
    do* expect tokRParen in
    if negb (pkCount cols =? 1)%nat then pfail ErrSQL
    else pret (createTableStmt name cols).

Definition parseDropIndex : PM stmt :=
  do* expectKeyword (lit "INDEX") in
  let* name := parseIdent in
  pret (dropIndexStmt name).

Definition parseDrop : PM stmt :=
  do* expectKeyword (lit "DROP") in
  let* t := current in
  if at_keyword (lit "INDEX") t then parseDropIndex
  else
    do* expectKeyword (lit "TABLE") in
    let* name := parseIdent in
    pret (dropTableStmt name).

Definition parseInsert : PM stmt :=
  do* expectKeyword (lit "INSERT") in
  do* expectKeyword (lit "INTO") in
  let* table := parseIdent in
  let* t := current in
  let* cols :=
    if at_kind tokLParen t then
      do* advance in
      let* cols := loop (at_kind tokComma) parseIdent in
      do* expect tokRParen in
      pret cols
    else pret [] in
  do* expectKeyword (lit "VALUES") in
  do* expect tokLParen in
  let* vals := loop (at_kind tokComma) parseExpr in
  do* expect tokRParen in
  pret (insertStmt table cols vals).

Definition parseJSONExtractCall : PM (bytes * bytes) :=
  do* expectKeyword (lit "JSON_EXTRACT") in
  do* expect tokLParen in
  let* col := parseIdent in
  do* expect tokComma in
  let* path := parsePath in
  do* expect tokRParen in
  pret (col, path).

Definition parseSelectItem : PM selectItem :=
  let* t := current in
  if at_keyword (lit "JSON_EXTRACT") t then
    let* (col, path) := parseJSONExtractCall in
    pret (selectExtract col path)
  else
    let* c := parseIdent in
    pret (selectColumn c).

Definition parsePred : PM pred :=
  let* t := current in
  if at_keyword (lit "JSON_EXTRACT") t then
    let* (col, path) := parseJSONExtractCall in
    do* expect tokEq in
    let* e := parseExpr in
    pret (predExtract col path e)
  else
    let* col := parseIdent in
    do* expect tokEq in
    let* e := parseExpr in
    pret (predColumn col e).

Definition parseWhereOptional : PM (list pred) :=
  let* t := current in
  if negb (at_keyword (lit "WHERE") t) then pret []
  else
    do* advance in
    loop (at_keyword (lit "AND")) parsePred.

Definition parseSelect : PM stmt :=
  do* expectKeyword (lit "SELECT") in
  let* t := current in
  let* cols :=
    if at_kind tokStar t then do* advance in pret [selectStar]
    else loop (at_kind tokComma) parseSelectItem in
  do* expectKeyword (lit "FROM") in
  let* table := parseIdent in
  let* ws := parseWhereOptional in
  pret (selectStmt table cols ws).

Definition parseAssign : PM assign :=
  let* col := parseIdent in
  do* expect tokEq in
  let* e := parseExpr in
  pret (mkAssign col e).

Definition parseUpdate : PM stmt :=
  do* expectKeyword (lit "UPDATE") in
  let* table := parseIdent in
  do* expectKeyword (lit "SET") in
  let* sets := loop (at_kind tokComma) parseAssign in
  let* ws := parseWhereOptional in
  pret (updateStmt table sets ws).

Definition parseDelete : PM stmt :=
  do* expectKeyword (lit "DELETE") in
  do* expectKeyword (lit "FROM") in
  let* table := parseIdent in
  let* ws := parseWhereOptional in
  pret (deleteStmt table ws).

Definition parseStmt : PM stmt :=
  let* t := current in
  if negb (at_kind tokKeyword t) then pfail ErrSQL
  else if bool_decide (kw t = lit "CREATE") then parseCreate
  else if bool_decide (kw t = lit "DROP") then parseDrop
  else if bool_decide (kw t = lit "INSERT") then parseInsert
  else if bool_decide (kw t = lit "SELECT") then parseSelect
  else if bool_decide (kw t = lit "UPDATE") then parseUpdate
  else if bool_decide (kw t = lit "DELETE") then parseDelete
  else pfail ErrSQL.

Definition zeroToken : token := mkTok tokEOF [] 0 [].

(** The statement, an optional semicolon and the end of the input. *)
Definition parseAll : PM stmt :=
  do* advance in
  let* st := parseStmt in
  let* t := current in
  do* (if at_kind tokSemi t then advance else pret tt) in
  let* t := current in
  if negb (at_kind tokEOF t) then pfail ErrSQL else pret st.

Definition parseSQL (src : bytes) : option (res stmt) :=
  match parseAll (mkParser (newLexer src) zeroToken zeroToken false 0) with
  | None => None
  | Some (Err e) => Some (Err e)
  | Some (Ok (st, _)) => Some (Ok st)
  end.

Definition normalizeName (s : bytes) : bytes := toLower s.

End parsing.
