(* ===== verification/SqlParseSpec.v ===== *)
(** What the parser promises: it always answers, its only error is a syntax
    error, and an accepted statement has the shape the executor relies on.

    The proofs are in weakest-precondition style: [wp m Q p] says that method
    [m] at parser [p] answers with an error of the dialect or with a result and
    a parser that satisfy [Q]. *)

From S2P Require Import Prelude Utf8 Unicode Strconv Keys Page Row JsonBin SqlLex Wal Mvcc Catalog SqlAst SqlParse.

(** * The shape of accepted statements *)

(** [numbered n es n']: the parameters among [es] are numbered from [n] in order, up to [n']. *)
Fixpoint numbered (n : nat) (es : list expr) (n' : nat) : Prop :=
  match es with
  | [] => n' = n
  | exprParam k :: es => k = n /\ numbered (S n) es n'
  | _ :: es => numbered n es n'
  end.

Definition is_param (e : expr) : bool := match e with exprParam _ => true | _ => false end.

Definition param_count (es : list expr) : nat := length (filter (fun e => is_param e = true) es).

Definition expr_ok (e : expr) : Prop := match e with exprInt i => in_i64 i | _ => True end.

Section shape.
Context `{U : Unicode}.

Definition path_ok (path : bytes) : Prop := exists segs, parseJSONPath path = Ok segs.

Definition column_shape (c : ColumnDef) : Prop :=
  storable_type (col_Type c) /\ (col_PK c = true -> col_Type c = TypeInteger \/ col_Type c = TypeText).

Definition item_shape (it : selectItem) : Prop :=
  match it with selectExtract _ path => path_ok path | _ => True end.

Definition pred_shape (w : pred) : Prop :=
  match w with predExtract _ path _ => path_ok path | _ => True end.

Definition parts_shape (st : stmt) : Prop :=
  match st with
  | createTableStmt _ cols => pkCount cols = 1%nat /\ Forall column_shape cols
  | insertStmt _ _ values => values <> []
  | selectStmt _ items ws => items <> [] /\ Forall item_shape items /\ Forall pred_shape ws
  | updateStmt _ sets ws => sets <> [] /\ Forall pred_shape ws
  | deleteStmt _ ws => Forall pred_shape ws
  | createIndexStmt _ _ _ path => path = [] \/ path_ok path
  | _ => True
  end.

Record stmt_shape (st : stmt) : Prop := {
  shape_names : Forall no_slash (stmt_names st);
  shape_params : numbered 0 (stmt_exprs st) (param_count (stmt_exprs st));
  shape_ints : Forall expr_ok (stmt_exprs st);
  shape_parts : parts_shape st;
}.

(** * Weakest preconditions *)

Definition wp {A} (m : PM A) (Q : A -> parser -> Prop) (p : parser) : Prop :=
  exists r, m p = Some r /\ match r with Err e => e = ErrSQL | Ok (x, p') => Q x p' end.

Lemma wp_ret {A} (x : A) Q p : Q x p -> wp (pret x) Q p.
Proof. intros H. by eexists. Qed.

Lemma wp_fail {A} (Q : A -> parser -> Prop) p : wp (pfail ErrSQL) Q p.
Proof. by eexists. Qed.

Lemma wp_current Q p : Q (tok p) p -> wp current Q p.
Proof. intros H. by eexists. Qed.

Lemma wp_bind {A B} (m : PM A) (k : A -> PM B) Q p : wp m (fun x p' => wp (k x) Q p') p -> wp (pbind m k) Q p.
Proof.
  intros (r & E & H). unfold wp, pbind. rewrite E. destruct r as [[x p']|e]; [done|]. by eexists.
Qed.

Lemma wp_mono {A} (m : PM A) (Q Q' : A -> parser -> Prop) p : (forall x p', Q x p' -> Q' x p') -> wp m Q p -> wp m Q' p.
Proof. intros HQ (r & E & H). exists r. split; [done|]. destruct r as [[x p']|]; auto. Qed.

(** * Progress *)

Definition rem (p : parser) : nat := length (lx_src (p_l p)) - lx_i (p_l p).

(** Between methods there is no peeked token, the position is inside the text
    and a current word holds no slash. *)
Record pwf (p : parser) : Prop := {
  pwf_peek : hasP p = false;
  pwf_pos : (lx_i (p_l p) <= length (lx_src (p_l p)))%nat;
  pwf_word : is_word (tok p) -> no_slash (tok_lit (tok p));
}.

(** A token that was read from at least one byte. *)
Definition live (t : token) : Prop := kind t <> tokEOF /\ kind t <> tokNumber.

Record adv (p p' : parser) : Prop := {
  adv_wf : pwf p';
  adv_src : lx_src (p_l p') = lx_src (p_l p);
  adv_rem : (rem p' <= rem p)%nat;
  adv_live : live (tok p') -> (rem p' < rem p)%nat;
}.

Lemma adv_trans p p1 p2 : adv p p1 -> adv p1 p2 -> adv p p2.
Proof.
  intros [W1 S1 R1 L1] [W2 S2 R2 L2]. split; [done|congruence|lia|]. intros H. specialize (L2 H). lia.
Qed.

Lemma adv_nArg p n p' : adv (set_nArg n p) p' -> adv p p'.
Proof. by intros [??? ?]. Qed.

Lemma advance_wp Q p :
  pwf p -> (forall p', adv p p' -> nArg p' = nArg p -> Q tt p') -> wp advance Q p.
Proof.
  intros [Hp Hi Hw] HQ. unfold wp, advance. rewrite Hp. destruct (next (p_l p)) as [lx r] eqn:En.
  pose proof (next_spec _ _ _ Hi En) as (Hs & Hb & Hr).
  destruct r as [t|e]; [|by eexists]. eexists. split; [done|]. apply HQ; [|done].
  assert (lx_i lx <= length (lx_src lx))%nat as Hle by (rewrite Hs; lia). split.
  - split; [done|done|]. cbn [set_lexer tok]. by apply (next_word_no_slash (p_l p) lx).
  - done.
  - unfold rem. cbn [set_lexer p_l]. rewrite Hs. lia.
  - unfold rem. cbn [set_lexer p_l tok]. rewrite Hs. intros [H1 H2].
    destruct Hr as [Hr|[Hr|Hr]]; [done..|]. lia.
Qed.

(** * Methods *)

Lemma expectKeyword_wp word Q p :
  pwf p -> (forall p', adv p p' -> nArg p' = nArg p -> Q tt p') -> wp (expectKeyword word) Q p.
Proof. intros Hp HQ. apply wp_bind, wp_current. case_match; [apply wp_fail|by apply advance_wp]. Qed.

Lemma expect_wp k Q p :
  pwf p -> (forall p', adv p p' -> nArg p' = nArg p -> Q tt p') -> wp (expect k) Q p.
Proof. intros Hp HQ. apply wp_bind, wp_current. case_match; [apply wp_fail|by apply advance_wp]. Qed.

Lemma parseIdent_wp Q p :
  pwf p -> (forall x p', adv p p' -> nArg p' = nArg p -> no_slash x -> Q x p') -> wp parseIdent Q p.
Proof.
  intros Hp HQ. apply wp_bind, wp_current. pose proof (pwf_word p Hp) as Hw. unfold is_word in Hw.
  destruct (kind (tok p)); try apply wp_fail; apply wp_bind, advance_wp; [done| |done|];
    intros p' Ha Hn; apply wp_ret, HQ; auto.
Qed.

Lemma parseExpr_wp Q p :
  pwf p ->
  (forall e p', adv p p' -> numbered (nArg p) [e] (nArg p') -> expr_ok e -> Q e p') -> wp parseExpr Q p.
Proof.
  intros Hp HQ. apply wp_bind, wp_current. destruct (kind (tok p)); try apply wp_fail.
  - destruct (parseInt _) as [v|] eqn:E; [|apply wp_fail]. apply wp_bind, advance_wp; [done|].
    intros p' Ha Hn. apply wp_ret, HQ; [done|done|]. by eapply parseInt_range.
  - apply wp_bind, advance_wp; [done|]. intros p' Ha Hn. by apply wp_ret, HQ.
  - destruct (hexDecode _); [|apply wp_fail]. apply wp_bind, advance_wp; [done|]. intros p' Ha Hn. by apply wp_ret, HQ.
  - apply wp_bind. eexists. split; [done|]. apply wp_bind, advance_wp; [by destruct Hp|]. intros p' Ha Hn.
    apply wp_ret, HQ; [by eapply adv_nArg|by split|done].
  - case_bool_decide; [|apply wp_fail]. apply wp_bind, advance_wp; [done|]. intros p' Ha Hn. by apply wp_ret, HQ.
Qed.

(** A relation between parameter counters, threaded through a list. *)
Fixpoint threaded {A} (R : nat -> A -> nat -> Prop) (n : nat) (xs : list A) (n' : nat) : Prop :=
  match xs with
  | [] => n' = n
  | x :: xs => exists m, R n x m /\ threaded R m xs n'
  end.

Section lists.
Context {A : Type} (sep : token -> bool) (item : PM A) (R : nat -> A -> nat -> Prop).
Hypothesis sep_live : forall t, sep t = true -> live t.
Hypothesis item_wp : forall Q p, pwf p -> (forall x p', adv p p' -> R (nArg p) x (nArg p') -> Q x p') -> wp item Q p.

Lemma separated_wp fuel Q p :
  pwf p -> (rem p < fuel)%nat ->
  (forall xs p', adv p p' -> xs <> [] -> threaded R (nArg p) xs (nArg p') -> Q xs p') ->
  wp (separated fuel sep item) Q p.
Proof.
  revert Q p. induction fuel as [|fuel IH]; intros Q p Hp Hf HQ; [lia|]. cbn [separated].
  apply wp_bind, item_wp; [done|]. intros x p1 H1 R1. apply wp_bind, wp_current. destruct (sep (tok p1)) eqn:Es.
  - apply wp_bind, advance_wp; [apply H1|]. intros p2 H2 N2. apply wp_bind, IH; [apply H2| |].
    + apply sep_live, (adv_live _ _ H1) in Es. pose proof (adv_rem _ _ H2). lia.
    + intros xs p3 H3 _ R3. apply wp_ret, HQ; [|done|exists (nArg p1); split; [done|by rewrite <- N2]].
      eapply adv_trans; [exact H1|]. by eapply adv_trans.
  - apply wp_ret, HQ; [done|done|by exists (nArg p1)].
Qed.

Lemma loop_wp Q p :
  pwf p ->
  (forall xs p', adv p p' -> xs <> [] -> threaded R (nArg p) xs (nArg p') -> Q xs p') ->
  wp (loop sep item) Q p.
Proof. intros Hp HQ. unfold loop. apply separated_wp; [done|unfold rem; lia|done]. Qed.
End lists.

Lemma comma_live t : at_kind tokComma t = true -> live t.
Proof. unfold at_kind, live. intros ->%bool_decide_eq_true_1. done. Qed.

Lemma keyword_live word t : at_keyword word t = true -> live t.
Proof. unfold at_keyword, live. intros [->%bool_decide_eq_true_1 _]%andb_true_iff. done. Qed.

(** Lists without expressions leave the counter alone. *)
Lemma threaded_plain {A} (P : A -> Prop) n xs n' :
  threaded (fun n x n' => n' = n /\ P x) n xs n' -> n' = n /\ Forall P xs.
Proof.
  revert n. induction xs as [|x xs IH]; intros n; cbn [threaded]; [by intros ->|].
  intros (m & [-> Hx] & [-> Hxs]%IH). split; [done|by constructor].
Qed.

Lemma numbered_app n es es' n' : numbered n (es ++ es') n' <-> exists m, numbered n es m /\ numbered m es' n'.
Proof.
  revert n. induction es as [|e es IH]; intros n; cbn [numbered app].
  - split; [eauto|]. by intros (m & -> & ?).
  - destruct e; rewrite IH; naive_solver.
Qed.

Lemma numbered_count n es n' : numbered n es n' -> n' = (n + param_count es)%nat.
Proof.
  revert n. induction es as [|e es IH]; intros n; cbn [numbered]; [intros ->; unfold param_count; simpl; lia|].
  unfold param_count in *. rewrite filter_cons.
  destruct e; cbn [is_param]; case_decide; try done; try apply IH. intros [_ ->%IH]. cbn [length]. lia.
Qed.

(** Lists of items that hold one expression each. *)
Lemma threaded_exprs {A} (value : A -> expr) (P : A -> Prop) n xs n' :
  threaded (fun n x n' => numbered n [value x] n' /\ expr_ok (value x) /\ P x) n xs n' ->
  numbered n (value <$> xs) n' /\ Forall expr_ok (value <$> xs) /\ Forall P xs.
Proof.
  revert n. induction xs as [|x xs IH]; intros n; cbn [threaded]; [by intros ->|].
  intros (m & (Hn & He & Hx) & (Hm & Hf & Hp)%IH). split; [|split; by constructor].
  change (value <$> x :: xs) with ([value x] ++ (value <$> xs)). apply numbered_app. eauto.
Qed.

Lemma parseJSONPath_err path e : parseJSONPath path = Err e -> e = ErrSQL.
Proof.
  unfold parseJSONPath. assert (forall parts e, check_parts parts = Err e -> e = ErrSQL) as Hc.
  { induction parts as [|x parts IH]; intros e'; cbn [check_parts]; [done|]. repeat case_match; naive_solver. }
  repeat case_match; try naive_solver. destruct (check_parts _) eqn:E; cbn [rbind]; [done|]. intros [= <-]. by eapply Hc.
Qed.

(** The parser after a method is well-formed. *)
Ltac pwf_done := first [assumption | eapply adv_wf; eassumption].

(** One method call: its specification, with the results introduced. *)
Ltac call lem := apply lem; [pwf_done|intros].
Ltac pstep :=
  cbn beta iota;
  lazymatch goal with
  | |- wp (pret _) _ _ => apply wp_ret
  | |- wp (pfail _) _ _ => apply wp_fail
  | |- wp advance _ _ => call advance_wp
  | |- wp (expectKeyword _) _ _ => call expectKeyword_wp
  | |- wp (expect _) _ _ => call expect_wp
  | |- wp parseIdent _ _ => call parseIdent_wp
  | |- wp parseExpr _ _ => call parseExpr_wp
  | |- wp current _ _ => apply wp_current
  | |- wp (pbind _ _) _ _ => apply wp_bind
  | |- wp (if _ then _ else _) _ _ => case_match
  end.

(** Progress over several calls. *)
Ltac adv_done := repeat match goal with H : adv ?p ?q |- adv ?p ?q => exact H | H : adv ?p ?q |- adv ?p _ => apply (adv_trans p q); [exact H|clear H] end.

Lemma parsePath_wp Q p :
  pwf p -> (forall x p', adv p p' -> nArg p' = nArg p -> path_ok x -> Q x p') -> wp parsePath Q p.
Proof.
  intros Hp HQ. unfold parsePath. repeat pstep. unfold plift, wp.
  destruct (parseJSONPath (tok_lit (tok p))) as [segs|e] eqn:E.
  - eexists. split; [done|]. apply wp_ret, HQ; [done..|by eexists].
  - eexists. split; [done|]. by eapply parseJSONPath_err.
Qed.

Lemma parseColumnDef_wp Q p :
  pwf p -> (forall c p', adv p p' -> nArg p' = nArg p /\ no_slash (col_Name c) /\ column_shape c -> Q c p') ->
  wp parseColumnDef Q p.
Proof.
  intros Hp HQ. unfold parseColumnDef. repeat pstep.
  destruct (columnType _) as [typ|] eqn:Et; [|pstep].
  assert (storable_type typ) as Hs by (unfold columnType in Et; repeat case_match; by simplify_eq).
  repeat pstep; (apply HQ; [adv_done|]); (split; [congruence|]); (split; [done|]); (split; [done|]); cbn [col_PK col_Type]; [|done].
  intros _. destruct (decide (typ = TypeInteger)); [by left|]. destruct (decide (typ = TypeText)); [by right|].
  match goal with H : true && _ && _ = false |- _ => by rewrite !bool_decide_false in H by done end.
Qed.

Lemma parseJSONExtractCall_wp Q p :
  pwf p ->
  (forall x p', adv p p' -> nArg p' = nArg p -> no_slash (fst x) -> path_ok (snd x) -> Q x p') ->
  wp parseJSONExtractCall Q p.
Proof.
  intros Hp HQ. unfold parseJSONExtractCall. repeat pstep. call parsePath_wp. repeat pstep.
  apply HQ; [adv_done|congruence|done..].
Qed.

Lemma parseSelectItem_wp Q p :
  pwf p ->
  (forall x p', adv p p' -> nArg p' = nArg p /\ Forall no_slash (item_columns x) /\ item_shape x -> Q x p') ->
  wp parseSelectItem Q p.
Proof.
  intros Hp HQ. unfold parseSelectItem. repeat pstep.
  - call parseJSONExtractCall_wp. destruct x as [col path]. pstep. apply HQ; [adv_done|].
    split; [done|]. split; [by constructor|done].
  - apply HQ; [adv_done|]. split; [done|]. split; [by constructor|done].
Qed.

Lemma parsePred_wp Q p :
  pwf p ->
  (forall x p', adv p p' ->
     numbered (nArg p) [pred_value x] (nArg p') /\ expr_ok (pred_value x) /\ no_slash (pred_column x) /\ pred_shape x -> Q x p') ->
  wp parsePred Q p.
Proof.
  intros Hp HQ. unfold parsePred. repeat pstep.
  - call parseJSONExtractCall_wp. destruct x as [col path]. cbn [fst snd] in *. repeat pstep. apply HQ; [adv_done|].
    cbn [pred_value pred_column pred_shape]. split; [|done]. congruence.
  - apply HQ; [adv_done|]. cbn [pred_value pred_column pred_shape]. split; [|done]. congruence.
Qed.

Lemma parseAssign_wp Q p :
  pwf p ->
  (forall x p', adv p p' ->
     numbered (nArg p) [as_value x] (nArg p') /\ expr_ok (as_value x) /\ no_slash (as_column x) -> Q x p') ->
  wp parseAssign Q p.
Proof.
  intros Hp HQ. unfold parseAssign. repeat pstep. apply HQ; [adv_done|]. cbn [as_value as_column]. split; [|done]. congruence.
Qed.

(** * Statements *)

Definition parsed (st : stmt) (n n' : nat) : Prop :=
  Forall no_slash (stmt_names st) /\ numbered n (stmt_exprs st) n' /\ Forall expr_ok (stmt_exprs st) /\ parts_shape st.

Definition stmt_wp (m : PM stmt) : Prop :=
  forall Q p, pwf p -> (forall st p', adv p p' -> parsed st (nArg p) (nArg p') -> Q st p') -> wp m Q p.

Lemma parseWhereOptional_wp Q p :
  pwf p ->
  (forall ws p', p' = p /\ ws = [] \/ adv p p' ->
     numbered (nArg p) (pred_value <$> ws) (nArg p') -> Forall expr_ok (pred_value <$> ws) ->
     Forall no_slash (pred_column <$> ws) -> Forall pred_shape ws -> Q ws p') ->
  wp parseWhereOptional Q p.
Proof.
  intros Hp HQ. unfold parseWhereOptional. repeat pstep; [apply HQ; by auto|].
  apply (loop_wp _ _ (fun n x n' => numbered n [pred_value x] n' /\ expr_ok (pred_value x) /\ (no_slash (pred_column x) /\ pred_shape x))
           (keyword_live _) parsePred_wp); [pwf_done|].
  intros ws p2 H2 _ (Hn & He & Hs)%threaded_exprs. apply Forall_and in Hs as [Hs1 Hs2].
  apply HQ; [right; adv_done|congruence|done|by apply Forall_fmap|done].
Qed.

Lemma parseIdents_wp Q p :
  pwf p -> (forall xs p', adv p p' -> nArg p' = nArg p -> Forall no_slash xs -> Q xs p') ->
  wp (loop (at_kind tokComma) parseIdent) Q p.
Proof.
  intros Hp HQ. apply (loop_wp _ _ (fun n x n' => n' = n /\ no_slash x) comma_live); [|done|].
  - intros Q' q Hq HQ'. pstep. auto.
  - intros xs p' H _ [Hn Hx]%threaded_plain. by apply HQ.
Qed.

Lemma parseExprs_wp Q p :
  pwf p ->
  (forall es p', adv p p' -> es <> [] -> numbered (nArg p) es (nArg p') -> Forall expr_ok es -> Q es p') ->
  wp (loop (at_kind tokComma) parseExpr) Q p.
Proof.
  intros Hp HQ. apply (loop_wp _ _ (fun n x n' => numbered n [id x] n' /\ expr_ok (id x) /\ True) comma_live); [|done|].
  - intros Q' q Hq HQ'. pstep. auto.
  - intros xs p' H Hne (Hn & He & _)%threaded_exprs. rewrite list_fmap_id in *. by apply HQ.
Qed.

(** Close a statement: the names and expressions it collected. *)
Ltac stmt_done :=
  match goal with HQ : forall st p', adv _ p' -> parsed st _ _ -> ?Q st p' |- ?Q _ _ => apply HQ; [adv_done|] end;
  unfold parsed; cbn [stmt_names stmt_exprs parts_shape numbered];
  repeat split; repeat (apply Forall_cons; split); try apply Forall_app; try done; auto with congruence.

Lemma parseCreateIndex_wp : stmt_wp parseCreateIndex.
Proof.
  intros Q p Hp HQ. unfold parseCreateIndex. repeat pstep.
  - call parsePath_wp. repeat pstep. stmt_done.
  - stmt_done.
Qed.

Lemma parseCreate_wp : stmt_wp parseCreate.
Proof.
  intros Q p Hp HQ. unfold parseCreate. repeat pstep.
  - apply parseCreateIndex_wp; [pwf_done|]. intros st q Hq Hst. apply HQ; [adv_done|]. congruence.
  - eapply (loop_wp _ _ (fun n c n' => n' = n /\ (no_slash (col_Name c) /\ column_shape c)) comma_live parseColumnDef_wp); [pwf_done|].
    intros cols q Hq _ [Hn [Hc Hs]%Forall_and]%threaded_plain. repeat pstep. stmt_done.
    + by apply Forall_fmap.
    + by apply Nat.eqb_eq, negb_false_iff.
Qed.

Lemma parseDrop_wp : stmt_wp parseDrop.
Proof. intros Q p Hp HQ. unfold parseDrop, parseDropIndex. repeat pstep; stmt_done. Qed.

Lemma parseInsert_wp : stmt_wp parseInsert.
Proof.
  intros Q p Hp HQ. unfold parseInsert. repeat pstep; [call parseIdents_wp; repeat pstep|];
    (apply parseExprs_wp; [pwf_done|]; intros es q Hq Hne Hn He; repeat pstep; stmt_done).
Qed.

Lemma parseSelect_wp : stmt_wp parseSelect.
Proof.
  intros Q p Hp HQ. unfold parseSelect. repeat pstep.
  - apply parseWhereOptional_wp; [pwf_done|]. intros ws q Hq Hn He Hc Hs. pstep.
    destruct Hq as [[-> ->]|Hq]; stmt_done.
  - eapply (loop_wp _ _ (fun n x n' => n' = n /\ (Forall no_slash (item_columns x) /\ item_shape x)) comma_live parseSelectItem_wp); [pwf_done|].
    intros items q Hq Hne [Hn [Hc Hs]%Forall_and]%threaded_plain. repeat pstep.
    apply parseWhereOptional_wp; [pwf_done|]. intros ws q' Hq' Hn' He Hc' Hs'. pstep.
    assert (Forall no_slash (items ≫= item_columns)) as Hi.
    { clear -Hc. induction Hc; [constructor|]. rewrite bind_cons. by apply Forall_app. }
    destruct Hq' as [[-> ->]|Hq']; stmt_done.
Qed.

Lemma parseUpdate_wp : stmt_wp parseUpdate.
Proof.
  intros Q p Hp HQ. unfold parseUpdate. repeat pstep.
  eapply (loop_wp _ _ (fun n x n' => numbered n [as_value x] n' /\ expr_ok (as_value x) /\ no_slash (as_column x)) comma_live parseAssign_wp); [pwf_done|].
  intros sets q Hq Hne (Hn & He & Hc)%threaded_exprs. repeat pstep.
  apply parseWhereOptional_wp; [pwf_done|]. intros ws q' Hq' Hn' He' Hc' Hs'. pstep.
  assert (Forall no_slash (as_column <$> sets)) by (by apply Forall_fmap).
  destruct Hq' as [[-> ->]|Hq']; stmt_done; apply numbered_app; exists (nArg q); split; congruence.
Qed.

Lemma parseDelete_wp : stmt_wp parseDelete.
Proof.
  intros Q p Hp HQ. unfold parseDelete. repeat pstep.
  apply parseWhereOptional_wp; [pwf_done|]. intros ws q Hq Hn He Hc Hs. pstep.
  destruct Hq as [[-> ->]|Hq]; stmt_done.
Qed.

Lemma parseStmt_wp : stmt_wp parseStmt.
Proof.
  intros Q p Hp HQ. unfold parseStmt. repeat pstep; [apply parseCreate_wp|apply parseDrop_wp|apply parseInsert_wp|
    apply parseSelect_wp|apply parseUpdate_wp|apply parseDelete_wp]; done.
Qed.

Lemma parseSQL_total (src : bytes) :
  exists r, parseSQL src = Some r /\ match r with Ok st => stmt_shape st | Err e => e = ErrSQL end.
Proof.
  set (p := mkParser (newLexer src) zeroToken zeroToken false 0).
  assert (pwf p) as Hp by (split; [done|simpl; lia|by intros [?|?]]).
  assert (wp parseAll (fun st p' => parsed st 0 (nArg p')) p) as (r & E & Hr).
  { unfold parseAll. pstep. pstep. pstep. apply parseStmt_wp; [pwf_done|]. intros st q Hq Hst.
    assert (forall m, nArg m = nArg q -> parsed st 0 (nArg m)) as Hm by (intros m ->; by rewrite H0 in Hst).
    repeat pstep; by apply Hm. }
  unfold parseSQL. fold p. rewrite E. destruct r as [[st p']|e]; [|by eexists].
  eexists. split; [done|]. destruct Hr as (H1 & H2 & H3 & H4). split; [done| |done..].
  by rewrite (numbered_count _ _ _ H2) in H2.
Qed.

(** C29. The parser always answers: on every text it terminates, whatever the
    lexer meets, its only error is a syntax error, and a statement it accepts
    has names without slashes, parameters numbered from 0 in the order of the
    text, int64 literals, exactly one primary key of type INTEGER or TEXT in a
    table definition, and valid JSON paths. *)
Theorem parse_total (src : bytes) :
  exists r, parseSQL src = Some r /\ match r with Ok st => stmt_shape st | Err e => e = ErrSQL end.
Proof. apply parseSQL_total. Qed.

End shape.
