(* ===== verification/SqlPrint.v ===== *)
(** A printer of statements, and the round trip through the parser. *)

From S2P Require Import Prelude Utf8 Unicode Strconv Keys Page Row JsonBin SqlLex Wal Mvcc Catalog SqlAst SqlParse SqlParseSpec.

Section print.
Context `{U : Unicode}.

(** * Tokens of a statement *)

Definition kwd (w : bytes) : token := mkTok tokKeyword w 0 w.
Definition sym (k : tokenKind) (c : bytes) : token := mkTok k c 0 [].
Definition comma : token := sym tokComma (lit ",").
Definition lparen : token := sym tokLParen (lit "(").
Definition rparen : token := sym tokRParen (lit ")").
Definition equals : token := sym tokEq (lit "=").
Definition str (s : bytes) : token := sym tokString s.

(** A name, which the lexer takes for a keyword when it spells one. *)
Definition word (w : bytes) : token :=
  if isKeyword (toUpper w) then mkTok tokKeyword w 0 (toUpper w) else mkTok tokIdent w 0 [].

Definition lower_hex (d : Z) : byte := byte_of (if d <? 10 then 48 + d else 87 + d).
Definition hexEncode (b : bytes) : bytes := c ← b; [lower_hex (byte_val c / 16); lower_hex (byte_val c mod 16)].

Definition expr_token (e : expr) : token :=
  match e with
  | exprNull => kwd (lit "NULL")
  | exprInt i => sym tokNumber (formatInt i)
  | exprText s => str s
  | exprBlob b => sym tokBlob (hexEncode b)
  | exprParam _ => sym tokParam (lit "?")
  end.

(** Lists of items, separated by a token. *)
Fixpoint join (sep : token) (items : list (list token)) : list token :=
  match items with
  | [] => []
  | [ts] => ts
  | ts :: items => ts ++ sep :: join sep items
  end.

Definition type_word (t : ColType) : bytes :=
  match t with
  | TypeInteger => lit "INTEGER"
  | TypeText => lit "TEXT"
  | TypeBlob => lit "BLOB"
  | _ => lit "JSON"
  end.

Definition column_tokens (c : ColumnDef) : list token :=
  word (col_Name c) :: kwd (type_word (col_Type c)) ::
  (if col_PK c then [kwd (lit "PRIMARY"); kwd (lit "KEY")] else []).

Definition extract_tokens (col path : bytes) : list token :=
  [kwd (lit "JSON_EXTRACT"); lparen; word col; comma; str path; rparen].

Definition item_tokens (it : selectItem) : list token :=
  match it with
  | selectStar => [sym tokStar (lit "*")]
  | selectColumn c => [word c]
  | selectExtract c path => extract_tokens c path
  end.

Definition pred_tokens (w : pred) : list token :=
  match w with
  | predColumn c e => [word c; equals; expr_token e]
  | predExtract c path e => extract_tokens c path ++ [equals; expr_token e]
  end.

Definition assign_tokens (a : assign) : list token := [word (as_column a); equals; expr_token (as_value a)].

Definition where_tokens (ws : list pred) : list token :=
  match ws with
  | [] => []
  | _ => kwd (lit "WHERE") :: join (kwd (lit "AND")) (pred_tokens <$> ws)
  end.

Definition name_list (cols : list bytes) : list token :=
  match cols with
  | [] => []
  | _ => lparen :: join comma ((fun c => [word c]) <$> cols) ++ [rparen]
  end.

Definition stmt_tokens (st : stmt) : list token :=
  match st with
  | createTableStmt name cols =>
      kwd (lit "CREATE") :: kwd (lit "TABLE") :: word name :: lparen :: join comma (column_tokens <$> cols) ++ [rparen]
  | dropTableStmt name => [kwd (lit "DROP"); kwd (lit "TABLE"); word name]
  | insertStmt t cols values =>
      kwd (lit "INSERT") :: kwd (lit "INTO") :: word t :: name_list cols ++
      kwd (lit "VALUES") :: lparen :: join comma ((fun e => [expr_token e]) <$> values) ++ [rparen]
  | selectStmt t items ws =>
      kwd (lit "SELECT") :: join comma (item_tokens <$> items) ++ kwd (lit "FROM") :: word t :: where_tokens ws
  | updateStmt t sets ws =>
      kwd (lit "UPDATE") :: word t :: kwd (lit "SET") :: join comma (assign_tokens <$> sets) ++ where_tokens ws
  | deleteStmt t ws => kwd (lit "DELETE") :: kwd (lit "FROM") :: word t :: where_tokens ws
  | createIndexStmt i t c path =>
      [kwd (lit "CREATE"); kwd (lit "INDEX"); word i; kwd (lit "ON"); word t; lparen; word c; rparen] ++
      (if bool_decide (path = []) then [] else [kwd (lit "PATH"); str path])
  | dropIndexStmt i => [kwd (lit "DROP"); kwd (lit "INDEX"); word i]
  end.

Definition print_stmt (st : stmt) : bytes := print_tokens (stmt_tokens st).

(** * Statements with a text *)

Definition expr_printable (e : expr) : bool :=
  match e with
  | exprInt i => bool_decide (- 2 ^ 63 <= i < 2 ^ 63)
  | exprText s => utf8_valid s
  | _ => true
  end.

(** A column that is not read as a call of json_extract. *)
Definition plain_column (c : bytes) : bool := negb (bool_decide (toUpper c = lit "JSON_EXTRACT")).

Definition item_printable (it : selectItem) : bool :=
  match it with
  | selectStar => false
  | selectColumn c => plain_column c
  | selectExtract _ path => utf8_valid path
  end.

Definition pred_printable (w : pred) : bool :=
  match w with
  | predColumn c _ => plain_column c
  | predExtract _ path _ => utf8_valid path
  end.

(** The statements the grammar has a text for: names are ASCII identifiers,
    literals are in range and in UTF-8, and the shape is that of accepted
    statements ([stmt_shape]). *)
Record stmt_printable (st : stmt) : Prop := {
  pr_names : Forall (fun w => ident_text w = true) (stmt_names st);
  pr_exprs : Forall (fun e => expr_printable e = true) (stmt_exprs st);
  pr_params : numbered 0 (stmt_exprs st) (param_count (stmt_exprs st));
  pr_shape : parts_shape st;
  pr_parts :
    match st with
    | selectStmt _ items ws => (items = [selectStar] \/ Forall (fun it => item_printable it = true) items) /\ Forall (fun w => pred_printable w = true) ws
    | updateStmt _ _ ws | deleteStmt _ ws => Forall (fun w => pred_printable w = true) ws
    | createIndexStmt _ _ _ path => utf8_valid path = true
    | _ => True
    end;
}.

(** * Feeding tokens to the parser *)

(** The same token, at whatever position. *)
Definition same (t t' : token) : Prop := kind t = kind t' /\ tok_lit t = tok_lit t' /\ kw t = kw t'.

Definition head_tok (ts : list token) : token := match ts with [] => zeroToken | t :: _ => t end.

(** The current token is the first of [ts] and the text left prints the others. *)
Record feeds (p : parser) (n : nat) (ts : list token) : Prop := {
  fd_peek : hasP p = false;
  fd_arg : nArg p = n;
  fd_tok : same (tok p) (head_tok ts);
  fd_text : drop (lx_i (p_l p)) (lx_src (p_l p)) = print_tokens (tail ts);
  fd_print : Forall (fun t => printable t = true) (tail ts);
}.

(** Method [m] reads [ts] down to [ts'] and gives [x]. *)
Definition run {A} (m : PM A) (n : nat) (ts : list token) (x : A) (n' : nat) (ts' : list token) : Prop :=
  forall p, feeds p n ts -> exists p', m p = Some (Ok (x, p')) /\ feeds p' n' ts'.

Lemma run_ret {A} (x : A) n ts : run (pret x) n ts x n ts.
Proof. intros p Hp. by exists p. Qed.

Lemma run_bind {A B} (m : PM A) (k : A -> PM B) n ts x n1 ts1 y n2 ts2 :
  run m n ts x n1 ts1 -> run (k x) n1 ts1 y n2 ts2 -> run (pbind m k) n ts y n2 ts2.
Proof.
  intros Hm Hk p Hp. destruct (Hm p Hp) as (p1 & E1 & Hp1). destruct (Hk p1 Hp1) as (p2 & E2 & Hp2).
  exists p2. split; [|done]. unfold pbind. by rewrite E1.
Qed.

Lemma run_current {A} (k : token -> PM A) n ts x n' ts' :
  (forall t, same t (head_tok ts) -> run (k t) n ts x n' ts') -> run (pbind current k) n ts x n' ts'.
Proof. intros Hk p Hp. exact (Hk (tok p) (fd_tok _ _ _ Hp) p Hp). Qed.

Lemma run_advance n t ts : run advance n (t :: ts) tt n ts.
Proof.
  intros p [Hp Hn Ht Hd Hpr]. unfold advance. rewrite Hp. cbn [tail] in *. destruct (p_l p) as [src i pos] eqn:El. cbn [lx_i lx_src] in Hd.
  destruct ts as [|t' ts].
  - rewrite next_eof by done. eexists. split; [done|]. by split.
  - apply Forall_cons in Hpr as [Ht' Hpr].
    change (drop i src = (Byte.x20 :: print_token t') ++ print_tokens ts) in Hd.
    rewrite (next_print src i pos t' (print_tokens ts)) by (done || apply print_tokens_delimited). unfold read_at.
    eexists. split; [done|]. split; cbn [hasP nArg tok p_l set_lexer head_tok tail lx_i lx_src]; [done..| |done].
    apply drop_app_add in Hd. cbn [length] in Hd. by rewrite Nat.add_succ_r in Hd.
Qed.

Lemma same_kind k t t' : same t t' -> at_kind k t = at_kind k t'.
Proof. intros (Hk & _). unfold at_kind. by rewrite Hk. Qed.

Lemma same_keyword w t t' : same t t' -> at_keyword w t = at_keyword w t'.
Proof. intros (Hk & _ & Hw). unfold at_keyword. by rewrite Hk, Hw. Qed.

Lemma run_keyword w n ts : run (expectKeyword w) n (kwd w :: ts) tt n ts.
Proof.
  apply run_current. intros t Ht. rewrite (same_keyword _ _ _ Ht). unfold at_keyword. cbn [head_tok kwd kind kw].
  rewrite !bool_decide_true by done. apply run_advance.
Qed.

Lemma run_expect k c n ts : run (expect k) n (sym k c :: ts) tt n ts.
Proof.
  apply run_current. intros t Ht. rewrite (same_kind _ _ _ Ht). unfold at_kind. cbn [head_tok sym kind].
  rewrite bool_decide_true by done. apply run_advance.
Qed.

Lemma run_ident w n ts : run parseIdent n (word w :: ts) w n ts.
Proof.
  apply run_current. intros t (Hk & Hl & _). cbn [head_tok] in *. rewrite Hk, Hl. unfold word.
  destruct (isKeyword (toUpper w)); cbn [kind tok_lit]; (eapply run_bind; [apply run_advance|apply run_ret]).
Qed.

Lemma unhex_lower d : 0 <= d < 16 -> unhex (lower_hex d) = Some d.
Proof.
  intros H. assert (d ∈ (Z.of_nat <$> seq 0 16)) as Hd.
  { apply list_elem_of_fmap. exists (Z.to_nat d). split; [lia|]. apply elem_of_seq. lia. }
  clear H. cbn in Hd. repeat (apply elem_of_cons in Hd as [->|Hd]; [reflexivity|]). by apply elem_of_nil in Hd.
Qed.

Lemma hexDecode_encode b : hexDecode (hexEncode b) = Some b.
Proof.
  unfold hexEncode. induction b as [|c b IH]; [done|]. rewrite bind_cons. cbn [app hexDecode]. pose proof (byte_val_range c).
  rewrite !unhex_lower by modlia. rewrite IH. cbn. f_equal. f_equal. apply byte_of_eq. modlia.
Qed.

Lemma run_expr e n n' ts :
  expr_printable e = true -> numbered n [e] n' -> run parseExpr n (expr_token e :: ts) e n' ts.
Proof.
  intros He Hn. apply run_current. intros t (Hk & Hl & Hw). cbn [head_tok] in *. rewrite Hk, Hl.
  destruct e as [|i|s|b|k]; cbn [expr_token kwd sym str kind tok_lit kw numbered expr_printable] in *.
  - subst n'. rewrite Hw, bool_decide_true by done. eapply run_bind; [apply run_advance|apply run_ret].
  - subst n'. apply bool_decide_eq_true_1 in He. rewrite parseInt_formatInt by done.
    eapply run_bind; [apply run_advance|apply run_ret].
  - subst n'. eapply run_bind; [apply run_advance|apply run_ret].
  - subst n'. rewrite hexDecode_encode. eapply run_bind; [apply run_advance|apply run_ret].
  - destruct Hn as [-> ->]. eapply (run_bind _ _ _ _ n (S n) (_ :: ts)).
    + intros p [H1 H2 H3 H4 H5]. unfold next_param. rewrite H2. eexists. split; [done|]. by split.
    + eapply run_bind; [apply run_advance|apply run_ret].
Qed.

(** Lists: every item reads back before a separator and before what may follow the list. *)
Section lists.
Context {A : Type} (sep : token -> bool) (item : PM A) (R : nat -> A -> nat -> Prop) (toks : A -> list token) (s : token) (follow : token -> Prop).
Hypothesis sep_same : forall t t', same t t' -> sep t = sep t'.
Hypothesis sep_true : sep s = true.
Hypothesis follow_sep : forall t, follow t -> sep t = false.
Hypothesis item_run : forall n x n' ts, R n x n' -> follow (head_tok ts) \/ head_tok ts = s -> run item n (toks x ++ ts) x n' ts.

Lemma run_separated xs : forall fuel n n' ts,
  xs <> [] -> threaded R n xs n' -> follow (head_tok ts) -> (length xs <= fuel)%nat ->
  run (separated fuel sep item) n (join s (toks <$> xs) ++ ts) xs n' ts.
Proof.
  induction xs as [|x xs IH]; intros fuel n n' ts Hne HR Hs Hf; [done|].
  destruct fuel as [|fuel]; [simpl in Hf; lia|]. cbn [separated threaded] in *. destruct HR as (m & Hx & HR).
  destruct xs as [|y xs].
  - cbn in HR. subst m. cbn [fmap list_fmap join]. eapply run_bind; [apply item_run; [done|by left]|].
    apply run_current. intros t Ht. rewrite (sep_same _ _ Ht), (follow_sep _ Hs). apply run_ret.
  - change (join s (toks <$> x :: y :: xs)) with (toks x ++ s :: join s (toks <$> y :: xs)). rewrite <- app_assoc. cbn [app].
    eapply run_bind; [apply item_run; [done|by right]|]. apply run_current. intros t Ht.
    rewrite (sep_same _ _ Ht). cbn [head_tok]. rewrite sep_true. eapply run_bind; [apply run_advance|].
    eapply run_bind; [apply IH; [done|done|done|simpl in *; lia]|]. apply run_ret.
Qed.

Lemma run_loop xs n n' ts :
  xs <> [] -> threaded R n xs n' -> follow (head_tok ts) -> (forall x, toks x <> []) ->
  run (loop sep item) n (join s (toks <$> xs) ++ ts) xs n' ts.
Proof.
  intros Hne HR Hs Ht p Hp. unfold loop. eapply run_separated; [done|done|done| |done].
  pose proof (f_equal length (fd_text _ _ _ Hp)) as Hl. rewrite length_drop in Hl.
  assert (forall l, length l <= length (print_tokens l))%nat as Hpr.
  { induction l as [|u l IHl]; [done|]. change (print_tokens (u :: l)) with ((Byte.x20 :: print_token u) ++ print_tokens l).
    rewrite length_app. cbn [length]. lia. }
  assert (length xs <= length (join s (toks <$> xs)))%nat as Hj.
  { clear -Ht. induction xs as [|x [|y xs] IH]; [done| |].
    - cbn [fmap list_fmap join length]. pose proof (Ht x). destruct (toks x); [done|]. cbn [length]. lia.
    - change (join s (toks <$> x :: y :: xs)) with (toks x ++ s :: join s (toks <$> y :: xs)). rewrite length_app. cbn [length] in *. lia. }
  pose proof (Hpr (tail (join s (toks <$> xs) ++ ts))) as Hpt.
  assert (length (join s (toks <$> xs) ++ ts) <= S (length (tail (join s (toks <$> xs) ++ ts))))%nat by (destruct (_ ++ _); simpl; lia).
  rewrite length_app in *. lia.
Qed.
End lists.

(** * Methods on printed parts *)

(** Read one token or call one method. *)
Ltac rstep :=
  cbn beta iota;
  lazymatch goal with
  | |- run (pret _) _ _ _ _ _ => apply run_ret
  | |- run (pbind current _) _ _ _ _ _ =>
      let t := fresh "t" in let Ht := fresh "Ht" in
      apply run_current; intros t Ht; cbn beta; rewrite ?(same_kind _ _ _ Ht), ?(same_keyword _ _ _ Ht); cbn [head_tok]
  | |- run (pbind advance _) _ _ _ _ _ => eapply run_bind; [apply run_advance|]
  | |- run (pbind (expectKeyword _) _) _ _ _ _ _ => eapply run_bind; [apply run_keyword|]
  | |- run (pbind (expect _) _) _ _ _ _ _ => eapply run_bind; [apply run_expect|]
  | |- run (pbind parseIdent _) _ _ _ _ _ => eapply run_bind; [apply run_ident|]
  end.

(** Decide a test on a known token. *)
Ltac decide_tok :=
  repeat match goal with
  | |- context [at_kind ?k ?t] => assert_fails (is_var t); let b := eval cbv in (at_kind k t) in change (at_kind k t) with b
  | |- context [at_keyword ?w ?t] => assert_fails (is_var t); let b := eval cbv in (at_keyword w t) in change (at_keyword w t) with b
  end; cbn [negb].

Lemma run_parsePath path n ts : path_ok path -> run parsePath n (str path :: ts) path n ts.
Proof.
  intros [segs Hp]. unfold parsePath. rstep. decide_tok. destruct Ht as (_ & -> & _). cbn [str sym tok_lit head_tok].
  rstep. eapply run_bind; [|rstep]. intros p Hf. unfold plift. rewrite Hp. by exists p.
Qed.

Lemma run_extract col path n ts :
  path_ok path -> run parseJSONExtractCall n (extract_tokens col path ++ ts) (col, path) n ts.
Proof.
  intros Hp. unfold parseJSONExtractCall, extract_tokens. cbn [app]. repeat rstep.
  eapply run_bind; [by apply run_parsePath|]. repeat rstep.
Qed.

Lemma word_plain c : plain_column c = true -> at_keyword (lit "JSON_EXTRACT") (word c) = false.
Proof.
  unfold plain_column, at_keyword, word. intros H%negb_true_iff. destruct (isKeyword (toUpper c)); cbn [kind kw]; [by rewrite H, andb_false_r|done].
Qed.

Lemma run_item n x n' ts :
  n' = n /\ item_printable x = true /\ item_shape x -> run parseSelectItem n (item_tokens x ++ ts) x n' ts.
Proof.
  intros (-> & Hp & Hs). unfold parseSelectItem. destruct x as [|c|c path]; [done|..]; cbn [item_printable item_shape item_tokens] in *.
  - cbn [app]. rstep. rewrite word_plain by done. repeat rstep.
  - rstep. change (head_tok (extract_tokens c path ++ ts)) with (kwd (lit "JSON_EXTRACT")). decide_tok.
    eapply run_bind; [by apply run_extract|]. rstep.
Qed.

Lemma run_pred n x n' ts :
  numbered n [pred_value x] n' /\ expr_printable (pred_value x) = true /\ (pred_printable x = true /\ pred_shape x) ->
  run parsePred n (pred_tokens x ++ ts) x n' ts.
Proof.
  intros (Hn & He & Hp & Hs). unfold parsePred. destruct x as [c e|c path e]; cbn [pred_printable pred_shape pred_tokens pred_value] in *.
  - cbn [app]. rstep. rewrite word_plain by done. repeat rstep. eapply run_bind; [by apply run_expr|]. rstep.
  - rstep. change (head_tok _) with (kwd (lit "JSON_EXTRACT")). decide_tok. rewrite <- app_assoc.
    eapply run_bind; [by apply run_extract|]. cbn [app]. repeat rstep. eapply run_bind; [by apply run_expr|]. rstep.
Qed.

Lemma run_assign n x n' ts :
  numbered n [as_value x] n' /\ expr_printable (as_value x) = true /\ True -> run parseAssign n (assign_tokens x ++ ts) x n' ts.
Proof.
  intros (Hn & He & _). unfold parseAssign, assign_tokens. cbn [app]. repeat rstep. eapply run_bind; [by apply run_expr|]. destruct x. rstep.
Qed.

Lemma type_word_type t : storable_type t -> columnType (type_word t) = Some t.
Proof. by destruct t. Qed.

Lemma run_column n c n' ts :
  n' = n /\ column_shape c -> at_keyword (lit "PRIMARY") (head_tok ts) = false -> run parseColumnDef n (column_tokens c ++ ts) c n' ts.
Proof.
  intros (-> & Hs & Hpk) Hh. unfold parseColumnDef, column_tokens. cbn [app]. rstep. rstep. decide_tok.
  destruct Ht as (_ & _ & ->). cbn [head_tok kwd kw]. rewrite type_word_type by done. rstep.
  destruct c as [name typ []]; cbn [col_Name col_Type col_PK app] in *.
  - rstep. decide_tok. eapply run_bind; [repeat rstep|]. destruct (Hpk eq_refl) as [-> | ->]; exact (run_ret _ _ _).
  - rstep. rewrite Hh. eapply run_bind; [rstep|]. exact (run_ret _ _ _).
Qed.

(** * Lists *)

Lemma threaded_of_exprs {A} (value : A -> expr) (P : A -> Prop) xs : forall n n',
  numbered n (value <$> xs) n' -> Forall (fun e => expr_printable e = true) (value <$> xs) -> Forall P xs ->
  threaded (fun n x n' => numbered n [value x] n' /\ expr_printable (value x) = true /\ P x) n xs n'.
Proof.
  induction xs as [|x xs IH]; intros n n' Hn He HP; [done|]. cbn [fmap list_fmap] in *.
  apply Forall_cons in He as [He Hes]. apply Forall_cons in HP as [Hx HP].
  change (value x :: (value <$> xs)) with ([value x] ++ (value <$> xs)) in Hn. apply numbered_app in Hn as (m & Hm & Hn).
  exists m. auto.
Qed.

Lemma threaded_of_plain {A} (P : A -> Prop) n xs : Forall P xs -> threaded (fun n x n' => n' = n /\ P x) n xs n.
Proof. induction 1 as [|x xs Hx Hxs IH]; [done|]. exists n. auto. Qed.

Lemma run_where ws n n' :
  numbered n (pred_value <$> ws) n' -> Forall (fun e => expr_printable e = true) (pred_value <$> ws) ->
  Forall (fun w => pred_printable w = true) ws -> Forall pred_shape ws ->
  run parseWhereOptional n (where_tokens ws) ws n' [].
Proof.
  intros Hn He Hp Hs. unfold parseWhereOptional, where_tokens. destruct ws as [|w ws].
  - cbn in Hn. subst n'. rstep. decide_tok. rstep.
  - rstep. decide_tok. rstep. rewrite <- (app_nil_r (join _ _)).
    apply (run_loop _ _ (fun n x n' => numbered n [pred_value x] n' /\ expr_printable (pred_value x) = true /\ (pred_printable x = true /\ pred_shape x))
             _ _ (fun t => kind t = tokEOF)); [apply same_keyword|done| | |done| |done|by intros []].
    + intros t' Hk. unfold at_keyword. by rewrite Hk.
    + intros m x m' ts Hx _. by apply run_pred.
    + apply threaded_of_exprs; [done|done|]. by apply Forall_and.
Qed.

Lemma run_idents cols n ts :
  cols <> [] -> at_kind tokComma (head_tok ts) = false ->
  run (loop (at_kind tokComma) parseIdent) n (join comma ((fun c => [word c]) <$> cols) ++ ts) cols n ts.
Proof.
  intros Hc Ht. apply (run_loop _ _ (fun n (x : bytes) n' => n' = n /\ True) _ _ (fun t => at_kind tokComma t = false));
    [apply same_kind|done|done| |done| |done|done].
  - intros m x m' ts' [-> _] _. apply run_ident.
  - apply threaded_of_plain. by apply Forall_true.
Qed.

Lemma run_exprs es n n' ts :
  es <> [] -> numbered n es n' -> Forall (fun e => expr_printable e = true) es -> at_kind tokComma (head_tok ts) = false ->
  run (loop (at_kind tokComma) parseExpr) n (join comma ((fun e => [expr_token e]) <$> es) ++ ts) es n' ts.
Proof.
  intros Hne Hn He Ht. apply (run_loop _ _ (fun n x n' => numbered n [id x] n' /\ expr_printable (id x) = true /\ True) _ _ (fun t => at_kind tokComma t = false));
    [apply same_kind|done|done| |done| |done|done].
  - intros m x m' ts' (Hx & Hp & _) _. by apply run_expr.
  - apply threaded_of_exprs; [by rewrite list_fmap_id..|by apply Forall_true].
Qed.

(** * Statements *)

(** A statement's method reads the tokens of the statement. *)
Definition reads_back (m : PM stmt) (st : stmt) : Prop :=
  run m 0 (stmt_tokens st) st (param_count (stmt_exprs st)) [].

Lemma run_create name cols :
  pkCount cols = 1%nat -> Forall column_shape cols -> reads_back parseCreate (createTableStmt name cols).
Proof.
  intros Hpk Hs. unfold reads_back, parseCreate. cbn [stmt_tokens]. do 2 rstep. decide_tok. repeat rstep.
  eapply run_bind.
  { apply (run_loop _ _ (fun n x n' => n' = n /\ column_shape x) _ _ (fun t => kind t = tokRParen));
      [apply same_kind|done| | | |by apply threaded_of_plain|done|done].
    - intros u Hk. unfold at_kind. by rewrite Hk.
    - intros m x m' ts Hx Hh. apply run_column; [done|]. unfold at_keyword. by destruct Hh as [-> | ->].
    - by intros ->. }
  repeat rstep. rewrite Hpk. apply run_ret.
Qed.

Lemma run_create_index i t c path :
  path = [] \/ path_ok path -> reads_back parseCreate (createIndexStmt i t c path).
Proof.
  intros Hp. unfold reads_back, parseCreate. cbn [stmt_tokens app]. do 2 rstep. decide_tok. unfold parseCreateIndex. do 7 rstep. decide_tok.
  do 2 rstep. case_bool_decide as E; cbn [app].
  - decide_tok. eapply run_bind; [apply run_ret|]. subst. apply run_ret.
  - decide_tok. destruct Hp as [?|Hp]; [done|]. eapply run_bind; [rstep; by apply run_parsePath|]. apply run_ret.
Qed.

Lemma run_insert t cols values :
  values <> [] -> numbered 0 values (param_count values) -> Forall (fun e => expr_printable e = true) values ->
  reads_back parseInsert (insertStmt t cols values).
Proof.
  intros Hv Hn He. unfold reads_back, parseInsert. cbn [stmt_tokens stmt_exprs]. do 4 rstep.
  eapply (run_bind _ _ _ _ cols 0 (kwd (lit "VALUES") :: lparen :: join comma ((fun e => [expr_token e]) <$> values) ++ [rparen])).
  - unfold name_list. destruct cols as [|c cols]; cbn [app]; decide_tok; [apply run_ret|]. rstep. rewrite <- app_assoc.
    eapply run_bind; [by apply run_idents|]. cbn [app]. repeat rstep.
  - repeat rstep. eapply run_bind; [by apply run_exprs|]. repeat rstep.
Qed.

Lemma run_select t items ws :
  items = [selectStar] \/ Forall (fun it => item_printable it = true) items -> items <> [] -> Forall item_shape items ->
  numbered 0 (pred_value <$> ws) (param_count (pred_value <$> ws)) -> Forall (fun e => expr_printable e = true) (pred_value <$> ws) ->
  Forall (fun w => pred_printable w = true) ws -> Forall pred_shape ws ->
  reads_back parseSelect (selectStmt t items ws).
Proof.
  intros Hi Hne Hsi Hn He Hp Hs. unfold reads_back, parseSelect. cbn [stmt_tokens stmt_exprs]. do 2 rstep.
  eapply (run_bind _ _ _ _ items 0 (kwd (lit "FROM") :: word t :: where_tokens ws)).
  - destruct Hi as [->|Hi]; [cbn [fmap list_fmap join item_tokens app]; decide_tok; repeat rstep|].
    replace (at_kind tokStar (head_tok _)) with false.
    + apply (run_loop _ _ (fun n x n' => n' = n /\ (item_printable x = true /\ item_shape x)) _ _ (fun t => at_kind tokComma t = false));
        [apply same_kind|done|done| |done| |done|by intros []].
      * intros m x m' ts Hx _. by apply run_item.
      * apply threaded_of_plain. by apply Forall_and.
    + destruct items as [|x items]; [done|]. apply Forall_cons in Hi as [Hx _].
      assert (at_kind tokStar (head_tok (item_tokens x)) = false) as Hx'.
      { destruct x as [|c|c path]; [done| |done]. cbn [item_tokens head_tok]. unfold word. by case_match. }
      destruct items; cbn [fmap list_fmap join]; destruct x; done.
  - repeat rstep. eapply run_bind; [by apply run_where|]. rstep.
Qed.

Lemma run_update t sets ws :
  sets <> [] -> numbered 0 ((as_value <$> sets) ++ (pred_value <$> ws)) (param_count ((as_value <$> sets) ++ (pred_value <$> ws))) ->
  Forall (fun e => expr_printable e = true) ((as_value <$> sets) ++ (pred_value <$> ws)) ->
  Forall (fun w => pred_printable w = true) ws -> Forall pred_shape ws ->
  reads_back parseUpdate (updateStmt t sets ws).
Proof.
  intros Hne Hn [He1 He2]%Forall_app Hp Hs. unfold reads_back, parseUpdate. cbn [stmt_tokens stmt_exprs]. repeat rstep.
  apply numbered_app in Hn as (m & Hn1 & Hn2). eapply run_bind.
  - apply (run_loop _ _ (fun n x n' => numbered n [as_value x] n' /\ expr_printable (as_value x) = true /\ True) _ _ (fun t => at_kind tokComma t = false));
      [apply same_kind|done|done| |done| | |done].
    + intros k x k' ts Hx _. by apply run_assign.
    + apply threaded_of_exprs; [done|done|by apply Forall_true].
    + by destruct ws.
  - eapply run_bind; [by apply run_where|]. rstep.
Qed.

Lemma run_delete t ws :
  numbered 0 (pred_value <$> ws) (param_count (pred_value <$> ws)) -> Forall (fun e => expr_printable e = true) (pred_value <$> ws) ->
  Forall (fun w => pred_printable w = true) ws -> Forall pred_shape ws ->
  reads_back parseDelete (deleteStmt t ws).
Proof.
  intros Hn He Hp Hs. unfold reads_back, parseDelete. cbn [stmt_tokens stmt_exprs]. repeat rstep.
  eapply run_bind; [by apply run_where|]. rstep.
Qed.

Lemma run_stmt st : stmt_printable st -> reads_back parseStmt st.
Proof.
  intros [_ He Hn Hs Hp].
  destruct st; cbn [parts_shape stmt_exprs] in *; unfold reads_back, parseStmt; rstep; cbn [stmt_tokens app head_tok] in *; decide_tok;
    destruct Ht as (_ & _ & ->); cbn [kwd kw].
  - destruct Hs. change (reads_back parseCreate (createTableStmt name columns)). by apply run_create.
  - change (reads_back parseDrop (dropTableStmt name)). unfold reads_back, parseDrop. cbn [stmt_tokens]. do 2 rstep. decide_tok. repeat rstep.
  - change (reads_back parseInsert (insertStmt table columns values)). by apply run_insert.
  - destruct Hp as [Hi Hw], Hs as (Hne & Hsi & Hsw). change (reads_back parseSelect (selectStmt table columns where_)). by apply run_select.
  - destruct Hs as [Hne Hsw]. change (reads_back parseUpdate (updateStmt table sets where_)). by apply run_update.
  - change (reads_back parseDelete (deleteStmt table where_)). by apply run_delete.
  - change (reads_back parseCreate (createIndexStmt index table column path)). by apply run_create_index.
  - change (reads_back parseDrop (dropIndexStmt index)). unfold reads_back, parseDrop, parseDropIndex. cbn [stmt_tokens]. do 2 rstep. decide_tok. repeat rstep.
Qed.

(** * The tokens of a statement have a text *)

Definition all_printable (ts : list token) : Prop := Forall (fun t => printable t = true) ts.

Lemma word_printable w : ident_text w = true -> printable (word w) = true.
Proof.
  intros H. unfold printable, word. destruct (isKeyword (toUpper w)) eqn:E; cbn [kind tok_lit kw]; by rewrite H, E, bool_decide_true.
Qed.

Lemma kwd_printable w : is_ascii w = true -> ident_text w = true -> ascii_to_upper w = w -> isKeyword w = true -> printable (kwd w) = true.
Proof.
  intros Ha Hi Hu Hk. unfold printable, kwd. cbn [kind tok_lit kw]. rewrite toUpper_ascii, Hu, Hi, Hk by done. by rewrite bool_decide_true.
Qed.

Lemma formatInt_text i : in_i64 i -> number_text (formatInt i) = true.
Proof.
  intros Hi. assert (forall n, forallb (fun b => ascii_digit (byte_val b)) (formatUint n) = true) as Hd.
  { intros n. apply forallb_forall. intros b Hb%list_elem_of_In. unfold formatUint in Hb.
    pose proof (dec_digits_all 20 n [] ltac:(constructor)) as Hall. rewrite Forall_forall in Hall. exact (Hall b Hb). }
  unfold formatInt. destruct (i <? 0).
  - cbn [lit number_text]. apply Hd.
  - pose proof (Hd i) as H. pose proof (formatUint_nonempty i) as Hne. destruct (formatUint i) as [|b s]; [done|].
    cbn [number_text forallb] in *. apply andb_true_iff in H as [-> ->]. by rewrite orb_true_r.
Qed.

Lemma hexEncode_text b : forallb (fun c => negb (bool_decide (c = quote_byte))) (hexEncode b) = true.
Proof.
  assert (forall d, 0 <= d < 16 -> lower_hex d <> quote_byte) as Hd.
  { intros d Hr E. apply unhex_lower in Hr. by rewrite E in Hr. }
  unfold hexEncode. induction b as [|c b IH]; [done|]. rewrite bind_cons. cbn [app forallb]. pose proof (byte_val_range c).
  rewrite !bool_decide_false by (apply Hd; modlia). exact IH.
Qed.

Lemma expr_token_printable e : expr_printable e = true -> printable (expr_token e) = true.
Proof.
  destruct e as [|i|s|b|k]; cbn [expr_printable expr_token]; intros H.
  - by apply kwd_printable.
  - unfold printable. cbn [sym kind tok_lit kw]. apply bool_decide_eq_true_1 in H. by rewrite formatInt_text.
  - unfold printable. cbn [str sym kind tok_lit kw]. by rewrite H.
  - unfold printable. cbn [sym kind tok_lit kw]. by rewrite hexEncode_text.
  - done.
Qed.

Lemma join_printable s items : printable s = true -> Forall all_printable items -> all_printable (join s items).
Proof.
  intros Hs. unfold all_printable. induction items as [|ts [|ts' items] IH]; intros H; [constructor|by inversion H|].
  apply Forall_cons in H as [H1 H2]. change (join s (ts :: ts' :: items)) with (ts ++ s :: join s (ts' :: items)).
  apply Forall_app. split; [done|]. constructor; [done|]. by apply IH.
Qed.

Lemma str_printable s : utf8_valid s = true -> printable (str s) = true.
Proof. intros H. unfold printable. cbn [str sym kind tok_lit kw]. by rewrite H. Qed.

(** Keywords, symbols, names and expressions. *)
Ltac printable_done :=
  unfold all_printable;
  repeat first [apply Forall_nil; exact I | apply Forall_cons; split | apply Forall_app; split];
  try (by apply kwd_printable); try (by apply word_printable); try (by apply expr_token_printable); try (by apply str_printable); try done.

Lemma extract_printable c path : ident_text c = true -> utf8_valid path = true -> all_printable (extract_tokens c path).
Proof.
  intros Hc Hp. unfold extract_tokens. printable_done.
Qed.

Lemma where_printable ws :
  Forall (fun w => ident_text w = true) (pred_column <$> ws) -> Forall (fun e => expr_printable e = true) (pred_value <$> ws) ->
  Forall (fun w => pred_printable w = true) ws -> all_printable (where_tokens ws).
Proof.
  intros Hc%Forall_fmap He%Forall_fmap Hp. unfold where_tokens. destruct ws as [|w ws]; [constructor|].
  constructor; [by apply kwd_printable|]. apply join_printable; [by apply kwd_printable|]. apply Forall_fmap.
  eapply Forall_impl; [apply Forall_and; split; [exact Hc|apply Forall_and; split; [exact He|exact Hp]]|]. clear.
  intros [c e|c path e] (Hc & He & Hp); cbn [compose pred_column pred_value pred_printable pred_tokens] in *; printable_done.
Qed.

Lemma stmt_tokens_printable st : stmt_printable st -> all_printable (stmt_tokens st).
Proof.
  intros [Hn He _ Hs Hp]. destruct st; cbn [stmt_names stmt_exprs stmt_tokens parts_shape] in *.
  - apply Forall_cons in Hn as [Ht Hn%Forall_fmap]. printable_done. apply join_printable; [done|]. apply Forall_fmap.
    eapply Forall_impl; [apply Forall_and; split; [exact Hn|exact (proj2 Hs)]|].
    intros c [Hc [Ht' _]]. unfold compose, column_tokens in *. printable_done; [|destruct (col_PK c); printable_done].
    destruct (col_Type c); by apply kwd_printable.
  - apply Forall_cons in Hn as [Ht _]. printable_done.
  - apply Forall_cons in Hn as [Ht Hn]. printable_done.
    + unfold name_list. destruct columns as [|c cols]; [constructor|]. printable_done. apply join_printable; [done|].
      apply Forall_fmap. eapply Forall_impl; [exact Hn|]. intros x Hx. unfold compose. printable_done.
    + apply join_printable; [done|]. apply Forall_fmap. eapply Forall_impl; [exact He|]. intros x Hx. unfold compose. printable_done.
  - apply Forall_cons in Hn as [Ht [Hi Hw]%Forall_app]. destruct Hp as [Hp1 Hp2]. printable_done; [|by apply where_printable].
    destruct Hp1 as [->|Hp1]; [by repeat constructor|]. apply join_printable; [done|].
    clear -Hi Hp1. induction Hp1 as [|x items Hx Hxs IH]; [constructor|]. rewrite bind_cons in Hi. apply Forall_app in Hi as [H1 H2].
    constructor; [|by apply IH]. destruct x as [|c|c path]; [done|..]; apply Forall_inv in H1; cbn [item_tokens]; [printable_done|].
    by apply extract_printable.
  - apply Forall_cons in Hn as [Ht [Hi%Forall_fmap Hw]%Forall_app]. apply Forall_app in He as [He1%Forall_fmap He2].
    printable_done; [|by apply where_printable]. apply join_printable; [done|]. apply Forall_fmap.
    eapply Forall_impl; [apply Forall_and; split; [exact Hi|exact He1]|]. intros a [Ha1 Ha2]. unfold compose, assign_tokens in *. printable_done.
  - apply Forall_cons in Hn as [Ht Hw]. printable_done. by apply where_printable.
  - apply Forall_cons in Hn as [H1 Hn]. apply Forall_cons in Hn as [H2 Hn]. apply Forall_cons in Hn as [H3 _]. printable_done.
    case_bool_decide; printable_done.
  - apply Forall_cons in Hn as [Ht _]. printable_done.
Qed.

(** C30. Printed statements parse back: for every statement the grammar has a text
    for ([stmt_printable]: ASCII identifiers, none of them json_extract where a
    column is meant, int64 and UTF-8 literals, parameters in order, the shape of
    accepted statements), of every kind and with any conditions, assignments and
    literals, parsing its text gives exactly this statement. *)
Theorem parse_print_roundtrip (st : stmt) :
  stmt_printable st -> parseSQL (print_stmt st) = Some (Ok st).
Proof.
  intros Hst. set (p := mkParser (newLexer (print_stmt st)) zeroToken zeroToken false 0).
  assert (feeds p 0 (zeroToken :: stmt_tokens st)) as Hp by (split; try done; by apply stmt_tokens_printable).
  assert (run parseAll 0 (zeroToken :: stmt_tokens st) st (param_count (stmt_exprs st)) []) as Hrun.
  { unfold parseAll. rstep. eapply run_bind; [by apply run_stmt|]. rstep. decide_tok. eapply run_bind; [apply run_ret|].
    rstep. decide_tok. apply run_ret. }
  destruct (Hrun p Hp) as (p' & E & _). unfold parseSQL. fold p. by rewrite E.
Qed.

End print.

(** * Witnesses *)

Definition sample_update : stmt :=
  updateStmt (lit "users")
    [mkAssign (lit "name") (exprText (lit "it's")); mkAssign (lit "data") (exprParam 0); mkAssign (lit "key") exprNull]
    [predColumn (lit "id") (exprInt (-7)); predExtract (lit "j") (lit "$.a.b") (exprParam 1)].

Lemma parse_print_roundtrip_witness : parseSQL (print_stmt sample_update) = Some (Ok sample_update).
Proof.
  apply parse_print_roundtrip. split.
  - repeat constructor.
  - repeat constructor.
  - repeat split.
  - split; [done|]. repeat constructor. eexists. vm_compute. reflexivity.
  - repeat constructor.
Defined.
