(* ===== verification/SqlBind.v ===== *)
(** Binding arguments to parameters, and the values and predicates of SQL
    statements (sql_exec.go): maxParam, bindArgs, fillParam, anyToExpr,
    exprToValue, predValueForExtract, valuesEqual and matchWhere; and the Rows
    cursor a query returns. *)

From S2P Require Import Prelude Utf8 Unicode Strconv Keys Page Row JsonBin SqlLex Wal Mvcc Catalog SqlAst SqlParse.

(** * Arguments *)

(** The dynamic types of an argument; an int or an int64 is its number, a
    float64 its bit pattern. *)
Inductive arg :=
  | ArgNil
  | ArgInt (v : Z)
  | ArgInt64 (v : Z)
  | ArgFloat64 (bits : Z)
  | ArgString (s : bytes)
  | ArgBytes (b : bytes)
  | ArgOther.

(** The integer part of a float64 toward zero; [None] for NaN and infinities. *)
Definition float_trunc (bits : Z) : option Z :=
  let sign := if Z.testbit bits 63 then -1 else 1 in
  let e := Z.land (Z.shiftr bits 52) 0x7FF in
  let m := Z.land bits (2 ^ 52 - 1) in
  if e =? 0x7FF then None
  else if e =? 0 then Some 0
  else
    let mant := 2 ^ 52 + m in
    let exp := e - 1075 in
    Some (sign * (if 0 <=? exp then mant * 2 ^ exp else mant / 2 ^ (- exp))).

(** The conversion int64(x) of a float64 that no int64 equals, which the
    language leaves to the implementation. *)
Class GoFloat := {
  int64_overflow : Z -> Z;
  int64_overflow_range : forall bits, in_i64 (int64_overflow bits);
}.

Section binding.
Context `{F : GoFloat}.

Definition float64_to_int64 (bits : Z) : Z :=
  match float_trunc bits with
  | Some z => if (- 2 ^ 63 <=? z) && (z <? 2 ^ 63) then z else int64_overflow bits
  | None => int64_overflow bits
  end.

Definition anyToExpr (a : arg) : res expr :=
  match a with
  | ArgNil => Ok exprNull
  | ArgInt v => Ok (exprInt (i64 v))
  | ArgInt64 v => Ok (exprInt (i64 v))
  | ArgFloat64 bits => Ok (exprInt (float64_to_int64 bits))
  | ArgString s => Ok (exprText s)
  | ArgBytes b => Ok (exprBlob b)
  | ArgOther => Err ErrSQL
  end.

(** The body of [check]: the larger of [max] and the parameter's index. *)
Definition check_param (max : Z) (e : expr) : Z :=
  match e with
  | exprParam k => if max <? Z.of_nat k then Z.of_nat k else max
  | _ => max
  end.

Definition maxParam (st : stmt) : Z := foldl check_param (-1) (stmt_exprs st).

(** The expression that replaces a parameter. *)
Definition fillParam (args : list arg) (k : nat) : res expr :=
  match args !! k with
  | None => Err ErrSQL
  | Some a => anyToExpr a
  end.

Definition fill (args : list arg) (e : expr) : res expr :=
  match e with
  | exprParam k => fillParam args k
  | _ => Ok e
  end.

(** A loop that stops at the first error. *)
Fixpoint map_res {A B} (f : A -> res B) (l : list A) : res (list B) :=
  match l with
  | [] => Ok []
  | x :: l =>
      let! y := f x in
      let! ys := map_res f l in
      Ok (y :: ys)
  end.

Definition fill_pred (args : list arg) (w : pred) : res pred :=
  match w with
  | predColumn c e => let! e := fill args e in Ok (predColumn c e)
  | predExtract c path e => let! e := fill args e in Ok (predExtract c path e)
  end.

Definition fill_assign (args : list arg) (a : assign) : res assign :=
  let! e := fill args (as_value a) in Ok (mkAssign (as_column a) e).

Definition bindArgs (st : stmt) (args : list arg) : res stmt :=
  if zlen args <=? maxParam st then Err ErrSQL
  else match st with
  | insertStmt t cols values => let! values := map_res (fill args) values in Ok (insertStmt t cols values)
  | selectStmt t items ws => let! ws := map_res (fill_pred args) ws in Ok (selectStmt t items ws)
  | updateStmt t sets ws =>
      let! sets := map_res (fill_assign args) sets in
      let! ws := map_res (fill_pred args) ws in
      Ok (updateStmt t sets ws)
  | deleteStmt t ws => let! ws := map_res (fill_pred args) ws in Ok (deleteStmt t ws)
  | _ => Ok st
  end.

End binding.

(** * Values and predicates *)

Definition nullOf (typ : ColType) : Value := mkValue typ 0 [] [] true.

Section predicates.
Context `{J : GoJson} `{U : Unicode}.

Definition exprToValue (e : expr) (typ : ColType) : res Value :=
  match e with
  | exprNull => Ok (nullOf typ)
  | _ =>
      match typ with
      | TypeInteger => match e with exprInt i => Ok (IntValue i) | _ => Err ErrSQL end
      | TypeText => match e with exprText s => Ok (TextValue s) | _ => Err ErrSQL end
      | TypeBlob => match e with exprBlob b => Ok (BlobValue b) | _ => Err ErrSQL end
      | TypeJSON =>
          let! raw := match e with exprText s => Ok s | exprBlob b => Ok b | _ => Err ErrSQL end in
          let! bin := encodeJSON raw in
          Ok (JSONValue bin)
      | TypeName _ => Err ErrSQL
      end
  end.

Definition predValueForExtract (e : expr) : res Value :=
  match e with
  | exprInt i => Ok (IntValue i)
  | exprText s => Ok (TextValue s)
  | exprNull => Ok NullValue
  | _ => Err ErrSQL
  end.

Definition valuesEqual (a b : Value) : bool :=
  if Null a || Null b then Null a && Null b
  else if negb (bool_decide (Typ a = Typ b)) then false
  else match Typ a with
  | TypeInteger => Int a =? Int b
  | TypeText => bool_decide (Text a = Text b)
  | TypeBlob | TypeJSON => bool_decide (Blob a = Blob b)
  | TypeName _ => false
  end.

(** One conjunct; [None] is a panic of [vals[ci]] on a row with too few values. *)
Definition matchPred (def : TableDef) (vals : list Value) (w : pred) : option (res bool) :=
  match columnIndex def (normalizeName (pred_column w)) with
  | Err _ => Some (Ok false)
  | Ok ci =>
      match w with
      | predExtract _ path e =>
          v ← vals !! ci;
          Some (if Null v || negb (bool_decide (Typ v = TypeJSON)) then Ok false
                else
                  let! (got, ok) := jsonExtract (Blob v) path in
                  if negb ok then Ok false
                  else
                    let! want := predValueForExtract e in
                    Ok (valuesEqual got want))
      | predColumn _ e =>
          match tab_Columns def !! ci with
          | None => None
          | Some c =>
              match exprToValue e (col_Type c) with
              | Err _ => Some (Ok false)
              | Ok want => v ← vals !! ci; Some (Ok (valuesEqual v want))
              end
          end
      end
  end.

Fixpoint matchWhere (def : TableDef) (vals : list Value) (ws : list pred) : option (res bool) :=
  match ws with
  | [] => Some (Ok true)
  | w :: ws =>
      r ← matchPred def vals w;
      match r with
      | Ok true => matchWhere def vals ws
      | _ => Some r
      end
  end.

End predicates.

(** * The cursor over query results *)

Record Rows := mkRows { r_columns : list bytes; r_data : list (list Value); r_i : Z; r_closed : bool }.

Definition set_row (i : Z) (r : Rows) : Rows := mkRows (r_columns r) (r_data r) i (r_closed r).

Definition Columns (r : Rows) : list bytes := r_columns r.

Definition Next (r : Rows) : Rows * bool :=
  if r_closed r then (r, false)
  else if zlen (r_data r) <=? r_i r + 1 then (set_row (zlen (r_data r)) r, false)
  else (set_row (r_i r + 1) r, true).

Definition CloseRows (r : Rows) : Rows := mkRows (r_columns r) (r_data r) (r_i r) true.

(** A destination of Scan by its type, and what is stored there. *)
Inductive dest := DestValue | DestAny | DestInt64 | DestString | DestBytes | DestOther.

Inductive scanned :=
  | ScValue (v : Value)
  | ScNil
  | ScInt (i : Z)
  | ScText (s : bytes)
  | ScBlob (b : bytes).

Section cursor.
Context `{J : GoJson}.

Definition assignScan (d : dest) (v : Value) : res scanned :=
  match d with
  | DestValue => Ok (ScValue v)
  | DestAny =>
      if Null v then Ok ScNil
      else match Typ v with
      | TypeInteger => Ok (ScInt (Int v))
      | TypeText => Ok (ScText (Text v))
      | TypeBlob => Ok (ScBlob (Blob v))
      | TypeJSON => let! text := jsonToText (Blob v) in Ok (ScText text)
      | TypeName _ => Ok ScNil
      end
  | DestInt64 =>
      if Null v then Ok (ScInt 0)
      else match Typ v with TypeInteger => Ok (ScInt (Int v)) | _ => Err ErrSQL end
  | DestString =>
      if Null v then Ok (ScText [])
      else match Typ v with
      | TypeText => Ok (ScText (Text v))
      | TypeInteger => Ok (ScText (formatInt (Int v)))
      | TypeJSON => let! text := jsonToText (Blob v) in Ok (ScText text)
      | _ => Err ErrSQL
      end
  | DestBytes =>
      if Null v then Ok ScNil
      else match Typ v with
      | TypeBlob => Ok (ScBlob (Blob v))
      | TypeText => Ok (ScBlob (Text v))
      | TypeJSON => let! text := jsonToText (Blob v) in Ok (ScBlob text)
      | _ => Err ErrSQL
      end
  | DestOther => Err ErrSQL
  end.

(** The values stored in the destinations; an error in the middle is reported as
    such, what was stored before it is not kept here. *)
Definition Scan (r : Rows) (ds : list dest) : res (list scanned) :=
  if r_closed r || (r_i r <? 0) || (zlen (r_data r) <=? r_i r) then Err ErrSQL
  else
    let row := default [] (r_data r !! Z.to_nat (r_i r)) in
    if negb (length ds =? length row)%nat then Err ErrSQL
    else map_res (fun dv => assignScan (fst dv) (snd dv)) (zip ds row).

End cursor.
