(* ===== verification/SqlBindSpec.v ===== *)
(** What binding and the result cursor promise: the i-th parameter of a parsed
    statement gets the i-th argument, and a cursor yields every row once. *)

From S2P Require Import Prelude Utf8 Unicode Strconv Keys Page Row JsonBin SqlLex Wal Mvcc Catalog SqlAst SqlParse SqlParseSpec SqlBind.

(** * Arguments *)

(** The parameters among the expressions, replaced in order. *)
Fixpoint plug (es vs : list expr) : list expr :=
  match es, vs with
  | [], _ => []
  | exprParam _ :: es, v :: vs => v :: plug es vs
  | e :: es, vs => e :: plug es vs
  end.

(** A statement without its expressions. *)
Definition blank_pred (w : pred) : pred :=
  match w with predColumn c _ => predColumn c exprNull | predExtract c path _ => predExtract c path exprNull end.
Definition blank_assign (s : assign) : assign := mkAssign (as_column s) exprNull.
Definition skeleton (st : stmt) : stmt :=
  match st with
  | insertStmt t cols values => insertStmt t cols ((fun _ => exprNull) <$> values)
  | selectStmt t items ws => selectStmt t items (blank_pred <$> ws)
  | updateStmt t sets ws => updateStmt t (blank_assign <$> sets) (blank_pred <$> ws)
  | deleteStmt t ws => deleteStmt t (blank_pred <$> ws)
  | _ => st
  end.

(** The argument types anyToExpr knows. *)
Definition supported (a : arg) : bool := match a with ArgOther => false | _ => true end.

Section binding.
Context `{F : GoFloat}.

Lemma supported_ok a : supported a = true -> exists v, anyToExpr a = Ok v.
Proof. destruct a; try done; intros _; cbn [anyToExpr]; eexists; reflexivity. Qed.

Lemma maxParam_numbered es : forall m n, numbered m es n -> foldl check_param (Z.of_nat m - 1) es = Z.of_nat n - 1.
Proof.
  induction es as [|e es IH]; intros m n H; [by cbn in H; subst|]. destruct e; cbn [numbered foldl check_param] in *; try by apply IH.
  destruct H as [-> H]. rewrite (proj2 (Z.ltb_lt _ _)) by lia. rewrite <- (IH (S m) n H). f_equal. lia.
Qed.

Lemma numbered_le es : forall m n, numbered m es n -> (m <= n)%nat.
Proof. induction es as [|[] es IH]; intros m n H; cbn [numbered] in H; try (by apply IH); [lia|]. destruct H as [_ H%IH]. lia. Qed.

(** The loop over the expressions, for parameters numbered from [m]. *)
Lemma fill_numbered args es : forall m n vs,
  numbered m es n -> Forall2 (fun a v => anyToExpr a = Ok v) (take (n - m) (drop m args)) vs -> (n <= length args)%nat ->
  map_res (fill args) es = Ok (plug es vs) /\ Forall (fun e => is_param e = false) vs.
Proof.
  assert (forall a v, anyToExpr a = Ok v -> is_param v = false) as Hnp by (intros a v; destruct a; cbn; try done; by intros [= <-]).
  induction es as [|e es IH]; intros m n vs Hn Hv Hl.
  - split; [done|]. apply Forall_forall. intros v (i & Hi)%list_elem_of_lookup. destruct (Forall2_lookup_r _ _ _ _ _ Hv Hi) as (a & _ & H). by eapply Hnp.
  - cbn [map_res]. destruct e as [|i|s|b|k]; cbn [numbered] in Hn;
      try (destruct (IH m n vs Hn Hv Hl) as [-> ?]; split; [done|done]).
    destruct Hn as [-> Hn]. pose proof (numbered_le _ _ _ Hn). destruct (lookup_lt_is_Some_2 args m ltac:(lia)) as [a Ha].
    rewrite (drop_S _ _ _ Ha) in Hv. replace (n - m)%nat with (S (n - S m)) in Hv by lia. cbn [take] in Hv.
    inversion Hv as [|? v ? vs' Hav Hv']; subst. destruct (IH (S m) n vs' Hn Hv' Hl) as [E Hp].
    cbn [fill]. unfold fillParam. rewrite Ha, Hav. cbn [rbind]. rewrite E. split; [done|]. constructor; [by eapply Hnp|done].
Qed.

Lemma fill_fails args es : forall m n,
  numbered m es n -> (n <= length args)%nat -> ~ Forall (fun a => supported a = true) (take (n - m) (drop m args)) ->
  map_res (fill args) es = Err ErrSQL.
Proof.
  assert (forall a e, anyToExpr a = Err e -> e = ErrSQL) as He by (intros a e; destruct a; cbn; try done; by intros [= <-]).
  induction es as [|e es IH]; intros m n Hn Hl Hbad.
  { cbn in Hn. subst. rewrite Nat.sub_diag in Hbad. by destruct Hbad. }
  cbn [map_res]. destruct e as [|i|s|b|k]; cbn [numbered] in Hn; try (by rewrite (IH m n Hn Hl Hbad)).
  destruct Hn as [-> Hn]. pose proof (numbered_le _ _ _ Hn). destruct (lookup_lt_is_Some_2 args m ltac:(lia)) as [a Ha].
  rewrite (drop_S _ _ _ Ha) in Hbad. replace (n - m)%nat with (S (n - S m)) in Hbad by lia. cbn [take] in Hbad.
  cbn [fill]. unfold fillParam. rewrite Ha. destruct (anyToExpr a) as [v|e] eqn:Ea; cbn [rbind]; [|by rewrite (He _ _ Ea)].
  rewrite (IH (S m) n Hn Hl); [done|]. intros Hgood. apply Hbad. constructor; [by destruct a|done].
Qed.

(** The loops over conditions and assignments, in terms of their expressions. *)
Lemma map_res_fill {A} (value : A -> expr) (put : A -> expr -> A) args (f : A -> res A) l :
  (forall x, f x = let! e := fill args (value x) in Ok (put x e)) ->
  map_res f l = let! es := map_res (fill args) (value <$> l) in Ok (zip_with put l es).
Proof.
  intros Hf. induction l as [|x l IH]; cbn [map_res fmap list_fmap]; [done|]. rewrite Hf, IH.
  destruct (fill args (value x)); [|done]. cbn [rbind]. by destruct (map_res (fill args) (value <$> l)).
Qed.

Definition put_pred (w : pred) (e : expr) : pred := match w with predColumn c _ => predColumn c e | predExtract c path _ => predExtract c path e end.
Definition put_assign (s : assign) (e : expr) : assign := mkAssign (as_column s) e.

Lemma map_res_app args a b :
  map_res (fill args) (a ++ b) = let! x := map_res (fill args) a in let! y := map_res (fill args) b in Ok (x ++ y).
Proof.
  induction a as [|e a IH]; cbn [map_res app rbind]; [by destruct (map_res (fill args) b)|]. destruct (fill args e); [|done]. cbn [rbind]. rewrite IH.
  destruct (map_res (fill args) a); [|done]. cbn [rbind]. by destruct (map_res (fill args) b).
Qed.

Lemma map_res_length args es fs : map_res (fill args) es = Ok fs -> length fs = length es.
Proof.
  revert fs. induction es as [|e es IH]; intros fs; cbn [map_res]; [by intros [= <-]|]. destruct (fill args e); [|done]. cbn [rbind].
  destruct (map_res (fill args) es) as [gs|]; [|done]. intros [= <-]. cbn. by rewrite (IH gs).
Qed.

Lemma put_preds ws es : length es = length ws -> pred_value <$> zip_with put_pred ws es = es /\ blank_pred <$> zip_with put_pred ws es = blank_pred <$> ws.
Proof.
  revert es. induction ws as [|w ws IH]; intros [|e es] H; try done. injection H as H. destruct (IH es H) as [E1 E2]. cbn. rewrite E1, E2. by destruct w.
Qed.

Lemma put_assigns ss es : length es = length ss -> as_value <$> zip_with put_assign ss es = es /\ blank_assign <$> zip_with put_assign ss es = blank_assign <$> ss.
Proof.
  revert es. induction ss as [|s ss IH]; intros [|e es] H; try done. injection H as H. destruct (IH es H) as [E1 E2]. cbn. by rewrite E1, E2.
Qed.

(** With enough arguments, binding replaces the expressions by the filled ones. *)
Lemma bindArgs_fill st args :
  maxParam st < zlen args ->
  match map_res (fill args) (stmt_exprs st) with
  | Ok es => exists st', bindArgs st args = Ok st' /\ stmt_exprs st' = es /\ skeleton st' = skeleton st
  | Err e => bindArgs st args = Err e
  end.
Proof.
  intros Hm. unfold bindArgs. rewrite (proj2 (Z.leb_gt _ _) Hm).
  assert (forall ws, map_res (fill_pred args) ws = let! es := map_res (fill args) (pred_value <$> ws) in Ok (zip_with put_pred ws es)) as Hp.
  { intros ws. apply map_res_fill. by intros []. }
  assert (forall ss, map_res (fill_assign args) ss = let! es := map_res (fill args) (as_value <$> ss) in Ok (zip_with put_assign ss es)) as Ha.
  { intros ss. by apply map_res_fill. }
  destruct st as [name cols|name|t cols values|t items ws|t sets ws|t ws|i t c path|i]; cbn [stmt_exprs]; try (by eexists).
  - destruct (map_res (fill args) values) as [es|] eqn:E; [|done]. eexists. split; [done|]. split; [done|]. cbn. f_equal.
    apply map_res_length in E. clear -E. revert es E. induction values as [|x values IH]; intros [|e es] H; try done. cbn. f_equal. apply IH. by injection H.
  - rewrite Hp. destruct (map_res (fill args) (pred_value <$> ws)) as [es|] eqn:E; [|done]. apply map_res_length in E. rewrite length_fmap in E.
    destruct (put_preds ws es E) as [E1 E2]. eexists. split; [done|]. cbn. by rewrite E1, E2.
  - rewrite Ha, Hp, map_res_app. destruct (map_res (fill args) (as_value <$> sets)) as [es|] eqn:E; [|done]. cbn [rbind].
    destruct (map_res (fill args) (pred_value <$> ws)) as [fs|] eqn:E'; [|done]. cbn [rbind]. apply map_res_length in E, E'. rewrite length_fmap in E. rewrite length_fmap in E'.
    destruct (put_assigns sets es E) as [E1 E2], (put_preds ws fs E') as [E3 E4]. eexists. split; [done|]. cbn. by rewrite E1, E2, E3, E4.
  - rewrite Hp. destruct (map_res (fill args) (pred_value <$> ws)) as [es|] eqn:E; [|done]. apply map_res_length in E. rewrite length_fmap in E.
    destruct (put_preds ws es E) as [E1 E2]. eexists. split; [done|]. cbn. by rewrite E1, E2.
Qed.

(** C31.  Binding is positional and complete: on a parsed statement with n
    parameters, bindArgs succeeds if and only if there are at least n arguments
    and the first n are of supported types; the bound statement is the same but
    for its i-th parameter, which is the i-th argument's value; otherwise the
    error is ErrSQL. *)
Theorem bindArgs_positional `{U : Unicode} st args :
  stmt_shape st ->
  let n := param_count (stmt_exprs st) in
  match decide (n <= length args)%nat with
  | left _ =>
      (exists vs st', Forall2 (fun a v => anyToExpr a = Ok v) (take n args) vs /\ bindArgs st args = Ok st' /\
         stmt_exprs st' = plug (stmt_exprs st) vs /\ skeleton st' = skeleton st /\ Forall (fun e => is_param e = false) vs) \/
      (~ Forall (fun a => supported a = true) (take n args) /\ bindArgs st args = Err ErrSQL)
  | right _ => bindArgs st args = Err ErrSQL
  end.
Proof.
  intros Hs n. pose proof (shape_params _ Hs) as Hn. fold n in Hn. assert (maxParam st = Z.of_nat n - 1) as Hm by (unfold maxParam; by rewrite (maxParam_numbered _ 0 n)).
  destruct (decide (n <= length args)%nat) as [Hl|Hl].
  - pose proof (bindArgs_fill st args) as Hb. rewrite Hm in Hb. specialize (Hb ltac:(unfold zlen; lia)).
    destruct (decide (Forall (fun a => supported a = true) (take n args))) as [Hg|Hg].
    + left. assert (exists vs, Forall2 (fun a v => anyToExpr a = Ok v) (take n args) vs) as [vs Hvs].
      { clear -Hg. induction Hg as [|a l Ha _ [vs IH]]; [by exists []|]. destruct (supported_ok a Ha) as [v Hv]. exists (v :: vs). by constructor. }
      destruct (fill_numbered args (stmt_exprs st) 0 n vs Hn) as [E Hnp]; [by rewrite Nat.sub_0_r, drop_0|done|]. rewrite E in Hb.
      destruct Hb as (st' & Eb & E1 & E2). exists vs, st'. done.
    + right. split; [done|]. rewrite (fill_fails args _ 0 n) in Hb; [done|done|done|]. by rewrite Nat.sub_0_r, drop_0.
  - unfold bindArgs. rewrite Hm, (proj2 (Z.leb_le _ _)); [done|]. unfold zlen. lia.
Qed.
End binding.

(** * The cursor *)

Section cursor.
Context `{J : GoJson}.

(** The loop of a client: Next, then Scan into Values, until Next is false;
    the rows read and the cursor after it. *)
Fixpoint fetch (fuel : nat) (r : Rows) : option (list (list scanned) * Rows) :=
  match fuel with
  | O => None
  | S fuel =>
      match Next r with
      | (r, false) => Some ([], r)
      | (r, true) =>
          match Scan r (replicate (length (Columns r)) DestValue) with
          | Err _ => None
          | Ok vs => '(rows, r) ← fetch fuel r; Some (vs :: rows, r)
          end
      end
  end.

Definition scan_row (row : list Value) : list scanned := ScValue <$> row.

Lemma scan_values (row : list Value) :
  map_res (fun dv => assignScan (fst dv) (snd dv)) (zip (replicate (length row) DestValue) row) = Ok (scan_row row).
Proof.
  induction row as [|v row IH]; [done|]. cbn [length replicate]. change (zip (DestValue :: replicate (length row) DestValue) (v :: row)) with ((DestValue, v) :: zip (replicate (length row) DestValue) row).
  cbn [map_res fst snd assignScan rbind]. by rewrite IH.
Qed.

Lemma fetch_from cols data rest : forall done_ fuel,
  data = done_ ++ rest -> Forall (fun row => length row = length cols) data -> (length rest < fuel)%nat ->
  fetch fuel (mkRows cols data (zlen done_ - 1) false) = Some (scan_row <$> rest, mkRows cols data (zlen data) false).
Proof.
  induction rest as [|row rest IH]; intros done_ fuel -> Hw Hf; (destruct fuel as [|fuel]; [cbn in Hf; lia|]); cbn [fetch]; unfold Next; cbn [r_closed r_data r_i].
  - rewrite app_nil_r. rewrite (proj2 (Z.leb_le _ _)) by lia. done.
  - rewrite zlen_app, zlen_cons. rewrite (proj2 (Z.leb_gt _ _)) by (pose proof (zlen_nonneg rest); lia).
    unfold set_row. cbn [r_columns r_data r_i r_closed Columns]. replace (zlen done_ - 1 + 1) with (zlen done_) by lia.
    unfold Scan. cbn [r_closed r_data r_i orb]. pose proof (zlen_nonneg done_). pose proof (zlen_nonneg rest).
    rewrite (proj2 (Z.ltb_ge _ _)) by lia. rewrite zlen_app, zlen_cons. rewrite (proj2 (Z.leb_gt _ _)) by lia. cbn [orb].
    rewrite to_nat_zlen. rewrite list_lookup_middle by done. change (default [] (Some row)) with row.
    assert (length row = length cols) as Hrow by (rewrite Forall_app, Forall_cons in Hw; tauto).
    rewrite length_replicate, Hrow, Nat.eqb_refl. cbn [negb]. rewrite <- Hrow, scan_values.
    replace (zlen done_) with (zlen (done_ ++ [row]) - 1) by (rewrite zlen_app, zlen_cons, zlen_nil; lia).
    rewrite (IH (done_ ++ [row]) fuel); [|by rewrite <- app_assoc|done|cbn in Hf; lia].
    cbn [mbind option_bind fmap list_fmap]. do 3 f_equal. rewrite !zlen_app, !zlen_cons, zlen_nil. lia.
Qed.

(** A cursor yields its rows: the loop of Next and Scan over a query result
    reads every row exactly once, in order, and ends; Scan fails before the first
    Next, after the end and after Close, where Next stays false. *)
Theorem cursor_yields_rows cols data fuel :
  Forall (fun row => length row = length cols) data -> (length data < fuel)%nat ->
  let r := mkRows cols data (-1) false in
  (forall ds, Scan r ds = Err ErrSQL) /\
  exists r', fetch fuel r = Some (scan_row <$> data, r') /\
  snd (Next r') = false /\ (forall ds, Scan r' ds = Err ErrSQL) /\
  forall q, snd (Next (CloseRows q)) = false /\ forall ds, Scan (CloseRows q) ds = Err ErrSQL.
Proof.
  intros Hw Hf r. split; [done|]. exists (mkRows cols data (zlen data) false). split; [by apply (fetch_from cols data data [])|].
  split; [unfold Next; cbn [r_closed r_data r_i]; rewrite (proj2 (Z.leb_le _ _)) by lia; done|]. split; [|done].
  intros ds. unfold Scan. cbn [r_closed r_data r_i]. rewrite Z.leb_refl. by rewrite orb_true_r.
Qed.
End cursor.
