(* ===== verification/SqlExec.v ===== *)
(** The executor (sql_exec.go): statements over the catalog, the rows in the
    transactional store, and the B+trees in memory.

    [Database] is the DB struct: the kernel of [Mvcc] and the SQL maps.  A
    statement is one function on it, as when one client runs; each is composed
    of its transaction and of the maintenance of the maps after the commit,
    which the source does under a lock of its own.  [None] is a run-time panic. *)

From S2P Require Import Prelude Utf8 Unicode Strconv Keys Page Row JsonBin SqlLex Wal Mvcc Catalog BTree Secondary.
From S2P Require Import SqlAst SqlParse SqlBind.

Record Database := mkDatabase {
  kv : DB;
  tables : gmap bytes TableDef;
  indexes : gmap bytes btree;
  secIndexes : gmap bytes secondaryIdx;
}.

Definition set_kv (k : DB) (db : Database) : Database := mkDatabase k (tables db) (indexes db) (secIndexes db).
Definition set_indexes (i : gmap bytes btree) (db : Database) : Database := mkDatabase (kv db) (tables db) i (secIndexes db).
Definition set_secs (s : gmap bytes secondaryIdx) (db : Database) : Database := mkDatabase (kv db) (tables db) (indexes db) s.

Record Result := mkResult { RowsAffected : Z }.

(** Go visits the entries of a map in any order, each once. *)
Record map_order := {
  range :> gmap bytes secondaryIdx -> list (bytes * secondaryIdx);
  range_perm : forall m, range m ≡ₚ map_to_list m;
}.

(** What a statement meets outside: the outcome of its append, the name of its
    transactions, and the orders of its two iterations over the indexes. *)
Record env := mkEnv { e_io : io; e_tx : nat; e_find : map_order; e_each : map_order }.

Record rowItem := mkRow { ri_pk : pkKey; ri_rowKey : bytes; ri_values : list Value }.

Record updateItem := mkUpdate { up_pk : pkKey; up_oldRow : list Value; up_newRow : list Value }.

(** Notation for code that can panic and fail. *)
Notation "'let?' x := m 'in' k" := (mbind (M := option) (fun r => match r with Ok x => k | Err e => Some (Err e) end) m)
  (at level 10, x pattern, m at level 100, k at level 200) : go_scope.

(** The result of [tx.put] and the like as a step of a transaction body. *)
Definition as_res (e : option error) : res unit := match e with None => Ok tt | Some e => Err e end.

Section exec.
Context `{U : Unicode} `{J : GoJson} `{F : GoFloat} `{R : RecordCodec} `{C : CatalogCodec}.

Definition normalizeColumns (cols : list ColumnDef) : list ColumnDef :=
  (fun c => mkColumn (normalizeName (col_Name c)) (col_Type c) (col_PK c)) <$> cols.

Definition tableDef (name : bytes) (db : Database) : res TableDef :=
  match tables db !! name with
  | None => Err ErrSQL
  | Some def => Ok def
  end.

(** * Collecting rows *)

(** [unpackRow] of a stored page, with its panic. *)
Definition row_of (name key raw : bytes) : option (res (option rowItem)) :=
  let? vals := unpackRow raw in
  match parseRowKey name key with
  | None => Some (Ok None)
  | Some enc => Some (let! k := pkKeyFromEncoded enc in Ok (Some (mkRow k key vals)))
  end.

(** The fast path of a primary-key equality. *)
Definition collect_pk (db : Database) (tx : Tx) (def : TableDef) (pkCol : ColumnDef) (e : expr) (k0 : DB)
  : option (DB * res (list rowItem)) :=
  match exprToValue e (col_Type pkCol) with
  | Err err => Some (k0, Err err)
  | Ok v =>
      let k := match col_Type pkCol with
               | TypeInteger => pkFromInt (Int v)
               | TypeText => pkFromString (Text v)
               | _ => mkKey false 0 []
               end in
      found ← match indexes db !! tab_Name def with
              | None => Some None
              | Some idx => BTree.Get idx k
              end;
      match found with
      | None => Some (k0, Ok [])
      | Some rk =>
          let '(k1, raw) := Mvcc.Get tx rk k0 in
          match raw with
          | None => Some (k1, Ok [])
          | Some raw =>
              r ← unpackRow raw;
              Some (k1, let! vals := r in Ok [mkRow k rk vals])
          end
      end
  end.

(** An equality on the primary key. *)
Definition is_pk_pred (pkCol : ColumnDef) (w : pred) : bool :=
  match w with
  | predColumn c _ => bool_decide (normalizeName c = col_Name pkCol)
  | predExtract _ _ _ => false
  end.

(** Whether an index answers a predicate. *)
Definition serves (def : TableDef) (w : pred) (si : secondaryIdx) : bool :=
  bool_decide (idx_Table (si_def si) = tab_Name def) &&
  match w with
  | predColumn c _ => bool_decide (idx_Path (si_def si) = []) && bool_decide (idx_Column (si_def si) = normalizeName c)
  | predExtract c path _ => bool_decide (idx_Path (si_def si) = path) && bool_decide (idx_Column (si_def si) = normalizeName c)
  end.

(** The value an index is looked up with. *)
Definition lookup_value (def : TableDef) (w : pred) : res Value :=
  match w with
  | predExtract _ _ e => predValueForExtract e
  | predColumn c e =>
      let! ci := columnIndex def (normalizeName c) in
      match tab_Columns def !! ci with
      | None => Err ErrSQL
      | Some col => exprToValue e (col_Type col)
      end
  end.

(** The loop over the row keys of an index. *)
Fixpoint rows_at (tx : Tx) (name : bytes) (rks : list bytes) (k0 : DB) : option (DB * res (list rowItem)) :=
  match rks with
  | [] => Some (k0, Ok [])
  | rk :: rks =>
      let '(k1, raw) := Mvcc.Get tx rk k0 in
      match raw with
      | None => rows_at tx name rks k1
      | Some raw =>
          r ← row_of name rk raw;
          match r with
          | Err e => Some (k1, Err e)
          | Ok item =>
              '(k2, out) ← rows_at tx name rks k1;
              Some (k2, let! out := out in Ok (match item with Some i => i :: out | None => out end))
          end
      end
  end.

(** The loop of the table scan. *)
Fixpoint scan_rows (def : TableDef) (ws : list pred) (pairs : list kvPair) : option (res (list rowItem)) :=
  match pairs with
  | [] => Some (Ok [])
  | p :: pairs =>
      let? vals := unpackRow (kv_value p) in
      let? ok := matchWhere def vals ws in
      if ok : bool then
        match parseRowKey (tab_Name def) (kv_key p) with
        | None => scan_rows def ws pairs
        | Some enc =>
            match pkKeyFromEncoded enc with
            | Err e => Some (Err e)
            | Ok k => let? out := scan_rows def ws pairs in Some (Ok (mkRow k (kv_key p) vals :: out))
            end
        end
      else scan_rows def ws pairs
  end.

Definition table_scan (tx : Tx) (def : TableDef) (ws : list pred) (k0 : DB) : option (DB * res (list rowItem)) :=
  let '(k1, pairs) := scanPrefix tx (rowKeyPrefix (tab_Name def)) k0 in
  out ← scan_rows def ws pairs;
  Some (k1, out).

Definition collectRows (v : env) (db : Database) (tx : Tx) (def : TableDef) (ws : list pred) (k0 : DB)
  : option (DB * res (list rowItem)) :=
  match pkColumn def with
  | Err e => Some (k0, Err e)
  | Ok (pkCol, _) =>
      match ws with
      | [w] =>
          if is_pk_pred pkCol w then collect_pk db tx def pkCol (pred_value w) k0
          else match List.find (fun kx => serves def w (snd kx)) (e_find v (secIndexes db)) with
          | Some (_, si) =>
              match lookup_value def w with
              | Err e => Some (k0, Err e)
              | Ok val => rks ← lookup si val; rows_at tx (tab_Name def) rks k0
              end
          | None => table_scan tx def ws k0
          end
      | _ => table_scan tx def ws k0
      end
  end.

(** * Maintaining the secondary indexes *)

(** The loop over the indexes of a table; [f] changes one index and may fail,
    which ends the loop. *)
Fixpoint each_index (name : bytes) (f : secondaryIdx -> option (secondaryIdx * option error))
    (order : list (bytes * secondaryIdx)) (m : gmap bytes secondaryIdx) : option (gmap bytes secondaryIdx * option error) :=
  match order with
  | [] => Some (m, None)
  | (k, si) :: order =>
      if negb (bool_decide (idx_Table (si_def si) = name)) then each_index name f order m
      else
        '(si, e) ← f si;
        match e with
        | Some e => Some (<[k := si]> m, Some e)
        | None => each_index name f order (<[k := si]> m)
        end
  end.

(** The entry of a new row. *)
Definition index_insert (def : TableDef) (vals : list Value) (pk : pkKey) (rk : bytes) (si : secondaryIdx)
  : option (secondaryIdx * option error) :=
  match valueFromRow si def vals with
  | Err e => Some (si, Some e)
  | Ok (iv, ok) => if ok : bool then si ← insert_entry si iv pk rk; Some (si, None) else Some (si, None)
  end.

(** The entries of changed rows. *)
Fixpoint index_update (name : bytes) (def : TableDef) (us : list updateItem) (si : secondaryIdx)
  : option (secondaryIdx * option error) :=
  match us with
  | [] => Some (si, None)
  | u :: us =>
      match valueFromRow si def (up_oldRow u) with
      | Err e => Some (si, Some e)
      | Ok (oldV, oldOK) =>
          match valueFromRow si def (up_newRow u) with
          | Err e => Some (si, Some e)
          | Ok (newV, newOK) =>
              si ← if oldOK : bool then remove_entry si oldV (up_pk u) else Some si;
              si ← if newOK : bool then insert_entry si newV (up_pk u) (rowKey name (pk_encode (up_pk u))) else Some si;
              index_update name def us si
          end
      end
  end.

(** The entries of removed rows. *)
Fixpoint index_delete (def : TableDef) (items : list rowItem) (si : secondaryIdx) : option (secondaryIdx * option error) :=
  match items with
  | [] => Some (si, None)
  | it :: items =>
      match valueFromRow si def (ri_values it) with
      | Err e => Some (si, Some e)
      | Ok (iv, ok) =>
          si ← if ok : bool then remove_entry si iv (ri_pk it) else Some si;
          index_delete def items si
      end
  end.

Definition finish (r : gmap bytes secondaryIdx * option error) (n : Z) (db : Database) : Database * res Result :=
  (set_secs (fst r) db, match snd r with None => Ok (mkResult n) | Some e => Err e end).

(** * Statements *)

Definition execCreate (v : env) (name0 : bytes) (cols0 : list ColumnDef) (db : Database) : option (Database * res Result) :=
  let name := normalizeName name0 in
  let def := mkTable name (normalizeColumns cols0) in
  '(k, r) ← Update (e_io v) (e_tx v) (fun k tx =>
      let '(k, got) := Mvcc.Get tx (catalogTableKey name) k in
      match got with
      | Some _ => Some (k, tx, Err ErrSQL)
      | None => let '(tx, e) := saveTableDef def tx in Some (k, tx, as_res e)
      end) (kv db);
  let db := set_kv k db in
  match r with
  | Err e => Some (db, Err e)
  | Ok _ =>
      Some (mkDatabase k (<[name := def]> (tables db)) (<[name := newBTree]> (indexes db)) (secIndexes db), Ok (mkResult 0))
  end.

(** [tx.del] of every key, stopping at an error. *)
Fixpoint del_all (keys : list bytes) (tx : Tx) : Tx * option error :=
  match keys with
  | [] => (tx, None)
  | key :: keys =>
      match del key tx with
      | (tx, Some e) => (tx, Some e)
      | (tx, None) => del_all keys tx
      end
  end.

Definition drop_body (name : bytes) (k : DB) (tx : Tx) : DB * Tx * res Z :=
  let '(k, def) := loadTableDef tx name k in
  match def with
  | Err e => (k, tx, Err e)
  | Ok _ =>
      let '(k, pairs) := scanPrefix tx (rowKeyPrefix name) k in
      match del_all (kv_key <$> pairs) tx with
      | (tx, Some e) => (k, tx, Err e)
      | (tx, None) =>
          let '(k, idxDefs) := listIndexDefs tx k in
          match idxDefs with
          | Err e => (k, tx, Err e)
          | Ok defs =>
              let mine := filter (fun d => normalizeName (idx_Table d) = name) defs in
              match del_all (catalogIndexKey <$> (idx_Name <$> mine)) tx with
              | (tx, Some e) => (k, tx, Err e)
              | (tx, None) =>
                  let '(tx, e) := dropTableDef name tx in
                  (k, tx, let! _ := as_res e in Ok (zlen pairs))
              end
          end
      end
  end.

Definition execDrop (v : env) (name0 : bytes) (db : Database) : option (Database * res Result) :=
  let name := normalizeName name0 in
  '(k, r) ← Update (e_io v) (e_tx v) (fun k tx => Some (drop_body name k tx)) (kv db);
  let db := set_kv k db in
  match r with
  | Err e => Some (db, Err e)
  | Ok n =>
      Some (mkDatabase k (delete name (tables db)) (delete name (indexes db))
              (filter (fun kx => idx_Table (si_def (snd kx)) <> name) (secIndexes db)), Ok (mkResult n))
  end.

(** The column indexes an INSERT names, in order. *)
Definition insert_columns (def : TableDef) (cols : list bytes) (values : list expr) : res (list nat) :=
  match cols with
  | [] => if negb (length values =? length (tab_Columns def))%nat then Err ErrSQL else Ok (seq 0 (length (tab_Columns def)))
  | _ =>
      if negb (length cols =? length values)%nat then Err ErrSQL
      else map_res (fun c => columnIndex def (normalizeName c)) cols
  end.

(** Assign expressions to columns of a row. *)
Fixpoint set_values (def : TableDef) (cis : list (nat * expr)) (vals : list Value) : res (list Value) :=
  match cis with
  | [] => Ok vals
  | (ci, e) :: cis =>
      match tab_Columns def !! ci with
      | None => Err ErrSQL
      | Some c => let! v := exprToValue e (col_Type c) in set_values def cis (<[ci := v]> vals)
      end
  end.

(** The row of an INSERT and its primary key. *)
Definition insert_row (def : TableDef) (cols : list bytes) (values : list expr) : res (list Value * pkKey) :=
  let! (pkCol, pkIdx) := pkColumn def in
  let! cis := insert_columns def cols values in
  let! vals := set_values def (zip cis values) ((fun c => nullOf (col_Type c)) <$> tab_Columns def) in
  match vals !! pkIdx with
  | None => Err ErrSQL
  | Some pv =>
      if Null pv then Err ErrSQL
      else match col_Type pkCol with
      | TypeInteger => Ok (vals, pkFromInt (Int pv))
      | TypeText => Ok (vals, pkFromString (Text pv))
      | _ => Err ErrSQL
      end
  end.

Definition execInsert (v : env) (table : bytes) (cols : list bytes) (values : list expr) (db : Database)
  : option (Database * res Result) :=
  let name := normalizeName table in
  match tables db !! name with
  | None => Some (db, Err ErrSQL)
  | Some def =>
      match insert_row def cols values with
      | Err e => Some (db, Err e)
      | Ok (vals, pk) =>
          let rk := rowKey name (pk_encode pk) in
          match packRow vals with
          | Err e => Some (db, Err e)
          | Ok page =>
              '(k, r) ← Update (e_io v) (e_tx v) (fun k tx =>
                  let '(k, got) := Mvcc.Get tx rk k in
                  match got with
                  | Some _ => Some (k, tx, Err ErrSQL)
                  | None => let '(tx, e) := put rk page tx in Some (k, tx, as_res e)
                  end) (kv db);
              let db := set_kv k db in
              match r with
              | Err e => Some (db, Err e)
              | Ok _ =>
                  t ← BTree.Put (default newBTree (indexes db !! name)) pk rk;
                  let db := set_indexes (<[name := t]> (indexes db)) db in
                  secs ← each_index name (index_insert def vals pk rk) (e_each v (secIndexes db)) (secIndexes db);
                  Some (finish secs 1 db)
              end
          end
      end
  end.

(** The assignments of an UPDATE on one row. *)
Fixpoint apply_sets (def : TableDef) (sets : list assign) (vals : list Value) : res (list Value) :=
  match sets with
  | [] => Ok vals
  | a :: sets =>
      let! ci := columnIndex def (normalizeName (as_column a)) in
      match tab_Columns def !! ci with
      | None => Err ErrSQL
      | Some c => let! v := exprToValue (as_value a) (col_Type c) in apply_sets def sets (<[ci := v]> vals)
      end
  end.

(** The loop over the matched rows of an UPDATE. *)
Fixpoint update_rows (def : TableDef) (sets : list assign) (items : list rowItem) (tx : Tx) : Tx * res (list updateItem) :=
  match items with
  | [] => (tx, Ok [])
  | it :: items =>
      match (let! vals := apply_sets def sets (ri_values it) in let! page := packRow vals in Ok (vals, page)) with
      | Err e => (tx, Err e)
      | Ok (vals, page) =>
          match put (ri_rowKey it) page tx with
          | (tx, Some e) => (tx, Err e)
          | (tx, None) =>
              let '(tx, us) := update_rows def sets items tx in
              (tx, let! us := us in Ok (mkUpdate (ri_pk it) (ri_values it) vals :: us))
          end
      end
  end.

Definition update_body (v : env) (db : Database) (def : TableDef) (sets : list assign) (ws : list pred) (k : DB) (tx : Tx)
  : option (DB * Tx * res (list updateItem)) :=
  '(k, items) ← collectRows v db tx def ws k;
  match items with
  | Err e => Some (k, tx, Err e)
  | Ok items => let '(tx, us) := update_rows def sets items tx in Some (k, tx, us)
  end.

(** Whether an UPDATE assigns the primary key, by its normalised name. *)
Definition sets_pk (pkCol : ColumnDef) (sets : list assign) : bool :=
  existsb (fun a => bool_decide (normalizeName (as_column a) = col_Name pkCol)) sets.

(** The second part of an UPDATE, under the database lock. *)
Definition update_indexes (v : env) (name : bytes) (def : TableDef) (us : list updateItem) (db : Database)
  : option (Database * res Result) :=
  secs ← each_index name (index_update name def us) (e_each v (secIndexes db)) (secIndexes db);
  Some (finish secs (zlen us) db).

(** The count the source returns beside an error is not kept. *)
Definition execUpdate (v : env) (table : bytes) (sets : list assign) (ws : list pred) (db : Database)
  : option (Database * res Result) :=
  let name := normalizeName table in
  match tableDef name db with
  | Err e => Some (db, Err e)
  | Ok def =>
      match pkColumn def with
      | Err e => Some (db, Err e)
      | Ok (pkCol, _) =>
          if sets_pk pkCol sets then Some (db, Err ErrSQL)
          else
            '(k, r) ← Update (e_io v) (e_tx v) (update_body v db def sets ws) (kv db);
            let db := set_kv k db in
            match r with
            | Err e => Some (db, Err e)
            | Ok us => update_indexes v name def us db
            end
      end
  end.

Definition delete_body (v : env) (db : Database) (def : TableDef) (ws : list pred) (k : DB) (tx : Tx)
  : option (DB * Tx * res (list rowItem)) :=
  '(k, items) ← collectRows v db tx def ws k;
  match items with
  | Err e => Some (k, tx, Err e)
  | Ok items =>
      let '(tx, e) := del_all (ri_rowKey <$> items) tx in
      Some (k, tx, let! _ := as_res e in Ok items)
  end.

(** [idx.Delete] of every removed key. *)
Fixpoint delete_keys (keys : list pkKey) (t : btree) : option btree :=
  match keys with
  | [] => Some t
  | k :: keys => t ← BTree.Delete t k; delete_keys keys t
  end.

Definition execDelete (v : env) (table : bytes) (ws : list pred) (db : Database) : option (Database * res Result) :=
  let name := normalizeName table in
  match tableDef name db with
  | Err e => Some (db, Err e)
  | Ok def =>
      match pkColumn def with
      | Err e => Some (db, Err e)
      | Ok _ =>
          '(k, r) ← Update (e_io v) (e_tx v) (delete_body v db def ws) (kv db);
          let db := set_kv k db in
          match r with
          | Err e => Some (db, Err e)
          | Ok items =>
              db ← match indexes db !! name with
                   | None => Some db
                   | Some idx => idx ← delete_keys (ri_pk <$> items) idx; Some (set_indexes (<[name := idx]> (indexes db)) db)
                   end;
              secs ← each_index name (index_delete def items) (e_each v (secIndexes db)) (secIndexes db);
              Some (finish secs (zlen items) db)
          end
      end
  end.

(** * Queries *)

(** A projection: a column of the row, or an extraction from it. *)
Inductive proj :=
  | ProjColumn (colIdx : nat) (name : bytes)
  | ProjExtract (colIdx : nat) (path name : bytes).

Definition proj_name (p : proj) : bytes := match p with ProjColumn _ n | ProjExtract _ _ n => n end.

Definition star_projs (def : TableDef) : list proj := imap (fun i c => ProjColumn i (col_Name c)) (tab_Columns def).

Definition column_at (def : TableDef) (name : bytes) : res (nat * ColumnDef) :=
  let! i := columnIndex def (normalizeName name) in
  match tab_Columns def !! i with
  | None => Err ErrSQL
  | Some c => Ok (i, c)
  end.

Definition item_projs (def : TableDef) (it : selectItem) : res (list proj) :=
  match it with
  | selectStar => Ok (star_projs def)
  | selectColumn c => let! (i, col) := column_at def c in Ok [ProjColumn i (col_Name col)]
  | selectExtract c path =>
      let! (i, col) := column_at def c in
      if negb (bool_decide (col_Type col = TypeJSON)) then Err ErrSQL
      else Ok [ProjExtract i path (lit "json_extract(" ++ col_Name col ++ lit ", '" ++ path ++ lit "')")]
  end.

Definition select_projs (def : TableDef) (items : list selectItem) : res (list proj) :=
  match items with
  | [] | [selectStar] => Ok (star_projs def)
  | _ => let! ps := map_res (item_projs def) items in Ok (concat ps)
  end.

(** [None] is a panic of [item.values[p.colIdx]]. *)
Definition project (p : proj) (vals : list Value) : option (res Value) :=
  match p with
  | ProjColumn i _ => v ← vals !! i; Some (Ok v)
  | ProjExtract i path _ =>
      col ← vals !! i;
      Some (if Null col || negb (bool_decide (Typ col = TypeJSON)) then Ok NullValue
            else let! (x, ok) := jsonExtract (Blob col) path in Ok (if ok : bool then x else NullValue))
  end.

(** Loops over projections and rows that can panic and fail. *)
Fixpoint map_panic {A B} (f : A -> option (res B)) (l : list A) : option (res (list B)) :=
  match l with
  | [] => Some (Ok [])
  | x :: l => let? y := f x in let? ys := map_panic f l in Some (Ok (y :: ys))
  end.

Definition select_body (v : env) (db : Database) (def : TableDef) (projs : list proj) (ws : list pred) (k : DB) (tx : Tx)
  : option (DB * Tx * res (list (list Value))) :=
  '(k, items) ← collectRows v db tx def ws k;
  match items with
  | Err e => Some (k, tx, Err e)
  | Ok items => data ← map_panic (fun it => map_panic (fun p => project p (ri_values it)) projs) items; Some (k, tx, data)
  end.

Definition execSelect (v : env) (table : bytes) (items : list selectItem) (ws : list pred) (db : Database)
  : option (Database * res Rows) :=
  let name := normalizeName table in
  match tableDef name db with
  | Err e => Some (db, Err e)
  | Ok def =>
      match select_projs def items with
      | Err e => Some (db, Err e)
      | Ok projs =>
          '(k, r) ← View (e_tx v) (select_body v db def projs ws) (kv db);
          Some (set_kv k db, let! data := r in Ok (mkRows (proj_name <$> projs) data (-1) false))
      end
  end.

(** * Indexes *)

(** The loops that build an index from the rows of a table. *)
Fixpoint build_index (name : bytes) (def : TableDef) (pairs : list kvPair) (si : secondaryIdx) : option (res secondaryIdx) :=
  match pairs with
  | [] => Some (Ok si)
  | p :: pairs =>
      let? vals := unpackRow (kv_value p) in
      match parseRowKey name (kv_key p) with
      | None => build_index name def pairs si
      | Some enc =>
          match (let! pk := pkKeyFromEncoded enc in let! iv := valueFromRow si def vals in Ok (pk, iv)) with
          | Err e => Some (Err e)
          | Ok (pk, (iv, ok)) =>
              si ← if ok : bool then insert_entry si iv pk (kv_key p) else Some si;
              build_index name def pairs si
          end
      end
  end.

(** The checks on the indexed column. *)
Definition index_column_ok (def : TableDef) (colName path : bytes) : res unit :=
  let! (pkCol, _) := pkColumn def in
  if bool_decide (colName = col_Name pkCol) then Err ErrSQL
  else
    let! ci := columnIndex def colName in
    match tab_Columns def !! ci with
    | None => Err ErrSQL
    | Some c =>
        if negb (bool_decide (path = [])) then
          if negb (bool_decide (col_Type c = TypeJSON)) then Err ErrSQL
          else let! _ := parseJSONPath path in Ok tt
        else if negb (bool_decide (col_Type c = TypeInteger)) && negb (bool_decide (col_Type c = TypeText)) then Err ErrSQL
        else Ok tt
    end.

Definition execCreateIndex (v : env) (index table column path : bytes) (db : Database) : option (Database * res Result) :=
  let idxName := normalizeName index in
  let tableName := normalizeName table in
  let colName := normalizeName column in
  match tables db !! tableName with
  | None => Some (db, Err ErrSQL)
  | Some def =>
      if bool_decide (is_Some (secIndexes db !! idxName)) then Some (db, Err ErrSQL)
      else match index_column_ok def colName path with
      | Err e => Some (db, Err e)
      | Ok _ =>
          let idef := mkIndex idxName tableName colName path in
          '(k, r) ← View (e_tx v) (fun k tx =>
              let '(k, pairs) := scanPrefix tx (rowKeyPrefix tableName) k in
              si ← build_index tableName def pairs (newSecondaryIdx idef);
              Some (k, tx, si)) (kv db);
          let db := set_kv k db in
          match r with
          | Err e => Some (db, Err e)
          | Ok si =>
              '(k, r) ← Update (e_io v) (e_tx v) (fun k tx => let '(tx, e) := saveIndexDef idef tx in Some (k, tx, as_res e)) (kv db);
              let db := set_kv k db in
              match r with
              | Err e => Some (db, Err e)
              | Ok _ => Some (set_secs (<[idxName := si]> (secIndexes db)) db, Ok (mkResult 0))
              end
          end
      end
  end.

Definition execDropIndex (v : env) (index : bytes) (db : Database) : option (Database * res Result) :=
  let idxName := normalizeName index in
  if negb (bool_decide (is_Some (secIndexes db !! idxName))) then Some (db, Err ErrSQL)
  else
    '(k, r) ← Update (e_io v) (e_tx v) (fun k tx => let '(tx, e) := dropIndexDef idxName tx in Some (k, tx, as_res e)) (kv db);
    let db := set_kv k db in
    match r with
    | Err e => Some (db, Err e)
    | Ok _ => Some (set_secs (delete idxName (secIndexes db)) db, Ok (mkResult 0))
    end.

(** * Rebuilding the maps on open *)

(** The primary-key tree of the scanned rows. *)
Fixpoint build_tree (name : bytes) (pairs : list kvPair) (t : btree) : option (res btree) :=
  match pairs with
  | [] => Some (Ok t)
  | p :: pairs =>
      match parseRowKey name (kv_key p) with
      | None => build_tree name pairs t
      | Some enc =>
          match pkKeyFromEncoded enc with
          | Err e => Some (Err e)
          | Ok k => t ← BTree.Put t k (kv_key p); build_tree name pairs t
          end
      end
  end.

Definition normalize_table (def : TableDef) : TableDef := mkTable (normalizeName (tab_Name def)) (normalizeColumns (tab_Columns def)).
Definition normalize_index (d : IndexDef) : IndexDef :=
  mkIndex (normalizeName (idx_Name d)) (normalizeName (idx_Table d)) (normalizeName (idx_Column d)) (idx_Path d).

(** The first loop: tables and primary-key trees, with the scanned rows kept in [cache]. *)
Fixpoint rebuild_tables (defs : list TableDef) (tx : Tx) (cache : gmap bytes (list kvPair)) (db : Database)
  : option (Database * res (gmap bytes (list kvPair))) :=
  match defs with
  | [] => Some (db, Ok cache)
  | def :: defs =>
      let def := normalize_table def in
      let name := tab_Name def in
      let '(k, pairs) := scanPrefix tx (rowKeyPrefix name) (kv db) in
      let db := mkDatabase k (<[name := def]> (tables db)) (indexes db) (secIndexes db) in
      t ← build_tree name pairs newBTree;
      match t with
      | Err e => Some (db, Err e)
      | Ok t => rebuild_tables defs tx (<[name := pairs]> cache) (set_indexes (<[name := t]> (indexes db)) db)
      end
  end.

(** The second loop: secondary indexes; one whose table or column is missing is skipped. *)
Fixpoint rebuild_indexes (defs : list IndexDef) (cache : gmap bytes (list kvPair)) (db : Database) : option (Database * res unit) :=
  match defs with
  | [] => Some (db, Ok tt)
  | idef :: defs =>
      let idef := normalize_index idef in
      match tables db !! idx_Table idef with
      | None => rebuild_indexes defs cache db
      | Some tdef =>
          match columnIndex tdef (idx_Column idef) with
          | Err _ => rebuild_indexes defs cache db
          | Ok _ =>
              r ← build_index (idx_Table idef) tdef (default [] (cache !! idx_Table idef)) (newSecondaryIdx idef);
              match r with
              | Err e => Some (db, Err e)
              | Ok si => rebuild_indexes defs cache (set_secs (<[idx_Name idef := si]> (secIndexes db)) db)
              end
          end
      end
  end.

(** The transaction is built by hand and not registered; its number is never used. *)
Definition rebuildSQLState (k : DB) : option (Database * res unit) :=
  let tx := mkTx 0 (db_version k) false ∅ false in
  let '(k, defs) := listTableDefs tx k in
  let db := mkDatabase k ∅ ∅ ∅ in
  match defs with
  | Err e => Some (db, Err e)
  | Ok defs =>
      '(db, r) ← rebuild_tables defs tx ∅ db;
      match r with
      | Err e => Some (db, Err e)
      | Ok cache =>
          let '(k, idxDefs) := listIndexDefs tx (kv db) in
          let db := set_kv k db in
          match idxDefs with
          | Err e => Some (db, Err e)
          | Ok idxDefs => rebuild_indexes idxDefs cache db
          end
      end
  end.

(** * Entry points *)

(** [None] is a panic; the parser always answers. *)
Definition exec_stmt (v : env) (st : stmt) (db : Database) : option (Database * res Result) :=
  match st with
  | createTableStmt name cols => execCreate v name cols db
  | dropTableStmt name => execDrop v name db
  | insertStmt t cols values => execInsert v t cols values db
  | updateStmt t sets ws => execUpdate v t sets ws db
  | deleteStmt t ws => execDelete v t ws db
  | createIndexStmt i t c path => execCreateIndex v i t c path db
  | dropIndexStmt i => execDropIndex v i db
  | selectStmt _ _ _ => Some (db, Err ErrSQL)
  end.

Definition Exec (v : env) (sql : bytes) (args : list arg) (db : Database) : option (Database * res Result) :=
  st ← parseSQL sql;
  match (let! st := st in bindArgs st args) with
  | Err e => Some (db, Err e)
  | Ok st => exec_stmt v st db
  end.

Definition Query (v : env) (sql : bytes) (args : list arg) (db : Database) : option (Database * res Rows) :=
  st ← parseSQL sql;
  match (let! st := st in bindArgs st args) with
  | Err e => Some (db, Err e)
  | Ok (selectStmt t items ws) => execSelect v t items ws db
  | Ok _ => Some (db, Err ErrSQL)
  end.

End exec.
