(* ===== verification/SqlKernel.v ===== *)
(** The kernel as a statement sees it: one transaction on the current data.
    [now] is the latest committed value of a key; a body run by [Update] or
    [View] reads [now] under its own writes, and [Update] either makes all its
    writes current or changes nothing. *)

From S2P Require Import Prelude Utf8 Strconv Keys Wal Mvcc Compact System Durable.

Definition now (k : DB) (key : bytes) : option bytes := committed k (db_version k) key.

(** The state a statement's transaction starts in, and its transaction. *)
Definition began (id : nat) (k : DB) : DB := set_active (<[id := db_version k]> (db_active k)) k.
Definition fresh_tx (id : nat) (w : bool) (k : DB) : Tx := mkTx id (db_version k) w ∅ false.

(** The same data and log: only counters and the registry may differ. *)
Record same_data (k k' : DB) : Prop := {
  sd_version : db_version k' = db_version k;
  sd_history : db_history k' = db_history k;
  sd_closed : db_closed k' = db_closed k;
  sd_file : db_file k' = db_file k;
  sd_active : forall id v, db_active k' !! id = Some v -> 0 <= v <= db_version k;
}.

(** The same data behind a log that may hold the rest of a failed append. *)
Definition lost_data (k k' : DB) : Prop := same_data k (set_file (db_file k) k').

Definition writes_wf (w : gmap bytes operation) : Prop := forall key op, w !! key = Some op -> op_key op = key.

(** A key's value under the writes [w]. *)
Definition under (w : gmap bytes operation) (n : bytes -> option bytes) (key : bytes) : option bytes :=
  match w !! key with
  | Some op => write_value op
  | None => n key
  end.

(** * Data *)

Lemma same_data_wf k k' : db_wf k -> same_data k k' -> db_wf k'.
Proof.
  intros [Hv Hh _] [Ev Eh _ _ Ha]. split; rewrite ?Ev, ?Eh; [done..|].
  intros id v H. apply Ha in H. done.
Qed.

Lemma same_data_now k k' key : same_data k k' -> now k' key = now k key.
Proof. intros [Ev Eh _ _ _]. unfold now, committed, versions_of. by rewrite Ev, Eh. Qed.

Lemma same_data_refl k : db_wf k -> same_data k k.
Proof. intros Hk. split; [done..|]. apply (wf_active k Hk). Qed.

Lemma same_data_trans k1 k2 k3 : same_data k1 k2 -> same_data k2 k3 -> same_data k1 k3.
Proof. intros [V1 H1 C1 F1 A1] [V2 H2 C2 F2 A2]. split; [congruence..|]. intros id v H. apply A2 in H. congruence. Qed.

Lemma same_data_reads k k' n : same_data k k' -> same_data k (add_reads n k').
Proof. by intros [V H C F A]. Qed.

Lemma same_data_began id k : db_wf k -> same_data k (began id k).
Proof.
  intros Hk. split; [done..|]. intros id' v. cbn [began set_active db_active]. rewrite lookup_insert_Some.
  intros [[_ <-]|[_ H]]; [pose proof (wf_version k Hk); lia|]. by apply (wf_active k Hk) in H.
Qed.

Lemma same_data_unregister k k' tx : same_data k k' -> same_data k (unregister tx k').
Proof.
  intros [V H C F A]. split; [done..|]. intros id v. cbn. intros [_ ?]%lookup_delete_Some. eauto.
Qed.

Lemma lost_data_wf k k' : db_wf k -> lost_data k k' -> db_wf k'.
Proof. intros Hk Hs. pose proof (same_data_wf _ _ Hk Hs) as [H1 H2 H3]. by split. Qed.

Lemma lost_data_now k k' key : lost_data k k' -> now k' key = now k key.
Proof. intros Hs. exact (same_data_now _ _ key Hs). Qed.

(** * Reads *)

Section reads.
Context (k k' : DB) (id : nat) (wr : bool) (w : gmap bytes operation).
Hypothesis same : same_data k k'.
Let tx := set_writes w (fresh_tx id wr k).

Lemma Get_now key : Get tx key k' = (add_reads 1 k', under w (now k) key).
Proof.
  unfold Get, tx, under. cbn [set_writes fresh_tx tx_closed tx_writes tx_readVersion]. destruct (w !! key) as [op|]; [done|].
  f_equal. unfold now, committed, versions_of. by rewrite (sd_history _ _ same).
Qed.

Lemma scan_now prefix :
  exists n pairs, scanPrefix tx prefix k' = (add_reads n k', pairs) /\
  StronglySorted kv_lt pairs /\
  forall key v, mkKV key v ∈ pairs <-> has_prefix key prefix = true /\ under w (now k) key = Some v.
Proof.
  destruct (scanPrefix_spec tx prefix k' eq_refl) as [Hs Hin].
  destruct (scanPrefix tx prefix k') as [k2 pairs] eqn:E. cbn [snd] in *. unfold scanPrefix in E. cbn in E.
  injection E as E1 E2. exists (zlen pairs), pairs. split; [|split; [done|]].
  - f_equal. rewrite <- E1, <- E2. unfold zlen. by rewrite (Permutation_length (merge_sort_Permutation _ _)).
  - intros key v. rewrite Hin, Get_now. done.
Qed.
End reads.

(** * Statements *)

(** Running a transaction that changes nothing. *)
Lemma View_run {A} id (fn : DB -> Tx -> option (DB * Tx * res A)) k k2 tx2 r :
  db_wf k -> db_closed k = false ->
  fn (began id k) (fresh_tx id false k) = Some (k2, tx2, r) -> same_data k k2 ->
  exists k', View id fn k = Some (k', r) /\ same_data k k'.
Proof.
  intros Hk Hc Hfn Hs. unfold View, Begin. rewrite Hc. cbn [tx_readVersion]. fold (began id k). unfold fresh_tx in Hfn.
  rewrite Hfn. cbn [mbind option_bind]. eexists. split; [done|]. unfold Rollback. case_match; [done|]. by apply same_data_unregister.
Qed.

Lemma View_closed {A} id (fn : DB -> Tx -> option (DB * Tx * res A)) k :
  db_closed k = true -> View id fn k = Some (k, Err ErrClosed).
Proof. intros Hc. unfold View, Begin. by rewrite Hc. Qed.

Section update.
Context `{R : RecordCodec}.

Lemma Update_closed {A} o id (fn : DB -> Tx -> option (DB * Tx * res A)) k :
  db_closed k = true -> Update o id fn k = Some (k, Err ErrClosed).
Proof. intros Hc. unfold Update, Begin. by rewrite Hc. Qed.

(** The commit of a statement's transaction meets no conflict: it began on the current data. *)
Lemma Commit_run o id k k2 w :
  db_wf k -> db_version k + 1 < 2 ^ 64 -> db_closed k = false -> same_data k k2 -> writes_wf w ->
  exists k' tx' e, Commit o (set_writes w (fresh_tx id true k)) k2 = (k', tx', e) /\ tx_closed tx' = true /\
  match e with
  | None => db_wf k' /\ db_closed k' = false /\ db_version k' <= db_version k + 1 /\ forall key, now k' key = under w (now k) key
  | Some e => e = ErrIO /\ lost_data k k' /\ o <> IoOk
  end.
Proof.
  intros Hk Hmax Hc Hs Hw. pose proof (same_data_wf _ _ Hk Hs) as Hk2. set (tx := set_writes w (fresh_tx id true k)).
  assert (tx_wf tx) as Htx by done. unfold Commit. cbn [tx set_writes fresh_tx tx_closed tx_writable negb]. fold tx.
  rewrite (sd_closed _ _ Hs), Hc. destruct (existsb (has_conflict k2 tx) (write_keys tx)) eqn:Ec.
  { apply existsb_conflict in Ec as (key & _ & Hn). change (tx_readVersion tx) with (db_version k) in Hn.
    rewrite <- (sd_version _ _ Hs), newer_current in Hn by done. done. }
  destruct (decide (write_keys tx = [])) as [Hkeys|Hkeys].
  { rewrite bool_decide_true by done. eexists _, _, _. split; [done|]. split; [done|].
    pose proof (same_data_unregister k k2 tx Hs) as Hu. split; [exact (same_data_wf _ _ Hk Hu)|]. split; [rewrite (sd_closed _ _ Hu); exact Hc|].
    split; [rewrite (sd_version _ _ Hu); lia|]. intros key. rewrite (same_data_now k) by done. apply write_keys_nil in Hkeys.
    unfold under. change (tx_writes tx) with w in Hkeys. by rewrite Hkeys, lookup_empty. }
  rewrite bool_decide_false by done. assert (lost_data k (set_file (db_file k2 ++ encodeRecord (commit_record k2 tx)) k2)) as Hf.
  { by destruct Hs. }
  pose proof (wf_version _ Hk) as Hv0. pose proof (sd_version _ _ Hs) as Ev2.
  assert (db_version k2 + 1 < 2 ^ 64) as Hmax2 by lia.
  destruct o as [|n|]; cbn [appendRecord].
  - eexists _, _, _. split; [done|]. split; [done|]. pose proof (commit_version k2 tx Hk2 Hmax2) as Hcv.
    assert (db_wf (apply (commit_record k2 tx) (set_file (db_file k2 ++ encodeRecord (commit_record k2 tx)) k2))) as Hw'.
    { apply db_wf_apply; [exact (lost_data_wf _ _ Hk Hf)|rewrite Hcv; cbn [set_file db_version]; lia|]. intros key. by apply commit_record_one. }
    split; [|split; [|split]].
    + eapply db_wf_frame; [exact Hw'|done..|]. intros i v. cbn. by intros [_ ?]%lookup_delete_Some.
    + cbn. rewrite closed_apply. cbn. by rewrite (sd_closed _ _ Hs).
    + cbn. rewrite version_apply, Hcv. cbn [set_file db_version]. lia.
    + intros key. unfold now, committed. cbn [unregister set_active add_commit db_version].
      change (versions_of (unregister tx (add_commit ?x)) key) with (versions_of x key).
      rewrite version_apply, Hcv. cbn [set_file db_version]. rewrite Z.max_r by lia.
      pose proof (committed_commit k2 tx Hk2 Htx Hmax2 (db_version k2 + 1) key) as Hcc.
      rewrite Z.ltb_irrefl in Hcc. unfold committed in Hcc. rewrite !versions_of_apply in *. cbn [set_file] in *.
      change (versions_of (set_file _ k2) key) with (versions_of k2 key).
      rewrite Hcc. unfold under. change (tx_writes tx) with w. destruct (w !! key); [done|].
      unfold now, committed. rewrite Ev2. unfold versions_of. rewrite (sd_history _ _ Hs). f_equal.
      pose proof (versions_of_wf k key Hk) as Hvw. unfold versions_of in Hvw.
      by rewrite !(visible_last _ (db_version k)) by (done || lia).
  - eexists _, _, _. split; [done|]. split; [done|]. split; [done|]. split; [|done]. apply (same_data_unregister k (set_file (db_file k) _)). by destruct Hs.
  - eexists _, _, _. split; [done|]. split; [done|]. split; [done|]. split; [|done]. apply (same_data_unregister k (set_file (db_file k) _)). by destruct Hs.
Qed.

(** [Update] on a body that computes the writes [w]; a lost write is reported as an I/O error. *)
Lemma Update_run_io {A} o id (fn : DB -> Tx -> option (DB * Tx * res A)) k k2 w r :
  db_wf k -> db_version k + 1 < 2 ^ 64 -> db_closed k = false ->
  fn (began id k) (fresh_tx id true k) = Some (k2, set_writes w (fresh_tx id true k), r) ->
  same_data k k2 -> writes_wf w ->
  exists k' r', Update o id fn k = Some (k', r') /\ db_wf k' /\ db_closed k' = false /\ db_version k' <= db_version k + 1 /\
  match r with
  | Err e => r' = Err e /\ same_data k k'
  | Ok a => r' = Ok a /\ (forall key, now k' key = under w (now k) key) \/
            r' = Err ErrIO /\ o <> IoOk /\ lost_data k k'
  end.
Proof.
  intros Hk Hmax Hc Hfn Hs Hw. unfold Update, Begin. rewrite Hc. cbn [tx_readVersion]. fold (began id k).
  change (mkTx id (db_version k) true ∅ false) with (fresh_tx id true k). rewrite Hfn. cbn [mbind option_bind].
  destruct r as [a|e].
  - destruct (Commit_run o id k k2 w Hk Hmax Hc Hs Hw) as (k' & tx' & e & E & Htx & He). rewrite E.
    destruct e as [e|].
    + destruct He as (-> & He & Ho). unfold Rollback. rewrite Htx. eexists _, _. split; [done|].
      pose proof (lost_data_wf _ _ Hk He). split; [done|]. cbn [fst]. rewrite (sd_closed _ _ He : db_closed k' = _), (sd_version _ _ He : db_version k' = _).
      split; [done|]. split; [lia|]. by right.
    + destruct He as (H1 & H2 & H3 & H4). unfold Rollback. rewrite Htx. eexists _, _. split; [done|]. cbn [fst]. auto 10.
  - unfold Rollback. cbn [set_writes fresh_tx tx_closed]. eexists _, _. split; [done|].
    assert (same_data k (unregister (set_writes w (fresh_tx id true k)) k2)) as Hu by (by apply same_data_unregister).
    split; [exact (same_data_wf _ _ Hk Hu)|]. cbn [fst]. rewrite (sd_closed _ _ Hu), (sd_version _ _ Hu). split; [done|]. split; [lia|]. done.
Qed.

Lemma Update_run {A} o id (fn : DB -> Tx -> option (DB * Tx * res A)) k k2 w r :
  db_wf k -> db_version k + 1 < 2 ^ 64 -> db_closed k = false ->
  fn (began id k) (fresh_tx id true k) = Some (k2, set_writes w (fresh_tx id true k), r) ->
  same_data k k2 -> writes_wf w ->
  exists k' r', Update o id fn k = Some (k', r') /\ db_wf k' /\ db_closed k' = false /\ db_version k' <= db_version k + 1 /\
  match r with
  | Err e => r' = Err e /\ same_data k k'
  | Ok a => r' = Ok a /\ (forall key, now k' key = under w (now k) key) \/
            (exists e, r' = Err e) /\ o <> IoOk /\ lost_data k k'
  end.
Proof.
  intros Hk Hmax Hc Hfn Hs Hw. destruct (Update_run_io o id fn k k2 w r Hk Hmax Hc Hfn Hs Hw) as (k' & r' & H1 & H2 & H3 & H4 & H5).
  exists k', r'. split_and!; [done..|]. destruct r; [|done]. destruct H5 as [?|[-> ?]]; eauto.
Qed.

(** ** The log *)

Definition keys_valid (w : gmap bytes operation) : Prop := forall key op, w !! key = Some op -> utf8_valid key = true.

(** The log stays intact while it is shorter than the longest record. *)
Definition logged (o : io) (k k' : DB) : Prop :=
  o = IoOk -> zlen (db_file k) <= zlen (db_file k') /\ (zlen (db_file k') <= maxRecordSize -> durable k -> durable k').

Lemma logged_same o k k' : same_data k k' -> logged o k k'.
Proof. intros [Hv Hh _ Hf _] _. rewrite Hf. split; [lia|]. intros _. by apply durable_frame. Qed.

Lemma logged_trans o k1 k2 k3 : logged o k1 k2 -> logged o k2 k3 -> logged o k1 k3.
Proof. intros H1 H2 Ho. destruct (H1 Ho) as [L1 D1], (H2 Ho) as [L2 D2]. split; [lia|]. intros Hl Hd. apply D2; [lia|]. apply D1; [lia|done]. Qed.

Lemma commit_frame_ok k2 tx :
  db_wf k2 -> db_version k2 + 1 < 2 ^ 64 -> tx_wf tx -> keys_valid (tx_writes tx) ->
  zlen (encodeRecord (commit_record k2 tx)) <= maxRecordSize -> frame_ok (commit_record k2 tx).
Proof.
  intros Hk Hv Htx Hw Hl. split.
  - split; [unfold in_u64, commit_record; cbn [rec_version]; apply Z.mod_pos_bound; lia|]. cbn [commit_record rec_ops].
    apply Forall_forall. intros op Hin. unfold commit_ops in Hin. apply list_elem_of_omap in Hin as (key & _ & Ho).
    unfold valid_op. rewrite (Htx key op Ho). by eapply Hw.
  - rewrite zlen_encodeRecord in Hl. unfold recordHdrSize in Hl. lia.
Qed.

Lemma Commit_logged o tx k2 :
  db_wf k2 -> db_version k2 + 1 < 2 ^ 64 -> tx_wf tx -> keys_valid (tx_writes tx) ->
  logged o k2 (fst (fst (Commit o tx k2))).
Proof.
  intros Hk Hv Htx Hw ->. pose proof (durable_Commit tx k2 Hk Htx Hv) as Hd. revert Hd. unfold Commit.
  repeat case_match; cbn [fst]; try (intros _; split; [cbn; lia|]; intros _; by apply durable_frame).
  cbn [appendRecord] in *. simplify_eq. intros Hd.
  change (db_file (unregister tx (add_commit ?x))) with (db_file x). rewrite file_apply. cbn [set_file db_file].
  match goal with E : appendRecord _ _ _ = (?f, None) |- _ => assert (f = db_file k2 ++ encodeRecord (commit_record k2 tx)) as -> by (by injection E) end.
  rewrite zlen_app. split; [pose proof (zlen_nonneg (encodeRecord (commit_record k2 tx))); lia|]. intros Hl. apply Hd.
  apply commit_frame_ok; try done. pose proof (zlen_nonneg (db_file k2)). lia.
Qed.

Lemma Update_logged {A} o id (fn : DB -> Tx -> option (DB * Tx * res A)) k k2 w r k' r' :
  db_wf k -> db_version k + 1 < 2 ^ 64 -> db_closed k = false ->
  fn (began id k) (fresh_tx id true k) = Some (k2, set_writes w (fresh_tx id true k), r) ->
  same_data k k2 -> writes_wf w -> keys_valid w -> Update o id fn k = Some (k', r') -> logged o k k'.
Proof.
  intros Hk Hmax Hc Hfn Hs Hw Hv. unfold Update, Begin. rewrite Hc. cbn [tx_readVersion]. fold (began id k).
  change (mkTx id (db_version k) true ∅ false) with (fresh_tx id true k). rewrite Hfn. cbn [mbind option_bind].
  assert (forall tx k3, logged o k3 (fst (Rollback tx k3))) as Hroll.
  { intros tx k3. unfold Rollback. case_match; intros _; (split; [cbn; lia|]); intros _ Hd; by apply (durable_frame k3). }
  pose proof (logged_same o _ _ Hs) as Hl. destruct r as [x|e]; [|intros [= <- <-]; exact (logged_trans _ _ _ _ Hl (Hroll (set_writes w (fresh_tx id true k)) k2))].
  pose proof (Commit_logged o (set_writes w (fresh_tx id true k)) k2) as Hcl.
  destruct (Commit o _ k2) as [[k3 tx3] e]. cbn [fst] in Hcl.
  assert (logged o k k3) as H3.
  { eapply logged_trans; [exact Hl|]. apply Hcl; [by eapply same_data_wf|by rewrite (sd_version _ _ Hs)|done|done]. }
  destruct e; intros [= <- <-]; (eapply logged_trans; [exact H3|apply Hroll]).
Qed.
End update.
