(* ===== verification/SqlBase.v ===== *)
(** Facts the executor's proofs share: normalised names and column lookup, keys
    of the catalog and of rows, and B+trees as finite maps over structured keys. *)

From S2P Require Import Prelude Utf8 Unicode Strconv Keys Page Row JsonBin SqlLex Wal Mvcc Catalog BTree Secondary.
From S2P Require Import SqlAst SqlParse SqlParseSpec SqlBind SqlExec.

(** * Names *)

(** A normalised ASCII name. *)
Record name_good (n : bytes) : Prop := {
  ng_ascii : is_ascii n = true;
  ng_slash : no_slash n;
  ng_lower : ascii_to_lower n = n;
}.

(** A name of ASCII letters, digits and underscores, as written in a statement. *)
Definition name_plain (n : bytes) : Prop := is_ascii n = true /\ no_slash n.

Lemma lower_lower b : lower_byte (lower_byte b) = lower_byte b.
Proof. by destruct b. Qed.

Lemma lower_upper b : lower_byte (upper_byte b) = lower_byte b.
Proof. by destruct b. Qed.

Lemma lower_slash b : lower_byte b = byte_of 47 -> b = byte_of 47.
Proof. by destruct b. Qed.

Lemma lower_ascii b : byte_val b <? 0x80 = true -> byte_val (lower_byte b) <? 0x80 = true.
Proof. by destruct b. Qed.

Lemma is_ascii_Forall s : is_ascii s = true <-> Forall (fun b => byte_val b <? 0x80 = true) s.
Proof.
  unfold is_ascii. induction s as [|b s IH]; cbn [forallb]; [by split|]. by rewrite andb_true_iff, Forall_cons, IH.
Qed.

Lemma ascii_valid s : is_ascii s = true -> utf8_valid s = true.
Proof. intros Hs%is_ascii_Forall. apply utf8_valid_ascii. eapply Forall_impl; [exact Hs|]. intros b Hb. by apply Z.ltb_lt. Qed.

Lemma upper_eq_lower s t : ascii_to_upper s = ascii_to_upper t -> ascii_to_lower s = ascii_to_lower t.
Proof.
  intros E. unfold ascii_to_lower. assert (forall x : bytes, lower_byte <$> x = lower_byte <$> (upper_byte <$> x)) as H.
  { intros x. rewrite <- list_fmap_compose. apply list_fmap_ext. intros _ b _. symmetry. apply lower_upper. }
  rewrite (H s), (H t). unfold ascii_to_upper in E. by rewrite E.
Qed.

Section names.
Context `{U : Unicode}.

Lemma normalize_good s : name_plain s -> name_good (normalizeName s).
Proof.
  intros [Ha Hs]. unfold normalizeName. rewrite toLower_ascii by done. split.
  - apply is_ascii_Forall in Ha. apply is_ascii_Forall. unfold ascii_to_lower. apply Forall_fmap.
    eapply Forall_impl; [exact Ha|]. intros b. apply lower_ascii.
  - unfold no_slash. intros (b & Eb & Hb)%list_elem_of_fmap. symmetry in Eb. by apply lower_slash in Eb as ->.
  - unfold ascii_to_lower. rewrite <- list_fmap_compose. apply list_fmap_ext. intros _ b _. apply lower_lower.
Qed.

Lemma normalize_fix n : name_good n -> normalizeName n = n.
Proof. intros [Ha _ Hl]. unfold normalizeName. by rewrite toLower_ascii. Qed.

Lemma fold_good a b : name_good a -> name_good b -> equalFold a b = bool_decide (a = b).
Proof.
  intros [Ha _ La] [Hb _ Lb]. rewrite equalFold_ascii by done. apply bool_decide_ext. split; [|by intros ->].
  intros E%upper_eq_lower. congruence.
Qed.

(** * Columns *)

Lemma find_column_inv p k cols i :
  find_column p k cols = Some i -> exists j c, i = (k + j)%nat /\ cols !! j = Some c /\ p c = true.
Proof.
  revert k. induction cols as [|c cols IH]; intros k; cbn [find_column]; [done|]. destruct (p c) eqn:E.
  - intros [= <-]. exists 0%nat, c. split; [lia|done].
  - intros (j & c' & -> & Hj & Hc)%IH. exists (S j), c'. split; [lia|done].
Qed.

Lemma find_column_unique p k cols i c :
  cols !! i = Some c -> p c = true -> (forall j d, cols !! j = Some d -> p d = true -> j = i) ->
  find_column p k cols = Some (k + i)%nat.
Proof.
  revert k i. induction cols as [|d cols IH]; intros k i Hi Hp Hu; [done|]. cbn [find_column]. destruct (p d) eqn:E.
  - specialize (Hu 0%nat d eq_refl E). subst i. f_equal. lia.
  - destruct i as [|i]; [cbn in Hi; congruence|]. cbn in Hi. rewrite (IH (S k) i); [f_equal; lia|done|done|].
    intros j d' Hj Hd. specialize (Hu (S j) d' Hj Hd). lia.
Qed.

Lemma columnIndex_inv def name i : columnIndex def name = Ok i -> exists c, tab_Columns def !! i = Some c /\ equalFold (col_Name c) name = true.
Proof.
  unfold columnIndex. destruct (find_column _ _ _) as [j|] eqn:E; [|done]. intros [= ->].
  apply find_column_inv in E as (j & c & -> & Hj & Hc). eauto.
Qed.

Lemma pkColumn_inv def c i : pkColumn def = Ok (c, i) -> tab_Columns def !! i = Some c /\ col_PK c = true.
Proof.
  unfold pkColumn. destruct (find_column _ _ _) as [j|] eqn:E; [|done]. apply find_column_inv in E as (j' & d & -> & Hj & Hd).
  cbn [Nat.add]. rewrite Hj. intros [= <- <-]. done.
Qed.

(** Columns with distinct good names. *)
Record columns_good (def : TableDef) : Prop := {
  cg_good : Forall (fun c => name_good (col_Name c)) (tab_Columns def);
  cg_nodup : NoDup (col_Name <$> tab_Columns def);
}.

Section columns.
Context (def : TableDef).
Hypothesis good : columns_good def.

Lemma column_name_unique i j c d :
  tab_Columns def !! i = Some c -> tab_Columns def !! j = Some d -> col_Name c = col_Name d -> i = j.
Proof.
  intros Hi Hj E. eapply (NoDup_lookup _ _ _ (col_Name c) (cg_nodup _ good)); rewrite list_lookup_fmap; [by rewrite Hi|by rewrite Hj, E].
Qed.

Lemma column_good i c : tab_Columns def !! i = Some c -> name_good (col_Name c).
Proof. intros Hi. exact (Forall_lookup_1 _ _ _ _ (cg_good _ good) Hi). Qed.

(** A column is found under its name. *)
Lemma columnIndex_name i c : tab_Columns def !! i = Some c -> columnIndex def (col_Name c) = Ok i.
Proof.
  intros Hi. unfold columnIndex. rewrite (find_column_unique _ 0 _ i c Hi); [done|apply equalFold_refl|].
  intros j d Hj. rewrite fold_good by (eapply column_good; eassumption). intros E%bool_decide_eq_true.
  by eapply column_name_unique.
Qed.

(** What a good name finds is the column of that name. *)
Lemma columnIndex_good name i : name_good name -> columnIndex def name = Ok i -> exists c, tab_Columns def !! i = Some c /\ col_Name c = name.
Proof.
  intros Hn (c & Hc & E)%columnIndex_inv. exists c. split; [done|]. rewrite fold_good in E by (done || by eapply column_good).
  by apply bool_decide_eq_true in E.
Qed.

End columns.

End names.

(** * Keys *)

Lemma is_ascii_app s t : is_ascii (s ++ t) = is_ascii s && is_ascii t.
Proof. apply forallb_app. Qed.

Lemma is_ascii_formatInt n : is_ascii (formatInt n) = true.
Proof.
  assert (forall m, is_ascii (formatUint m) = true) as H.
  { intros m. apply is_ascii_Forall. eapply Forall_impl; [apply formatUint_digits|]. intros b Hb. unfold is_digit in Hb. lia. }
  unfold formatInt. case_match; [|apply H]. by rewrite is_ascii_app, H.
Qed.

Lemma is_ascii_pathEscape s : is_ascii (pathEscape s) = true.
Proof.
  induction s as [|b s IH]; [done|]. unfold pathEscape. rewrite bind_cons, is_ascii_app. fold (pathEscape s). rewrite IH, andb_true_r.
  by destruct b.
Qed.

Lemma is_ascii_pk pk : is_ascii (pk_encode pk) = true.
Proof.
  unfold pk_encode, encodePKInt, encodePKString. case_match; rewrite is_ascii_app; [by rewrite is_ascii_formatInt|by rewrite is_ascii_pathEscape].
Qed.

(** The keys SQL writes: reserved, and valid text in the log. *)
Definition sql_key (key : bytes) : Prop := utf8_valid key = true /\ isReservedKey key = true.

Lemma sql_key_ascii key : is_ascii key = true -> sql_key (reservedPrefix ++ key).
Proof. intros H. split; [apply ascii_valid; by rewrite is_ascii_app, H|]. apply has_prefix_self. Qed.

Lemma sql_key_table name : is_ascii name = true -> sql_key (catalogTableKey name).
Proof. intros H. apply sql_key_ascii. by rewrite is_ascii_app, H. Qed.

Lemma sql_key_index name : is_ascii name = true -> sql_key (catalogIndexKey name).
Proof. intros H. apply sql_key_ascii. by rewrite is_ascii_app, H. Qed.

Lemma sql_key_row name pk : is_ascii name = true -> sql_key (rowKey name (pk_encode pk)).
Proof. intros H. apply sql_key_ascii. by rewrite !is_ascii_app, H, is_ascii_pk. Qed.

Lemma tables_indexes_key a b : catalogTableKey a <> catalogIndexKey b.
Proof. unfold catalogTableKey, catalogIndexKey. by intros ?%(inj (app reservedPrefix)). Qed.

Lemma tables_row_key a b e : catalogTableKey a <> rowKey b e.
Proof. unfold catalogTableKey, rowKey. by intros ?%(inj (app reservedPrefix)). Qed.

Lemma indexes_row_key a b e : catalogIndexKey a <> rowKey b e.
Proof. unfold catalogIndexKey, rowKey. by intros ?%(inj (app reservedPrefix)). Qed.

Lemma catalogIndexKey_inj a b : catalogIndexKey a = catalogIndexKey b -> a = b.
Proof. unfold catalogIndexKey. by intros ?%(inj (app _))%(inj (app _)). Qed.

Lemma catalogIndexKey_prefix k : has_prefix k catalogIndexPrefix = true <-> exists name, k = catalogIndexKey name.
Proof. rewrite has_prefix_app. unfold catalogIndexPrefix, catalogIndexKey. split; intros [r ->]; exists r; by rewrite <- ?app_assoc. Qed.

Lemma rowKey_prefix name k : has_prefix k (rowKeyPrefix name) = true <-> exists enc, k = rowKey name enc.
Proof. rewrite has_prefix_app. unfold rowKeyPrefix, rowKey. split; intros [r ->]; exists r; by rewrite <- ?app_assoc. Qed.

#[export] Hint Resolve tables_indexes_key tables_row_key indexes_row_key : runnel.

(** * Trees as maps *)

(** [t] maps the keys [key x], for the [x] with [Q x], by [f]. *)
Definition tree_has {K} (key : K -> pkKey) (Q : K -> Prop) (t : btree) (f : K -> option bytes) : Prop :=
  (exists h, tree_ok t h) /\ Forall (fun e => exists x, Q x /\ fst e = key x) (entries (root t)) /\
  forall x, Q x -> m_get (key x) (entries (root t)) = f x.

Section trees.
Context {K} (key : K -> pkKey) (Q : K -> Prop).

Lemma tree_has_new : tree_has key Q newBTree (fun _ => None).
Proof. split; [exists 0%nat; apply new_ok|]. split; [constructor|done]. Qed.

Lemma tree_has_ext t f g : (forall x, Q x -> f x = g x) -> tree_has key Q t f -> tree_has key Q t g.
Proof. intros E (Hok & Hk & Hf). split; [done|]. split; [done|]. intros x Hx. rewrite <- E by done. by apply Hf. Qed.

Lemma tree_has_get t f x : tree_has key Q t f -> Q x -> BTree.Get t (key x) = Some (f x).
Proof. intros ([h Hok] & _ & Hf) Hx. rewrite (Get_ok _ _ _ Hok). by rewrite Hf. Qed.

Lemma tree_has_put t f x v :
  tree_has key Q t f -> Q x ->
  exists t', BTree.Put t (key x) v = Some t' /\
  tree_has key Q t' (fun y => if compare (key x) (key y) =? 0 then Some v else f y).
Proof.
  intros ([h Hok] & Hk & Hf) Hx. destruct (Put_ok t h (key x) v Hok) as (t' & h' & E & Hok' & He & _).
  exists t'. split; [done|]. split; [by exists h'|]. rewrite He. split.
  - apply (m_put_keys (fun k => exists y, Q y /\ k = key y)); [by exists x|done].
  - intros y Hy. by rewrite m_get_put, Hf.
Qed.

Lemma tree_has_delete t f x :
  tree_has key Q t f ->
  exists t', BTree.Delete t (key x) = Some t' /\
  tree_has key Q t' (fun y => if compare (key x) (key y) =? 0 then None else f y).
Proof.
  intros ([h Hok] & Hk & Hf). destruct (Delete_ok t h (key x) Hok) as (t' & h' & E & Hok' & He & _).
  exists t'. split; [done|]. split; [by exists h'|]. rewrite He. split.
  - by apply (m_del_keys (fun k => exists y, Q y /\ k = key y)).
  - intros y Hy. rewrite m_get_del by exact (wf_sorted _ _ _ _ _ (ok_wf _ _ Hok)). by rewrite Hf.
Qed.
End trees.
