(* ===== verification/SqlSemantics.v ===== *)
(** What conditions, assignments and projections mean, written from the language
    and not from the executor: a column named in a statement, a value a literal
    stands for, the rows a condition holds of, the row a list of assignments
    makes, and the columns and values a query shows.  The contract of
    [SqlState] is stated with these; the lemmas here and in [SqlRows] show that
    the loops of sql_exec.go compute them. *)

From S2P Require Import Prelude Utf8 Unicode Strconv Keys Page Row JsonBin SqlLex Wal Mvcc Catalog SqlAst SqlParse SqlParseSpec SqlBind BTree Secondary SqlExec SqlBase.

Section semantics.
Context `{U : Unicode} `{J : GoJson}.

(** * Columns *)

(** The column a statement names, letter case aside, with its position. *)
Definition resolve (def : TableDef) (n : bytes) : option (nat * ColumnDef) :=
  list_find (fun c => equalFold (col_Name c) (normalizeName n) = true) (tab_Columns def).

(** The primary key's column. *)
Definition key_column (def : TableDef) : option (nat * ColumnDef) :=
  list_find (fun c => col_PK c = true) (tab_Columns def).

(** * Literals *)

(** Whether a value of a column of type [typ] is the one a literal writes: NULL
    is NULL alone, integers and texts are themselves, a JSON column compares the
    document the literal encodes to, and any other pair is unequal. *)
Definition is_literal (typ : ColType) (e : expr) (v : Value) : bool :=
  match e, typ with
  | exprNull, _ => Null v
  | exprInt i, TypeInteger => negb (Null v) && (Int v =? i)
  | exprText s, TypeText => negb (Null v) && bool_decide (Text v = s)
  | exprBlob b, TypeBlob => negb (Null v) && bool_decide (Blob v = b)
  | exprText s, TypeJSON | exprBlob s, TypeJSON => negb (Null v) && bool_decide (encodeJSON s = Ok (Blob v))
  | _, _ => false
  end.

(** The value a literal writes into a column, when it has the column's type. *)
Definition literal (typ : ColType) (e : expr) : option Value :=
  match e, typ with
  | exprNull, _ => Some (nullOf typ)
  | exprInt i, TypeInteger => Some (IntValue i)
  | exprText s, TypeText => Some (TextValue s)
  | exprBlob b, TypeBlob => Some (BlobValue b)
  | exprText s, TypeJSON | exprBlob s, TypeJSON =>
      match encodeJSON s with Ok bin => Some (JSONValue bin) | Err _ => None end
  | _, _ => None
  end.

(** The part of a JSON document at a path, and whether it is what a literal writes. *)
Definition json_at (v : Value) (path : bytes) : option Value :=
  if Null v then None
  else match Typ v with
  | TypeJSON => match jsonExtract (Blob v) path with Ok (x, true) => Some x | _ => None end
  | _ => None
  end.

Definition is_scalar (e : expr) (x : Value) : bool :=
  match e with
  | exprNull => Null x
  | exprInt i => negb (Null x) && bool_decide (Typ x = TypeInteger) && (Int x =? i)
  | exprText s => negb (Null x) && bool_decide (Typ x = TypeText) && bool_decide (Text x = s)
  | _ => false
  end.

(** * Conditions *)

(** Whether one comparison holds of a row; a column that does not exist equals nothing. *)
Definition holds (def : TableDef) (vals : list Value) (w : pred) : bool :=
  match resolve def (pred_column w) with
  | None => false
  | Some (i, c) =>
      match vals !! i with
      | None => false
      | Some v =>
          match w with
          | predColumn _ e => is_literal (col_Type c) e v
          | predExtract _ path e => match json_at v path with Some x => is_scalar e x | None => false end
          end
      end
  end.

(** A condition is the conjunction of its comparisons. *)
Definition satisfies (def : TableDef) (ws : list pred) (vals : list Value) : bool := forallb (holds def vals) ws.

(** * Assignments *)

(** The last value a list of assignments to positions gives a position. *)
Fixpoint last_at (i : nat) (l : list (nat * Value)) : option Value :=
  match l with
  | [] => None
  | (j, v) :: l =>
      match last_at i l with
      | Some v' => Some v'
      | None => if decide (i = j) then Some v else None
      end
  end.

(** One assignment: the position of its column and the value of its literal. *)
Definition assignment (def : TableDef) (a : bytes * expr) : option (nat * Value) :=
  '(i, c) ← resolve def (fst a);
  v ← literal (col_Type c) (snd a);
  Some (i, v).

(** The row the assignments make of a row: every column must exist and every
    literal be of its type; a column takes the last value assigned to it. *)
Definition assigned (def : TableDef) (l : list (bytes * expr)) (vals : list Value) : option (list Value) :=
  ps ← mapM (assignment def) l;
  Some (imap (fun i v => default v (last_at i ps)) vals).

(** Whether an assignment is to the primary key. *)
Definition assigns_key (def : TableDef) (sets : list assign) : bool :=
  existsb (fun a => bool_decide (is_Some (key_column def) /\ fst <$> resolve def (as_column a) = fst <$> key_column def)) sets.

Definition assign_pair (a : assign) : bytes * expr := (as_column a, as_value a).

(** * New rows *)

(** The columns an INSERT fills: those it names, or all of them. *)
Definition insert_names (def : TableDef) (cols : list bytes) : list bytes :=
  match cols with [] => col_Name <$> tab_Columns def | _ => cols end.

(** The row of an INSERT: as many values as columns, assigned to a row of NULLs. *)
Definition new_row (def : TableDef) (cols : list bytes) (values : list expr) : option (list Value) :=
  if (length (insert_names def cols) =? length values)%nat
  then assigned def (zip (insert_names def cols) values) ((fun c => nullOf (col_Type c)) <$> tab_Columns def)
  else None.

(** The primary key of a row. *)
Definition row_pk (def : TableDef) (vals : list Value) : option pkKey :=
  match pkColumn def with
  | Err _ => None
  | Ok (c, i) =>
      v ← vals !! i;
      if Null v then None
      else match col_Type c with
      | TypeInteger => Some (pkFromInt (Int v))
      | TypeText => Some (pkFromString (Text v))
      | _ => None
      end
  end.

(** Whether a column can be indexed: not the key, and an integer or a text, or a
    JSON document with a path into it. *)
Definition indexable (def : TableDef) (column path : bytes) : bool :=
  match resolve def column with
  | None => false
  | Some (i, c) =>
      negb (bool_decide (Some i = fst <$> key_column def)) &&
      (if bool_decide (path = []) then bool_decide (col_Type c = TypeInteger \/ col_Type c = TypeText)
       else bool_decide (col_Type c = TypeJSON) && match parseJSONPath path with Ok _ => true | Err _ => false end)
  end.

(** * Results *)

(** An item of a query is known when its column exists, and holds JSON if the
    item extracts from it. *)
Definition item_known (def : TableDef) (it : selectItem) : bool :=
  match it with
  | selectStar => true
  | selectColumn c => bool_decide (is_Some (resolve def c))
  | selectExtract c _ => match resolve def c with Some (_, col) => bool_decide (col_Type col = TypeJSON) | None => false end
  end.

Definition shown (items : list selectItem) : list selectItem := match items with [] => [selectStar] | _ => items end.

Definition items_known (def : TableDef) (items : list selectItem) : bool := forallb (item_known def) items.

Definition column_title (def : TableDef) (c : bytes) : bytes := match resolve def c with Some (_, col) => col_Name col | None => [] end.

Definition item_titles (def : TableDef) (it : selectItem) : list bytes :=
  match it with
  | selectStar => col_Name <$> tab_Columns def
  | selectColumn c => [column_title def c]
  | selectExtract c path => [lit "json_extract(" ++ column_title def c ++ lit ", '" ++ path ++ lit "')"]
  end.

(** The value of a named column in a row. *)
Definition cell (def : TableDef) (vals : list Value) (c : bytes) : option Value := '(i, _) ← resolve def c; vals !! i.

Definition item_values (def : TableDef) (vals : list Value) (it : selectItem) : list Value :=
  match it with
  | selectStar => vals
  | selectColumn c => [default NullValue (cell def vals c)]
  | selectExtract c path => [default NullValue (v ← cell def vals c; json_at v path)]
  end.

Definition result_columns (def : TableDef) (items : list selectItem) : list bytes := shown items ≫= item_titles def.
Definition result_row (def : TableDef) (items : list selectItem) (vals : list Value) : list Value := shown items ≫= item_values def vals.

(** * The executor's functions compute them *)

Lemma find_column_list_find p k cols : find_column p k cols = (fun x => (k + fst x)%nat) <$> list_find (fun c => p c = true) cols.
Proof.
  revert k. induction cols as [|c cols IH]; intros k; cbn [find_column list_find]; [done|].
  case_decide as E; [rewrite E; cbn; f_equal; lia|]. destruct (p c); [done|]. rewrite IH.
  destruct (list_find _ cols) as [[i d]|]; [|done]. cbn. f_equal. lia.
Qed.

Lemma columnIndex_resolve def n :
  columnIndex def (normalizeName n) = match resolve def n with Some (i, _) => Ok i | None => Err ErrSQL end.
Proof.
  unfold columnIndex, resolve. rewrite find_column_list_find. by destruct (list_find _ _) as [[i c]|].
Qed.

Lemma resolve_column def n i c : resolve def n = Some (i, c) -> tab_Columns def !! i = Some c.
Proof. unfold resolve. by intros (? & _)%list_find_Some. Qed.

Lemma pkColumn_key def : pkColumn def = match key_column def with Some (i, c) => Ok (c, i) | None => Err ErrSQL end.
Proof.
  unfold pkColumn, key_column. rewrite find_column_list_find. destruct (list_find _ _) as [[i c]|] eqn:E; [|done].
  apply list_find_Some in E as (E & _). cbn. by rewrite E.
Qed.

Lemma exprToValue_literal e typ : exprToValue e typ = match literal typ e with Some v => Ok v | None => exprToValue e typ end /\
  (literal typ e = None -> exists err, exprToValue e typ = Err err).
Proof.
  destruct e as [| |s|b|]; destruct typ; cbn; (split; [done || by (destruct (encodeJSON _))|]); try done; try (by eauto);
    destruct (encodeJSON _) as [|err]; try done; by eauto.
Qed.

Lemma exprToValue_Ok e typ v : exprToValue e typ = Ok v <-> literal typ e = Some v.
Proof.
  destruct (exprToValue_literal e typ) as [E Hn]. rewrite E. destruct (literal typ e) as [v'|].
  - split; congruence.
  - destruct (Hn eq_refl) as [err ->]. done.
Qed.

(** ** Conditions *)

(** A value as a column of type [typ] holds it. *)
Definition typed (typ : ColType) (v : Value) : Prop := Null v = true \/ Typ v = typ.

Lemma valuesEqual_literal typ e v want : typed typ v -> literal typ e = Some want -> valuesEqual v want = is_literal typ e v.
Proof.
  intros Hv. unfold valuesEqual.
  destruct e as [|i|s|b|], typ; cbn [literal]; try done; try (destruct (encodeJSON _) as [bin|] eqn:Ee; [|done]); intros [= <-];
    cbn [nullOf IntValue TextValue BlobValue JSONValue Null Typ Int Text Blob is_literal];
    rewrite ?orb_true_r, ?orb_false_r, ?andb_true_r, ?andb_false_r; try done;
    (destruct (Null v) eqn:En; [done|]; destruct Hv as [?|Hv]; [congruence|]; rewrite Hv, bool_decide_true by done; cbn [negb andb]; try done);
    rewrite Ee; apply bool_decide_ext; naive_solver.
Qed.

Lemma is_literal_none typ e v : literal typ e = None -> is_literal typ e v = false.
Proof.
  destruct e as [|i|s|b|], typ; cbn; try done; destruct (encodeJSON _); try done; intros _; rewrite bool_decide_false by done; by destruct (Null v).
Qed.

Lemma valuesEqual_scalar e x want : predValueForExtract e = Ok want -> valuesEqual x want = is_scalar e x.
Proof.
  unfold valuesEqual. destruct e as [|i|s|b|]; cbn; try done; intros [= <-]; cbn [NullValue IntValue TextValue Null Typ Int Text];
    rewrite ?orb_true_r, ?orb_false_r, ?andb_true_r, ?andb_false_r; try done; (destruct (Null x); [done|]; cbn [negb andb]);
    (case_bool_decide as Et; [|done]); rewrite Et; done.
Qed.

(** ** Assignments *)

Lemma imap_default_insert {A} (f : nat -> option A) i v (vals : list A) :
  imap (fun j x => default x (f j)) (<[i := v]> vals) =
  imap (fun j x => default x (match f j with Some y => Some y | None => if decide (j = i) then Some v else None end)) vals.
Proof.
  apply list_eq. intros j. rewrite !list_lookup_imap. destruct (decide (j = i)) as [->|Hne].
  - destruct (decide (i < length vals)%nat) as [Hi|Hi].
    + rewrite list_lookup_insert_eq by done. destruct (lookup_lt_is_Some_2 _ _ Hi) as [x ->]. cbn. by destruct (f i).
    + rewrite list_insert_ge by lia. rewrite (proj2 (lookup_ge_None vals i)) by lia. done.
  - rewrite list_lookup_insert_ne by done. destruct (vals !! j); [|done]. cbn. by destruct (f j).
Qed.

Lemma imap_default_none {A} (vals : list A) : imap (fun _ x => default x None) vals = vals.
Proof. apply list_eq. intros j. rewrite list_lookup_imap. by destruct (vals !! j). Qed.

Lemma assigned_cons def a l vals :
  assigned def (a :: l) vals = '(i, v) ← assignment def a; assigned def l (<[i := v]> vals).
Proof.
  unfold assigned. cbn [mapM]. destruct (assignment def a) as [[i v]|]; [|done]. cbn [mbind option_bind].
  destruct (mapM (assignment def) l) as [ps|]; [|done]. cbn. f_equal. rewrite (imap_default_insert (fun j => last_at j ps)). done.
Qed.

Lemma assigned_nil def vals : assigned def [] vals = Some vals.
Proof. unfold assigned. cbn. f_equal. apply imap_default_none. Qed.

Lemma set_values_assigned def l : forall vals,
  Forall (fun x => fst <$> resolve def (fst (snd x)) = Some (fst x)) l ->
  match set_values def ((fun x => (fst x, snd (snd x))) <$> l) vals with Ok r => Some r | Err _ => None end = assigned def (snd <$> l) vals.
Proof.
  induction l as [|[i [n e]] l IH]; intros vals Hl; [by rewrite assigned_nil|]. apply Forall_cons in Hl as [Hn Hl]. cbn [fst snd] in Hn.
  cbn [fmap list_fmap fst snd set_values]. rewrite assigned_cons. unfold assignment. cbn [fst snd].
  destruct (resolve def n) as [[j c]|] eqn:Er; [|done]. injection Hn as ->. rewrite (resolve_column _ _ _ _ Er). cbn [mbind option_bind].
  destruct (exprToValue_literal e (col_Type c)) as [E Hno]. destruct (literal (col_Type c) e) as [v|]; rewrite ?E; cbn [rbind mbind option_bind].
  - by apply IH.
  - by destruct (Hno eq_refl) as [err ->].
Qed.

Lemma apply_sets_assigned def sets : forall vals,
  match apply_sets def sets vals with Ok r => Some r | Err _ => None end = assigned def (assign_pair <$> sets) vals.
Proof.
  induction sets as [|a sets IH]; intros vals; [by rewrite assigned_nil|]. cbn [apply_sets fmap list_fmap]. rewrite assigned_cons.
  unfold assignment. cbn [assign_pair fst snd]. rewrite columnIndex_resolve. destruct (resolve def (as_column a)) as [[i c]|] eqn:Er; [|done].
  cbn [rbind mbind option_bind]. rewrite (resolve_column _ _ _ _ Er).
  destruct (exprToValue_literal (as_value a) (col_Type c)) as [E Hno].
  destruct (literal (col_Type c) (as_value a)) as [v|]; rewrite ?E; cbn [rbind mbind option_bind].
  - by apply IH.
  - by destruct (Hno eq_refl) as [err ->].
Qed.

Lemma map_res_names def cols :
  match map_res (fun c => columnIndex def (normalizeName c)) cols with
  | Ok cis => Forall2 (fun n i => fst <$> resolve def n = Some i) cols cis
  | Err _ => Exists (fun n => resolve def n = None) cols
  end.
Proof.
  induction cols as [|c cols IH]; [constructor|]. cbn [map_res]. rewrite columnIndex_resolve.
  destruct (resolve def c) as [[i d]|] eqn:E; cbn [rbind]; [|by left]. destruct (map_res _ cols) as [cis|]; cbn [rbind]; [|by right].
  constructor; [by rewrite E|done].
Qed.

Lemma assigned_unknown def names values vals :
  length names = length values -> Exists (fun n => resolve def n = None) names -> assigned def (zip names values) vals = None.
Proof.
  intros Hlen Hex. unfold assigned. assert (mapM (assignment def) (zip names values) = None) as ->; [|done]. apply mapM_None.
  revert values Hlen. induction Hex as [n names Hn|n names _ IH]; intros [|e values] Hlen; try done; injection Hlen as Hlen; [left|right; by apply IH].
  unfold assignment. cbn [fst]. by rewrite Hn.
Qed.

(** Assigning to positions is assigning to the names that resolve to them. *)
Lemma set_values_zip def names values cis vals :
  length names = length values -> Forall2 (fun n i => fst <$> resolve def n = Some i) names cis ->
  match set_values def (zip cis values) vals with Ok r => Some r | Err _ => None end = assigned def (zip names values) vals.
Proof.
  intros Hlen Hn. pose proof (Forall2_length _ _ _ Hn) as Hl.
  assert (zip cis values = (fun x => (fst x, snd (snd x))) <$> zip cis (zip names values) /\ zip names values = snd <$> zip cis (zip names values)) as [-> E].
  { clear Hn. revert values cis Hlen Hl. induction names as [|n names IH]; intros [|e values] [|i cis] Hlen Hl; try done. injection Hlen as Hlen. injection Hl as Hl.
    destruct (IH values cis Hlen Hl) as [E1 E2]. cbn. split; f_equal; [exact E1|exact E2]. }
  rewrite E at 2. apply set_values_assigned. clear E.
  revert values Hlen Hl. induction Hn as [|n i names cis Hi Hn IH]; intros [|e values] Hlen Hl; try done. injection Hlen as Hlen. injection Hl as Hl. constructor; [done|by apply IH].
Qed.

Section columns.
Context (def : TableDef).
Hypothesis good : columns_good def.

Lemma resolve_name i c : tab_Columns def !! i = Some c -> resolve def (col_Name c) = Some (i, c).
Proof.
  intros Hc. pose proof (columnIndex_name def good i c Hc) as E. rewrite <- (normalize_fix _ (column_good def good i c Hc)), columnIndex_resolve in E.
  destruct (resolve def (col_Name c)) as [[j d]|] eqn:Er; [|done]. injection E as ->. apply resolve_column in Er. congruence.
Qed.

Lemma resolve_good n i c : name_plain n -> resolve def n = Some (i, c) -> tab_Columns def !! i = Some c /\ col_Name c = normalizeName n.
Proof.
  intros Hn Er. pose proof (columnIndex_resolve def n) as E. rewrite Er in E.
  destruct (columnIndex_good def good _ _ (normalize_good _ Hn) E) as (d & Hd & Hname). apply resolve_column in Er. split; [done|congruence].
Qed.

Lemma names_resolve : Forall2 (fun n i => fst <$> resolve def n = Some i) (col_Name <$> tab_Columns def) (seq 0 (length (tab_Columns def))).
Proof.
  apply Forall2_fmap_l, Forall2_same_length_lookup_2; [by rewrite length_seq|]. intros i c j Hc Hj.
  apply lookup_seq in Hj as [-> _]. cbn. by rewrite (resolve_name _ _ Hc).
Qed.

(** INSERT builds the row its assignments make of NULLs, and reads the key from it. *)
Lemma insert_row_new cols values :
  match insert_row def cols values with Ok x => Some x | Err _ => None end = vals ← new_row def cols values; pk ← row_pk def vals; Some (vals, pk).
Proof.
  assert (match (let! cis := insert_columns def cols values in
    set_values def (zip cis values) ((fun c => nullOf (col_Type c)) <$> tab_Columns def)) with Ok r => Some r | Err _ => None end = new_row def cols values) as Hnew.
  { unfold new_row, insert_columns, insert_names. destruct cols as [|c0 cols].
    - rewrite length_fmap, Nat.eqb_sym. destruct (Nat.eqb_spec (length (tab_Columns def)) (length values)) as [E|]; [|done]. cbn [negb rbind].
      apply set_values_zip; [by rewrite length_fmap|apply names_resolve].
    - destruct (Nat.eqb_spec (length (c0 :: cols)) (length values)) as [E|]; [|done]. cbn [negb]. pose proof (map_res_names def (c0 :: cols)) as H.
      destruct (map_res _ _) as [cis|]; cbn [rbind]; [by apply set_values_zip|]. symmetry. by apply assigned_unknown. }
  rewrite <- Hnew. unfold insert_row, row_pk. destruct (pkColumn def) as [[c i]|]; cbn [rbind].
  - destruct (insert_columns def cols values) as [cis|]; [|done]. cbn [rbind]. destruct (set_values def _ _) as [vals|]; [|done]. cbn [rbind mbind option_bind].
    destruct (vals !! i) as [v|]; [|done]. cbn [mbind option_bind]. destruct (Null v); [done|]. by destruct (col_Type c).
  - by destruct (let! _ := _ in _).
Qed.

Lemma sets_pk_assigns pkCol i sets :
  pkColumn def = Ok (pkCol, i) -> Forall (fun s => name_plain (as_column s)) sets -> sets_pk pkCol sets = assigns_key def sets.
Proof.
  rewrite pkColumn_key. unfold assigns_key. destruct (key_column def) as [[k c]|] eqn:Ek; [|done]. intros [= -> ->].
  apply list_find_Some in Ek as (Hi & _). induction 1 as [|s sets Hs _ IH]; [done|]. cbn [sets_pk existsb]. unfold sets_pk in IH. rewrite IH. f_equal.
  apply bool_decide_ext. split.
  - intros E. split; [done|]. assert (resolve def (as_column s) = Some (i, pkCol)) as ->; [|done].
    rewrite <- (resolve_name i pkCol Hi). unfold resolve. rewrite <- E. by rewrite (normalize_fix _ (normalize_good _ Hs)).
  - intros [_ E]. destruct (resolve def (as_column s)) as [[j d]|] eqn:Er; [|done]. injection E as ->.
    destruct (resolve_good _ _ _ Hs Er) as [Hj <-]. congruence.
Qed.

Lemma index_column_indexable column path :
  name_plain column -> index_column_ok def (normalizeName column) path = Ok tt <-> indexable def column path = true /\ is_ok (pkColumn def).
Proof.
  intros Hn. unfold index_column_ok, indexable. rewrite pkColumn_key, columnIndex_resolve. destruct (key_column def) as [[k pc]|] eqn:Ek; cbn [rbind]; [|split; [done|by intros []]].
  apply list_find_Some in Ek as (Hk & _). destruct (resolve def column) as [[i c]|] eqn:Er; cbn [rbind]; [|split; [by case_bool_decide|by intros [? _]]].
  destruct (resolve_good _ _ _ Hn Er) as [Hi <-].
  assert (bool_decide (col_Name c = col_Name pc) = bool_decide (Some i = fst <$> Some (k, pc))) as ->.
  { apply bool_decide_ext. split; [intros E; cbn; f_equal; by eapply column_name_unique|]. intros [= ->]. congruence. }
  destruct (bool_decide (Some i = _)); cbn [negb andb]; [split; [done|by intros []]|]. rewrite Hi.
  case_bool_decide; cbn [negb].
  - rewrite bool_decide_decide. destruct (col_Type c); repeat case_decide; cbn; split; (done || (by intros []) || naive_solver).
  - case_bool_decide; cbn [negb andb]; [|split; [done|by intros []]]. destruct (parseJSONPath path); cbn [rbind]; split; (done || by intros []).
Qed.
End columns.

(** ** Results *)

Lemma select_projs_shown def items : select_projs def items = let! ps := map_res (item_projs def) (shown items) in Ok (concat ps).
Proof. unfold select_projs, shown. destruct items as [|[| |] [|]]; try done; cbn; by rewrite app_nil_r. Qed.

Lemma map_panic_app {A B} (f : A -> option (res B)) l1 l2 ys1 ys2 :
  map_panic f l1 = Some (Ok ys1) -> map_panic f l2 = Some (Ok ys2) -> map_panic f (l1 ++ l2) = Some (Ok (ys1 ++ ys2)).
Proof.
  intros H1 H2. revert ys1 H1. induction l1 as [|x l1 IH]; cbn [map_panic app]; intros ys1; [by intros [= <-]|].
  destruct (f x) as [[y|]|]; [|done..]. cbn [mbind option_bind]. destruct (map_panic f l1) as [[ys|]|]; [|done..]. cbn [mbind option_bind].
  intros [= <-]. by rewrite (IH ys).
Qed.

Lemma star_values def vals : length vals = length (tab_Columns def) -> map_panic (fun p => project p vals) (star_projs def) = Some (Ok vals).
Proof.
  unfold star_projs. assert (forall pre rest cols, length rest = length cols ->
    map_panic (fun p => project p (pre ++ rest)) (imap (fun i c => ProjColumn (length pre + i) (col_Name c)) cols) = Some (Ok rest)) as H; [|apply (H [] vals)].
  intros pre rest cols. revert pre rest. induction cols as [|c cols IH]; intros pre [|v rest] Hl; try done. injection Hl as Hl.
  rewrite imap_cons. cbn [map_panic project]. rewrite Nat.add_0_r, list_lookup_middle by done. cbn [mbind option_bind].
  specialize (IH (pre ++ [v]) rest Hl). rewrite <- app_assoc in IH. cbn [app] in IH.
  rewrite (imap_ext _ ((fun i c => ProjColumn (length (pre ++ [v]) + i) (col_Name c)))); [by rewrite IH|].
  intros i x _. cbn. f_equal. rewrite length_app. cbn. lia.
Qed.

Section results.
Context (def : TableDef) (vals : list Value).
Hypothesis width : length vals = length (tab_Columns def).

(** The documents of the row can be walked along the item's path. *)
Definition item_readable (it : selectItem) : Prop :=
  match it with
  | selectExtract _ path => forall v, v ∈ vals -> Null v = false -> Typ v = TypeJSON -> is_ok (jsonExtract (Blob v) path)
  | _ => True
  end.

Lemma column_at_resolve c : column_at def c = match resolve def c with Some x => Ok x | None => Err ErrSQL end.
Proof.
  unfold column_at. rewrite columnIndex_resolve. destruct (resolve def c) as [[i col]|] eqn:E; [|done]. cbn [rbind].
  by rewrite (resolve_column _ _ _ _ E).
Qed.

Lemma item_projs_known it :
  if item_known def it then exists ps, item_projs def it = Ok ps /\ proj_name <$> ps = item_titles def it /\
    (item_readable it -> map_panic (fun p => project p vals) ps = Some (Ok (item_values def vals it)))
  else exists e, item_projs def it = Err e.
Proof.
  assert (forall c i col, resolve def c = Some (i, col) -> exists v, vals !! i = Some v) as Hcell.
  { intros c i col Er%resolve_column%lookup_lt_Some. apply lookup_lt_is_Some_2. lia. }
  destruct it as [|c|c path]; cbn [item_known item_projs item_titles item_values].
  - eexists. split; [done|]. split; [|intros _; by apply star_values]. unfold star_projs. rewrite fmap_imap. apply list_eq. intros i.
    rewrite list_lookup_imap, list_lookup_fmap. done.
  - rewrite column_at_resolve. unfold cell, column_title. destruct (resolve def c) as [[i col]|] eqn:Er; [|by eexists].
    eexists. split; [done|]. split; [done|]. intros _. destruct (Hcell _ _ _ Er) as [v Hv]. cbn. by rewrite Hv.
  - rewrite column_at_resolve. unfold cell, column_title. destruct (resolve def c) as [[i col]|] eqn:Er; [|by eexists]. cbn [rbind].
    case_bool_decide; [|by eexists]. cbn [negb]. eexists. split; [done|]. split; [done|]. intros Hx. destruct (Hcell _ _ _ Er) as [v Hv].
    cbn [map_panic project mbind option_bind]. rewrite Hv. cbn [mbind option_bind]. unfold json_at.
    specialize (Hx v (list_elem_of_lookup_2 _ _ _ Hv)). destruct (Null v); [done|]. cbn [orb].
    case_bool_decide as Et; cbn [negb]; [|by destruct (Typ v)]. rewrite Et. specialize (Hx eq_refl Et).
    destruct (jsonExtract (Blob v) path) as [[x []]|]; done.
Qed.

(** The projections of a query show its columns and give its row. *)
Lemma select_projs_known items :
  if items_known def items then exists ps, select_projs def items = Ok ps /\ proj_name <$> ps = result_columns def items /\
    (Forall item_readable items -> map_panic (fun p => project p vals) ps = Some (Ok (result_row def items vals)))
  else exists e, select_projs def items = Err e.
Proof.
  rewrite select_projs_shown. unfold result_columns, result_row.
  assert (items_known def items = items_known def (shown items) /\ (Forall item_readable items -> Forall item_readable (shown items))) as [-> Hr].
  { destruct items; [|done]. by split; [|repeat constructor]. }
  enough (if items_known def (shown items) then exists qs, map_res (item_projs def) (shown items) = Ok qs /\ proj_name <$> concat qs = shown items ≫= item_titles def /\
    (Forall item_readable (shown items) -> map_panic (fun p => project p vals) (concat qs) = Some (Ok (shown items ≫= item_values def vals)))
    else exists e, map_res (item_projs def) (shown items) = Err e) as H.
  { destruct (items_known def (shown items)).
    - destruct H as (qs & -> & Hn & Hv). exists (concat qs). split; [done|]. split; [done|]. auto.
    - destruct H as [e ->]. by exists e. }
  clear Hr. induction (shown items) as [|it its IH]; [by exists []|]. cbn [items_known forallb map_res]. pose proof (item_projs_known it) as Hit.
  destruct (item_known def it); [|destruct Hit as [e ->]; by exists e]. destruct Hit as (ps & -> & Hn & Hv). cbn [andb rbind].
  change (forallb (item_known def) its) with (items_known def its). destruct (items_known def its); [|destruct IH as [e ->]; by exists e].
  destruct IH as (qs & -> & Hns & Hvs). exists (ps :: qs). split; [done|]. cbn [concat]. rewrite !bind_cons, fmap_app, Hn, Hns. split; [done|].
  intros [H1 H2]%Forall_cons. apply map_panic_app; auto.
Qed.
End results.

End semantics.
