(* ===== verification/SqlState.v ===== *)
(** The contract of the SQL layer: tables as maps from primary keys to rows,
    what each statement does to them, and how a database represents them, with
    the agreement of rows and indexes. *)

From S2P Require Import Prelude Utf8 Unicode Strconv Keys Page Row JsonBin SqlLex Wal Mvcc Catalog BTree Secondary.
From S2P Require Import SqlAst SqlParse SqlParseSpec SqlBind SqlExec SqlKernel SqlBase SqlSemantics.

(** * The abstract state *)

(** A table: its definition and its rows by encoded primary key. *)
Record atable := mkATable { at_def : TableDef; at_rows : gmap bytes (list Value) }.

Record adb := mkADB { a_tables : gmap bytes atable; a_idx : gmap bytes IndexDef }.

Section contract.
Context `{U : Unicode} `{J : GoJson}.

(** * What statements do *)

(** The rows a condition selects. *)
Definition selected (t : atable) (ws : list pred) : gmap bytes (list Value) :=
  filter (fun kv => satisfies (at_def t) ws (snd kv) = true) (at_rows t).

(** A row as the store keeps it, when its encoding fits into a page. *)
Definition stored_row (vals : list Value) : option (list Value) :=
  if zlen (encodeRow vals) <=? pageSize - 8 then Some (stored <$> vals) else None.

(** The row an UPDATE makes of a row. *)
Definition updated_row (def : TableDef) (sets : list assign) (vals : list Value) : option (list Value) :=
  vals ← assigned def (assign_pair <$> sets) vals;
  stored_row vals.

Definition set_rows (t : atable) (rows : gmap bytes (list Value)) : atable := mkATable (at_def t) rows.
Definition set_table (name : bytes) (t : atable) (a : adb) : adb := mkADB (<[name := t]> (a_tables a)) (a_idx a).

(** The rows affected and the state after; [None] when the statement is refused. *)
Definition spec_exec (a : adb) (st : stmt) : option (Z * adb) :=
  match st with
  | createTableStmt name cols =>
      let name := normalizeName name in
      match a_tables a !! name with
      | Some _ => None
      | None => Some (0, set_table name (mkATable (mkTable name (normalizeColumns cols)) ∅) a)
      end
  | dropTableStmt name =>
      let name := normalizeName name in
      t ← a_tables a !! name;
      Some (Z.of_nat (size (at_rows t)),
            mkADB (delete name (a_tables a)) (filter (fun kd => idx_Table (snd kd) <> name) (a_idx a)))
  | insertStmt table cols values =>
      let name := normalizeName table in
      t ← a_tables a !! name;
      vals ← new_row (at_def t) cols values;
      pk ← row_pk (at_def t) vals;
      row ← stored_row vals;
      match at_rows t !! pk_encode pk with
      | Some _ => None
      | None => Some (1, set_table name (set_rows t (<[pk_encode pk := row]> (at_rows t))) a)
      end
  | updateStmt table sets ws =>
      let name := normalizeName table in
      t ← a_tables a !! name;
      if assigns_key (at_def t) sets then None
      else
        let hit := selected t ws in
        let new := omap (updated_row (at_def t) sets) hit in
        if bool_decide (dom new = dom hit)
        then Some (Z.of_nat (size hit), set_table name (set_rows t (new ∪ at_rows t)) a)
        else None
  | deleteStmt table ws =>
      let name := normalizeName table in
      t ← a_tables a !! name;
      let hit := selected t ws in
      Some (Z.of_nat (size hit), set_table name (set_rows t (at_rows t ∖ hit)) a)
  | createIndexStmt index table column path =>
      let d := mkIndex (normalizeName index) (normalizeName table) (normalizeName column) path in
      t ← a_tables a !! idx_Table d;
      match a_idx a !! idx_Name d, indexable (at_def t) column path with
      | None, true => Some (0, mkADB (a_tables a) (<[idx_Name d := d]> (a_idx a)))
      | _, _ => None
      end
  | dropIndexStmt index =>
      let name := normalizeName index in
      d ← a_idx a !! name;
      Some (0, mkADB (a_tables a) (delete name (a_idx a)))
  | selectStmt _ _ _ => None
  end.

(** * Well-formed states *)

(** A value whose index entries exist and are unambiguous: its text has no NUL
    byte, and every path of a JSON document extracts, to a value without one. *)
Definition value_fine (v : Value) : Prop :=
  Byte.x00 ∉ Text v /\
  (Null v = false -> Typ v = TypeJSON -> forall path, path_ok path ->
   exists iv ok, indexableExtract (Blob v) path = Ok (iv, ok) /\ (ok = true -> clean iv /\ value_ok iv)).

(** A value of a column, in the form rows keep. *)
Definition value_of_type (typ : ColType) (v : Value) : Prop :=
  (Null v = true \/ Typ v = typ) /\ stored v = v /\ value_ok v /\ value_fine v.

Record table_wf (name : bytes) (def : TableDef) : Prop := {
  tw_name : tab_Name def = name;
  tw_good : name_good name;
  tw_cols : columns_good def;
  tw_shape : Forall column_shape (tab_Columns def);
  tw_pk : is_ok (pkColumn def);
}.

Record row_wf (def : TableDef) (enc : bytes) (vals : list Value) : Prop := {
  rw_types : Forall2 (fun c v => value_of_type (col_Type c) v) (tab_Columns def) vals;
  rw_pk : pk_encode <$> row_pk def vals = Some enc;
}.

Record index_wf (a : adb) (name : bytes) (d : IndexDef) : Prop := {
  iw_name : idx_Name d = name;
  iw_good : name_good name;
  iw_column : name_good (idx_Column d);
  iw_path : utf8_valid (idx_Path d) = true;
  iw_table : exists t, a_tables a !! idx_Table d = Some t /\ index_column_ok (at_def t) (idx_Column d) (idx_Path d) = Ok tt;
}.

Record adb_wf (a : adb) : Prop := {
  aw_tables : forall name t, a_tables a !! name = Some t -> table_wf name (at_def t);
  aw_rows : forall name t enc vals, a_tables a !! name = Some t -> at_rows t !! enc = Some vals -> row_wf (at_def t) enc vals;
  aw_idx : forall i d, a_idx a !! i = Some d -> index_wf a i d;
}.

(** * Statements the contract covers *)

(** An expression whose value, whatever the column's type, rows and indexes keep exactly. *)
Definition expr_fine (e : expr) : Prop := forall typ v, exprToValue e typ = Ok v -> value_ok v /\ value_fine v.

(** A condition with one answer in every way it can be evaluated: a single
    equality, which an index may answer, compares with a value of the column's
    type that is not NULL and holds no NUL byte. *)
Definition sharp (v : Value) : Prop := Null v = false /\ value_ok v /\ Byte.x00 ∉ Text v.

Definition pred_sharp (def : TableDef) (w : pred) : Prop :=
  match w with
  | predColumn c e =>
      forall i col, columnIndex def (normalizeName c) = Ok i -> tab_Columns def !! i = Some col ->
      exists v, exprToValue e (col_Type col) = Ok v /\ sharp v
  | predExtract c path e => exists v, predValueForExtract e = Ok v /\ sharp v
  end.

Definition pred_fine (w : pred) : Prop :=
  match w with
  | predColumn _ _ => True
  | predExtract _ path e => path_ok path /\ is_ok (predValueForExtract e)
  end.

Definition where_ok (def : TableDef) (ws : list pred) : Prop :=
  Forall pred_fine ws /\ match ws with [w] => pred_sharp def w | _ => True end.

(** Names are ASCII, the columns of a new table have different names, values
    are exact and conditions have one answer. *)
Definition stmt_ok (a : adb) (st : stmt) : Prop :=
  let on table (P : TableDef -> Prop) := forall t, a_tables a !! normalizeName table = Some t -> P (at_def t) in
  match st with
  | createTableStmt name cols =>
      name_plain name /\ Forall (fun c => name_plain (col_Name c)) cols /\
      NoDup (col_Name <$> normalizeColumns cols) /\ pkCount cols = 1%nat /\ Forall column_shape cols
  | insertStmt _ _ values => Forall expr_fine values
  | updateStmt table sets ws =>
      Forall (fun s => name_plain (as_column s) /\ expr_fine (as_value s)) sets /\ on table (fun def => where_ok def ws)
  | deleteStmt table ws => on table (fun def => where_ok def ws)
  | createIndexStmt index _ column path => name_plain index /\ name_plain column /\ utf8_valid path = true
  | _ => True
  end.

End contract.

(** * Representation *)

(** Whether a table's primary keys are integers. *)
Definition int_keys (def : TableDef) : bool :=
  match pkColumn def with
  | Ok (c, _) => bool_decide (col_Type c = TypeInteger)
  | Err _ => false
  end.

Definition row_key_of (name : bytes) (rows : gmap bytes (list Value)) (pk : pkKey) : option bytes :=
  match rows !! pk_encode pk with
  | Some _ => Some (rowKey name (pk_encode pk))
  | None => None
  end.

(** The tree of a table maps the keys of its rows to their row keys. *)
Definition tree_rep (name : bytes) (rows : gmap bytes (list Value)) (t : btree) : Prop :=
  tree_has id pk_ok t (row_key_of name rows).

Section representation.
Context `{U : Unicode} `{J : GoJson} `{C : CatalogCodec}.

(** The store holds the catalog and the rows. *)
Definition row_stored (n : bytes -> option bytes) (key : bytes) (row : option (list Value)) : Prop :=
  match row with
  | Some vals => exists raw, n key = Some raw /\ unpackRow raw = Some (Ok vals)
  | None => n key = None
  end.

Record data_rep (n : bytes -> option bytes) (a : adb) : Prop := {
  dr_tables : forall name, n (catalogTableKey name) = marshalTable ∘ at_def <$> a_tables a !! name;
  dr_idx : forall i, n (catalogIndexKey i) = marshalIndex <$> a_idx a !! i;
  dr_rows : forall name enc, no_slash name -> row_stored n (rowKey name enc) (a_tables a !! name ≫= fun t => at_rows t !! enc);
}.

(** The value a row has in an index, by its key form. *)
Definition index_value (d : IndexDef) (def : TableDef) (vals : list Value) : option bytes :=
  match valueFromRow (newSecondaryIdx d) def vals with
  | Ok (iv, true) => Some (value_prefix iv)
  | _ => None
  end.

(** The entries of an index: clean values and the table's keys. *)
Definition entry_key (x : Value * pkKey) : pkKey := compositeKey (fst x) (snd x).
Definition entry_ok (ints : bool) (x : Value * pkKey) : Prop := clean (fst x) /\ pk_kind ints (snd x).

Definition index_row (d : IndexDef) (def : TableDef) (rows : gmap bytes (list Value)) (x : Value * pkKey) : option bytes :=
  vals ← rows !! pk_encode (snd x);
  if bool_decide (index_value d def vals = Some (value_prefix (fst x))) then Some (rowKey (idx_Table d) (pk_encode (snd x)))
  else None.

Definition sec_rep (d : IndexDef) (def : TableDef) (rows : gmap bytes (list Value)) (si : secondaryIdx) : Prop :=
  si_def si = d /\ tree_has entry_key (entry_ok (int_keys def)) (si_tree si) (index_row d def rows).

(** The maps in memory agree with the tables. *)
Definition tree_of (name : bytes) (t : option atable) (tr : option btree) : Prop :=
  match t, tr with
  | Some t, Some tr => tree_rep name (at_rows t) tr
  | None, None => True
  | _, _ => False
  end.

Definition sec_of (a : adb) (d : option IndexDef) (si : option secondaryIdx) : Prop :=
  match d, si with
  | Some d, Some si => exists t, a_tables a !! idx_Table d = Some t /\ sec_rep d (at_def t) (at_rows t) si
  | None, None => True
  | _, _ => False
  end.

Record mem_rep (db : Database) (a : adb) : Prop := {
  mr_tables : tables db = at_def <$> a_tables a;
  mr_index : forall name, tree_of name (a_tables a !! name) (indexes db !! name);
  mr_secs : forall i, sec_of a (a_idx a !! i) (secIndexes db !! i);
}.

Record rep (db : Database) (a : adb) : Prop := {
  rp_kv : db_wf (kv db);
  rp_wf : adb_wf a;
  rp_data : data_rep (now (kv db)) a;
  rp_mem : mem_rep db a;
}.

End representation.
