(* ===== verification/SqlIndexes.v ===== *)
(** The trees in memory under single row changes: the primary-key tree and the
    secondary indexes of a table follow the table's rows, one insertion, update
    or removal at a time, and a pass over all indexes of a table. *)

From S2P Require Import Prelude Utf8 Unicode Strconv Keys Page Row JsonBin SqlLex Wal Mvcc Catalog BTree Secondary.
From S2P Require Import SqlAst SqlParse SqlParseSpec SqlBind SqlExec SqlKernel SqlBase SqlSemantics SqlState.

Notation rows_map := (gmap bytes (list Value)).

(** * Primary-key trees *)

Lemma key_test a b : pk_ok a -> pk_ok b -> (compare a b =? 0) = bool_decide (a = b).
Proof. intros Ha Hb. apply Bool.eq_iff_eq_true. by rewrite Z.eqb_eq, bool_decide_eq_true, pk_compare_eq. Qed.

Lemma tree_rep_new name : tree_rep name ∅ newBTree.
Proof. eapply tree_has_ext; [|apply tree_has_new]. intros pk _. unfold row_key_of. by rewrite lookup_empty. Qed.

Lemma tree_rep_put name rows t pk vals :
  tree_rep name rows t -> pk_ok pk ->
  exists t', BTree.Put t pk (rowKey name (pk_encode pk)) = Some t' /\ tree_rep name (<[pk_encode pk := vals]> rows) t'.
Proof.
  intros Ht Hpk. destruct (tree_has_put id pk_ok t _ pk (rowKey name (pk_encode pk)) Ht Hpk) as (t' & E & H).
  exists t'. split; [done|]. eapply tree_has_ext; [|exact H]. intros y Hy. cbn [id]. rewrite key_test by done.
  unfold row_key_of. case_bool_decide as Heq; [subst; by rewrite lookup_insert_eq|].
  rewrite lookup_insert_ne; [done|]. intros En%pk_encode_inj; done.
Qed.

Lemma tree_rep_delete name rows t pk :
  tree_rep name rows t -> pk_ok pk ->
  exists t', BTree.Delete t pk = Some t' /\ tree_rep name (delete (pk_encode pk) rows) t'.
Proof.
  intros Ht Hpk. destruct (tree_has_delete id pk_ok t _ pk Ht) as (t' & E & H).
  exists t'. split; [done|]. eapply tree_has_ext; [|exact H]. intros y Hy. cbn [id]. rewrite key_test by done.
  unfold row_key_of. case_bool_decide as Heq; [subst; by rewrite lookup_delete_eq|].
  rewrite lookup_delete_ne; [done|]. intros En%pk_encode_inj; done.
Qed.

(** Removing rows one after the other. *)
Definition remove_all (encs : list bytes) (rows : rows_map) : rows_map := foldl (fun m enc => delete enc m) rows encs.

Lemma lookup_remove_all encs rows enc : remove_all encs rows !! enc = if decide (enc ∈ encs) then None else rows !! enc.
Proof.
  unfold remove_all. revert rows. induction encs as [|e encs IH]; intros rows; cbn [foldl].
  - by rewrite decide_False by apply not_elem_of_nil.
  - rewrite IH. destruct (decide (enc ∈ encs)) as [H|H]; [by rewrite decide_True by (by right)|].
    destruct (decide (enc = e)) as [->|Hne]; [rewrite lookup_delete_eq, decide_True by (by left); done|].
    rewrite lookup_delete_ne by done. rewrite decide_False; [done|]. rewrite elem_of_cons. naive_solver.
Qed.

Lemma delete_keys_ok name pks : forall rows t,
  tree_rep name rows t -> Forall pk_ok pks ->
  exists t', delete_keys pks t = Some t' /\ tree_rep name (remove_all (pk_encode <$> pks) rows) t'.
Proof.
  induction pks as [|pk pks IH]; intros rows t Ht Hpks; [by exists t|]. apply Forall_cons in Hpks as [Hpk Hpks].
  destruct (tree_rep_delete name rows t pk Ht Hpk) as (t1 & E & H1). cbn [delete_keys]. rewrite E. cbn [mbind option_bind].
  by apply IH.
Qed.

(** * Values of rows in indexes *)

Lemma digits_no_nul fuel n acc : 0 <= n -> Byte.x00 ∉ acc -> Byte.x00 ∉ dec_digits fuel n acc.
Proof.
  revert n acc. induction fuel as [|fuel IH]; intros n acc Hn Ha; cbn [dec_digits]; [done|].
  assert (Byte.x00 ∉ digit (n mod 10) :: acc) as H.
  { intros [E|E]%elem_of_cons; [|done]. apply (f_equal byte_val) in E. unfold digit in E. rewrite byte_val_of in E.
    change (byte_val Byte.x00) with 0 in E. pose proof (Z.mod_pos_bound n 10). rewrite Z.mod_small in E; lia. }
  case_match; [done|]. apply IH; [apply Z.div_pos; lia|done].
Qed.

Lemma formatInt_no_nul n : Byte.x00 ∉ formatInt n.
Proof.
  assert (Byte.x00 ∉ lit "-") as Hm by (apply (bool_decide_unpack _); vm_compute; exact I).
  unfold formatInt, formatUint. destruct (Z.ltb_spec n 0).
  - rewrite elem_of_app. intros [E|E]; [done|]. revert E. apply digits_no_nul; [lia|apply not_elem_of_nil].
  - apply digits_no_nul; [lia|apply not_elem_of_nil].
Qed.

Lemma clean_text v : Byte.x00 ∉ Text v -> clean v.
Proof.
  assert (Byte.x00 ∉ lit "I:" /\ Byte.x00 ∉ lit "T:" /\ Byte.x00 ∉ lit "N:") as (HI & HT & HN).
  { apply (bool_decide_unpack _). vm_compute. exact I. }
  unfold clean, value_prefix. intros Hv. pose proof (formatInt_no_nul (Int v)).
  destruct (Typ v); rewrite ?elem_of_app; naive_solver.
Qed.

(** A value about to be stored in a column: NULL of any form, or canonical. *)
Definition value_new `{U : Unicode} `{J : GoJson} (typ : ColType) (v : Value) : Prop :=
  (Null v = true \/ (Typ v = typ /\ stored v = v)) /\ value_ok v /\ value_fine v.

Definition row_new `{U : Unicode} `{J : GoJson} (def : TableDef) (vals : list Value) : Prop :=
  Forall2 (fun c v => value_new (col_Type c) v) (tab_Columns def) vals.

Section values.
Context `{U : Unicode} `{J : GoJson}.

Lemma fine_null v : Null v = true -> Byte.x00 ∉ Text v -> value_fine v.
Proof. intros Hn Ht. split; [done|]. congruence. Qed.

Lemma value_new_stored typ v : storable_type typ -> value_new typ v -> value_of_type typ (stored v).
Proof.
  intros Ht (Hv & Hok & Hfine). destruct (Null v) eqn:En.
  - unfold stored. rewrite En. split; [by left|]. split; [done|]. split; [unfold value_ok, in_i64; cbn; lia|].
    apply fine_null; [done|apply not_elem_of_nil].
  - destruct Hv as [?|[Htyp Hs]]; [done|]. rewrite Hs. split; [by right|done].
Qed.

Lemma value_of_type_new typ v : value_of_type typ v -> value_new typ v.
Proof. intros (Ht & Hs & Hok & Hf). split; [|done]. destruct Ht; [by left|by right]. Qed.

Lemma row_new_stored def vals :
  Forall column_shape (tab_Columns def) -> row_new def vals ->
  Forall2 (fun c v => value_of_type (col_Type c) v) (tab_Columns def) (stored <$> vals).
Proof.
  intros Hs Hn. apply Forall2_fmap_r. eapply Forall2_impl_in; [exact Hn|]. intros c v Hc Hv.
  apply value_new_stored; [|done]. rewrite Forall_forall in Hs. by destruct (Hs c Hc).
Qed.

Lemma row_typed_new def vals : Forall2 (fun c v => value_of_type (col_Type c) v) (tab_Columns def) vals -> row_new def vals.
Proof. intros H. eapply Forall2_impl; [exact H|]. intros c v. apply value_of_type_new. Qed.

Lemma row_new_ok def vals : row_new def vals -> Forall value_ok vals.
Proof. unfold row_new. generalize (tab_Columns def). induction 1 as [|c v cs vs (_ & ? & _)]; auto. Qed.

Lemma exprToValue_new e typ v : exprToValue e typ = Ok v -> Null v = true \/ (Typ v = typ /\ stored v = v).
Proof.
  unfold exprToValue. intros H. destruct e, typ; try done; try (injection H as <-; by auto);
    match type of H with rbind ?x _ = _ => destruct x as [b|]; [|done] end; cbn [rbind] in H;
    match type of H with rbind ?x _ = _ => destruct x; [|done] end; injection H as <-; by right.
Qed.

Lemma expr_new e typ v : expr_fine e -> exprToValue e typ = Ok v -> value_new typ v.
Proof. intros He E. split; [by eapply exprToValue_new|by eapply He]. Qed.

Lemma null_new typ : value_new typ (nullOf typ).
Proof. split; [by left|]. split; [unfold value_ok, in_i64; cbn; lia|]. apply fine_null; [done|apply not_elem_of_nil]. Qed.

Section column.
Context (d : IndexDef) (def : TableDef).
Hypothesis column : index_column_ok def (idx_Column d) (idx_Path d) = Ok tt.

(** An index takes a clean value, or none, from every row. *)
Lemma row_index_value vals :
  row_new def vals ->
  exists iv ok, (forall si, si_def si = d -> valueFromRow si def vals = Ok (iv, ok)) /\
  (ok = true -> clean iv) /\ index_value d def vals = (if ok then Some (value_prefix iv) else None).
Proof.
  intros Hrow. assert (exists iv ok, (forall si, si_def si = d -> valueFromRow si def vals = Ok (iv, ok)) /\ (ok = true -> clean iv)) as (iv & ok & H & Hc).
  2:{ exists iv, ok. split; [done|]. split; [done|]. unfold index_value. rewrite (H (newSecondaryIdx d)) by done. by destruct ok. }
  unfold index_column_ok in column. destruct (pkColumn def) as [[pkCol ?]|]; [|done]. cbn [rbind] in column.
  case_bool_decide; [done|]. destruct (columnIndex def (idx_Column d)) as [ci|] eqn:Eci; [|done]. cbn [rbind] in column.
  destruct (tab_Columns def !! ci) as [c|] eqn:Ec; [|done].
  destruct (Forall2_lookup_l _ _ _ _ _ Hrow Ec) as (v & Ev & Hv & _ & Htext & Hjson).
  destruct (Null v) eqn:En.
  { exists zeroValue, false. split; [|done]. intros si <-. unfold valueFromRow. rewrite Eci. cbn [rbind]. by rewrite Ev, En. }
  destruct Hv as [?|[Ht _]]; [done|]. destruct (decide (idx_Path d = [])) as [Ep|Ep].
  - rewrite (bool_decide_true (idx_Path d = [])) in column by done. exists v, true. split; [|intros _; by apply clean_text].
    intros si <-. unfold valueFromRow. rewrite Eci. cbn [rbind negb]. rewrite Ev, En, bool_decide_true by done. cbn [negb].
    rewrite Ht. by destruct (col_Type c).
  - rewrite (bool_decide_false (idx_Path d = [])) in column by done. cbn [negb] in column.
    destruct (bool_decide_reflect (col_Type c = TypeJSON)) as [Ej|]; [|done]. cbn [negb] in column.
    destruct (parseJSONPath (idx_Path d)) as [segs|] eqn:Epath; [|done].
    destruct (Hjson eq_refl ltac:(congruence) (idx_Path d) ltac:(by exists segs)) as (iv & ok & E & Hc). exists iv, ok. split; [|naive_solver].
    intros si <-. unfold valueFromRow. rewrite Eci. cbn [rbind]. rewrite Ev, En, bool_decide_false by done. cbn [negb].
    by rewrite Ht, Ej.
Qed.

(** The stored form of a row has the same value. *)
Lemma index_value_stored vals : row_new def vals -> index_value d def (stored <$> vals) = index_value d def vals.
Proof.
  intros Hrow. unfold index_value, valueFromRow. cbn [newSecondaryIdx si_def].
  destruct (columnIndex def (idx_Column d)) as [ci|] eqn:E; [|done]. cbn [rbind]. rewrite list_lookup_fmap.
  destruct (vals !! ci) as [v|] eqn:Ev; [|done]. cbn [fmap option_fmap option_map].
  destruct (Forall2_lookup_r _ _ _ _ _ Hrow Ev) as (c & _ & [Hn|[_ Hs]] & _ & _); [|by rewrite Hs].
  unfold stored. by rewrite Hn.
Qed.
End column.
End values.

(** * One row in one index *)

Section index_steps.
Context `{U : Unicode} `{J : GoJson}.
Context (d : IndexDef) (def : TableDef).
Hypothesis column : index_column_ok def (idx_Column d) (idx_Path d) = Ok tt.
Notation kind := (pk_kind (int_keys def)).

Lemma entry_test x y :
  entry_ok (int_keys def) x -> entry_ok (int_keys def) y ->
  (compare (entry_key x) (entry_key y) =? 0) = bool_decide (value_prefix (fst x) = value_prefix (fst y) /\ snd x = snd y).
Proof. intros [Hx Px] [Hy Py]. by apply (composite_eq (int_keys def)). Qed.

Lemma kind_encode a b : kind a -> kind b -> a <> b -> pk_encode a <> pk_encode b.
Proof. intros [Ha _] [Hb _] Hne E%pk_encode_inj; done. Qed.

Lemma sec_rep_new : sec_rep d def ∅ (newSecondaryIdx d).
Proof. split; [done|]. eapply tree_has_ext; [|apply tree_has_new]. intros x _. unfold index_row. by rewrite lookup_empty. Qed.

Lemma sec_rep_remove rows si pk vals iv (ok : bool) :
  sec_rep d def rows si -> kind pk -> rows !! pk_encode pk = Some vals ->
  index_value d def vals = (if ok then Some (value_prefix iv) else None) -> (ok = true -> clean iv) ->
  exists si', (if ok then remove_entry si iv pk else Some si) = Some si' /\ sec_rep d def (delete (pk_encode pk) rows) si'.
Proof.
  intros [Hd Ht] Hpk Hrow Hiv Hc. destruct ok.
  - destruct (tree_has_delete entry_key _ _ _ (iv, pk) Ht) as (t' & E & H). exists (mkSec (si_def si) t').
    unfold remove_entry. change (compositeKey iv pk) with (entry_key (iv, pk)). cbv zeta. rewrite E. split; [done|]. split; [done|].
    eapply tree_has_ext; [|exact H]. intros [val pk'] Hy. rewrite entry_test by (done || by split; auto).
    cbn [fst snd]. unfold index_row. cbn [fst snd]. destruct (decide (pk' = pk)) as [->|Hne].
    + rewrite lookup_delete_eq, Hrow. cbn [mbind option_bind]. case_bool_decide as H1; [done|].
      rewrite bool_decide_false; [done|]. rewrite Hiv. intros [= E']. naive_solver.
    + rewrite bool_decide_false by naive_solver. rewrite lookup_delete_ne; [done|]. apply kind_encode; [done|by destruct Hy|done].
  - exists si. split; [done|]. split; [done|]. eapply tree_has_ext; [|exact Ht]. intros [val pk'] Hy. unfold index_row. cbn [fst snd].
    destruct (decide (pk' = pk)) as [->|Hne].
    + rewrite lookup_delete_eq, Hrow. cbn [mbind option_bind]. by rewrite Hiv, bool_decide_false.
    + rewrite lookup_delete_ne; [done|]. apply kind_encode; [done|by destruct Hy|done].
Qed.

Lemma sec_rep_insert rows si pk vals iv (ok : bool) :
  sec_rep d def rows si -> kind pk -> rows !! pk_encode pk = None ->
  index_value d def vals = (if ok then Some (value_prefix iv) else None) -> (ok = true -> clean iv) ->
  exists si', (if ok then insert_entry si iv pk (rowKey (idx_Table d) (pk_encode pk)) else Some si) = Some si' /\
  sec_rep d def (<[pk_encode pk := vals]> rows) si'.
Proof.
  intros [Hd Ht] Hpk Hrow Hiv Hc. destruct ok.
  - destruct (tree_has_put entry_key _ _ _ (iv, pk) (rowKey (idx_Table d) (pk_encode pk)) Ht) as (t' & E & H); [by split; auto|].
    exists (mkSec (si_def si) t'). unfold insert_entry. change (compositeKey iv pk) with (entry_key (iv, pk)). cbv zeta. rewrite E. split; [done|]. split; [done|].
    eapply tree_has_ext; [|exact H]. intros [val pk'] Hy. rewrite entry_test by (done || by split; auto).
    cbn [fst snd]. unfold index_row. cbn [fst snd]. destruct (decide (pk' = pk)) as [->|Hne].
    + rewrite lookup_insert_eq, Hrow. cbn [mbind option_bind]. rewrite Hiv.
      erewrite bool_decide_ext; [done|]. split; [by intros [-> _]|by intros [= ->]].
    + rewrite bool_decide_false by naive_solver. rewrite lookup_insert_ne; [done|]. apply kind_encode; [done|by destruct Hy|done].
  - exists si. split; [done|]. split; [done|]. eapply tree_has_ext; [|exact Ht]. intros [val pk'] Hy. unfold index_row. cbn [fst snd].
    destruct (decide (pk' = pk)) as [->|Hne].
    + rewrite lookup_insert_eq, Hrow. cbn [mbind option_bind]. by rewrite Hiv, bool_decide_false.
    + rewrite lookup_insert_ne; [done|]. apply kind_encode; [done|by destruct Hy|done].
Qed.

(** * The rows of a statement in one index *)

Lemma index_insert_ok rows si pk vals :
  sec_rep d def rows si -> kind pk -> rows !! pk_encode pk = None -> row_new def vals ->
  exists si', index_insert def vals pk (rowKey (idx_Table d) (pk_encode pk)) si = Some (si', None) /\
  sec_rep d def (<[pk_encode pk := stored <$> vals]> rows) si'.
Proof.
  intros Hs Hpk Hrow Hv. destruct (row_index_value d def column vals Hv) as (iv & ok & E & Hc & Hiv).
  destruct (sec_rep_insert rows si pk (stored <$> vals) iv ok Hs Hpk Hrow) as (si' & Ei & H); [by rewrite index_value_stored|done|].
  exists si'. split; [|done]. unfold index_insert. rewrite E by apply Hs. destruct ok; [by rewrite Ei|congruence].
Qed.

Definition update_enc (u : updateItem) : bytes := pk_encode (up_pk u).

(** The rows after the updates. *)
Definition updates (us : list updateItem) : rows_map :=
  list_to_map ((fun u => (update_enc u, stored <$> up_newRow u)) <$> us).

Lemma lookup_updates_notin us enc : enc ∉ update_enc <$> us -> updates us !! enc = None.
Proof.
  intros H. apply not_elem_of_list_to_map_1. rewrite <- list_fmap_compose. intros (u & -> & Hu)%list_elem_of_fmap.
  apply H, list_elem_of_fmap. by exists u.
Qed.

Lemma index_update_ok us : forall rows si,
  sec_rep d def rows si -> NoDup (update_enc <$> us) ->
  Forall (fun u => kind (up_pk u) /\ rows !! update_enc u = Some (up_oldRow u) /\ row_new def (up_oldRow u) /\ row_new def (up_newRow u)) us ->
  exists si', index_update (idx_Table d) def us si = Some (si', None) /\ sec_rep d def (updates us ∪ rows) si'.
Proof.
  induction us as [|u us IH]; intros rows si Hs Hnd Hus.
  { exists si. split; [done|]. unfold updates. cbn. by rewrite (left_id_L ∅ (∪)). }
  apply Forall_cons in Hus as [(Hpk & Hold & Hon & Hnn) Hus]. apply NoDup_cons in Hnd as [Hni Hnd].
  destruct (row_index_value d def column _ Hon) as (iv & ok & E & Hc & Hiv).
  destruct (row_index_value d def column _ Hnn) as (iv' & ok' & E' & Hc' & Hiv').
  cbn [index_update]. rewrite E, E' by apply Hs.
  destruct (sec_rep_remove rows si (up_pk u) _ iv ok Hs Hpk Hold Hiv Hc) as (s1 & -> & H1). cbn [mbind option_bind].
  destruct (sec_rep_insert _ s1 (up_pk u) (stored <$> up_newRow u) iv' ok' H1 Hpk) as (s2 & -> & H2);
    [apply lookup_delete_eq|by rewrite index_value_stored|done|]. cbn [mbind option_bind].
  rewrite insert_delete_eq in H2. destruct (IH _ s2 H2 Hnd) as (si' & -> & H).
  { rewrite Forall_forall in *. intros w Hw. destruct (Hus w Hw) as (? & Hr & ? & ?). split; [done|]. split; [|done].
    rewrite lookup_insert_ne; [done|]. intros E2. apply Hni, list_elem_of_fmap. exists w. by rewrite <- E2. }
  exists si'. split; [done|]. unfold updates in *. cbn [fmap list_fmap list_to_map foldr]. 
  rewrite <- insert_union_l. rewrite <- insert_union_r in H; [done|]. by apply lookup_updates_notin.
Qed.

Definition item_enc (it : rowItem) : bytes := pk_encode (ri_pk it).

Lemma index_delete_ok items : forall rows si,
  sec_rep d def rows si -> NoDup (item_enc <$> items) ->
  Forall (fun it => kind (ri_pk it) /\ rows !! item_enc it = Some (ri_values it) /\ row_new def (ri_values it)) items ->
  exists si', index_delete def items si = Some (si', None) /\ sec_rep d def (remove_all (item_enc <$> items) rows) si'.
Proof.
  induction items as [|it items IH]; intros rows si Hs Hnd Hits; [by exists si|].
  apply Forall_cons in Hits as [(Hpk & Hold & Hon) Hits]. apply NoDup_cons in Hnd as [Hni Hnd].
  destruct (row_index_value d def column _ Hon) as (iv & ok & E & Hc & Hiv).
  cbn [index_delete]. rewrite E by apply Hs.
  destruct (sec_rep_remove rows si (ri_pk it) _ iv ok Hs Hpk Hold Hiv Hc) as (s1 & -> & H1). cbn [mbind option_bind].
  apply IH; [done|done|]. rewrite Forall_forall in *. intros w Hw. destruct (Hits w Hw) as (? & Hr & ?). split; [done|]. split; [|done].
  rewrite lookup_delete_ne; [done|]. intros E2. apply Hni, list_elem_of_fmap. exists w. split; [exact E2|done].
Qed.

End index_steps.

(** * All indexes of a table *)

Section each.
Context (name : bytes) (f : secondaryIdx -> option (secondaryIdx * option error)) (R : secondaryIdx -> secondaryIdx -> Prop).

Definition mine (si : secondaryIdx) : Prop := idx_Table (si_def si) = name.

(** How a pass changes an index. *)
Definition passed (si si' : option secondaryIdx) : Prop :=
  match si, si' with
  | Some si, Some si' => (mine si -> R si si') /\ (~ mine si -> si' = si)
  | None, None => True
  | _, _ => False
  end.

Lemma each_index_loop order : forall m,
  NoDup order.*1 -> Forall (fun kx => m !! fst kx = Some (snd kx)) order ->
  Forall (fun kx => mine (snd kx) -> exists si', f (snd kx) = Some (si', None) /\ R (snd kx) si') order ->
  exists m', each_index name f order m = Some (m', None) /\
  forall i, if decide (i ∈ order.*1) then passed (m !! i) (m' !! i) else m' !! i = m !! i.
Proof.
  induction order as [|[k si] order IH]; intros m Hnd Hm Hf.
  { exists m. split; [done|]. intros i. by rewrite decide_False by apply not_elem_of_nil. }
  cbn [fmap list_fmap fst] in *. apply NoDup_cons in Hnd as [Hni Hnd]. apply Forall_cons in Hm as [Hk Hm]. apply Forall_cons in Hf as [Hsi Hf].
  cbn [fst snd] in *. cbn [each_index]. assert (forall si', exists m', each_index name f order (<[k := si']> m) = Some (m', None) /\
    forall i, if decide (i ∈ k :: order.*1) then (if decide (i = k) then m' !! i = Some si' else passed (m !! i) (m' !! i)) else m' !! i = m !! i) as Hrest.
  { intros si'. destruct (IH (<[k := si']> m) Hnd) as (m' & E & H); [|done|].
    { rewrite Forall_forall in *. intros x Hx. rewrite lookup_insert_ne; [by apply Hm|]. intros ->. apply Hni, list_elem_of_fmap. by exists x. }
    exists m'. split; [done|]. intros i. specialize (H i). destruct (decide (i = k)) as [->|Hne].
    - rewrite decide_True by (by left). by rewrite decide_False, lookup_insert_eq in H.
    - rewrite lookup_insert_ne in H by done. destruct (decide (i ∈ order.*1)); [by rewrite decide_True by (by right)|].
      rewrite decide_False; [done|]. rewrite elem_of_cons. naive_solver. }
  destruct (bool_decide_reflect (idx_Table (si_def si) = name)) as [Ht|Ht]; cbn [negb].
  - destruct (Hsi Ht) as (si' & -> & HR). cbn [mbind option_bind]. destruct (Hrest si') as (m' & -> & H).
    exists m'. split; [done|]. intros i. specialize (H i). destruct (decide (i ∈ _)); [|done]. destruct (decide (i = k)) as [->|]; [|done].
    rewrite Hk, H. split; [done|]. unfold mine. done.
  - destruct (Hrest si) as (m' & E & H). rewrite insert_id in E by done. exists m'. split; [done|]. intros i. specialize (H i).
    destruct (decide (i ∈ _)); [|done]. destruct (decide (i = k)) as [->|]; [|done]. rewrite Hk, H. by split.
Qed.

Lemma each_index_ok (ord : map_order) m :
  (forall i si, m !! i = Some si -> mine si -> exists si', f si = Some (si', None) /\ R si si') ->
  exists m', each_index name f (ord m) m = Some (m', None) /\ forall i, passed (m !! i) (m' !! i).
Proof.
  intros Hf. pose proof (range_perm ord m) as Hp.
  assert (forall k si, (k, si) ∈ ord m <-> m !! k = Some si) as Hin by (intros; by rewrite Hp, elem_of_map_to_list).
  destruct (each_index_loop (ord m) m) as (m' & E & H).
  - rewrite Hp. apply NoDup_fst_map_to_list.
  - apply Forall_forall. intros [k si]. apply Hin.
  - apply Forall_forall. intros [k si] Hk. cbn [snd]. apply Hin in Hk. by eapply Hf.
  - exists m'. split; [done|]. intros i. specialize (H i). destruct (decide (i ∈ _)) as [|Hi]; [done|].
    rewrite H. destruct (m !! i) as [si|] eqn:Em; [|done]. exfalso. apply Hi, list_elem_of_fmap. exists (i, si). split; [done|]. by apply Hin.
Qed.
End each.
