(* ===== verification/SqlRows.v ===== *)
(** The rows a statement works on: what scans of the store list, what an index
    finds, and that [collectRows] collects exactly the rows its condition
    selects, whichever way it takes. *)

From S2P Require Import Prelude Utf8 Unicode Strconv Keys Page Row JsonBin SqlLex Wal Mvcc Catalog BTree Secondary.
From S2P Require Import SqlAst SqlParse SqlParseSpec SqlBind SqlExec SqlKernel SqlBase SqlSemantics SqlState SqlIndexes.

Lemma Forall_choose {A B} (P : A -> B -> Prop) l : Forall (fun x => exists y, P x y) l -> exists l', Forall2 P l l'.
Proof. induction 1 as [|x l [y Hy] _ [l' Hl]]; [by exists []|]. exists (y :: l'). by constructor. Qed.

Lemma Forall2_fmap_eq {A B} (f : B -> A) l l' : Forall2 (fun x y => x = f y) l l' -> l = f <$> l'.
Proof. induction 1 as [|x y l l' -> _ IH]; [done|]. cbn. by f_equal. Qed.

Lemma map_to_list_filter {A} (P : bytes * A -> Prop) `{forall x, Decision (P x)} (m : gmap bytes A) :
  map_to_list (filter P m) ≡ₚ filter P (map_to_list m).
Proof.
  apply NoDup_Permutation; [apply NoDup_map_to_list|apply NoDup_filter, NoDup_map_to_list|].
  intros [k x]. rewrite elem_of_map_to_list, list_elem_of_filter, elem_of_map_to_list, map_lookup_filter_Some. tauto.
Qed.

(** * Scans *)

(** Scanned pairs and the rows they hold. *)
Definition pairs_of (name : bytes) (pairs : list kvPair) (l : list (bytes * list Value)) : Prop :=
  Forall2 (fun p ev => kv_key p = rowKey name (fst ev) /\ unpackRow (kv_value p) = Some (Ok (snd ev))) pairs l.

Lemma pairs_of_keys name pairs l : pairs_of name pairs l -> kv_key <$> pairs = (fun ev => rowKey name (fst ev)) <$> l.
Proof. intros H. apply Forall2_fmap_eq, Forall2_fmap_l. eapply Forall2_impl; [exact H|]. by intros p ev [? _]. Qed.

Lemma scan_NoDup pairs : StronglySorted kv_lt pairs -> NoDup (kv_key <$> pairs).
Proof.
  induction 1 as [|p pairs Hs IH Hp]; [constructor|]. cbn. constructor; [|done].
  intros (q & E & Hin)%list_elem_of_fmap. rewrite Forall_forall in Hp. specialize (Hp q Hin). unfold kv_lt in Hp. rewrite E in Hp.
  by apply bytes_lt_irrefl in Hp.
Qed.

Section scans.
Context `{U : Unicode} `{J : GoJson} `{C : CatalogCodec}.

Lemma scan_table n a name t pairs :
  data_rep n a -> a_tables a !! name = Some t -> no_slash name -> StronglySorted kv_lt pairs ->
  (forall key v, mkKV key v ∈ pairs <-> has_prefix key (rowKeyPrefix name) = true /\ n key = Some v) ->
  exists l, pairs_of name pairs l /\ l ≡ₚ map_to_list (at_rows t).
Proof.
  intros Hd Ht Hn Hs Hin.
  assert (forall enc, row_stored n (rowKey name enc) (at_rows t !! enc)) as Hrow.
  { intros enc. pose proof (dr_rows n a Hd name enc Hn) as H. by rewrite Ht in H. }
  assert (forall p, p ∈ pairs -> exists ev, (kv_key p = rowKey name (fst ev) /\ unpackRow (kv_value p) = Some (Ok (snd ev))) /\ at_rows t !! fst ev = Some (snd ev)) as Hp.
  { intros [key raw] Hpin. apply Hin in Hpin as [[enc ->]%rowKey_prefix Hg]. specialize (Hrow enc). unfold row_stored in Hrow.
    destruct (at_rows t !! enc) as [vals|] eqn:E; [|congruence]. destruct Hrow as (raw' & Hg' & Hu).
    exists (enc, vals). cbn [fst snd kv_key kv_value]. split; [|done]. split; [done|congruence]. }
  apply Forall_forall, Forall_choose in Hp as [l Hl]. exists l.
  assert (pairs_of name pairs l) as Hpl by (eapply Forall2_impl; [exact Hl|]; by intros p ev [? _]). split; [done|].
  apply NoDup_Permutation; [|apply NoDup_map_to_list|].
  - apply scan_NoDup in Hs. rewrite (pairs_of_keys _ _ _ Hpl) in Hs. by apply NoDup_fmap_1 in Hs.
  - intros [enc vals]. rewrite elem_of_map_to_list. split.
    + intros (i & Hi)%list_elem_of_lookup. by destruct (Forall2_lookup_r _ _ _ _ _ Hl Hi) as (p & _ & _ & ?).
    + intros Hv. specialize (Hrow enc). rewrite Hv in Hrow. destruct Hrow as (raw & Hg & Hu).
      assert (mkKV (rowKey name enc) raw ∈ pairs) as (i & Hi)%list_elem_of_lookup by (apply Hin; split; [apply rowKey_prefix; by exists enc|done]).
      destruct (Forall2_lookup_l _ _ _ _ _ Hl Hi) as ([enc' vals'] & Hl' & [Hk _] & Hr). cbn [kv_key fst snd] in *.
      apply rowKey_inj_lemma in Hk as [_ <-]; [|done..]. rewrite Hv in Hr. injection Hr as <-. by apply list_elem_of_lookup_2 in Hl'.
Qed.

(** * Rows as items *)

Definition item_image (it : rowItem) : bytes * list Value := (item_enc it, ri_values it).

Definition item_wf (name : bytes) (it : rowItem) : Prop := pk_ok (ri_pk it) /\ ri_rowKey it = rowKey name (item_enc it).

(** The items are exactly the rows the condition selects. *)
Definition collected (name : bytes) (t : atable) (ws : list pred) (items : list rowItem) : Prop :=
  Forall (item_wf name) items /\ item_image <$> items ≡ₚ map_to_list (selected t ws).

Section table.
Context (name : bytes) (def : TableDef).
Hypothesis table : table_wf name def.

Lemma row_pk_kind vals pk :
  Forall2 (fun c v => value_of_type (col_Type c) v) (tab_Columns def) vals -> row_pk def vals = Some pk -> pk_kind (int_keys def) pk.
Proof.
  intros Ht. unfold row_pk, int_keys, pk_kind, pk_ok. destruct (pkColumn def) as [[c i]|]; [|done].
  destruct (vals !! i) as [v|] eqn:Ev; [|done]. cbn [mbind option_bind]. destruct (Null v); [done|].
  destruct (Forall2_lookup_r _ _ _ _ _ Ht Ev) as (c' & _ & _ & _ & Hok & _).
  destruct (col_Type c); try done; intros [= <-]; cbn [isInt pkFromInt pkFromString pk_i pk_s]; (split; [done|]); by case_bool_decide.
Qed.

Lemma row_enc enc vals : row_wf def enc vals -> exists pk, pk_kind (int_keys def) pk /\ enc = pk_encode pk /\ row_pk def vals = Some pk.
Proof.
  intros [Ht Hpk]. destruct (row_pk def vals) as [pk|] eqn:E; [|done]. injection Hpk as <-. exists pk. split; [by eapply row_pk_kind|done].
Qed.

(** Conditions are evaluated without an error. *)
Lemma extract_ok v path : value_fine v -> Null v = false -> Typ v = TypeJSON -> path_ok path -> is_ok (jsonExtract (Blob v) path).
Proof.
  intros [_ H] Hn Ht Hp. destruct (H Hn Ht path Hp) as (iv & ok & E & _). unfold indexableExtract in E. by destruct (jsonExtract (Blob v) path).
Qed.

(** The executor's test of a conjunct is its meaning. *)
Lemma matchPred_ok enc vals w : row_wf def enc vals -> pred_fine w -> matchPred def vals w = Some (Ok (holds def vals w)).
Proof.
  intros [Ht _] Hw. unfold matchPred, holds. rewrite columnIndex_resolve. destruct (resolve def (pred_column w)) as [[ci c]|] eqn:E; [|done].
  apply resolve_column in E as Hc. destruct (Forall2_lookup_l _ _ _ _ _ Ht Hc) as (v & Hv & Hn & _ & _ & Hf). rewrite Hv.
  destruct w as [col e|col path e].
  - rewrite Hc. destruct (exprToValue e (col_Type c)) as [want|err] eqn:Ee.
    + apply exprToValue_Ok in Ee. cbn [mbind option_bind]. by rewrite (valuesEqual_literal _ _ _ _ Hn Ee).
    + rewrite is_literal_none; [done|]. destruct (literal (col_Type c) e) as [x|] eqn:El; [|done]. apply exprToValue_Ok in El. congruence.
  - cbn [mbind option_bind]. destruct Hw as [Hp He]. unfold json_at. destruct (Null v) eqn:En; [done|]. cbn [orb].
    destruct (bool_decide_reflect (Typ v = TypeJSON)) as [Ej|]; cbn [negb]; [|by destruct (Typ v)]. rewrite Ej.
    pose proof (extract_ok v path Hf En Ej Hp) as Hx. destruct (jsonExtract (Blob v) path) as [[got ok]|]; [|done]. cbn [rbind].
    destruct ok; [|done]. cbn [negb]. destruct (predValueForExtract e) as [want|] eqn:Ew; [|done]. cbn [rbind]. by rewrite (valuesEqual_scalar _ _ _ Ew).
Qed.

Lemma matchWhere_ok enc vals ws : row_wf def enc vals -> Forall pred_fine ws -> matchWhere def vals ws = Some (Ok (satisfies def ws vals)).
Proof.
  intros Hr. induction 1 as [|w ws Hw _ IH]; cbn [matchWhere]; [done|]. rewrite (matchPred_ok enc) by done. cbn [mbind option_bind satisfies forallb].
  by destruct (holds def vals w).
Qed.

Lemma scan_rows_ok ws pairs l :
  pairs_of name pairs l -> Forall (fun ev => row_wf def (fst ev) (snd ev)) l -> Forall pred_fine ws ->
  exists items, scan_rows def ws pairs = Some (Ok items) /\ Forall (item_wf name) items /\
  item_image <$> items = filter (fun ev => satisfies def ws (snd ev) = true) l.
Proof.
  intros Hp Hl Hws. induction Hp as [|p [enc vals] pairs l [Hk Hu] Hp IH]; [by exists []|]. apply Forall_cons in Hl as [Hr Hl]. cbn [fst snd] in *.
  destruct (IH Hl) as (items & E & Hwf & Hi). cbn [scan_rows]. rewrite Hu. cbn [mbind option_bind].
  rewrite (matchWhere_ok enc) by done. cbn [mbind option_bind]. destruct (satisfies def ws vals) eqn:Es.
  - rewrite filter_cons_True by done. rewrite (tw_name _ _ table), Hk. rewrite (proj2 (parseRowKey_spec name _ enc)) by done.
    destruct (row_enc enc vals Hr) as (pk & [Hpk _] & -> & _). rewrite pk_decode_encode, E by done. cbn [mbind option_bind].
    eexists. split; [done|]. split; [by constructor|]. cbn [fmap list_fmap]. by rewrite Hi.
  - rewrite filter_cons_False by (cbn; congruence). by exists items.
Qed.
End table.
End scans.

(** * Index lookups *)

Lemma sorted_NoDup es : sorted es -> NoDup (fst <$> es).
Proof.
  induction 1 as [|e es Hs IH He]; [constructor|]. cbn. constructor; [|done].
  intros (e' & E & Hin)%list_elem_of_fmap. rewrite Forall_forall in He. specialize (He e' Hin). unfold pk_lt in He.
  rewrite E, compare_refl in He. lia.
Qed.

Section lookups.
Context `{U : Unicode} `{J : GoJson}.
Context (d : IndexDef) (def : TableDef) (rows : rows_map) (si : secondaryIdx).
Hypothesis index : sec_rep d def rows si.
Notation row_at pk := (rowKey (idx_Table d) (pk_encode pk)).

(** The keys whose rows have the value. *)
Definition has_value (val : Value) (pk : pkKey) : Prop :=
  pk_kind (int_keys def) pk /\ exists vals, rows !! pk_encode pk = Some vals /\ index_value d def vals = Some (value_prefix val).

Lemma index_row_value val pk :
  index_row d def rows (val, pk) = Some (row_at pk) <-> exists vals, rows !! pk_encode pk = Some vals /\ index_value d def vals = Some (value_prefix val).
Proof.
  unfold index_row. cbn [fst snd]. destruct (rows !! pk_encode pk) as [vals|]; cbn [mbind option_bind].
  - case_bool_decide; naive_solver.
  - naive_solver.
Qed.

Lemma index_row_Some val pk rk : index_row d def rows (val, pk) = Some rk -> rk = row_at pk.
Proof. unfold index_row. cbn [fst snd]. destruct (rows !! pk_encode pk); cbn [mbind option_bind]; [|done]. case_bool_decide; naive_solver. Qed.

Lemma lookup_rows val :
  clean val ->
  exists pks, lookup si val = Some ((fun pk => row_at pk) <$> pks) /\ NoDup pks /\ forall pk, pk ∈ pks <-> has_value val pk.
Proof.
  intros Hc. destruct index as (_ & [h Hok] & Hkeys & Hget). pose proof (wf_sorted _ _ _ _ _ (ok_wf _ _ Hok)) as Hs.
  set (es := entries (root (si_tree si))) in *.
  set (hits := filter (fun e => has_prefix (pk_s (fst e)) (pk_s (compositePrefix val)) = true) es).
  assert (Forall (fun e => exists pk, pk_kind (int_keys def) pk /\ e = (compositeKey val pk, row_at pk)) hits) as Hhits.
  { apply Forall_forall. intros [k rk] [Hp Hin]%list_elem_of_filter. rewrite Forall_forall in Hkeys.
    destruct (Hkeys _ Hin) as ([val' pk] & [Hc' Hpk] & Ek). unfold entry_key in Ek. cbn [fst snd] in *. subst k. exists pk. split; [done|].
    apply composite_prefix in Hp; [|done|done]. assert (compositeKey val' pk = compositeKey val pk) as E by (unfold compositeKey; by rewrite Hp).
    rewrite E in *. f_equal. apply (index_row_Some val). rewrite <- (Hget (val, pk)) by done. by apply m_get_sorted. }
  apply Forall_choose in Hhits as [pks Hpks]. exists pks.
  assert (hits = (fun pk => (compositeKey val pk, row_at pk)) <$> pks) as Eh.
  { apply Forall2_fmap_eq. eapply Forall2_impl; [exact Hpks|]. by intros e pk [_ ?]. }
  split; [|split].
  - rewrite (lookup_filter si h val Hok); [|eapply Forall_impl; [exact Hkeys|]; by intros [k v] ([val' pk'] & _ & ->)].
    fold es. fold hits. by rewrite Eh, <- list_fmap_compose.
  - pose proof (sorted_NoDup _ Hs) as Hnd. apply (NoDup_fmap_1 (compositeKey val)).
    replace (compositeKey val <$> pks) with (fst <$> hits) by (by rewrite Eh, <- list_fmap_compose).
    unfold hits. eapply sublist_NoDup; [exact Hnd|]. apply fmap_sublist, sublist_filter.
  - intros pk. unfold has_value. rewrite <- index_row_value. split.
    + intros (i & Hi)%list_elem_of_lookup. destruct (Forall2_lookup_r _ _ _ _ _ Hpks Hi) as (e & He & Hpk & ->). split; [done|].
      apply list_elem_of_lookup_2, list_elem_of_filter in He as [_ He]. rewrite <- (Hget (val, pk)) by done. by apply m_get_sorted.
    + intros [Hpk Hf]. rewrite <- (Hget (val, pk)) in Hf by done. apply m_get_elem in Hf as (k & Hin & E).
      rewrite Forall_forall in Hkeys. destruct (Hkeys _ Hin) as ([val' pk'] & [Hc' Hpk'] & Ek). unfold entry_key in *. cbn [fst snd] in *. subst k.
      apply string_key_eq in E; [|done|done]. rewrite E in Hin.
      assert ((compositeKey val pk, row_at pk) ∈ hits) as Hh by (apply list_elem_of_filter; split; [by apply composite_prefix|done]).
      rewrite Eh in Hh. apply list_elem_of_fmap in Hh as (pk2 & E2 & Hin2). injection E2 as E2 _.
      apply app_inv_head in E2. injection E2 as E2.
      destruct (list_elem_of_lookup_1 _ _ Hin2) as [i Hi]. destruct (Forall2_lookup_r _ _ _ _ _ Hpks Hi) as (e & _ & Hk2 & _).
      by rewrite (formatPK_inj _ _ _ Hpk Hk2 E2).
Qed.
End lookups.

(** * What single equalities select *)

Section equalities.
Context `{U : Unicode} `{J : GoJson}.
Context (name : bytes) (def : TableDef).
Hypothesis table : table_wf name def.

Lemma satisfies_single enc w vals :
  row_wf def enc vals -> pred_fine w -> satisfies def [w] vals = match matchPred def vals w with Some (Ok b) => b | _ => false end.
Proof. intros Hr Hw. rewrite (matchPred_ok def enc) by done. cbn. apply andb_true_r. Qed.

(** The key a value of the key column stands for, as the fast path computes it. *)
Definition key_of (typ : ColType) (v : Value) : pkKey :=
  match typ with
  | TypeInteger => pkFromInt (Int v)
  | TypeText => pkFromString (Text v)
  | _ => mkKey false 0 []
  end.

Lemma key_of_ok typ v : value_ok v -> pk_ok (key_of typ v).
Proof. intros Hv. by destruct typ. Qed.

Lemma satisfies_pk pkCol i c e v enc vals :
  pkColumn def = Ok (pkCol, i) -> normalizeName c = col_Name pkCol ->
  exprToValue e (col_Type pkCol) = Ok v -> sharp v -> row_wf def enc vals ->
  satisfies def [predColumn c e] vals = bool_decide (enc = pk_encode (key_of (col_Type pkCol) v)).
Proof.
  intros Hpk Hc He (Hn & Hok & _) Hr. destruct (pkColumn_inv _ _ _ Hpk) as [Hi _]. rewrite (satisfies_single enc) by done. unfold matchPred. cbn [pred_column].
  rewrite Hc, (columnIndex_name _ (tw_cols _ _ table) _ _ Hi), Hi, He.
  destruct (row_enc def enc vals Hr) as (pk & [Hpok _] & -> & Hrow). unfold row_pk in Hrow. rewrite Hpk in Hrow.
  destruct (vals !! i) as [v'|] eqn:Ev; [|done]. cbn [mbind option_bind] in *. destruct (Null v') eqn:En; [done|].
  destruct (Forall2_lookup_r _ _ _ _ _ (rw_types _ _ _ Hr) Ev) as (c' & Hc' & Ht & _ & Hok' & _). rewrite Hi in Hc'. injection Hc' as <-.
  destruct Ht as [?|Ht]; [congruence|]. destruct (exprToValue_new _ _ _ He) as [?|[Htv _]]; [congruence|].
  unfold valuesEqual. rewrite En, Hn. cbn [orb]. rewrite bool_decide_true by congruence. cbn [negb].
  assert (bool_decide (pk_encode pk = pk_encode (key_of (col_Type pkCol) v)) = bool_decide (pk = key_of (col_Type pkCol) v)) as ->.
  { apply bool_decide_ext. split; [|by intros ->]. apply pk_encode_inj; [done|by apply key_of_ok]. }
  rewrite Ht. destruct (col_Type pkCol); try done; injection Hrow as <-; cbn [key_of].
  - apply Bool.eq_iff_eq_true. rewrite Z.eqb_eq, bool_decide_eq_true. split; [by intros ->|by intros [= ?]].
  - apply bool_decide_ext. split; [by intros ->|by intros [= ?]].
Qed.

(** Comparing values is comparing their forms in an index. *)
Definition scalar (v : Value) : Prop := Null v = false /\ value_ok v /\ (Typ v = TypeInteger \/ Typ v = TypeText).

Lemma prefix_equal a b : scalar a -> scalar b -> valuesEqual a b = bool_decide (value_prefix a = value_prefix b).
Proof.
  intros (Na & Oa & Ta) (Nb & Ob & Tb). unfold valuesEqual, value_prefix. rewrite Na, Nb. cbn [orb].
  destruct Ta as [Ta|Ta], Tb as [Tb|Tb]; rewrite Ta, Tb; cbn [negb].
  - rewrite bool_decide_true by done. cbn [negb]. apply Bool.eq_iff_eq_true. rewrite Z.eqb_eq, bool_decide_eq_true. split; [by intros ->|].
    intros E%(inj (app _)). apply (f_equal parseInt) in E. rewrite !parseInt_formatInt in E by done. by injection E.
  - rewrite bool_decide_false by done. cbn [negb]. symmetry. by apply bool_decide_false.
  - rewrite bool_decide_false by done. cbn [negb]. symmetry. by apply bool_decide_false.
  - rewrite bool_decide_true by done. cbn [negb]. apply bool_decide_ext. split; [by intros ->|]. by intros ?%(inj (app _)).
Qed.

Lemma null_unequal a b : Null a = true -> Null b = false -> valuesEqual a b = false.
Proof. intros Ha Hb. unfold valuesEqual. by rewrite Ha, Hb. Qed.

(** What JSON_EXTRACT gives against what an index takes. *)
Lemma extract_equal bin path got ok want iv iok :
  jsonExtract bin path = Ok (got, ok) -> indexableExtract bin path = Ok (iv, iok) -> (iok = true -> value_ok iv) -> scalar want ->
  (if negb ok then false else valuesEqual got want) = bool_decide ((if iok then Some (value_prefix iv) else None) = Some (value_prefix want)).
Proof.
  intros E1 E2 Hok Hw. unfold indexableExtract in E2. rewrite E1 in E2. cbn [rbind] in E2. destruct ok; cbn [negb] in *.
  2:{ injection E2 as <- <-. by rewrite bool_decide_false. }
  destruct (Null got) eqn:En; [injection E2 as <- <-; rewrite bool_decide_false by done; apply null_unequal; [done|apply Hw]|].
  assert (forall v, Typ v <> TypeInteger -> Typ v <> TypeText -> Null v = false -> valuesEqual v want = false) as Hne.
  { intros v H1 H2 Hv. destruct Hw as (Nw & _ & Tw). unfold valuesEqual. rewrite Hv, Nw. cbn [orb].
    rewrite bool_decide_false; [done|]. destruct Tw; congruence. }
  destruct (Typ got) eqn:Et; injection E2 as <- <-; try (rewrite bool_decide_false by done; apply Hne; congruence);
    (rewrite prefix_equal; [|split; [done|]; split; [by apply Hok|tauto]|done]); apply bool_decide_ext; by split; [intros ->|intros [= ?]].
Qed.

Section served.
Context (si : secondaryIdx).
Let d := si_def si.
Hypothesis column : index_column_ok def (idx_Column d) (idx_Path d) = Ok tt.

Lemma index_column_inv :
  exists ci c, columnIndex def (idx_Column d) = Ok ci /\ tab_Columns def !! ci = Some c /\
  (idx_Path d = [] -> col_Type c = TypeInteger \/ col_Type c = TypeText) /\
  (idx_Path d <> [] -> col_Type c = TypeJSON /\ path_ok (idx_Path d)).
Proof.
  unfold index_column_ok in column. destruct (pkColumn def) as [[pkCol ?]|]; [|done]. cbn [rbind] in column.
  case_bool_decide; [done|]. destruct (columnIndex def (idx_Column d)) as [ci|] eqn:Eci; [|done]. cbn [rbind] in column.
  destruct (tab_Columns def !! ci) as [c|] eqn:Ec; [|done]. exists ci, c. do 2 (split; [done|]). split.
  - intros Ep. rewrite bool_decide_true in column by done. cbn [negb] in column. destruct (col_Type c); auto; by cbn in column.
  - intros Ep. rewrite bool_decide_false in column by done. cbn [negb] in column. destruct (bool_decide_reflect (col_Type c = TypeJSON)) as [Ej|]; [|done].
    split; [done|]. cbn in column. unfold path_ok. destruct (parseJSONPath (idx_Path d)); [by eexists|done].
Qed.

Lemma satisfies_index w val enc vals :
  serves def w si = true -> lookup_value def w = Ok val -> pred_fine w -> sharp val -> row_wf def enc vals ->
  satisfies def [w] vals = bool_decide (index_value d def vals = Some (value_prefix val)).
Proof.
  intros Hs Hl Hf (Hn & Hok & _) Hr. unfold serves in Hs. fold d in Hs. apply andb_prop in Hs as [_ Hs].
  destruct index_column_inv as (ci & c & Eci & Ec & Hplain & Hpath).
  destruct (Forall2_lookup_l _ _ _ _ _ (rw_types _ _ _ Hr) Ec) as (v & Ev & Ht & _ & Hokv & Hfine).
  rewrite (satisfies_single enc) by done. unfold matchPred, index_value, valueFromRow. cbn [newSecondaryIdx si_def]. rewrite Eci. cbn [rbind]. rewrite Ev.
  destruct w as [col e|col path e]; apply andb_prop in Hs as [Hp%bool_decide_eq_true Hc%bool_decide_eq_true]; cbn [pred_column lookup_value] in *;
    rewrite <- Hc, Eci in *; cbn [rbind mbind option_bind] in *; rewrite ?Ec, ?Ev in *; cbn [mbind option_bind].
  - rewrite Hl. destruct (exprToValue_new _ _ _ Hl) as [?|[Htv _]]; [congruence|]. specialize (Hplain Hp). rewrite Hp.
    destruct (Null v) eqn:En; [rewrite bool_decide_false by done; by apply null_unequal|]. destruct Ht as [?|Ht]; [congruence|].
    rewrite (bool_decide_true ([] = [])) by done. cbn [negb].
    rewrite prefix_equal; [|split; [done|]; split; [done|]; congruence|split; [done|]; split; [done|]; congruence].
    destruct Hplain as [E|E]; rewrite Ht, E; apply bool_decide_ext; by split; [intros ->|intros [= ?]].
  - destruct Hf as [Hpok _]. destruct (Null v) eqn:En; [symmetry; by apply bool_decide_eq_false_2|]. destruct Ht as [?|Ht]; [congruence|]. cbn [orb].
    destruct (decide (idx_Path d = [])) as [Ep|Ep]; [exfalso; rewrite Ep in Hp; subst path; by destruct Hpok|].
    destruct (Hpath Ep) as [Ej _]. rewrite Ht, Ej, bool_decide_true by done. cbn [negb]. rewrite (bool_decide_false (idx_Path d = [])) by done. cbn [negb].
    rewrite Hp. destruct Hfine as [_ Hfine]. destruct (Hfine En ltac:(congruence) path Hpok) as (iv & iok & E2 & Hiv). rewrite E2.
    pose proof E2 as E3. unfold indexableExtract in E3. destruct (jsonExtract (Blob v) path) as [[got ok]|] eqn:E1; [|done]. clear E3. cbn [rbind].
    rewrite Hl. assert (scalar val) as Hsc.
    { split; [done|]. split; [done|]. destruct e; try done; injection Hl as <-; cbn; auto. done. }
    rewrite <- (extract_equal _ _ _ _ _ _ _ E1 E2 (fun H => proj2 (Hiv H)) Hsc). by destruct ok, iok.
Qed.
End served.
End equalities.

(** * Scans of the current data *)

Section current.
Context `{U : Unicode} `{J : GoJson} `{C : CatalogCodec}.
Context (k0 : DB) (id : nat) (wr : bool).
Notation tx := (fresh_tx id wr k0).

Lemma scan_all k prefix : same_data k0 k -> exists k' pairs, scanPrefix tx prefix k = (k', pairs) /\ same_data k0 k' /\
  StronglySorted kv_lt pairs /\ forall key v, mkKV key v ∈ pairs <-> has_prefix key prefix = true /\ now k0 key = Some v.
Proof.
  intros Hk. destruct (scan_now k0 k id wr ∅ Hk prefix) as (n & pairs & E & Hs & Hin). exists (add_reads n k), pairs.
  split; [exact E|]. split; [by apply same_data_reads|]. split; [done|]. intros key v. rewrite Hin. unfold under. by rewrite lookup_empty.
Qed.

Lemma scan_rows_of a name t k :
  adb_wf a -> data_rep (now k0) a -> a_tables a !! name = Some t -> same_data k0 k ->
  exists k' pairs l, scanPrefix tx (rowKeyPrefix name) k = (k', pairs) /\ same_data k0 k' /\
  pairs_of name pairs l /\ l ≡ₚ map_to_list (at_rows t) /\ Forall (fun ev => row_wf (at_def t) (fst ev) (snd ev)) l.
Proof.
  intros Ha Hd Ht Hk. pose proof (ng_slash _ (tw_good _ _ (aw_tables _ Ha _ _ Ht))) as Hn.
  destruct (scan_all k (rowKeyPrefix name) Hk) as (k' & pairs & E & Hk' & Hs & Hin).
  destruct (scan_table _ a name t pairs Hd Ht Hn Hs Hin) as (l & Hl & Hp).
  exists k', pairs, l. do 4 (split; [done|]). rewrite Hp. apply Forall_forall. intros [enc vals] Hin'%elem_of_map_to_list.
  by apply (aw_rows _ Ha name).
Qed.
End current.

(** * Collecting rows *)

Section collect.
Context `{U : Unicode} `{J : GoJson} `{C : CatalogCodec}.
Context (db : Database) (a : adb) (name : bytes) (t : atable).
Hypothesis represents : rep db a.
Hypothesis exists_table : a_tables a !! name = Some t.
Context (id : nat) (wr : bool).
Notation tx := (fresh_tx id wr (kv db)).

Lemma table_of : table_wf name (at_def t).
Proof. by apply (aw_tables _ (rp_wf _ _ represents)). Qed.

Lemma row_of_table enc vals : at_rows t !! enc = Some vals -> row_wf (at_def t) enc vals.
Proof. intros H. by apply (aw_rows _ (rp_wf _ _ represents) name). Qed.

Lemma slash_free : no_slash name.
Proof. apply table_of. Qed.

Lemma read_row k enc : same_data (kv db) k -> exists raw, Mvcc.Get tx (rowKey name enc) k = (add_reads 1 k, raw) /\
  match at_rows t !! enc with Some vals => exists r, raw = Some r /\ unpackRow r = Some (Ok vals) | None => raw = None end.
Proof.
  intros Hk. pose proof (Get_now (kv db) k id wr ∅ Hk (rowKey name enc)) as E. exists (now (kv db) (rowKey name enc)).
  unfold under in E. rewrite lookup_empty in E. split; [exact E|].
  pose proof (dr_rows _ _ (rp_data _ _ represents) name enc slash_free) as H. rewrite exists_table in H. cbn [mbind option_bind] in H.
  unfold row_stored in H. destruct (at_rows t !! enc); [|done]. destruct H as (r & ? & ?). eauto.
Qed.

(** Every row of the table, as a scan lists them. *)
Lemma scan_table_rows k : same_data (kv db) k -> exists k' pairs l, scanPrefix tx (rowKeyPrefix name) k = (k', pairs) /\ same_data (kv db) k' /\
  pairs_of name pairs l /\ l ≡ₚ map_to_list (at_rows t) /\ Forall (fun ev => row_wf (at_def t) (fst ev) (snd ev)) l.
Proof. apply scan_rows_of with a; [apply represents|apply represents|done]. Qed.

Lemma table_scan_ok ws k :
  same_data (kv db) k -> Forall pred_fine ws ->
  exists k' items, table_scan tx (at_def t) ws k = Some (k', Ok items) /\ same_data (kv db) k' /\ collected name t ws items.
Proof.
  intros Hk Hws. unfold table_scan. rewrite (tw_name _ _ table_of).
  destruct (scan_table_rows k Hk) as (k' & pairs & l & -> & Hk' & Hl & Hp & Hr).
  destruct (scan_rows_ok name (at_def t) table_of ws pairs l Hl Hr Hws) as (items & -> & Hwf & Hi). cbn [mbind option_bind].
  eexists _, _. split; [done|]. split; [done|]. split; [done|]. rewrite Hi. unfold selected. by rewrite map_to_list_filter, Hp.
Qed.

Lemma collect_pk_ok pkCol i c e v k :
  pkColumn (at_def t) = Ok (pkCol, i) -> normalizeName c = col_Name pkCol ->
  exprToValue e (col_Type pkCol) = Ok v -> sharp v -> same_data (kv db) k ->
  exists k' items, collect_pk db tx (at_def t) pkCol e k = Some (k', Ok items) /\ same_data (kv db) k' /\
  collected name t [predColumn c e] items.
Proof.
  intros Hpk Hc He Hv Hk. set (key := key_of (col_Type pkCol) v). assert (pk_ok key) as Hkey by apply key_of_ok, Hv.
  assert (selected t [predColumn c e] = match at_rows t !! pk_encode key with Some vals => {[pk_encode key := vals]} | None => ∅ end) as Hsel.
  { apply map_eq. intros enc. apply option_eq. intros vals. unfold selected. rewrite map_lookup_filter_Some. cbn [snd].
    assert (at_rows t !! enc = Some vals -> satisfies (at_def t) [predColumn c e] vals = bool_decide (enc = pk_encode key)) as Hs.
    { intros Hrow%row_of_table. by eapply satisfies_pk; [exact table_of|..]. }
    split.
    - intros [Hrow Hsl]. rewrite (Hs Hrow) in Hsl. apply bool_decide_eq_true in Hsl as ->. rewrite Hrow. by rewrite lookup_singleton_eq.
    - destruct (at_rows t !! pk_encode key) as [vals'|] eqn:E; [|done]. intros [<- <-]%lookup_singleton_Some. split; [done|].
      rewrite (Hs E). by apply bool_decide_true. }
  unfold collect_pk. rewrite He. fold (key_of (col_Type pkCol) v). fold key. rewrite (tw_name _ _ table_of).
  pose proof (mr_index _ _ (rp_mem _ _ represents) name) as Htree. rewrite exists_table in Htree. unfold tree_of in Htree.
  destruct (indexes db !! name) as [tr|]; [|done]. rewrite (tree_has_get (fun x => x) pk_ok tr _ key Htree Hkey). unfold row_key_of.
  cbn [mbind option_bind]. unfold collected. rewrite Hsel. destruct (read_row k (pk_encode key) Hk) as (raw & E & Hraw).
  destruct (at_rows t !! pk_encode key) as [vals|] eqn:Erow.
  - destruct Hraw as (r & -> & Hu). rewrite E, Hu. cbn [mbind option_bind rbind]. eexists _, _. split; [done|]. split; [by apply same_data_reads|].
    split; [by repeat constructor|]. by rewrite map_to_list_singleton.
  - eexists _, _. split; [done|]. split; [done|]. split; [constructor|]. by rewrite map_to_list_empty.
Qed.

Lemma rows_at_ok pks : forall k,
  same_data (kv db) k -> Forall (fun pk => pk_ok pk /\ is_Some (at_rows t !! pk_encode pk)) pks ->
  exists k' items, rows_at tx name ((fun pk => rowKey name (pk_encode pk)) <$> pks) k = Some (k', Ok items) /\ same_data (kv db) k' /\
  Forall (item_wf name) items /\ ri_pk <$> items = pks /\ Forall (fun it => at_rows t !! item_enc it = Some (ri_values it)) items.
Proof.
  induction pks as [|pk pks IH]; intros k Hk Hpks; [by exists k, []|].
  apply Forall_cons in Hpks as [[Hpk [vals Hv]] Hpks]. cbn [fmap list_fmap rows_at]. destruct (read_row k (pk_encode pk) Hk) as (raw & -> & Hraw).
  rewrite Hv in Hraw. destruct Hraw as (r & -> & Hu). unfold row_of. rewrite Hu. cbn [mbind option_bind].
  rewrite (proj2 (parseRowKey_spec name _ (pk_encode pk))) by done. rewrite pk_decode_encode by done. cbn [rbind mbind option_bind].
  destruct (IH (add_reads 1 k)) as (k' & items & E & Hk' & Hwf & Hp & Hrows); [by apply same_data_reads|done|].
  rewrite E. cbn [mbind option_bind rbind]. eexists _, _. split; [done|]. split; [done|]. split; [by constructor|].
  split; [cbn; by rewrite Hp|by constructor].
Qed.

Lemma collect_index_ok si w val k :
  sec_rep (si_def si) (at_def t) (at_rows t) si -> idx_Table (si_def si) = name ->
  index_column_ok (at_def t) (idx_Column (si_def si)) (idx_Path (si_def si)) = Ok tt ->
  serves (at_def t) w si = true -> lookup_value (at_def t) w = Ok val -> pred_fine w -> sharp val -> same_data (kv db) k ->
  exists rks k' items, lookup si val = Some rks /\ rows_at tx name rks k = Some (k', Ok items) /\ same_data (kv db) k' /\ collected name t [w] items.
Proof.
  intros Hsec Htab Hcol Hs Hl Hf Hv Hk. destruct (lookup_rows _ _ _ _ Hsec val) as (pks & Elk & Hnd & Hin); [apply clean_text, Hv|].
  rewrite Htab in Elk. destruct (rows_at_ok pks k Hk) as (k' & items & E & Hk' & Hwf & Hp & Hrows).
  { apply Forall_forall. intros pk ([Hpk _] & vals & Hvals & _)%Hin. split; [done|by eexists]. }
  eexists _, k', items. split; [exact Elk|]. split; [done|]. split; [done|]. split; [done|].
  assert (forall enc vals, at_rows t !! enc = Some vals -> satisfies (at_def t) [w] vals = bool_decide (index_value (si_def si) (at_def t) vals = Some (value_prefix val))) as Hsel.
  { intros enc vals Hrow%row_of_table. by eapply satisfies_index; [exact Hcol|..]. }
  apply NoDup_Permutation; [|apply NoDup_map_to_list|].
  - apply (NoDup_fmap_1 fst). rewrite <- list_fmap_compose. change (fst ∘ item_image) with item_enc.
    replace (item_enc <$> items) with (pk_encode <$> pks) by (by rewrite <- Hp, <- list_fmap_compose). apply NoDup_fmap_2_strong; [|done].
    intros x y [[Hx _] _]%Hin [[Hy _] _]%Hin. by apply pk_encode_inj.
  - intros [enc vals]. rewrite elem_of_map_to_list. unfold selected. rewrite map_lookup_filter_Some. cbn [snd]. split.
    + intros (it & [= -> ->] & Hit)%list_elem_of_fmap. rewrite Forall_forall in Hrows. pose proof (Hrows _ Hit) as Hrow. split; [done|].
      rewrite (Hsel _ _ Hrow). apply bool_decide_true. assert (ri_pk it ∈ pks) as (_ & vals & Hvals & Hiv)%Hin.
      { rewrite <- Hp. apply list_elem_of_fmap. by exists it. }
      unfold item_enc in Hrow. congruence.
    + intros [Hrow Hs2]. rewrite (Hsel _ _ Hrow) in Hs2. apply bool_decide_eq_true in Hs2.
      destruct (row_enc _ _ _ (row_of_table _ _ Hrow)) as (pk & Hpk & -> & _).
      assert (pk ∈ pks) as Hpin by (apply Hin; split; [done|eauto]). rewrite <- Hp in Hpin. apply list_elem_of_fmap in Hpin as (it & -> & Hit).
      apply list_elem_of_fmap. exists it. split; [|done]. rewrite Forall_forall in Hrows. specialize (Hrows _ Hit). unfold item_image, item_enc in *. congruence.
Qed.

(** An index of the table, as the representation describes it. *)
Lemma index_of i si :
  secIndexes db !! i = Some si -> idx_Table (si_def si) = name ->
  a_idx a !! i = Some (si_def si) /\ sec_rep (si_def si) (at_def t) (at_rows t) si /\
  index_column_ok (at_def t) (idx_Column (si_def si)) (idx_Path (si_def si)) = Ok tt.
Proof.
  intros Hsi Htab. pose proof (mr_secs _ _ (rp_mem _ _ represents) i) as H. rewrite Hsi in H. unfold sec_of in H.
  destruct (a_idx a !! i) as [d|] eqn:Ed; [|done]. destruct H as (t' & Ht' & Hsec). pose proof (proj1 Hsec) as Hd.
  rewrite Hd in *. rewrite Htab, exists_table in Ht'. injection Ht' as <-. split; [done|]. split; [done|].
  destruct (iw_table _ _ _ (aw_idx _ (rp_wf _ _ represents) _ _ Ed)) as (t' & Ht' & Hc). rewrite Htab, exists_table in Ht'. by injection Ht' as <-.
Qed.

Lemma served_value si w :
  index_column_ok (at_def t) (idx_Column (si_def si)) (idx_Path (si_def si)) = Ok tt ->
  serves (at_def t) w si = true -> pred_sharp (at_def t) w -> exists val, lookup_value (at_def t) w = Ok val /\ sharp val.
Proof.
  intros Hcol Hs Hw. destruct w as [c e|c path e]; [|done]. unfold serves in Hs. apply andb_prop in Hs as [_ Hs].
  apply andb_prop in Hs as [_ Hc%bool_decide_eq_true]. destruct (index_column_inv (at_def t) si Hcol) as (ci & col & Eci & Ec & _).
  cbn [lookup_value]. rewrite <- Hc, Eci. cbn [rbind]. rewrite Ec. apply (Hw ci); [by rewrite <- Hc|done].
Qed.

Lemma collectRows_ok v ws k :
  where_ok (at_def t) ws -> same_data (kv db) k ->
  exists k' items, collectRows v db tx (at_def t) ws k = Some (k', Ok items) /\ same_data (kv db) k' /\ collected name t ws items.
Proof.
  intros [Hf Hw] Hk. pose proof (tw_pk _ _ table_of) as Hpk. unfold collectRows. destruct (pkColumn (at_def t)) as [[pkCol i]|] eqn:Epk; [|done].
  destruct ws as [|w [|w2 ws]]; [by apply table_scan_ok| |by apply table_scan_ok].
  destruct (is_pk_pred pkCol w) eqn:Ep.
  - destruct w as [c e|]; [|done]. cbn [pred_value]. apply bool_decide_eq_true in Ep. destruct (pkColumn_inv _ _ _ Epk) as [Hi _].
    destruct (Hw i pkCol) as (val & He & Hv); [rewrite Ep; by apply (columnIndex_name _ (tw_cols _ _ table_of))|done|].
    by eapply collect_pk_ok.
  - destruct (List.find _ _) as [[x si]|] eqn:Efind; [|by apply table_scan_ok].
    apply find_some in Efind as [Hin%list_elem_of_In Hs]. cbn [snd] in Hs. rewrite (range_perm (e_find v)) in Hin. apply elem_of_map_to_list in Hin.
    assert (idx_Table (si_def si) = name) as Htab.
    { unfold serves in Hs. apply andb_prop in Hs as [H _]. apply bool_decide_eq_true in H. by rewrite H, (tw_name _ _ table_of). }
    destruct (index_of x si Hin Htab) as (_ & Hsec & Hcol). destruct (served_value si w Hcol Hs Hw) as (val & Hl & Hv).
    rewrite Hl. apply Forall_inv in Hf. destruct (collect_index_ok si w val k Hsec Htab Hcol Hs Hl Hf Hv Hk) as (rks & k' & items & -> & E & H).
    cbn [mbind option_bind]. rewrite (tw_name _ _ table_of), E. eauto.
Qed.

Lemma collected_map ws items : collected name t ws items ->
  selected t ws = list_to_map (item_image <$> items) /\ NoDup (item_enc <$> items) /\ zlen items = Z.of_nat (size (selected t ws)) /\
  Forall (fun it => at_rows t !! item_enc it = Some (ri_values it) /\ row_wf (at_def t) (item_enc it) (ri_values it) /\ pk_kind (int_keys (at_def t)) (ri_pk it)) items.
Proof.
  intros [Hwf Hp]. split; [symmetry in Hp; by apply list_to_map_flip|]. split; [|split].
  - change item_enc with (fst ∘ item_image). rewrite list_fmap_compose, Hp. apply NoDup_fst_map_to_list.
  - unfold zlen. by rewrite <- length_map_to_list, <- (Permutation_length Hp), length_fmap.
  - apply Forall_forall. intros it Hit. assert (item_image it ∈ map_to_list (selected t ws)) as Hm by (rewrite <- Hp; apply list_elem_of_fmap; by exists it).
    unfold item_image in Hm. rewrite elem_of_map_to_list in Hm. unfold selected in Hm. apply map_lookup_filter_Some in Hm as [Hrow _].
    split; [done|]. pose proof (row_of_table _ _ Hrow) as Hr. split; [done|]. rewrite Forall_forall in Hwf. destruct (Hwf _ Hit) as [Hpk _].
    destruct (row_enc _ _ _ Hr) as (pk & Hkind & E & _). apply pk_encode_inj in E; [|done|by destruct Hkind]. by rewrite E.
Qed.

End collect.

(** * Building trees from a scan *)

Section building.
Context `{U : Unicode} `{J : GoJson}.
Context (name : bytes) (def : TableDef).

Definition rows_new (l : list (bytes * list Value)) (rows : rows_map) : Prop :=
  NoDup (fst <$> l) /\ Forall (fun ev => rows !! fst ev = None /\ row_wf def (fst ev) (snd ev)) l.

Lemma rows_new_cons enc vals l rows :
  rows_new ((enc, vals) :: l) rows ->
  rows !! enc = None /\ row_wf def enc vals /\ rows_new l (<[enc := vals]> rows) /\
  list_to_map l ∪ <[enc := vals]> rows = list_to_map ((enc, vals) :: l) ∪ rows.
Proof.
  intros [Hnd Hl]. apply NoDup_cons in Hnd as [Hni Hnd]. apply Forall_cons in Hl as [[Hn Hr] Hl]. cbn [fst snd] in *.
  split; [done|]. split; [done|]. split.
  - split; [done|]. rewrite Forall_forall in *. intros ev Hev. destruct (Hl ev Hev). split; [|done]. rewrite lookup_insert_ne; [done|].
    intros ->. apply Hni, list_elem_of_fmap. by exists ev.
  - cbn [list_to_map foldr fst snd]. rewrite <- insert_union_r; [by rewrite <- insert_union_l|]. by apply not_elem_of_list_to_map_1.
Qed.

Lemma build_tree_ok pairs l : forall rows tr,
  pairs_of name pairs l -> rows_new l rows -> tree_rep name rows tr ->
  exists tr', build_tree name pairs tr = Some (Ok tr') /\ tree_rep name (list_to_map l ∪ rows) tr'.
Proof.
  revert l. induction pairs as [|p pairs IH]; intros l rows tr Hp Hn Ht; inversion Hp as [|? [enc vals] ? l' [Hk Hu] Hp']; subst.
  { exists tr. split; [done|]. cbn [list_to_map foldr]. by rewrite (left_id_L ∅ (∪)). }
  apply rows_new_cons in Hn as (Hno & Hr & Hn & E). cbn [fst snd] in *. cbn [build_tree]. rewrite Hk, (proj2 (parseRowKey_spec name _ enc)) by done.
  destruct (row_enc def enc vals Hr) as (pk & [Hpk _] & -> & _). rewrite pk_decode_encode by done.
  destruct (tree_rep_put name rows tr pk vals Ht Hpk) as (tr1 & -> & H1). cbn [mbind option_bind]. rewrite <- E. by apply IH.
Qed.

Lemma build_index_ok d pairs l : forall rows si,
  index_column_ok def (idx_Column d) (idx_Path d) = Ok tt -> idx_Table d = name ->
  pairs_of name pairs l -> rows_new l rows -> sec_rep d def rows si ->
  exists si', build_index name def pairs si = Some (Ok si') /\ sec_rep d def (list_to_map l ∪ rows) si'.
Proof.
  revert l. induction pairs as [|p pairs IH]; intros l rows si Hc Htab Hp Hn Hs; inversion Hp as [|? [enc vals] ? l' [Hk Hu] Hp']; subst.
  { exists si. split; [done|]. cbn [list_to_map foldr]. by rewrite (left_id_L ∅ (∪)). }
  apply rows_new_cons in Hn as (Hno & Hr & Hn & E). cbn [fst snd] in *. cbn [build_index]. rewrite Hu. cbn [mbind option_bind].
  rewrite Hk, (proj2 (parseRowKey_spec (idx_Table d) _ enc)) by done.
  destruct (row_enc def enc vals Hr) as (pk & Hpk & -> & _). rewrite pk_decode_encode by apply Hpk.
  destruct (row_index_value d def Hc vals) as (iv & ok & Ev & Hcl & Hiv); [apply row_typed_new, Hr|].
  rewrite Ev by apply Hs. cbn [rbind].
  destruct (sec_rep_insert d def rows si pk vals iv ok Hs Hpk Hno Hiv Hcl) as (s1 & -> & H1). cbn [mbind option_bind].
  rewrite <- E. by apply IH.
Qed.

Lemma rows_new_all (l : list (bytes * list Value)) (rows : rows_map) :
  l ≡ₚ map_to_list rows -> Forall (fun ev => row_wf def (fst ev) (snd ev)) l -> rows_new l ∅ /\ list_to_map l ∪ ∅ = rows.
Proof.
  intros Hp Hl. split; [split|].
  - rewrite Hp. apply NoDup_fst_map_to_list.
  - eapply Forall_impl; [exact Hl|]. intros ev Hev. split; [by rewrite lookup_empty|done].
  - rewrite (right_id_L ∅ (∪)). symmetry in Hp. symmetry. by apply list_to_map_flip.
Qed.
End building.
