(* ===== verification/SqlFrame.v ===== *)
(** How the representation follows a change: of one table's rows, of the set
    of tables, of the set of indexes; and the transaction of a statement. *)

From S2P Require Import Prelude Utf8 Unicode Strconv Keys Page Row JsonBin SqlLex Wal Mvcc Catalog BTree Secondary.
From S2P Require Import SqlAst SqlParse SqlParseSpec SqlBind SqlExec SqlKernel SqlBase SqlSemantics SqlState SqlIndexes SqlRows.

(** * Writes of a transaction *)

Lemma under_empty n key : under ∅ n key = n key.
Proof. unfold under. by rewrite lookup_empty. Qed.

Lemma under_insert w n k op key : under (<[k := op]> w) n key = if decide (key = k) then write_value op else under w n key.
Proof. unfold under. case_decide as E; [subst; by rewrite lookup_insert_eq|]. by rewrite lookup_insert_ne. Qed.

(** The writes of a statement. *)
Definition writes_sql (w : gmap bytes operation) : Prop := forall key op, w !! key = Some op -> op_key op = key /\ sql_key key.

Lemma writes_sql_wf w : writes_sql w -> writes_wf w /\ keys_valid w.
Proof. intros Hw. split; intros key op H; apply (Hw key op H). Qed.

Lemma writes_sql_other w n key : writes_sql w -> isReservedKey key = false -> under w n key = n key.
Proof. intros Hw Hk. unfold under. destruct (w !! key) as [op|] eqn:E; [|done]. destruct (Hw key op E) as (_ & _ & H). congruence. Qed.

Lemma writes_sql_empty : writes_sql ∅.
Proof. intros key op. by rewrite lookup_empty. Qed.

Lemma writes_sql_insert w op : sql_key (op_key op) -> writes_sql w -> writes_sql (<[op_key op := op]> w).
Proof. intros Hop Hw key op'. rewrite lookup_insert_Some. intros [[<- <-]|[_ H]]; [done|]. by apply Hw. Qed.

Section writing.
Context (id : nat) (k : DB).
Notation tx w := (set_writes w (fresh_tx id true k)).

Lemma put_run w key value : put key value (tx w) = (tx (<[key := mkOp key value false]> w), None).
Proof. done. Qed.

Lemma del_run w key : del key (tx w) = (tx (<[key := mkOp key [] true]> w), None).
Proof. done. Qed.

Lemma del_all_run keys : forall w, Forall sql_key keys -> writes_sql w -> exists w', del_all keys (tx w) = (tx w', None) /\ writes_sql w' /\
  forall n key, under w' n key = if decide (key ∈ keys) then None else under w n key.
Proof.
  induction keys as [|key0 keys IH]; intros w Hkeys Hw.
  { exists w. split; [done|]. split; [done|]. intros n key. by rewrite decide_False by apply not_elem_of_nil. }
  apply Forall_cons in Hkeys as [Hkey0 Hkeys].
  cbn [del_all]. rewrite del_run. destruct (IH (<[key0 := mkOp key0 [] true]> w)) as (w' & E & Hw' & H); [done|by apply (writes_sql_insert w (mkOp key0 [] true))|].
  exists w'. split; [done|]. split; [done|]. intros n key. rewrite H, under_insert. destruct (decide (key ∈ keys)) as [Hin|Hin].
  - by rewrite decide_True by (by right).
  - case_decide as E0; [rewrite decide_True by (subst; by left); done|]. rewrite decide_False; [done|]. rewrite elem_of_cons. naive_solver.
Qed.
End writing.

(** * The parts of the representation *)

Section frame.
Context `{U : Unicode} `{J : GoJson} `{C : CatalogCodec}.

Lemma data_rep_ext n n' a : (forall key, n' key = n key) -> data_rep n a -> data_rep n' a.
Proof.
  intros E [Ht Hi Hr]. split; [intros name; by rewrite E|intros i; by rewrite E|].
  intros name enc Hn. specialize (Hr name enc Hn). unfold row_stored in *. by rewrite E.
Qed.

Lemma row_stored_ext n n' key row : n' key = n key -> row_stored n key row -> row_stored n' key row.
Proof. intros E. unfold row_stored. by rewrite E. Qed.

Lemma rep_lost db a k : rep db a -> lost_data (kv db) k -> rep (set_kv k db) a.
Proof.
  intros [Hk Ha Hd [H1 H2 H3]] Hs. split; [by eapply lost_data_wf|done| |by split].
  eapply data_rep_ext; [|exact Hd]. intros key. by apply lost_data_now.
Qed.

Lemma rep_same db a k : rep db a -> same_data (kv db) k -> rep (set_kv k db) a.
Proof.
  intros [Hk Ha Hd [H1 H2 H3]] Hs. split; [by eapply same_data_wf|done| |by split].
  eapply data_rep_ext; [|exact Hd]. intros key. by apply same_data_now.
Qed.

(** ** Rows of one table *)

Section rows.
Context (a : adb) (name : bytes) (t : atable) (rows' : rows_map).
Hypothesis exists_table : a_tables a !! name = Some t.
Let a' := set_table name (set_rows t rows') a.

Lemma lookup_set_table name' : a_tables a' !! name' = if decide (name' = name) then Some (set_rows t rows') else a_tables a !! name'.
Proof. unfold a'. cbn [set_table a_tables]. case_decide as E; [subst; by rewrite lookup_insert_eq|by rewrite lookup_insert_ne]. Qed.

Lemma table_defs_same name' : at_def <$> a_tables a' !! name' = at_def <$> a_tables a !! name'.
Proof. rewrite lookup_set_table. case_decide as E; [subst; by rewrite exists_table|done]. Qed.

Lemma data_rep_rows n n' :
  data_rep n a -> no_slash name -> (forall enc, row_stored n' (rowKey name enc) (rows' !! enc)) ->
  (forall key, (forall enc, key <> rowKey name enc) -> n' key = n key) -> data_rep n' a'.
Proof.
  intros [Ht Hi Hr] Hn Hrows Hother. split.
  - intros name'. rewrite Hother by (intros enc; apply tables_row_key). rewrite Ht.
    rewrite !option_fmap_compose. by rewrite table_defs_same.
  - intros i. rewrite Hother by (intros enc; apply indexes_row_key). apply Hi.
  - intros name' enc Hn'. rewrite lookup_set_table. case_decide as E; [subst; apply Hrows|].
    eapply row_stored_ext; [|by apply Hr]. apply Hother. intros enc' [? _]%rowKey_inj_lemma; done.
Qed.

Lemma index_wf_rows i d : index_wf a i d -> index_wf a' i d.
Proof.
  intros [H1 H2 H3 H4 (t' & Ht' & Hc)]. split; [done..|]. rewrite lookup_set_table. case_decide as E; [|by eauto].
  rewrite E, exists_table in Ht'. injection Ht' as <-. exists (set_rows t rows'). done.
Qed.

Lemma adb_wf_rows :
  adb_wf a -> (forall enc vals, rows' !! enc = Some vals -> row_wf (at_def t) enc vals) -> adb_wf a'.
Proof.
  intros [Ht Hr Hi] Hrows. split.
  - intros name' t'. rewrite lookup_set_table. case_decide as E; [|by apply Ht]. intros [= <-]. rewrite E. exact (Ht _ _ exists_table).
  - intros name' t' enc vals. rewrite lookup_set_table. case_decide as E; [|by apply Hr]. intros [= <-]. apply Hrows.
  - intros i d Hd. by apply index_wf_rows, Hi.
Qed.

Lemma mem_rep_rows db db' tr :
  mem_rep db a -> tables db' = tables db -> indexes db' = <[name := tr]> (indexes db) -> tree_rep name rows' tr ->
  (forall i, passed name (fun si si' => sec_rep (si_def si) (at_def t) rows' si') (secIndexes db !! i) (secIndexes db' !! i)) ->
  mem_rep db' a'.
Proof.
  intros [Ht Hi Hs] Et Ei Htr Hsec. split.
  - rewrite Et, Ht. apply map_eq. intros name'. by rewrite !lookup_fmap, table_defs_same.
  - intros name'. rewrite Ei, lookup_set_table. case_decide as E; [subst; by rewrite lookup_insert_eq|]. rewrite lookup_insert_ne by done. apply Hi.
  - intros i. specialize (Hs i). specialize (Hsec i). change (a_idx a') with (a_idx a). unfold sec_of, passed in *.
    destruct (a_idx a !! i) as [d|], (secIndexes db !! i) as [si|], (secIndexes db' !! i) as [si'|]; try done.
    destruct Hs as (t' & Ht' & Hd & Hrep). destruct Hsec as [Hmine Hother]. unfold mine in *. rewrite Hd in *. rewrite lookup_set_table.
    case_decide as E.
    + eexists. split; [done|]. by apply Hmine.
    + rewrite (Hother E). exists t'. by split.
Qed.
End rows.

(** ** The set of indexes *)

(** Adding ([Some d]) or dropping ([None]) the index [i]. *)
Definition set_index (i : bytes) (d : option IndexDef) (a : adb) : adb := mkADB (a_tables a) (partial_alter (fun _ => d) i (a_idx a)).

Lemma lookup_set_index i d a j : a_idx (set_index i d a) !! j = if decide (j = i) then d else a_idx a !! j.
Proof. cbn [set_index a_idx]. case_decide as E; [subst; by rewrite lookup_partial_alter_eq|by rewrite lookup_partial_alter_ne]. Qed.

Lemma data_rep_index n n' i d a :
  data_rep n a -> (forall key, n' key = if decide (key = catalogIndexKey i) then marshalIndex <$> d else n key) -> data_rep n' (set_index i d a).
Proof.
  intros [Ht Hi Hr] Hn'. split.
  - intros name. rewrite Hn', decide_False by apply tables_indexes_key. apply Ht.
  - intros j. rewrite Hn', lookup_set_index. destruct (decide (j = i)) as [->|Hne]; [by rewrite decide_True|].
    rewrite decide_False; [apply Hi|]. by intros ?%catalogIndexKey_inj.
  - intros name enc Hn. eapply row_stored_ext; [|by apply Hr]. rewrite Hn', decide_False; [done|]. intros E. symmetry in E. by apply indexes_row_key in E.
Qed.

Lemma adb_wf_index i d a : adb_wf a -> (forall d', d = Some d' -> index_wf a i d') -> adb_wf (set_index i d a).
Proof.
  intros [Ht Hr Hi] Hd. split; [done|done|]. intros j d'. rewrite lookup_set_index.
  assert (forall d0, index_wf a j d0 -> index_wf (set_index i d a) j d0) as H by (by intros d0 [H1 H2 H3 H4 H5]).
  case_decide as E; [subst; intros E; by apply H, Hd|]. intros E'. by apply H, Hi.
Qed.

Lemma mem_rep_index i d si a db db' :
  mem_rep db a -> tables db' = tables db -> indexes db' = indexes db ->
  (forall j, secIndexes db' !! j = if decide (j = i) then si else secIndexes db !! j) -> sec_of a d si -> mem_rep db' (set_index i d a).
Proof.
  intros [Ht Hi Hs] Et Ei Hsec Hd. split; [by rewrite Et|intros name; rewrite Ei; apply Hi|].
  intros j. rewrite lookup_set_index, Hsec. case_decide; [exact Hd|apply Hs].
Qed.

End frame.

(** ** The set of tables *)

Section tables.
Context `{U : Unicode} `{J : GoJson} `{C : CatalogCodec}.
Context (a : adb) (name : bytes).

Section create.
Context (def : TableDef).
Hypothesis absent : a_tables a !! name = None.
Let a' := set_table name (mkATable def ∅) a.

Lemma create_lookup name' : a_tables a' !! name' = if decide (name' = name) then Some (mkATable def ∅) else a_tables a !! name'.
Proof. unfold a'. cbn [set_table a_tables]. case_decide as E; [subst; by rewrite lookup_insert_eq|by rewrite lookup_insert_ne]. Qed.

Lemma create_keeps name' t : a_tables a !! name' = Some t -> a_tables a' !! name' = Some t.
Proof. intros H. rewrite create_lookup, decide_False; [done|]. congruence. Qed.

Lemma data_rep_create n n' :
  data_rep n a -> (forall key, n' key = if decide (key = catalogTableKey name) then Some (marshalTable def) else n key) -> data_rep n' a'.
Proof.
  intros [Ht Hi Hr] Hn'. split.
  - intros name'. rewrite Hn', create_lookup. destruct (decide (name' = name)) as [->|Hne]; [by rewrite decide_True|].
    rewrite decide_False; [apply Ht|]. by intros ?%catalogTableKey_inj.
  - intros i. rewrite Hn', decide_False; [apply Hi|]. intros E. symmetry in E. by apply tables_indexes_key in E.
  - intros name' enc Hn. eapply (row_stored_ext n).
    { rewrite Hn', decide_False; [done|]. intros E. symmetry in E. by apply tables_row_key in E. }
    specialize (Hr name' enc Hn). rewrite create_lookup. case_decide as E; [|done]. subst. by rewrite absent in Hr.
Qed.

Lemma adb_wf_create : adb_wf a -> table_wf name def -> adb_wf a'.
Proof.
  intros [Ht Hr Hi] Hdef. split.
  - intros name' t'. rewrite create_lookup. case_decide as E; [|by apply Ht]. intros [= <-]. by rewrite E.
  - intros name' t' enc vals. rewrite create_lookup. case_decide as E; [|by apply Hr]. intros [= <-]. cbn. by rewrite lookup_empty.
  - intros i d Hd. destruct (Hi i d Hd) as [H1 H2 H3 H4 (t' & Ht' & Hc)]. split; [done..|]. exists t'. by split; [apply create_keeps|].
Qed.

Lemma mem_rep_create db db' :
  mem_rep db a -> tables db' = <[name := def]> (tables db) -> indexes db' = <[name := newBTree]> (indexes db) ->
  secIndexes db' = secIndexes db -> mem_rep db' a'.
Proof.
  intros [Ht Hi Hs] Et Ei Es. split.
  - rewrite Et, Ht. unfold a'. cbn [set_table a_tables]. by rewrite fmap_insert.
  - intros name'. rewrite Ei, create_lookup. case_decide as E; [subst; rewrite lookup_insert_eq; apply tree_rep_new|].
    rewrite lookup_insert_ne by done. apply Hi.
  - intros i. rewrite Es. specialize (Hs i). change (a_idx a') with (a_idx a). unfold sec_of in *.
    destruct (a_idx a !! i) as [d|], (secIndexes db !! i) as [si|]; try done. destruct Hs as (t' & Ht' & Hrep).
    exists t'. by split; [apply create_keeps|].
Qed.
End create.

Section drop.
Let a' := mkADB (delete name (a_tables a)) (filter (fun kd => idx_Table (snd kd) <> name) (a_idx a)).

Lemma drop_lookup name' : a_tables a' !! name' = if decide (name' = name) then None else a_tables a !! name'.
Proof. unfold a'. cbn [a_tables]. case_decide as E; [subst; by rewrite lookup_delete_eq|by rewrite lookup_delete_ne]. Qed.

Lemma drop_lookup_idx i : a_idx a' !! i = match a_idx a !! i with Some d => if decide (idx_Table d = name) then None else Some d | None => None end.
Proof.
  unfold a'. cbn [a_idx]. destruct (a_idx a !! i) as [d|] eqn:E.
  - case_decide as Hd; [apply map_lookup_filter_None; right; intros d'; rewrite E; by intros [= <-] Hne|].
    by apply map_lookup_filter_Some.
  - apply map_lookup_filter_None. by left.
Qed.

Lemma data_rep_drop n n' :
  data_rep n a -> no_slash name ->
  (forall name', n' (catalogTableKey name') = if decide (name' = name) then None else n (catalogTableKey name')) ->
  (forall i, n' (catalogIndexKey i) = marshalIndex <$> a_idx a' !! i) ->
  (forall name' enc, no_slash name' -> n' (rowKey name' enc) = if decide (name' = name) then None else n (rowKey name' enc)) ->
  data_rep n' a'.
Proof.
  intros [Ht Hi Hr] Hn H1 H2 H3. split; [|done|].
  - intros name'. rewrite H1, drop_lookup. case_decide; [done|apply Ht].
  - intros name' enc Hn'. rewrite drop_lookup. specialize (H3 name' enc Hn'). case_decide; [done|]. eapply row_stored_ext; [exact H3|by apply Hr].
Qed.

Lemma adb_wf_drop : adb_wf a -> adb_wf a'.
Proof.
  intros [Ht Hr Hi]. split.
  - intros name' t'. rewrite drop_lookup. case_decide; [done|apply Ht].
  - intros name' t' enc vals. rewrite drop_lookup. case_decide; [done|apply Hr].
  - intros i d. rewrite drop_lookup_idx. destruct (a_idx a !! i) as [d'|] eqn:E; [|done]. case_decide as Hd; [done|]. intros [= <-].
    destruct (Hi i d' E) as [H1 H2 H3 H4 (t' & Ht' & Hc)]. split; [done..|]. exists t'. split; [|done]. by rewrite drop_lookup, decide_False.
Qed.

Lemma mem_rep_drop db db' :
  mem_rep db a -> tables db' = delete name (tables db) -> indexes db' = delete name (indexes db) ->
  secIndexes db' = filter (fun kx => idx_Table (si_def (snd kx)) <> name) (secIndexes db) -> mem_rep db' a'.
Proof.
  intros [Ht Hi Hs] Et Ei Es. split.
  - rewrite Et, Ht. unfold a'. cbn [a_tables]. by rewrite fmap_delete.
  - intros name'. rewrite Ei, drop_lookup. case_decide as E; [subst; by rewrite lookup_delete_eq|]. rewrite lookup_delete_ne by done. apply Hi.
  - intros i. specialize (Hs i). rewrite Es, drop_lookup_idx. unfold sec_of in *.
    destruct (a_idx a !! i) as [d|], (secIndexes db !! i) as [si|] eqn:Esi; try done.
    + destruct Hs as (t' & Ht' & Hd & Hrep). case_decide as E.
      * destruct (filter _ _ !! i) eqn:Ef; [|done]. apply map_lookup_filter_Some in Ef as [Ef Hne]. cbn [snd] in Hne. congruence.
      * rewrite (proj2 (map_lookup_filter_Some _ _ i si)); [|split; [done|cbn; by rewrite Hd]].
        exists t'. split; [by rewrite drop_lookup, decide_False|by split].
    + rewrite (proj2 (map_lookup_filter_None _ _ i)) by (by left). done.
Qed.
End drop.
End tables.
