(* ===== verification/SqlSchema.v ===== *)
(** CREATE TABLE, DROP TABLE, CREATE INDEX and DROP INDEX do what the contract
    says. *)

From S2P Require Import Prelude Utf8 Unicode Strconv Keys Page Row JsonBin SqlLex Wal Mvcc Catalog BTree Secondary.
From S2P Require Import SqlAst SqlParse SqlParseSpec SqlBind SqlExec SqlKernel SqlBase SqlSemantics SqlState SqlIndexes SqlRows SqlFrame.

(** Run the transaction of the goal by [run], a lemma on [Update]: its body ends
    in [k2] with the writes [w] and the result [r]. *)
Ltac body_runs run k2 w r :=
  match goal with
  | |- context [Update _ _ ?fn _] =>
      let k' := fresh "k'" in let r' := fresh "r'" in let E := fresh "E" in let Hl := fresh "Halive" in let H := fresh "H" in
      destruct (run _ fn k2 w r) as (k' & r' & E & Hl & H); [| | |rewrite E; cbn [mbind option_bind]; clear E]
  end.

(** * Listing the catalog *)

(** A scan of the catalog entries of a map [m] of definitions lists the map. *)
Lemma catalog_scan {D} (mk : bytes -> bytes) (encode : D -> bytes) (decode : bytes -> option D) (m : gmap bytes D) prefix n pairs :
  (forall key, has_prefix key prefix = true <-> exists i, key = mk i) -> (forall i j, mk i = mk j -> i = j) ->
  (forall i, n (mk i) = encode <$> m !! i) -> (forall i d, m !! i = Some d -> decode (encode d) = Some d) ->
  StronglySorted kv_lt pairs -> (forall key v, mkKV key v ∈ pairs <-> has_prefix key prefix = true /\ n key = Some v) ->
  exists l, decode_pairs decode pairs = Ok (snd <$> l) /\ l ≡ₚ map_to_list m.
Proof.
  intros Hpre Hinj Hn Hdec Hs Hin.
  assert (forall p, p ∈ pairs -> exists id, p = mkKV (mk (fst id)) (encode (snd id)) /\ m !! fst id = Some (snd id)) as Hp.
  { intros [key v] [[i ->]%Hpre Hv]%Hin. rewrite Hn in Hv. destruct (m !! i) as [d|] eqn:E; [|done]. injection Hv as <-. by exists (i, d). }
  apply Forall_forall, Forall_choose in Hp as [l Hl]. exists l. split.
  - apply decode_pairs_ok. apply Forall2_fmap_r. eapply Forall2_impl; [exact Hl|]. intros p [i d] [-> H]. by eapply Hdec.
  - apply NoDup_Permutation; [|apply NoDup_map_to_list|].
    + apply scan_NoDup in Hs. assert (kv_key <$> pairs = (fun id => mk (fst id)) <$> l) as E.
      { apply Forall2_fmap_eq, Forall2_fmap_l. eapply Forall2_impl; [exact Hl|]. by intros p id [-> _]. }
      rewrite E in Hs. by apply NoDup_fmap_1 in Hs.
    + intros [i d]. rewrite elem_of_map_to_list. split.
      * intros (j & Hj)%list_elem_of_lookup. by destruct (Forall2_lookup_r _ _ _ _ _ Hl Hj) as (p & _ & _ & ?).
      * intros Hd. assert (mkKV (mk i) (encode d) ∈ pairs) as (j & Hj)%list_elem_of_lookup.
        { apply Hin. split; [apply Hpre; by exists i|]. by rewrite Hn, Hd. }
        destruct (Forall2_lookup_l _ _ _ _ _ Hl Hj) as ([i' d'] & Hl' & [= E _] & Hd'). apply Hinj in E as <-. cbn [fst snd] in Hd'.
        rewrite Hd in Hd'. injection Hd' as <-. by apply list_elem_of_lookup_2 in Hl'.
Qed.

Section schema.
Context `{U : Unicode} `{J : GoJson} `{R : RecordCodec} `{C : CatalogCodec}.

(** What a statement may do where the contract says [s]: exactly that, or, when
    the log could not be written, fail and change nothing. *)
Definition outcome (v : env) (a : adb) (s : option (Z * adb)) (db' : Database) (r : res Result) : Prop :=
  match s with
  | Some (n, a') => (r = Ok (mkResult n) /\ rep db' a') \/ ((exists e, r = Err e) /\ e_io v <> IoOk /\ rep db' a)
  | None => (exists e, r = Err e) /\ rep db' a
  end.

(** A database a statement can run on. *)
Record ready (db : Database) (a : adb) : Prop := {
  rd_rep : rep db a;
  rd_open : db_closed (kv db) = false;
  rd_version : db_version (kv db) + 1 < 2 ^ 64;
}.

(** The store stays open, takes at most one version, keeps its log and every key
    outside SQL's own. *)
Record alive (o : io) (k k' : DB) : Prop := {
  al_open : db_closed k' = false;
  al_version : db_version k' <= db_version k + 1;
  al_logged : logged o k k';
  al_others : forall key, isReservedKey key = false -> now k' key = now k key;
}.

Lemma alive_same o k k' : db_closed k = false -> same_data k k' -> alive o k k'.
Proof.
  intros Hc Hs. split; [by rewrite (sd_closed _ _ Hs)|rewrite (sd_version _ _ Hs); lia|by apply logged_same|]. intros key _. by apply same_data_now.
Qed.

Lemma alive_after o k k1 k2 : same_data k k1 -> alive o k1 k2 -> alive o k k2.
Proof.
  intros Hs [Ho Hv Hl Hk]. split; [done|by rewrite <- (sd_version _ _ Hs)|eapply logged_trans; [by apply logged_same|done]|].
  intros key Hkey. rewrite Hk by done. by apply same_data_now.
Qed.

(** A statement answers as the contract [s] says, without a panic. *)
Definition answers (v : env) (db : Database) (a : adb) (s : option (Z * adb)) (m : option (Database * res Result)) : Prop :=
  exists db' r, m = Some (db', r) /\ alive (e_io v) (kv db) (kv db') /\ outcome v a s db' r.

Section answers.
Context (v : env) (db : Database) (a : adb).
Hypothesis is_ready : ready db a.

Lemma answer_refused e : answers v db a None (Some (db, Err e)).
Proof. exists db, (Err e). split; [done|]. destruct is_ready as [Hrep Hc _].
  split; [apply alive_same; [done|]; apply same_data_refl, (rp_kv _ _ Hrep)|]. split; [by eexists|done]. Qed.

Lemma answer_error k' e : alive (e_io v) (kv db) k' -> rep (set_kv k' db) a -> answers v db a None (Some (set_kv k' db, Err e)).
Proof. intros Hk Hr. exists (set_kv k' db), (Err e). split; [done|]. split; [done|]. split; [by eexists|done]. Qed.

Lemma answer_io s k' e : alive (e_io v) (kv db) k' -> e_io v <> IoOk -> rep (set_kv k' db) a -> answers v db a s (Some (set_kv k' db, Err e)).
Proof.
  intros Hk Ho Hr. exists (set_kv k' db), (Err e). split; [done|]. split; [done|]. destruct s as [[n a']|]; [right; eauto|]. split; [by eexists|done].
Qed.

Lemma answer_done n a' db' : alive (e_io v) (kv db) (kv db') -> rep db' a' -> answers v db a (Some (n, a')) (Some (db', Ok (mkResult n))).
Proof. intros Hk Hr. exists db', (Ok (mkResult n)). split; [done|]. split; [done|]. by left. Qed.
End answers.

(** A definition of the catalog can be read back. *)
Lemma table_storable name def : table_wf name def -> table_ok def.
Proof.
  intros [Hn Hg Hc Hs Hp]. split; [rewrite Hn; apply ascii_valid, Hg|]. apply Forall_forall. intros c Hin. split.
  - apply ascii_valid. pose proof (cg_good _ Hc) as H. rewrite Forall_forall in H. apply (H c Hin).
  - rewrite Forall_forall in Hs. apply (Hs c Hin).
Qed.

Lemma index_storable a i d : adb_wf a -> index_wf a i d -> index_ok d.
Proof.
  intros Ha [Hn Hg Hc Hp (t & Ht & _)]. unfold index_ok. rewrite Hn. split; [apply ascii_valid, Hg|].
  split; [|split; [apply ascii_valid, Hc|done]]. apply ascii_valid. apply (aw_tables _ Ha) in Ht. apply Ht.
Qed.

Section statement.
Context (v : env) (db : Database) (a : adb).
Hypothesis is_ready : ready db a.
Notation k0 := (kv db).
Notation tx0 := (fresh_tx (e_tx v) true k0).

(** The transaction of a statement whose body makes the writes [w]. *)
Lemma update_run {A} (fn : DB -> Tx -> option (DB * Tx * res A)) k2 w r :
  fn (began (e_tx v) k0) tx0 = Some (k2, set_writes w tx0, r) -> same_data k0 k2 -> writes_sql w ->
  exists k' r', Update (e_io v) (e_tx v) fn k0 = Some (k', r') /\ alive (e_io v) k0 k' /\
  match r with
  | Err e => r' = Err e /\ rep (set_kv k' db) a
  | Ok x => (r' = Ok x /\ db_wf k' /\ forall key, now k' key = under w (now k0) key) \/
            ((exists e, r' = Err e) /\ e_io v <> IoOk /\ rep (set_kv k' db) a)
  end.
Proof.
  intros Hfn Hs Hw. destruct is_ready as [Hrep Hc Hv]. pose proof (rp_kv _ _ Hrep) as Hk.
  destruct (writes_sql_wf w Hw) as [Hww Hwv].
  destruct (Update_run (e_io v) (e_tx v) fn k0 k2 w r Hk Hv Hc Hfn Hs Hww) as (k' & r' & E & Hk' & Hc' & Hv' & Hr).
  pose proof (Update_logged (e_io v) (e_tx v) fn k0 k2 w r k' r' Hk Hv Hc Hfn Hs Hww Hwv E) as Hlog.
  exists k', r'. split; [done|]. assert (forall key, isReservedKey key = false -> now k' key = now k0 key) as Hoth.
  { intros key Hkey. destruct r as [x|e]; [destruct Hr as [[_ Hn]|(_ & _ & Hsd)]|destruct Hr as [_ Hsd]].
    - rewrite Hn. by apply writes_sql_other.
    - by apply lost_data_now.
    - by apply same_data_now. }
  split; [done|]. destruct r as [x|e].
  - destruct Hr as [[-> Hn]|(He & Ho & Hsd)]; [by left|]. right. split; [done|]. split; [done|]. by apply rep_lost.
  - destruct Hr as [-> Hsd]. split; [done|]. by apply rep_same.
Qed.

Lemma began_same : same_data k0 (began (e_tx v) k0).
Proof. apply same_data_began, (rp_kv _ _ (rd_rep _ _ is_ready)). Qed.

Lemma get_now key k : same_data k0 k -> Mvcc.Get tx0 key k = (add_reads 1 k, now k0 key).
Proof. intros Hk. pose proof (Get_now k0 k (e_tx v) true ∅ Hk key) as E. rewrite under_empty in E. exact E. Qed.

(** ** CREATE TABLE *)

Lemma pk_unique cols : pkCount cols = 1%nat -> exists i c, find_column col_PK 0 cols = Some i /\ cols !! i = Some c /\ col_PK c = true.
Proof.
  unfold pkCount. intros H. assert (exists c, c ∈ cols /\ col_PK c = true) as (c & Hc & Hp).
  { destruct (filter (fun c => col_PK c = true) cols) as [|c l] eqn:E; [done|]. exists c.
    assert (c ∈ filter (fun c => col_PK c = true) cols) as [? ?]%list_elem_of_filter by (rewrite E; by left). done. }
  assert (forall k, is_Some (find_column col_PK k cols)) as Hs.
  { clear H. induction cols as [|d cols IH]; [by apply elem_of_nil in Hc|]. intros k. cbn [find_column]. destruct (col_PK d) eqn:E; [by eexists|].
    apply IH. apply elem_of_cons in Hc as [->|?]; [congruence|done]. }
  destruct (Hs 0%nat) as [i Hi]. destruct (find_column_inv _ _ _ _ Hi) as (j & c' & -> & Hj & Hc'). exists j, c'. done.
Qed.

Lemma table_wf_create name0 cols :
  name_plain name0 -> Forall (fun c => name_plain (col_Name c)) cols -> NoDup (col_Name <$> normalizeColumns cols) ->
  pkCount cols = 1%nat -> Forall column_shape cols ->
  table_wf (normalizeName name0) (mkTable (normalizeName name0) (normalizeColumns cols)).
Proof.
  intros Hn Hc Hnd Hpk Hs. split; cbn [tab_Name tab_Columns].
  - done.
  - by apply normalize_good.
  - split; [|done]. unfold normalizeColumns. cbn [tab_Columns]. apply Forall_fmap. eapply Forall_impl; [exact Hc|]. intros c. apply normalize_good.
  - unfold normalizeColumns. apply Forall_fmap. eapply Forall_impl; [exact Hs|]. intros c H. exact H.
  - destruct (pk_unique (normalizeColumns cols)) as (i & c & Ei & Ec & _).
    { rewrite <- Hpk. unfold pkCount, normalizeColumns. clear. induction cols as [|c cols IH]; [done|]. cbn [fmap list_fmap].
      rewrite !filter_cons. cbn [col_PK]. case_decide; cbn [length]; by rewrite IH. }
    unfold pkColumn. cbn [tab_Columns]. rewrite Ei, Ec. done.
Qed.

Lemma create_refines name0 cols :
  stmt_ok a (createTableStmt name0 cols) ->
  answers v db a (spec_exec a (createTableStmt name0 cols)) (execCreate v name0 cols db).
Proof.
  intros (Hn & Hc & Hnd & Hpk & Hs). pose proof (table_wf_create name0 cols Hn Hc Hnd Hpk Hs) as Hwf.
  unfold execCreate. cbn [spec_exec]. set (name := normalizeName name0) in *. set (def := mkTable name (normalizeColumns cols)) in *.
  destruct is_ready as [Hrep _ _]. pose proof (dr_tables _ _ (rp_data _ _ Hrep) name) as Hcat.
  set (w := <[catalogTableKey name := mkOp (catalogTableKey name) (marshalTable def) false]> (∅ : gmap bytes operation)).
  destruct (a_tables a !! name) as [t|] eqn:Et.
  - body_runs @update_run (add_reads 1 (began (e_tx v) k0)) (∅ : gmap bytes operation) (@Err unit ErrSQL).
    { cbv beta. rewrite get_now by apply began_same. by rewrite Hcat. }
    { apply same_data_reads, began_same. }
    { apply writes_sql_empty. }
    destruct H as [-> H]. by apply answer_error.
  - body_runs @update_run (add_reads 1 (began (e_tx v) k0)) w (Ok tt).
    { cbv beta. rewrite get_now by apply began_same. by rewrite Hcat. }
    { apply same_data_reads, began_same. }
    { apply (writes_sql_insert ∅ (mkOp _ _ _)), writes_sql_empty. apply sql_key_table, (tw_good _ _ Hwf). }
    destruct H as [(-> & Hk' & Hnow)|([e ->] & Ho & H)].
    + apply answer_done; [done|]. split; [done|by apply adb_wf_create; [|apply Hrep|]| |].
      * eapply data_rep_create; [done|apply Hrep|]. intros key. cbn [kv]. rewrite Hnow. unfold w. rewrite under_insert. by rewrite under_empty.
      * by eapply mem_rep_create; [|apply Hrep|..].
    + by apply answer_io.
Qed.

(** ** DROP TABLE *)

Lemma list_indexes w k :
  same_data k0 k -> (forall i, under w (now k0) (catalogIndexKey i) = now k0 (catalogIndexKey i)) ->
  exists k' l, listIndexDefs (set_writes w tx0) k = (k', Ok (snd <$> l)) /\ same_data k0 k' /\ l ≡ₚ map_to_list (a_idx a).
Proof.
  intros Hk Hw. destruct (scan_now k0 k (e_tx v) true w Hk catalogIndexPrefix) as (n & pairs & E & Hs & Hin).
  pose proof (rd_rep _ _ is_ready) as Hrep.
  destruct (catalog_scan catalogIndexKey marshalIndex unmarshalIndex (a_idx a) catalogIndexPrefix (under w (now k0)) pairs) as (l & Hd & Hl);
    [apply catalogIndexKey_prefix|apply catalogIndexKey_inj|intros i; rewrite Hw; exact (dr_idx _ _ (rp_data _ _ Hrep) i)| |done|done|].
  { intros i d Hd. apply unmarshal_marshalIndex. eapply index_storable; [apply Hrep|]. by apply (aw_idx _ (rp_wf _ _ Hrep)). }
  unfold listIndexDefs. rewrite E, Hd. eexists _, l. split; [done|]. split; [by apply same_data_reads|done].
Qed.

(** The catalog keys of the indexes of a table, as DROP TABLE collects them. *)
Lemma index_keys_of name li i :
  li ≡ₚ map_to_list (a_idx a) ->
  catalogIndexKey i ∈ catalogIndexKey <$> (idx_Name <$> filter (fun d => normalizeName (idx_Table d) = name) (snd <$> li)) <->
  exists d, a_idx a !! i = Some d /\ idx_Table d = name.
Proof.
  intros Hli. pose proof (rp_wf _ _ (rd_rep _ _ is_ready)) as Ha.
  assert (forall j d, a_idx a !! j = Some d -> idx_Name d = j /\ normalizeName (idx_Table d) = idx_Table d) as Hidx.
  { intros j d Hd. destruct (aw_idx _ Ha j d Hd) as [Hn _ _ _ (t' & Ht' & _)]. split; [done|].
    apply normalize_fix, (tw_good _ _ (aw_tables _ Ha _ _ Ht')). }
  rewrite list_elem_of_fmap. split.
  - intros (i' & <-%catalogIndexKey_inj & (d & -> & Hd)%list_elem_of_fmap). apply list_elem_of_filter in Hd as [Hd ([i' d'] & -> & Hin)%list_elem_of_fmap].
    rewrite Hli, elem_of_map_to_list in Hin. cbn [snd] in *. destruct (Hidx _ _ Hin) as [-> Hx]. exists d'. split; [done|]. by rewrite <- Hx.
  - intros (d & Hd & Hdn). exists i. split; [done|]. destruct (Hidx _ _ Hd) as [Hn Hx]. apply list_elem_of_fmap. exists d. split; [done|].
    apply list_elem_of_filter. split; [by rewrite Hx|]. apply list_elem_of_fmap. exists (i, d). split; [done|]. rewrite Hli. by apply elem_of_map_to_list.
Qed.

Lemma drop_body_run name t k :
  a_tables a !! name = Some t -> same_data k0 k ->
  exists k' w, drop_body name k tx0 = (k', set_writes w tx0, Ok (Z.of_nat (size (at_rows t)))) /\ same_data k0 k' /\ writes_sql w /\
  data_rep (under w (now k0)) (mkADB (delete name (a_tables a)) (filter (fun kd => idx_Table (snd kd) <> name) (a_idx a))).
Proof.
  intros Ht Hk. pose proof (rd_rep _ _ is_ready) as Hrep. pose proof (rp_wf _ _ Hrep) as Ha. pose proof (rp_data _ _ Hrep) as Hdata.
  pose proof (aw_tables _ Ha _ _ Ht) as Hwf. pose proof (ng_slash _ (tw_good _ _ Hwf)) as Hslash.
  unfold drop_body, loadTableDef. rewrite get_now by done. rewrite (dr_tables _ _ Hdata name), Ht. cbn [fmap option_fmap option_map compose].
  rewrite unmarshal_marshalTable by (by eapply table_storable).
  destruct (scan_table_rows db a name t Hrep Ht (e_tx v) true (add_reads 1 k)) as (k1 & pairs & l & E & Hk1 & Hl & Hp & _); [by apply same_data_reads|].
  rewrite E. destruct (del_all_run (e_tx v) k0 (kv_key <$> pairs) ∅) as (w1 & E1 & Hw1 & Hu1); [|apply writes_sql_empty|].
  { rewrite (pairs_of_keys _ _ _ Hl). apply Forall_fmap, Forall_forall. intros [enc vals] Hin. rewrite Hp, elem_of_map_to_list in Hin.
    destruct (aw_rows _ Ha _ _ _ _ Ht Hin) as [_ Hpk]. destruct (row_pk (at_def t) vals) as [pk|]; [|done]. injection Hpk as <-.
    apply sql_key_row, (tw_good _ _ Hwf). }
  change tx0 with (set_writes ∅ tx0). rewrite E1. rewrite (pairs_of_keys _ _ _ Hl) in Hu1.
  assert (forall key, (forall enc, key <> rowKey name enc) -> under w1 (now k0) key = now k0 key) as Hother.
  { intros key Hne. rewrite Hu1, under_empty, decide_False; [done|]. intros (ev & -> & _)%list_elem_of_fmap. by eapply Hne. }
  destruct (list_indexes w1 k1 Hk1) as (k2 & li & E2 & Hk2 & Hli); [intros i; apply Hother; intros enc; apply indexes_row_key|].
  rewrite E2. set (mine := filter _ (snd <$> li)).
  destruct (del_all_run (e_tx v) k0 (catalogIndexKey <$> (idx_Name <$> mine)) w1) as (w2 & E3 & Hw2 & Hu2); [|done|].
  { apply Forall_fmap, Forall_fmap, Forall_forall. intros d Hd. apply list_elem_of_filter in Hd as [_ ([i d'] & -> & Hin)%list_elem_of_fmap].
    rewrite Hli, elem_of_map_to_list in Hin. cbn [snd]. apply sql_key_index. destruct (aw_idx _ Ha _ _ Hin) as [-> [Hn _ _] _ _ _]. done. }
  rewrite E3.
  pose proof (fun i => index_keys_of name li i Hli) as Hmine. fold mine in Hmine.
  unfold dropTableDef. rewrite del_run. cbn [as_res rbind]. eexists _, _. split.
  { do 2 f_equal. rewrite <- length_map_to_list, <- (Permutation_length Hp). unfold zlen. f_equal. by eapply Forall2_length. }
  split; [done|]. split; [apply (writes_sql_insert w2 (mkOp _ _ _)); [apply sql_key_table, (tw_good _ _ Hwf)|done]|].
  eapply data_rep_drop; [exact Hdata|done|..].
  - intros name'. rewrite under_insert, Hu2. destruct (decide (name' = name)) as [->|Hne]; [by rewrite decide_True|].
    rewrite decide_False by (by intros ?%catalogTableKey_inj). rewrite decide_False, Hother; [done|intros; apply tables_row_key|].
    intros (i & E' & _)%list_elem_of_fmap. by apply tables_indexes_key in E'.
  - intros i. rewrite under_insert, Hu2, decide_False by (intros E'; symmetry in E'; by apply tables_indexes_key in E').
    rewrite drop_lookup_idx. specialize (Hmine i). rewrite Hother by (intros; apply indexes_row_key). rewrite (dr_idx _ _ Hdata).
    destruct (a_idx a !! i) as [d|] eqn:Ed; [|by destruct (decide _)].
    destruct (decide (idx_Table d = name)) as [Hd|Hd]; [rewrite decide_True; [done|]|rewrite decide_False; [done|]]; rewrite Hmine; naive_solver.
  - intros name' enc Hn'. rewrite under_insert, Hu2, decide_False by (intros E'; symmetry in E'; by apply tables_row_key in E').
    rewrite decide_False by (intros (i & E' & _)%list_elem_of_fmap; symmetry in E'; by apply indexes_row_key in E').
    destruct (decide (name' = name)) as [->|Hne].
    + rewrite Hu1, under_empty. case_decide as Hin; [done|]. pose proof (dr_rows _ _ Hdata name enc Hslash) as Hrow. rewrite Ht in Hrow. cbn in Hrow.
      destruct (at_rows t !! enc) as [vals|] eqn:Er; [|exact Hrow]. exfalso. apply Hin, list_elem_of_fmap. exists (enc, vals). split; [done|].
      rewrite Hp. by apply elem_of_map_to_list.
    + apply Hother. intros enc' [? _]%rowKey_inj_lemma; done.
Qed.

Lemma drop_refines name0 :
  answers v db a (spec_exec a (dropTableStmt name0)) (execDrop v name0 db).
Proof.
  unfold execDrop. cbn [spec_exec]. set (name := normalizeName name0). pose proof (rd_rep _ _ is_ready) as Hrep.
  destruct (a_tables a !! name) as [t|] eqn:Et; cbn [mbind option_bind].
  - destruct (drop_body_run name t _ Et began_same) as (k2 & w & E & Hk2 & Hw & Hd).
    body_runs @update_run k2 w (Ok (Z.of_nat (size (at_rows t)))); [by rewrite E|done|done|]. destruct H as [(-> & Hk' & Hnow)|([e ->] & Ho & H)].
    + apply answer_done; [done|]. split; [done|apply adb_wf_drop, Hrep| |].
      * eapply data_rep_ext; [|exact Hd]. done.
      * by eapply mem_rep_drop; [apply Hrep|..].
    + by apply answer_io.
  - body_runs @update_run (add_reads 1 (began (e_tx v) k0)) (∅ : gmap bytes operation) (@Err Z ErrSQL).
    + unfold drop_body, loadTableDef. rewrite get_now by apply began_same. by rewrite (dr_tables _ _ (rp_data _ _ Hrep)), Et.
    + apply same_data_reads, began_same.
    + apply writes_sql_empty.
    + destruct H as [-> H]. by apply answer_error.
Qed.

(** ** CREATE INDEX and DROP INDEX *)

Lemma view_run {A} (fn : DB -> Tx -> option (DB * Tx * res A)) k2 tx2 r :
  fn (began (e_tx v) k0) (fresh_tx (e_tx v) false k0) = Some (k2, tx2, r) -> same_data k0 k2 ->
  exists k', View (e_tx v) fn k0 = Some (k', r) /\ same_data k0 k'.
Proof. apply View_run; [apply (rp_kv _ _ (rd_rep _ _ is_ready))|apply is_ready]. Qed.

Lemma ready_same k : same_data k0 k -> ready (set_kv k db) a.
Proof.
  intros Hs. destruct is_ready as [Hr Hc Hv]. split; [by apply rep_same|cbn [set_kv kv]; by rewrite (sd_closed _ _ Hs)|].
  cbn [set_kv kv]. by rewrite (sd_version _ _ Hs).
Qed.

Lemma index_known i : bool_decide (is_Some (secIndexes db !! i)) = bool_decide (is_Some (a_idx a !! i)).
Proof.
  pose proof (mr_secs _ _ (rp_mem _ _ (rd_rep _ _ is_ready)) i) as H. unfold sec_of in H.
  by destruct (a_idx a !! i), (secIndexes db !! i).
Qed.

(** The index built by the scan holds the rows of the table. *)
Lemma build_run t d :
  a_tables a !! idx_Table d = Some t -> index_column_ok (at_def t) (idx_Column d) (idx_Path d) = Ok tt ->
  exists k' si, View (e_tx v) (fun k tx =>
      let '(k, pairs) := scanPrefix tx (rowKeyPrefix (idx_Table d)) k in
      si ← build_index (idx_Table d) (at_def t) pairs (newSecondaryIdx d);
      Some (k, tx, si)) k0 = Some (k', Ok si) /\ same_data k0 k' /\ sec_rep d (at_def t) (at_rows t) si.
Proof.
  intros Ht Hc. pose proof (rd_rep _ _ is_ready) as Hrep.
  destruct (scan_table_rows db a _ t Hrep Ht (e_tx v) false _ began_same) as (k1 & pairs & l & E & Hk1 & Hl & Hp & Hr).
  destruct (rows_new_all (at_def t) l (at_rows t) Hp Hr) as [Hnew Hall].
  destruct (build_index_ok (idx_Table d) (at_def t) d pairs l ∅ (newSecondaryIdx d) Hc eq_refl Hl Hnew (sec_rep_new d (at_def t))) as (si & Eb & Hsi).
  rewrite Hall in Hsi. match goal with |- context [View _ ?fn _] => destruct (view_run fn k1 (fresh_tx (e_tx v) false k0) (Ok si)) as (k' & -> & Hk') end;
    [by rewrite E, Eb|done|]. by exists k', si.
Qed.
End statement.

(** Writing one catalog entry of an index, or removing it. *)
Lemma catalog_write v db a i (op : operation) (d : option IndexDef) (fn : DB -> Tx -> option (DB * Tx * res unit)) :
  ready db a -> is_ascii i = true -> op_key op = catalogIndexKey i -> write_value op = marshalIndex <$> d ->
  (forall k, fn k (fresh_tx (e_tx v) true (kv db)) = Some (k, set_writes (<[op_key op := op]> ∅) (fresh_tx (e_tx v) true (kv db)), Ok tt)) ->
  exists k' r, Update (e_io v) (e_tx v) fn (kv db) = Some (k', r) /\ alive (e_io v) (kv db) k' /\
  ((r = Ok tt /\ db_wf k' /\ data_rep (now k') (set_index i d a)) \/ ((exists e, r = Err e) /\ e_io v <> IoOk /\ rep (set_kv k' db) a)).
Proof.
  intros Hrd Hi Hop Hval Hfn. destruct (update_run v db a Hrd fn _ _ _ (Hfn _)) as (k' & r & E & Hl & H);
    [by eapply began_same|apply writes_sql_insert, writes_sql_empty; rewrite Hop; by apply sql_key_index|]. exists k', r. split; [done|]. split; [done|].
  destruct H as [(-> & Hk' & Hnow)|H]; [left|by right]. split; [done|]. split; [done|].
  eapply data_rep_index; [apply (rp_data _ _ (rd_rep _ _ Hrd))|]. intros key. by rewrite Hnow, under_insert, under_empty, Hop, Hval.
Qed.

Lemma create_index_refines v db a index table column path :
  ready db a -> stmt_ok a (createIndexStmt index table column path) ->
  answers v db a (spec_exec a (createIndexStmt index table column path)) (execCreateIndex v index table column path db).
Proof.
  intros Hrd (Hi & Hcol & Hpath). pose proof (rd_rep _ _ Hrd) as Hrep. unfold execCreateIndex. cbn [spec_exec].
  set (d := mkIndex (normalizeName index) (normalizeName table) (normalizeName column) path).
  change (normalizeName index) with (idx_Name d). change (normalizeName table) with (idx_Table d). change (normalizeName column) with (idx_Column d).
  assert (forall t, a_tables a !! idx_Table d = Some t ->
    indexable (at_def t) column path = match index_column_ok (at_def t) (idx_Column d) (idx_Path d) with Ok _ => true | Err _ => false end) as Hcan.
  { intros t Ht. destruct (aw_tables _ (rp_wf _ _ Hrep) _ _ Ht) as [_ _ Hcols _ Hpk].
    pose proof (index_column_indexable (at_def t) Hcols column path Hcol) as H. cbn [d idx_Column idx_Path].
    destruct (index_column_ok _ _ _) as [[]|]; [by apply H|]. destruct (indexable _ _ _); [|done]. destruct H as [_ H]. by specialize (H (conj eq_refl Hpk)). }
  change (idx_Path d) with path in Hcan. change path with (idx_Path d). rewrite (mr_tables _ _ (rp_mem _ _ Hrep)), lookup_fmap.
  destruct (a_tables a !! idx_Table d) as [t|] eqn:Et; cbn [fmap option_fmap option_map mbind option_bind];
    [|by apply answer_refused].
  rewrite (index_known db a Hrd). destruct (a_idx a !! idx_Name d) as [d0|] eqn:Ed; cbn [bool_decide decide_rel].
  { rewrite bool_decide_true by (by eexists). by apply answer_refused. }
  rewrite bool_decide_false by (intros [? ?]; done).
  change (indexable (at_def t) column (idx_Path d)) with (indexable (at_def t) column path). rewrite (Hcan t eq_refl). change path with (idx_Path d).
  destruct (index_column_ok (at_def t) (idx_Column d) (idx_Path d)) as [[]|e] eqn:Ec; [|by apply answer_refused].
  destruct (build_run v db a Hrd t d Et Ec) as (k1 & si & Eb & Hk1 & Hsi).
  change (mkIndex (idx_Name d) (idx_Table d) (idx_Column d) (idx_Path d)) with d. rewrite Eb. cbn [mbind option_bind].
  pose proof (ready_same db a Hrd k1 Hk1) as Hrd1.
  match goal with |- context [Update _ _ ?fn _] =>
    destruct (catalog_write v (set_kv k1 db) a (idx_Name d) (mkOp (catalogIndexKey (idx_Name d)) (marshalIndex d) false) (Some d) fn Hrd1) as (k2 & r & E & Halive & H) end;
    [apply (normalize_good index Hi)|done|done|done|]. rewrite E. cbn [mbind option_bind].
  pose proof (alive_after _ _ _ _ Hk1 Halive) as Halive2.
  change (set_kv k2 (set_kv k1 db)) with (set_kv k2 db) in *. destruct H as [(-> & Hk2 & Hd)|([e ->] & Ho & H)]; [|by apply answer_io].
  apply answer_done; [done|].
  change (mkADB (a_tables a) (<[idx_Name d := d]> (a_idx a))) with (set_index (idx_Name d) (Some d) a).
  split; [done| |done|].
  - apply adb_wf_index; [apply Hrep|]. intros d' [= <-]. split; [done|by apply normalize_good|by apply normalize_good|done|by exists t].
  - eapply (mem_rep_index _ _ (Some si) a db); [apply Hrep|done|done| |by exists t].
    intros j. cbn [secIndexes set_secs set_kv]. case_decide as Ej; [subst; by rewrite lookup_insert_eq|by rewrite lookup_insert_ne].
Qed.

Lemma drop_index_refines v db a index :
  ready db a ->
  answers v db a (spec_exec a (dropIndexStmt index)) (execDropIndex v index db).
Proof.
  intros Hrd. pose proof (rd_rep _ _ Hrd) as Hrep. unfold execDropIndex. cbn [spec_exec]. set (i := normalizeName index).
  rewrite (index_known db a Hrd). destruct (a_idx a !! i) as [d0|] eqn:Ed; cbn [mbind option_bind].
  2:{ rewrite bool_decide_false by (intros [? ?]; done). by apply answer_refused. }
  rewrite bool_decide_true by (by eexists). cbn [negb].
  match goal with |- context [Update _ _ ?fn _] =>
    destruct (catalog_write v db a i (mkOp (catalogIndexKey i) [] true) None fn Hrd) as (k2 & r & E & Halive & H) end;
    [apply (iw_good _ _ _ (aw_idx _ (rp_wf _ _ Hrep) i d0 Ed))|done|done|done|].
  rewrite E. cbn [mbind option_bind]. destruct H as [(-> & Hk2 & Hd)|([e ->] & Ho & H)]; [|by apply answer_io].
  apply answer_done; [done|].
  change (mkADB (a_tables a) (delete i (a_idx a))) with (set_index i None a). split; [done| |done|].
  - apply adb_wf_index; [apply Hrep|done].
  - eapply (mem_rep_index _ _ None a db); [apply Hrep|done|done| |done].
    intros j. cbn [secIndexes set_secs set_kv]. case_decide as Ej; [subst; by rewrite lookup_delete_eq|by rewrite lookup_delete_ne].
Qed.
End schema.
