(* ===== verification/SqlData.v ===== *)
(** INSERT, UPDATE and DELETE do what the contract says: the rows of the table,
    its primary-key tree and all its indexes change together. *)

From S2P Require Import Prelude Utf8 Unicode Strconv Keys Page Row JsonBin SqlLex Wal Mvcc Catalog BTree Secondary.
From S2P Require Import SqlAst SqlParse SqlParseSpec SqlBind SqlExec SqlKernel SqlBase SqlSemantics SqlState SqlIndexes SqlRows SqlFrame SqlSchema.

(** * The rows statements make *)

Section new_rows.
Context `{U : Unicode} `{J : GoJson}.
Context (name : bytes) (def : TableDef).
Hypothesis table : table_wf name def.

Lemma row_new_insert vals i c v :
  row_new def vals -> tab_Columns def !! i = Some c -> value_new (col_Type c) v -> row_new def (<[i := v]> vals).
Proof.
  intros Hr Hc Hv. unfold row_new in *. rewrite <- (list_insert_id (tab_Columns def) i c Hc). by apply Forall2_insert.
Qed.

Lemma set_values_new cis : forall vals vals',
  Forall (fun ce => expr_fine (snd ce)) cis -> row_new def vals -> set_values def cis vals = Ok vals' -> row_new def vals'.
Proof.
  induction cis as [|[ci e] cis IH]; intros vals vals' Hf Hr; cbn [set_values]; [by intros [= <-]|].
  apply Forall_cons in Hf as [He Hf]. destruct (tab_Columns def !! ci) as [c|] eqn:Ec; [|done].
  destruct (exprToValue e (col_Type c)) as [v|] eqn:Ev; [|done]. cbn [rbind]. apply IH; [done|].
  eapply row_new_insert; [done|done|by eapply expr_new].
Qed.

(** The key of a row about to be stored is the key of the stored row. *)
Lemma row_pk_stored vals c i v :
  pkColumn def = Ok (c, i) -> row_new def vals -> vals !! i = Some v -> Null v = false ->
  row_pk def (stored <$> vals) =
  match col_Type c with TypeInteger => Some (pkFromInt (Int v)) | TypeText => Some (pkFromString (Text v)) | _ => None end.
Proof.
  intros Hpk Hr Hv Hn. unfold row_pk. rewrite Hpk, list_lookup_fmap, Hv. cbn [fmap option_fmap option_map mbind option_bind].
  destruct (Forall2_lookup_r _ _ _ _ _ Hr Hv) as (c' & _ & [?|[_ Hs]] & _ & _); [congruence|]. by rewrite Hs, Hn.
Qed.

Lemma insert_row_ok cols values vals pk :
  Forall expr_fine values -> insert_row def cols values = Ok (vals, pk) ->
  row_new def vals /\ row_wf def (pk_encode pk) (stored <$> vals) /\ pk_kind (int_keys def) pk.
Proof.
  intros Hf. unfold insert_row. destruct (pkColumn def) as [[c i]|] eqn:Epk; [|done]. cbn [rbind].
  destruct (insert_columns def cols values) as [cis|]; [|done]. cbn [rbind].
  destruct (set_values def (zip cis values) _) as [vals'|] eqn:Es; [|done]. cbn [rbind].
  destruct (vals' !! i) as [pv|] eqn:Ev; [|done]. destruct (Null pv) eqn:En; [done|]. intros H.
  assert (row_new def vals') as Hr.
  { eapply set_values_new; [| |exact Es].
    - apply Forall_forall. intros [ci e] Hin%elem_of_zip_r. cbn. rewrite Forall_forall in Hf. by apply Hf.
    - unfold row_new. apply Forall2_fmap_r, Forall_Forall2_diag, Forall_true. intros c'. apply null_new. }
  assert (vals = vals' /\ row_pk def (stored <$> vals') = Some pk) as [-> Hpk].
  { rewrite (row_pk_stored _ _ _ _ Epk Hr Ev En). destruct (col_Type c); try done; by injection H as <- <-. }
  pose proof (row_new_stored def vals' (tw_shape _ _ table) Hr) as Ht.
  split; [done|]. split; [split; [done|by rewrite Hpk]|]. by eapply row_pk_kind.
Qed.

Lemma apply_sets_new sets : forall vals vals',
  Forall (fun s => name_plain (as_column s) /\ expr_fine (as_value s)) sets -> row_new def vals ->
  apply_sets def sets vals = Ok vals' -> row_new def vals' /\
  forall c i, pkColumn def = Ok (c, i) -> sets_pk c sets = false -> vals' !! i = vals !! i.
Proof.
  induction sets as [|s sets IH]; intros vals vals' Hs Hr; cbn [apply_sets]; [by intros [= <-]|].
  apply Forall_cons in Hs as [[Hn He] Hs]. destruct (columnIndex def (normalizeName (as_column s))) as [ci|] eqn:Eci; [|done]. cbn [rbind].
  destruct (columnIndex_good def (tw_cols _ _ table) _ _ (normalize_good _ Hn) Eci) as (c & Hc & Hname). rewrite Hc.
  destruct (exprToValue (as_value s) (col_Type c)) as [v|] eqn:Ev; [|done]. cbn [rbind]. intros E.
  destruct (IH (<[ci := v]> vals) vals' Hs) as [H1 H2]; [eapply row_new_insert; [done|done|by eapply expr_new]|done|].
  split; [done|]. intros pc i Hpk Hset. cbn [sets_pk existsb] in Hset. apply orb_false_iff in Hset as [Hne Hset].
  rewrite (H2 pc i Hpk Hset). rewrite list_lookup_insert_ne; [done|]. intros ->. destruct (pkColumn_inv _ _ _ Hpk) as [Hi _].
  rewrite Hc in Hi. injection Hi as ->. apply bool_decide_eq_false in Hne. congruence.
Qed.

(** The contract's stored and updated rows are the executor's. *)
Lemma stored_row_pack vals : stored_row vals = match packRow vals with Ok _ => Some (stored <$> vals) | Err _ => None end.
Proof. unfold stored_row. pose proof (packRow_fits vals) as H. destruct (packRow vals); by rewrite H. Qed.

Lemma updated_row_apply sets vals :
  updated_row def sets vals = match apply_sets def sets vals with Ok vals => stored_row vals | Err _ => None end.
Proof. unfold updated_row. rewrite <- apply_sets_assigned. by destruct (apply_sets def sets vals). Qed.

(** An UPDATE keeps the key of a row. *)
Lemma updated_row_wf sets c i enc vals vals' :
  pkColumn def = Ok (c, i) -> sets_pk c sets = false ->
  Forall (fun s => name_plain (as_column s) /\ expr_fine (as_value s)) sets -> row_wf def enc vals ->
  apply_sets def sets vals = Ok vals' -> row_new def vals' /\ row_wf def enc (stored <$> vals').
Proof.
  intros Hpk Hset Hs [Ht Hk] E. destruct (apply_sets_new sets vals vals' Hs (row_typed_new _ _ Ht) E) as [Hr Hsame]. split; [done|].
  split; [by apply row_new_stored; [apply table|]|]. rewrite <- Hk. f_equal. specialize (Hsame c i Hpk Hset).
  unfold row_pk in Hk |- *. rewrite Hpk in Hk |- *. destruct (vals !! i) as [v|] eqn:Ev; [|done]. cbn [mbind option_bind] in Hk.
  destruct (Null v) eqn:En; [done|]. pose proof (row_pk_stored vals' c i v Hpk Hr Hsame En) as H. unfold row_pk in H. rewrite Hpk in H.
  rewrite H. cbn [mbind option_bind]. by rewrite En.
Qed.
End new_rows.

(** * The statements *)

Section data.
Context `{U : Unicode} `{J : GoJson} `{R : RecordCodec} `{C : CatalogCodec}.
Context (v : env) (db : Database) (a : adb).
Hypothesis is_ready : ready db a.
Notation k0 := (kv db).
Notation tx w := (set_writes w (fresh_tx (e_tx v) true (kv db))).
Let represents : rep db a := rd_rep _ _ is_ready.

Let run A := update_run v db a is_ready (A := A).

Section table.
Context (name : bytes) (t : atable).
Hypothesis exists_table : a_tables a !! name = Some t.
Notation def := (at_def t).
Let table : table_wf name def := table_of db a name t represents exists_table.

Lemma table_tree : exists tr, indexes db !! name = Some tr /\ tree_rep name (at_rows t) tr.
Proof.
  pose proof (mr_index _ _ (rp_mem _ _ represents) name) as H. unfold tree_of in H. rewrite exists_table in H.
  destruct (indexes db !! name) as [tr|]; [by exists tr|done].
Qed.

(** After the commit: the new rows, their tree, and a pass over the indexes. *)
Lemma rows_changed rows' tr' k' f :
  db_wf k' -> (forall enc vals, rows' !! enc = Some vals -> row_wf def enc vals) ->
  (forall enc, row_stored (now k') (rowKey name enc) (rows' !! enc)) ->
  (forall key, (forall enc, key <> rowKey name enc) -> now k' key = now k0 key) ->
  tree_rep name rows' tr' ->
  (forall si, sec_rep (si_def si) def (at_rows t) si -> idx_Table (si_def si) = name ->
     index_column_ok def (idx_Column (si_def si)) (idx_Path (si_def si)) = Ok tt ->
     exists si', f si = Some (si', None) /\ sec_rep (si_def si) def rows' si') ->
  exists secs, each_index name f (e_each v (secIndexes db)) (secIndexes db) = Some (secs, None) /\
  rep (mkDatabase k' (tables db) (<[name := tr']> (indexes db)) secs) (set_table name (set_rows t rows') a).
Proof.
  intros Hk' Hwf Hrows Hother Htr Hf.
  destruct (each_index_ok name f (fun si si' => sec_rep (si_def si) def rows' si') (e_each v) (secIndexes db)) as (secs & E & Hsecs).
  { intros i si Hsi Hm. destruct (index_of db a name t represents exists_table i si Hsi Hm) as (_ & Hs & Hc). by apply Hf. }
  exists secs. split; [done|]. split; [done| | |].
  - by apply adb_wf_rows; [|apply represents|].
  - eapply data_rep_rows; [done|apply represents|apply (ng_slash _ (tw_good _ _ table))|done|done].
  - by eapply mem_rep_rows; [|apply represents|..].
Qed.

(** ** INSERT *)

Lemma insert_refines table0 cols values :
  normalizeName table0 = name -> Forall expr_fine values ->
  answers v db a (spec_exec a (insertStmt table0 cols values)) (execInsert v table0 cols values db).
Proof.
  intros Hname Hf. unfold execInsert. cbn [spec_exec]. rewrite Hname, (mr_tables _ _ (rp_mem _ _ represents)), lookup_fmap, exists_table.
  cbn [fmap option_fmap option_map mbind option_bind].
  pose proof (insert_row_new def (tw_cols _ _ table) cols values) as Hrow0.
  assert (forall f : list Value * pkKey -> option (Z * adb), (vals ← new_row def cols values; pk ← row_pk def vals; f (vals, pk)) =
    match insert_row def cols values with Ok x => f x | Err _ => None end) as Hspec.
  { intros f. destruct (insert_row def cols values), (new_row def cols values) as [vals|]; cbn [mbind option_bind] in *; try done;
      destruct (row_pk def vals); cbn [mbind option_bind] in *; congruence. }
  rewrite (Hspec (fun x => row ← stored_row (fst x); match at_rows t !! pk_encode (snd x) with
    | Some _ => None | None => Some (1, set_table name (set_rows t (<[pk_encode (snd x) := row]> (at_rows t))) a) end)). clear Hrow0 Hspec.
  destruct (insert_row def cols values) as [[vals pk]|e] eqn:Ei; [|by apply answer_refused]. cbn [fst snd].
  destruct (insert_row_ok name def table cols values vals pk Hf Ei) as (Hnew & Hrow & Hkind).
  rewrite stored_row_pack. destruct (packRow vals) as [page|e] eqn:Ep; cbn [mbind option_bind]; [|by apply answer_refused].
  set (enc := pk_encode pk) in *. destruct (read_row db a name t represents exists_table (e_tx v) true (began (e_tx v) k0) enc) as (raw & Eg & Hraw);
    [by eapply began_same|].
  destruct (at_rows t !! enc) as [old|] eqn:Eold.
  { destruct Hraw as (r & -> & _). body_runs run (add_reads 1 (began (e_tx v) k0)) (∅ : gmap bytes operation) (@Err unit ErrSQL);
      [by rewrite Eg|by apply same_data_reads, began_same with a|apply writes_sql_empty|].
    destruct H as [-> H]. by apply answer_error. }
  rewrite Hraw in Eg.
  body_runs run (add_reads 1 (began (e_tx v) k0)) (<[rowKey name enc := mkOp (rowKey name enc) page false]> (∅ : gmap bytes operation)) (Ok tt);
    [by rewrite Eg|by apply same_data_reads, began_same with a|apply (writes_sql_insert ∅ (mkOp _ _ _)), writes_sql_empty; apply sql_key_row, (tw_good _ _ table)|].
  destruct H as [(-> & Hk' & Hnow)|([e ->] & Ho & H)]; [|by apply answer_io].
  destruct table_tree as (tr & Etr & Htr). destruct (tree_rep_put name (at_rows t) tr pk (stored <$> vals) Htr (proj1 Hkind)) as (tr' & Eput & Htr').
  cbn [set_kv indexes]. rewrite Etr. change (default newBTree (Some tr)) with tr. fold enc in Eput. rewrite Eput. cbn [mbind option_bind set_indexes set_kv secIndexes indexes kv tables].
  destruct (rows_changed (<[enc := stored <$> vals]> (at_rows t)) tr' k' (index_insert def vals pk (rowKey name enc))) as (secs & Es & Hrep'); [done| | | |done| |].
  - intros enc' vals'. rewrite lookup_insert_Some. intros [[<- <-]|[_ H]]; [done|]. by eapply row_of_table.
  - intros enc'. pose proof (dr_rows _ _ (rp_data _ _ represents) name enc' (ng_slash _ (tw_good _ _ table))) as Hd. rewrite exists_table in Hd. cbn in Hd.
    destruct (decide (enc' = enc)) as [->|Hne].
    + rewrite lookup_insert_eq. exists page. rewrite Hnow, under_insert, decide_True by done. split; [done|].
      apply unpack_pack; [by eapply row_new_ok|done].
    + rewrite lookup_insert_ne by done. eapply row_stored_ext; [|exact Hd]. rewrite Hnow, under_insert, under_empty, decide_False; [done|].
      intros [_ ?]%rowKey_inj_lemma; [done|apply table..].
  - intros key Hkey. rewrite Hnow, under_insert, under_empty, decide_False; [done|]. apply Hkey.
  - intros si Hs Ht Hc. rewrite <- Ht. eapply index_insert_ok; [done|done|done|done|done].
  - rewrite Es. by apply answer_done.
Qed.

(** ** UPDATE *)

Section update.
Context (sets : list assign).

(** An updated item, with its page in the writes [w]. *)
Definition item_updated (w : gmap bytes operation) (it : rowItem) (u : updateItem) : Prop :=
  up_pk u = ri_pk it /\ up_oldRow u = ri_values it /\ apply_sets def sets (ri_values it) = Ok (up_newRow u) /\
  exists page, packRow (up_newRow u) = Ok page /\ w !! ri_rowKey it = Some (mkOp (ri_rowKey it) page false).

Lemma update_rows_run items : forall w,
  Forall sql_key (ri_rowKey <$> items) -> NoDup (ri_rowKey <$> items) -> writes_sql w ->
  exists w' r, update_rows def sets items (tx w) = (tx w', r) /\ writes_sql w' /\
  (forall key, key ∉ ri_rowKey <$> items -> w' !! key = w !! key) /\
  match r with
  | Ok us => Forall2 (item_updated w') items us
  | Err _ => exists it, it ∈ items /\ updated_row def sets (ri_values it) = None
  end.
Proof.
  induction items as [|it items IH]; intros w Hkeys Hnd Hw; [exists w, (Ok []); split; [done|]; split; [done|]; by split|].
  cbn [fmap list_fmap] in Hnd, Hkeys. apply Forall_cons in Hkeys as [Hkey Hkeys]. apply NoDup_cons in Hnd as [Hni Hnd]. cbn [update_rows].
  assert (forall e, updated_row def sets (ri_values it) = None -> exists w' r, (tx w, @Err (list updateItem) e) = (tx w', r) /\ writes_sql w' /\
    (forall key, key ∉ ri_rowKey it :: (ri_rowKey <$> items) -> w' !! key = w !! key) /\
    match r with Ok us => Forall2 (item_updated w') (it :: items) us | Err _ => exists it', it' ∈ it :: items /\ updated_row def sets (ri_values it') = None end) as Hfail.
  { intros e He. exists w, (Err e). split; [done|]. split; [done|]. split; [done|]. exists it. split; [by left|done]. }
  rewrite updated_row_apply in Hfail. destruct (apply_sets def sets (ri_values it)) as [vals|e] eqn:Ea; cbn [rbind]; [|by apply Hfail].
  rewrite stored_row_pack in Hfail. destruct (packRow vals) as [page|e] eqn:Ep; cbn [rbind]; [|by apply Hfail]. clear Hfail. rewrite put_run.
  destruct (IH (<[ri_rowKey it := mkOp (ri_rowKey it) page false]> w)) as (w' & r & E & Hw' & Hother & Hr);
    [done|done|by apply (writes_sql_insert w (mkOp _ _ _))|]. rewrite E. exists w', (let! us := r in Ok (mkUpdate (ri_pk it) (ri_values it) vals :: us)).
  split; [done|]. split; [done|]. split.
  - intros key [Hk1 Hk2]%not_elem_of_cons. cbn [fmap list_fmap] in *. rewrite Hother by done. by rewrite lookup_insert_ne.
  - destruct r as [us|e]; cbn [rbind].
    + constructor; [|done]. split; [done|]. split; [done|]. split; [done|]. exists page. split; [done|].
      rewrite Hother by done. by rewrite lookup_insert_eq.
    + destruct Hr as (it' & Hin & H). exists it'. split; [by right|done].
Qed.

(** The contract's new rows are the executor's. *)
Lemma updates_spec w items us :
  Forall2 (item_updated w) items us ->
  omap (updated_row def sets) (list_to_map (item_image <$> items) : rows_map) = updates us /\ update_enc <$> us = item_enc <$> items.
Proof.
  induction 1 as [|it u items us (Hpk & Hold & Ha & page & Hp & _) Hl [IH1 IH2]]; [split; [apply omap_empty|done]|].
  cbn [fmap list_fmap list_to_map foldr updates]. unfold updates in *. cbn [fmap list_fmap list_to_map foldr]. split.
  - change (item_image it) with (item_enc it, ri_values it). cbn [fst snd]. assert (update_enc u = item_enc it) as -> by (unfold update_enc, item_enc; by rewrite Hpk).
    rewrite (omap_insert_Some _ _ _ _ (stored <$> up_newRow u)); [by rewrite IH1|]. by rewrite updated_row_apply, Ha, stored_row_pack, Hp.
  - rewrite IH2. unfold update_enc, item_enc. by rewrite Hpk.
Qed.

Context (ws : list pred) (items : list rowItem).
Hypothesis rows_of_where : collected name t ws items.
Hypothesis sets_ok : Forall (fun s => name_plain (as_column s) /\ expr_fine (as_value s)) sets.

Lemma row_keys_of : ri_rowKey <$> items = rowKey name <$> (item_enc <$> items).
Proof.
  destruct rows_of_where as [Hwf _]. rewrite <- list_fmap_compose. apply list_fmap_ext. intros i it Hi.
  apply (Forall_lookup_1 _ _ _ _ Hwf Hi).
Qed.

Lemma row_keys_sql : Forall sql_key (ri_rowKey <$> items).
Proof. rewrite row_keys_of. apply Forall_fmap, Forall_fmap, Forall_forall. intros it _. apply sql_key_row, (tw_good _ _ table). Qed.

Lemma row_keys_NoDup : NoDup (ri_rowKey <$> items).
Proof.
  rewrite row_keys_of. destruct (collected_map db a name t represents exists_table ws items rows_of_where) as (_ & Hnd & _).
  apply NoDup_fmap_2_strong; [|done]. intros x y _ _ [_ ?]%rowKey_inj_lemma; [done|apply table..].
Qed.

Lemma row_keys_elem enc : rowKey name enc ∈ ri_rowKey <$> items <-> enc ∈ item_enc <$> items.
Proof.
  rewrite row_keys_of, list_elem_of_fmap. split; [|by eauto]. intros (e & [_ ->]%rowKey_inj_lemma & H); [done|apply table..].
Qed.

(** The contract accepts the UPDATE exactly when every row could be made. *)
Lemma update_accepted w us :
  Forall2 (item_updated w) items us ->
  omap (updated_row def sets) (selected t ws) = updates us /\
  dom (omap (updated_row def sets) (selected t ws)) = dom (selected t ws) /\ zlen us = Z.of_nat (size (selected t ws)).
Proof.
  intros Hu. destruct (collected_map db a name t represents exists_table ws items rows_of_where) as (Hsel & _ & Hsize & _).
  destruct (updates_spec w items us Hu) as [Hm Henc]. rewrite <- Hsize. rewrite Hsel, Hm. split; [done|]. split.
  - unfold updates. rewrite !dom_list_to_map_L. f_equal. rewrite <- !list_fmap_compose. exact Henc.
  - unfold zlen. by rewrite (Forall2_length _ _ _ Hu).
Qed.

Lemma update_refused it :
  it ∈ items -> updated_row def sets (ri_values it) = None -> dom (omap (updated_row def sets) (selected t ws)) <> dom (selected t ws).
Proof.
  intros Hin Hn E. destruct rows_of_where as [_ Hp]. assert (item_image it ∈ map_to_list (selected t ws)) as Hm by (rewrite <- Hp; apply list_elem_of_fmap; by exists it).
  apply elem_of_map_to_list in Hm. assert (item_enc it ∈ dom (selected t ws)) as Hd by (by eapply elem_of_dom_2).
  rewrite <- E, elem_of_dom, lookup_omap, Hm in Hd. cbn in Hd. rewrite Hn in Hd. by destruct Hd.
Qed.

Section committed.
Context (c : ColumnDef) (i : nat) (w : gmap bytes operation) (us : list updateItem).
Hypothesis pk_column : pkColumn def = Ok (c, i).
Hypothesis keeps_pk : sets_pk c sets = false.
Hypothesis made : Forall2 (item_updated w) items us.
Hypothesis only : forall key, key ∉ ri_rowKey <$> items -> w !! key = None.

Lemma update_lookup enc :
  match updates us !! enc with
  | Some row => exists it u, it ∈ items /\ item_enc it = enc /\ item_updated w it u /\ row = stored <$> up_newRow u /\
      row_new def (up_newRow u) /\ row_wf def enc row
  | None => enc ∉ item_enc <$> items
  end.
Proof.
  destruct (updates_spec w items us made) as [_ Henc]. destruct (updates us !! enc) as [row|] eqn:E.
  - apply elem_of_list_to_map_2, list_elem_of_fmap in E as (u & [= -> ->] & Hu). apply list_elem_of_lookup in Hu as [j Hj].
    destruct (Forall2_lookup_r _ _ _ _ _ made Hj) as (it & Hit & Hiu). exists it, u. apply list_elem_of_lookup_2 in Hit as Hin.
    pose proof Hiu as (Hpk & Hold & Ha & _). assert (item_enc it = update_enc u) as Eenc by (unfold item_enc, update_enc; by rewrite Hpk).
    split; [done|]. split; [done|]. split; [done|]. split; [done|].
    destruct (collected_map db a name t represents exists_table ws items rows_of_where) as (_ & _ & _ & Hall).
    rewrite Forall_forall in Hall. destruct (Hall it Hin) as (_ & Hwf & _). rewrite <- Eenc. by eapply (updated_row_wf name def table sets c i).
  - apply not_elem_of_list_to_map_2 in E. rewrite <- list_fmap_compose in E. by rewrite <- Henc.
Qed.

Lemma update_rows_stored enc : row_stored (under w (now k0)) (rowKey name enc) ((updates us ∪ at_rows t) !! enc).
Proof.
  pose proof (update_lookup enc) as H. destruct (updates us !! enc) as [row|] eqn:E.
  - rewrite (lookup_union_Some_l _ _ _ _ E). destruct H as (it & u & Hin & <- & (_ & _ & _ & page & Hp & Hw) & -> & Hnew & _).
    exists page. destruct rows_of_where as [Hwf _]. rewrite Forall_forall in Hwf. destruct (Hwf it Hin) as [_ Hk]. unfold under. rewrite <- Hk, Hw.
    split; [done|]. apply unpack_pack; [by eapply row_new_ok|done].
  - rewrite lookup_union_r by done. pose proof (dr_rows _ _ (rp_data _ _ represents) name enc (ng_slash _ (tw_good _ _ table))) as Hd.
    rewrite exists_table in Hd. eapply row_stored_ext; [|exact Hd]. unfold under. by rewrite only by (by rewrite row_keys_elem).
Qed.

Lemma update_indexed si :
  sec_rep (si_def si) def (at_rows t) si -> idx_Table (si_def si) = name ->
  index_column_ok def (idx_Column (si_def si)) (idx_Path (si_def si)) = Ok tt ->
  exists si', index_update name def us si = Some (si', None) /\ sec_rep (si_def si) def (updates us ∪ at_rows t) si'.
Proof.
  intros Hs Htab Hc. rewrite <- Htab. destruct (collected_map db a name t represents exists_table ws items rows_of_where) as (_ & Hnd & _ & Hall).
  destruct (updates_spec w items us made) as [_ Henc]. eapply index_update_ok; [done|done|by rewrite Henc|].
  apply Forall_forall. intros u (j & Hj)%list_elem_of_lookup. destruct (Forall2_lookup_r _ _ _ _ _ made Hj) as (it & Hit & Hpk & Hold & Ha & _).
  apply list_elem_of_lookup_2 in Hit. rewrite Forall_forall in Hall. destruct (Hall it Hit) as (Hrow & Hwf & Hkind).
  unfold update_enc. rewrite Hpk, Hold. split; [done|]. split; [done|]. split; [apply row_typed_new, Hwf|].
  by eapply (updated_row_wf name def table sets c i).
Qed.

Lemma update_tree tr : tree_rep name (at_rows t) tr -> tree_rep name (updates us ∪ at_rows t) tr.
Proof.
  apply tree_has_ext. intros pk Hpk. unfold row_key_of. pose proof (update_lookup (pk_encode pk)) as H.
  destruct (updates us !! pk_encode pk) as [row|] eqn:E; [|by rewrite lookup_union_r].
  rewrite (lookup_union_Some_l _ _ _ _ E). destruct H as (it & u & Hin & Eenc & _).
  destruct (collected_map db a name t represents exists_table ws items rows_of_where) as (_ & _ & _ & Hall). rewrite Forall_forall in Hall.
  destruct (Hall it Hin) as (Hrow & _). rewrite <- Eenc. by rewrite Hrow.
Qed.
End committed.
End update.

Lemma known_table : tableDef name db = Ok def.
Proof. unfold tableDef. by rewrite (mr_tables _ _ (rp_mem _ _ represents)), lookup_fmap, exists_table. Qed.

Lemma update_refines table0 sets ws :
  normalizeName table0 = name -> Forall (fun s => name_plain (as_column s) /\ expr_fine (as_value s)) sets -> where_ok def ws ->
  answers v db a (spec_exec a (updateStmt table0 sets ws)) (execUpdate v table0 sets ws db).
Proof.
  intros Hname Hsets Hws. unfold execUpdate. cbn [spec_exec]. rewrite Hname, known_table, exists_table. cbn [mbind option_bind].
  pose proof (tw_pk _ _ table) as Hpk. destruct (pkColumn def) as [[c i]|] eqn:Epk; [|done].
  rewrite <- (sets_pk_assigns def (tw_cols _ _ table) c i) by (done || by eapply Forall_impl; [exact Hsets|intros ? []]).
  destruct (sets_pk c sets) eqn:Eset; [by apply answer_refused|].
  destruct (collectRows_ok db a name t represents exists_table (e_tx v) true v ws (began (e_tx v) k0) Hws) as (k1 & items & Ec & Hk1 & Hcol);
    [by eapply began_same|].
  destruct (update_rows_run sets items ∅ (row_keys_sql ws items Hcol) (row_keys_NoDup ws items Hcol) writes_sql_empty) as (w & r & Eu & Hw & Honly & Hr).
  body_runs run k1 w r; [unfold update_body; rewrite Ec; cbn [mbind option_bind]; change (fresh_tx (e_tx v) true k0) with (tx ∅); by rewrite Eu|done|done|].
  destruct r as [us|e].
  2:{ destruct Hr as (it & Hit & Hn). destruct H as [-> H]. rewrite bool_decide_false by (by eapply update_refused).
      by apply answer_error. }
  destruct (update_accepted sets ws items Hcol w us Hr) as (Hnew & Hdom & Hsize). rewrite bool_decide_true, Hnew by done.
  destruct H as [(-> & Hk' & Hnow)|([e ->] & Ho & H)]; [|by apply answer_io].
  assert (forall key, key ∉ ri_rowKey <$> items -> w !! key = None) as Hothers by (intros key Hkey; by rewrite Honly).
  destruct table_tree as (tr & Etr & Htr).
  destruct (rows_changed (updates us ∪ at_rows t) tr k' (index_update name def us)) as (secs & Es & Hrep'); [done| | | | | |].
  - intros enc vals. pose proof (update_lookup sets ws items Hcol Hsets c i w us Epk Eset Hr enc) as Hl.
    destruct (updates us !! enc) as [row|] eqn:E; [rewrite (lookup_union_Some_l _ _ _ _ E)|rewrite lookup_union_r by done].
    + intros [= <-]. by destruct Hl as (? & ? & _ & _ & _ & _ & _ & ?).
    + by apply (row_of_table db a name t).
  - intros enc. eapply row_stored_ext; [apply Hnow|]. by eapply update_rows_stored.
  - intros key Hkey. rewrite Hnow. unfold under. rewrite Hothers; [done|]. rewrite (row_keys_of ws items Hcol).
    intros (enc & -> & _)%list_elem_of_fmap. by apply (Hkey enc).
  - by eapply update_tree.
  - by eapply update_indexed.
  - unfold update_indexes. cbn [set_kv secIndexes]. rewrite Es. cbn [mbind option_bind finish fst snd]. rewrite Hsize.
    apply answer_done; [done|]. rewrite insert_id in Hrep' by done. exact Hrep'.
Qed.

(** ** DELETE *)

Lemma difference_remove ws items :
  collected name t ws items -> at_rows t ∖ selected t ws = remove_all (item_enc <$> items) (at_rows t).
Proof.
  intros Hcol. destruct (collected_map db a name t represents exists_table ws items Hcol) as (Hsel & _).
  apply map_eq. intros enc. rewrite lookup_remove_all, lookup_difference, Hsel. case_decide as Hin.
  - destruct (list_to_map (item_image <$> items) !! enc) eqn:E; [done|]. apply not_elem_of_list_to_map_2 in E.
    rewrite <- list_fmap_compose in E. done.
  - rewrite not_elem_of_list_to_map_1; [done|]. by rewrite <- list_fmap_compose.
Qed.

Lemma delete_refines table0 ws :
  normalizeName table0 = name -> where_ok def ws ->
  answers v db a (spec_exec a (deleteStmt table0 ws)) (execDelete v table0 ws db).
Proof.
  intros Hname Hws. unfold execDelete. cbn [spec_exec]. rewrite Hname, known_table, exists_table. cbn [mbind option_bind].
  pose proof (tw_pk _ _ table) as Hpk. destruct (pkColumn def) as [[c i]|] eqn:Epk; [|done].
  destruct (collectRows_ok db a name t represents exists_table (e_tx v) true v ws (began (e_tx v) k0) Hws) as (k1 & items & Ec & Hk1 & Hcol);
    [by eapply began_same|].
  destruct (collected_map db a name t represents exists_table ws items Hcol) as (_ & Hnd & Hsize & Hall).
  destruct (del_all_run (e_tx v) k0 (ri_rowKey <$> items) ∅ (row_keys_sql ws items Hcol) writes_sql_empty) as (w & Ed & Hw & Hu).
  body_runs run k1 w (Ok items);
    [unfold delete_body; rewrite Ec; cbn [mbind option_bind]; change (fresh_tx (e_tx v) true k0) with (tx ∅); by rewrite Ed|done|done|].
  destruct H as [(-> & Hk' & Hnow)|([e ->] & Ho & H)]; [|by apply answer_io].
  destruct table_tree as (tr & Etr & Htr).
  destruct (delete_keys_ok name (ri_pk <$> items) (at_rows t) tr Htr) as (tr' & Ek & Htr').
  { apply Forall_fmap. eapply Forall_impl; [exact Hall|]. by intros it (_ & _ & Hkind & _). }
  rewrite <- list_fmap_compose in Htr'. change (pk_encode ∘ ri_pk) with item_enc in Htr'.
  destruct (rows_changed (remove_all (item_enc <$> items) (at_rows t)) tr' k' (index_delete def items)) as (secs & Es & Hrep'); [done| | | |done| |].
  - intros enc vals. rewrite lookup_remove_all. case_decide; [done|]. by apply (row_of_table db a name t).
  - intros enc. rewrite lookup_remove_all. pose proof (row_keys_elem ws items Hcol enc) as Hke. case_decide as Hin.
    + cbn. rewrite Hnow, Hu, decide_True; [done|]. by apply Hke.
    + pose proof (dr_rows _ _ (rp_data _ _ represents) name enc (ng_slash _ (tw_good _ _ table))) as Hd. rewrite exists_table in Hd.
      eapply row_stored_ext; [|exact Hd]. rewrite Hnow, Hu, under_empty, decide_False; [done|]. by rewrite Hke.
  - intros key Hkey. rewrite Hnow, Hu, under_empty, decide_False; [done|]. rewrite (row_keys_of ws items Hcol).
    intros (enc & -> & _)%list_elem_of_fmap. by apply (Hkey enc).
  - intros si Hs Htab Hc. eapply index_delete_ok; [done|done|done|]. eapply Forall_impl; [exact Hall|].
    intros it (Hrow & Hwf & Hkind). split; [done|]. split; [done|]. apply row_typed_new, Hwf.
  - cbn [set_kv indexes]. rewrite Etr, Ek. cbn [mbind option_bind set_indexes set_kv secIndexes indexes kv tables]. rewrite Es.
    cbn [finish fst snd]. rewrite Hsize. apply answer_done; [done|]. rewrite (difference_remove ws items Hcol). exact Hrep'.
Qed.
End table.
End data.
