(* ===== verification/SqlRebuild.v ===== *)
(** Rebuilding the SQL state on open: from a store that holds the catalog and
    the rows of some tables, [rebuildSQLState] makes a database that represents
    these tables, trees and indexes included. *)

From S2P Require Import Prelude Utf8 Unicode Strconv Keys Page Row JsonBin SqlLex Wal Mvcc Compact System Durable Catalog BTree Secondary.
From S2P Require Import SqlAst SqlParse SqlParseSpec SqlBind SqlExec SqlKernel SqlBase SqlSemantics SqlState SqlIndexes SqlRows SqlFrame SqlSchema.

(** OpenWithOptions: the recovered store and its SQL state; the checkpoint
    worker it may start is in [Checkpoint].  [None] is a panic. *)
Definition OpenWithOptions `{Unicode} `{GoJson} `{RecordCodec} `{CatalogCodec} (file : bytes) : option (res Database) :=
  match Open file with
  | Err e => Some (Err e)
  | Ok k => '(db, r) ← rebuildSQLState k; Some (let! _ := r in Ok db)
  end.

Section rebuild.
Context `{U : Unicode} `{J : GoJson} `{C : CatalogCodec}.
Context (k0 : DB) (a : adb).
Hypothesis store : db_wf k0.
Hypothesis wf : adb_wf a.
Hypothesis data : data_rep (now k0) a.
Notation tx := (fresh_tx 0 false k0).

Lemma normalize_table_fix name def : table_wf name def -> normalize_table def = def.
Proof.
  intros [Hn Hg [Hc _] _ _]. destruct def as [n cols]. unfold normalize_table. cbn [tab_Name tab_Columns] in *.
  subst n. rewrite normalize_fix by done. f_equal. unfold normalizeColumns. clear Hg. induction Hc as [|c cols Hc _ IH]; [done|]. cbn [fmap list_fmap].
  rewrite IH, normalize_fix by done. by destruct c.
Qed.

Lemma normalize_index_fix i d : index_wf a i d -> normalize_index d = d.
Proof.
  intros [Hn Hg Hc _ (t & Ht & _)]. destruct d as [n tab c path]. unfold normalize_index. cbn [idx_Name idx_Table idx_Column idx_Path] in *.
  subst n. apply (aw_tables _ wf) in Ht. rewrite !normalize_fix; [done|done|apply Ht|done].
Qed.

(** What the first loop leaves for a table. *)
Definition built (name : bytes) (td : option TableDef) (tr : option btree) (rows : option (list kvPair)) : Prop :=
  exists t tr' pairs l, a_tables a !! name = Some t /\ td = Some (at_def t) /\ tr = Some tr' /\ tree_rep name (at_rows t) tr' /\
  rows = Some pairs /\ pairs_of name pairs l /\ l ≡ₚ map_to_list (at_rows t) /\ Forall (fun ev => row_wf (at_def t) (fst ev) (snd ev)) l.

Lemma rebuild_tables_ok defs : forall cache db,
  Forall (fun def => exists t, a_tables a !! tab_Name def = Some t /\ at_def t = def) defs -> same_data k0 (kv db) ->
  exists db' cache', rebuild_tables defs tx cache db = Some (db', Ok cache') /\ same_data k0 (kv db') /\ secIndexes db' = secIndexes db /\
  forall name, if decide (name ∈ tab_Name <$> defs) then built name (tables db' !! name) (indexes db' !! name) (cache' !! name)
               else tables db' !! name = tables db !! name /\ indexes db' !! name = indexes db !! name /\ cache' !! name = cache !! name.
Proof.
  induction defs as [|def defs IH]; intros cache db Hdefs Hk.
  { exists db, cache. split; [done|]. split; [done|]. split; [done|]. intros name. by rewrite decide_False by apply not_elem_of_nil. }
  apply Forall_cons in Hdefs as [(t & Ht & Hdef) Hdefs]. pose proof (aw_tables _ wf _ _ Ht) as Htw. rewrite Hdef in Htw.
  cbn [rebuild_tables]. rewrite (normalize_table_fix _ _ Htw). set (n0 := tab_Name def) in *.
  destruct (scan_rows_of k0 0 false a n0 t (kv db) wf data Ht Hk) as (k1 & pairs & l & E & Hk1 & Hl & Hp & Hr). rewrite E.
  destruct (rows_new_all (at_def t) l (at_rows t) Hp Hr) as [Hnew Hall].
  destruct (build_tree_ok n0 (at_def t) pairs l ∅ newBTree Hl Hnew (tree_rep_new n0)) as (tr & Eb & Htr). rewrite Hall in Htr.
  rewrite Eb. cbn [mbind option_bind].
  destruct (IH (<[n0 := pairs]> cache) (set_indexes (<[n0 := tr]> (indexes (mkDatabase k1 (<[n0 := def]> (tables db)) (indexes db) (secIndexes db))))
    (mkDatabase k1 (<[n0 := def]> (tables db)) (indexes db) (secIndexes db))) Hdefs) as (db' & cache' & E' & Hk' & Hsec & Hall'); [done|].
  exists db', cache'. split; [done|]. split; [done|]. split; [done|]. intros name. specialize (Hall' name). cbn [set_indexes tables indexes] in Hall'.
  cbn [fmap list_fmap]. fold n0. destruct (decide (name ∈ tab_Name <$> defs)) as [Hin|Hin]; [by rewrite decide_True by (by right)|].
  destruct Hall' as (-> & -> & ->). destruct (decide (name = n0)) as [->|Hne].
  - rewrite decide_True by (by left). rewrite !lookup_insert_eq. exists t, tr, pairs, l. by rewrite Hdef in *.
  - rewrite decide_False by (rewrite elem_of_cons; naive_solver). by rewrite !lookup_insert_ne.
Qed.

Section indexes.
Context (db0 : Database) (cache : gmap bytes (list kvPair)).
Hypothesis tables_built : forall name t, a_tables a !! name = Some t -> built name (tables db0 !! name) (indexes db0 !! name) (cache !! name).

Lemma rebuild_indexes_ok defs : forall db,
  Forall (fun d => a_idx a !! idx_Name d = Some d) defs -> NoDup (idx_Name <$> defs) -> tables db = tables db0 ->
  exists secs, rebuild_indexes defs cache db = Some (set_secs secs db, Ok tt) /\
  forall i, if decide (i ∈ idx_Name <$> defs) then sec_of a (a_idx a !! i) (secs !! i) else secs !! i = secIndexes db !! i.
Proof.
  induction defs as [|d defs IH]; intros db Hdefs Hnd Htab.
  { exists (secIndexes db). split; [by destruct db|]. intros i. by rewrite decide_False by apply not_elem_of_nil. }
  apply Forall_cons in Hdefs as [Hd Hdefs]. cbn [fmap list_fmap] in Hnd. apply NoDup_cons in Hnd as [Hni Hnd].
  pose proof (aw_idx _ wf _ _ Hd) as Hiw. cbn [rebuild_indexes]. rewrite (normalize_index_fix _ _ Hiw).
  destruct (iw_table _ _ _ Hiw) as (t & Ht & Hc).
  destruct (tables_built _ _ Ht) as (t' & tr & pairs & l & Ht' & Etd & _ & _ & Erows & Hl & Hp & Hr). rewrite Ht in Ht'. injection Ht' as <-.
  rewrite Htab, Etd. destruct (index_column_inv (at_def t) (newSecondaryIdx d) Hc) as (ci & c & Eci & _). cbn [newSecondaryIdx si_def] in Eci.
  rewrite Eci, Erows. change (default [] (Some pairs)) with pairs. destruct (rows_new_all (at_def t) l (at_rows t) Hp Hr) as [Hnew Hall].
  destruct (build_index_ok (idx_Table d) (at_def t) d pairs l ∅ (newSecondaryIdx d) Hc eq_refl Hl Hnew (sec_rep_new d (at_def t))) as (si & Eb & Hsi).
  rewrite Hall in Hsi. rewrite Eb. cbn [mbind option_bind].
  destruct (IH (set_secs (<[idx_Name d := si]> (secIndexes db)) db) Hdefs Hnd Htab) as (secs & E & Hsecs). exists secs. split; [exact E|].
  intros i. specialize (Hsecs i). cbn [fmap list_fmap set_secs secIndexes] in *. destruct (decide (i ∈ idx_Name <$> defs)) as [Hin|Hin].
  - by rewrite decide_True by (by right).
  - destruct (decide (i = idx_Name d)) as [->|Hne].
    + rewrite decide_True by (by left). rewrite Hsecs, lookup_insert_eq, Hd. by exists t.
    + rewrite decide_False by (rewrite elem_of_cons; naive_solver). by rewrite Hsecs, lookup_insert_ne.
Qed.
End indexes.

(** The catalog as the rebuild reads it. *)
Lemma tables_listed k : same_data k0 k -> exists k' l, listTableDefs tx k = (k', Ok (snd <$> l)) /\ same_data k0 k' /\
  l ≡ₚ map_to_list (at_def <$> a_tables a).
Proof.
  intros Hk. destruct (scan_all k0 0 false k catalogTablePrefix Hk) as (k' & pairs & E & Hk' & Hs & Hin).
  destruct (catalog_scan catalogTableKey marshalTable unmarshalTable (at_def <$> a_tables a) catalogTablePrefix (now k0) pairs) as (l & Hd & Hl);
    [apply catalogTableKey_prefix|apply catalogTableKey_inj| | |done|done|].
  - intros name. rewrite (dr_tables _ _ data), lookup_fmap. by destruct (a_tables a !! name).
  - intros name def. rewrite lookup_fmap. destruct (a_tables a !! name) as [t|] eqn:Et; [|done]. intros [= <-].
    apply unmarshal_marshalTable. eapply table_storable, (aw_tables _ wf), Et.
  - unfold listTableDefs. rewrite E, Hd. by exists k', l.
Qed.

Lemma indexes_listed k : same_data k0 k -> exists k' l, listIndexDefs tx k = (k', Ok (snd <$> l)) /\ same_data k0 k' /\ l ≡ₚ map_to_list (a_idx a).
Proof.
  intros Hk. destruct (scan_all k0 0 false k catalogIndexPrefix Hk) as (k' & pairs & E & Hk' & Hs & Hin).
  destruct (catalog_scan catalogIndexKey marshalIndex unmarshalIndex (a_idx a) catalogIndexPrefix (now k0) pairs) as (l & Hd & Hl);
    [apply catalogIndexKey_prefix|apply catalogIndexKey_inj|exact (dr_idx _ _ data)| |done|done|].
  - intros i d Hd. apply unmarshal_marshalIndex. eapply index_storable; [done|]. by apply (aw_idx _ wf).
  - unfold listIndexDefs. rewrite E, Hd. by exists k', l.
Qed.

Lemma listed_tables l :
  l ≡ₚ map_to_list (at_def <$> a_tables a) ->
  Forall (fun def => exists t, a_tables a !! tab_Name def = Some t /\ at_def t = def) (snd <$> l) /\
  forall name, name ∈ tab_Name <$> (snd <$> l) <-> is_Some (a_tables a !! name).
Proof.
  intros Hl. assert (forall name def, (name, def) ∈ l <-> exists t, a_tables a !! name = Some t /\ at_def t = def) as Hin.
  { intros name def. rewrite Hl, elem_of_map_to_list, lookup_fmap. destruct (a_tables a !! name); cbn; naive_solver. }
  split.
  - apply Forall_forall. intros def ([n d] & -> & (t & Ht & Hd)%Hin)%list_elem_of_fmap. cbn [snd]. exists t. split; [|done].
    by rewrite <- Hd, (tw_name _ _ (aw_tables _ wf _ _ Ht)).
  - intros name. rewrite list_elem_of_fmap. split.
    + intros (def & -> & ([n d] & -> & (t & Ht & Hd)%Hin)%list_elem_of_fmap). cbn [snd].
      rewrite <- Hd, (tw_name _ _ (aw_tables _ wf _ _ Ht)). by exists t.
    + intros [t Ht]. exists (at_def t). split; [by rewrite (tw_name _ _ (aw_tables _ wf _ _ Ht))|].
      apply list_elem_of_fmap. exists (name, at_def t). split; [done|]. apply Hin. by exists t.
Qed.

Lemma listed_indexes l :
  l ≡ₚ map_to_list (a_idx a) ->
  Forall (fun d => a_idx a !! idx_Name d = Some d) (snd <$> l) /\ NoDup (idx_Name <$> (snd <$> l)) /\
  forall i d, a_idx a !! i = Some d -> i ∈ idx_Name <$> (snd <$> l).
Proof.
  intros Hl. assert (forall i d, (i, d) ∈ l <-> a_idx a !! i = Some d) as Hin by (intros i d; by rewrite Hl, elem_of_map_to_list).
  assert (forall i d, a_idx a !! i = Some d -> idx_Name d = i) as Hname by (intros i d H; apply (aw_idx _ wf _ _ H)).
  assert (idx_Name <$> (snd <$> l) = fst <$> l) as Hfst.
  { rewrite <- list_fmap_compose. apply list_fmap_ext. intros j [i d] Hj%list_elem_of_lookup_2. cbn. by apply Hname, Hin. }
  split; [|rewrite Hfst; split; [rewrite Hl; apply NoDup_fst_map_to_list|]].
  - apply Forall_forall. intros d ([i d'] & -> & H%Hin)%list_elem_of_fmap. cbn [snd]. by rewrite (Hname _ _ H).
  - intros i d H. apply list_elem_of_fmap. exists (i, d). split; [done|]. by apply Hin.
Qed.

Lemma rebuild_ok : exists db, rebuildSQLState k0 = Some (db, Ok tt) /\ same_data k0 (kv db) /\ rep db a.
Proof.
  unfold rebuildSQLState. change (mkTx 0 (db_version k0) false ∅ false) with tx.
  destruct (tables_listed k0 (same_data_refl k0 store)) as (k1 & l & -> & Hk1 & Hl). destruct (listed_tables l Hl) as [Hdefs Hnames].
  destruct (rebuild_tables_ok (snd <$> l) ∅ (mkDatabase k1 ∅ ∅ ∅) Hdefs Hk1) as (db1 & cache & -> & Hkv1 & Hsec1 & Hb).
  cbn [mbind option_bind tables indexes] in *. destruct (indexes_listed (kv db1) Hkv1) as (k2 & li & -> & Hk2 & Hli).
  destruct (listed_indexes li Hli) as (Hi1 & Hi2 & Hi3).
  assert (forall name t, a_tables a !! name = Some t -> built name (tables db1 !! name) (indexes db1 !! name) (cache !! name)) as Hbuilt.
  { intros name t Ht. specialize (Hb name). rewrite decide_True in Hb; [done|]. apply Hnames. by exists t. }
  assert (forall name, a_tables a !! name = None -> tables db1 !! name = None /\ indexes db1 !! name = None) as Hmissing.
  { intros name Ht. specialize (Hb name). rewrite decide_False in Hb by (rewrite Hnames, Ht; by intros [? ?]). destruct Hb as (-> & -> & _). by rewrite !lookup_empty. }
  destruct (rebuild_indexes_ok db1 cache Hbuilt (snd <$> li) (set_kv k2 db1) Hi1 Hi2 eq_refl) as (secs & -> & Hsecs).
  eexists. split; [done|]. split; [exact Hk2|]. split; [by eapply same_data_wf|done|eapply data_rep_ext; [|exact data]; intros key; by apply same_data_now|].
  split; cbn [set_secs set_kv tables indexes secIndexes].
  - apply map_eq. intros name. rewrite lookup_fmap. destruct (a_tables a !! name) as [t|] eqn:Et; [|by destruct (Hmissing name Et) as [-> _]].
    destruct (Hbuilt name t Et) as (t' & ? & ? & ? & Ht' & -> & _). rewrite Et in Ht'. by injection Ht' as <-.
  - intros name. unfold tree_of. destruct (a_tables a !! name) as [t|] eqn:Et; [|by destruct (Hmissing name Et) as [_ ->]].
    destruct (Hbuilt name t Et) as (t' & tr & ? & ? & Ht' & _ & -> & Htr & _). rewrite Et in Ht'. by injection Ht' as <-.
  - intros i. specialize (Hsecs i). destruct (decide (i ∈ _)) as [|Hni]; [done|]. rewrite Hsecs. cbn [set_kv secIndexes]. rewrite Hsec1. cbn [secIndexes].
    rewrite lookup_empty. destruct (a_idx a !! i) as [d|] eqn:Ed; [|done]. exfalso. by eapply Hni, Hi3.
Qed.
End rebuild.
