(* ===== verification/SqlRefine.v ===== *)
(** The SQL layer implements its contract: every statement, every sequence of
    statements from an empty database, every query, and a restart. *)

From S2P Require Import Prelude Utf8 Unicode Strconv Keys Page Row JsonBin SqlLex Wal Mvcc Compact System Durable Catalog BTree Secondary.
From S2P Require Import SqlAst SqlParse SqlParseSpec SqlBind SqlExec SqlKernel SqlBase SqlSemantics SqlState SqlIndexes SqlRows SqlFrame SqlSchema SqlData SqlRebuild.

Section refinement.
Context `{U : Unicode} `{J : GoJson} `{R : RecordCodec} `{C : CatalogCodec}.

(** * Statements *)

Lemma stmt_answers v st db a :
  ready db a -> stmt_ok a st -> answers v db a (spec_exec a st) (exec_stmt v st db).
Proof.
  intros Hrd Hok. pose proof (rd_rep _ _ Hrd) as Hrep.
  assert (forall table, a_tables a !! normalizeName table = None -> tables db !! normalizeName table = None) as Hno.
  { intros table H. by rewrite (mr_tables _ _ (rp_mem _ _ Hrep)), lookup_fmap, H. }
  destruct st as [name cols|name|table cols values|table items ws|table sets ws|table ws|index table column path|index]; cbn [exec_stmt].
  - by apply create_refines.
  - by apply drop_refines.
  - destruct (a_tables a !! normalizeName table) as [t|] eqn:Et; [by eapply insert_refines|].
    unfold execInsert. cbn [spec_exec]. rewrite Et, Hno by done. by apply answer_refused.
  - by apply answer_refused.
  - destruct Hok as [Hs Hw]. destruct (a_tables a !! normalizeName table) as [t|] eqn:Et; [eapply update_refines; eauto|].
    unfold execUpdate, tableDef. cbn [spec_exec]. rewrite Et, Hno by done. by apply answer_refused.
  - destruct (a_tables a !! normalizeName table) as [t|] eqn:Et; [eapply delete_refines; eauto|].
    unfold execDelete, tableDef. cbn [spec_exec]. rewrite Et, Hno by done. by apply answer_refused.
  - by apply create_index_refines.
  - by apply drop_index_refines.
Qed.

(** C5.  A statement does what the contract says.  On an open database that
    represents some tables and whose version is below 2^64 - 1, for a statement that is [stmt_ok]: it never panics; if
    the contract refuses it, it returns an error and the tables are as before;
    otherwise it reports the contract's number of rows and the database represents
    the contract's tables, rows, primary-key trees and secondary indexes included,
    unless the log could not be written, when it returns an error and the tables are
    as before.  The contract is stated with the meanings of [SqlSemantics].
    [stmt_ok] asks that the names in CREATE TABLE, CREATE INDEX and SET are ASCII
    and the columns of a new table have different names; that values written hold no
    NUL byte and JSON values extract along every path; that paths in conditions are
    valid and compared with NULL, an integer or a text; and that a condition of a single
    comparison compares with a value of the column's type that is neither NULL nor
    holds a NUL byte (C33 and C34 show what happens otherwise). *)
Theorem exec_refines_contract v st db a :
  ready db a -> stmt_ok a st ->
  exists db' r, exec_stmt v st db = Some (db', r) /\
  match spec_exec a st with
  | Some (n, a') => (r = Ok (mkResult n) /\ rep db' a') \/ ((exists e, r = Err e) /\ e_io v <> IoOk /\ rep db' a)
  | None => (exists e, r = Err e) /\ rep db' a
  end.
Proof. intros Hrd Hok. destruct (stmt_answers v st db a Hrd Hok) as (db' & r & E & _ & H). by exists db', r. Qed.

(** * Sequences of statements *)

Fixpoint exec_all (l : list (env * stmt)) (db : Database) : option (Database * list (res Result)) :=
  match l with
  | [] => Some (db, [])
  | (v, st) :: l =>
      '(db, r) ← exec_stmt v st db;
      '(db, rs) ← exec_all l db;
      Some (db, r :: rs)
  end.

(** One step of the contract: the statement is done, or refused, or lost to the log. *)
Inductive spec_step (a : adb) (v : env) (st : stmt) : res Result -> adb -> Prop :=
  | step_done n a' : spec_exec a st = Some (n, a') -> spec_step a v st (Ok (mkResult n)) a'
  | step_refused e : spec_exec a st = None -> spec_step a v st (Err e) a
  | step_lost e : e_io v <> IoOk -> spec_step a v st (Err e) a.

Inductive spec_steps : adb -> list (env * stmt) -> list (res Result) -> adb -> Prop :=
  | steps_nil a : spec_steps a [] [] a
  | steps_cons a v st l r rs a' a'' :
      spec_step a v st r a' -> spec_steps a' l rs a'' -> spec_steps a ((v, st) :: l) (r :: rs) a''.

(** Every statement is one the contract covers, in whatever state it meets. *)
Fixpoint stmts_ok (a : adb) (l : list (env * stmt)) : Prop :=
  match l with
  | [] => True
  | (v, st) :: l => stmt_ok a st /\ forall r a', spec_step a v st r a' -> stmts_ok a' l
  end.

Definition empty_database (file : bytes) : Database := mkDatabase (empty_db file) ∅ ∅ ∅.
Definition no_tables : adb := mkADB ∅ ∅.

Lemma rep_empty file : rep (empty_database file) no_tables.
Proof.
  assert (forall key, now (empty_db file) key = None) as Hn by done.
  split; [apply db_wf_empty| | |].
  - split; [intros name t|intros name t enc vals|intros i d]; cbn; by rewrite lookup_empty.
  - split; [intros name|intros i|intros name enc _]; rewrite ?Hn; cbn [no_tables a_tables a_idx]; rewrite ?lookup_empty; done.
  - split; [done|intros name|intros i]; cbn; by rewrite !lookup_empty.
Qed.

Lemma stmts_refine l : forall db a,
  rep db a -> db_closed (kv db) = false -> db_version (kv db) + zlen l < 2 ^ 64 -> stmts_ok a l ->
  exists db' rs a', exec_all l db = Some (db', rs) /\ spec_steps a l rs a' /\ rep db' a' /\
  (Forall (fun vs => e_io (fst vs) = IoOk) l -> logged IoOk (kv db) (kv db')).
Proof.
  induction l as [|[v st] l IH]; intros db a Hrep Hc Hv Hok.
  { exists db, [], a. split; [done|]. split; [constructor|]. split; [done|]. intros _. apply logged_same, same_data_refl, (rp_kv _ _ Hrep). }
  rewrite zlen_cons in Hv. pose proof (zlen_nonneg l). destruct Hok as [Hst Hok].
  destruct (stmt_answers v st db a) as (db1 & r & E & [Hc1 Hv1 Hl1 _] & H1); [split; [done|done|lia]|done|].
  assert (exists a1, spec_step a v st r a1 /\ rep db1 a1) as (a1 & Hstep & Hrep1).
  { unfold outcome in H1. destruct (spec_exec a st) as [[n a1]|] eqn:Es.
    - destruct H1 as [[-> Hr]|([e ->] & Ho & Hr)]; [exists a1; split; [by constructor|done]|exists a; split; [by constructor|done]].
    - destruct H1 as [[e ->] Hr]. exists a. split; [by constructor|done]. }
  destruct (IH db1 a1 Hrep1 Hc1 ltac:(lia) (Hok r a1 Hstep)) as (db' & rs & a' & E' & Hs & Hr & Hl).
  exists db', (r :: rs), a'. cbn [exec_all]. rewrite E. cbn [mbind option_bind]. rewrite E'. cbn [mbind option_bind].
  split; [done|]. split; [by econstructor|]. split; [done|]. intros [Ho Hall]%Forall_cons. cbn [fst] in Ho. rewrite Ho in Hl1.
  eapply logged_trans; [exact Hl1|by apply Hl].
Qed.

(** C6.  From an empty database, a sequence of fewer than 2^64 statements, each
    [stmt_ok] (as in C5) in the tables it meets, runs one at a time without a panic,
    returns results the contract allows, and ends in a database that represents the
    contract's tables.  Log writes may fail at any statement. *)
Theorem history_refines_contract file l :
  zlen l < 2 ^ 64 -> stmts_ok no_tables l ->
  exists db rs a, exec_all l (empty_database file) = Some (db, rs) /\ spec_steps no_tables l rs a /\ rep db a.
Proof.
  intros Hl Hok. destruct (stmts_refine l (empty_database file) no_tables) as (db & rs & a & E & Hs & Hr & _); [apply rep_empty|done| |done|by exists db, rs, a].
  cbn [empty_database kv empty_db db_version]. lia.
Qed.

(** C11.  Stored rows are well typed: after a sequence of fewer than 2^64
    statements from an empty database, each [stmt_ok] (as in C5) in the tables it
    meets, every row in the store under an existing table decodes, has one value
    per column, each NULL or of the column's declared type, and lies under the key
    that encodes its primary key, which is not NULL. *)
Theorem stored_rows_well_typed file l db rs name def enc raw :
  zlen l < 2 ^ 64 -> stmts_ok no_tables l -> exec_all l (empty_database file) = Some (db, rs) ->
  tables db !! name = Some def -> now (kv db) (rowKey name enc) = Some raw ->
  exists vals, unpackRow raw = Some (Ok vals) /\
  Forall2 (fun c v => Null v = true \/ Typ v = col_Type c) (tab_Columns def) vals /\
  pk_encode <$> row_pk def vals = Some enc.
Proof.
  intros Hl Hok Hrun Hdef Hraw.
  destruct (stmts_refine l (empty_database file) no_tables) as (db0 & rs0 & a & E & _ & Hrep & _); [apply rep_empty|done|cbn; lia|done|].
  simplify_eq. rewrite (mr_tables _ _ (rp_mem _ _ Hrep)), lookup_fmap in Hdef.
  destruct (a_tables a !! name) as [t|] eqn:Et; [|done]. injection Hdef as <-.
  pose proof (tw_good _ _ (aw_tables _ (rp_wf _ _ Hrep) name t Et)) as Hg.
  pose proof (dr_rows _ _ (rp_data _ _ Hrep) name enc (ng_slash _ Hg)) as Hrow. rewrite Et in Hrow. cbn [mbind option_bind] in Hrow.
  destruct (at_rows t !! enc) as [vals|] eqn:Er; cbn [row_stored] in Hrow; [|congruence].
  destruct Hrow as (raw' & E' & Hu). simplify_eq. destruct (aw_rows _ (rp_wf _ _ Hrep) name t enc vals Et Er) as [Hty Hpk].
  exists vals. split; [done|]. split; [|done]. eapply Forall2_impl; [done|]. by intros c v [? _].
Qed.

(** * Closed databases *)

(** A closed database executes nothing: every statement returns an error and
    leaves the database, maps included, exactly as it was. *)
Theorem closed_refuses_statements v st db :
  db_closed (kv db) = true -> exists e, exec_stmt v st db = Some (db, Err e).
Proof.
  intros Hc. assert (set_kv (kv db) db = db) as Hkv by (by destruct db).
  destruct st; cbn [exec_stmt]; unfold execCreate, execDrop, execInsert, execUpdate, execDelete, execCreateIndex, execDropIndex, tableDef;
    repeat first [rewrite Update_closed by done; cbn [mbind option_bind]; rewrite Hkv|rewrite View_closed by done; cbn [mbind option_bind]; rewrite Hkv
      |case_match]; eauto.
Qed.

(** * Queries *)

(** Loops that neither panic nor fail. *)
Lemma map_panic_all {A B} (f : A -> option (res B)) (g : A -> B) l : Forall (fun x => f x = Some (Ok (g x))) l -> map_panic f l = Some (Ok (g <$> l)).
Proof. induction 1 as [|x l Hx _ IH]; [done|]. cbn [map_panic]. rewrite Hx. cbn [mbind option_bind]. by rewrite IH. Qed.

(** The rows of a table can be shown. *)
Lemma row_readable def enc vals it : row_wf def enc vals -> item_shape it -> item_readable vals it.
Proof.
  intros [Ht _] Hs. destruct it as [|c|c path]; [done..|]. intros v (i & Hi)%list_elem_of_lookup Hn Hj.
  destruct (Forall2_lookup_r _ _ _ _ _ Ht Hi) as (col & _ & _ & _ & _ & Hf). by apply extract_ok.
Qed.

Lemma query_projs def items :
  if items_known def items then exists ps, select_projs def items = Ok ps /\ proj_name <$> ps = result_columns def items /\
    forall enc vals, row_wf def enc vals -> Forall item_shape items -> map_panic (fun p => project p vals) ps = Some (Ok (result_row def items vals))
  else exists e, select_projs def items = Err e.
Proof.
  pose proof (select_projs_known def ((fun c => nullOf (col_Type c)) <$> tab_Columns def) ltac:(apply length_fmap) items) as H.
  destruct (items_known def items) eqn:Ek; [|done]. destruct H as (ps & Hp & Hn & _). exists ps. split; [done|]. split; [done|]. intros enc vals Hr Hs.
  pose proof (select_projs_known def vals (eq_sym (Forall2_length _ _ _ (rw_types _ _ _ Hr))) items) as H. rewrite Ek in H. destruct H as (ps' & Hp' & _ & Hv).
  rewrite Hp in Hp'. injection Hp' as <-. apply Hv. eapply Forall_impl; [exact Hs|]. intros it. by eapply row_readable.
Qed.

(** SELECT, as the cursor over its rows shows it. *)
Lemma select_exact v table items ws db a t :
  rep db a -> db_closed (kv db) = false -> a_tables a !! normalizeName table = Some t ->
  where_ok (at_def t) ws -> Forall item_shape items -> items_known (at_def t) items = true ->
  exists k' l, execSelect v table items ws db =
    Some (set_kv k' db, Ok (mkRows (result_columns (at_def t) items) (result_row (at_def t) items <$> l) (-1) false)) /\ same_data (kv db) k' /\
  l ≡ₚ (map_to_list (selected t ws)).*2.
Proof.
  intros Hrep Hc Ht Hw Hit Hkn. pose proof (query_projs (at_def t) items) as Hq. rewrite Hkn in Hq. destruct Hq as (projs & Hp & Hnames & Hrow).
  unfold execSelect, tableDef. rewrite (mr_tables _ _ (rp_mem _ _ Hrep)), lookup_fmap, Ht. cbn [fmap option_fmap option_map]. rewrite Hp.
  pose proof (rp_kv _ _ Hrep) as Hk. set (k0 := kv db) in *.
  destruct (collectRows_ok db a (normalizeName table) t Hrep Ht (e_tx v) false v ws (began (e_tx v) k0) Hw) as (k1 & its & Ec & Hk1 & Hcol);
    [by apply same_data_began|].
  destruct (collected_map db a _ t Hrep Ht ws its Hcol) as (_ & _ & _ & Hall).
  pose proof (map_panic_all (fun it => map_panic (fun p => project p (ri_values it)) projs) (result_row (at_def t) items ∘ ri_values) its) as Ed.
  rewrite (list_fmap_compose ri_values (result_row (at_def t) items) its) in Ed.
  destruct (View_run (e_tx v) (select_body v db (at_def t) projs ws) k0 k1 (fresh_tx (e_tx v) false k0) (Ok (result_row (at_def t) items <$> (ri_values <$> its)))) as (k' & E & Hk');
    [done|done| |done|].
  { unfold select_body. fold k0 in Ec. rewrite Ec. cbn [mbind option_bind]. rewrite Ed; [done|].
    eapply Forall_impl; [exact Hall|]. intros it (_ & Hwf & _). by eapply Hrow. }
  fold k0. rewrite E. cbn [mbind option_bind rbind]. rewrite Hnames. exists k', (ri_values <$> its). split; [done|]. split; [done|].
  destruct Hcol as [_ Hperm]. rewrite <- Hperm, <- list_fmap_compose. done.
Qed.

(** SELECT of a table or a column that does not exist. *)
Lemma select_unknown v table items ws db a :
  rep db a -> (forall t, a_tables a !! normalizeName table = Some t -> items_known (at_def t) items = false) ->
  exists e, execSelect v table items ws db = Some (db, Err e).
Proof.
  intros Hrep Hu. unfold execSelect, tableDef. rewrite (mr_tables _ _ (rp_mem _ _ Hrep)), lookup_fmap.
  destruct (a_tables a !! normalizeName table) as [t|] eqn:Et; [|by eexists]. cbn [fmap option_fmap option_map].
  pose proof (query_projs (at_def t) items) as Hq. rewrite (Hu t eq_refl) in Hq. destruct Hq as [e ->]. by exists e.
Qed.

(** C7.  A query returns exactly the rows its condition means: on an open
    database that represents some tables, SELECT over an existing table with known
    columns returns, each once, the result rows of precisely the rows that satisfy
    the condition, whichever index answers it, under the titles of its items; with
    an unknown table or column it returns an error; in both cases it changes
    nothing.  What a condition and an item mean is defined in [SqlSemantics], apart
    from the executor.  The paths of the items are those the parser accepts, and
    [where_ok] restricts the condition: the paths in it are valid and compared with
    NULL, an integer or a text, and a condition that is a single comparison
    compares with a value of the column's type that is neither NULL nor holds a NUL
    byte. *)
Theorem query_exact v table items ws db a :
  rep db a -> db_closed (kv db) = false -> Forall item_shape items ->
  (forall t, a_tables a !! normalizeName table = Some t -> where_ok (at_def t) ws) ->
  exists db' r, execSelect v table items ws db = Some (db', r) /\ rep db' a /\
  match a_tables a !! normalizeName table with
  | Some t =>
      if items_known (at_def t) items then
        exists rows l, r = Ok rows /\ Columns rows = result_columns (at_def t) items /\
        r_data rows = result_row (at_def t) items <$> l /\ l ≡ₚ (map_to_list (selected t ws)).*2
      else exists e, r = Err e
  | None => exists e, r = Err e
  end.
Proof.
  intros Hrep Hc Hit Hw. destruct (a_tables a !! normalizeName table) as [t|] eqn:Et.
  - destruct (items_known (at_def t) items) eqn:Ek.
    + destruct (select_exact v table items ws db a t Hrep Hc Et (Hw t eq_refl) Hit Ek) as (k' & l & E & Hs & Hl).
      eexists _, _. split; [exact E|]. split; [by apply rep_same|]. eexists _, l. done.
    + destruct (select_unknown v table items ws db a Hrep) as [e E]; [by intros t' [= <-]%(eq_trans (eq_sym Et))|].
      eexists _, _. split; [exact E|]. split; [done|by exists e].
  - destruct (select_unknown v table items ws db a Hrep) as [e E]; [by intros t' ?%(eq_trans (eq_sym Et))|].
    eexists _, _. split; [exact E|]. split; [done|by exists e].
Qed.

(** * Restart *)

(** Opening an intact log rebuilds the tables it represents. *)
Lemma reopen_rep db a :
  rep db a -> durable (kv db) ->
  exists db', OpenWithOptions (db_file (kv db)) = Some (Ok db') /\ rep db' a /\ db_closed (kv db') = false.
Proof.
  intros Hrep (rs & Ef & Hlog). pose proof (rp_kv _ _ Hrep) as Hk.
  unfold OpenWithOptions. rewrite Ef, Open_wal_file by apply (lo_frames _ _ Hlog).
  destruct (rebuild_ok (reopened rs) a) as (db' & -> & Hs & Hrep').
  - by eapply db_wf_reopened.
  - apply Hrep.
  - eapply data_rep_ext; [|apply Hrep]. intros key. by apply committed_reopened.
  - exists db'. split; [done|]. split; [done|]. rewrite (sd_closed _ _ Hs). unfold reopened. cbn [set_file db_closed].
    generalize (empty_db (wal_file rs)) (eq_refl : db_closed (empty_db (wal_file rs)) = false). clear. induction rs as [|r rs IH]; intros k Hc; [done|].
    cbn [foldl flip]. apply IH. by rewrite closed_apply.
Qed.

Lemma durable_empty : durable (empty_db walHeader).
Proof. exists []. split; [done|]. split; [constructor|done|constructor|done]. Qed.

(** C8.  Tables survive a restart: after a sequence of fewer than 2^64 statements
    on a new database, each [stmt_ok] (as in C5) in the tables it meets and all of
    whose log writes succeed, while the log is no longer than the longest record it
    can hold (64 MiB), opening the file again succeeds without a panic and gives
    an open database that represents the contract's tables, with all trees and
    indexes rebuilt from the rows. *)
Theorem restart_preserves_tables l db rs :
  zlen l < 2 ^ 64 -> stmts_ok no_tables l -> Forall (fun vs => e_io (fst vs) = IoOk) l ->
  exec_all l (empty_database walHeader) = Some (db, rs) -> zlen (db_file (kv db)) <= maxRecordSize ->
  exists a db', spec_steps no_tables l rs a /\ rep db a /\
  OpenWithOptions (db_file (kv db)) = Some (Ok db') /\ rep db' a /\ db_closed (kv db') = false.
Proof.
  intros Hl Hok Hio Hrun Hsize.
  destruct (stmts_refine l (empty_database walHeader) no_tables) as (db0 & rs0 & a & E & Hs & Hrep & Hlog); [apply rep_empty|done|cbn; lia|done|].
  simplify_eq. destruct (Hlog Hio eq_refl) as [_ Hd]. destruct (reopen_rep db a Hrep) as (db' & Ho & Hr & Hc); [by apply Hd, durable_empty|].
  exists a, db'. done.
Qed.

End refinement.
