(* ===== verification/Server.v ===== *)
(** The HTTP interface (server.go): Handler, with the part of net/http it relies
    on, namely the selection of a handler by ServeMux, the cleaning of paths and the limit on bodies.
    A request is answered by one step on the database; JSON bodies are kept as
    the values they encode, and the decoding of a statement's JSON is an interface. *)

From S2P Require Import Prelude Utf8 Unicode Strconv Keys Page Row JsonBin SqlLex Wal Mvcc Compact Catalog BTree Secondary.
From S2P Require Import SqlAst SqlParse SqlBind SqlExec.

(** * Requests and responses *)

(** [rq_path] is the path as sent, percent-escapes included.  [rq_fails]: reading
    the body breaks off after [rq_body]. *)
Record request := mkRequest { rq_method : bytes; rq_path : bytes; rq_body : bytes; rq_fails : bool }.

(** The values written as JSON; a nil slice of rows is [None]. *)
Inductive json_value :=
  | JHealth
  | JMetrics (m : Metrics)
  | JRows (columns : list bytes) (rows : option (list (list scanned)))
  | JAffected (n : Z).

Inductive payload :=
  | PNone
  | PText (s : bytes)
  | PError (e : error)
  | PValue (b : bytes)
  | PJson (j : json_value).

Record response := mkResponse { rs_status : Z; rs_allow : option bytes; rs_body : payload }.

Definition StatusOK : Z := 200.
Definition StatusNoContent : Z := 204.
Definition StatusMovedPermanently : Z := 301.
Definition StatusBadRequest : Z := 400.
Definition StatusNotFound : Z := 404.
Definition StatusMethodNotAllowed : Z := 405.
Definition StatusConflict : Z := 409.
Definition StatusInternalServerError : Z := 500.

(** http.Error, with a text or an error's. *)
Definition httpError (text : bytes) (status : Z) : response := mkResponse status None (PText text).
Definition httpErr (e : error) (status : Z) : response := mkResponse status None (PError e).
Definition notAllowed (allow : bytes) : response :=
  mkResponse StatusMethodNotAllowed (Some allow) (PText (lit "method not allowed")).
Definition noContent : response := mkResponse StatusNoContent None PNone.

Definition writeJSON (status : Z) (j : json_value) : response := mkResponse status None (PJson j).

Definition writeSQLErr (e : error) : response :=
  if bool_decide (e = ErrConflict) then httpErr e StatusConflict else httpErr e StatusBadRequest.

(** * Paths *)

Definition slash : byte := byte_of 47.

Fixpoint segments (s : bytes) : list bytes :=
  match s with
  | [] => [[]]
  | b :: s =>
      if bool_decide (b = slash) then [] :: segments s
      else match segments s with
           | g :: gs => (b :: g) :: gs
           | [] => [[b]]
           end
  end.

Fixpoint join_segments (gs : list bytes) : bytes :=
  match gs with
  | [] => []
  | [g] => g
  | g :: gs => g ++ slash :: join_segments gs
  end.

(** path.Clean of a rooted path. *)
Definition clean_segment (out : list bytes) (g : bytes) : list bytes :=
  if bool_decide (g = [] \/ g = lit ".") then out
  else if bool_decide (g = lit "..") then take (length out - 1) out
  else out ++ [g].

Definition pathClean (p : bytes) : bytes := slash :: join_segments (foldl clean_segment [] (segments p)).

(** ServeMux's cleanPath. *)
Definition cleanPath (p : bytes) : bytes :=
  match p with
  | [] => [slash]
  | b :: _ =>
      let p := if bool_decide (b = slash) then p else slash :: p in
      let np := pathClean p in
      if bool_decide (last p = Some slash) && negb (bool_decide (np = [slash])) then np ++ [slash] else np
  end.

Inductive route := RHealthz | RMetrics | RCheckpoint | RCompact | RSql | RKv.

(** A segment as the patterns compare it. *)
Definition unescape_segment (g : bytes) : bytes := default g (pathUnescape g).

(** The patterns of Handler; the last one is a subtree. *)
Definition match_segments (gs : list bytes) : option route :=
  match gs with
  | [a] => if bool_decide (a = lit "healthz") then Some RHealthz else None
  | [a; b] =>
      if negb (bool_decide (a = lit "v1")) then None
      else if bool_decide (b = lit "metrics") then Some RMetrics
      else if bool_decide (b = lit "checkpoint") then Some RCheckpoint
      else if bool_decide (b = lit "compact") then Some RCompact
      else if bool_decide (b = lit "sql") then Some RSql
      else None
  | a :: b :: _ :: _ => if bool_decide (a = lit "v1" /\ b = lit "kv") then Some RKv else None
  | [] => None
  end.

Definition match_path (p : bytes) : option route :=
  match p with
  | b :: p => if bool_decide (b = slash) then match_segments (unescape_segment <$> segments p) else None
  | [] => None
  end.

Inductive target := TRoute (r : route) | TRedirect (p : bytes) | TNotFound.

(** ServeMux: clean the path unless the method is CONNECT, redirect to a pattern
    that only lacks the final slash and to a cleaned path, or hand over. *)
Definition findHandler (method escaped : bytes) : target :=
  let path := if bool_decide (method = lit "CONNECT") then escaped else cleanPath escaped in
  match match_path path with
  | None =>
      if negb (bool_decide (path = [] \/ last path = Some slash)) && bool_decide (is_Some (match_path (path ++ [slash])))
      then TRedirect (path ++ [slash])
      else if bool_decide (path = escaped) then TNotFound else TRedirect path
  | Some r => if bool_decide (path = escaped) then TRoute r else TRedirect path
  end.

(** * Bodies *)

(** io.ReadAll of a limited body: what is behind the limit is never read. *)
Definition readLimited (limit : Z) (rq : request) : res bytes :=
  if limit <=? zlen (rq_body rq) then Ok (take (Z.to_nat limit) (rq_body rq))
  else if rq_fails rq then Err ErrIO else Ok (rq_body rq).

(** The first [limit] bytes of a body, and whether reading on fails. *)
Definition limited (limit : Z) (rq : request) : bytes * bool :=
  (take (Z.to_nat limit) (rq_body rq), rq_fails rq && (zlen (rq_body rq) <? limit)).

(** json.Decoder.Decode of the request struct: the statement and its arguments,
    from the bytes of a stream and whether it fails after them.  Numbers become
    float64, so no argument is an integer or a byte slice. *)
Definition json_arg (a : arg) : bool :=
  match a with ArgNil | ArgFloat64 _ | ArgString _ | ArgOther => true | _ => false end.

Class RequestJson := {
  decodeRequest : bytes * bool -> res (bytes * list arg);
  decodeRequest_args : forall b sql args, decodeRequest b = Ok (sql, args) -> forallb json_arg args = true;
}.

(** strings.TrimSpace, from both ends. *)
Definition runeStart (b : byte) : bool := negb (Z.land (byte_val b) 0xC0 =? 0x80).

(** The start of the last rune of [s], looking back at most [n] more bytes from [i]. *)
Fixpoint last_start (n : nat) (s : bytes) (i : nat) : nat :=
  match n, i with
  | S n, S j => match s !! j with Some b => if runeStart b then j else last_start n s j | None => j end
  | _, _ => i
  end.

Definition decodeLastRune (s : bytes) : Z * nat :=
  match last s with
  | None => (0xFFFD, 0%nat)
  | Some b =>
      if byte_val b <? 0x80 then (byte_val b, 1%nat)
      else
        let i := last_start 3 s (length s - 1) in
        let '(r, w) := decodeRune (drop i s) in
        if (i + w =? length s)%nat then (r, w) else (0xFFFD, 1%nat)
  end.

Section server.
Context `{U : Unicode} `{J : GoJson} `{F : GoFloat} `{R : RecordCodec} `{C : CatalogCodec} `{D : RequestJson}.

Fixpoint trim_right (fuel : nat) (s : bytes) : bytes :=
  match fuel, s with
  | S fuel, _ :: _ =>
      let '(r, w) := decodeLastRune s in
      if isSpace r then trim_right fuel (take (length s - w) s) else s
  | _, _ => s
  end.

Definition trimSpace (s : bytes) : bytes :=
  let s := drop (skip_space (length s) s 0) s in trim_right (length s) s.

(** Whether a statement's text goes to Query. *)
Definition is_query (sql : bytes) : bool := has_prefix (toUpper (trimSpace sql)) (lit "SELECT").

(** * Handlers *)

(** What a request meets outside the database. *)
Record world := mkWorld { wd_env : env; wd_compact : compact_io; wd_checkpoints : Z; wd_stat : bool }.

Definition healthz (db : Database) : Database * response := (db, writeJSON StatusOK JHealth).

Definition metrics_handler (w : world) (db : Database) : Database * response :=
  (db, writeJSON StatusOK (JMetrics (metrics (wd_checkpoints w) (wd_stat w) (kv db)))).

Definition checkpoint_handler (w : world) (rq : request) (db : Database) : Database * response :=
  if negb (bool_decide (rq_method rq = lit "POST")) then (db, notAllowed (lit "POST"))
  else match Compact (wd_compact w) (kv db) with
       | (k, Some e) => (set_kv k db, httpErr e StatusInternalServerError)
       | (k, None) => (set_kv k db, noContent)
       end.

Definition compact_handler (w : world) (rq : request) (db : Database) : Database * response :=
  if negb (bool_decide (rq_method rq = lit "POST")) then (db, notAllowed (lit "POST"))
  else match Compact (wd_compact w) (kv db) with
       | (k, Some e) => (set_kv k db, httpErr e StatusInternalServerError)
       | (k, None) => (set_kv k db, noContent)
       end.

(** The loop over the cursor; [out] is nil before the first row. *)
Fixpoint read_rows (fuel n : nat) (rows : Rows) (out : option (list (list scanned))) : res (option (list (list scanned))) :=
  match fuel with
  | O => Ok out
  | S fuel =>
      match Next rows with
      | (rows, true) =>
          let! row := Scan rows (replicate n DestAny) in
          read_rows fuel n rows (Some (default [] out ++ [row]))
      | (_, false) => Ok out
      end
  end.

(** The branch of a query. *)
Definition answer_query (w : world) (sql : bytes) (args : list arg) (db : Database) : option (Database * response) :=
  '(db, r) ← Query (wd_env w) sql args db;
  match r with
  | Err e => Some (db, writeSQLErr e)
  | Ok rows =>
      let cols := Columns rows in
      match read_rows (S (length (r_data rows))) (length cols) rows None with
      | Err e => Some (db, writeSQLErr e)
      | Ok out => Some (db, writeJSON StatusOK (JRows cols out))
      end
  end.

(** The branch of any other statement. *)
Definition answer_exec (w : world) (sql : bytes) (args : list arg) (db : Database) : option (Database * response) :=
  '(db, r) ← Exec (wd_env w) sql args db;
  match r with
  | Err e => Some (db, writeSQLErr e)
  | Ok res => Some (db, writeJSON StatusOK (JAffected (RowsAffected res)))
  end.

Definition sql_handler (w : world) (rq : request) (db : Database) : option (Database * response) :=
  if negb (bool_decide (rq_method rq = lit "POST")) then Some (db, notAllowed (lit "POST"))
  else match decodeRequest (limited (Z.shiftl 1 20) rq) with
  | Err e => Some (db, httpErr e StatusBadRequest)
  | Ok (sql, args) => if is_query sql then answer_query w sql args db else answer_exec w sql args db
  end.

(** The answer to a write. *)
Definition write_response (r : res unit) : response :=
  match r with
  | Err e => if bool_decide (e = ErrConflict) then httpErr e StatusConflict else httpErr e StatusInternalServerError
  | Ok _ => noContent
  end.

(** The functions passed to View and Update. *)
Definition get_body (key : bytes) (k : DB) (tx : Tx) : option (DB * Tx * res (option bytes)) :=
  let '(k, v) := Mvcc.Get tx key k in Some (k, tx, Ok v).

Definition set_body (key value : bytes) (k : DB) (tx : Tx) : option (DB * Tx * res unit) :=
  let '(tx, e) := Set' key value tx in Some (k, tx, as_res e).

Definition delete_body' (key : bytes) (k : DB) (tx : Tx) : option (DB * Tx * res unit) :=
  let '(tx, e) := Mvcc.Delete key tx in Some (k, tx, as_res e).

Definition kv_handler (w : world) (path : bytes) (rq : request) (db : Database) : option (Database * response) :=
  let v := wd_env w in
  let key := if has_prefix path (lit "/v1/kv/") then drop 7 path else path in
  if bool_decide (key = []) then Some (db, httpError (lit "key is required") StatusBadRequest)
  else if bool_decide (rq_method rq = lit "GET") then
    '(k, r) ← View (e_tx v) (get_body key) (kv db);
    Some (set_kv k db,
      match r with
      | Err e => httpErr e StatusInternalServerError
      | Ok None => httpError (lit "not found") StatusNotFound
      | Ok (Some value) => mkResponse StatusOK None (PValue value)
      end)
  else if bool_decide (rq_method rq = lit "PUT") then
    match readLimited (Z.shiftl 16 20) rq with
    | Err e => Some (db, httpErr e StatusBadRequest)
    | Ok value =>
        '(k, r) ← Update (e_io v) (e_tx v) (set_body key value) (kv db);
        Some (set_kv k db, write_response r)
    end
  else if bool_decide (rq_method rq = lit "DELETE") then
    '(k, r) ← Update (e_io v) (e_tx v) (delete_body' key) (kv db);
    Some (set_kv k db, write_response r)
  else Some (db, notAllowed (lit "GET, PUT, DELETE")).

(** A request to the handler; [None] is a panic.  A path that does not unescape
    is refused before any handler runs. *)
Definition Handler (w : world) (rq : request) (db : Database) : option (Database * response) :=
  match pathUnescape (rq_path rq) with
  | None => Some (db, httpError (lit "400 Bad Request") StatusBadRequest)
  | Some path =>
      match findHandler (rq_method rq) (rq_path rq) with
      | TNotFound => Some (db, httpError (lit "404 page not found") StatusNotFound)
      | TRedirect p => Some (db, mkResponse StatusMovedPermanently None (PText p))
      | TRoute RHealthz => Some (healthz db)
      | TRoute RMetrics => Some (metrics_handler w db)
      | TRoute RCheckpoint => Some (checkpoint_handler w rq db)
      | TRoute RCompact => Some (compact_handler w rq db)
      | TRoute RSql => sql_handler w rq db
      | TRoute RKv => kv_handler w path rq db
      end
  end.
End server.

(** * Examples of paths *)

Example clean_1 : cleanPath (lit "/v1//kv/./a/../b/") = lit "/v1/kv/b/".
Proof. reflexivity. Qed.
Example find_1 : findHandler (lit "GET") (lit "/v1/kv/a%2Fb/c") = TRoute RKv.
Proof. reflexivity. Qed.
Example find_2 : findHandler (lit "GET") (lit "/v1/kv") = TRedirect (lit "/v1/kv/").
Proof. reflexivity. Qed.
Example find_3 : findHandler (lit "GET") (lit "/v1/kv/a//b") = TRedirect (lit "/v1/kv/a/b").
Proof. reflexivity. Qed.
Example find_4 : findHandler (lit "POST") (lit "/v1/sql/") = TNotFound.
Proof. reflexivity. Qed.
