(* ===== verification/ServerSpec.v ===== *)
(** The routes of the HTTP interface: keys arrive as sent and the key-value
    routes are a map beside the SQL tables; the SQL route sends every statement to the
    function that runs it. *)

From S2P Require Import Prelude Utf8 Unicode Strconv Keys Page Row JsonBin SqlLex Wal Mvcc Compact Catalog BTree Secondary.
From S2P Require Import SqlAst SqlParse SqlParseSpec SqlBind SqlBindSpec SqlExec SqlKernel SqlBase SqlSemantics SqlState SqlFrame SqlSchema SqlData SqlRefine Server.

(** * Paths of keys *)

(** The path of a key, as a client that escapes it sends it. *)
Definition kv_path (key : bytes) : bytes := lit "/v1/kv/" ++ pathEscape key.

(** The empty key has no route, and the two dot segments are cleaned away. *)
Definition addressable (key : bytes) : Prop := key <> [] /\ key <> lit "." /\ key <> lit "..".

Lemma segments_cons_slash p : segments (slash :: p) = [] :: segments p.
Proof. cbn [segments]. by rewrite bool_decide_true. Qed.

Lemma segments_no_slash p : slash ∉ p -> segments p = [p].
Proof.
  induction p as [|b p IH]; intros H; [done|]. rewrite not_elem_of_cons in H. destruct H as [Hb Hp]. cbn [segments].
  rewrite bool_decide_false by congruence. by rewrite IH.
Qed.

Lemma segments_app p q : slash ∉ p -> segments (p ++ slash :: q) = p :: segments q.
Proof.
  induction p as [|b p IH]; intros H; [apply segments_cons_slash|]. rewrite not_elem_of_cons in H. destruct H as [Hb Hp]. cbn [app segments].
  rewrite bool_decide_false by congruence. by rewrite IH.
Qed.

Lemma pathEscape_dots key g : (g = [] \/ g = lit "." \/ g = lit "..") -> pathEscape key = g -> key = g.
Proof.
  intros Hg E. pose proof (pathUnescape_escape key) as H. rewrite E in H.
  destruct Hg as [->|[->| ->]]; cbn in H; by injection H as <-.
Qed.

Lemma kv_segments key : segments (kv_path key) = [[]; lit "v1"; lit "kv"; pathEscape key].
Proof.
  change (kv_path key) with (slash :: lit "v1" ++ slash :: lit "kv" ++ slash :: pathEscape key).
  rewrite segments_cons_slash, !segments_app by (vm_compute; intros H; repeat (inversion H as [|? ? ? H']; clear H; rename H' into H)).
  by rewrite segments_no_slash by apply pathEscape_no_slash.
Qed.

Lemma last_elem (s : bytes) b : last s = Some b -> b ∈ s.
Proof. intros H. rewrite last_lookup in H. by eapply list_elem_of_lookup_2. Qed.

Lemma kv_clean key : addressable key -> cleanPath (kv_path key) = kv_path key.
Proof.
  intros (H1 & H2 & H3). assert (forall g, g = [] \/ g = lit "." \/ g = lit ".." -> pathEscape key <> g) as Hd.
  { intros g Hg E. apply pathEscape_dots in E; [|done]. intuition congruence. }
  assert (pathClean (kv_path key) = kv_path key) as Hc.
  { unfold pathClean. rewrite kv_segments. cbn [foldl]. unfold clean_segment at 1.
    rewrite bool_decide_false by (intros [E|E]; [by apply (Hd []); auto|by apply (Hd (lit ".")); auto]).
    rewrite bool_decide_false by (apply Hd; auto). reflexivity. }
  change (cleanPath (kv_path key)) with
    (if bool_decide (last (kv_path key) = Some slash) && negb (bool_decide (pathClean (kv_path key) = [slash]))
     then pathClean (kv_path key) ++ [slash] else pathClean (kv_path key)).
  rewrite Hc, bool_decide_false; [done|]. unfold kv_path. intros E.
  destruct (last (pathEscape key)) as [b|] eqn:El.
  - rewrite last_app, El in E. injection E as ->. by eapply pathEscape_no_slash, last_elem.
  - apply last_None in El. by apply (Hd []); auto.
Qed.

Lemma kv_match key : match_path (kv_path key) = Some RKv.
Proof.
  pose proof (kv_segments key) as H. change (kv_path key) with (slash :: lit "v1/kv/" ++ pathEscape key) in *.
  rewrite segments_cons_slash in H. apply (f_equal tail) in H. cbn [tail] in H. cbn [match_path]. rewrite bool_decide_true by done. by rewrite H.
Qed.

(** Every addressable key is routed, and reaches the handler unchanged. *)
Lemma kv_route method key : addressable key -> findHandler method (kv_path key) = TRoute RKv.
Proof.
  intros Ha. unfold findHandler. rewrite kv_clean by done.
  assert ((if bool_decide (method = lit "CONNECT") then kv_path key else kv_path key) = kv_path key) as -> by (by case_bool_decide).
  rewrite kv_match. by rewrite bool_decide_true.
Qed.

Lemma kv_unescape key : pathUnescape (kv_path key) = Some (lit "/v1/kv/" ++ key).
Proof.
  assert (forall q, pathUnescape (lit "/v1/kv/" ++ q) = app (lit "/v1/kv/") <$> pathUnescape q) as H.
  { intros q. cbn. by destruct (pathUnescape q). }
  unfold kv_path. by rewrite H, pathUnescape_escape.
Qed.

Section server.
Context `{U : Unicode} `{J : GoJson} `{F : GoFloat} `{R : RecordCodec} `{C : CatalogCodec} `{D : RequestJson}.

(** * The key-value interface as a map *)

Inductive kv_request :=
  | KGet (key : bytes)
  | KPut (key body : bytes) (fails : bool)
  | KDelete (key : bytes)
  | KCompact.

(** The key a path holds. *)
Definition route_key (path : bytes) : bytes := if has_prefix path (lit "/v1/kv/") then drop 7 path else path.

(** What a request asks of the map, by its method, its route and its key. *)
Definition requests (rq : request) (q : kv_request) : Prop :=
  exists path, pathUnescape (rq_path rq) = Some path /\
  let on_key method key := rq_method rq = method /\ findHandler (rq_method rq) (rq_path rq) = TRoute RKv /\ route_key path = key /\ key <> [] in
  match q with
  | KGet key => on_key (lit "GET") key
  | KPut key body fails => on_key (lit "PUT") key /\ rq_body rq = body /\ rq_fails rq = fails
  | KDelete key => on_key (lit "DELETE") key
  | KCompact =>
      rq_method rq = lit "POST" /\
      (findHandler (rq_method rq) (rq_path rq) = TRoute RCompact \/ findHandler (rq_method rq) (rq_path rq) = TRoute RCheckpoint)
  end.

(** A client's requests, and that they ask what they mean. *)
Definition to_http (q : kv_request) : request :=
  match q with
  | KGet key => mkRequest (lit "GET") (kv_path key) [] false
  | KPut key body fails => mkRequest (lit "PUT") (kv_path key) body fails
  | KDelete key => mkRequest (lit "DELETE") (kv_path key) [] false
  | KCompact => mkRequest (lit "POST") (lit "/v1/compact") [] false
  end.

Definition kv_named (q : kv_request) : Prop :=
  match q with
  | KGet key | KPut key _ _ | KDelete key => addressable key
  | KCompact => True
  end.

Lemma to_http_requests q : kv_named q -> requests (to_http q) q.
Proof.
  assert (forall key, addressable key -> route_key (lit "/v1/kv/" ++ key) = key /\ key <> []) as Hk.
  { intros key Ha. split; [|apply Ha]. unfold route_key. by rewrite has_prefix_self. }
  destruct q as [key|key body fails|key|]; intros Hq; [exists (lit "/v1/kv/" ++ key)..|by exists (lit "/v1/compact"); auto];
    cbn [to_http rq_path rq_method rq_body rq_fails]; (split; [apply kv_unescape|]); destruct (Hk key Hq); by rewrite kv_route.
Qed.

(** The map holds the keys outside SQL's own. *)
Definition kv_ok (q : kv_request) : Prop := match q with KGet key => isReservedKey key = false | _ => True end.

(** The contract: a map, and whether the database is open.  [lost]: the log
    cannot be written. *)
Definition limit : Z := Z.shiftl 16 20.

Definition write_spec (lost : bool) (key : bytes) (m' : gmap bytes bytes) (s : gmap bytes bytes * bool)
  : (gmap bytes bytes * bool) * response :=
  if negb (snd s) then (s, httpErr ErrClosed StatusInternalServerError)
  else if isReservedKey key then (s, httpErr ErrReservedKey StatusInternalServerError)
  else if lost then (s, httpErr ErrIO StatusInternalServerError)
  else ((m', snd s), noContent).

Definition kv_spec (lost : bool) (o : compact_io) (q : kv_request) (s : gmap bytes bytes * bool)
  : (gmap bytes bytes * bool) * response :=
  match q with
  | KGet key =>
      (s, if negb (snd s) then httpErr ErrClosed StatusInternalServerError
          else match fst s !! key with
               | Some v => mkResponse StatusOK None (PValue v)
               | None => httpError (lit "not found") StatusNotFound
               end)
  | KPut key body fails =>
      if fails && (zlen body <? limit) then (s, httpErr ErrIO StatusBadRequest)
      else write_spec lost key (<[key := take (Z.to_nat limit) body]> (fst s)) s
  | KDelete key => write_spec lost key (delete key (fst s)) s
  | KCompact =>
      if negb (snd s) then (s, httpErr ErrClosed StatusInternalServerError)
      else match o with
           | CIoOk => (s, noContent)
           | CIoReopenFail => ((fst s, false), httpErr ErrIO StatusInternalServerError)
           | _ => (s, httpErr ErrIO StatusInternalServerError)
           end
  end.

(** The database holds the map beside the tables [a]. *)
Record serves_map (db : Database) (a : adb) (s : gmap bytes bytes * bool) : Prop := {
  sm_rep : rep db a;
  sm_open : db_closed (kv db) = negb (snd s);
  sm_keys : forall key, isReservedKey key = false -> now (kv db) key = fst s !! key;
}.

Lemma reserved_keys name enc :
  isReservedKey (catalogTableKey name) = true /\ isReservedKey (catalogIndexKey name) = true /\ isReservedKey (rowKey name enc) = true.
Proof. unfold isReservedKey, catalogTableKey, catalogIndexKey, rowKey. by rewrite !has_prefix_self. Qed.

(** The tables live in the reserved keys. *)
Lemma rep_reserved db a k :
  rep db a -> db_wf k -> (forall key, isReservedKey key = true -> now k key = now (kv db) key) -> rep (set_kv k db) a.
Proof.
  intros [Hk Ha [Ht Hi Hr] [H1 H2 H3]] Hk' E. split; [done|done| |by split]. split.
  - intros name. cbn [set_kv kv]. rewrite E; [apply Ht|apply (reserved_keys name [])].
  - intros i. cbn [set_kv kv]. rewrite E; [apply Hi|apply (reserved_keys i [])].
  - intros name enc Hn. specialize (Hr name enc Hn). unfold row_stored in *. cbn [set_kv kv]. rewrite E; [done|apply reserved_keys].
Qed.

Lemma serves_same db a s k : serves_map db a s -> same_data (kv db) k -> serves_map (set_kv k db) a s.
Proof.
  intros [Hr Ho Hk] Hs. split; [by apply rep_same|cbn [set_kv kv]; by rewrite (sd_closed _ _ Hs)|].
  intros key Hn. cbn [set_kv kv]. rewrite (same_data_now _ _ _ Hs). by apply Hk.
Qed.

Lemma serves_lost db a s k : serves_map db a s -> lost_data (kv db) k -> serves_map (set_kv k db) a s.
Proof.
  intros [Hr Ho Hk] Hs. split; [by apply rep_lost|cbn [set_kv kv]; by rewrite (sd_closed _ _ Hs : db_closed k = _)|].
  intros key Hn. cbn [set_kv kv]. rewrite (lost_data_now _ _ _ Hs). by apply Hk.
Qed.

Lemma set_kv_id db : set_kv (kv db) db = db.
Proof. by destruct db. Qed.

(** A write of one key through Update, whichever body makes it. *)
Lemma write_serves w key (op : operation) (body : DB -> Tx -> option (DB * Tx * res unit)) m' db a s :
  serves_map db a s -> db_version (kv db) + 1 < 2 ^ 64 -> op_key op = key ->
  (forall id k, body (began id k) (fresh_tx id true k) =
    Some (began id k, set_writes (if isReservedKey key then ∅ else {[key := op]}) (fresh_tx id true k),
          if isReservedKey key then Err ErrReservedKey else Ok tt)) ->
  (forall key', m' !! key' = if decide (key = key') then write_value op else fst s !! key') ->
  exists k r lost, Update (e_io (wd_env w)) (e_tx (wd_env w)) body (kv db) = Some (k, r) /\
  write_response r = snd (write_spec lost key m' s) /\ (lost = true -> e_io (wd_env w) <> IoOk) /\
  serves_map (set_kv k db) a (fst (write_spec lost key m' s)) /\ db_version k <= db_version (kv db) + 1.
Proof.
  intros Hs Hv Hop Hbody Hm'. unfold write_spec. destruct s as [m open]. cbn [fst snd] in *.
  pose proof (sm_open _ _ _ Hs) as Ho. cbn [snd] in Ho. destruct open; cbn [negb] in *.
  2:{ rewrite Update_closed by done. exists (kv db), (Err ErrClosed), false. rewrite set_kv_id. split_and!; try done. lia. }
  pose proof (rp_kv _ _ (sm_rep _ _ _ Hs)) as Hk.
  destruct (Update_run_io (e_io (wd_env w)) (e_tx (wd_env w)) body (kv db) (began (e_tx (wd_env w)) (kv db))
    (if isReservedKey key then ∅ else {[key := op]}) (if isReservedKey key then Err ErrReservedKey else Ok tt))
    as (k & r & E & Hw & Hc & Hv' & Hr); [done|done|done|apply Hbody|by apply same_data_began| |].
  { intros key' op'. destruct (isReservedKey key); [by rewrite lookup_empty|]. by intros [<- <-]%lookup_singleton_Some. }
  destruct (isReservedKey key) eqn:Er.
  { destruct Hr as [-> Hs']. exists k, (Err ErrReservedKey), false. split_and!; try done. by apply serves_same. }
  destruct Hr as [[-> Hnow]|(-> & Hio & Hs')].
  2:{ exists k, (Err ErrIO), true. split_and!; try done. by apply serves_lost. }
  exists k, (Ok tt), false. split_and!; try done. split.
  - apply rep_reserved; [apply (sm_rep _ _ _ Hs)|done|]. intros key' Hkey'. rewrite Hnow. unfold under.
    rewrite lookup_singleton_ne by congruence. done.
  - done.
  - intros key' Hkey'. cbn [set_kv kv fst]. rewrite Hnow, Hm'. unfold under. case_decide as Hd; [subst key'|].
    + by rewrite lookup_singleton_eq.
    + rewrite lookup_singleton_ne by done. by apply (sm_keys _ _ _ Hs).
Qed.

(** The same with the answer of the handler. *)
Lemma write_request w key (op : operation) (body : DB -> Tx -> option (DB * Tx * res unit)) m' db a s :
  serves_map db a s -> db_version (kv db) + 1 < 2 ^ 64 -> op_key op = key ->
  (forall id k, body (began id k) (fresh_tx id true k) =
    Some (began id k, set_writes (if isReservedKey key then ∅ else {[key := op]}) (fresh_tx id true k),
          if isReservedKey key then Err ErrReservedKey else Ok tt)) ->
  (forall key', m' !! key' = if decide (key = key') then write_value op else fst s !! key') ->
  exists db' lost,
  ('(k, r) ← Update (e_io (wd_env w)) (e_tx (wd_env w)) body (kv db); Some (set_kv k db, write_response r)) =
    Some (db', snd (write_spec lost key m' s)) /\ (lost = true -> e_io (wd_env w) <> IoOk) /\
  serves_map db' a (fst (write_spec lost key m' s)) /\ db_version (kv db') <= db_version (kv db) + 1.
Proof.
  intros Hs Hv Hop Hbody Hm. destruct (write_serves w key op body m' db a s Hs Hv Hop Hbody Hm) as (k & r & lost & E & Hr & Hl & Hs' & Hv').
  exists (set_kv k db), lost. rewrite E. cbn [mbind option_bind]. by rewrite Hr.
Qed.

(** What View's function in the GET handler sees. *)
Lemma get_serves id key db a s :
  serves_map db a s -> snd s = true ->
  exists k, View id (get_body key) (kv db) = Some (k, Ok (now (kv db) key)) /\ same_data (kv db) k.
Proof.
  intros Hs Ho. pose proof (rp_kv _ _ (sm_rep _ _ _ Hs)) as Hk.
  apply (View_run id (get_body key) (kv db) (add_reads 1 (began id (kv db))) (fresh_tx id false (kv db))); [done| | |].
  - by rewrite (sm_open _ _ _ Hs), Ho.
  - unfold get_body. pose proof (Get_now (kv db) (began id (kv db)) id false ∅ (same_data_began _ _ Hk) key) as H.
    change (set_writes ∅ (fresh_tx id false (kv db))) with (fresh_tx id false (kv db)) in H. rewrite H. unfold under. by rewrite lookup_empty.
  - by apply same_data_reads, same_data_began.
Qed.

Lemma compact_serves o db a s :
  serves_map db a s ->
  exists k e, Compact o (kv db) = (k, e) /\
  snd (kv_spec false o KCompact s) = match e with Some e => httpErr e StatusInternalServerError | None => noContent end /\
  serves_map (set_kv k db) a (fst (kv_spec false o KCompact s)) /\ db_version k = db_version (kv db).
Proof.
  intros Hs. destruct s as [m open]. pose proof (rp_kv _ _ (sm_rep _ _ _ Hs)) as Hk. pose proof (sm_open _ _ _ Hs) as Ho. cbn [snd] in Ho.
  destruct (Compact o (kv db)) as [k e] eqn:E. exists k, e. split; [done|].
  destruct (Compact_frame o (kv db) k e E) as (Hv & _ & _). pose proof (db_wf_Compact o (kv db) Hk) as Hk'. rewrite E in Hk'. cbn [fst] in Hk'.
  assert (forall key, now k key = now (kv db) key) as Hnow.
  { intros key. unfold now. rewrite Hv. eapply Compact_views; [done|]. by apply oldestReadVersion_range. }
  assert (db_closed k = negb (snd (fst (kv_spec false o KCompact (m, open)))) /\
    fst (fst (kv_spec false o KCompact (m, open))) = m /\
    snd (kv_spec false o KCompact (m, open)) = match e with Some e => httpErr e StatusInternalServerError | None => noContent end)
    as (H1 & H2 & H3).
  { unfold Compact in E. cbn [kv_spec snd fst]. rewrite Ho in E. destruct open; cbn [negb] in *; [|by injection E as <- <-].
    destruct o; injection E as <- <-; cbn; done. }
  split; [done|]. split; [|done]. split; [apply rep_reserved; [apply (sm_rep _ _ _ Hs)|done|by intros]|done|].
  intros key Hkey. cbn [set_kv kv]. rewrite Hnow, H2. by apply (sm_keys _ _ _ Hs).
Qed.

(** The answer to a read. *)
Definition get_response (got : option bytes) : response :=
  match got with
  | Some v => mkResponse StatusOK None (PValue v)
  | None => httpError (lit "not found") StatusNotFound
  end.

(** A read of any key: SQL's own keys can be read. *)
Lemma get_request w rq key db a s :
  serves_map db a s -> requests rq (KGet key) ->
  exists db', Handler w rq db = Some (db', if negb (snd s) then httpErr ErrClosed StatusInternalServerError else get_response (now (kv db) key)) /\
  serves_map db' a s /\ db_version (kv db') = db_version (kv db).
Proof.
  intros Hs (path & Hp & Hm & Hr & Hk & Hne). unfold Handler. rewrite Hp, Hr. unfold kv_handler. fold (route_key path).
  rewrite Hk, bool_decide_false, Hm, bool_decide_true by done. destruct (snd s) eqn:Eo; cbn [negb].
  - destruct (get_serves (e_tx (wd_env w)) key db a s Hs Eo) as (k & -> & Hd). cbn [mbind option_bind]. exists (set_kv k db).
    split; [by destruct (now (kv db) key)|]. split; [by apply serves_same|]. cbn [set_kv kv]. by rewrite (sd_version _ _ Hd).
  - rewrite View_closed by (by rewrite (sm_open _ _ _ Hs), Eo). cbn [mbind option_bind]. rewrite set_kv_id. by exists db.
Qed.

(** One request. *)
Lemma kv_serves w rq q db a s :
  serves_map db a s -> db_version (kv db) + 1 < 2 ^ 64 -> requests rq q -> kv_ok q ->
  exists db' lost, Handler w rq db = Some (db', snd (kv_spec lost (wd_compact w) q s)) /\
  (lost = true -> e_io (wd_env w) <> IoOk) /\
  serves_map db' a (fst (kv_spec lost (wd_compact w) q s)) /\ db_version (kv db') <= db_version (kv db) + 1.
Proof.
  intros Hs Hv Hrq Hq. destruct q as [key|key body fails|key|]; cbn [kv_ok] in *.
  - destruct (get_request w rq key db a s Hs Hrq) as (db' & E & Hs' & Hv'). exists db', false. cbn [kv_spec fst snd].
    rewrite <- (sm_keys _ _ _ Hs) by done. split_and!; try done. lia.
  - destruct Hrq as (path & Hp & (Hm & Hr & Hk & Hne) & <- & <-). unfold Handler. rewrite Hp, Hr. unfold kv_handler. fold (route_key path).
    rewrite Hk, bool_decide_false, Hm by done. cbn [kv_spec]. rewrite bool_decide_false, bool_decide_true by done.
    unfold readLimited. fold limit. set (body := rq_body rq).
    assert (zlen body < limit -> take (Z.to_nat limit) body = body) as Ev by (intros; apply take_ge; unfold zlen in *; lia).
    revert Ev. generalize (take (Z.to_nat limit) body) as v. intros v Ev.
    pose proof (write_request w key (mkOp key v false) (set_body key v) (<[key := v]> (fst s)) db a s Hs Hv eq_refl) as Hwr.
    specialize (Hwr ltac:(intros id k; unfold set_body, Set'; by destruct (isReservedKey key)) ltac:(intros key'; by rewrite lookup_insert)).
    destruct (Z.leb_spec limit (zlen body)) as [Hl|Hl].
    + rewrite (proj2 (Z.ltb_ge _ _)) by lia. rewrite andb_false_r. exact Hwr.
    + rewrite (proj2 (Z.ltb_lt _ _)) by lia. rewrite andb_true_r. destruct (rq_fails rq); [exists db, false; split_and!; try done; lia|].
      rewrite (Ev Hl) in *. exact Hwr.
  - destruct Hrq as (path & Hp & Hm & Hr & Hk & Hne). unfold Handler. rewrite Hp, Hr. unfold kv_handler. fold (route_key path).
    rewrite Hk, bool_decide_false, Hm by done. cbn [kv_spec]. rewrite !bool_decide_false, bool_decide_true by done.
    apply (write_request w key (mkOp key [] true)); [done|done|done| |].
    + intros id k. unfold delete_body', Mvcc.Delete. by destruct (isReservedKey key).
    + intros key'. by rewrite lookup_delete.
  - destruct (compact_serves (wd_compact w) db a s Hs) as (k & e & E & Hr & Hs' & Hv'). exists (set_kv k db), false.
    destruct Hrq as (path & Hp & Hm & Hroute). unfold Handler. rewrite Hp.
    destruct Hroute as [->| ->]; unfold compact_handler, checkpoint_handler; rewrite Hm, bool_decide_true by done; cbn [negb]; rewrite E, Hr;
      (split; [by destruct e|]; split; [done|]; split; [done|]; cbn [set_kv kv]; lia).
Qed.

(** Requests one after the other. *)
Fixpoint serve_all (l : list (world * request)) (db : Database) : option (Database * list response) :=
  match l with
  | [] => Some (db, [])
  | (w, rq) :: l =>
      '(db, r) ← Handler w rq db;
      '(db, rs) ← serve_all l db;
      Some (db, r :: rs)
  end.

(** C37.  A PUT whose body is longer than 16 MiB is answered 204 and stores the
    first 16 MiB of it, exactly: the value is cut without an error. *)
Theorem put_truncates_silently w key body fails db a m :
  serves_map db a (m, true) -> db_version (kv db) + 1 < 2 ^ 64 -> addressable key -> isReservedKey key = false ->
  e_io (wd_env w) = IoOk -> limit < zlen body ->
  exists db', Handler w (mkRequest (lit "PUT") (kv_path key) body fails) db = Some (db', noContent) /\
  now (kv db') key = Some (take (Z.to_nat limit) body) /\ zlen (take (Z.to_nat limit) body) = limit /\ take (Z.to_nat limit) body <> body.
Proof.
  intros Hs Hv Ha Hn Hio Hl.
  destruct (kv_serves w _ (KPut key body fails) db a (m, true) Hs Hv (to_http_requests (KPut key body fails) Ha) I) as (db' & lost & E & Hlost & Hs' & _).
  cbn [to_http kv_spec] in *. rewrite (proj2 (Z.ltb_ge _ _)), andb_false_r in * by lia. unfold write_spec in *. cbn [fst snd negb] in *. rewrite Hn in *.
  destruct lost; [by destruct Hlost|]. cbn [fst snd] in *. pose proof (sm_keys _ _ _ Hs' key Hn) as Hkey. cbn [fst] in Hkey.
  assert (zlen (take (Z.to_nat limit) body) = limit) as Hz.
  { unfold zlen in *. rewrite length_take. assert (0 <= limit) by (vm_compute; discriminate). lia. }
  revert E Hkey Hz. generalize (take (Z.to_nat limit) body) as v. intros v E Hkey Hz. rewrite lookup_insert_eq in Hkey.
  exists db'. split_and!; try done. intros ->. lia.
Qed.

(** * The SQL route *)

(** What a parsing method returns when it returns. *)
Definition returns {A} (m : PM A) (P : A -> Prop) : Prop := forall p x p', m p = Some (Ok (x, p')) -> P x.

Lemma returns_ret {A} (x : A) (P : A -> Prop) : P x -> returns (pret x) P.
Proof. by intros HP p y p' [= <- _]. Qed.

Lemma returns_fail {A} e (P : A -> Prop) : returns (pfail e) P.
Proof. by intros p y p'. Qed.

Lemma returns_bind {A B} (m : PM A) (k : A -> PM B) P : (forall x, returns (k x) P) -> returns (pbind m k) P.
Proof. intros H p y p'. unfold pbind. destruct (m p) as [[[x p1]|e]|]; [apply H|done..]. Qed.

Lemma returns_if {A} (b : bool) (m n : PM A) P : returns m P -> returns n P -> returns (if b then m else n) P.
Proof. by destruct b. Qed.

Ltac solve_returns := repeat first [apply returns_ret; reflexivity | apply returns_fail | apply returns_bind; intros ? | apply returns_if].

(** The keyword a statement begins with. *)
Definition first_word (st : stmt) : bytes :=
  match st with
  | createTableStmt _ _ | createIndexStmt _ _ _ _ => lit "CREATE"
  | dropTableStmt _ | dropIndexStmt _ => lit "DROP"
  | insertStmt _ _ _ => lit "INSERT"
  | selectStmt _ _ _ => lit "SELECT"
  | updateStmt _ _ _ => lit "UPDATE"
  | deleteStmt _ _ => lit "DELETE"
  end.

Lemma parseStmt_word p st p' :
  parseStmt p = Some (Ok (st, p')) -> kind (tok p) = tokKeyword /\ kw (tok p) = first_word st.
Proof.
  assert (forall (m : PM stmt) w, returns m (fun st => first_word st = w) -> m p = Some (Ok (st, p')) -> w = first_word st) as H
    by (intros m w Hm E; symmetry; by eapply Hm).
  unfold parseStmt, pbind, current, at_kind. case_bool_decide as Hk; cbn [negb]; [|done]. intros E. split; [done|].
  repeat (case_bool_decide as Hw; [rewrite Hw; eapply H; [|exact E];
    unfold parseCreate, parseCreateIndex, parseDrop, parseDropIndex, parseInsert, parseSelect, parseUpdate, parseDelete; solve_returns|clear Hw]).
  done.
Qed.

Lemma parseSQL_word sql st :
  parseSQL sql = Some (Ok st) -> exists lx t, next (newLexer sql) = (lx, Ok t) /\ kind t = tokKeyword /\ kw t = first_word st.
Proof.
  unfold parseSQL, parseAll. unfold pbind at 1. unfold advance at 1. cbn [hasP p_l].
  destruct (next (newLexer sql)) as [lx [t|e]]; [|done]. unfold pbind at 1.
  destruct (parseStmt _) as [[[st1 p1]|e]|] eqn:E; [|done..]. intros H. exists lx, t. split; [done|].
  apply parseStmt_word in E. cbn [set_lexer tok] in E.
  assert (returns (let* t0 := current in do* (if at_kind tokSemi t0 then advance else pret tt) in
    let* t1 := current in if negb (at_kind tokEOF t1) then pfail ErrSQL else pret st1) (fun st => st = st1)) as Hr by solve_returns.
  destruct (pbind current _ p1) as [[[st2 p2]|]|] eqn:E2; [|done..]. injection H as <-. by rewrite (Hr _ _ _ E2).
Qed.

Lemma decodeLastRune_ascii s b : byte_val b < 0x80 -> decodeLastRune (s ++ [b]) = (byte_val b, 1%nat).
Proof. intros Hb. unfold decodeLastRune. rewrite last_snoc. by rewrite (proj2 (Z.ltb_lt _ _)). Qed.

(** Looking back for the start of a rune does not pass one. *)
Lemma last_start_ge n s p b : s !! p = Some b -> runeStart b = true -> forall i, (p < i)%nat -> (p <= last_start n s i)%nat.
Proof.
  intros Hp Hb. induction n as [|n IH]; intros [|j] Hi; cbn [last_start]; try lia. destruct (s !! j) as [c|] eqn:Ej; [|lia].
  destruct (runeStart c) eqn:Ec; [lia|]. destruct (decide (p = j)) as [->|]; [congruence|]. apply IH. lia.
Qed.

Lemma ascii_rune_start b : byte_val b < 0x80 -> runeStart b = true.
Proof. by destruct b. Qed.

(** The last rune of a text lies behind any ASCII byte that is not the last. *)
Lemma decodeLastRune_behind u b rest : byte_val b < 0x80 -> rest <> [] -> (snd (decodeLastRune ((u ++ [b]) ++ rest)) <= length rest)%nat.
Proof.
  intros Hb Hr. set (s := (u ++ [b]) ++ rest). assert (length s = length u + 1 + length rest)%nat as Hlen by (unfold s; rewrite !length_app; cbn; lia).
  assert (1 <= length rest)%nat as H1 by (destruct rest; [done|cbn; lia]). unfold decodeLastRune. destruct (last s) as [c|]; [|cbn; lia].
  destruct (byte_val c <? 0x80); [cbn; lia|]. set (i := last_start 3 s (length s - 1)).
  assert (s !! length u = Some b) as Hat by (unfold s; rewrite <- app_assoc; by apply list_lookup_middle).
  assert (length u <= i)%nat as Hi by (apply (last_start_ge 3 s (length u) b Hat (ascii_rune_start b Hb)); lia).
  destruct (decide (i = length u)) as [->|Hne].
  - replace (drop (length u) s) with (b :: rest) by (unfold s; rewrite <- app_assoc; by rewrite drop_app_length).
    rewrite decodeRune_ascii by done. destruct (Nat.eqb_spec (length u + 1) (length s)); cbn; lia.
  - destruct (decodeRune (drop i s)) as [r w]. destruct (Nat.eqb_spec (i + w) (length s)); cbn; lia.
Qed.

(** Trimming the end keeps what ends in an ASCII byte other than a space. *)
Lemma trim_right_keeps u b fuel : forall rest,
  byte_val b < 0x80 -> isSpace (byte_val b) = false ->
  exists rest', trim_right fuel ((u ++ [b]) ++ rest) = (u ++ [b]) ++ rest'.
Proof.
  induction fuel as [|fuel IH]; intros rest Ha Hb; [by exists rest|]. cbn [trim_right].
  destruct ((u ++ [b]) ++ rest) as [|x l] eqn:E; [by destruct u|]. rewrite <- E. clear E x l. destruct (decide (rest = [])) as [->|Hr].
  - rewrite app_nil_r, decodeLastRune_ascii by done. rewrite Hb. exists []. by rewrite app_nil_r.
  - pose proof (decodeLastRune_behind u b rest Ha Hr) as Hw. destruct (decodeLastRune _) as [r w]. cbn [snd] in Hw. destruct (isSpace r); [|by exists rest].
    rewrite length_app, take_app_ge by lia. by apply IH.
Qed.

(** The text of the first token of a statement. *)
Definition first_text (sql : bytes) : bytes :=
  text_between sql (skip_space (length sql) sql 0) (lx_i (fst (next (newLexer sql)))).

Lemma next_keyword sql lx t : next (newLexer sql) = (lx, Ok t) -> kind t = tokKeyword -> kw t = toUpper (first_text sql).
Proof.
  intros Hn Hk. unfold first_text. rewrite Hn. cbn [fst]. unfold next in Hn. cbn [skipSpace newLexer lx_src lx_i set_i] in Hn.
  set (i := skip_space (length sql) sql 0) in *.
  destruct (_ <=? _)%nat; [by injection Hn as _ <-|]. cbn [lx_i lx_src] in Hn. destruct (decodeRune _) as [ch w].
  destruct (punct ch) as [[k s]|] eqn:Ep.
  { injection Hn as _ <-. cbn [kind] in Hk. subst k. unfold punct in Ep. repeat (case_match; [done|]); done. }
  unfold lexString, lexBlob, lexNumber in Hn. destruct (ch =? 39); [repeat case_match; simplify_eq; done|].
  destruct (_ && _); [repeat case_match; simplify_eq; done|]. destruct (_ || _); [by simplify_eq|]. destruct (_ || _); [|done].
  unfold lexIdent in Hn. cbn [lx_i lx_src] in Hn. injection Hn as <- <-. destruct (isKeyword _) eqn:Ek; [|done]. done.
Qed.

Lemma upper_space b : ascii_space (byte_val b) = true -> upper_byte b = b.
Proof. unfold ascii_space, upper_byte, ascii_lower. intros H. assert (byte_val b <= 32) by lia. by replace ((97 <=? byte_val b) && (byte_val b <=? 122)) with false by lia. Qed.

(** Every statement whose first word is ASCII goes to the function that runs it. *)
Lemma is_query_select sql st :
  is_ascii (first_text sql) = true -> parseSQL sql = Some (Ok st) -> is_query sql = bool_decide (first_word st = lit "SELECT").
Proof.
  intros Ha Hp. destruct (parseSQL_word sql st Hp) as (lx & t & Hn & Hk & Hw). pose proof (next_keyword sql lx t Hn Hk) as Hu.
  rewrite Hw, toUpper_ascii in Hu by done. unfold is_query, trimSpace. set (body := drop (skip_space (length sql) sql 0) sql) in *.
  assert (exists rest, body = first_text sql ++ rest) as [rest Hbody] by (unfold first_text, text_between; fold body; eexists; by rewrite take_drop).
  destruct (first_text sql) as [|b u _] eqn:Eu using rev_ind; [by destruct st|]. clear Eu.
  assert (byte_val b < 0x80) as Hlow by (rewrite is_ascii_app in Ha; apply andb_true_iff in Ha as [_ Hb]; cbn in Hb; lia).
  assert (isSpace (byte_val b) = false) as Hb.
  { pose proof (byte_val_range b). rewrite isSpace_ascii by lia.
    destruct (ascii_space (byte_val b)) eqn:Es; [|done]. exfalso. unfold ascii_to_upper in Hu. rewrite fmap_app in Hu. cbn in Hu.
    rewrite (upper_space b Es) in Hu. apply (f_equal last) in Hu. rewrite last_snoc in Hu.
    destruct st; vm_compute in Hu; injection Hu as <-; vm_compute in Es; discriminate. }
  rewrite Hbody. destruct (trim_right_keeps u b (length ((u ++ [b]) ++ rest)) rest Hlow Hb) as (rest' & ->).
  rewrite toUpper_prefix, <- Hu by done. by destruct st.
Qed.

(** The rows of a query as the response holds them: every value as its JSON form. *)
Definition any_row (row : list Value) : res (list scanned) := map_res (assignScan DestAny) row.

Definition rows_response (cols : list bytes) (data : list (list Value)) : response :=
  match map_res any_row data with
  | Ok [] => writeJSON StatusOK (JRows cols None)
  | Ok out => writeJSON StatusOK (JRows cols (Some out))
  | Err e => writeSQLErr e
  end.

Lemma scan_any row : map_res (fun dv => assignScan (fst dv) (snd dv)) (zip (replicate (length row) DestAny) row) = any_row row.
Proof.
  unfold any_row. induction row as [|v row IH]; [done|]. cbn [length replicate zip zip_with map_res fst snd].
  change (zip_with pair _ row) with (zip (replicate (length row) DestAny) row). by rewrite IH.
Qed.

Lemma read_rows_from cols data rest : forall done_ fuel out,
  data = done_ ++ rest -> Forall (fun row => length row = length cols) data -> (length rest < fuel)%nat ->
  read_rows fuel (length cols) (mkRows cols data (zlen done_ - 1) false) out =
  (let! rows := map_res any_row rest in Ok (match rows with [] => out | _ => Some (default [] out ++ rows) end)).
Proof.
  induction rest as [|row rest IH]; intros done_ fuel out -> Hw Hf; (destruct fuel as [|fuel]; [cbn in Hf; lia|]); cbn [read_rows]; unfold Next; cbn [r_closed r_data r_i].
  - rewrite app_nil_r. by rewrite (proj2 (Z.leb_le _ _)) by lia.
  - rewrite zlen_app, zlen_cons. pose proof (zlen_nonneg done_). pose proof (zlen_nonneg rest). rewrite (proj2 (Z.leb_gt _ _)) by lia.
    unfold set_row. cbn [r_columns r_data r_i r_closed]. replace (zlen done_ - 1 + 1) with (zlen done_) by lia.
    unfold Scan. cbn [r_closed r_data r_i orb]. rewrite (proj2 (Z.ltb_ge _ _)) by lia. rewrite zlen_app, zlen_cons. rewrite (proj2 (Z.leb_gt _ _)) by lia. cbn [orb].
    rewrite to_nat_zlen, list_lookup_middle by done. change (default [] (Some row)) with row.
    assert (length row = length cols) as Hrow by (rewrite Forall_app, Forall_cons in Hw; tauto).
    rewrite length_replicate, Hrow, Nat.eqb_refl. cbn [negb]. rewrite <- Hrow, scan_any. rewrite Hrow. cbn [map_res].
    destruct (any_row row) as [r|e]; [|done]. cbn [rbind].
    replace (zlen done_) with (zlen (done_ ++ [row]) - 1) by (rewrite zlen_app, zlen_cons, zlen_nil; lia).
    rewrite (IH (done_ ++ [row]) fuel (Some (default [] out ++ [r]))); [|by rewrite <- app_assoc|done|cbn in Hf; lia].
    destruct (map_res any_row rest) as [rows|e]; [|done]. cbn [rbind]. change (default [] (Some (default [] out ++ [r]))) with (default [] out ++ [r]).
    destruct rows; [done|]. by rewrite <- app_assoc.
Qed.

Lemma bindArgs_word st args st' : bindArgs st args = Ok st' -> first_word st' = first_word st.
Proof.
  unfold bindArgs. case_match; [done|]. destruct st; try (by intros [= <-]);
    repeat (destruct (map_res _ _); cbn [rbind]; [|done]); by intros [= <-].
Qed.

(** Result rows are as wide as the titles. *)
Lemma result_width def items vals : length vals = length (tab_Columns def) -> length (result_row def items vals) = length (result_columns def items).
Proof.
  intros Hl. unfold result_row, result_columns. induction (shown items) as [|it its IH]; [done|]. rewrite !bind_cons, !length_app, IH. f_equal.
  destruct it; cbn; [by rewrite length_fmap|done..].
Qed.

(** The branch of a query, on the statement it runs. *)
Lemma answer_query_run w sql args db a st0 table items ws t :
  parseSQL sql = Some (Ok st0) -> bindArgs st0 args = Ok (selectStmt table items ws) -> rep db a -> db_closed (kv db) = false ->
  a_tables a !! normalizeName table = Some t -> where_ok (at_def t) ws -> Forall item_shape items -> items_known (at_def t) items = true ->
  exists k' l, answer_query w sql args db =
    Some (set_kv k' db, rows_response (result_columns (at_def t) items) (result_row (at_def t) items <$> l)) /\ same_data (kv db) k' /\
  l ≡ₚ (map_to_list (selected t ws)).*2.
Proof.
  intros Hp Hb Hrep Hc Ht Hw Hit Hkn.
  destruct (select_exact (wd_env w) table items ws db a t Hrep Hc Ht Hw Hit Hkn) as (k' & l & E & Hs & Hl).
  exists k', l. split; [|done]. unfold answer_query, Query. rewrite Hp. cbn [mbind option_bind rbind]. rewrite Hb, E. cbn [mbind option_bind].
  unfold Columns. cbn [r_columns r_data]. set (data := result_row (at_def t) items <$> l).
  pose proof (read_rows_from (result_columns (at_def t) items) data data [] (S (length data)) None) as Hread.
  change (zlen [] - 1) with (-1) in Hread. rewrite Hread; [|done| |lia].
  - unfold rows_response. by destruct (map_res any_row data) as [[|r rs]|e].
  - unfold data. apply Forall_fmap, Forall_forall. intros vals Hin. apply result_width. rewrite Hl in Hin.
    apply list_elem_of_fmap in Hin as ([enc vals'] & -> & Hin). apply elem_of_map_to_list in Hin. unfold selected in Hin. apply map_lookup_filter_Some in Hin as [Hin _].
    symmetry. apply (Forall2_length _ _ _ (rw_types _ _ _ (aw_rows _ (rp_wf _ _ Hrep) _ _ _ _ Ht Hin))).
Qed.

(** A query the executor refuses. *)
Lemma answer_query_refused w sql args db st0 table items ws e :
  parseSQL sql = Some (Ok st0) -> bindArgs st0 args = Ok (selectStmt table items ws) ->
  execSelect (wd_env w) table items ws db = Some (db, Err e) -> answer_query w sql args db = Some (db, writeSQLErr e).
Proof. intros Hp Hb E. unfold answer_query, Query. rewrite Hp. cbn [mbind option_bind rbind]. by rewrite Hb, E. Qed.

(** A text that does not parse, or whose parameters cannot be filled in, is refused whichever way it goes. *)
Lemma answer_malformed w sql args db r e :
  parseSQL sql = Some r -> (let! st := r in bindArgs st args) = Err e ->
  (if is_query sql then answer_query w sql args db else answer_exec w sql args db) = Some (db, writeSQLErr e).
Proof.
  intros Hp Hb. unfold answer_query, answer_exec, Query, Exec. rewrite Hp. cbn [mbind option_bind]. rewrite Hb. by destruct (is_query sql).
Qed.

(** The answer to any other statement. *)
Definition exec_response (r : res Result) : response :=
  match r with
  | Err e => writeSQLErr e
  | Ok res => writeJSON StatusOK (JAffected (RowsAffected res))
  end.

Lemma answer_exec_stmt w sql args db st0 st :
  parseSQL sql = Some (Ok st0) -> bindArgs st0 args = Ok st ->
  answer_exec w sql args db = '(db, r) ← exec_stmt (wd_env w) st db; Some (db, exec_response r).
Proof.
  intros Hp Hb. unfold answer_exec, Exec. rewrite Hp. cbn [mbind option_bind rbind]. rewrite Hb.
  by destruct (exec_stmt (wd_env w) st db) as [[db' [r|e]]|].
Qed.

Lemma answer_exec_run w sql args db a st0 st :
  parseSQL sql = Some (Ok st0) -> bindArgs st0 args = Ok st -> ready db a -> stmt_ok a st ->
  exists db' r, answer_exec w sql args db = Some (db', exec_response r) /\ alive (e_io (wd_env w)) (kv db) (kv db') /\
  outcome (wd_env w) a (spec_exec a st) db' r.
Proof.
  intros Hp Hb Hrd Hok. rewrite (answer_exec_stmt _ _ _ _ _ _ Hp Hb).
  destruct (stmt_answers (wd_env w) st db a Hrd Hok) as (db' & r & -> & Hl & Ho). by exists db', r.
Qed.

(** A statement arrives: its route, its method, and the text and arguments of its JSON. *)
Definition sql_request (rq : request) (sql : bytes) (args : list arg) : Prop :=
  is_Some (pathUnescape (rq_path rq)) /\ findHandler (rq_method rq) (rq_path rq) = TRoute RSql /\ rq_method rq = lit "POST" /\
  decodeRequest (limited (Z.shiftl 1 20) rq) = Ok (sql, args).

Lemma sql_answer w rq db sql args :
  sql_request rq sql args -> Handler w rq db = if is_query sql then answer_query w sql args db else answer_exec w sql args db.
Proof.
  intros ([path Hp] & Hr & Hm & Hd). unfold Handler. rewrite Hp, Hr. unfold sql_handler. rewrite Hm, bool_decide_true by done. cbn [negb]. by rewrite Hd.
Qed.

(** The request reaches the function that runs its statement. *)
Lemma sql_dispatch w rq db sql args st0 st :
  sql_request rq sql args -> is_ascii (first_text sql) = true -> parseSQL sql = Some (Ok st0) -> bindArgs st0 args = Ok st ->
  Handler w rq db = if bool_decide (first_word st = lit "SELECT") then answer_query w sql args db else answer_exec w sql args db.
Proof. intros Hrq Ha Hp Hb. rewrite (sql_answer _ _ _ _ _ Hrq), (bindArgs_word _ _ _ Hb), <- (is_query_select sql st0 Ha Hp). done. Qed.

End server.
