(* ===== verification/ServerRefine.v ===== *)
(** The whole HTTP service against its contract: a map of keys to values beside
    SQL tables, for every sequence of requests. *)

From S2P Require Import Prelude Utf8 Unicode Strconv Keys Page Row JsonBin SqlLex Wal Mvcc Compact Catalog BTree Secondary.
From S2P Require Import SqlAst SqlParse SqlParseSpec SqlBind SqlExec SqlKernel SqlBase SqlSemantics SqlState SqlFrame SqlSchema SqlRefine Server ServerSpec.

Section service.
Context `{U : Unicode} `{J : GoJson} `{F : GoFloat} `{R : RecordCodec} `{C : CatalogCodec} `{D : RequestJson}.

(** * The contract *)

(** The requests whose answer depends on nothing but themselves: paths that do not
    unescape or are not routed, the health check, methods a route does not take,
    an empty key, and JSON that does not decode. *)
Definition fixed_answer (rq : request) : option response :=
  match pathUnescape (rq_path rq), findHandler (rq_method rq) (rq_path rq) with
  | None, _ => Some (httpError (lit "400 Bad Request") StatusBadRequest)
  | Some _, TNotFound => Some (httpError (lit "404 page not found") StatusNotFound)
  | Some _, TRedirect p => Some (mkResponse StatusMovedPermanently None (PText p))
  | Some path, TRoute r =>
      match r with
      | RHealthz => Some (writeJSON StatusOK JHealth)
      | RMetrics => None
      | RCheckpoint | RCompact => if bool_decide (rq_method rq = lit "POST") then None else Some (notAllowed (lit "POST"))
      | RSql =>
          if bool_decide (rq_method rq = lit "POST") then
            match decodeRequest (limited (Z.shiftl 1 20) rq) with
            | Ok _ => None
            | Err e => Some (httpErr e StatusBadRequest)
            end
          else Some (notAllowed (lit "POST"))
      | RKv =>
          if bool_decide (route_key path = []) then Some (httpError (lit "key is required") StatusBadRequest)
          else if bool_decide (rq_method rq ∈ [lit "GET"; lit "PUT"; lit "DELETE"]) then None
          else Some (notAllowed (lit "GET, PUT, DELETE"))
      end
  end.

Definition metrics_request (rq : request) : Prop :=
  is_Some (pathUnescape (rq_path rq)) /\ findHandler (rq_method rq) (rq_path rq) = TRoute RMetrics.

(** What a reserved key holds: the definition of a table or an index, or the page of a row. *)
Record reserved_value (a : adb) (key : bytes) (got : option bytes) : Prop := {
  rv_table : forall name, key = catalogTableKey name -> got = marshalTable ∘ at_def <$> a_tables a !! name;
  rv_index : forall i, key = catalogIndexKey i -> got = marshalIndex <$> a_idx a !! i;
  rv_row : forall name enc, no_slash name -> key = rowKey name enc ->
    row_stored (fun _ => got) key (a_tables a !! name ≫= fun t => at_rows t !! enc);
}.

(** A statement: its text parses and its arguments fill in its parameters. *)
Definition stmt_request (rq : request) (st : stmt) : Prop :=
  exists sql args st0, sql_request rq sql args /\ parseSQL sql = Some (Ok st0) /\ bindArgs st0 args = Ok st.

(** Whether a query's table and columns exist. *)
Definition query_known (a : adb) (table : bytes) (items : list selectItem) : bool :=
  match a_tables a !! normalizeName table with
  | Some t => items_known (at_def t) items
  | None => false
  end.

(** One request: in the state of the map, whether the database is open and the
    tables, the response and the state after it. *)
Inductive served (w : world) : request -> gmap bytes bytes * bool -> adb -> response -> gmap bytes bytes * bool -> adb -> Prop :=
  | served_fixed rq r s a : fixed_answer rq = Some r -> served w rq s a r s a
  | served_metrics rq m s a :
      metrics_request rq -> m_Checkpoints m = wd_checkpoints w -> served w rq s a (writeJSON StatusOK (JMetrics m)) s a
  | served_kv rq q lost s a s' r :
      requests rq q -> kv_ok q -> (lost = true -> e_io (wd_env w) <> IoOk) -> kv_spec lost (wd_compact w) q s = (s', r) ->
      served w rq s a r s' a
  | served_reserved rq key got s a :
      requests rq (KGet key) -> isReservedKey key = true -> reserved_value a key got ->
      served w rq s a (if negb (snd s) then httpErr ErrClosed StatusInternalServerError else get_response got) s a
  | served_malformed rq sql args r e s a :
      sql_request rq sql args -> parseSQL sql = Some r -> (let! st := r in bindArgs st args) = Err e ->
      served w rq s a (writeSQLErr e) s a
  | served_done rq st n s a a' :
      stmt_request rq st -> snd s = true -> spec_exec a st = Some (n, a') ->
      served w rq s a (writeJSON StatusOK (JAffected n)) s a'
  | served_refused rq st e s a :
      stmt_request rq st -> first_word st <> lit "SELECT" ->
      spec_exec a st = None \/ snd s = false \/ e_io (wd_env w) <> IoOk ->
      served w rq s a (writeSQLErr e) s a
  | served_rows rq table items ws t l s a :
      stmt_request rq (selectStmt table items ws) -> snd s = true ->
      a_tables a !! normalizeName table = Some t -> items_known (at_def t) items = true -> l ≡ₚ (map_to_list (selected t ws)).*2 ->
      served w rq s a (rows_response (result_columns (at_def t) items) (result_row (at_def t) items <$> l)) s a
  | served_no_rows rq table items ws e s a :
      stmt_request rq (selectStmt table items ws) -> snd s = false \/ query_known a table items = false ->
      served w rq s a (writeSQLErr e) s a.

Inductive served_all : list (world * request) -> gmap bytes bytes * bool -> adb -> list response -> gmap bytes bytes * bool -> adb -> Prop :=
  | served_nil s a : served_all [] s a [] s a
  | served_cons w rq l s a r s1 a1 rs s2 a2 :
      served w rq s a r s1 a1 -> served_all l s1 a1 rs s2 a2 -> served_all ((w, rq) :: l) s a (r :: rs) s2 a2.

(** The only requests left out: statements that parse and bind, but begin with a
    word that is not ASCII or are outside what the contract of SQL covers. *)
Definition covered (a : adb) (rq : request) : Prop :=
  forall sql args st0 st, sql_request rq sql args -> parseSQL sql = Some (Ok st0) -> bindArgs st0 args = Ok st ->
  is_ascii (first_text sql) = true /\
  match st with
  | selectStmt table items ws => forall t, a_tables a !! normalizeName table = Some t -> where_ok (at_def t) ws
  | _ => stmt_ok a st
  end.

Fixpoint all_covered (s : gmap bytes bytes * bool) (a : adb) (l : list (world * request)) : Prop :=
  match l with
  | [] => True
  | (w, rq) :: l => covered a rq /\ forall r s' a', served w rq s a r s' a' -> all_covered s' a' l
  end.

(** * One request *)

Definition step_served (w : world) (rq : request) (db : Database) (s : gmap bytes bytes * bool) (a : adb) : Prop :=
  exists db' r s' a', Handler w rq db = Some (db', r) /\ served w rq s a r s' a' /\ serves_map db' a' s' /\
  db_version (kv db') <= db_version (kv db) + 1.

Section one.
Context (w : world) (rq : request) (db : Database) (s : gmap bytes bytes * bool) (a : adb).
Hypothesis serving : serves_map db a s.
Hypothesis room : db_version (kv db) + 1 < 2 ^ 64.

(** A response that leaves everything as it is. *)
Lemma step_unchanged r : Handler w rq db = Some (db, r) -> served w rq s a r s a -> step_served w rq db s a.
Proof. intros E H. exists db, r, s, a. split_and!; try done. lia. Qed.

Lemma reserved_holds key : reserved_value a key (now (kv db) key).
Proof.
  destruct (rp_data _ _ (sm_rep _ _ _ serving)) as [Ht Hi Hr].
  split; [intros name ->; apply Ht|intros i ->; apply Hi|intros name enc Hn ->]. specialize (Hr name enc Hn).
  unfold row_stored in *. by destruct (_ ≫= _).
Qed.

Lemma serve_kv q : requests rq q -> step_served w rq db s a.
Proof.
  intros Hq. assert (kv_ok q -> step_served w rq db s a) as Hok.
  { intros Hk. destruct (kv_serves w rq q db a s serving room Hq Hk) as (db' & lost & E & Hl & Hs' & Hv').
    destruct (kv_spec lost (wd_compact w) q s) as [s' r] eqn:Es. exists db', r, s', a. split; [done|]. split; [by eapply served_kv|done]. }
  destruct q as [key| | |]; try (by apply Hok). destruct (isReservedKey key) eqn:Er; [|by apply Hok].
  destruct (get_request w rq key db a s serving Hq) as (db' & E & Hs' & Hv'). eexists db', _, s, a. split; [exact E|]. split; [|split; [done|lia]].
  apply served_reserved with key; [done|done|apply reserved_holds].
Qed.

Lemma serve_fixed r : fixed_answer rq = Some r -> step_served w rq db s a.
Proof.
  intros Hf. apply (step_unchanged r); [|by apply served_fixed]. revert Hf. unfold fixed_answer, Handler.
  destruct (pathUnescape (rq_path rq)) as [path|]; [|by intros [= <-]]. destruct (findHandler _ _) as [[| | | | |]|p|]; try (by intros [= <-]); try done;
    unfold checkpoint_handler, compact_handler, sql_handler, kv_handler; fold (route_key path).
  - case_bool_decide; [done|]. by intros [= <-].
  - case_bool_decide; [done|]. by intros [= <-].
  - case_bool_decide; cbn [negb]; [|by intros [= <-]]. destruct (decodeRequest _); [done|]. by intros [= <-].
  - case_bool_decide; [by intros [= <-]|]. case_bool_decide as Hm; [done|]. rewrite !bool_decide_false by (intros E; apply Hm; rewrite E; set_solver).
    by intros [= <-].
Qed.

Lemma serve_query sql args st0 table items ws :
  sql_request rq sql args -> is_ascii (first_text sql) = true -> parseSQL sql = Some (Ok st0) -> bindArgs st0 args = Ok (selectStmt table items ws) ->
  (forall t, a_tables a !! normalizeName table = Some t -> where_ok (at_def t) ws) -> Forall item_shape items -> step_served w rq db s a.
Proof.
  intros Hrq Ha Hst Hb Hw Hit. pose proof (sql_dispatch w rq db sql args st0 _ Hrq Ha Hst Hb) as Hrun. rewrite bool_decide_true in Hrun by done.
  assert (stmt_request rq (selectStmt table items ws)) as Hsr by (by exists sql, args, st0).
  pose proof (sm_open _ _ _ serving) as Ho. pose proof (sm_rep _ _ _ serving) as Hrep.
  assert (forall e, execSelect (wd_env w) table items ws db = Some (db, Err e) -> snd s = false \/ query_known a table items = false -> step_served w rq db s a) as Hno.
  { intros e E Hc. apply (step_unchanged (writeSQLErr e)); [|by eapply served_no_rows]. rewrite Hrun. by eapply answer_query_refused. }
  destruct (query_known a table items) eqn:Ek.
  2:{ destruct (select_unknown (wd_env w) table items ws db a Hrep) as [e E]; [|by eapply Hno; eauto].
      intros t Ht. unfold query_known in Ek. by rewrite Ht in Ek. }
  unfold query_known in Ek. destruct (a_tables a !! normalizeName table) as [t|] eqn:Et; [|done].
  destruct (snd s) eqn:Eo; cbn [negb] in Ho.
  - destruct (answer_query_run w sql args db a st0 table items ws t Hst Hb Hrep Ho Et (Hw t eq_refl) Hit Ek) as (k' & l & E & Hsd & Hl).
    eexists _, _, s, a. split; [by rewrite Hrun|]. split; [by eapply served_rows|]. split; [by apply serves_same|]. cbn [set_kv kv]. rewrite (sd_version _ _ Hsd). lia.
  - apply (Hno ErrClosed); [|auto]. unfold execSelect, tableDef. rewrite (mr_tables _ _ (rp_mem _ _ Hrep)), lookup_fmap, Et. cbn [fmap option_fmap option_map].
    pose proof (query_projs (at_def t) items) as Hq. rewrite Ek in Hq. destruct Hq as (ps & -> & _).
    rewrite View_closed by done. cbn [mbind option_bind rbind]. by rewrite set_kv_id.
Qed.

Lemma serve_stmt sql args st0 st :
  sql_request rq sql args -> is_ascii (first_text sql) = true -> parseSQL sql = Some (Ok st0) -> bindArgs st0 args = Ok st ->
  first_word st <> lit "SELECT" -> stmt_ok a st -> step_served w rq db s a.
Proof.
  intros Hrq Ha Hst Hb Hsel Hok. pose proof (sql_dispatch w rq db sql args st0 _ Hrq Ha Hst Hb) as Hrun. rewrite bool_decide_false in Hrun by done.
  assert (stmt_request rq st) as Hsr by (by exists sql, args, st0). unfold step_served. rewrite Hrun.
  pose proof (sm_open _ _ _ serving) as Ho. destruct (snd s) eqn:Eo; cbn [negb] in Ho.
  - destruct (answer_exec_run w sql args db a st0 st Hst Hb) as (db' & r & -> & [Hc' Hv' _ Hoth] & Hout); [split; [apply serving|done|done]|done|].
    assert (forall a', rep db' a' -> serves_map db' a' s) as Hserve.
    { intros a' Hr. split; [done|by rewrite Hc', Eo|]. intros key Hkey. rewrite Hoth by done. by apply (sm_keys _ _ _ serving). }
    unfold outcome in Hout. destruct (spec_exec a st) as [[n a']|] eqn:Es.
    + destruct Hout as [[-> Hr]|([e ->] & Hio & Hr)].
      * eexists db', _, s, a'. split; [done|]. split; [by eapply served_done|]. split; [by apply Hserve|done].
      * eexists db', _, s, a. split; [done|]. split; [eapply served_refused; eauto|]. split; [by apply Hserve|done].
    + destruct Hout as [[e ->] Hr]. eexists db', _, s, a. split; [done|]. split; [eapply served_refused; eauto|]. split; [by apply Hserve|done].
  - rewrite (answer_exec_stmt _ _ _ _ _ _ Hst Hb). destruct (closed_refuses_statements (wd_env w) st db Ho) as [e ->]. cbn [mbind option_bind].
    eexists db, _, s, a. split; [done|]. split; [eapply served_refused; eauto|]. split; [done|lia].
Qed.

(** What the parser and the binder let through as a query has valid paths. *)
Lemma query_shape sql st0 args table items ws :
  parseSQL sql = Some (Ok st0) -> bindArgs st0 args = Ok (selectStmt table items ws) -> Forall item_shape items.
Proof.
  intros Hp Hb. destruct (parseSQL_total sql) as (r & Hr & Hs). rewrite Hp in Hr. injection Hr as <-. unfold bindArgs in Hb. case_match; [done|].
  destruct Hs as [_ _ _ Hs]. destruct st0; try done; repeat (destruct (map_res _ _); cbn [rbind] in Hb; [|done]); simplify_eq. apply Hs.
Qed.

Lemma serve_sql sql args : covered a rq -> sql_request rq sql args -> step_served w rq db s a.
Proof.
  intros Hc Hrq. destruct (parseSQL_total sql) as (r & Hp & _). destruct (let! st := r in bindArgs st args) as [st|e] eqn:Hb.
  2:{ apply (step_unchanged (writeSQLErr e)); [|by eapply served_malformed]. rewrite (sql_answer _ _ _ _ _ Hrq). by eapply answer_malformed. }
  destruct r as [st0|]; [|done]. cbn [rbind] in Hb. destruct (Hc sql args st0 st Hrq Hp Hb) as [Ha Hok].
  destruct st as [| | |table items ws| | | |]; try (by eapply serve_stmt). eapply serve_query; [done..|]. by eapply query_shape.
Qed.

Lemma serve_one : covered a rq -> step_served w rq db s a.
Proof.
  intros Hc. destruct (fixed_answer rq) as [r|] eqn:Ef; [by eapply serve_fixed|]. unfold fixed_answer in Ef.
  destruct (pathUnescape (rq_path rq)) as [path|] eqn:Ep; [|done]. destruct (findHandler (rq_method rq) (rq_path rq)) as [r|p|] eqn:Er; [|done..].
  destruct r.
  - done.
  - apply (step_unchanged (writeJSON StatusOK (JMetrics (metrics (wd_checkpoints w) (wd_stat w) (kv db))))); [unfold Handler; by rewrite Ep, Er|].
    apply served_metrics; [|done]. split; [by rewrite Ep|done].
  - case_bool_decide; [|done]. apply (serve_kv KCompact). exists path. auto.
  - case_bool_decide; [|done]. apply (serve_kv KCompact). exists path. auto.
  - case_bool_decide; [|done]. destruct (decodeRequest _) as [[sql args]|] eqn:Ed; [|done]. apply (serve_sql sql args Hc). by split; [rewrite Ep|].
  - case_bool_decide as Hk; [done|]. case_bool_decide as Hm; [|done]. rewrite !elem_of_cons in Hm. destruct Hm as [Hm|[Hm|[Hm|Hm]]]; [| | |by apply elem_of_nil in Hm].
    + apply (serve_kv (KGet (route_key path))). by exists path.
    + apply (serve_kv (KPut (route_key path) (rq_body rq) (rq_fails rq))). by exists path.
    + apply (serve_kv (KDelete (route_key path))). by exists path.
Qed.
End one.

(** C9.  The service refines its contract: for every sequence of requests, of any
    method and path, served one at a time, none panics and every response is one
    that a map of keys to values beside SQL tables allows.  Values, rows and row
    counts are those of the map and the tables at that point, requests that fail
    change neither, and neither part disturbs the other; paths that are not routed,
    wrong methods, empty keys, JSON that does not decode, SQL that does not parse or
    bind and queries of unknown tables or columns get their error and change
    nothing; reads of reserved keys show the catalog entries and row pages of the
    tables.  Left out by [all_covered] are SQL statements that do parse and bind but
    begin with a word that is not ASCII, or lie outside the contract of SQL:
    statements that are not [stmt_ok] (names that are not ASCII, two columns of one
    name, values with NUL bytes or JSON that does not extract) and conditions that
    are not [where_ok] (a single comparison with NULL, with a value of another type
    or with a NUL byte).  There are fewer than 2^64 commits. *)
Theorem http_service_refines_contract l db s a :
  serves_map db a s -> db_version (kv db) + zlen l < 2 ^ 64 -> all_covered s a l ->
  exists db' rs s' a', serve_all l db = Some (db', rs) /\ served_all l s a rs s' a' /\ serves_map db' a' s'.
Proof.
  revert db s a. induction l as [|[w rq] l IH]; intros db s a Hs Hv Hok; [exists db, [], s, a; split; [done|]; split; [constructor|done]|].
  rewrite zlen_cons in Hv. pose proof (zlen_nonneg l). destruct Hok as [Hc Hok].
  destruct (serve_one w rq db s a Hs ltac:(lia) Hc) as (db1 & r & s1 & a1 & E & Hst & Hs1 & Hv1).
  destruct (IH db1 s1 a1 Hs1 ltac:(lia) (Hok _ _ _ Hst)) as (db' & rs & s' & a' & E' & Hall & Hs').
  exists db', (r :: rs), s', a'. cbn [serve_all]. rewrite E. cbn [mbind option_bind]. rewrite E'. cbn [mbind option_bind].
  split; [done|]. split; [by econstructor|done].
Qed.
End service.
