(* ===== verification/SqlWitness.v ===== *)
(** Concrete instances of the theorems of the SQL layer: a database with a JSON
    column, two indexes and a few rows, built by a script that the contract
    covers, at which every hypothesis is checked. *)

From S2P Require Import Prelude Utf8 Unicode Strconv Keys Page Row JsonBin SqlLex Wal WalJson Mvcc Compact System Durable Witnesses Catalog CatalogJson BTree Secondary.
From S2P Require Import SqlAst SqlParse SqlParseSpec SqlBind SqlBindSpec SqlExec SqlKernel SqlBase SqlSemantics SqlState SqlIndexes SqlRows SqlFrame SqlSchema SqlData SqlRebuild SqlRefine.

(** * Values the contract covers *)

(** The nodes of a document that paths reach. *)
Fixpoint nodes (v : any) : list any :=
  v :: match v with AObject kvs => concat (map (fun kv => nodes (snd kv)) kvs) | _ => [] end.

Lemma walk_nodes segs : forall v cur, walk segs v = Some cur -> cur ∈ nodes v.
Proof.
  induction segs as [|seg segs IH]; intros v cur; cbn [walk]; [intros [= ->]; destruct cur; by left|].
  destruct v as [| | | | | | |kvs]; try done. destruct (obj_get seg kvs) as [next|] eqn:E; [|done]. intros H%IH.
  cbn [nodes]. right. apply obj_get_elem in E. rewrite list_elem_of_In. apply in_concat. exists (nodes next). split; [|by apply list_elem_of_In].
  apply in_map_iff. exists (seg, next). split; [done|by apply list_elem_of_In].
Qed.

(** What JSON_EXTRACT makes of a node. *)
Definition leaf_fine `{GoJson} (v : any) : bool :=
  match jsonLeafToValue (norm v) with
  | Ok (x, _) => bool_decide (Byte.x00 ∉ Text x) && bool_decide (- 2 ^ 63 <= Int x < 2 ^ 63)
  | Err _ => false
  end.

Lemma json_fine `{Unicode} `{GoJson} text bin v :
  encodeJSON text = Ok bin -> zlen bin < 2 ^ 32 -> decodeText text = Some v -> forallb leaf_fine (nodes v) = true -> value_fine (JSONValue bin).
Proof.
  intros E Hl Hd Hall. split; [apply not_elem_of_nil|]. intros _ _ path [segs Hp]. cbn [Blob JSONValue].
  destruct (encodeJSON_read text bin E Hl) as (v' & Hv & Hr). rewrite Hd in Hv. injection Hv as <-.
  unfold indexableExtract, jsonExtract. rewrite Hp. cbn [rbind]. rewrite Hr. cbn [rbind]. rewrite walk_norm.
  destruct (walk segs v) as [cur|] eqn:Ew; cbn [fmap option_fmap option_map]; [|by eexists _, _].
  rewrite forallb_forall in Hall. specialize (Hall cur). rewrite <- list_elem_of_In in Hall. specialize (Hall (walk_nodes _ _ _ Ew)).
  unfold leaf_fine in Hall. destruct (jsonLeafToValue (norm cur)) as [[x ok]|]; [|done]. to_prop.
  cbn [rbind]. destruct ok; cbn [negb]; [|by eexists _, _]. destruct (Null x); [by eexists _, _|].
  destruct (Typ x); eexists _, _; (split; [done|]); try done; intros _; (split; [by apply clean_text|done]).
Qed.

(** A decidable test of expressions that are not JSON texts. *)
Definition plain_expr `{GoJson} (e : expr) : bool :=
  match e with
  | exprNull => true
  | exprInt i => bool_decide (- 2 ^ 63 <= i < 2 ^ 63)
  | exprText s => bool_decide (Byte.x00 ∉ s) && match encodeJSON s with Ok _ => false | Err _ => true end
  | exprBlob b => match encodeJSON b with Ok _ => false | Err _ => true end
  | exprParam _ => true
  end.

Lemma plain_fine `{Unicode} `{GoJson} e : plain_expr e = true -> expr_fine e.
Proof.
  assert (forall v, Text v = [] -> Typ v <> TypeJSON \/ Null v = true -> value_fine v) as Hother.
  { intros v Ht Hv. split; [rewrite Ht; apply not_elem_of_nil|]. intros Hn Hj. destruct Hv; congruence. }
  assert (in_i64 0) as Hzero by (unfold in_i64; lia).
  intros He typ v. unfold exprToValue. destruct e as [|i|s|b|k]; cbn [plain_expr] in He; to_prop.
  - intros [= <-]. split; [done|]. apply Hother; auto.
  - destruct typ; try done. intros [= <-]. split; [done|]. apply Hother; [done|by left].
  - destruct typ; try done; [intros [= <-]; split; [done|]; split; [done|done]|]. cbn [rbind]. by destruct (encodeJSON s).
  - destruct typ; try done; [intros [= <-]; split; [done|]; apply Hother; [done|by left]|]. cbn [rbind]. by destruct (encodeJSON b).
  - by destruct typ.
Qed.

(** * Scripts *)

Section scripts.
Context `{U : Unicode} `{J : GoJson} `{R : RecordCodec} `{C : CatalogCodec}.

(** A script the contract covers and accepts, from [a] to [a']. *)
Fixpoint script_ok (a : adb) (l : list (env * stmt)) (a' : adb) : Prop :=
  match l with
  | [] => a' = a
  | (v, st) :: l => e_io v = IoOk /\ stmt_ok a st /\ exists n a1, spec_exec a st = Some (n, a1) /\ script_ok a1 l a'
  end.

Lemma script_stmts_ok l : forall a a', script_ok a l a' -> stmts_ok a l.
Proof.
  induction l as [|[v st] l IH]; intros a a'; [done|]. cbn. intros (Ho & Hst & n & a1 & Es & Hl). split; [done|].
  intros r a2 Hs. inversion Hs; subst; [|congruence|congruence]. rewrite Es in *. simplify_eq. by eapply IH.
Qed.

Definition after (l : list (env * stmt)) : Database :=
  match exec_all l (empty_database walHeader) with Some (db, _) => db | None => empty_database walHeader end.

Lemma script_rep_from l : forall db a a',
  rep db a -> db_closed (kv db) = false -> db_version (kv db) + zlen l < 2 ^ 64 -> script_ok a l a' ->
  exists db' rs, exec_all l db = Some (db', rs) /\ rep db' a' /\ db_closed (kv db') = false /\ db_version (kv db') <= db_version (kv db) + zlen l.
Proof.
  induction l as [|[v st] l IH]; intros db a a' Hrep Hc Hv.
  { cbn. intros ->. exists db, []. split; [done|]. split; [done|]. split; [done|]. unfold zlen. cbn. lia. }
  rewrite zlen_cons in Hv. pose proof (zlen_nonneg l). cbn [script_ok]. intros (Ho & Hst & n & a1 & Es & Hl).
  destruct (stmt_answers v st db a) as (db1 & r & E & [Hc1 Hv1] & H1); [split; [done|done|lia]|done|]. rewrite Es in H1. cbn [outcome] in H1.
  destruct H1 as [[-> Hrep1]|(_ & ? & _)]; [|done].
  destruct (IH db1 a1 a' Hrep1 Hc1 ltac:(lia) Hl) as (db' & rs & E' & Hrep' & Hc' & Hv').
  exists db', (Ok (mkResult n) :: rs). cbn [exec_all]. rewrite E. cbn [mbind option_bind]. rewrite E'. split; [done|]. rewrite zlen_cons. split; [done|]. split; [done|lia].
Qed.

Lemma script_ready l a : zlen l + 1 < 2 ^ 64 -> script_ok no_tables l a -> ready (after l) a.
Proof.
  intros Hl Hok. destruct (script_rep_from l (empty_database walHeader) no_tables a) as (db & rs & E & Hrep & Hc & Hv);
    [apply rep_empty|done|cbn [empty_database kv empty_db db_version]; lia|done|].
  unfold after. rewrite E. split; [done|done|]. cbn [empty_database kv empty_db db_version] in Hv. lia.
Qed.
End scripts.

(** * The example *)

Definition list_order : map_order := {| range := map_to_list; range_perm m := reflexivity _ |}.
Definition v0 : env := mkEnv IoOk 1 list_order list_order.

Definition users : list ColumnDef :=
  [mkColumn (lit "id") TypeInteger true; mkColumn (lit "Name") TypeText false; mkColumn (lit "doc") TypeJSON false].

Definition s_create : stmt := createTableStmt (lit "Users") users.
Definition s_by_name : stmt := createIndexStmt (lit "by_name") (lit "users") (lit "NAME") [].
Definition s_by_age : stmt := createIndexStmt (lit "by_age") (lit "users") (lit "doc") (lit "$.age").
Definition s_ada : stmt := insertStmt (lit "users") [] [exprInt 1; exprText (lit "ada"); exprText demo_text].
Definition s_bob : stmt := insertStmt (lit "users") [lit "name"; lit "id"] [exprText (lit "bob"); exprInt 2].
Definition w_bob : list pred := [predColumn (lit "name") (exprText (lit "bob"))].
Definition s_rename : stmt := updateStmt (lit "users") [mkAssign (lit "name") (exprText (lit "bea"))] w_bob.
Definition s_delete : stmt := deleteStmt (lit "users") [predColumn (lit "id") (exprInt 2)].

Definition run_script (l : list stmt) : list (env * stmt) := (fun st => (v0, st)) <$> l.

(** The state of the contract after statements. *)
Definition spec_after (l : list stmt) : adb := foldl (fun a st => match spec_exec a st with Some (_, a') => a' | None => a end) no_tables l.

Ltac compute_bool := apply (bool_decide_unpack _); vm_compute; exact I.

Lemma plain_name (s : bytes) : bool_decide (is_ascii s = true /\ no_slash s) = true -> name_plain s.
Proof. by intros H%bool_decide_eq_true. Qed.

Lemma create_ok a : stmt_ok a s_create.
Proof.
  split; [apply plain_name; by vm_compute|]. split; [repeat constructor; apply plain_name; by vm_compute|].
  split; [compute_bool|]. split; [by vm_compute|]. repeat constructor; cbn; auto; done.
Qed.

Lemma index_ok_name a : stmt_ok a s_by_name.
Proof. split; [apply plain_name; by vm_compute|]. split; [apply plain_name; by vm_compute|]. by vm_compute. Qed.

Lemma index_ok_age a : stmt_ok a s_by_age.
Proof. split; [apply plain_name; by vm_compute|]. split; [apply plain_name; by vm_compute|]. by vm_compute. Qed.

Lemma demo_fine : expr_fine (exprText demo_text).
Proof.
  intros typ v. unfold exprToValue. destruct typ; try done.
  - intros [= <-]. split; [unfold value_ok, in_i64; cbn; lia|]. split; [|done]. cbn [Text TextValue]. compute_bool.
  - cbn [rbind]. change (encodeJSON demo_text) with (@Ok bytes demo_bin). cbn [rbind]. intros [= <-]. split; [unfold value_ok, in_i64; cbn; lia|].
    apply (json_fine demo_text demo_bin demo_doc); by vm_compute.
Qed.

Lemma ada_ok a : stmt_ok a s_ada.
Proof. unfold s_ada. cbn [stmt_ok]. rewrite !Forall_cons, Forall_nil. split_and!; [by apply plain_fine; vm_compute..|exact demo_fine|done]. Qed.

Lemma bob_ok a : stmt_ok a s_bob.
Proof. unfold s_bob. cbn [stmt_ok]. rewrite !Forall_cons, Forall_nil. split_and!; [by apply plain_fine; vm_compute..|done]. Qed.

Definition base : list stmt := [s_create; s_by_name; s_by_age; s_ada; s_bob].
Definition a0 : adb := spec_after base.
Definition db0 : Database := after (run_script base).
Definition users_def : TableDef := mkTable (lit "users") (normalizeColumns users).
Definition users_t : atable := default (mkATable users_def ∅) (a_tables a0 !! lit "users").

Lemma base_ok : script_ok no_tables (run_script base) a0.
Proof.
  assert (forall (a : adb) st rest a', (match spec_exec a st with Some _ => true | None => false end) = true -> stmt_ok a st ->
    script_ok (match spec_exec a st with Some (_, a1) => a1 | None => a end) rest a' -> script_ok a ((v0, st) :: rest) a') as Hstep.
  { intros a st rest a' Hs Hok Hr. split; [done|]. split; [done|]. destruct (spec_exec a st) as [[n a1]|]; [|done]. by exists n, a1. }
  apply Hstep; [by vm_compute|apply create_ok|]. apply Hstep; [by vm_compute|apply index_ok_name|].
  apply Hstep; [by vm_compute|apply index_ok_age|]. apply Hstep; [by vm_compute|apply ada_ok|].
  apply Hstep; [by vm_compute|apply bob_ok|]. reflexivity.
Qed.

Lemma base_ready : ready db0 a0.
Proof. apply script_ready; [by vm_compute|exact base_ok]. Qed.

Lemma base_run : exists rs, exec_all (run_script base) (empty_database walHeader) = Some (db0, rs).
Proof.
  assert (match exec_all (run_script base) (empty_database walHeader) with Some _ => true | None => false end = true) as H by (vm_compute; reflexivity).
  unfold db0, after. destruct (exec_all (run_script base) (empty_database walHeader)) as [[db rs]|]; [by exists rs|done].
Qed.

Lemma users_table t : a_tables a0 !! lit "users" = Some t -> t = users_t /\ at_def t = users_def.
Proof.
  intros H. unfold users_t. rewrite H. split; [done|].
  assert (at_def <$> a_tables a0 !! lit "users" = Some users_def) as E by (vm_compute; reflexivity). rewrite H in E. by injection E.
Qed.

Lemma bob_where : where_ok users_def w_bob.
Proof.
  split; [by repeat constructor|]. intros i col Hi Hc. vm_compute in Hi. injection Hi as <-. vm_compute in Hc. injection Hc as <-.
  exists (TextValue (lit "bob")). split; [done|]. split; [done|]. split; [unfold value_ok, in_i64; cbn; lia|]. compute_bool.
Qed.

Lemma rename_ok : stmt_ok a0 s_rename.
Proof.
  split; [rewrite Forall_singleton; split; [apply plain_name; by vm_compute|by apply plain_fine; vm_compute]|].
  intros t Ht. apply users_table in Ht as [_ ->]. exact bob_where.
Qed.

(** * Witnesses *)

Lemma exec_refines_contract_witness :
  exists db' r, exec_stmt v0 s_rename db0 = Some (db', r) /\
  match spec_exec a0 s_rename with
  | Some (n, a') => (r = Ok (mkResult n) /\ rep db' a') \/ ((exists e, r = Err e) /\ e_io v0 <> IoOk /\ rep db' a0)
  | None => (exists e, r = Err e) /\ rep db' a0
  end.
Proof. apply (exec_refines_contract v0 s_rename db0 a0); [exact base_ready|exact rename_ok]. Defined.

Lemma history_refines_contract_witness :
  exists db rs a, exec_all (run_script base) (empty_database walHeader) = Some (db, rs) /\ spec_steps no_tables (run_script base) rs a /\ rep db a.
Proof. apply (history_refines_contract walHeader (run_script base)); [vm_compute; reflexivity|exact (script_stmts_ok _ _ _ base_ok)]. Defined.

Lemma stored_rows_well_typed_witness :
  exists vals, unpackRow (default [] (now (kv db0) (rowKey (lit "users") (lit "i:1")))) = Some (Ok vals) /\
  Forall2 (fun c v => Null v = true \/ Typ v = col_Type c) (tab_Columns users_def) vals.
Proof.
  destruct base_run as [rs E].
  destruct (stored_rows_well_typed walHeader (run_script base) db0 rs (lit "users") users_def (lit "i:1")
    (default [] (now (kv db0) (rowKey (lit "users") (lit "i:1"))))) as (vals & Hu & Ht & _).
  - vm_compute. reflexivity.
  - exact (script_stmts_ok _ _ _ base_ok).
  - exact E.
  - vm_compute. reflexivity.
  - vm_compute. reflexivity.
  - exists vals. split; [exact Hu|exact Ht].
Defined.

Lemma closed_refuses_statements_witness :
  exists e, exec_stmt v0 s_rename (set_kv (set_closed true (kv db0)) db0) = Some (set_kv (set_closed true (kv db0)) db0, Err e).
Proof. apply (closed_refuses_statements v0 s_rename). reflexivity. Defined.

Lemma query_exact_witness :
  let items := [selectColumn (lit "name"); selectExtract (lit "doc") (lit "$.age")] in
  exists db' r, execSelect v0 (lit "users") items w_bob db0 = Some (db', r) /\ rep db' a0 /\
  exists rows l, r = Ok rows /\ Columns rows = [lit "name"; lit "json_extract(doc, '$.age')"] /\
  r_data rows = result_row users_def items <$> l /\ l ≡ₚ (map_to_list (selected users_t w_bob)).*2.
Proof.
  intros items. destruct (query_exact v0 (lit "users") items w_bob db0 a0) as (db' & r & E & Hrep & H).
  - exact (rd_rep _ _ base_ready).
  - exact (rd_open _ _ base_ready).
  - repeat constructor. cbn. eexists. vm_compute. reflexivity.
  - intros t Ht. apply users_table in Ht as [_ ->]. exact bob_where.
  - exists db', r. split; [exact E|]. split; [exact Hrep|].
    assert (a_tables a0 !! normalizeName (lit "users") = Some users_t) as Et by (vm_compute; reflexivity). rewrite Et in H.
    assert (items_known (at_def users_t) items = true) as Ek by (vm_compute; reflexivity). rewrite Ek in H. exact H.
Defined.

(** The rows conditions mean, and what a query shows of them. *)
Example query_meaning :
  let items := [selectColumn (lit "NAME"); selectExtract (lit "doc") (lit "$.age")] in
  let rows ws := result_row users_def items <$> (map_to_list (selected users_t ws)).*2 in
  rows w_bob = [[TextValue (lit "bob"); NullValue]] /\
  rows [predColumn (lit "doc") exprNull] = [[TextValue (lit "bob"); NullValue]] /\
  rows [predExtract (lit "doc") (lit "$.age") (exprInt 7); predColumn (lit "id") (exprInt 2)] = [] /\ rows [predColumn (lit "id") (exprText (lit "1"))] = [].
Proof. by vm_compute. Qed.

Lemma cursor_yields_rows_witness :
  let data := [[IntValue 1; TextValue (lit "a")]; [IntValue 2; NullValue]] in
  let r := mkRows [lit "id"; lit "tag"] data (-1) false in
  (forall ds, Scan r ds = Err ErrSQL) /\
  exists r', fetch 3 r = Some (scan_row <$> data, r') /\
  snd (Next r') = false /\ (forall ds, Scan r' ds = Err ErrSQL) /\
  forall q, snd (Next (CloseRows q)) = false /\ forall ds, Scan (CloseRows q) ds = Err ErrSQL.
Proof. apply (cursor_yields_rows [lit "id"; lit "tag"]); [repeat constructor|cbn; lia]. Defined.

Definition s_params : stmt := insertStmt (lit "users") [] [exprParam 0; exprText (lit "x"); exprParam 1].

(** int64 of a float64 out of range is the smallest int64, as on common hardware. *)
#[refine] Instance min_float : GoFloat := {| int64_overflow _ := - 2 ^ 63 |}.
Proof. intros _. unfold in_i64. lia. Defined.

Lemma params_shape : stmt_shape s_params.
Proof. split; [repeat constructor; compute_bool|repeat constructor|by repeat constructor|done]. Qed.

Lemma bindArgs_positional_witness :
  let args := [ArgInt64 7; ArgNil; ArgOther] in
  match decide (2 <= length args)%nat with
  | left _ =>
      (exists vs st', Forall2 (fun a v => anyToExpr a = Ok v) (take 2 args) vs /\ bindArgs s_params args = Ok st' /\
         stmt_exprs st' = plug (stmt_exprs s_params) vs /\ skeleton st' = skeleton s_params /\ Forall (fun e => is_param e = false) vs) \/
      (~ Forall (fun a => supported a = true) (take 2 args) /\ bindArgs s_params args = Err ErrSQL)
  | right _ => bindArgs s_params args = Err ErrSQL
  end.
Proof. apply (bindArgs_positional s_params [ArgInt64 7; ArgNil; ArgOther]). exact params_shape. Defined.

(** ** A restart *)

Lemma restart_preserves_tables_witness :
  exists rs a db', spec_steps no_tables (run_script base) rs a /\ rep db0 a /\
  OpenWithOptions (db_file (kv db0)) = Some (Ok db') /\ rep db' a /\ db_closed (kv db') = false.
Proof.
  destruct base_run as [rs E]. exists rs. apply (restart_preserves_tables (run_script base) db0 rs).
  - vm_compute. reflexivity.
  - exact (script_stmts_ok _ _ _ base_ok).
  - unfold run_script, base. repeat constructor.
  - exact E.
  - vm_compute. discriminate.
Defined.
