(* ===== verification/SqlFindings.v ===== *)
(** Where the executor does not do what its statements say: conditions with NULL
    answered by an index, index maintenance after the commit of concurrent
    updates, and the guard of the primary key.  Each is a theorem about any
    database of that kind, with a run of the executor on texts as an example. *)

From S2P Require Import Prelude Utf8 Unicode Strconv Keys Page Row JsonBin SqlLex Wal WalJson Mvcc Catalog CatalogJson BTree Secondary.
From S2P Require Import SqlAst SqlParse SqlParseSpec SqlBind SqlExec SqlKernel SqlBase SqlSemantics SqlState SqlIndexes SqlRows SqlFrame SqlSchema SqlData SqlRefine SqlWitness.

(** * Running scripts *)

Definition key_order : map_order := {| range := map_to_list; range_perm m := reflexivity _ |}.

Definition calm : env := mkEnv IoOk 1 key_order key_order.

Section scripts.
Context `{U : Unicode} `{J : GoJson}.

(** Execute texts in order; [None] when one fails. *)
Definition script (sqls : list bytes) (db : Database) : option Database :=
  foldl (fun db sql => db ← db; '(db, r) ← Exec calm sql [] db; match r with Ok _ => Some db | Err _ => None end) (Some db) sqls.

Definition fresh_database : Database := mkDatabase (empty_db walHeader) ∅ ∅ ∅.

(** The rows of a query on the database a script makes. *)
Definition answer (db : option Database) (sql : bytes) : option (res (list (list Value))) :=
  db ← db; '(_, r) ← Query calm sql [] db; Some (let! rows := r in Ok (r_data rows)).
End scripts.

(** * NULL and the indexes *)

Definition people : option Database :=
  script [lit "CREATE TABLE p (id INTEGER PRIMARY KEY, age INTEGER)"; lit "CREATE INDEX by_age ON p (age)";
          lit "INSERT INTO p VALUES (0, NULL)"; lit "INSERT INTO p VALUES (1, 0)"] fresh_database.

(** The key 0 is found under [id = NULL], and the age 0 under [age = NULL], which
    misses the NULL; the same conditions written twice, which the table scan
    answers, give no row and the row with NULL. *)
Example null_equality_run :
  answer people (lit "SELECT id FROM p WHERE id = NULL") = Some (Ok [[IntValue 0]]) /\
  answer people (lit "SELECT id FROM p WHERE id = NULL AND id = NULL") = Some (Ok []) /\
  answer people (lit "SELECT id FROM p WHERE age = NULL") = Some (Ok [[IntValue 1]]) /\
  answer people (lit "SELECT id FROM p WHERE age = NULL AND age = NULL") = Some (Ok [[IntValue 0]]).
Proof. vm_compute. done. Qed.

(** The literal a NULL is looked up as. *)
Definition zero_of (typ : ColType) : expr := match typ with TypeText => exprText [] | _ => exprInt 0 end.

Section null_equality.
Context `{U : Unicode} `{J : GoJson} `{C : CatalogCodec}.

(** The primary key or a secondary index answers an equality on the column. *)
Definition by_index (db : Database) (def : TableDef) (c : bytes) : Prop :=
  (exists pkCol i, pkColumn def = Ok (pkCol, i) /\ normalizeName c = col_Name pkCol) \/
  (exists x si, secIndexes db !! x = Some si /\ serves def (predColumn c exprNull) si = true).

Lemma lookup_prefix si val val' : value_prefix val = value_prefix val' -> lookup si val = lookup si val'.
Proof. intros E. unfold lookup, compositePrefix. by rewrite E. Qed.

(** Both are looked up under the same key. *)
Lemma collect_null_zero v db tx def c i col k :
  columns_good def -> resolve def c = Some (i, col) -> col_Type col = TypeInteger \/ col_Type col = TypeText -> by_index db def c ->
  collectRows v db tx def [predColumn c exprNull] k = collectRows v db tx def [predColumn c (zero_of (col_Type col))] k.
Proof.
  intros Hgood Hr Ht Hby. unfold collectRows. destruct (pkColumn def) as [[pkCol j]|] eqn:Epk; [|done]. cbn [is_pk_pred pred_value].
  case_bool_decide as Hpk.
  - assert (pkCol = col) as ->.
    { destruct (pkColumn_inv _ _ _ Epk) as [Hj _]. pose proof (columnIndex_resolve def c) as E. rewrite Hr, Hpk in E.
      rewrite (columnIndex_name def Hgood j pkCol Hj) in E. injection E as ->. apply resolve_column in Hr. congruence. }
    unfold collect_pk. by destruct Ht as [-> | ->].
  - change (fun kx : bytes * secondaryIdx => serves def (predColumn c (zero_of (col_Type col))) (snd kx))
      with (fun kx : bytes * secondaryIdx => serves def (predColumn c exprNull) (snd kx)).
    destruct (List.find _ _) as [[x si]|] eqn:Ef.
    + cbn [lookup_value]. rewrite columnIndex_resolve, Hr. cbn [rbind]. rewrite (resolve_column _ _ _ _ Hr).
      destruct Ht as [-> | ->]; cbn [exprToValue zero_of]; [by rewrite (lookup_prefix si (nullOf TypeInteger) (IntValue 0))|by rewrite (lookup_prefix si (nullOf TypeText) (TextValue []))].
    + exfalso. destruct Hby as [(p & j' & E & Hn)|(x & si & Hx & Hs)]; [rewrite Epk in E; congruence|].
      assert ((x, si) ∈ e_find v (secIndexes db)) as Hin by (by rewrite (range_perm (e_find v)), elem_of_map_to_list).
      apply list_elem_of_In in Hin. pose proof (List.find_none _ _ Ef _ Hin) as Hf. cbn [snd] in Hf. congruence.
Qed.
(** Unless another row is compared, NULL and the zero are told apart. *)
Lemma zero_not_null def c i col vals :
  resolve def c = Some (i, col) -> satisfies def [predColumn c (zero_of (col_Type col))] vals = true -> satisfies def [predColumn c exprNull] vals = false.
Proof.
  intros Hr. cbn [satisfies forallb]. rewrite !andb_true_r. unfold holds. cbn [pred_column]. rewrite Hr. destruct (vals !! i) as [x|]; [|done].
  cbn [is_literal]. unfold zero_of. destruct (col_Type col); cbn [is_literal]; destruct (Null x); done.
Qed.

Lemma zero_ok def c i col :
  resolve def c = Some (i, col) -> col_Type col = TypeInteger \/ col_Type col = TypeText -> where_ok def [predColumn c (zero_of (col_Type col))].
Proof.
  intros Hr Ht. split; [by repeat constructor|]. intros j d Hj Hd. rewrite columnIndex_resolve, Hr in Hj. injection Hj as <-.
  rewrite (resolve_column _ _ _ _ Hr) in Hd. injection Hd as <-.
  destruct Ht as [-> | ->]; (eexists; split; [reflexivity|]; split; [done|]; split; [unfold value_ok, in_i64; cbn; lia|apply not_elem_of_nil]).
Qed.

(** C33.  An equality with NULL is answered for zero when an index answers it.  On
    any open database that represents some tables, for a column of type INTEGER or
    TEXT that is the primary key or has a secondary index: SELECT WHERE column =
    NULL returns the rows whose column is 0, or the empty text, none of which is
    NULL there; while the same condition written twice, which the table scan
    answers, returns exactly the rows where the column is NULL. *)
Theorem null_equality_uses_zero v table items c db a t i col :
  rep db a -> db_closed (kv db) = false -> a_tables a !! normalizeName table = Some t ->
  Forall item_shape items -> items_known (at_def t) items = true ->
  resolve (at_def t) c = Some (i, col) -> col_Type col = TypeInteger \/ col_Type col = TypeText -> by_index db (at_def t) c ->
  (exists db' rows l, execSelect v table items [predColumn c exprNull] db = Some (db', Ok rows) /\ r_data rows = result_row (at_def t) items <$> l /\
   l ≡ₚ (map_to_list (selected t [predColumn c (zero_of (col_Type col))])).*2 /\
   Forall (fun vals => satisfies (at_def t) [predColumn c exprNull] vals = false) l) /\
  (exists db' rows l, execSelect v table items [predColumn c exprNull; predColumn c exprNull] db = Some (db', Ok rows) /\
   r_data rows = result_row (at_def t) items <$> l /\ l ≡ₚ (map_to_list (selected t [predColumn c exprNull])).*2).
Proof.
  intros Hrep Hc Ht Hit Hkn Hr Hty Hby. pose proof (aw_tables _ (rp_wf _ _ Hrep) _ _ Ht) as Hwf. split.
  - destruct (select_exact v table items _ db a t Hrep Hc Ht (zero_ok _ _ _ _ Hr Hty) Hit Hkn) as (k' & l & E & _ & Hl).
    exists (set_kv k' db), (mkRows (result_columns (at_def t) items) (result_row (at_def t) items <$> l) (-1) false), l. split; [|split; [done|split; [exact Hl|]]].
    + rewrite <- E. unfold execSelect, tableDef. rewrite (mr_tables _ _ (rp_mem _ _ Hrep)), lookup_fmap, Ht. cbn [fmap option_fmap option_map].
      destruct (select_projs (at_def t) items) as [projs|]; [|done]. unfold View. destruct (Begin (e_tx v) false (kv db)) as [[k tx]|]; [|done].
      unfold select_body. by rewrite (collect_null_zero v db tx (at_def t) c i col k (tw_cols _ _ Hwf) Hr Hty Hby).
    + rewrite Hl. apply Forall_fmap, Forall_forall. intros [enc vals] Hin%elem_of_map_to_list. cbn [snd]. unfold selected in Hin.
      apply map_lookup_filter_Some in Hin as [_ Hs]. by eapply zero_not_null.
  - destruct (select_exact v table items [predColumn c exprNull; predColumn c exprNull] db a t Hrep Hc Ht) as (k' & l & E & _ & Hl); [by split; [repeat constructor|]|done|done|].
    eexists _, _, l. split; [exact E|]. split; [done|]. rewrite Hl.
    assert (selected t [predColumn c exprNull; predColumn c exprNull] = selected t [predColumn c exprNull]) as ->; [|done].
    unfold selected. apply map_filter_ext. intros enc vals _. cbn [snd satisfies forallb]. by destruct (holds (at_def t) vals (predColumn c exprNull)).
Qed.
End null_equality.

(** A value of the wrong type is an error for an index and no match for the scan. *)
Theorem type_mismatch_depends_on_index :
  answer people (lit "SELECT id FROM p WHERE id = 'x'") = Some (Err ErrSQL) /\
  answer people (lit "SELECT id FROM p WHERE id = 'x' AND id = 'x'") = Some (Ok []).
Proof. vm_compute. done. Qed.

(** * Concurrent updates *)

Definition tags : option Database :=
  script [lit "CREATE TABLE t (id INTEGER PRIMARY KEY, tag TEXT)"; lit "CREATE INDEX by_tag ON t (tag)";
          lit "INSERT INTO t VALUES (1, 'a')"] fresh_database.

Definition set_tag (tag : bytes) : list assign := [mkAssign (lit "tag") (exprText tag)].

(** The first part of an UPDATE of [t], up to its commit. *)
Definition commit_update (id : nat) (tag : bytes) (db : Database) : option (Database * list updateItem) :=
  def ← tables db !! lit "t";
  '(k, r) ← Update IoOk id (update_body calm db def (set_tag tag) []) (kv db);
  match r with Ok us => Some (set_kv k db, us) | Err _ => None end.

(** The second part, its index maintenance. *)
Definition maintain (us : list updateItem) (db : Database) : option Database :=
  def ← tables db !! lit "t"; '(db, _) ← update_indexes calm (lit "t") def us db; Some db.

(** Two updates of the same row, both committed before the indexes are
    maintained, in the given order. *)
Definition interleaved (later_first : bool) : option Database :=
  db ← tags;
  '(db, us1) ← commit_update 1 (lit "b") db;
  '(db, us2) ← commit_update 2 (lit "c") db;
  if later_first then db ← maintain us2 db; maintain us1 db else db ← maintain us1 db; maintain us2 db.

(** The stale entry returns the row for the overwritten value; in commit order it does not. *)
Example stale_index_run :
  answer (interleaved true) (lit "SELECT tag FROM t WHERE tag = 'b'") = Some (Ok [[TextValue (lit "c")]]) /\
  answer (interleaved false) (lit "SELECT tag FROM t WHERE tag = 'b'") = Some (Ok []).
Proof. vm_compute. done. Qed.

Section stale_index.
Context `{U : Unicode} `{J : GoJson} `{C : CatalogCodec}.

(** A pass over the indexes of a table that takes those with [P] to ones with [Q]. *)
Lemma pass_all v name f (P Q : secondaryIdx -> Prop) db :
  (forall si, idx_Table (si_def si) = name -> P si -> exists si', f si = Some (si', None) /\ Q si') ->
  (forall x si, secIndexes db !! x = Some si -> idx_Table (si_def si) = name -> P si) ->
  exists secs, each_index name f (e_each v (secIndexes db)) (secIndexes db) = Some (secs, None) /\
  forall x si, secs !! x = Some si -> idx_Table (si_def si) = name -> Q si.
Proof.
  intros Hf HP. destruct (each_index_ok name f (fun _ si' => Q si') (e_each v) (secIndexes db)) as (secs & E & H).
  { intros x si Hx Hm. by apply Hf; [|eapply HP]. }
  exists secs. split; [done|]. intros x si' Hx Hm. specialize (H x). rewrite Hx in H. destruct (secIndexes db !! x) as [si|]; [|done].
  destruct H as [H1 H2]. destruct (decide (idx_Table (si_def si) = name)) as [Hd|Hd]; [by apply H1|]. rewrite (H2 Hd) in Hm. done.
Qed.

Section row.
Context (name : bytes) (def : TableDef) (pk : pkKey).
Hypothesis kind : pk_kind (int_keys def) pk.

(** An index that is a tree of entries, whatever they are. *)
Definition entry_tree (si : secondaryIdx) : Prop :=
  index_column_ok def (idx_Column (si_def si)) (idx_Path (si_def si)) = Ok tt /\
  exists f, tree_has entry_key (entry_ok (int_keys def)) (si_tree si) f.

(** The row is found under every value that [vals] has in the index. *)
Definition found_under (vals : list Value) (si : secondaryIdx) : Prop :=
  forall val, clean val -> index_value (si_def si) def vals = Some (value_prefix val) ->
  exists rks, lookup si val = Some rks /\ rowKey name (pk_encode pk) ∈ rks.

Lemma tree_lookup si f val rk :
  tree_has entry_key (entry_ok (int_keys def)) (si_tree si) f -> clean val -> f (val, pk) = Some rk -> exists rks, lookup si val = Some rks /\ rk ∈ rks.
Proof.
  intros ([h Hok] & Hkeys & Hf) Hc Hv. eexists. split.
  - apply (lookup_filter si h val Hok). eapply Forall_impl; [exact Hkeys|]. by intros [k v] ([val' pk'] & _ & ->).
  - rewrite <- (Hf (val, pk)) in Hv by done. apply m_get_elem in Hv as (k & Hin & E). rewrite Forall_forall in Hkeys.
    destruct (Hkeys _ Hin) as ([val' pk'] & [Hc' _] & Ek). unfold entry_key in *. cbn [fst snd] in *. subst k. apply string_key_eq in E; [|done|done].
    rewrite E in Hin. apply list_elem_of_fmap. exists (compositeKey val pk, rk). split; [done|]. apply list_elem_of_filter. split; [|done]. by apply composite_prefix.
Qed.

(** Maintaining one update, in whatever state the index is. *)
Lemma update_entry old new si :
  idx_Table (si_def si) = name -> entry_tree si -> row_new def old -> row_new def new ->
  exists si', index_update name def [mkUpdate pk old new] si = Some (si', None) /\ entry_tree si' /\ found_under new si'.
Proof.
  intros Htab [Hcol [f Hf]] Ho Hn. destruct (row_index_value (si_def si) def Hcol _ Ho) as (iv & ok & Eo & Hco & _).
  destruct (row_index_value (si_def si) def Hcol _ Hn) as (iv' & ok' & En & Hcn & Hiv).
  cbn [index_update up_oldRow up_newRow up_pk]. rewrite (Eo si eq_refl), (En si eq_refl).
  assert (exists s1, (if ok then remove_entry si iv pk else Some si) = Some s1 /\ si_def s1 = si_def si /\ exists f1, tree_has entry_key (entry_ok (int_keys def)) (si_tree s1) f1)
    as (s1 & -> & Hd1 & f1 & H1).
  { destruct ok; [|by exists si; eauto]. destruct (tree_has_delete entry_key _ _ _ (iv, pk) Hf) as (t1 & E & H1). exists (mkSec (si_def si) t1).
    unfold remove_entry. change (compositeKey iv pk) with (entry_key (iv, pk)). cbv zeta. rewrite E. eauto. }
  cbn [mbind option_bind]. destruct ok'.
  - destruct (tree_has_put entry_key _ _ _ (iv', pk) (rowKey name (pk_encode pk)) H1) as (t2 & E & H2); [by split; auto|].
    unfold insert_entry. change (compositeKey iv' pk) with (entry_key (iv', pk)). cbv zeta. rewrite E. cbn [mbind option_bind]. eexists. split; [done|].
    split; [split; [by rewrite Hd1|eauto]|]. intros val Hc. cbn [si_def]. rewrite Hd1, Hiv. intros [= Ep].
    eapply tree_lookup; [exact H2|done|]. cbv beta. unfold entry_key, compositeKey. cbn [fst snd]. rewrite Ep. by rewrite compare_refl.
  - cbn [mbind option_bind]. eexists. split; [done|]. split; [split; [by rewrite Hd1|eauto]|]. intros val Hc. rewrite Hd1, Hiv. done.
Qed.
End row.

(** The pass over all indexes for one changed row, after the commit. *)
Lemma update_indexes_one v name def u db secs :
  each_index name (index_update name def [u]) (e_each v (secIndexes db)) (secIndexes db) = Some (secs, None) ->
  update_indexes v name def [u] db = Some (set_secs secs db, Ok (mkResult 1)).
Proof. intros E. unfold update_indexes. by rewrite E. Qed.

Section two_updates.
Context (db : Database) (a : adb) (name : bytes) (t : atable) (pk : pkKey) (vals0 vals1 vals2 : list Value).
Hypothesis represents : rep db a.
Hypothesis exists_table : a_tables a !! name = Some t.
Hypothesis exists_row : at_rows t !! pk_encode pk = Some vals0.
Hypothesis key_kind : pk_kind (int_keys (at_def t)) pk.
Hypothesis new1 : row_new (at_def t) vals1.
Hypothesis new2 : row_new (at_def t) vals2.
Let u1 := mkUpdate pk vals0 vals1.
Let u2 := mkUpdate pk (stored <$> vals1) vals2.

Lemma two_table : table_wf name (at_def t).
Proof. by eapply aw_tables; [apply represents|]. Qed.

Lemma two_rows_new : row_new (at_def t) vals0 /\ row_new (at_def t) (stored <$> vals1).
Proof.
  split; apply row_typed_new; [exact (rw_types _ _ _ (aw_rows _ (rp_wf _ _ represents) _ _ _ _ exists_table exists_row))|].
  by apply row_new_stored; [apply (tw_shape _ _ two_table)|].
Qed.

Lemma two_indexes x si : secIndexes db !! x = Some si -> idx_Table (si_def si) = name ->
  sec_rep (si_def si) (at_def t) (at_rows t) si /\ index_column_ok (at_def t) (idx_Column (si_def si)) (idx_Path (si_def si)) = Ok tt.
Proof. intros Hx Hm. by destruct (index_of db a name t represents exists_table x si Hx Hm) as (_ & ? & ?). Qed.

Lemma maintained_reversed v1 v2 :
  exists db1 db2, update_indexes v2 name (at_def t) [u2] db = Some (db1, Ok (mkResult 1)) /\
  update_indexes v1 name (at_def t) [u1] db1 = Some (db2, Ok (mkResult 1)) /\
  forall x si, secIndexes db2 !! x = Some si -> idx_Table (si_def si) = name -> found_under name (at_def t) pk vals1 si.
Proof.
  destruct two_rows_new as [Hn0 Hs1].
  destruct (pass_all v2 name (index_update name (at_def t) [u2]) (entry_tree (at_def t)) (entry_tree (at_def t)) db) as (m1 & E1 & H1).
  { intros si Hm Hp. destruct (update_entry name (at_def t) pk key_kind _ _ si Hm Hp Hs1 new2) as (si' & E & Hp' & _). eauto. }
  { intros x si Hx Hm. destruct (two_indexes x si Hx Hm) as [[_ Hh] Hc]. split; eauto. }
  destruct (pass_all v1 name (index_update name (at_def t) [u1]) (entry_tree (at_def t)) (found_under name (at_def t) pk vals1) (set_secs m1 db)) as (m2 & E2 & H2).
  { intros si Hm Hp. destruct (update_entry name (at_def t) pk key_kind _ _ si Hm Hp Hn0 new1) as (si' & E & _ & Hp'). eauto. }
  { exact H1. }
  eexists _, _. split; [by apply update_indexes_one|]. split; [by apply update_indexes_one|]. exact H2.
Qed.

Lemma maintained_in_order v1 v2 :
  exists db1 db2, update_indexes v1 name (at_def t) [u1] db = Some (db1, Ok (mkResult 1)) /\
  update_indexes v2 name (at_def t) [u2] db1 = Some (db2, Ok (mkResult 1)) /\
  forall x si val rks, secIndexes db2 !! x = Some si -> idx_Table (si_def si) = name -> clean val ->
  lookup si val = Some rks -> rowKey name (pk_encode pk) ∈ rks -> index_value (si_def si) (at_def t) vals2 = Some (value_prefix val).
Proof.
  destruct two_rows_new as [Hn0 Hs1].
  set (rows1 := updates [u1] ∪ at_rows t). set (rows2 := updates [u2] ∪ rows1).
  set (at_rows_of rows := fun si => sec_rep (si_def si) (at_def t) rows si /\
    index_column_ok (at_def t) (idx_Column (si_def si)) (idx_Path (si_def si)) = Ok tt).
  assert (rows1 !! pk_encode pk = Some (stored <$> vals1)) as Hrow1.
  { unfold rows1. apply lookup_union_Some_l. unfold updates. cbn. by rewrite lookup_insert_eq. }
  assert (rows2 !! pk_encode pk = Some (stored <$> vals2)) as Hrow2.
  { unfold rows2. apply lookup_union_Some_l. unfold updates. cbn. by rewrite lookup_insert_eq. }
  assert (forall u rows si, up_pk u = pk -> rows !! pk_encode pk = Some (up_oldRow u) -> row_new (at_def t) (up_oldRow u) -> row_new (at_def t) (up_newRow u) ->
    idx_Table (si_def si) = name -> at_rows_of rows si ->
    exists si', index_update name (at_def t) [u] si = Some (si', None) /\ at_rows_of (updates [u] ∪ rows) si') as Hstep.
  { intros u rows si Hu Hold Hno Hnn Hm [Hs Hc]. rewrite <- Hm. destruct (index_update_ok (si_def si) (at_def t) Hc [u] rows si Hs) as (si' & E & H).
    - cbn. apply NoDup_singleton.
    - apply Forall_singleton. unfold update_enc. rewrite Hu. done.
    - exists si'. split; [done|]. destruct H as [Hd H]. split; [split; [done|by rewrite Hd]|by rewrite Hd]. }
  destruct (pass_all v1 name (index_update name (at_def t) [u1]) (at_rows_of (at_rows t)) (at_rows_of rows1) db) as (m1 & E1 & H1).
  { intros si Hm Hp. by apply Hstep. }
  { intros x si Hx Hm. by apply two_indexes with x. }
  destruct (pass_all v2 name (index_update name (at_def t) [u2]) (at_rows_of rows1) (at_rows_of rows2) (set_secs m1 db)) as (m2 & E2 & H2).
  { intros si Hm Hp. by apply Hstep. }
  { exact H1. }
  eexists _, _. split; [by apply update_indexes_one|]. split; [by apply update_indexes_one|].
  intros x si val rks Hx Hm Hc Hl Hin. destruct (H2 x si Hx Hm) as [Hs Hcol].
  destruct (lookup_rows _ _ _ _ Hs val Hc) as (pks & El & _ & Hpks). rewrite Hl in El. injection El as ->.
  apply list_elem_of_fmap in Hin as (pk' & E & Hin). apply Hpks in Hin as (Hk' & vals & Hv & Hiv). rewrite Hm in E.
  apply rowKey_inj_lemma in E as [_ E]; [|apply (ng_slash _ (tw_good _ _ two_table))..]. rewrite <- E, Hrow2 in Hv. injection Hv as <-.
  by rewrite (index_value_stored (si_def si) (at_def t) vals2 new2) in Hiv.
Qed.
End two_updates.

(** C32.  Index maintenance is not ordered with the commits.  On any database that
    represents some tables, take a row and two UPDATEs of it, the first from its
    stored values to [vals1] and the second from those to [vals2].  When the indexes
    are maintained in the opposite order of the commits, no step fails, and
    afterwards every index of the table still finds the row under the overwritten
    value of [vals1]; when they are maintained in the order of the commits, an
    index finds the row under that value only if [vals2] has it too. *)
Theorem concurrent_updates_leave_stale_index v1 v2 db a name t pk vals0 vals1 vals2 :
  rep db a -> a_tables a !! name = Some t -> at_rows t !! pk_encode pk = Some vals0 -> pk_kind (int_keys (at_def t)) pk ->
  row_new (at_def t) vals1 -> row_new (at_def t) vals2 ->
  let u1 := mkUpdate pk vals0 vals1 in let u2 := mkUpdate pk (stored <$> vals1) vals2 in
  (exists db1 db2, update_indexes v2 name (at_def t) [u2] db = Some (db1, Ok (mkResult 1)) /\
     update_indexes v1 name (at_def t) [u1] db1 = Some (db2, Ok (mkResult 1)) /\
     forall x si, secIndexes db2 !! x = Some si -> idx_Table (si_def si) = name -> found_under name (at_def t) pk vals1 si) /\
  (exists db1 db2, update_indexes v1 name (at_def t) [u1] db = Some (db1, Ok (mkResult 1)) /\
     update_indexes v2 name (at_def t) [u2] db1 = Some (db2, Ok (mkResult 1)) /\
     forall x si val rks, secIndexes db2 !! x = Some si -> idx_Table (si_def si) = name -> clean val ->
     lookup si val = Some rks -> rowKey name (pk_encode pk) ∈ rks -> index_value (si_def si) (at_def t) vals2 = Some (value_prefix val)).
Proof.
  intros Hrep Ht Hrow Hkind Hn1 Hn2 u1 u2. split; [by eapply maintained_reversed|by eapply maintained_in_order].
Qed.
End stale_index.

(** * Instances of the two theorems *)

Definition row_key_2 : pkKey := pkFromInt 2.
Definition named (name : bytes) : list Value := [IntValue 2; TextValue name; nullOf TypeJSON].

Lemma named_new name : plain_expr (exprText name) = true -> row_new users_def (named name).
Proof.
  intros Hp. apply Forall2_cons; split; [apply (expr_new (exprInt 2)); [apply plain_fine; vm_compute; reflexivity|reflexivity]|].
  apply Forall2_cons; split; [apply (expr_new (exprText name)); [by apply plain_fine|reflexivity]|]. apply Forall2_cons; split; [apply null_new|constructor].
Qed.

Definition vals_bob : list Value := default [] (at_rows users_t !! pk_encode row_key_2).

Lemma users_in_a0 : a_tables a0 !! lit "users" = Some users_t /\ at_def users_t = users_def.
Proof.
  assert (a_tables a0 !! lit "users" = Some users_t) as Ht by (vm_compute; reflexivity). split; [exact Ht|]. apply (users_table _ Ht).
Qed.

Lemma concurrent_updates_leave_stale_index_witness :
  exists db1 db2, update_indexes v0 (lit "users") users_def [mkUpdate row_key_2 (stored <$> named (lit "bea")) (named (lit "cat"))] db0 = Some (db1, Ok (mkResult 1)) /\
  update_indexes v0 (lit "users") users_def [mkUpdate row_key_2 vals_bob (named (lit "bea"))] db1 = Some (db2, Ok (mkResult 1)) /\
  forall x si, secIndexes db2 !! x = Some si -> idx_Table (si_def si) = lit "users" -> found_under (lit "users") users_def row_key_2 (named (lit "bea")) si.
Proof.
  destruct users_in_a0 as [Ht Hd].
  assert (at_rows users_t !! pk_encode row_key_2 = Some vals_bob) as Hrow by (vm_compute; reflexivity).
  assert (pk_kind (int_keys (at_def users_t)) row_key_2) as Hkind by (rewrite Hd; split; [split; [unfold in_i64; cbn; lia|reflexivity]|vm_compute; reflexivity]).
  assert (forall n, plain_expr (exprText n) = true -> row_new (at_def users_t) (named n)) as Hnew by (rewrite Hd; exact named_new).
  assert (row_new (at_def users_t) (named (lit "bea"))) as H1 by (apply Hnew; vm_compute; reflexivity).
  assert (row_new (at_def users_t) (named (lit "cat"))) as H2 by (apply Hnew; vm_compute; reflexivity).
  destruct (concurrent_updates_leave_stale_index v0 v0 db0 a0 (lit "users") users_t row_key_2 vals_bob (named (lit "bea")) (named (lit "cat"))
    (rd_rep _ _ base_ready) Ht Hrow Hkind H1 H2) as [H _]. rewrite Hd in H. exact H.
Defined.

(** The index of names, which serves conditions on it, and the overwritten name it then holds. *)
Example by_name_serves : match secIndexes db0 !! lit "by_name" with Some si => serves users_def (predColumn (lit "Name") exprNull) si | None => false end = true.
Proof. vm_compute. reflexivity. Qed.

Lemma null_equality_uses_zero_witness :
  exists db' rows l, execSelect v0 (lit "users") [selectStar] [predColumn (lit "Name") exprNull] db0 = Some (db', Ok rows) /\
  r_data rows = result_row users_def [selectStar] <$> l /\ l ≡ₚ (map_to_list (selected users_t [predColumn (lit "Name") (exprText [])])).*2 /\
  Forall (fun vals => satisfies users_def [predColumn (lit "Name") exprNull] vals = false) l.
Proof.
  destruct users_in_a0 as [Ht Hd].
  assert (by_index db0 (at_def users_t) (lit "Name")) as Hby.
  { right. pose proof by_name_serves as Hs. rewrite <- Hd in Hs. exists (lit "by_name").
    destruct (secIndexes db0 !! lit "by_name") as [si|]; [|discriminate Hs]. exists si. split; [reflexivity|exact Hs]. }
  assert (resolve (at_def users_t) (lit "Name") = Some (1%nat, mkColumn (lit "name") TypeText false)) as Hr by (rewrite Hd; vm_compute; reflexivity).
  destruct (null_equality_uses_zero v0 (lit "users") [selectStar] (lit "Name") db0 a0 users_t 1 (mkColumn (lit "name") TypeText false)
    (rd_rep _ _ base_ready) (rd_open _ _ base_ready) Ht ltac:(by repeat constructor) eq_refl Hr (or_intror eq_refl) Hby) as [H _].
  rewrite Hd in H. exact H.
Defined.

(** * The guard of the primary key *)

(** Case folding also equates the long s (U+017F, bytes C5 BF) with s, as
    strings.EqualFold does; strings.ToLower keeps it. *)
Fixpoint fold_long_s (s : bytes) : bytes :=
  match s with
  | Byte.xc5 :: ((Byte.xbf :: t) as s') => Byte.x73 :: fold_long_s t
  | b :: s => b :: fold_long_s s
  | [] => []
  end.

Lemma fold_ascii s : is_ascii s = true -> fold_long_s s = s.
Proof.
  induction s as [|b s IH]; [done|]. unfold is_ascii in *. cbn [forallb]. intros [Hb Hs]%andb_true_iff.
  destruct b; try discriminate Hb; cbn [fold_long_s]; by rewrite (IH Hs).
Qed.

#[refine] Instance long_s_tables : Unicode := {|
  isLetter r := ascii_letter r || (r =? 0x17F);
  isDigit := ascii_digit;
  isSpace := ascii_space;
  toUpper := ascii_to_upper;
  toLower := ascii_to_lower;
  equalFold s t := bool_decide (ascii_to_upper (fold_long_s s) = ascii_to_upper (fold_long_s t));
|}.
Proof.
  - intros r Hr. rewrite (proj2 (Z.eqb_neq _ _)) by lia. apply orb_false_r.
  - done.
  - done.
  - done.
  - intros s t _. apply fmap_app.
  - done.
  - intros s t Hs Ht. by rewrite !fold_ascii.
  - intros s. by apply bool_decide_true.
Defined.

Definition long_s : bytes := [Byte.xc5; Byte.xbf].

Definition keyed : option Database :=
  script (U := long_s_tables)
    [lit "CREATE TABLE t (s INTEGER PRIMARY KEY)"; lit "INSERT INTO t VALUES (1)"; lit "UPDATE t SET " ++ long_s ++ lit " = 5"] fresh_database.

(** The row found under key 1 says 5, and key 5 is not found. *)
Example changed_key_run :
  answer (U := long_s_tables) keyed (lit "SELECT s FROM t WHERE s = 1") = Some (Ok [[IntValue 5]]) /\
  answer (U := long_s_tables) keyed (lit "SELECT s FROM t WHERE s = 5") = Some (Ok []).
Proof. vm_compute. done. Qed.

Section key_guard.
Context `{U : Unicode} `{J : GoJson} `{R : RecordCodec} `{C : CatalogCodec}.

(** Indexes of other tables do not hinder a pass. *)
Lemma pass_none v name f db :
  (forall x si, secIndexes db !! x = Some si -> idx_Table (si_def si) <> name) ->
  exists secs, each_index name f (e_each v (secIndexes db)) (secIndexes db) = Some (secs, None).
Proof.
  intros Hno. destruct (pass_all v name f (fun _ => False) (fun _ => True) db) as (secs & E & _); [done| |by exists secs].
  intros x si Hx Hm. by apply (Hno x si).
Qed.

(** C34.  The guard of the primary key can be passed by.  It compares the
    lower-cased name with the key's name, while the assignment finds its column by
    case folding.  Whenever a name [c] folds to the key column without being equal to its
    name in lower case (as the long s does to s), on any open database that represents
    tables, for a table without secondary indexes and a condition [where_ok]: an UPDATE
    that sets [c] to a value [x] of the key's type, which leaves the rows small
    enough, succeeds and stores [x] in the key column of every selected row while the
    row stays under the key of its old value; the key the stored row states is then
    that of [x], whatever key it lies under. *)
Theorem update_can_change_primary_key v table c e ws db a t pkCol i x :
  ready db a -> e_io v = IoOk -> a_tables a !! normalizeName table = Some t -> pkColumn (at_def t) = Ok (pkCol, i) -> where_ok (at_def t) ws ->
  (forall y si, secIndexes db !! y = Some si -> idx_Table (si_def si) <> normalizeName table) ->
  normalizeName c <> col_Name pkCol -> columnIndex (at_def t) (normalizeName c) = Ok i ->
  exprToValue e (col_Type pkCol) = Ok x -> value_ok x -> Null x = false ->
  (forall enc vals, selected t ws !! enc = Some vals -> zlen (encodeRow (<[i := x]> vals)) <= pageSize - 8) ->
  exists db', execUpdate v table [mkAssign c e] ws db = Some (db', Ok (mkResult (Z.of_nat (size (selected t ws))))) /\
  forall enc vals, selected t ws !! enc = Some vals ->
  exists raw row, now (kv db') (rowKey (normalizeName table) enc) = Some raw /\ unpackRow raw = Some (Ok row) /\
  row = stored <$> <[i := x]> vals /\ row_pk (at_def t) row = Some (key_of (col_Type pkCol) x).
Proof.
  intros Hrd Hio Ht Hpk Hws Hno Hname Hfold Hx Hok Hnn Hfit. pose proof (rd_rep _ _ Hrd) as Hrep. set (name := normalizeName table) in *.
  pose proof (aw_tables _ (rp_wf _ _ Hrep) _ _ Ht) as Hwf. destruct (pkColumn_inv _ _ _ Hpk) as [Hi _].
  assert (forall vals, apply_sets (at_def t) [mkAssign c e] vals = Ok (<[i := x]> vals)) as Hset.
  { intros vals. cbn [apply_sets as_column as_value]. rewrite Hfold. cbn [rbind]. by rewrite Hi, Hx. }
  unfold execUpdate. fold name. rewrite (known_table db a Hrd name t Ht). rewrite Hpk. cbn [sets_pk existsb as_column].
  rewrite bool_decide_false by done. cbn [orb].
  destruct (collectRows_ok db a name t Hrep Ht (e_tx v) true v ws (began (e_tx v) (kv db)) Hws) as (k1 & items & Ec & Hk1 & Hcol);
    [by eapply began_same|].
  destruct (collected_map db a name t Hrep Ht ws items Hcol) as (Hsel & Hnd & Hsize & Hall).
  destruct (update_rows_run v db t [mkAssign c e] items ∅ (row_keys_sql db a Hrd name t Ht ws items Hcol)
    (row_keys_NoDup db a Hrd name t Ht ws items Hcol) writes_sql_empty) as (w & r & Eu & Hw & Honly & Hr).
  destruct r as [us|err].
  2:{ destruct Hr as (it & Hit & Hn). exfalso. rewrite updated_row_apply, Hset in Hn. unfold stored_row in Hn.
      rewrite Forall_forall in Hall. destruct (Hall it Hit) as (Hrow & _). destruct Hcol as [_ Hp].
      assert (item_image it ∈ map_to_list (selected t ws)) as Hm by (rewrite <- Hp; apply list_elem_of_fmap; by exists it).
      apply elem_of_map_to_list, Hfit in Hm. by rewrite (proj2 (Z.leb_le _ _)) in Hn. }
  destruct (update_run v db a Hrd (A := list updateItem) (update_body v db (at_def t) [mkAssign c e] ws) k1 w (Ok us)) as (k' & r' & E & _ & H);
    [unfold update_body; rewrite Ec; cbn [mbind option_bind]; change (fresh_tx (e_tx v) true (kv db)) with (set_writes ∅ (fresh_tx (e_tx v) true (kv db))); by rewrite Eu|done|done|].
  destruct H as [(-> & Hk' & Hnow)|(_ & Ho & _)]; [|done]. rewrite E. cbn [mbind option_bind].
  destruct (pass_none v name (index_update name (at_def t) us) (set_kv k' db) Hno) as (secs & Es).
  unfold update_indexes. rewrite Es. cbn [mbind option_bind finish fst snd]. eexists. split.
  { do 4 f_equal. rewrite <- Hsize. unfold zlen. by rewrite (Forall2_length _ _ _ Hr). }
  intros enc vals Hv. cbn [set_secs set_kv kv].
  assert (exists it, it ∈ items /\ item_enc it = enc /\ ri_values it = vals) as (it & Hit & <- & <-).
  { destruct Hcol as [_ Hp]. apply elem_of_map_to_list in Hv. rewrite <- Hp in Hv. apply list_elem_of_fmap in Hv as (it & [= -> ->] & Hit). by exists it. }
  destruct (list_elem_of_lookup_1 _ _ Hit) as [j Hj]. destruct (Forall2_lookup_l _ _ _ _ _ Hr Hj) as (u & _ & _ & _ & Ha & page & Hpage & Hw').
  rewrite Hset in Ha. injection Ha as Ha. rewrite <- Ha in Hpage. rewrite Forall_forall in Hall. destruct (Hall it Hit) as (Hrow & Hrwf & _).
  destruct Hcol as [Hiwf _]. rewrite Forall_forall in Hiwf. destruct (Hiwf it Hit) as [_ Hkey].
  assert (i < length (ri_values it))%nat as Hlen.
  { rewrite <- (Forall2_length _ _ _ (rw_types _ _ _ Hrwf)). by eapply lookup_lt_Some. }
  eexists page, _. split; [rewrite Hnow; unfold under; by rewrite <- Hkey, Hw'|]. split; [|split; [done|]].
  - apply unpack_pack; [|done]. apply Forall_insert; [|done]. apply (row_new_ok (at_def t)), row_typed_new, Hrwf.
  - unfold row_pk. rewrite Hpk, list_lookup_fmap, list_lookup_insert_eq by done. cbn [fmap option_fmap option_map mbind option_bind].
    destruct (exprToValue_new _ _ _ Hx) as [?|[Htx ->]]; [congruence|]. rewrite Hnn.
    pose proof (proj2 (Forall_lookup_1 _ _ _ _ (tw_shape _ _ Hwf) Hi)) as Hshape.
    destruct (pkColumn_inv _ _ _ Hpk) as [_ Hpkc]. by destruct (Hshape Hpkc) as [-> | ->].
Qed.
End key_guard.

(** CREATE TABLE takes two columns of one name; only the first can be reached. *)
Theorem duplicate_columns_accepted :
  answer (U := ascii_tables) (script (U := ascii_tables) [lit "CREATE TABLE d (id INTEGER PRIMARY KEY, x TEXT, X INTEGER)"; lit "INSERT INTO d VALUES (1, 'a', 2)"] fresh_database)
    (lit "SELECT x, X FROM d") = Some (Ok [[TextValue (lit "a"); TextValue (lit "a")]]).
Proof. vm_compute. done. Qed.

(** The table with the key column s, under folding that equates the long s with it. *)
Definition keyed_script : list stmt := [createTableStmt (lit "t") [mkColumn (lit "s") TypeInteger true]; insertStmt (lit "t") [] [exprInt 1]].
Definition keyed_tables : adb := foldl (fun a st => match spec_exec (U := long_s_tables) a st with Some (_, a') => a' | None => a end) no_tables keyed_script.
Definition keyed_db : Database := after (U := long_s_tables) (run_script keyed_script).
Definition keyed_t : atable := default (mkATable (mkTable [] []) ∅) (a_tables keyed_tables !! lit "t").

Lemma keyed_ready : ready (U := long_s_tables) keyed_db keyed_tables.
Proof.
  apply (script_ready (U := long_s_tables)); [by vm_compute|]. split; [done|]. split; [|eexists _, _; split; [vm_compute; reflexivity|]].
  - split; [apply plain_name; by vm_compute|]. split; [repeat constructor; apply plain_name; by vm_compute|]. split; [compute_bool|]. split; [by vm_compute|].
    repeat constructor; cbn; auto; done.
  - split; [done|]. split; [|eexists _, _; split; [vm_compute; reflexivity|vm_compute; reflexivity]].
    apply Forall_singleton. apply (plain_fine (H := long_s_tables)). by vm_compute.
Qed.

Lemma update_can_change_primary_key_witness :
  exists db', execUpdate (U := long_s_tables) v0 (lit "t") [mkAssign long_s (exprInt 5)] [] keyed_db =
    Some (db', Ok (mkResult (Z.of_nat (size (selected (U := long_s_tables) keyed_t []))))) /\
  forall enc vals, selected (U := long_s_tables) keyed_t [] !! enc = Some vals ->
  exists raw row, now (kv db') (rowKey (lit "t") enc) = Some raw /\ unpackRow raw = Some (Ok row) /\
  row = stored <$> <[0%nat := IntValue 5]> vals /\ row_pk (at_def keyed_t) row = Some (key_of TypeInteger (IntValue 5)).
Proof.
  apply (update_can_change_primary_key (U := long_s_tables) v0 (lit "t") long_s (exprInt 5) [] keyed_db keyed_tables keyed_t (mkColumn (lit "s") TypeInteger true) 0 (IntValue 5)).
  - exact keyed_ready.
  - reflexivity.
  - vm_compute. reflexivity.
  - vm_compute. reflexivity.
  - split; [constructor|exact I].
  - intros y si Hy. assert (secIndexes keyed_db = ∅) as E by (vm_compute; reflexivity). rewrite E, lookup_empty in Hy. discriminate Hy.
  - vm_compute. discriminate.
  - vm_compute. reflexivity.
  - reflexivity.
  - unfold value_ok, in_i64. cbn. lia.
  - reflexivity.
  - change (map_Forall (fun _ vals => zlen (encodeRow (<[0%nat := IntValue 5]> vals)) <= pageSize - 8) (selected (U := long_s_tables) keyed_t [])). compute_bool.
Defined.
