(* ===== verification/ServerWitness.v ===== *)
(** Concrete instances of the theorems of the HTTP interface: requests against an
    empty database and against the tables of [SqlWitness]. *)

From S2P Require Import Prelude Utf8 Unicode Strconv Keys Page Row JsonBin SqlLex Wal WalJson Mvcc Compact System Durable Witnesses Catalog CatalogJson BTree Secondary.
From S2P Require Import SqlAst SqlParse SqlBind SqlBindSpec SqlExec SqlKernel SqlBase SqlSemantics SqlState SqlSchema SqlRefine SqlWitness Server ServerSpec ServerRefine.

(** A decoder of requests without arguments whose statement needs no escapes: the
    object with the member sql, and nothing else. *)
Definition request_open : bytes := [Byte.x7b; Byte.x22] ++ lit "sql" ++ [Byte.x22; Byte.x3a; Byte.x22].
Definition request_close : bytes := [Byte.x22; Byte.x7d].

Definition demo_decode (b : bytes) : res (bytes * list arg) :=
  let rest := drop (length request_open) b in
  let n := (length rest - length request_close)%nat in
  if has_prefix b request_open && bool_decide (drop n rest = request_close) &&
     forallb (fun c => negb (bool_decide (c = Byte.x22 \/ c = Byte.x5c))) (take n rest)
  then Ok (take n rest, []) else Err ErrDecode.

#[refine] Instance demo_requests : RequestJson := {| decodeRequest s := demo_decode (fst s) |}.
Proof. intros [b f] sql args. cbn [fst]. unfold demo_decode. case_match; [|done]. by intros [= _ <-]. Defined.

Definition w0 : world := mkWorld v0 CIoOk 0 true.

(** * Keys and values *)

Lemma empty_serves : serves_map (empty_database walHeader) no_tables (∅, true).
Proof. split; [apply rep_empty|done|done]. Qed.

(** The statuses of a run. *)
Example kv_statuses :
  option_map (fun x => rs_status <$> snd x)
    (serve_all ((fun wq => (fst wq, to_http (snd wq))) <$> [(w0, KGet (lit "a")); (w0, KDelete (lit "__rdb__/x")); (w0, KCompact)]) (empty_database walHeader))
  = Some [404; 500; 204].
Proof. vm_compute. reflexivity. Qed.

Definition long_body : bytes := replicate (S (Z.to_nat limit)) Byte.x61.

Lemma put_truncates_silently_witness :
  exists db', Handler w0 (mkRequest (lit "PUT") (kv_path (lit "k")) long_body false) (empty_database walHeader) = Some (db', noContent) /\
  now (kv db') (lit "k") = Some (take (Z.to_nat limit) long_body) /\ zlen (take (Z.to_nat limit) long_body) = limit /\
  take (Z.to_nat limit) long_body <> long_body.
Proof.
  apply (put_truncates_silently w0 (lit "k") long_body false (empty_database walHeader) no_tables ∅).
  - exact empty_serves.
  - vm_compute. reflexivity.
  - split; [discriminate|]. split; discriminate.
  - reflexivity.
  - reflexivity.
  - unfold long_body, zlen. rewrite length_replicate. lia.
Defined.

(** * Keys and statements *)

Definition create_text : bytes := lit "create table Users (id integer primary key, Name text, doc json)".
Definition create_request : request := mkRequest (lit "POST") (lit "/v1/sql") (request_open ++ create_text ++ request_close) false.

Definition sql_post (sql : bytes) : request := mkRequest (lit "POST") (lit "/v1/sql") (request_open ++ sql ++ request_close) false.

Definition kv_path_key : bytes := lit "a/b c".

Definition unknown_text : bytes := lit "select a from nowhere where b = 1 and c = 2".

(** Keys and statements in turn, a table that does not exist, a text that is not
    SQL, a body that is not JSON, a wrong method, an unknown path, and reads of a
    catalog entry and of the metrics. *)
Definition service_script : list (world * request) :=
  [(w0, to_http (KPut kv_path_key (lit "1") false)); (w0, create_request); (w0, to_http KCompact); (w0, create_request);
   (w0, to_http (KDelete (lit "__rdb__/x"))); (w0, to_http (KGet kv_path_key));
   (w0, sql_post unknown_text); (w0, sql_post (lit "selec * from users"));
   (w0, mkRequest (lit "POST") (lit "/v1/sql") (lit "no") false); (w0, mkRequest (lit "PATCH") (lit "/v1/kv/a") [] false);
   (w0, mkRequest (lit "GET") (lit "/v1/nothing") [] false); (w0, to_http (KGet (catalogTableKey (lit "users"))));
   (w0, mkRequest (lit "GET") (lit "/v1/metrics") [] false)].

Example service_statuses :
  option_map (fun x => rs_status <$> snd x) (serve_all service_script (empty_database walHeader)) =
  Some [204; 200; 204; 400; 500; 200; 400; 400; 400; 405; 404; 200; 200].
Proof. vm_compute. reflexivity. Qed.

(** A request that is no statement is covered, and so is a statement that does not parse. *)
Lemma covered_other a rq : (forall sql args, sql_request rq sql args -> forall st, parseSQL sql <> Some (Ok st)) -> covered a rq.
Proof. intros H sql args st0 st Hrq Hp. exfalso. by eapply H. Qed.

(** A statement without parameters, known by its text. *)
Lemma covered_text a sql st :
  decodeRequest (limited (Z.shiftl 1 20) (sql_post sql)) = Ok (sql, []) -> parseSQL sql = Some (Ok st) -> bindArgs st [] = Ok st ->
  is_ascii (first_text sql) = true ->
  match st with selectStmt table items ws => forall t, a_tables a !! normalizeName table = Some t -> where_ok (at_def t) ws | _ => stmt_ok a st end ->
  covered a (sql_post sql).
Proof. intros Hd Hp Hb Ha Hst sql' args st0 st' (_ & _ & _ & Hd') Hp' Hb'. rewrite Hd in Hd'. injection Hd' as <- <-. rewrite Hp in Hp'. injection Hp' as <-. rewrite Hb in Hb'. by injection Hb' as <-. Qed.

Lemma covered_create a : covered a create_request.
Proof. apply (covered_text a create_text s_create); [reflexivity|vm_compute; reflexivity|vm_compute; reflexivity|vm_compute; reflexivity|exact (create_ok a)]. Qed.

Lemma covered_unknown a : covered a (sql_post unknown_text).
Proof.
  apply (covered_text a unknown_text (selectStmt (lit "nowhere") [selectColumn (lit "a")] [predColumn (lit "b") (exprInt 1); predColumn (lit "c") (exprInt 2)]));
    [reflexivity|vm_compute; reflexivity|vm_compute; reflexivity|vm_compute; reflexivity|].
  intros t _. split; [by repeat constructor|exact I].
Qed.

Lemma covered_misspelt a : covered a (sql_post (lit "selec * from users")).
Proof.
  apply covered_other. intros sql args (_ & _ & _ & Hd) st Hp. vm_compute in Hd. injection Hd as <- <-. vm_compute in Hp. discriminate.
Qed.

Lemma covered_no_json a : covered a (mkRequest (lit "POST") (lit "/v1/sql") (lit "no") false).
Proof. apply covered_other. intros sql args (_ & _ & _ & Hd). vm_compute in Hd. discriminate. Qed.

Ltac not_sql := apply covered_other; intros sql args (_ & H & _); vm_compute in H; discriminate.

(** The statements of the script keep the one table it makes. *)
Lemma http_service_refines_contract_witness :
  exists db' rs s' a', serve_all service_script (empty_database walHeader) = Some (db', rs) /\
  served_all service_script (∅, true) no_tables rs s' a' /\ serves_map db' a' s'.
Proof.
  apply (http_service_refines_contract service_script (empty_database walHeader) (∅, true) no_tables).
  - exact empty_serves.
  - vm_compute. reflexivity.
  - split; [not_sql|]. intros _ s1 a1 _. split; [apply covered_create|]. intros _ s2 a2 _.
    split; [not_sql|]. intros _ s3 a3 _. split; [apply covered_create|]. intros _ s4 a4 _.
    split; [not_sql|]. intros _ s5 a5 _. split; [not_sql|]. intros _ s6 a6 _.
    split; [apply covered_unknown|]. intros _ s7 a7 _. split; [apply covered_misspelt|]. intros _ s8 a8 _.
    split; [apply covered_no_json|]. intros _ s9 a9 _. split; [not_sql|]. intros _ s10 a10 _. split; [not_sql|]. intros _ s11 a11 _.
    split; [not_sql|]. intros _ s12 a12 _. split; [not_sql|]. intros; exact I.
Defined.
